(* ===== verification/_CoqProject ===== *)
-Q . S2P
Prelude.v
Div64.v
Bitmap.v
Civil.v
Vregion.v
HandleTable.v
Pmm.v
Mem.v
KString.v
Format.v
DList.v
Refcount.v
KVa.v
Slab.v
Timer.v
Wait.v
Semaphore.v
Rwlock.v
Mutex.v
EventGroup.v
Elf.v
Port.v
Deathwatch.v
Channel.v
Registry.v
DmaPool.v
Dma.v
Futex.v
