(* ===== verification/Prelude.v ===== *)
(** * MainDOB: a verification of the kernel's core data structures and protocols

    MainDOB is a 32-bit x86 microkernel operating system written in C.  The kernel
    (src/kernel) owns physical and virtual memory, threads and their queues, locks, timers
    and IPC; drivers, the file system and the window server are user processes.  This
    development models the parts of the kernel every other part is built on, in the order
    in which they call each other, and proves what each of them promises.

    ** Files, sources and results

    - Prelude (this file): machine integers, arrays that are undefined out of bounds, bit
      lemmas, reachability, sums over maps, tactics and hint databases.
    - Div64 (lib/div64.c, types.h): 64-by-32 division over [divl]; exact quotients, no
      divide fault, truncation of the signed helpers.
    - Bitmap (lib/bitmap.c): first free bit, first run of free bits, range set and clear.
    - Civil (time/civil.c, units.h): dates to seconds and back; both round trips.
    - Vregion (mm/vregion.c): the ordered regions of an address space; first fit, the
      invariant of every history, allocate/free round trip.
    - HandleTable (krt/handle_table.c): three reuse policies refine one pool; stale
      references never resolve; how long an id stays out of use.
    - Pmm (mm/pmm.c, over Bitmap's word layout): boot map to bitmap, allocation and release
      of frames and runs; histories keep frames exclusive and the statistics exact.
    - Mem and KString (lib/string.c): byte memory with [rep movs] and overlap; memmove,
      strlcpy, strstr.
    - Format (lib/format.c): vsnprintf never writes beyond its buffer and counts in full.
    - DList (lib/list.h): the circular list of nodes refines a deque.
    - Refcount (krt/refcount.h): the CAS loops are linearizable; at most one last drop.
    - KVa and Slab (mm/kheap.c): virtual ranges with splitting and coalescing; slabs,
      per-CPU caches and double-free detection over the [PageSource] interface that KVa
      implements.
    - Timer (time/timer.c): the binary heap of timers with back indexes, growth, trim and
      the tick drain; ordering, termination, exactness, stale fires.
    - Wait (proc/wait.c, scheduler_unblock, scheduler_sleep_timer_fire): intrusive wait
      queues refine FIFO lists.
    - Semaphore, Rwlock, Mutex, EventGroup (sync): any number of threads, one step for each
      section under a guard and for each wake; exclusion, exact counts, priority
      inheritance, no lost wakeup; the batched wake of an event group is one filter.
    - Elf (proc/elf.c, static executables): byte memory, a page map and any [FrameSource],
      which Pmm is; a load is memory safe, touches only fresh frames, and leaves each segment's
      bytes, then zeros, where no later segment shares the page.
    - Port and Deathwatch (ipc/port.c, over Refcount): ports under any interleaving of create,
      lookup, destroy, put and teardown; no use after free, no id lost, no stale generation
      accepted; the watches on a port's death, their batches equal to one filter.
    - Channel (ipc/channel.c): sends with their replies, receives, posts, notifications and a
      port's end as steps of any number of threads; FIFO, answers, no lost wake-up, and the
      runs in which the code does lose one.
    - Registry (registry.c): names to ports as a map, waits and parked processes under any
      interleaving; no name registered with somebody still waiting for it.
    - DmaPool (mm/dma_pool.c): the drivers' reserve of contiguous pages; best fit, refusals,
      the count of free pages exact.
    - Dma (syscall/driver.c: sys_dma_alloc, sys_dma_free, sys_dma_verify, the cleanup of a dead
      process, sys_mmap_phys; over DmaPool and Pmm): any interleaving of the calls keeps every
      page of a live buffer exclusive and both allocators' books exact.
    - Futex (proc/futex.c over Wait, and the mutex of libc/include/futex.h): the two calls on
      the pointer level; the three-state mutex for any number of threads and processes,
      exclusion and no lost wake-up.

    ** How the model reads

    A C function is a Rocq function of the same name; its state is a record passed and
    returned; [option] is undefined behaviour (a wild pointer, an index out of an array), so
    that a result [Some _] is a memory-safety statement, and the errors the code reports are
    ordinary values.  Integers are [Z] with the wrap-around of their width written out.  A
    section under a spinlock with interrupts off is one function and, in the concurrent
    models, one step; everything between two sections is a place in the code where other
    threads run.  Loops that the structure does not bound take fuel; the theorems name a
    bound that is enough ([S (s_count s)] turns for a tick, [S (length waiters)] rounds for
    a wake pass, the number of nodes for a list walk), so none of them holds because a loop
    did not return.  What comes from outside (clocks, callbacks, the result of an
    allocation, whether a timer could be armed) is an argument.

    ** Not modelled

    Assembly and device registers (arch/x86, drivers, irq, acpi), page tables and TLB
    shootdown (mm/paging.c), run queues and the context switch (proc/scheduler.c beyond the
    entries above), processes and system calls, the pools of IPC entries, boot code, and everything in user
    space but the futex mutex: libraries, the file-system server, the window server and the
    programs.  Console output is dropped.  The instrumentation of the locks (lockdiag.c) is
    not modelled; a lock is its mutual exclusion.

    ** Plan

    Next: the scheduler's run queues, the argument block (proc/user_argv.c), the shared
    objects of the ELF loader, the pools of ipc/channel.c, then the FAT32 layer of the file system. *)

From stdpp Require Export base numbers list option gmap.
From Stdlib Require Export ZArith Lia Sorting.Sorted.
From Stdlib Require Import Btauto.

(** * Prelude: the C integer model and the shared lemmas

    Machine integers are [Z] values with their wrap-around written out: [u8],
    [u16], [u32], [u64] reduce a result modulo the width, [s32] and [s64] read a
    bit pattern as a signed number.  The notations of [c_scope] are the 32-bit
    unsigned operators of the source.  Arrays are lists read and written through
    [geti]/[seti], which return [None] outside the array (undefined behaviour in
    C), so a theorem that an operation returns [Some] is a memory-safety claim.
    The file also has the bit primitives the kernel uses ([ctz] for
    [__builtin_ctz]), a relation library for step systems, and the tactics and
    hint databases of the development. *)

#[export] Set Default Proof Using "Type".

Declare Scope c_scope.
Delimit Scope c_scope with C.
Open Scope Z_scope.
Open Scope c_scope.

(** ** Machine integers *)

Definition u8 (x : Z) : Z := x mod 0x100.
Definition u16 (x : Z) : Z := x mod 0x10000.
Definition u32 (x : Z) : Z := x mod 0x100000000.
Definition u64 (x : Z) : Z := x mod 0x10000000000000000.

(** The signed reading of a 32-bit (64-bit) pattern. *)
Definition s32 (x : Z) : Z := (x + 0x80000000) mod 0x100000000 - 0x80000000.
Definition s64 (x : Z) : Z :=
  (x + 0x8000000000000000) mod 0x10000000000000000 - 0x8000000000000000.

Definition UINT32_MAX : Z := 0xFFFFFFFF.
Definition PAGE_SIZE : Z := 4096.

Notation "x ⊞ y" := (u32 (x + y)) (at level 50, left associativity) : c_scope.
Notation "x ⊟ y" := (u32 (x - y)) (at level 50, left associativity) : c_scope.
Notation "x ⊠ y" := (u32 (x * y)) (at level 40, left associativity) : c_scope.

Definition is_u8 (x : Z) : Prop := 0 <= x < 0x100.
Definition is_u32 (x : Z) : Prop := 0 <= x < 0x100000000.
Definition is_u64 (x : Z) : Prop := 0 <= x < 0x10000000000000000.

(** 32-bit bitwise operators: [1U << k] and [~x]. *)
Definition bit32 (k : Z) : Z := u32 (Z.shiftl 1 k).
Definition not32 (x : Z) : Z := u32 (Z.lnot x).

(** [ALIGN_UP] and [ALIGN_DOWN] of kernel/lib/types.h at 32 bits. *)
Definition ALIGN_UP (v align : Z) : Z :=
  Z.land ((v ⊞ align) ⊟ 1) (not32 (align ⊟ 1)).
Definition ALIGN_DOWN (v align : Z) : Z := Z.land v (not32 (align ⊟ 1)).

(** ** Arithmetic automation *)

Ltac zlia := Z.to_euclidean_division_equations; lia.

(** [bool_solve] turns the boolean comparisons of the hypotheses and of the
    goal into propositions and calls [lia]. *)
Ltac bool_to_prop :=
  repeat match goal with
  | H : (_ <? _) = true |- _ => apply Z.ltb_lt in H
  | H : (_ <? _) = false |- _ => apply Z.ltb_ge in H
  | H : (_ <=? _) = true |- _ => apply Z.leb_le in H
  | H : (_ <=? _) = false |- _ => apply Z.leb_gt in H
  | H : (_ =? _) = true |- _ => apply Z.eqb_eq in H
  | H : (_ =? _) = false |- _ => apply Z.eqb_neq in H
  | H : (_ && _)%bool = true |- _ => apply andb_true_iff in H; destruct H
  | H : (_ || _)%bool = false |- _ => apply orb_false_iff in H; destruct H
  | H : negb _ = true |- _ => apply negb_true_iff in H
  | H : negb _ = false |- _ => apply negb_false_iff in H
  end.

(** Case analysis on the comparison an [if] of the goal is stuck on. *)
Ltac case_if :=
  match goal with
  | |- context [if (?a <? ?b) then _ else _] => destruct (Z.ltb_spec a b)
  | |- context [if (?a <=? ?b) then _ else _] => destruct (Z.leb_spec a b)
  | |- context [if (?a =? ?b) then _ else _] => destruct (Z.eqb_spec a b)
  end.

(** Case analysis on any comparison of the goal. *)
Ltac case_cmp :=
  match goal with
  | |- context [?a <? ?b] => destruct (Z.ltb_spec a b)
  | |- context [?a <=? ?b] => destruct (Z.leb_spec a b)
  | |- context [?a =? ?b] => destruct (Z.eqb_spec a b)
  end.

Lemma u32_small x : 0 <= x < 0x100000000 -> u32 x = x.
Proof. apply Z.mod_small. Qed.

Lemma u64_small x : 0 <= x < 0x10000000000000000 -> u64 x = x.
Proof. apply Z.mod_small. Qed.

Lemma u8_small x : 0 <= x < 0x100 -> u8 x = x.
Proof. apply Z.mod_small. Qed.

Lemma u32_range x : 0 <= u32 x < 0x100000000.
Proof. unfold u32. apply Z.mod_pos_bound. lia. Qed.

Lemma u64_range x : 0 <= u64 x < 0x10000000000000000.
Proof. unfold u64. apply Z.mod_pos_bound. lia. Qed.

Lemma u8_range x : 0 <= u8 x < 0x100.
Proof. unfold u8. apply Z.mod_pos_bound. lia. Qed.

Lemma u32_idem x : u32 (u32 x) = u32 x.
Proof. apply u32_small, u32_range. Qed.

(** Only the final value of an expression has to fit. *)
Lemma u32_add_sub a b c : (a ⊞ b) ⊟ c = u32 (a + b - c).
Proof. unfold u32. by rewrite Zminus_mod_idemp_l. Qed.

Lemma u32_add_l a b : u32 a ⊞ b = u32 (a + b).
Proof. unfold u32. by rewrite Zplus_mod_idemp_l. Qed.

Lemma u32_add_r a b : a ⊞ u32 b = u32 (a + b).
Proof. unfold u32. by rewrite Zplus_mod_idemp_r. Qed.

Lemma s32_small x : -0x80000000 <= x < 0x80000000 -> s32 x = x.
Proof. intros. unfold s32. rewrite Z.mod_small; lia. Qed.

Lemma s64_small x : -0x8000000000000000 <= x < 0x8000000000000000 -> s64 x = x.
Proof. intros. unfold s64. rewrite Z.mod_small; lia. Qed.

Create HintDb cint.
Create Rewrite HintDb cint.
#[export] Hint Resolve u32_range u64_range u8_range : cint.
#[export] Hint Rewrite u32_small u64_small u8_small s32_small s64_small
  using (unfold PAGE_SIZE, UINT32_MAX, is_u32, is_u64, is_u8 in *; lia) : cint.

(** Removes the wrap-arounds that [lia] can show not to happen. *)
Ltac nowrap := autorewrite with cint in *.

(** ** Bits *)

Lemma testbit_u32 x i : 0 <= i ->
  Z.testbit (u32 x) i = if i <? 32 then Z.testbit x i else false.
Proof.
  intros Hi. unfold u32. change 0x100000000 with (2 ^ 32).
  case_if; [apply Z.mod_pow2_bits_low | apply Z.mod_pow2_bits_high]; lia.
Qed.

Lemma testbit_not32 x i : 0 <= i ->
  Z.testbit (not32 x) i = if i <? 32 then negb (Z.testbit x i) else false.
Proof.
  intros Hi. unfold not32. rewrite testbit_u32 by lia.
  case_if; [apply Z.lnot_spec; lia | done].
Qed.

Lemma testbit_bit32 k i : 0 <= k < 32 -> 0 <= i ->
  Z.testbit (bit32 k) i = (i =? k).
Proof.
  intros Hk Hi. unfold bit32. rewrite testbit_u32 by lia.
  rewrite Z.shiftl_spec by lia.
  destruct (Z.eqb_spec i k) as [->|Hne].
  - rewrite (proj2 (Z.ltb_lt k 32)) by lia. by rewrite Z.sub_diag.
  - case_if; [|done]. destruct (Z.lt_ge_cases i k).
    + apply Z.testbit_neg_r. lia.
    + change 1 with (2 ^ 0). apply Z.pow2_bits_false. lia.
Qed.

Lemma u32_testbit_high x i : is_u32 x -> 32 <= i -> Z.testbit x i = false.
Proof.
  unfold is_u32. intros Hx Hi. rewrite <- (u32_small x) by lia.
  rewrite testbit_u32 by lia. case_if; [lia|done].
Qed.

(** A nonnegative number with no bit at or above 32 is a [u32]. *)
Lemma is_u32_bits x :
  0 <= x -> (forall i, 32 <= i -> Z.testbit x i = false) -> is_u32 x.
Proof.
  intros Hx Hb. enough (u32 x = x) as <- by apply u32_range.
  apply Z.bits_inj'. intros i Hi. rewrite testbit_u32 by lia.
  case_if; [done|]. symmetry. apply Hb. lia.
Qed.

Lemma is_u32_lor x y : is_u32 x -> is_u32 y -> is_u32 (Z.lor x y).
Proof.
  unfold is_u32 at 1 2. intros Hx Hy. apply is_u32_bits.
  - apply Z.lor_nonneg. lia.
  - intros i Hi. rewrite Z.lor_spec, !u32_testbit_high; done || lia.
Qed.

Lemma is_u32_land x y : is_u32 x -> 0 <= y -> is_u32 (Z.land x y).
Proof.
  intros Hx Hy. apply is_u32_bits.
  - apply Z.land_nonneg. lia.
  - intros i Hi. rewrite Z.land_spec, (u32_testbit_high x) by done. done.
Qed.

Lemma is_u32_bit32 k : is_u32 (bit32 k).
Proof. apply u32_range. Qed.

Lemma is_u32_not32 x : is_u32 (not32 x).
Proof. apply u32_range. Qed.

#[export] Hint Resolve is_u32_lor is_u32_land is_u32_bit32 is_u32_not32 : cint.

(** [Z.land v (2^32 - 2^k)] clears the low [k] bits. *)
Lemma land_mask_low v : is_u32 v ->
  Z.land v (not32 (PAGE_SIZE ⊟ 1)) = v - v mod PAGE_SIZE.
Proof.
  intros Hv. transitivity (Z.shiftl (Z.shiftr v 12) 12).
  - apply Z.bits_inj'. intros i Hi.
    rewrite Z.land_spec, testbit_not32 by lia.
    rewrite Z.shiftl_spec by lia.
    change (PAGE_SIZE ⊟ 1) with (Z.ones 12).
    destruct (Z.lt_ge_cases i 12).
    + rewrite Z.ones_spec_low, (Z.testbit_neg_r _ (i - 12)) by lia.
      by case_if; rewrite andb_false_r.
    + rewrite Z.ones_spec_high, Z.shiftr_spec by lia.
      replace (i - 12 + 12) with i by lia.
      case_if; simpl; [by rewrite andb_true_r|].
      rewrite (u32_testbit_high v) by done. done.
  - rewrite Z.shiftl_mul_pow2, Z.shiftr_div_pow2 by lia.
    unfold PAGE_SIZE. change (2 ^ 12) with 4096. zlia.
Qed.

Lemma ALIGN_DOWN_page v : is_u32 v -> ALIGN_DOWN v PAGE_SIZE = v - v mod PAGE_SIZE.
Proof. apply land_mask_low. Qed.

Lemma ALIGN_UP_page v : 0 <= v <= 0xFFFFF000 ->
  ALIGN_UP v PAGE_SIZE = v + (- v) mod PAGE_SIZE.
Proof.
  intros Hv. unfold ALIGN_UP.
  assert ((v ⊞ PAGE_SIZE) ⊟ 1 = v + 4095) as ->.
  { unfold PAGE_SIZE. rewrite u32_add_sub, u32_small; lia. }
  rewrite land_mask_low by (unfold is_u32; lia). unfold PAGE_SIZE. zlia.
Qed.

(** [__builtin_ctz]: the index of the lowest set bit (undefined on 0). *)
Fixpoint pctz (p : positive) : Z :=
  match p with xO q => 1 + pctz q | _ => 0 end.
Definition ctz (x : Z) : Z := match x with Zpos p => pctz p | _ => 32 end.

Lemma pctz_nonneg p : 0 <= pctz p.
Proof. induction p; simpl; lia. Qed.

Lemma ctz_spec x : 0 < x ->
  0 <= ctz x /\ Z.testbit x (ctz x) = true /\
  forall i, 0 <= i < ctz x -> Z.testbit x i = false.
Proof.
  intros Hx. destruct x as [|p|p]; try lia. clear Hx. simpl ctz.
  induction p as [p _|p (H1 & H2 & H3)|]; cbn [pctz].
  - split_and!; [lia|done|lia].
  - change (Zpos p~0) with (2 * Zpos p). split_and!.
    + lia.
    + replace (1 + pctz p) with (Z.succ (pctz p)) by lia.
      by rewrite Z.testbit_even_succ.
    + intros i Hi. destruct (decide (i = 0)) as [->|]; [apply Z.testbit_even_0|].
      replace i with (Z.succ (i - 1)) by lia.
      rewrite Z.testbit_even_succ by lia. apply H3. lia.
  - split_and!; [lia|done|lia].
Qed.

Lemma ctz_u32_bound x : 0 < x -> is_u32 x -> ctz x < 32.
Proof.
  intros Hx Hb. destruct (ctz_spec x Hx) as (H0 & H1 & _).
  destruct (Z.lt_ge_cases (ctz x) 32); [done|].
  by rewrite u32_testbit_high in H1.
Qed.

Lemma ctz_even p : ctz (Zpos p~0) = 1 + ctz (Zpos p).
Proof. done. Qed.

(** [x &= x - 1] clears the lowest set bit and nothing else. *)
Lemma clear_lowest x i : 0 < x -> 0 <= i ->
  Z.testbit (Z.land x (x - 1)) i = Z.testbit x i && negb (i =? ctz x).
Proof.
  intros Hx. rewrite Z.land_spec. destruct x as [|p|p]; try lia. clear Hx.
  revert i. induction p as [p _|p IH|]; intros i Hi.
  - change (Zpos p~1 - 1) with (2 * Zpos p). change (ctz (Zpos p~1)) with 0.
    change (Zpos p~1) with (2 * Zpos p + 1).
    destruct (Z.eqb_spec i 0) as [->|].
    + by rewrite Z.testbit_even_0, !andb_false_r.
    + replace i with (Z.succ (i - 1)) by lia.
      rewrite Z.testbit_odd_succ, Z.testbit_even_succ by lia. cbn [negb]. btauto.
  - rewrite ctz_even. change (Zpos p~0) with (2 * Zpos p).
    replace (2 * Zpos p - 1) with (2 * (Zpos p - 1) + 1) by lia.
    destruct (Z.eq_dec i 0) as [->|].
    + by rewrite Z.testbit_even_0.
    + replace i with (Z.succ (i - 1)) by lia.
      rewrite Z.testbit_odd_succ, Z.testbit_even_succ, IH by lia. f_equal. f_equal.
      repeat case_cmp; done || lia.
  - change (1 - 1) with 0. rewrite Z.bits_0, andb_false_r. change (ctz 1) with 0.
    destruct (Z.eqb_spec i 0); [by rewrite andb_false_r|]. cbn [negb].
    rewrite andb_true_r. symmetry. change 1 with (2 ^ 0). apply Z.pow2_bits_false. lia.
Qed.

Lemma clear_lowest_nonneg x : 0 < x -> 0 <= Z.land x (x - 1).
Proof. intros. apply Z.land_nonneg. lia. Qed.

(** ** Arrays *)

Definition geti {A} (l : list A) (i : Z) : option A :=
  if i <? 0 then None else l !! Z.to_nat i.

Definition seti {A} (l : list A) (i : Z) (x : A) : option (list A) :=
  if (i <? 0) || (Z.of_nat (length l) <=? i) then None
  else Some (<[Z.to_nat i := x]> l).

Lemma geti_Some_range {A} (l : list A) i x :
  geti l i = Some x -> 0 <= i < Z.of_nat (length l).
Proof.
  unfold geti. case_if; [done|]. intros Hl%lookup_lt_Some. lia.
Qed.

Lemma geti_in_range {A} (l : list A) i :
  0 <= i < Z.of_nat (length l) -> exists x, geti l i = Some x.
Proof.
  intros Hi. unfold geti. case_if; [lia|].
  apply lookup_lt_is_Some. lia.
Qed.

Lemma geti_out {A} (l : list A) i :
  ~ 0 <= i < Z.of_nat (length l) -> geti l i = None.
Proof.
  intros Hi. unfold geti. case_if; [done|]. apply lookup_ge_None. lia.
Qed.

Lemma seti_in_range {A} (l : list A) i x :
  0 <= i < Z.of_nat (length l) -> seti l i x = Some (<[Z.to_nat i := x]> l).
Proof.
  intros Hi. unfold seti.
  destruct (Z.ltb_spec i 0), (Z.leb_spec (Z.of_nat (length l)) i); done || lia.
Qed.

Lemma seti_Some {A} (l l' : list A) i x :
  seti l i x = Some l' ->
  0 <= i < Z.of_nat (length l) /\ l' = <[Z.to_nat i := x]> l.
Proof.
  unfold seti. destruct (Z.ltb_spec i 0), (Z.leb_spec (Z.of_nat (length l)) i);
    simpl; intros [=]; split; done || lia.
Qed.

Lemma geti_seti_eq {A} (l l' : list A) i x :
  seti l i x = Some l' -> geti l' i = Some x.
Proof.
  intros [Hi ->]%seti_Some. unfold geti. case_if; [lia|].
  apply list_lookup_insert_eq. lia.
Qed.

Lemma geti_seti_ne {A} (l l' : list A) i j x :
  seti l i x = Some l' -> i <> j -> geti l' j = geti l j.
Proof.
  intros [Hi ->]%seti_Some Hne. unfold geti. case_if; [done|].
  apply list_lookup_insert_ne. lia.
Qed.

Lemma length_seti {A} (l l' : list A) i x :
  seti l i x = Some l' -> length l' = length l.
Proof. intros [_ ->]%seti_Some. apply length_insert. Qed.

Lemma Forall_geti {A} (P : A -> Prop) l i x :
  Forall P l -> geti l i = Some x -> P x.
Proof.
  unfold geti. case_if; [done|]. intros Hl Hx. by eapply Forall_lookup_1.
Qed.

Lemma Forall_seti {A} (P : A -> Prop) (l l' : list A) i x :
  Forall P l -> P x -> seti l i x = Some l' -> Forall P l'.
Proof. intros Hl Hx [_ ->]%seti_Some. by apply Forall_insert. Qed.

#[export] Hint Resolve geti_seti_eq : cint.

(** Runs a bind whose first computation is known, without reducing the rest. *)
Lemma bind_eq {A B} (o : option A) (x : A) (f : A -> option B) :
  o = Some x -> (o ≫= f) = f x.
Proof. by intros ->. Qed.

Ltac run_bind H := rewrite (bind_eq _ _ _ H); cbn beta.

(** ** Sorted lists *)

Lemma sorted_split {A} (R : A -> A -> Prop) l1 l2 :
  StronglySorted R (l1 ++ l2) <->
  StronglySorted R l1 /\ StronglySorted R l2 /\
  Forall (fun a => Forall (R a) l2) l1.
Proof.
  induction l1 as [|a l1 IH]; cbn.
  - split; [|tauto]. intros. split_and!; [constructor|done|constructor].
  - split.
    + intros [Hs Hf]%StronglySorted_inv. apply IH in Hs as (? & ? & ?).
      apply Forall_app in Hf as [? ?]. split_and!; [by constructor|done|by constructor].
    + intros (Hs & ? & Hf). apply StronglySorted_inv in Hs as [? ?].
      inversion_clear Hf. constructor; [apply IH; tauto|]. by apply Forall_app.
Qed.

(** ** Filtering and counting *)

Lemma filter_all {A} (P : A -> Prop) `{!forall x, Decision (P x)} (l : list A) :
  (forall x, (x ∈ l) -> P x) -> filter P l = l.
Proof.
  induction l as [|x l IH]; intros Hall; [done|].
  rewrite filter_cons, decide_True by (apply Hall; by left).
  f_equal. apply IH. intros y Hy. apply Hall. by right.
Qed.

(** Taking one element out of a predicate takes one off its count. *)
Lemma length_filter_minus {A} `{EqDecision A} (P Q : A -> Prop)
    `{!forall x, Decision (P x)} `{!forall x, Decision (Q x)} (l : list A) (a : A) :
  NoDup l -> P a -> (forall x, Q x <-> P x /\ x <> a) ->
  (length (filter P l) = length (filter Q l) + if decide (a ∈ l) then 1 else 0)%nat.
Proof.
  intros Hnd Ha HQ. induction Hnd as [|x l Hx Hnd IH]; [by rewrite decide_False by set_solver|].
  rewrite !filter_cons. destruct (decide (x = a)) as [->|Hne].
  - rewrite (decide_True (P := P a)), (decide_False (P := Q a)) by (rewrite ?HQ; tauto).
    rewrite decide_False in IH by done. rewrite (decide_True (P := a ∈ a :: l)) by (by left).
    cbn. lia.
  - assert (a ∈ x :: l <-> a ∈ l) as Hin by set_solver.
    destruct (decide (P x)) as [Hp|Hp].
    + rewrite (decide_True (P := Q x)) by (rewrite HQ; tauto). cbn.
      repeat case_decide; tauto || lia.
    + rewrite (decide_False (P := Q x)) by (rewrite HQ; tauto).
      repeat case_decide; tauto || lia.
Qed.

(** ** Permutations of concatenations *)

Lemma perm_step {A} (a l r r' : list A) :
  Permutation r (a ++ r') -> Permutation l r' -> Permutation (a ++ l) r.
Proof. intros -> ->. done. Qed.

Lemma perm_pull {A} (a b x y : list A) :
  Permutation x (a ++ y) -> Permutation (b ++ x) (a ++ b ++ y).
Proof. intros ->. rewrite !app_assoc. apply Permutation_app_tail, Permutation_app_comm. Qed.

Lemma perm_last {A} (a : list A) : Permutation a (a ++ []).
Proof. by rewrite app_nil_r. Qed.

(** Solves [Permutation l r] when [l] and [r] are the same blocks in another order. *)
Ltac perm_app :=
  rewrite <- ?app_assoc;
  first
    [ reflexivity
    | eapply perm_step;
        [repeat first [apply Permutation_refl | apply perm_last | eapply perm_pull]|perm_app]
    | rewrite app_nil_r; perm_app ].

(** ** Sums over finite maps *)

Section Msum.
Context {K A : Type} `{Countable K} (f : A -> Z).

Definition msum (m : gmap K A) : Z := map_fold (fun _ x acc => f x + acc) 0 m.

Lemma msum_empty : msum ∅ = 0.
Proof. apply map_fold_empty. Qed.

Lemma msum_insert (m : gmap K A) k x : m !! k = None -> msum (<[k := x]> m) = f x + msum m.
Proof.
  intros Hk. unfold msum. rewrite map_fold_insert_L; [done| |done]. intros. lia.
Qed.

Lemma msum_delete (m : gmap K A) k x : m !! k = Some x -> msum m = f x + msum (delete k m).
Proof.
  intros Hk. rewrite <- (insert_delete_id m k x) at 1 by done. apply msum_insert, lookup_delete_eq.
Qed.

(** One entry changes. *)
Lemma msum_update (m : gmap K A) k x y : m !! k = Some x ->
  msum (<[k := y]> m) = msum m - f x + f y.
Proof.
  intros Hk. rewrite (msum_delete m k x Hk), <- insert_delete_eq, msum_insert by apply lookup_delete_eq. lia.
Qed.

Lemma msum_nonneg (m : gmap K A) : (forall x, 0 <= f x) -> 0 <= msum m.
Proof.
  intros Hf. induction m as [|k x m Hk IH] using map_ind; [by rewrite msum_empty|].
  rewrite msum_insert by done. specialize (Hf x). lia.
Qed.

Lemma msum_zero (m : gmap K A) : (forall k x, m !! k = Some x -> f x = 0) -> msum m = 0.
Proof.
  induction m as [|k x m Hk IH] using map_ind; intros Hz; [apply msum_empty|].
  rewrite msum_insert by done. rewrite (Hz k x) by apply lookup_insert_eq. apply IH.
  intros k' x' Hk'. apply (Hz k' x'). rewrite lookup_insert_ne; [done|]. intros ->. congruence.
Qed.

Lemma msum_pos (m : gmap K A) : (forall x, 0 <= f x) -> 0 < msum m -> exists k x, m !! k = Some x /\ 0 < f x.
Proof.
  intros Hf. induction m as [|k x m Hk IH] using map_ind; [rewrite msum_empty; lia|].
  rewrite msum_insert by done. intros Hs. destruct (Z.lt_ge_cases 0 (f x)) as [Hx|Hx].
  - exists k, x. by rewrite lookup_insert_eq.
  - destruct IH as (k' & x' & Hk' & Hx'); [specialize (Hf x); lia|]. exists k', x'.
    rewrite lookup_insert_ne; [done|]. intros ->. congruence.
Qed.

Lemma msum_ge (m : gmap K A) k x : (forall x, 0 <= f x) -> m !! k = Some x -> f x <= msum m.
Proof.
  intros Hf Hk. rewrite (msum_delete m k x Hk). pose proof (msum_nonneg (delete k m) Hf). lia.
Qed.

Lemma msum_le_size (m : gmap K A) : (forall x, f x <= 1) -> msum m <= Z.of_nat (size m).
Proof.
  intros Hf. induction m as [|k x m Hk IH] using map_ind; [by rewrite msum_empty, map_size_empty|].
  rewrite msum_insert by done. rewrite map_size_insert_None by done. specialize (Hf x). lia.
Qed.
End Msum.

(** Views of the places of the threads when one of them moves. *)
Section Views.
Context {K A C : Type} `{Countable K} (f : option A -> C).

Lemma view_insert (m : gmap K A) t y u : f (<[t := y]> m !! u) = if decide (u = t) then f (Some y) else f (m !! u).
Proof. case_decide; [subst; by rewrite lookup_insert_eq|by rewrite lookup_insert_ne]. Qed.

Lemma view_delete (m : gmap K A) t u : f (delete t m !! u) = if decide (u = t) then f None else f (m !! u).
Proof. case_decide; [subst; by rewrite lookup_delete_eq|by rewrite lookup_delete_ne]. Qed.

Lemma view_alter g (m : gmap K A) t u : (forall o, f (g <$> o) = f o) -> f (alter g t m !! u) = f (m !! u).
Proof. intros Hg. destruct (decide (u = t)) as [->|]; [by rewrite lookup_alter_eq|by rewrite lookup_alter_ne]. Qed.
End Views.

(** ** Step systems *)

Section Reachability.
Context {S : Type} (step : S -> S -> Prop).

(** Reflexive transitive closure, growing at the end as an execution does. *)
Inductive reachable (s0 : S) : S -> Prop :=
  | reach_here : reachable s0 s0
  | reach_step s s' : reachable s0 s -> step s s' -> reachable s0 s'.

Lemma reachable_ind_inv (I : S -> Prop) s0 :
  I s0 -> (forall s s', I s -> step s s' -> I s') ->
  forall s, reachable s0 s -> I s.
Proof. intros H0 HS s Hr. induction Hr; eauto. Qed.

Lemma reachable_trans s0 s1 s2 :
  reachable s0 s1 -> reachable s1 s2 -> reachable s0 s2.
Proof. intros H1 H2. induction H2; [done|]. by econstructor. Qed.
End Reachability.

#[export] Hint Constructors reachable : cint.
