(* ===== verification/Div64.v ===== *)
(** * 64-bit division helpers (kernel/lib/div64.c, kernel/lib/types.h)

    The kernel links without libgcc and supplies [__udivdi3] and its relatives
    itself.  [divl] is the x86 instruction the fast path issues: it divides
    EDX:EAX by a 32-bit operand and raises #DE (here [None]) on a zero divisor
    or on a quotient that does not fit 32 bits. *)

From S2P Require Import Prelude.

(** [divl d] on EDX:EAX = hi:lo: quotient and remainder, or #DE. *)
Definition divl (hi lo d : Z) : option (Z * Z) :=
  let n := hi * 0x100000000 + lo in
  if (d =? 0) || (0x100000000 <=? n / d) then None else Some (n / d, n mod d).

(** One turn of the shift-and-subtract loop of [udiv64], [i] counting down. *)
Definition udiv64_step (n d i : Z) (qr : Z * Z) : Z * Z :=
  let '(q, r) := qr in
  let r := Z.lor (u64 (Z.shiftl r 1)) (Z.land (Z.shiftr n i) 1) in
  if d <=? r then (Z.lor q (u64 (Z.shiftl 1 i)), u64 (r - d)) else (q, r).

(** [for (int i = 63; i >= 0; i--)]: [k] iterations remain, the next is [k-1]. *)
Fixpoint udiv64_loop (k : nat) (n d : Z) (qr : Z * Z) : Z * Z :=
  match k with
  | O => qr
  | S k' => udiv64_loop k' n d (udiv64_step n d (Z.of_nat k') qr)
  end.

(** [udiv64]: quotient and the value stored through [rem]. *)
Definition udiv64 (n d : Z) : option (Z * Z) :=
  if d =? 0 then Some (0xFFFFFFFFFFFFFFFF, 0)
  else if Z.shiftr d 32 =? 0 then
    let d32 := u32 d in
    let n_hi := u32 (Z.shiftr n 32) in
    let n_lo := u32 n in
    let q_hi := n_hi / d32 in
    let r_hi := n_hi mod d32 in
    let low := Z.lor (u64 (Z.shiftl r_hi 32)) n_lo in
    '(q_lo, r_lo) ← divl (u32 (Z.shiftr low 32)) (u32 low) d32;
    Some (Z.lor (u64 (Z.shiftl q_hi 32)) q_lo, r_lo)
  else Some (udiv64_loop 64 n d (0, 0)).

Definition __udivdi3 (n d : Z) : option Z := fst <$> udiv64 n d.
Definition __umoddi3 (n d : Z) : option Z := snd <$> udiv64 n d.

(** Signed negation: overflow on the least value is undefined ([None]). *)
Definition neg_s64 (x : Z) : option Z :=
  if x =? -0x8000000000000000 then None else Some (- x).

Definition mag_s64 (x : Z) : option Z :=
  if x <? 0 then u64 <$> neg_s64 x else Some (u64 x).

Definition __divdi3 (n d : Z) : option Z :=
  let neg := xorb (n <? 0) (d <? 0) in
  un ← mag_s64 n; ud ← mag_s64 d;
  '(q, _) ← udiv64 un ud;
  if neg then neg_s64 (s64 q) else Some (s64 q).

Definition __moddi3 (n d : Z) : option Z :=
  un ← mag_s64 n; ud ← mag_s64 d;
  '(_, r) ← udiv64 un ud;
  if n <? 0 then neg_s64 (s64 r) else Some (s64 r).

(** [udiv64_u32] and [umod64_u32] of types.h: the two [divl] in sequence. *)
Definition udiv64_u32 (dividend divisor : Z) : option Z :=
  '(q_hi, r_hi) ← divl 0 (u32 (Z.shiftr dividend 32)) divisor;
  '(q_lo, _) ← divl r_hi (u32 dividend) divisor;
  Some (Z.lor (u64 (Z.shiftl q_hi 32)) q_lo).

Definition umod64_u32 (dividend divisor : Z) : option Z :=
  '(_, r_hi) ← divl 0 (u32 (Z.shiftr dividend 32)) divisor;
  '(_, r_lo) ← divl r_hi (u32 dividend) divisor;
  Some r_lo.

(** ** Joining and splitting 64-bit values *)

Lemma lor_disjoint_add a b k : 0 <= k -> 0 <= b < 2 ^ k ->
  Z.lor (Z.shiftl a k) b = a * 2 ^ k + b.
Proof.
  intros Hk Hb. rewrite Z.shiftl_mul_pow2 by lia.
  assert (Z.land (a * 2 ^ k) b = 0) as Hl.
  { apply Z.bits_inj'. intros i Hi. rewrite Z.land_spec, Z.bits_0.
    destruct (Z.lt_ge_cases i k).
    - by rewrite Z.mul_pow2_bits_low by lia.
    - rewrite <- (Z.mod_small b (2 ^ k)) by lia.
      by rewrite (Z.mod_pow2_bits_high b) by lia; rewrite andb_false_r. }
  by rewrite Z.add_nocarry_lxor, Z.lxor_lor.
Qed.

Lemma join32 hi lo : is_u32 hi -> is_u32 lo ->
  Z.lor (u64 (Z.shiftl hi 32)) lo = hi * 0x100000000 + lo.
Proof.
  unfold is_u32. intros Hh Hl.
  rewrite u64_small, lor_disjoint_add by
    (rewrite ?Z.shiftl_mul_pow2 by lia; lia). lia.
Qed.

Lemma hi32 n : is_u64 n -> u32 (Z.shiftr n 32) = n / 0x100000000.
Proof.
  unfold is_u64. intros Hn. rewrite Z.shiftr_div_pow2 by lia.
  apply u32_small. zlia.
Qed.

Lemma divl_total hi lo d :
  0 < d -> 0 <= hi < d -> is_u32 lo ->
  divl hi lo d = Some ((hi * 0x100000000 + lo) / d, (hi * 0x100000000 + lo) mod d).
Proof.
  unfold is_u32, divl. intros Hd Hh Hl.
  destruct (Z.eqb_spec d 0); [lia|]. cbn [orb]. case_if; [|done]. exfalso.
  assert ((hi * 0x100000000 + lo) / d < 0x100000000); [|lia].
  apply Z.div_lt_upper_bound; nia.
Qed.

(** Long division in base 2^32: the two-step quotient and remainder. *)
Lemma long_division n d : 0 < d -> is_u64 n ->
  let hi := n / 0x100000000 in
  let lo := n mod 0x100000000 in
  let m := (hi mod d) * 0x100000000 + lo in
  hi / d * 0x100000000 + m / d = n / d /\ m mod d = n mod d.
Proof.
  intros Hd Hn hi lo m.
  assert (n = (hi / d * 0x100000000) * d + m) as Hnm.
  { unfold m, hi, lo. pose proof (Z.div_mod n 0x100000000 ltac:(lia)).
    pose proof (Z.div_mod (n / 0x100000000) d ltac:(lia)). nia. }
  rewrite Hnm. rewrite Z.div_add_l by lia.
  by rewrite (Z.add_comm _ m), Z.mod_add by lia.
Qed.

(** ** Unsigned division *)

Lemma land_1_mod x : Z.land x 1 = x mod 2.
Proof. change 1 with (Z.ones 1). by rewrite Z.land_ones by lia. Qed.

(** The loop invariant of shift-and-subtract: [q] and [r] are the quotient and
    remainder of the bits of [n] consumed so far; no shift overflows because
    [r] never exceeds the consumed prefix. *)
Lemma udiv64_loop_spec k n d q r :
  is_u64 n -> 0 < d -> is_u64 d -> (k <= 64)%nat ->
  r = (n / 2 ^ Z.of_nat k) mod d ->
  q = n / 2 ^ Z.of_nat k / d * 2 ^ Z.of_nat k ->
  udiv64_loop k n d (q, r) = (n / d, n mod d).
Proof.
  unfold is_u64. intros Hn Hd0 Hd. revert q r.
  induction k as [|k IH]; intros q r Hk Hr Hq; cbn [udiv64_loop].
  { change (2 ^ Z.of_nat 0) with 1 in *. rewrite Z.div_1_r in *.
    by rewrite Hr, Hq, Z.mul_1_r. }
  set (P := 2 ^ Z.of_nat k) in *.
  assert (2 ^ Z.of_nat (S k) = 2 * P) as HS.
  { rewrite Nat2Z.inj_succ. apply Z.pow_succ_r. lia. }
  rewrite HS in *. assert (1 <= P) by (unfold P; lia).
  assert (P * 2 <= 2 ^ 64) as HP.
  { rewrite Z.mul_comm, <- HS. apply Z.pow_le_mono_r; lia. }
  set (m := n / P).
  assert (n / (2 * P) = m / 2) as Hm2.
  { unfold m. rewrite Z.mul_comm, Z.div_div by lia. done. }
  rewrite Hm2 in *.
  assert (0 <= m <= n) by (unfold m; split; [apply Z.div_pos|apply Z.div_le_upper_bound]; nia).
  assert (0 <= r < d) by (subst r; apply Z.mod_pos_bound; lia).
  assert (r <= m / 2) by (subst r; apply Z.mod_le; zlia).
  assert (m = 2 * (m / 2) + m mod 2) as Hm by zlia.
  assert (m / 2 = d * (m / 2 / d) + r) as Hmd by (subst r; apply Z.div_mod; lia).
  assert (0 <= m mod 2 < 2) by zlia.
  unfold udiv64_step.
  rewrite land_1_mod, (Z.shiftr_div_pow2 n) by lia. fold P. fold m.
  rewrite u64_small by (rewrite Z.shiftl_mul_pow2; lia).
  rewrite lor_disjoint_add by lia. change (2 ^ 1) with 2.
  rewrite (u64_small (Z.shiftl 1 _)) by
    (rewrite Z.shiftl_mul_pow2 by lia; fold P; lia).
  rewrite Z.shiftl_mul_pow2, Z.mul_1_l by lia. fold P.
  set (b := m mod 2) in *. set (Q := m / 2 / d) in *.
  assert (0 <= Q) by (unfold Q; apply Z.div_pos; lia).
  case_if.
  - assert (m / d = 2 * Q + 1 /\ m mod d = r * 2 + b - d) as [Hmq Hmr].
    { split; [symmetry; apply Z.div_unique_pos with (r * 2 + b - d)
             |symmetry; apply Z.mod_unique_pos with (2 * Q + 1)]; lia. }
    apply IH; [lia|..].
    + fold m. rewrite u64_small by lia. by rewrite Hmr.
    + fold m. rewrite Hmq, Hq. replace (Q * (2 * P)) with (Z.shiftl (2 * Q) (Z.of_nat k)).
      * assert (Z.lor (Z.shiftl (2 * Q) (Z.of_nat k)) (Z.shiftl 1 (Z.of_nat k))
                = Z.shiftl (2 * Q + 1) (Z.of_nat k)) as Hl.
        { rewrite <- Z.shiftl_lor. f_equal.
          pose proof (lor_disjoint_add Q 1 1 ltac:(lia) ltac:(lia)) as HH.
          rewrite Z.shiftl_mul_pow2 in HH by lia.
          replace (2 * Q) with (Q * 2 ^ 1) by lia. rewrite HH. lia. }
        rewrite (Z.shiftl_mul_pow2 1), Z.mul_1_l in Hl by lia. fold P in Hl.
        rewrite Hl, Z.shiftl_mul_pow2 by lia. fold P. lia.
      * rewrite Z.shiftl_mul_pow2 by lia. fold P. lia.
  - assert (m / d = 2 * Q /\ m mod d = r * 2 + b) as [Hmq Hmr].
    { split; [symmetry; apply Z.div_unique_pos with (r * 2 + b)
             |symmetry; apply Z.mod_unique_pos with (2 * Q)]; lia. }
    apply IH; [lia|..].
    + fold m. by rewrite Hmr.
    + fold m. rewrite Hmq, Hq. lia.
Qed.

Lemma udiv64_spec n d : is_u64 n -> 0 < d -> is_u64 d ->
  udiv64 n d = Some (n / d, n mod d).
Proof.
  intros Hn Hd0 Hd. unfold udiv64, is_u64 in *.
  destruct (Z.eqb_spec d 0); [lia|].
  destruct (Z.eqb_spec (Z.shiftr d 32) 0) as [Hs|Hs].
  - rewrite Z.shiftr_div_pow2 in Hs by lia.
    assert (d < 0x100000000) by zlia.
    rewrite (u32_small d) by lia. rewrite hi32 by done.
    set (hi := n / 0x100000000).
    assert (is_u32 (hi mod d)) as Hr.
    { unfold is_u32. pose proof (Z.mod_pos_bound hi d). lia. }
    rewrite join32 by (done || apply u32_range).
    assert (forall a b, is_u32 a -> is_u32 b ->
              u32 (Z.shiftr (a * 0x100000000 + b) 32) = a /\
              u32 (a * 0x100000000 + b) = b) as Hsplit.
    { unfold is_u32. intros a b Ha Hb.
      rewrite Z.shiftr_div_pow2 by lia. unfold u32.
      split; [rewrite Z.mod_small|]; zlia. }
    destruct (Hsplit (hi mod d) (u32 n) Hr (u32_range n)) as [-> ->].
    rewrite divl_total by (done || apply Z.mod_pos_bound; lia || apply u32_range).
    cbn [mbind option_bind].
    pose proof (long_division n d Hd0 Hn) as [HQ HR].
    fold hi in HQ, HR. unfold u32 at 1 2. rewrite HR.
    rewrite join32; [by rewrite HQ|..].
    + unfold is_u32, hi. split; [apply Z.div_pos; zlia|].
      apply Z.div_lt_upper_bound; [lia|]. zlia.
    + pose proof (Z.mod_pos_bound hi d Hd0).
      pose proof (Z.mod_pos_bound n 0x100000000 ltac:(lia)).
      unfold is_u32. split; [apply Z.div_pos; nia|apply Z.div_lt_upper_bound; nia].
  - f_equal. apply udiv64_loop_spec; try done; [|].
    + rewrite (Z.div_small n) by (change (2 ^ Z.of_nat 64) with 0x10000000000000000; lia).
      by rewrite Z.mod_0_l by lia.
    + rewrite (Z.div_small n) by (change (2 ^ Z.of_nat 64) with 0x10000000000000000; lia).
      by rewrite Z.div_0_l by lia.
Qed.

Lemma divl_zero hi lo : divl hi lo 0 = None.
Proof. done. Qed.

(** the 64-bit helpers the compiler calls compute the exact quotient and
    remainder for every nonzero divisor, on the hardware path (32-bit divisor)
    and on the shift-and-subtract path alike, and never raise #DE. *)
Theorem udiv64_correct n d :
  is_u64 n -> is_u64 d -> d <> 0 ->
  __udivdi3 n d = Some (n / d) /\ __umoddi3 n d = Some (n mod d).
Proof.
  intros Hn Hd H0. unfold __udivdi3, __umoddi3.
  by rewrite udiv64_spec by (done || unfold is_u64 in *; lia).
Qed.

Lemma udiv64_correct_witness :
  __udivdi3 0xFFFFFFFFFFFFFFFF 0x8000000000000001 = Some 1 /\
  __umoddi3 0xFFFFFFFFFFFFFFFF 0x8000000000000001 = Some 0x7FFFFFFFFFFFFFFE.
Proof.
  destruct (udiv64_correct 0xFFFFFFFFFFFFFFFF 0x8000000000000001) as [H1 H2];
    [unfold is_u64; lia | unfold is_u64; lia | lia |].
  split; [rewrite H1 | rewrite H2]; reflexivity.
Defined.

(** ** Signed division *)

Lemma mag_s64_spec x :
  -0x8000000000000000 < x < 0x8000000000000000 -> mag_s64 x = Some (Z.abs x).
Proof.
  intros Hx. unfold mag_s64, neg_s64. case_if.
  - destruct (Z.eqb_spec x (-0x8000000000000000)); [lia|]. cbn.
    rewrite u64_small by lia. f_equal. lia.
  - rewrite u64_small by lia. f_equal. lia.
Qed.

(** on every pair of [int64] operands but the least value, the signed
    helpers truncate toward zero as C requires. *)
Theorem divdi3_truncates n d :
  -0x8000000000000000 < n < 0x8000000000000000 ->
  -0x8000000000000000 < d < 0x8000000000000000 -> d <> 0 ->
  __divdi3 n d = Some (Z.quot n d) /\ __moddi3 n d = Some (Z.rem n d).
Proof.
  intros Hn Hd H0. unfold __divdi3, __moddi3.
  rewrite !mag_s64_spec by done. cbn [mbind option_bind].
  rewrite udiv64_spec by (unfold is_u64; lia). cbn [mbind option_bind].
  assert (0 <= Z.abs n / Z.abs d <= Z.abs n) as Hq.
  { split; [apply Z.div_pos; lia|apply Z.div_le_upper_bound; nia]. }
  pose proof (Z.mod_pos_bound (Z.abs n) (Z.abs d) ltac:(lia)) as Hr.
  rewrite !s64_small by lia.
  assert (forall x, 0 <= x < 0x8000000000000000 -> neg_s64 x = Some (- x)) as Hneg.
  { intros x Hx. unfold neg_s64. destruct (Z.eqb_spec x (-0x8000000000000000)); lia || done. }
  rewrite !Hneg by lia.
  rewrite Z.quot_div, Z.rem_mod by lia.
  destruct (Z.sgn_spec n) as [[Hsn ->]|[[<- _]|[Hsn ->]]];
    [|by rewrite Z.abs_0, Z.div_0_l, Z.mod_0_l by lia; destruct (d <? 0)|];
    (destruct (Z.sgn_spec d) as [[Hsd ->]|[[? _]|[Hsd ->]]]; [|lia|]);
    destruct (Z.ltb_spec n 0), (Z.ltb_spec d 0); try lia;
    cbn [xorb]; split; f_equal; lia.
Qed.

Lemma divdi3_truncates_witness :
  __divdi3 (-7) 2 = Some (-3) /\ __moddi3 (-7) 2 = Some (-1).
Proof.
  destruct (divdi3_truncates (-7) 2) as [H1 H2]; [lia..|].
  split; [rewrite H1 | rewrite H2]; reflexivity.
Defined.

(** ** The inline 64/32 helpers *)

Lemma udiv64_u32_spec n d : is_u64 n -> is_u32 d -> d <> 0 ->
  udiv64_u32 n d = Some (n / d) /\ umod64_u32 n d = Some (n mod d).
Proof.
  unfold is_u64, is_u32. intros Hn Hd H0.
  unfold udiv64_u32, umod64_u32. rewrite hi32 by done.
  set (hi := n / 0x100000000).
  assert (is_u32 hi) as Hhi by (unfold is_u32, hi; zlia).
  rewrite divl_total by (done || lia). cbn [mbind option_bind].
  rewrite Z.mul_0_l, Z.add_0_l.
  pose proof (Z.mod_pos_bound hi d ltac:(lia)).
  rewrite divl_total by (lia || apply u32_range). cbn [mbind option_bind].
  destruct (long_division n d) as [HQ HR]; [lia|done|].
  fold hi in HQ, HR. unfold u32. rewrite HR.
  split; [|done]. rewrite join32; [by rewrite HQ|..].
  - unfold is_u32 in *. split; [apply Z.div_pos; lia|].
    apply Z.div_lt_upper_bound; nia.
  - pose proof (Z.mod_pos_bound n 0x100000000 ltac:(lia)).
    unfold is_u32. split; [apply Z.div_pos; nia|apply Z.div_lt_upper_bound; nia].
Qed.
