(* ===== verification/Bitmap.v ===== *)
(** * Slot bitmaps (kernel/lib/bitmap.c)

    A bitmap is a caller-supplied array of 32-bit words and a bit count.  The
    operations are the functions of bitmap.c; a read or write outside the word
    array is [None].  [bit] is the abstract view: the predicate "slot [j] is
    taken". *)

From S2P Require Import Prelude.

Record bitmap_t := mk_bitmap { bm_data : list Z; bm_size : Z }.

Definition BITS_PER_ENTRY : Z := 32.

Definition bitmap_init (buffer : list Z) (num_bits : Z) : option bitmap_t :=
  let words := Z.to_nat (((num_bits ⊞ BITS_PER_ENTRY) ⊟ 1) / BITS_PER_ENTRY) in
  if (length buffer <? words)%nat then None
  else Some (mk_bitmap (replicate words 0 ++ drop words buffer) num_bits).

Definition bitmap_set (bm : bitmap_t) (index : Z) : option bitmap_t :=
  if index <? bm_size bm then
    w ← geti (bm_data bm) (index / BITS_PER_ENTRY);
    d ← seti (bm_data bm) (index / BITS_PER_ENTRY)
             (Z.lor w (bit32 (index mod BITS_PER_ENTRY)));
    Some (mk_bitmap d (bm_size bm))
  else Some bm.

Definition bitmap_clear (bm : bitmap_t) (index : Z) : option bitmap_t :=
  if index <? bm_size bm then
    w ← geti (bm_data bm) (index / BITS_PER_ENTRY);
    d ← seti (bm_data bm) (index / BITS_PER_ENTRY)
             (Z.land w (not32 (bit32 (index mod BITS_PER_ENTRY))));
    Some (mk_bitmap d (bm_size bm))
  else Some bm.

Definition bitmap_test (bm : bitmap_t) (index : Z) : option bool :=
  if bm_size bm <=? index then Some true
  else
    w ← geti (bm_data bm) (index / BITS_PER_ENTRY);
    Some (negb (Z.land w (bit32 (index mod BITS_PER_ENTRY)) =? 0)).

(** The word scan: [k] entries remain, the next is [i]. *)
Fixpoint find_zero_words (k : nat) (bm : bitmap_t) (i : Z) : option Z :=
  match k with
  | O => Some UINT32_MAX
  | S k' =>
      w ← geti (bm_data bm) i;
      if w =? 0xFFFFFFFF then find_zero_words k' bm (i + 1)
      else
        let index := (i ⊠ BITS_PER_ENTRY) ⊞ ctz (not32 w) in
        Some (if index <? bm_size bm then index else UINT32_MAX)
  end.

Definition bitmap_find_first_zero (bm : bitmap_t) : option Z :=
  let entries := ((bm_size bm ⊞ BITS_PER_ENTRY) ⊟ 1) / BITS_PER_ENTRY in
  find_zero_words (Z.to_nat entries) bm 0.

(** The bit scan of [bitmap_find_contiguous_zeros], [k] bits remaining. *)
Fixpoint find_run (k : nat) (bm : bitmap_t) (count i run_start run_len : Z)
    : option Z :=
  match k with
  | O => Some UINT32_MAX
  | S k' =>
      t ← bitmap_test bm i;
      if negb t then
        let run_start := if run_len =? 0 then i else run_start in
        let run_len := run_len ⊞ 1 in
        if run_len =? count then Some run_start
        else find_run k' bm count (i + 1) run_start run_len
      else find_run k' bm count (i + 1) run_start 0
  end.

Definition bitmap_find_contiguous_zeros (bm : bitmap_t) (count : Z) : option Z :=
  if count =? 0 then Some UINT32_MAX
  else if count =? 1 then bitmap_find_first_zero bm
  else find_run (Z.to_nat (bm_size bm)) bm count 0 0 0.

(** [for (i = 0; i < count; i++) op(bm, start + i)], with the 32-bit wrap of
    [start + i]; [k] iterations remain. *)
Fixpoint range_loop (op : bitmap_t -> Z -> option bitmap_t) (k : nat)
    (bm : bitmap_t) (start i : Z) : option bitmap_t :=
  match k with
  | O => Some bm
  | S k' => bm' ← op bm (start ⊞ i); range_loop op k' bm' start (i + 1)
  end.

Definition bitmap_set_range (bm : bitmap_t) (start count : Z) : option bitmap_t :=
  range_loop bitmap_set (Z.to_nat count) bm start 0.

Definition bitmap_clear_range (bm : bitmap_t) (start count : Z) : option bitmap_t :=
  range_loop bitmap_clear (Z.to_nat count) bm start 0.

(** ** Abstract view and well-formedness *)

Definition bitat (data : list Z) (j : Z) : bool :=
  match geti data (j / 32) with
  | Some w => Z.testbit w (j mod 32)
  | None => false
  end.

Definition bit (bm : bitmap_t) (j : Z) : bool := bitat (bm_data bm) j.

(** The buffer covers the bits, its words are 32-bit values, and the bit count
    leaves room for the rounding [size + 31] of the scans. *)
Record wf_bitmap (bm : bitmap_t) : Prop := {
  wf_size : 0 <= bm_size bm <= 0xFFFFFFE0;
  wf_cover : bm_size bm <= 32 * Z.of_nat (length (bm_data bm));
  wf_words : Forall is_u32 (bm_data bm)
}.

Lemma word_of_index bm j : wf_bitmap bm -> 0 <= j < bm_size bm ->
  exists w, geti (bm_data bm) (j / 32) = Some w /\ is_u32 w.
Proof.
  intros [Hs Hc Hw] Hj.
  destruct (geti_in_range (bm_data bm) (j / 32)) as [w Hg]; [zlia|].
  exists w. split; [done|]. by eapply Forall_geti.
Qed.

Lemma bitat_update data d j i w w' b :
  geti data (i / 32) = Some w -> seti data (i / 32) w' = Some d ->
  (forall k, 0 <= k < 32 ->
     Z.testbit w' k = if k =? i mod 32 then b else Z.testbit w k) ->
  bitat d j = if j =? i then b else bitat data j.
Proof.
  intros Hg Hs Hw. unfold bitat.
  destruct (Z.eq_dec (i / 32) (j / 32)) as [He|He].
  - rewrite <- He, Hg, (geti_seti_eq _ _ _ _ Hs), Hw by zlia.
    destruct (Z.eqb_spec (j mod 32) (i mod 32)), (Z.eqb_spec j i);
      try done; exfalso; zlia.
  - rewrite (geti_seti_ne _ _ _ _ _ Hs He).
    destruct (Z.eqb_spec j i); [subst; done|done].
Qed.

Lemma bitmap_set_spec bm i : wf_bitmap bm -> 0 <= i ->
  exists bm', bitmap_set bm i = Some bm' /\ wf_bitmap bm' /\
    bm_size bm' = bm_size bm /\
    forall j, bit bm' j = if (j =? i) && (i <? bm_size bm) then true else bit bm j.
Proof.
  intros Hwf Hi. unfold bitmap_set, BITS_PER_ENTRY.
  case_if; [|exists bm; split_and!; auto; intros j; by rewrite andb_false_r].
  destruct (word_of_index bm i Hwf) as (w & Hg & Hw); [lia|].
  rewrite Hg. cbn [mbind option_bind].
  destruct (seti (bm_data bm) (i / 32) (Z.lor w (bit32 (i mod 32)))) as [d|] eqn:Hs.
  2: { pose proof (geti_Some_range _ _ _ Hg). by rewrite seti_in_range in Hs. }
  destruct Hwf as [Hsz Hc Hws]. eexists. split_and!; [done| |done|].
  - constructor; cbn; [done|by erewrite length_seti|].
    eapply Forall_seti; [done|apply is_u32_lor; [done|apply u32_range]|done].
  - intros j. rewrite andb_true_r.
    apply (bitat_update _ _ j i w _ true Hg Hs). intros k Hk.
    rewrite Z.lor_spec, testbit_bit32 by zlia.
    case_cmp; [apply orb_true_r|apply orb_false_r].
Qed.

Lemma bitmap_clear_spec bm i : wf_bitmap bm -> 0 <= i ->
  exists bm', bitmap_clear bm i = Some bm' /\ wf_bitmap bm' /\
    bm_size bm' = bm_size bm /\
    forall j, bit bm' j = if (j =? i) && (i <? bm_size bm) then false else bit bm j.
Proof.
  intros Hwf Hi. unfold bitmap_clear, BITS_PER_ENTRY.
  case_if; [|exists bm; split_and!; auto; intros j; by rewrite andb_false_r].
  destruct (word_of_index bm i Hwf) as (w & Hg & Hw); [lia|].
  rewrite Hg. cbn [mbind option_bind].
  destruct (seti (bm_data bm) (i / 32) (Z.land w (not32 (bit32 (i mod 32)))))
    as [d|] eqn:Hs.
  2: { pose proof (geti_Some_range _ _ _ Hg). by rewrite seti_in_range in Hs. }
  destruct Hwf as [Hsz Hc Hws]. eexists. split_and!; [done| |done|].
  - constructor; cbn; [done|by erewrite length_seti|].
    eapply Forall_seti; [done|apply is_u32_land; [done|apply u32_range]|done].
  - intros j. rewrite andb_true_r.
    apply (bitat_update _ _ j i w _ false Hg Hs). intros k Hk.
    rewrite Z.land_spec, testbit_not32, testbit_bit32 by zlia.
    rewrite (proj2 (Z.ltb_lt k 32)) by lia.
    case_cmp; [apply andb_false_r|apply andb_true_r].
Qed.

Lemma land_bit32_eqb w k : is_u32 w -> 0 <= k < 32 ->
  negb (Z.land w (bit32 k) =? 0) = Z.testbit w k.
Proof.
  intros Hw Hk. destruct (Z.testbit w k) eqn:Ht.
  - apply negb_true_iff, Z.eqb_neq. intros H0.
    apply (f_equal (fun x => Z.testbit x k)) in H0.
    rewrite Z.land_spec, testbit_bit32, Z.eqb_refl, Ht, Z.bits_0 in H0 by lia. done.
  - apply negb_false_iff, Z.eqb_eq. apply Z.bits_inj'. intros i Hi.
    rewrite Z.land_spec, testbit_bit32, Z.bits_0 by lia.
    case_cmp; [subst; by rewrite Ht|apply andb_false_r].
Qed.

Lemma bitmap_test_spec bm i : wf_bitmap bm -> 0 <= i ->
  bitmap_test bm i = Some ((bm_size bm <=? i) || bit bm i)%bool.
Proof.
  intros Hwf Hi. unfold bitmap_test, BITS_PER_ENTRY. case_if; [done|].
  destruct (word_of_index bm i Hwf) as (w & Hg & Hw); [lia|].
  rewrite Hg. cbn [mbind option_bind]. f_equal.
  rewrite land_bit32_eqb by (done || zlia). unfold bit, bitat. by rewrite Hg.
Qed.

(** ** Initialisation *)

Lemma bitmap_init_spec buffer n :
  0 <= n <= 0xFFFFFFE0 -> n <= 32 * Z.of_nat (length buffer) ->
  Forall is_u32 buffer ->
  exists bm, bitmap_init buffer n = Some bm /\ wf_bitmap bm /\ bm_size bm = n /\
    forall j, 0 <= j < n -> bit bm j = false.
Proof.
  intros Hn Hl Hw. unfold bitmap_init, BITS_PER_ENTRY.
  assert ((n ⊞ 32) ⊟ 1 = n + 31) as ->.
  { rewrite u32_add_sub, u32_small by lia. lia. }
  set (k := Z.to_nat ((n + 31) / 32)).
  assert (n <= 32 * Z.of_nat k) by (unfold k; zlia).
  assert (k <= length buffer)%nat by (unfold k; zlia).
  destruct (Nat.ltb_spec (length buffer) k); [lia|].
  eexists. split_and!; [done| |done|].
  - constructor; cbn; [done| |].
    + rewrite length_app, length_replicate, length_drop. lia.
    + apply Forall_app_2; [apply Forall_replicate; unfold is_u32; lia|].
      by apply Forall_drop.
  - intros j Hj. unfold bit, bitat, geti. cbn. case_if; [done|].
    rewrite lookup_app_l by (rewrite length_replicate; zlia).
    rewrite lookup_replicate_2 by zlia. apply Z.bits_0.
Qed.

(** ** The first-zero scan *)

Lemma full_word j w : is_u32 w -> w = 0xFFFFFFFF -> 0 <= j < 32 -> Z.testbit w j = true.
Proof.
  intros _ -> Hj. change 0xFFFFFFFF with (Z.ones 32). apply Z.ones_spec_low. lia.
Qed.

Lemma not32_pos w : is_u32 w -> w <> 0xFFFFFFFF -> 0 < not32 w.
Proof.
  unfold is_u32, not32, u32. intros Hw Hne.
  assert (Z.lnot w = - w - 1) as -> by (unfold Z.lnot; lia). zlia.
Qed.

(** What a search for a free slot promises: the least free index, or
    [UINT32_MAX] when every slot is taken. *)
Definition first_zero (bm : bitmap_t) (r : Z) : Prop :=
  (r = UINT32_MAX /\ forall j, 0 <= j < bm_size bm -> bit bm j = true) \/
  (0 <= r < bm_size bm /\ bit bm r = false /\
   forall j, 0 <= j < r -> bit bm j = true).

Lemma find_zero_words_spec bm k i : wf_bitmap bm -> 0 <= i ->
  bm_size bm <= 32 * (i + Z.of_nat k) < bm_size bm + 32 ->
  (forall j, 0 <= j < 32 * i -> bit bm j = true) ->
  exists r, find_zero_words k bm i = Some r /\ first_zero bm r.
Proof.
  intros Hwf. revert i. induction k as [|k IH]; intros i Hi Hk Hbelow;
    cbn [find_zero_words].
  { exists UINT32_MAX. split; [done|]. left. split; [done|].
    intros j Hj. apply Hbelow. lia. }
  destruct (geti_in_range (bm_data bm) i) as [w Hg].
  { pose proof (wf_size _ Hwf). pose proof (wf_cover _ Hwf). lia. }
  assert (is_u32 w) as Hw by (eapply Forall_geti; [apply Hwf|done]).
  assert (forall b, 0 <= b < 32 -> bit bm (32 * i + b) = Z.testbit w b) as Hbit.
  { intros b Hb. unfold bit, bitat.
    replace ((32 * i + b) / 32) with i by zlia.
    replace ((32 * i + b) mod 32) with b by zlia. by rewrite Hg. }
  rewrite Hg. cbn [mbind option_bind]. destruct (Z.eqb_spec w 0xFFFFFFFF).
  - apply IH; [lia|lia|]. intros j Hj.
    destruct (Z.lt_ge_cases j (32 * i)); [by apply Hbelow; lia|].
    replace j with (32 * i + (j - 32 * i)) by lia.
    rewrite Hbit by lia. by apply full_word; [..|lia].
  - pose proof (not32_pos w Hw ltac:(done)) as Hpos.
    destruct (ctz_spec (not32 w) Hpos) as (H0 & H1 & H2).
    pose proof (ctz_u32_bound _ Hpos (u32_range _)) as H3.
    set (b := ctz (not32 w)) in *.
    rewrite testbit_not32 in H1 by lia. rewrite (proj2 (Z.ltb_lt b 32)) in H1 by lia.
    apply negb_true_iff in H1. unfold BITS_PER_ENTRY.
    pose proof (wf_size _ Hwf).
    rewrite (u32_small (i * 32)), (u32_small (i * 32 + b)) by lia.
    assert (forall j, 0 <= j < 32 * i + b -> bit bm j = true) as Hlow.
    { intros j Hj. destruct (Z.lt_ge_cases j (32 * i)); [by apply Hbelow; lia|].
      replace j with (32 * i + (j - 32 * i)) by lia. rewrite Hbit by lia.
      specialize (H2 (j - 32 * i) ltac:(lia)).
      rewrite testbit_not32, (proj2 (Z.ltb_lt (j - 32 * i) 32)) in H2 by lia.
      by apply negb_false_iff in H2. }
    eexists. split; [done|]. case_if.
    + right. replace (i * 32 + b) with (32 * i + b) by lia.
      split_and!; [lia|lia| |done]. by rewrite Hbit by lia.
    + left. split; [done|]. intros j Hj. apply Hlow. lia.
Qed.

Lemma find_first_zero_spec bm : wf_bitmap bm ->
  exists r, bitmap_find_first_zero bm = Some r /\ first_zero bm r.
Proof.
  intros Hwf. unfold bitmap_find_first_zero, BITS_PER_ENTRY.
  pose proof (wf_size _ Hwf).
  rewrite u32_add_sub, u32_small by lia.
  apply find_zero_words_spec; [done|lia|zlia|lia].
Qed.

(** ** The contiguous scan *)

(** [c] free slots in a row starting at [r]. *)
Definition free_run (bm : bitmap_t) (r c : Z) : Prop :=
  0 <= r /\ r + c <= bm_size bm /\ forall j, r <= j < r + c -> bit bm j = false.

Definition first_run (bm : bitmap_t) (c r : Z) : Prop :=
  (r = UINT32_MAX /\ forall s, ~ free_run bm s c) \/
  (free_run bm r c /\ forall s, free_run bm s c -> r <= s).

(** The state of the scan before bit [i]: the free run that ends there starts at
    [i - len], and no run of [count] slots starts before it. *)
Lemma find_run_spec bm count k i start len :
  wf_bitmap bm -> 1 < count < 0x100000000 -> 0 <= i -> 0 <= len < count ->
  i + Z.of_nat k = bm_size bm -> (len <> 0 -> start = i - len) -> len <= i ->
  (forall j, i - len <= j < i -> bit bm j = false) ->
  (forall s, free_run bm s count -> i - len <= s) ->
  exists r, find_run k bm count i start len = Some r /\ first_run bm count r.
Proof.
  intros Hwf Hc. revert i start len.
  induction k as [|k IH]; intros i start len Hi Hlen Hk Hst Hli Hfree Hno;
    cbn [find_run].
  { eexists. split; [done|]. left. split; [done|]. intros s Hs.
    pose proof (Hno s Hs). destruct Hs as (? & ? & ?). lia. }
  rewrite bitmap_test_spec by done. cbn [mbind option_bind].
  destruct (Z.leb_spec (bm_size bm) i); [lia|]. cbn [orb].
  destruct (bit bm i) eqn:Hb; cbn [negb].
  - apply IH; try lia.
    intros s Hs. pose proof (Hno s Hs). destruct Hs as (? & ? & Hz).
    destruct (Z.le_gt_cases (i + 1) s); [lia|].
    rewrite Hz in Hb by lia. done.
  - pose proof (wf_size _ Hwf). rewrite u32_small by lia.
    assert ((if len =? 0 then i else start) = i - len) as -> by (case_if; lia).
    assert (forall j, i - len <= j < i + 1 -> bit bm j = false) as Hf.
    { intros j Hj. destruct (Z.eq_dec j i) as [->|]; [done|]. apply Hfree. lia. }
    case_if.
    + eexists. split; [done|]. right. split; [|done].
      split_and!; [lia|lia|]. intros j Hj. apply Hf. lia.
    + apply IH; try lia; intros; (apply Hf; lia) || (rewrite ?Z.add_simpl_r; auto).
      replace (i + 1 - (len + 1)) with (i - len) by lia. auto.
Qed.

Lemma first_run_one bm r : first_zero bm r -> first_run bm 1 r.
Proof.
  intros [[-> H]|(Hr & H0 & Hm)].
  - left. split; [done|]. intros s (? & ? & Hz).
    specialize (Hz s ltac:(lia)). rewrite H in Hz by lia. done.
  - right. split.
    + split_and!; [lia|lia|]. intros j Hj. by replace j with r by lia.
    + intros s (? & ? & Hz). destruct (Z.le_gt_cases r s); [done|].
      specialize (Hz s ltac:(lia)). rewrite Hm in Hz by lia. done.
Qed.

(** ** Ranges *)

Lemma range_loop_spec op b bm start k i :
  (forall bm i, wf_bitmap bm -> 0 <= i ->
     exists bm', op bm i = Some bm' /\ wf_bitmap bm' /\ bm_size bm' = bm_size bm /\
       forall j, bit bm' j = if (j =? i) && (i <? bm_size bm) then b else bit bm j) ->
  wf_bitmap bm -> 0 <= start -> 0 <= i -> start + i + Z.of_nat k <= bm_size bm ->
  exists bm', range_loop op k bm start i = Some bm' /\ wf_bitmap bm' /\
    bm_size bm' = bm_size bm /\
    forall j, bit bm' j =
      if (start + i <=? j) && (j <? start + i + Z.of_nat k) then b else bit bm j.
Proof.
  intros Hop. revert bm i. induction k as [|k IH]; intros bm i Hwf Hs Hi Hk;
    cbn [range_loop].
  { exists bm. split_and!; auto. intros j.
    destruct (Z.leb_spec (start + i) j), (Z.ltb_spec j (start + i + Z.of_nat 0)); done || lia. }
  pose proof (wf_size _ Hwf). rewrite u32_small by lia.
  destruct (Hop bm (start + i) Hwf ltac:(lia)) as (bm1 & -> & Hwf1 & Hsz & Hb).
  cbn [mbind option_bind].
  destruct (IH bm1 (i + 1) Hwf1 Hs ltac:(lia) ltac:(lia)) as (bm2 & -> & Hwf2 & Hsz2 & Hb2).
  exists bm2. split_and!; [done|done|lia|]. intros j. rewrite Hb2, Hb.
  destruct (Z.leb_spec (start + (i + 1)) j),
    (Z.ltb_spec j (start + (i + 1) + Z.of_nat k)),
    (Z.leb_spec (start + i) j), (Z.ltb_spec j (start + i + Z.of_nat (S k))),
    (Z.eqb_spec j (start + i)), (Z.ltb_spec (start + i) (bm_size bm)); done || lia.
Qed.

(** ** Properties *)

(** the search for [count] consecutive free slots is memory safe and returns
    the least start of such a run, or [UINT32_MAX] exactly when none exists; a
    [bitmap_set_range] of the run it found takes those slots and no other. *)
Theorem find_contiguous_then_set bm count : 
  wf_bitmap bm -> 0 < count < 0x100000000 ->
  exists r, bitmap_find_contiguous_zeros bm count = Some r /\
    first_run bm count r /\
    (r <> UINT32_MAX ->
     exists bm', bitmap_set_range bm r count = Some bm' /\ wf_bitmap bm' /\
       bm_size bm' = bm_size bm /\
       forall j, bit bm' j = ((r <=? j) && (j <? r + count) || bit bm j)%bool).
Proof.
  intros Hwf Hc.
  assert (exists r, bitmap_find_contiguous_zeros bm count = Some r /\
            first_run bm count r) as (r & Hr & Hspec).
  { unfold bitmap_find_contiguous_zeros. destruct (Z.eqb_spec count 0); [lia|].
    destruct (Z.eqb_spec count 1) as [->|].
    - destruct (find_first_zero_spec bm Hwf) as (r & ? & ?).
      exists r. split; [done|]. by apply first_run_one.
    - pose proof (wf_size _ Hwf).
      apply find_run_spec; try done; try lia. intros s (? & _). lia. }
  exists r. split_and!; [done|done|]. intros Hne.
  destruct Hspec as [[? _]|[(H0 & H1 & _) _]]; [done|].
  destruct (range_loop_spec bitmap_set true bm r (Z.to_nat count) 0 bitmap_set_spec Hwf)
    as (bm' & Hl & Hwf' & Hsz & Hb); [lia..|].
  exists bm'. split_and!; [done|done|done|]. intros j. rewrite Hb, Z.add_0_r, Z2Nat.id by lia.
  by destruct ((r <=? j) && (j <? r + count))%bool.
Qed.

Lemma find_contiguous_then_set_witness :
  exists r, bitmap_find_contiguous_zeros (mk_bitmap [0xFFFF00F3; 0xFFFFFFFF] 40) 3 = Some r
    /\ r = 8.
Proof.
  destruct (find_contiguous_then_set (mk_bitmap [0xFFFF00F3; 0xFFFFFFFF] 40) 3)
    as (r & Hr & _ & _).
  - constructor; cbn; [lia|lia|]. repeat constructor; lia.
  - lia.
  - exists r. split; [exact Hr|]. vm_compute in Hr. congruence.
Defined.

(** the word scan finds the least free slot and a cleared range reads back
    free; setting, clearing and testing agree bit by bit, out-of-range indices
    reading as taken. *)
Theorem bitmap_clear_range_then_find bm start count :
  wf_bitmap bm -> 0 <= start -> 0 < count -> start + count <= bm_size bm ->
  exists bm' r, bitmap_clear_range bm start count = Some bm' /\ wf_bitmap bm' /\
    bitmap_find_first_zero bm' = Some r /\ 0 <= r <= start /\
    bitmap_test bm' r = Some false /\
    forall j, 0 <= j -> bitmap_test bm' j =
      if (start <=? j) && (j <? start + count) then Some false else bitmap_test bm j.
Proof.
  intros Hwf Hs Hc Hle.
  destruct (range_loop_spec bitmap_clear false bm start (Z.to_nat count) 0
              bitmap_clear_spec Hwf) as (bm' & Hl & Hwf' & Hsz & Hb); [lia..|].
  destruct (find_first_zero_spec bm' Hwf') as (r & Hr & Hspec).
  rewrite Z.add_0_r, Z2Nat.id in Hb by lia.
  assert (bit bm' start = false) as H0.
  { rewrite Hb. by rewrite (proj2 (Z.leb_le start start)), (proj2 (Z.ltb_lt start (start + count))) by lia. }
  destruct Hspec as [[_ Hall]|(Hr1 & Hr2 & Hr3)].
  { rewrite Hall in H0 by lia. done. }
  exists bm', r. split_and!; try done; try lia.
  - destruct (Z.le_gt_cases r start); [done|]. rewrite Hr3 in H0 by lia. done.
  - rewrite bitmap_test_spec by (done || lia). rewrite Hr2.
    by rewrite (proj2 (Z.leb_gt _ _)) by lia.
  - intros j Hj. rewrite !bitmap_test_spec by done. rewrite Hsz, Hb.
    destruct (Z.leb_spec start j), (Z.ltb_spec j (start + count)),
      (Z.leb_spec (bm_size bm) j); cbn; done || lia.
Qed.

Lemma bitmap_clear_range_then_find_witness :
  exists bm' r, bitmap_clear_range (mk_bitmap [0xFFFFFFFF; 0xFF] 40) 30 4 = Some bm' /\
    bitmap_find_first_zero bm' = Some r /\ r = 30.
Proof.
  destruct (bitmap_clear_range_then_find (mk_bitmap [0xFFFFFFFF; 0xFF] 40) 30 4)
    as (bm' & r & H1 & _ & H2 & _).
  - constructor; cbn; [lia|lia|]. repeat constructor; lia.
  - lia.
  - lia.
  - cbn. lia.
  - exists bm', r. split_and!; [exact H1|exact H2|].
    vm_compute in H1. injection H1 as <-. vm_compute in H2. congruence.
Defined.
