(* ===== verification/Civil.v ===== *)
(** * Civil calendar (kernel/time/civil.c, kernel/time/units.h)

    Unix seconds to (year, month, day, hour, minute, second) and back.  The
    source promises that the two directions cannot diverge because they share
    one month table; the theorems are the two round trips. *)

From S2P Require Import Prelude Div64.

Record civil_t := mk_civil {
  year : Z; month : Z; day : Z; hour : Z; minute : Z; second : Z
}.

Definition is_leap_year (y : Z) : bool :=
  ((y mod 4 =? 0) && negb (y mod 100 =? 0)) || (y mod 400 =? 0).

Definition days_in_month : list Z := [31; 28; 31; 30; 31; 30; 31; 31; 30; 31; 30; 31].
Definition days_before_month : list Z :=
  [0; 31; 59; 90; 120; 151; 181; 212; 243; 273; 304; 334].

Definition month_days (y m : Z) : option Z :=
  if (m =? 2) && is_leap_year y then Some 29 else geti days_in_month (m - 1).

(** [for (y = 1970; y < c->year; y++)], [k] years remain. *)
Fixpoint add_years (k : nat) (y days : Z) : Z :=
  match k with
  | O => days
  | S k' => add_years k' (y + 1) (days ⊞ (if is_leap_year y then 366 else 365))
  end.

Definition civil_to_unix_seconds (c : option civil_t) : option Z :=
  match c with
  | None => Some 0
  | Some c =>
      if (year c <? 1970) || (month c <? 1) || (12 <? month c) || (day c <? 1)
      then Some 0
      else
        let days := add_years (Z.to_nat (year c - 1970)) 1970 0 in
        dbm ← geti days_before_month (month c - 1);
        let days := days ⊞ dbm in
        let days := if (2 <? month c) && is_leap_year (year c) then days ⊞ 1 else days in
        let days := days ⊞ (day c ⊟ 1) in
        Some (u64 (days * 86400 + hour c * 3600 + minute c * 60 + second c))
  end.

(** The year walk of the decomposition: [for (;;)] with fuel. *)
Fixpoint year_walk (fuel : nat) (y days : Z) : option (Z * Z) :=
  match fuel with
  | O => None
  | S f =>
      let yd := if is_leap_year y then 366 else 365 in
      if days <? yd then Some (y, days) else year_walk f (y ⊞ 1) (days - yd)
  end.

(** The month walk [for (m = 1; m <= 12; m++)]: the month found (1 when the loop
    runs out) and the days left. *)
Fixpoint month_walk (k : nat) (y m days : Z) : option (Z * Z) :=
  match k with
  | O => Some (1, days)
  | S k' =>
      md ← month_days y m;
      if days <? md then Some (m, days) else month_walk k' y (m + 1) (days - md)
  end.

Definition unix_seconds_to_civil (fuel : nat) (total : Z) (out : option civil_t)
    : option (option civil_t) :=
  match out with
  | None => Some None
  | Some _ =>
      s ← umod64_u32 total 86400;
      days ← udiv64_u32 total 86400;
      let s' := s / 60 in
      '(y, days) ← year_walk fuel 1970 days;
      '(m, days) ← month_walk 12 y 1 days;
      Some (Some (mk_civil y m (u32 days ⊞ 1) (s' / 60) (s' mod 60) (s mod 60)))
  end.

(** units.h *)
Definition ns_to_ms (ns : Z) : option Z := udiv64_u32 ns 1000000.
Definition ns_to_us (ns : Z) : option Z := udiv64_u32 ns 1000.

(** ** Days since the epoch *)

Definition year_len (y : Z) : Z := if is_leap_year y then 366 else 365.

Fixpoint days_to_year (k : nat) (y : Z) : Z :=
  match k with O => 0 | S k' => year_len y + days_to_year k' (y + 1) end.

Lemma year_len_bounds y : 365 <= year_len y <= 366.
Proof. unfold year_len. destruct (is_leap_year y); lia. Qed.

Lemma days_to_year_bounds k y :
  365 * Z.of_nat k <= days_to_year k y <= 366 * Z.of_nat k.
Proof.
  revert y. induction k as [|k IH]; intros y; cbn [days_to_year]; [lia|].
  pose proof (year_len_bounds y). specialize (IH (y + 1)). lia.
Qed.

Lemma add_years_spec k y days :
  0 <= days -> days + 366 * Z.of_nat k < 0x100000000 ->
  add_years k y days = days + days_to_year k y.
Proof.
  revert y days. induction k as [|k IH]; intros y days Hd Hb;
    cbn [add_years days_to_year]; [lia|].
  fold (year_len y). pose proof (year_len_bounds y).
  rewrite u32_small, IH by lia. lia.
Qed.

Lemma year_walk_exact k y r fuel :
  0 <= y -> y + Z.of_nat k < 0x100000000 -> 0 <= r < year_len (y + Z.of_nat k) ->
  (k < fuel)%nat ->
  year_walk fuel y (days_to_year k y + r) = Some (y + Z.of_nat k, r).
Proof.
  revert y fuel. induction k as [|k IH]; intros y [|fuel] Hy Hb Hr Hf; try lia;
    cbn [year_walk days_to_year]; fold (year_len y).
  - change (Z.of_nat 0) with 0 in *. rewrite Z.add_0_r in *. rewrite Z.add_0_l. case_if; [|lia]. done.
  - pose proof (days_to_year_bounds k (y + 1)). case_if; [lia|].
    rewrite u32_small by lia.
    replace (year_len y + days_to_year k (y + 1) + r - year_len y)
      with (days_to_year k (y + 1) + r) by lia.
    replace (y + Z.of_nat (S k)) with (y + 1 + Z.of_nat k) in * by lia.
    apply IH; lia.
Qed.

(** Every day count falls in exactly one year. *)
Lemma year_of_days d : 0 <= d ->
  exists k r, d = days_to_year k 1970 + r /\ 0 <= r < year_len (1970 + Z.of_nat k) /\
    365 * Z.of_nat k <= d.
Proof.
  enough (forall n y d, 0 <= d <= Z.of_nat n ->
    exists k r, d = days_to_year k y + r /\ 0 <= r < year_len (y + Z.of_nat k)) as H.
  { intros Hd. destruct (H (Z.to_nat d) 1970 d ltac:(lia)) as (k & r & -> & Hr).
    exists k, r. pose proof (days_to_year_bounds k 1970). split_and!; lia || done. }
  clear d. induction n as [|n IH]; intros y d Hd.
  - exists 0%nat, d. change (Z.of_nat 0) with 0. pose proof (year_len_bounds (y + 0)).
    cbn [days_to_year]. lia.
  - destruct (Z.lt_ge_cases d (year_len y)).
    + exists 0%nat, d. change (Z.of_nat 0) with 0. cbn [days_to_year].
      rewrite Z.add_0_r. lia.
    + pose proof (year_len_bounds y).
      destruct (IH (y + 1) (d - year_len y) ltac:(lia)) as (k & r & He & Hr).
      exists (S k), r. cbn [days_to_year].
      replace (y + Z.of_nat (S k)) with (y + 1 + Z.of_nat k) by lia. split; [lia|done].
Qed.

(** ** Months *)

(** Day of the year, counted from 0, of the first of month [m]. *)
Definition month_start (leap : bool) (m : Z) : Z :=
  default 0 (geti days_before_month (m - 1)) + (if (2 <? m) && leap then 1 else 0).

Definition month_len (leap : bool) (m : Z) : Z :=
  if (m =? 2) && leap then 29 else default 0 (geti days_in_month (m - 1)).

Lemma month_cases m : 1 <= m <= 12 ->
  m = 1 \/ m = 2 \/ m = 3 \/ m = 4 \/ m = 5 \/ m = 6 \/ m = 7 \/ m = 8 \/
  m = 9 \/ m = 10 \/ m = 11 \/ m = 12.
Proof. lia. Qed.

Lemma month_days_len y m : 1 <= m <= 12 ->
  month_days y m = Some (month_len (is_leap_year y) m).
Proof.
  intros Hm. unfold month_days.
  destruct (is_leap_year y), (month_cases m Hm); destruct_or?; subst; done.
Qed.

Lemma days_before_spec m : 1 <= m <= 12 ->
  exists b, geti days_before_month (m - 1) = Some b /\ 0 <= b <= 334.
Proof.
  intros Hm. destruct (month_cases m Hm); destruct_or?; subst;
    (eexists; split; [reflexivity|lia]).
Qed.

(** The two tables agree: the days before a month are the sum of the lengths. *)
Lemma month_start_succ leap m : 1 <= m < 12 ->
  month_start leap (m + 1) = month_start leap m + month_len leap m.
Proof.
  intros Hm. destruct leap, (month_cases m ltac:(lia)); destruct_or?; subst; done || lia.
Qed.

Lemma month_start_len leap m : 1 <= m <= 12 ->
  0 <= month_start leap m /\ 28 <= month_len leap m <= 31 /\
  month_start leap m + month_len leap m <= (if leap then 366 else 365).
Proof.
  intros Hm. destruct leap, (month_cases m Hm); destruct_or?; subst; by vm_compute.
Qed.

Lemma month_start_mono leap m n : 1 <= m < n -> n <= 12 ->
  month_start leap m + month_len leap m <= month_start leap n.
Proof.
  intros Hm Hn. replace n with (m + 1 + Z.of_nat (Z.to_nat (n - m - 1))) in * by lia.
  remember (Z.to_nat (n - m - 1)) as k eqn:Hk. clear Hk.
  induction k as [|k IH].
  - change (Z.of_nat 0) with 0. rewrite Z.add_0_r, month_start_succ; lia.
  - replace (m + 1 + Z.of_nat (S k)) with (m + 1 + Z.of_nat k + 1) by lia.
    rewrite month_start_succ by lia.
    destruct (month_start_len leap (m + 1 + Z.of_nat k)) as (_ & ? & _); lia.
Qed.

Lemma month_walk_from y k i m d :
  1 <= i <= m -> m <= 12 -> m - i < Z.of_nat k ->
  0 <= d < month_len (is_leap_year y) m ->
  month_walk k y i (month_start (is_leap_year y) m - month_start (is_leap_year y) i + d)
    = Some (m, d).
Proof.
  revert i. induction k as [|k IH]; intros i Hi Hm Hk Hd; [lia|]. cbn [month_walk].
  rewrite month_days_len by lia. cbn [mbind option_bind].
  destruct (Z.eq_dec i m) as [->|Hne].
  - rewrite Z.sub_diag, Z.add_0_l. case_if; [done|lia].
  - pose proof (month_start_mono (is_leap_year y) i m ltac:(lia) Hm).
    case_if; [lia|].
    rewrite <- (IH (i + 1)) by lia. rewrite month_start_succ by lia. f_equal. lia.
Qed.

Lemma month_walk_exact y m d :
  1 <= m <= 12 -> 0 <= d < month_len (is_leap_year y) m ->
  month_walk 12 y 1 (month_start (is_leap_year y) m + d) = Some (m, d).
Proof.
  intros Hm Hd. rewrite <- (month_walk_from y 12 1 m d) by lia.
  f_equal. change (month_start (is_leap_year y) 1) with 0. lia.
Qed.

Definition in_month (leap : bool) (r m : Z) : bool :=
  (month_start leap m <=? r) && (r <? month_start leap m + month_len leap m).

Lemma months_cover leap :
  forallb (fun r => existsb (in_month leap r) (seqZ 1 12))
    (seqZ 0 (if leap then 366 else 365)) = true.
Proof. by destruct leap; vm_compute. Qed.

Lemma month_of_days (leap : bool) r :
  0 <= r < (if leap then 366 else 365) ->
  exists m d, 1 <= m <= 12 /\ 0 <= d < month_len leap m /\ r = month_start leap m + d.
Proof.
  intros Hr. pose proof (months_cover leap) as H.
  rewrite forallb_forall in H. specialize (H r).
  rewrite existsb_exists in H. destruct H as (m & Hm & Hin).
  { apply list_elem_of_In, elem_of_seqZ. lia. }
  apply list_elem_of_In, elem_of_seqZ in Hm.
  unfold in_month in Hin. bool_to_prop. exists m, (r - month_start leap m). lia.
Qed.

(** ** Properties *)

(** A calendar date that names a day: month 1..12, day within its month, a time
    of day within 24 hours. *)
Definition valid_civil (c : civil_t) : Prop :=
  1970 <= year c <= 1000000 /\ 1 <= month c <= 12 /\
  1 <= day c <= month_len (is_leap_year (year c)) (month c) /\
  0 <= hour c < 24 /\ 0 <= minute c < 60 /\ 0 <= second c < 60.

Definition day_number (y m d : Z) : Z :=
  days_to_year (Z.to_nat (y - 1970)) 1970 + month_start (is_leap_year y) m + d.

Lemma civil_to_unix_spec c :
  1970 <= year c <= 1000000 -> 1 <= month c <= 12 -> 1 <= day c < 0x80000000 ->
  0 <= hour c < 0x100000000 -> 0 <= minute c < 0x100000000 -> 0 <= second c < 0x100000000 ->
  civil_to_unix_seconds (Some c) =
    Some (day_number (year c) (month c) (day c - 1) * 86400 + hour c * 3600 +
          minute c * 60 + second c).
Proof.
  intros Hy Hm Hd Hh Hmi Hs. unfold civil_to_unix_seconds.
  assert ((year c <? 1970) || (month c <? 1) || (12 <? month c) || (day c <? 1) = false)
    as -> by (rewrite !orb_false_iff, !Z.ltb_ge; lia).
  destruct (days_to_year_bounds (Z.to_nat (year c - 1970)) 1970) as [_ Hdy].
  rewrite add_years_spec, Z.add_0_l by lia. unfold day_number.
  set (D := days_to_year _ _) in *.
  destruct (days_before_spec (month c) Hm) as (b & Hb & Hb0).
  pose proof (days_to_year_bounds (Z.to_nat (year c - 1970)) 1970) as Hlo. fold D in Hlo.
  unfold month_start. rewrite Hb. cbn [mbind option_bind default].
  f_equal. destruct ((2 <? month c) && is_leap_year (year c));
    rewrite ?(u32_small (D + b)), ?(u32_small (day c - 1)), ?(u32_small (D + b + 1)),
      u32_small, u64_small by lia; unfold default, id; lia.
Qed.

Lemma day_number_bounds c : valid_civil c ->
  0 <= day_number (year c) (month c) (day c - 1) < 0x100000000.
Proof.
  intros (Hy & Hm & Hd & _). unfold day_number.
  pose proof (days_to_year_bounds (Z.to_nat (year c - 1970)) 1970).
  destruct (month_start_len (is_leap_year (year c)) (month c) Hm) as (? & ? & ?).
  destruct (is_leap_year (year c)); lia.
Qed.

(** The decomposition of a day number and a second of the day. *)
Lemma unix_to_civil_spec c fuel out :
  valid_civil c -> (Z.to_nat (year c) <= fuel)%nat ->
  unix_seconds_to_civil fuel
    (day_number (year c) (month c) (day c - 1) * 86400 + hour c * 3600 +
     minute c * 60 + second c) (Some out) = Some (Some c).
Proof.
  intros Hc Hf. pose proof (day_number_bounds c Hc) as HN.
  destruct Hc as (Hy & Hm & Hd & Hh & Hmi & Hs).
  destruct (month_start_len (is_leap_year (year c)) (month c) Hm) as (? & ? & Hle).
  unfold unix_seconds_to_civil. set (N := day_number _ _ _) in *.
  set (sod := hour c * 3600 + minute c * 60 + second c).
  replace (N * 86400 + hour c * 3600 + minute c * 60 + second c)
    with (N * 86400 + sod) by (unfold sod; lia).
  assert (0 <= sod < 86400) as Hsod by (unfold sod; lia).
  destruct (udiv64_u32_spec (N * 86400 + sod) 86400) as [Hq Hr];
    [unfold is_u64; lia|unfold is_u32; lia|lia|].
  rewrite Hq, Hr. rewrite Z.div_add_l, (Z.div_small sod), Z.add_0_r by lia.
  rewrite (Z.add_comm _ sod), Z.mod_add, Z.mod_small by lia.
  cbn [mbind option_bind].
  assert (N = days_to_year (Z.to_nat (year c - 1970)) 1970 +
              (month_start (is_leap_year (year c)) (month c) + (day c - 1))) as ->
    by (unfold N, day_number; lia).
  assert (1970 + Z.of_nat (Z.to_nat (year c - 1970)) = year c) as Hyc by lia.
  rewrite year_walk_exact; try lia; rewrite ?Hyc.
  2: { unfold year_len. destruct (is_leap_year (year c)); lia. }
  cbn [mbind option_bind]. rewrite month_walk_exact by lia. cbn [mbind option_bind].
  rewrite (u32_small (day c - 1)), u32_small by lia.
  destruct c as [y m d h mi s]; cbn in *. unfold sod.
  repeat f_equal; zlia.
Qed.

(** C39: composing a valid date and decomposing the result gives the date back:
    the two directions of the calendar never diverge (years 1970 to 1000000). *)
Theorem civil_roundtrip c fuel out :
  valid_civil c -> (Z.to_nat (year c) <= fuel)%nat ->
  exists t, civil_to_unix_seconds (Some c) = Some t /\
    unix_seconds_to_civil fuel t (Some out) = Some (Some c).
Proof.
  intros Hc Hf. eexists. split; [|by apply unix_to_civil_spec].
  destruct Hc as (Hy & Hm & Hd & Hh & Hmi & Hs).
  destruct (month_start_len (is_leap_year (year c)) (month c) Hm) as (? & ? & ?).
  apply civil_to_unix_spec; lia.
Qed.

Lemma civil_roundtrip_witness :
  exists t, civil_to_unix_seconds (Some (mk_civil 2024 2 29 23 59 58)) = Some t /\
    t = 1709251198 /\
    unix_seconds_to_civil 3000 t (Some (mk_civil 0 0 0 0 0 0)) =
      Some (Some (mk_civil 2024 2 29 23 59 58)).
Proof.
  destruct (civil_roundtrip (mk_civil 2024 2 29 23 59 58) 3000 (mk_civil 0 0 0 0 0 0))
    as (t & H1 & H2).
  - unfold valid_civil; cbn. change (month_len (is_leap_year 2024) 2) with 29. lia.
  - apply Nat.leb_le. vm_compute. reflexivity.
  - exists t. split; [exact H1|]. split; [|exact H2]. vm_compute in H1. congruence.
Defined.



(** what the composition rejects and what it does not.  A null pointer, a
    year before 1970, a month outside 1..12 or a day 0 give 0; a day past the end
    of its month is not rejected but carried over into the following days. *)
Theorem civil_day_overflow c extra :
  valid_civil c -> 0 <= extra < 0x40000000 ->
  civil_to_unix_seconds None = Some 0 /\
  (forall c', year c' < 1970 \/ month c' < 1 \/ 12 < month c' \/ day c' < 1 ->
   civil_to_unix_seconds (Some c') = Some 0) /\
  exists t, civil_to_unix_seconds (Some c) = Some t /\
    civil_to_unix_seconds
      (Some (mk_civil (year c) (month c) (day c + extra) (hour c) (minute c) (second c)))
    = Some (t + extra * 86400).
Proof.
  intros (Hy & Hm & Hd & Hh & Hmi & Hs) He. split_and!; [done| |].
  - intros c' Hbad. unfold civil_to_unix_seconds. by repeat (case_cmp; try lia).
  - destruct (month_start_len (is_leap_year (year c)) (month c) Hm) as (? & ? & ?).
    eexists. split; [apply civil_to_unix_spec; lia|].
    rewrite civil_to_unix_spec by (cbn; lia). cbn [year month day hour minute second].
    unfold day_number. f_equal. lia.
Qed.

(** February 31 is accepted and means March 3. *)
Lemma civil_day_overflow_witness :
  civil_to_unix_seconds (Some (mk_civil 2023 2 31 0 0 0)) =
  civil_to_unix_seconds (Some (mk_civil 2023 3 3 0 0 0)).
Proof.
  destruct (civil_day_overflow (mk_civil 2023 2 1 0 0 0) 30) as (_ & _ & t & H1 & H2).
  - unfold valid_civil; cbn. change (month_len (is_leap_year 2023) 2) with 28. lia.
  - lia.
  - etransitivity; [exact H2|].
    vm_compute in H1. injection H1 as <-. vm_compute. reflexivity.
Defined.
