(* ===== verification/Vregion.v ===== *)
(** * Virtual regions of an address space (kernel/mm/vregion.c)

    A process's regions form a list sorted by base.  The [prev]/[next]/[head]/
    [tail] pointers of the source are the order of the Rocq list: a position
    between [prev] and [next] is a split of the list, so [link_between] and
    [unlink_node] take the two parts.  [kcalloc] is an argument [mem]: whether it
    returned memory for the node. *)

From S2P Require Import Prelude.

Record vregion := mk_vregion {
  base : Z; pages : Z; flags : Z; backing_id : Z; committed : Z
}.

Record vregion_list := mk_vlist {
  nodes : list vregion; count : Z; total_pages : Z; device_pages : Z
}.

#[export] Instance vregion_eq_dec : EqDecision vregion.
Proof. solve_decision. Defined.

Definition VREG_DEVICE : Z := 0x8000.

Definition is_device (n : vregion) : bool := negb (Z.land (flags n) VREG_DEVICE =? 0).

(** [base + pages * PAGE_SIZE], as the source computes it. *)
Definition region_end (n : vregion) : Z := base n ⊞ (pages n ⊠ PAGE_SIZE).

Definition link_between (vl : vregion_list) (pre : list vregion) (n : vregion)
    (post : list vregion) : vregion_list :=
  mk_vlist (pre ++ n :: post) (count vl ⊞ 1) (total_pages vl ⊞ pages n)
    (if is_device n then device_pages vl ⊞ pages n else device_pages vl).

Definition unlink_node (vl : vregion_list) (pre : list vregion) (n : vregion)
    (post : list vregion) : vregion_list :=
  mk_vlist (pre ++ post) (count vl ⊟ 1) (total_pages vl ⊟ pages n)
    (if is_device n then device_pages vl ⊟ pages n else device_pages vl).

Definition make_node (mem : bool) (b p f id : Z) : option vregion :=
  if mem then Some (mk_vregion b p f id 0) else None.

Definition vregion_init : vregion_list := mk_vlist [] 0 0 0.

(** Every node is freed and the list reset: the freed nodes are the result. *)
Definition vregion_destroy (vl : vregion_list) : vregion_list * list vregion :=
  (vregion_init, nodes vl).

(** The gap search of [vregion_alloc]: the nodes passed, the candidate and the
    rest of the list when the loop stops. *)
Fixpoint find_gap (pre cur : list vregion) (cand size max_addr : Z)
    : list vregion * Z * list vregion :=
  match cur with
  | [] => (pre, cand, [])
  | c :: rest =>
      let cur_end := region_end c in
      if cur_end <=? cand then find_gap (pre ++ [c]) rest cand size max_addr
      else if (cand ⊞ size <=? base c) && (cand ⊞ size <=? max_addr)
      then (pre, cand, cur)
      else find_gap (pre ++ [c]) rest (ALIGN_UP cur_end PAGE_SIZE) size max_addr
  end.

Definition vregion_alloc (mem : bool) (vl : vregion_list)
    (npages min_addr max_addr fl id : Z) : Z * vregion_list :=
  if npages =? 0 then (0, vl)
  else
    let size := npages ⊠ PAGE_SIZE in
    let '(pre, cand, cur) :=
      find_gap [] (nodes vl) (ALIGN_UP min_addr PAGE_SIZE) size max_addr in
    if (max_addr <? cand ⊞ size) || (cand ⊞ size <? cand) then (0, vl)
    else match make_node mem cand npages fl id with
         | None => (0, vl)
         | Some n => (cand, link_between vl pre n cur)
         end.

(** The overlap scan of [vregion_insert]: [None] on overlap, else the split. *)
Fixpoint find_slot (pre cur : list vregion) (b e : Z)
    : option (list vregion * list vregion) :=
  match cur with
  | [] => Some (pre, [])
  | c :: rest =>
      if base c <? e then
        if (b <? region_end c) && (base c <? e) then None
        else find_slot (pre ++ [c]) rest b e
      else Some (pre, cur)
  end.

Definition vregion_insert (mem : bool) (vl : vregion_list) (b npages fl : Z)
    : option vregion * vregion_list :=
  let b := ALIGN_DOWN b PAGE_SIZE in
  let e := b ⊞ (npages ⊠ PAGE_SIZE) in
  if e <? b then (None, vl)
  else match find_slot [] (nodes vl) b e with
       | None => (None, vl)
       | Some (pre, cur) =>
           match make_node mem b npages fl (-1) with
           | None => (None, vl)
           | Some n => (Some n, link_between vl pre n cur)
           end
       end.

(** The walk of [vregion_find_exact], keeping the split around the node found. *)
Fixpoint find_exact (pre cur : list vregion) (b : Z)
    : option (list vregion * vregion * list vregion) :=
  match cur with
  | [] => None
  | c :: rest =>
      if base c =? b then Some (pre, c, rest)
      else if b <? base c then None
      else find_exact (pre ++ [c]) rest b
  end.

Definition vregion_find_exact (vl : vregion_list) (b : Z) : option vregion :=
  '(_, n, _) ← find_exact [] (nodes vl) b; Some n.

Definition vregion_free (vl : vregion_list) (b : Z) : Z * vregion_list :=
  match find_exact [] (nodes vl) b with
  | None => (0, vl)
  | Some (pre, n, post) => (pages n, unlink_node vl pre n post)
  end.

Definition vregion_resize (vl : vregion_list) (b new_pages : Z)
    : bool * vregion_list :=
  match find_exact [] (nodes vl) b with
  | None => (false, vl)
  | Some (pre, n, post) =>
      if new_pages =? 0 then (false, vl)
      else if (UINT32_MAX - b) / PAGE_SIZE <? new_pages then (false, vl)
      else if (pages n <? new_pages) &&
              match post with
              | [] => false
              | nx :: _ => base nx <? b ⊞ (new_pages ⊠ PAGE_SIZE)
              end then (false, vl)
      else
        let c := if new_pages <? committed n then new_pages else committed n in
        let delta := new_pages ⊟ pages n in
        (true, mk_vlist
          (pre ++ mk_vregion (base n) new_pages (flags n) (backing_id n) c :: post)
          (count vl) (total_pages vl ⊞ delta)
          (if is_device n then device_pages vl ⊞ delta else device_pages vl))
  end.

Fixpoint find_addr (cur : list vregion) (addr : Z) : option vregion :=
  match cur with
  | [] => None
  | c :: rest =>
      if addr <? base c then None
      else if addr <? region_end c then Some c
      else find_addr rest addr
  end.

Definition vregion_find (vl : vregion_list) (addr : Z) : option vregion :=
  find_addr (nodes vl) addr.

Definition vregion_total_committed (vl : vregion_list) : Z :=
  foldl (fun t c => t ⊞ committed c) 0 (nodes vl).

(** ** Invariant *)

(** A region on page boundaries that does not wrap the 32-bit space. *)
Definition wf_region (n : vregion) : Prop :=
  0 <= base n /\ base n mod PAGE_SIZE = 0 /\ 0 <= pages n /\
  base n + pages n * PAGE_SIZE < 0x100000000.

Definition rend (n : vregion) : Z := base n + pages n * PAGE_SIZE.

Definition sum_pages (l : list vregion) : Z := foldr (fun n t => pages n + t) 0 l.
Definition sum_device (l : list vregion) : Z :=
  foldr (fun n t => (if is_device n then pages n else 0) + t) 0 l.

Record wf_vlist (vl : vregion_list) : Prop := {
  wf_regions : Forall wf_region (nodes vl);
  wf_ordered : StronglySorted (fun a b => rend a <= base b) (nodes vl);
  wf_count : count vl = u32 (Z.of_nat (length (nodes vl)));
  wf_total : total_pages vl = u32 (sum_pages (nodes vl));
  wf_device : device_pages vl = u32 (sum_device (nodes vl))
}.

Lemma region_end_exact n : wf_region n -> region_end n = rend n.
Proof.
  unfold wf_region, region_end, rend, PAGE_SIZE. intros (? & ? & ? & ?).
  by rewrite (u32_small (pages n * 4096)), u32_small by lia.
Qed.

Lemma sum_pages_app l1 l2 : sum_pages (l1 ++ l2) = sum_pages l1 + sum_pages l2.
Proof. unfold sum_pages. induction l1; cbn in *; lia. Qed.

Lemma sum_device_app l1 l2 : sum_device (l1 ++ l2) = sum_device l1 + sum_device l2.
Proof. unfold sum_device. induction l1; cbn in *; lia. Qed.


Lemma sum_pages_cons n l : sum_pages (n :: l) = pages n + sum_pages l.
Proof. done. Qed.

Lemma sum_device_cons n l :
  sum_device (n :: l) = (if is_device n then pages n else 0) + sum_device l.
Proof. done. Qed.

#[local] Arguments sum_pages : simpl never.
#[local] Arguments sum_device : simpl never.

Lemma wf_vlist_init : wf_vlist vregion_init.
Proof. by constructor; cbn; try constructor. Qed.

(** ** Linking and unlinking *)

Lemma wf_link vl pre n post :
  wf_vlist vl -> nodes vl = pre ++ post -> wf_region n ->
  Forall (fun a => rend a <= base n) pre -> Forall (fun b => rend n <= base b) post ->
  wf_vlist (link_between vl pre n post).
Proof.
  intros [Hr Ho Hc Ht Hd] Hn Hw Hpre Hpost. rewrite Hn in *.
  apply Forall_app in Hr as [? ?]. apply sorted_split in Ho as (? & ? & Hx).
  constructor; cbn.
  - apply Forall_app; split; [done|by constructor].
  - apply sorted_split. split_and!; [done|by constructor|].
    rewrite Forall_forall in Hpre, Hx |- *. intros a Ha. constructor; auto.
  - rewrite Hc, u32_add_l, !length_app. cbn. f_equal. lia.
  - rewrite Ht, u32_add_l, !sum_pages_app, ?sum_pages_cons. cbn. f_equal. lia.
  - rewrite Hd, !sum_device_app, ?sum_device_cons. cbn.
    destruct (is_device n); rewrite ?u32_add_l; f_equal; lia.
Qed.

Lemma u32_sub_l a b : u32 a ⊟ b = u32 (a - b).
Proof. unfold u32. by rewrite Zminus_mod_idemp_l. Qed.

Lemma wf_unlink vl pre n post :
  wf_vlist vl -> nodes vl = pre ++ n :: post -> wf_vlist (unlink_node vl pre n post).
Proof.
  intros [Hr Ho Hc Ht Hd] Hn. rewrite Hn in *.
  apply Forall_app in Hr as [? Hr2]. inversion_clear Hr2.
  apply sorted_split in Ho as (? & Ho2 & Hx). apply StronglySorted_inv in Ho2 as [? ?].
  constructor; cbn.
  - by apply Forall_app.
  - apply sorted_split. split_and!; [done|done|].
    eapply Forall_impl; [exact Hx|]. intros a Ha. by inversion_clear Ha.
  - rewrite Hc, u32_sub_l, !length_app. cbn. f_equal. lia.
  - rewrite Ht, u32_sub_l, !sum_pages_app, ?sum_pages_cons. cbn. f_equal. lia.
  - rewrite Hd, !sum_device_app, ?sum_device_cons. cbn.
    destruct (is_device n); rewrite ?u32_sub_l; f_equal; lia.
Qed.

(** ** Allocation *)

(** [size] bytes at [a] fit below [max] and touch no region. *)
Definition fits (l : list vregion) (a size min_addr max_addr : Z) : Prop :=
  min_addr <= a /\ a mod PAGE_SIZE = 0 /\ a + size <= max_addr /\
  Forall (fun n => a + size <= base n \/ rend n <= a) l.

Lemma align_up_region n : wf_region n -> ALIGN_UP (region_end n) PAGE_SIZE = rend n.
Proof.
  intros Hw. rewrite region_end_exact by done.
  unfold wf_region, rend, PAGE_SIZE in *. rewrite ALIGN_UP_page by zlia.
  unfold PAGE_SIZE. zlia.
Qed.

Lemma find_gap_spec l size min_addr max_addr pre cur cand pre' cand' cur' :
  0 < size < 0x100000000 -> is_u32 max_addr ->
  l = pre ++ cur -> Forall wf_region l ->
  StronglySorted (fun a b => rend a <= base b) l ->
  is_u32 cand -> min_addr <= cand -> cand mod PAGE_SIZE = 0 ->
  Forall (fun a => rend a <= cand) pre ->
  (forall a, fits l a size min_addr max_addr -> cand <= a) ->
  find_gap pre cur cand size max_addr = (pre', cand', cur') ->
  l = pre' ++ cur' /\ is_u32 cand' /\ min_addr <= cand' /\ cand' mod PAGE_SIZE = 0 /\
  Forall (fun a => rend a <= cand') pre' /\
  (cand' + size < 0x100000000 -> Forall (fun b => cand' + size <= base b) cur') /\
  (forall a, fits l a size min_addr max_addr -> cand' <= a).
Proof.
  intros Hsz Hmax. revert pre cand.
  induction cur as [|c rest IH]; intros pre cand Hl Hwf Hso Hcu Hmin Hal Hpre Hfit Hg;
    cbn [find_gap] in Hg.
  { simplify_eq. split_and!; auto. }
  assert (wf_region c) as Hwc.
  { rewrite Hl in Hwf. apply Forall_app in Hwf as [_ Hwf]. by inversion_clear Hwf. }
  assert (l = (pre ++ [c]) ++ rest) as Hl' by (by rewrite <- app_assoc).
  destruct (Z.leb_spec (region_end c) cand) as [Hle|Hgt].
  { rewrite region_end_exact in Hle by done. apply (IH (pre ++ [c]) cand); auto.
    apply Forall_app; split; [done|by repeat constructor]. }
  rewrite region_end_exact in Hgt by done.
  destruct ((cand ⊞ size <=? base c) && (cand ⊞ size <=? max_addr)) eqn:Hb.
  - simplify_eq. bool_to_prop. split_and!; auto. intros Hnw.
    unfold is_u32 in *. rewrite u32_small in * by lia.
    apply sorted_split in Hso as (_ & Hso & _).
    apply StronglySorted_inv in Hso as [_ Hc]. constructor; [done|].
    eapply Forall_impl; [exact Hc|]. cbn. intros b Hb'.
    unfold wf_region, rend, PAGE_SIZE in *. lia.
  - apply (IH (pre ++ [c]) (ALIGN_UP (region_end c) PAGE_SIZE)) in Hg; auto;
      rewrite align_up_region in * by done; auto.
    + unfold wf_region, is_u32, rend, PAGE_SIZE in *. lia.
    + lia.
    + unfold wf_region, rend, PAGE_SIZE in *. zlia.
    + apply Forall_app; split; [|by repeat constructor].
      eapply Forall_impl; [exact Hpre|]. cbn. lia.
    + intros a Ha. pose proof (Hfit a Ha). destruct Ha as (Ha1 & Ha2 & Ha3 & Ha4).
      rewrite Hl in Ha4. apply Forall_app in Ha4 as [_ Ha4]. inversion_clear Ha4 as [|?? Hc _].
      destruct Hc as [Hc|Hc]; [|done]. exfalso.
      unfold is_u32 in *. rewrite u32_small in Hb by lia.
      apply andb_false_iff in Hb as [Hb|Hb]; bool_to_prop; lia.
Qed.

(** Where an allocation puts its node, or why there is none. *)
Lemma vregion_alloc_place mem vl npages min_addr max_addr fl id a vl' :
  wf_vlist vl -> 0 < npages < 0x100000 -> 0 < min_addr <= 0xFFFFF000 ->
  is_u32 max_addr ->
  vregion_alloc mem vl npages min_addr max_addr fl id = (a, vl') ->
  let size := npages * PAGE_SIZE in
  let n := mk_vregion a npages fl id 0 in
  (a = 0 /\ vl' = vl /\
   (mem = true -> forall x, ~ fits (nodes vl) x size min_addr max_addr)) \/
  (a <> 0 /\ fits (nodes vl) a size min_addr max_addr /\
   (forall x, fits (nodes vl) x size min_addr max_addr -> a <= x) /\
   exists pre post, nodes vl = pre ++ post /\ vl' = link_between vl pre n post /\
     wf_vlist vl').
Proof.
  intros Hwf Hnp Hmin Hmax. unfold vregion_alloc.
  destruct (Z.eqb_spec npages 0); [lia|].
  rewrite (u32_small (npages * PAGE_SIZE)) by (unfold PAGE_SIZE; lia).
  destruct (find_gap _ _ _ _ _) as [[pre cand] cur] eqn:Hg.
  assert (ALIGN_UP min_addr PAGE_SIZE = min_addr + (- min_addr) mod PAGE_SIZE) as Hal
    by (apply ALIGN_UP_page; lia).
  assert (0 < npages * PAGE_SIZE < 0x100000000) as Hsz by (unfold PAGE_SIZE; lia).
  set (size := npages * PAGE_SIZE) in *.
  eapply (find_gap_spec (nodes vl) size min_addr) in Hg; try done;
    try apply Hwf; rewrite ?Hal.
  2: { unfold is_u32, PAGE_SIZE. zlia. }
  2: { unfold PAGE_SIZE. zlia. }
  2: { unfold PAGE_SIZE. zlia. }
  2: { intros x (Hx1 & Hx2 & _). unfold PAGE_SIZE in *. zlia. }
  destruct Hg as (Hsplit & Hcu & Hge & Hcal & Hpre & Hpost & Hleast).
  unfold is_u32 in *.
  destruct ((max_addr <? cand ⊞ size) || (cand ⊞ size <? cand)) eqn:Hb.
  { intros [= <- <-]. left. split_and!; [done..|]. intros _ x Hx.
    pose proof (Hleast x Hx). destruct Hx as (_ & _ & Hx & _).
    rewrite u32_small in Hb by lia. apply orb_true_iff in Hb as [?%Z.ltb_lt|?%Z.ltb_lt]; lia. }
  bool_to_prop.
  assert (cand + size < 0x100000000) as Hnw.
  { destruct (Z.lt_ge_cases (cand + size) 0x100000000); [done|].
    unfold u32 in *. zlia. }
  rewrite (u32_small (cand + size)) in * by lia.
  destruct mem; cbn [make_node]; intros [= <- <-]; [|by left]. right.
  specialize (Hpost Hnw).
  assert (wf_region (mk_vregion cand npages fl id 0)) as Hn.
  { unfold wf_region; cbn. fold size. split_and!; lia || done. }
  split_and!; [lia| |done|].
  - unfold fits. split_and!; [lia|done|lia|]. rewrite Hsplit. apply Forall_app. split.
    + eapply Forall_impl; [exact Hpre|]. cbn. lia.
    + eapply Forall_impl; [exact Hpost|]. cbn. lia.
  - exists pre, cur. split_and!; [done|done|]. by apply wf_link.
Qed.

(** [vregion_alloc] is first fit.  When it fails the list is unchanged and
    (with memory for the node) no aligned gap exists; when it succeeds the address
    is page aligned, at least [min_addr], ends by [max_addr], touches no region, is
    the least such address, and the new list satisfies the invariant with exactly
    one region more. *)
Theorem vregion_alloc_first_fit mem vl npages min_addr max_addr fl id a vl' :
  wf_vlist vl -> 0 < npages < 0x100000 -> 0 < min_addr <= 0xFFFFF000 ->
  is_u32 max_addr ->
  vregion_alloc mem vl npages min_addr max_addr fl id = (a, vl') ->
  let size := npages * PAGE_SIZE in
  if a =? 0 then
    vl' = vl /\ (mem = true -> forall x, ~ fits (nodes vl) x size min_addr max_addr)
  else
    fits (nodes vl) a size min_addr max_addr /\
    (forall x, fits (nodes vl) x size min_addr max_addr -> a <= x) /\
    wf_vlist vl' /\
    exists pre post, nodes vl = pre ++ post /\
      nodes vl' = pre ++ mk_vregion a npages fl id 0 :: post.
Proof.
  intros Hwf Hnp Hmin Hmax E size.
  destruct (vregion_alloc_place _ _ _ _ _ _ _ _ _ Hwf Hnp Hmin Hmax E)
    as [(-> & -> & ?)|(Ha & ? & ? & pre & post & ? & -> & ?)]; [done|].
  destruct (Z.eqb_spec a 0); [done|]. split_and!; try done. by exists pre, post.
Qed.

Definition sample : vregion_list :=
  mk_vlist [mk_vregion 0x400000 4 3 (-1) 0; mk_vregion 0x406000 2 0x8000 (-1) 0] 2 6 2.

Lemma wf_sample : wf_vlist sample.
Proof.
  constructor; cbn; try done.
  - repeat constructor; cbn; unfold PAGE_SIZE; lia || done.
  - repeat constructor; unfold rend, PAGE_SIZE; cbn; lia.
Qed.

Lemma vregion_alloc_first_fit_witness :
  fits (nodes sample) 0x404000 (2 * PAGE_SIZE) 0x400001 0x500000.
Proof.
  destruct (vregion_alloc true sample 2 0x400001 0x500000 3 7) as [a vl'] eqn:E.
  pose proof (vregion_alloc_first_fit true sample 2 0x400001 0x500000 3 7 a vl' wf_sample
    ltac:(lia) ltac:(lia) ltac:(unfold is_u32; lia) E) as H.
  vm_compute in E. injection E as <- <-. exact (proj1 H).
Defined.

(** ** The other mutators *)

Lemma find_slot_spec l b e pre cur :
  l = pre ++ cur -> Forall wf_region l ->
  StronglySorted (fun a b => rend a <= base b) l ->
  Forall (fun a => rend a <= b) pre ->
  match find_slot pre cur b e with
  | None => Exists (fun c => b < rend c /\ base c < e) l
  | Some (pre', cur') =>
      l = pre' ++ cur' /\ Forall (fun a => rend a <= b) pre' /\
      Forall (fun c => e <= base c) cur'
  end.
Proof.
  revert pre. induction cur as [|c rest IH]; intros pre Hl Hwf Hso Hpre; cbn [find_slot].
  { split_and!; auto. }
  assert (wf_region c) as Hwc.
  { rewrite Hl in Hwf. apply Forall_app in Hwf as [_ Hwf]. by inversion_clear Hwf. }
  rewrite region_end_exact by done.
  destruct (Z.ltb_spec (base c) e) as [Hlt|Hge].
  - rewrite andb_true_r. case_if.
    + rewrite Hl. apply Exists_app. right. by apply Exists_cons_hd.
    + apply IH; auto; [by rewrite <- app_assoc|].
      apply Forall_app; split; [done|by repeat constructor].
  - split_and!; auto. rewrite Hl in Hso. apply sorted_split in Hso as (_ & Hso & _).
    apply StronglySorted_inv in Hso as [_ Hc]. constructor; [done|].
    eapply Forall_impl; [exact Hc|]. cbn. unfold wf_region, rend, PAGE_SIZE in *. lia.
Qed.

Lemma find_exact_spec l pre cur b pre' n post :
  l = pre ++ cur -> find_exact pre cur b = Some (pre', n, post) ->
  l = pre' ++ n :: post /\ base n = b.
Proof.
  revert pre. induction cur as [|c rest IH]; intros pre Hl; cbn [find_exact]; [done|].
  destruct (Z.eqb_spec (base c) b).
  - intros [= <- <- <-]. done.
  - case_if; [done|]. apply IH. by rewrite <- app_assoc.
Qed.

Lemma vregion_insert_wf mem vl b npages fl o vl' :
  wf_vlist vl -> is_u32 b -> 0 <= npages < 0x100000 ->
  vregion_insert mem vl b npages fl = (o, vl') ->
  wf_vlist vl' /\
  match o with
  | None => vl' = vl
  | Some n => base n = b - b mod PAGE_SIZE /\ pages n = npages /\ wf_region n /\
      exists pre post, nodes vl = pre ++ post /\ nodes vl' = pre ++ n :: post
  end.
Proof.
  intros Hwf Hb Hnp. unfold vregion_insert. rewrite ALIGN_DOWN_page by done.
  set (b' := b - b mod PAGE_SIZE).
  assert (0 <= b' /\ b' mod PAGE_SIZE = 0 /\ b' < 0x100000000) as (Hb0 & Hbm & Hbu).
  { unfold b', is_u32, PAGE_SIZE in *. split_and!; zlia. }
  rewrite (u32_small (npages * PAGE_SIZE)) by (unfold PAGE_SIZE; lia).
  destruct (Z.ltb_spec (b' ⊞ npages * PAGE_SIZE) b'); [by intros [= <- <-]|].
  assert (b' + npages * PAGE_SIZE < 0x100000000) as Hnw.
  { destruct (Z.lt_ge_cases (b' + npages * PAGE_SIZE) 0x100000000); [done|].
    unfold u32, PAGE_SIZE in *. zlia. }
  rewrite u32_small by (unfold PAGE_SIZE in *; lia).
  pose proof (find_slot_spec (nodes vl) b' (b' + npages * PAGE_SIZE) [] (nodes vl)
    eq_refl (wf_regions _ Hwf) (wf_ordered _ Hwf) (Forall_nil_2 _)) as Hs.
  destruct (find_slot _ _ _ _) as [[pre cur]|]; [|by intros [= <- <-]].
  destruct Hs as (Hsplit & Hpre & Hpost).
  destruct mem; cbn [make_node]; intros [= <- <-]; [|done].
  assert (wf_region (mk_vregion b' npages fl (-1) 0)) as Hn
    by (unfold wf_region; cbn; split_and!; lia || done).
  split; [by apply wf_link|]. split_and!; try done. by eexists _, _.
Qed.

Lemma vregion_free_wf vl b npages vl' :
  wf_vlist vl -> vregion_free vl b = (npages, vl') -> wf_vlist vl'.
Proof.
  intros Hwf. unfold vregion_free.
  destruct (find_exact [] (nodes vl) b) as [[[pre n] post]|] eqn:E; intros [= <- <-]; [|done].
  apply (find_exact_spec (nodes vl)) in E as [Hl _]; [|done]. by apply wf_unlink.
Qed.

Lemma vregion_resize_wf vl b k ok vl' :
  wf_vlist vl -> 0 <= b -> 0 <= k -> vregion_resize vl b k = (ok, vl') ->
  wf_vlist vl'.
Proof.
  intros Hwf Hb Hk. unfold vregion_resize.
  destruct (find_exact [] (nodes vl) b) as [[[pre n] post]|] eqn:E; [|by intros [= <- <-]].
  apply (find_exact_spec (nodes vl)) in E as [Hl Hbn]; [|done].
  destruct (Z.eqb_spec k 0); [by intros [= <- <-]|].
  case_if; [by intros [= <- <-]|].
  set (bad := match post with [] => false | nx :: _ => _ end).
  destruct ((pages n <? k) && bad) eqn:Hbad; [by intros [= <- <-]|].
  intros [= <- <-].
  destruct Hwf as [Hr Ho Hc Ht Hd]. rewrite Hl in *.
  apply Forall_app in Hr as [Hr1 Hr2]. inversion_clear Hr2 as [|?? Hn Hr3].
  apply sorted_split in Ho as (Ho1 & Ho2 & Hx). apply StronglySorted_inv in Ho2 as [Ho2 Hnp].
  assert (base n + k * PAGE_SIZE < 0x100000000) as Hfit.
  { unfold UINT32_MAX, PAGE_SIZE in *. subst b. zlia. }
  set (n' := mk_vregion (base n) k (flags n) (backing_id n) _).
  assert (Forall (fun c => rend n' <= base c) post) as Hpost.
  { unfold wf_region in Hn. destruct post as [|nx post]; constructor.
    - inversion_clear Hnp. unfold rend in *. cbn in *. subst bad.
      rewrite (u32_small (k * PAGE_SIZE)), u32_small in Hbad by (unfold PAGE_SIZE in *; lia).
      apply andb_false_iff in Hbad as [?|?]; bool_to_prop; unfold PAGE_SIZE in *; lia.
    - inversion_clear Hnp. apply StronglySorted_inv in Ho2 as [_ Hnx].
      inversion_clear Hr3 as [|?? Hwnx _].
      eapply Forall_impl; [exact Hnx|]. cbn. intros c Hcx.
      unfold wf_region, rend in *. cbn in *. subst bad.
      rewrite (u32_small (k * PAGE_SIZE)), u32_small in Hbad by (unfold PAGE_SIZE in *; lia).
      apply andb_false_iff in Hbad as [?|?]; bool_to_prop; unfold PAGE_SIZE in *; lia. }
  constructor; cbn [nodes count total_pages device_pages].
  - apply Forall_app; split; [done|]. constructor; [|done].
    unfold wf_region in *; cbn. tauto.
  - apply sorted_split. split_and!; [done|by constructor|].
    eapply Forall_impl; [exact Hx|]. intros a Ha. inversion_clear Ha. by constructor.
  - by rewrite Hc, !length_app.
  - rewrite Ht, !sum_pages_app, !sum_pages_cons. cbn [pages n'].
    rewrite u32_add_l, u32_add_r. f_equal. lia.
  - rewrite Hd, !sum_device_app, !sum_device_cons. change (is_device n') with (is_device n).
    destruct (is_device n); cbn [pages n'];
      rewrite ?u32_add_l, ?u32_add_r; [|done]; f_equal; lia.
Qed.

(** ** Properties of whole histories *)

Inductive vop :=
  | VAlloc (mem : bool) (npages min_addr max_addr fl id : Z)
  | VInsert (mem : bool) (b npages fl : Z)
  | VFree (b : Z)
  | VResize (b new_pages : Z).

Definition vop_ok (o : vop) : Prop :=
  match o with
  | VAlloc _ k lo hi _ _ => 0 <= k < 0x100000 /\ 0 < lo <= 0xFFFFF000 /\ is_u32 hi
  | VInsert _ b k _ => is_u32 b /\ 0 <= k < 0x100000
  | VFree _ => True
  | VResize b k => 0 <= b /\ 0 <= k
  end.

Definition run_vop (vl : vregion_list) (o : vop) : vregion_list :=
  match o with
  | VAlloc mem k lo hi fl id => snd (vregion_alloc mem vl k lo hi fl id)
  | VInsert mem b k fl => snd (vregion_insert mem vl b k fl)
  | VFree b => snd (vregion_free vl b)
  | VResize b k => snd (vregion_resize vl b k)
  end.

Lemma run_vop_wf vl o : wf_vlist vl -> vop_ok o -> wf_vlist (run_vop vl o).
Proof.
  intros Hwf Hok. destruct o as [mem k lo hi fl id|mem b k fl|b|b k]; cbn in *.
  - destruct (vregion_alloc mem vl k lo hi fl id) as [a vl'] eqn:E; cbn.
    destruct Hok as (Hk & Hlo & Hhi).
    destruct (Z.eq_dec k 0) as [->|]; [by injection E as <- <-|].
    destruct (vregion_alloc_place mem vl k lo hi fl id _ _ Hwf ltac:(lia) Hlo Hhi E)
      as [(_ & -> & _)|(_ & _ & _ & pre & post & _ & _ & ?)]; done.
  - destruct (vregion_insert mem vl b k fl) as [o vl'] eqn:E; cbn.
    destruct Hok. by eapply proj1, vregion_insert_wf.
  - destruct (vregion_free vl b) as [k vl'] eqn:E; cbn. by eapply vregion_free_wf.
  - destruct (vregion_resize vl b k) as [ok vl'] eqn:E; cbn.
    destruct Hok. eapply vregion_resize_wf; [exact Hwf|..|exact E]; done.
Qed.

(** ** Lookup *)

Lemma find_addr_spec l addr n :
  Forall wf_region l -> StronglySorted (fun a b => rend a <= base b) l ->
  find_addr l addr = Some n <-> n ∈ l /\ base n <= addr < rend n.
Proof.
  intros Hwf Hso. induction l as [|c l IH]; cbn [find_addr].
  { split; [done|]. by intros [?%not_elem_of_nil _]. }
  inversion_clear Hwf as [|?? Hc Hl]. apply StronglySorted_inv in Hso as [Hs Hf].
  rewrite region_end_exact by done. rewrite elem_of_cons.
  rewrite Forall_forall in Hf, Hl.
  destruct (Z.ltb_spec addr (base c)) as [H1|H1].
  { split; [done|]. intros [[->|Hin] Hn]; [lia|].
    specialize (Hf n Hin). unfold wf_region, rend, PAGE_SIZE in *. lia. }
  destruct (Z.ltb_spec addr (rend c)) as [H2|H2].
  - split.
    + intros [= ->]. split; [by left|lia].
    + intros [[->|Hin] Hn]; [done|]. specialize (Hf n Hin). lia.
  - rewrite IH; [|by apply Forall_forall|done]. split.
    + intros [? ?]. split; [by right|done].
    + intros [[->|Hin] Hn]; [lia|done].
Qed.

(** The walk stops at the node when every region before it starts lower. *)
Lemma find_exact_at acc pre n post :
  Forall (fun c => base c < base n) pre ->
  find_exact acc (pre ++ n :: post) (base n) = Some (acc ++ pre, n, post).
Proof.
  intros Hpre. revert acc. induction Hpre as [|c pre Hc _ IH]; intros acc;
    cbn [app find_exact].
  - by rewrite Z.eqb_refl, app_nil_r.
  - destruct (Z.eqb_spec (base c) (base n)); [lia|]. case_if; [lia|].
    by rewrite IH, <- app_assoc.
Qed.



(** freeing what was just allocated returns its page count and restores the
    list and its counters exactly, provided no region is empty. *)
Theorem vregion_alloc_free_roundtrip vl npages min_addr max_addr fl id a vl' :
  wf_vlist vl -> Forall (fun c => 0 < pages c) (nodes vl) ->
  0 < npages < 0x100000 -> 0 < min_addr <= 0xFFFFF000 -> is_u32 max_addr ->
  vregion_alloc true vl npages min_addr max_addr fl id = (a, vl') -> a <> 0 ->
  vregion_free vl' a = (npages, vl).
Proof.
  intros Hwf Hpos Hnp Hmin Hmax E Ha.
  destruct (vregion_alloc_place _ _ _ _ _ _ _ _ _ Hwf Hnp Hmin Hmax E)
    as [[? _]|(_ & _ & _ & pre & post & Hsp & -> & Hwf')]; [done|].
  set (n := mk_vregion a npages fl id 0) in *. rewrite Hsp in Hpos.
  apply Forall_app in Hpos as [Hpos _].
  pose proof (wf_ordered _ Hwf') as Hso. cbn [nodes link_between] in Hso.
  apply sorted_split in Hso as (_ & _ & Hx).
  unfold vregion_free. cbn [nodes link_between]. change a with (base n).
  rewrite find_exact_at.
  2: { rewrite Forall_forall in *. intros c Hc. specialize (Hx c Hc). specialize (Hpos c Hc).
       inversion_clear Hx. unfold rend, PAGE_SIZE in *. lia. }
  f_equal. unfold unlink_node, link_between. cbn [nodes count total_pages device_pages].
  destruct Hwf as [_ _ Hc Ht Hd]. destruct vl as [l c t d]. cbn in *. subst l.
  rewrite !u32_sub_l, !Z.add_simpl_r. rewrite Hc, Ht, !u32_idem.
  f_equal. change (is_device n) with (negb (Z.land fl VREG_DEVICE =? 0)).
  destruct (negb _); [|done]. rewrite u32_sub_l, Z.add_simpl_r. by rewrite Hd, u32_idem.
Qed.

Lemma vregion_alloc_free_roundtrip_witness :
  vregion_free (snd (vregion_alloc true sample 2 0x400001 0x500000 3 7)) 0x404000
  = (2, sample).
Proof.
  apply (vregion_alloc_free_roundtrip sample 2 0x400001 0x500000 3 7).
  - exact wf_sample.
  - repeat constructor; lia.
  - lia.
  - lia.
  - unfold is_u32; lia.
  - vm_compute. reflexivity.
  - lia.
Defined.

(** The guard [end < base] of [vregion_insert] does not see a page count whose
    product with the page size already wrapped: 2^20 + 1 pages are accepted as one
    page of address space, and the node is not a region of the 32-bit space. *)
Remark vregion_insert_wrap_hole :
  exists n vl', vregion_insert true vregion_init 0x1000 0x100001 3 = (Some n, vl') /\
    pages n = 0x100001 /\ ~ wf_region n.
Proof.
  eexists _, _. split; [vm_compute; reflexivity|]. split; [done|].
  unfold wf_region, PAGE_SIZE; cbn. lia.
Qed.
