(* ===== verification/HandleTable.v ===== *)
(** * Handle tables and reference counts (kernel/krt/handle_table.c, refcount.h)

    A table of [capacity] slots (slot 0 reserved) with a per-slot generation and
    one of three reuse policies.  Objects are pointers ([Z], 0 = NULL).  Each
    operation runs under the table's spinlock, so it is one atomic function here.
    The abstract view is [pool]: the free ids in the order the policy will hand
    them out; the three policies refine it. *)

From S2P Require Import Prelude.

Inductive ht_reuse_t := HT_REUSE_LIFO | HT_REUSE_FIFO | HT_REUSE_MONOTONIC.

#[export] Instance ht_reuse_eq_dec : EqDecision ht_reuse_t.
Proof. solve_decision. Defined.

Record handle_table_t := mk_table {
  slots : list Z;
  generation : list Z;
  freelist : list Z;
  free_head : Z;
  free_tail : Z;
  free_count : Z;
  next_scan : Z;
  capacity : Z;
  reuse : ht_reuse_t
}.

Record handle_ref_t := mk_ref { ref_id : Z; ref_gen : Z }.

#[export] Instance handle_ref_eq_dec : EqDecision handle_ref_t.
Proof. solve_decision. Defined.

Definition in_range (t : handle_table_t) (id : Z) : bool :=
  (0 <? id) && (id <? capacity t).

(** [kcalloc] of the three arrays succeeds ([mem]) or the table is destroyed. *)
Definition handle_table_destroy (t : handle_table_t) : handle_table_t :=
  mk_table [] [] [] 0 0 0 (next_scan t) 0 (reuse t).

Definition initial_freelist (cap : Z) (r : ht_reuse_t) : list Z :=
  match r with
  | HT_REUSE_FIFO => seqZ 1 (cap - 1) ++ [0]
  | HT_REUSE_LIFO => reverse (seqZ 1 (cap - 1)) ++ [0]
  | HT_REUSE_MONOTONIC => replicate (Z.to_nat cap) 0
  end.

Definition handle_table_init (mem : bool) (cap : Z) (r : ht_reuse_t)
    : bool * handle_table_t :=
  let zeros := replicate (Z.to_nat cap) 0 in
  if mem then
    (true, mk_table zeros zeros (initial_freelist cap r) 0 (cap ⊟ 1) (cap ⊟ 1) 1 cap r)
  else (false, handle_table_destroy (mk_table [] [] [] 0 0 0 0 0 r)).

(** ** The policies *)

Definition set_lists (t : handle_table_t) (s g f : list Z) : handle_table_t :=
  mk_table s g f (free_head t) (free_tail t) (free_count t) (next_scan t)
    (capacity t) (reuse t).

Definition id_take_fifo (t : handle_table_t) : option (Z * handle_table_t) :=
  id ← geti (freelist t) (free_head t);
  Some (id, mk_table (slots t) (generation t) (freelist t)
              ((free_head t ⊞ 1) mod capacity t) (free_tail t) (free_count t)
              (next_scan t) (capacity t) (reuse t)).

Definition id_take_lifo (t : handle_table_t) : option (Z * handle_table_t) :=
  id ← geti (freelist t) (free_count t ⊟ 1); Some (id, t).

(** The cursor after [id]. *)
Definition next_id (cap id : Z) : Z := if cap <=? id ⊞ 1 then 1 else id ⊞ 1.

(** [for (n = 1; n < capacity; n++)], [k] turns left: id found and new cursor. *)
Fixpoint scan_free (k : nat) (sl : list Z) (cap id : Z) : option (option (Z * Z)) :=
  match k with
  | O => Some None
  | S k' =>
      let id := if id =? 0 then 1 else id in
      s ← geti sl id;
      if s =? 0 then Some (Some (id, next_id cap id))
      else scan_free k' sl cap (next_id cap id)
  end.

Definition id_take_monotonic (t : handle_table_t) : option (Z * handle_table_t) :=
  r ← scan_free (Z.to_nat (capacity t - 1)) (slots t) (capacity t) (next_scan t);
  match r with
  | None => Some (0, t)
  | Some (id, cursor) =>
      Some (id, mk_table (slots t) (generation t) (freelist t) (free_head t)
                  (free_tail t) (free_count t) cursor (capacity t) (reuse t))
  end.

Definition id_return_fifo (t : handle_table_t) (id : Z) : option handle_table_t :=
  f ← seti (freelist t) (free_tail t) id;
  Some (mk_table (slots t) (generation t) f (free_head t)
          ((free_tail t ⊞ 1) mod capacity t) (free_count t) (next_scan t)
          (capacity t) (reuse t)).

Definition id_return_lifo (t : handle_table_t) (id : Z) : option handle_table_t :=
  f ← seti (freelist t) (free_count t) id;
  Some (set_lists t (slots t) (generation t) f).

Definition slot_publish (t : handle_table_t) (id obj : Z) : option handle_table_t :=
  s ← seti (slots t) id obj;
  g ← geti (generation t) id;
  g' ← seti (generation t) id (g ⊞ 1);
  Some (set_lists t s g' (freelist t)).

Definition set_free_count (t : handle_table_t) (n : Z) : handle_table_t :=
  mk_table (slots t) (generation t) (freelist t) (free_head t) (free_tail t) n
    (next_scan t) (capacity t) (reuse t).

(** ** The operations *)

Definition handle_table_insert (t : handle_table_t) (obj : Z)
    : option (handle_ref_t * handle_table_t) :=
  if free_count t =? 0 then Some (mk_ref 0 0, t)
  else
    '(id, t1) ← match reuse t with
                | HT_REUSE_MONOTONIC => id_take_monotonic t
                | HT_REUSE_FIFO => id_take_fifo t
                | HT_REUSE_LIFO => id_take_lifo t
                end;
    let t2 := set_free_count t1 (free_count t1 ⊟ 1) in
    t3 ← slot_publish t2 id obj;
    g ← geti (generation t3) id;
    Some (mk_ref id g, t3).

Definition handle_table_remove (t : handle_table_t) (id : Z)
    : option (Z * handle_table_t) :=
  if negb (in_range t id) then Some (0, t)
  else
    obj ← geti (slots t) id;
    if obj =? 0 then Some (0, t)
    else
      s ← seti (slots t) id 0;
      let t1 := set_lists t s (generation t) (freelist t) in
      t2 ← match reuse t1 with
           | HT_REUSE_FIFO => id_return_fifo t1 id
           | HT_REUSE_LIFO => id_return_lifo t1 id
           | HT_REUSE_MONOTONIC => Some t1
           end;
      Some (obj, set_free_count t2 (free_count t2 ⊞ 1)).

Definition handle_table_get (t : handle_table_t) (id : Z) : option Z :=
  if in_range t id then geti (slots t) id else Some 0.

Definition handle_table_get_checked (t : handle_table_t) (r : handle_ref_t) : option Z :=
  if in_range t (ref_id r) then
    g ← geti (generation t) (ref_id r);
    if g =? ref_gen r then geti (slots t) (ref_id r) else Some 0
  else Some 0.

Definition handle_table_generation (t : handle_table_t) (id : Z) : option Z :=
  if in_range t id then geti (generation t) id else Some 0.

(** ** The pool of free ids *)

(** The [capacity - 1] ids in the order a cursor at [s] meets them. *)
Definition cyc (cap s : Z) : list Z := seqZ s (cap - s) ++ seqZ 1 (s - 1).

Definition is_free (sl : list Z) (id : Z) : Prop := geti sl id = Some 0.

#[export] Instance is_free_dec sl id : Decision (is_free sl id).
Proof. unfold is_free. apply _. Defined.

(** [n] ring cells from [h], wrapping at the length of the ring. *)
Fixpoint ring (n : nat) (f : list Z) (cap h : Z) : list Z :=
  match n with
  | O => []
  | S n' => default 0 (geti f h) :: ring n' f cap ((h + 1) mod cap)
  end.

Definition pool (t : handle_table_t) : list Z :=
  match reuse t with
  | HT_REUSE_LIFO => reverse (take (Z.to_nat (free_count t)) (freelist t))
  | HT_REUSE_FIFO => ring (Z.to_nat (free_count t)) (freelist t) (capacity t) (free_head t)
  | HT_REUSE_MONOTONIC => filter (is_free (slots t)) (cyc (capacity t) (next_scan t))
  end.

Record wf_table (t : handle_table_t) : Prop := {
  wf_cap : 2 <= capacity t < 0x100000000;
  wf_slots : length (slots t) = Z.to_nat (capacity t);
  wf_gens : length (generation t) = Z.to_nat (capacity t);
  wf_flen : length (freelist t) = Z.to_nat (capacity t);
  wf_count : free_count t = Z.of_nat (length (pool t));
  wf_nodup : NoDup (pool t);
  wf_pool : forall id, id ∈ pool t <-> 1 <= id < capacity t /\ is_free (slots t) id;
  wf_head : 0 <= free_head t < capacity t;
  wf_tail : reuse t = HT_REUSE_FIFO ->
            free_tail t = (free_head t + free_count t) mod capacity t;
  wf_scan : 1 <= next_scan t < capacity t
}.

(** ** Pool lemmas *)

Lemma geti_lookup {A} (l : list A) (n : nat) : geti l (Z.of_nat n) = l !! n.
Proof. unfold geti. case_if; [lia|]. by rewrite Nat2Z.id. Qed.

Lemma free_count_lt t : wf_table t -> 0 <= free_count t < capacity t.
Proof.
  intros H. rewrite (wf_count t H). split; [lia|].
  assert (length (pool t) <= length (seqZ 1 (capacity t - 1)))%nat as Hle.
  { apply submseteq_length, NoDup_submseteq; [apply H|].
    intros id Hid%(wf_pool t H). apply elem_of_seqZ. lia. }
  rewrite length_seqZ in Hle. pose proof (wf_cap t H). lia.
Qed.

Lemma cyc_next cap s : 2 <= cap < 0x100000000 -> 1 <= s < cap ->
  exists l, cyc cap s = s :: l /\ cyc cap (next_id cap s) = l ++ [s].
Proof.
  intros Hc Hs. unfold cyc, next_id. rewrite u32_small by lia.
  exists (seqZ (s + 1) (cap - s - 1) ++ seqZ 1 (s - 1)). split.
  - rewrite (seqZ_cons s) by lia. cbn. unfold Z.succ, Z.pred.
    by replace (cap - s + -1) with (cap - s - 1) by lia.
  - rewrite <- app_assoc.
    assert (seqZ 1 (s - 1) ++ [s] = seqZ 1 s) as ->.
    { replace s with (s - 1 + 1) at 3 by lia. rewrite seqZ_app by lia.
      by replace (1 + (s - 1)) with s by lia. }
    case_if.
    + rewrite (seqZ_nil _ (cap - s - 1)) by lia. cbn. rewrite app_nil_r. f_equal. lia.
    + replace (cap - (s + 1)) with (cap - s - 1) by lia. f_equal. f_equal. lia.
Qed.

Lemma next_id_range cap s : 2 <= cap < 0x100000000 -> 1 <= s < cap ->
  1 <= next_id cap s < cap.
Proof. intros. unfold next_id. rewrite u32_small by lia. case_if; lia. Qed.

(** The cursor scan finds the head of the cyclic pool. *)
Lemma scan_free_spec k sl cap s :
  2 <= cap < 0x100000000 -> length sl = Z.to_nat cap -> 1 <= s < cap ->
  (exists id, id ∈ take k (cyc cap s) /\ is_free sl id) ->
  exists id rest, filter (is_free sl) (cyc cap s) = id :: rest /\
    scan_free k sl cap s = Some (Some (id, next_id cap id)) /\ 1 <= id < cap /\
    filter (fun x => is_free sl x /\ x <> id) (cyc cap (next_id cap id)) = rest.
Proof.
  intros Hc Hl. revert s. induction k as [|k IH]; intros s Hs (x & Hx & Hfx).
  { by apply not_elem_of_nil in Hx. }
  destruct (cyc_next cap s Hc Hs) as (l & Hcy & Hcn).
  cbn [scan_free]. destruct (Z.eqb_spec s 0); [lia|].
  destruct (geti_in_range sl s) as [v Hv]; [lia|]. rewrite Hv. cbn [mbind option_bind].
  destruct (Z.eqb_spec v 0) as [->|Hne].
  - exists s, (filter (is_free sl) l). rewrite Hcy, Hcn, filter_cons.
    rewrite decide_True by done. split_and!; try done; try lia.
    rewrite filter_app, filter_cons, filter_nil, decide_False, app_nil_r by tauto.
    assert (s ∉ l) as Hsl.
    { assert (NoDup (cyc cap s)) as Hnd.
      { unfold cyc. apply NoDup_app. split_and!; try apply NoDup_seqZ.
        intros y [??]%elem_of_seqZ [??]%elem_of_seqZ. lia. }
      rewrite Hcy in Hnd. by apply NoDup_cons in Hnd as [? _]. }
    clear -Hsl. induction l as [|y l IHl]; [done|].
    apply not_elem_of_cons in Hsl as [Hys Hsl]. rewrite !filter_cons, IHl by done.
    destruct (decide (is_free sl y)).
    + rewrite decide_True by (split; done || congruence). done.
    + by rewrite decide_False by tauto.
  - rewrite Hcy, filter_cons, decide_False by (unfold is_free; congruence).
    destruct (IH (next_id cap s)) as (id & rest & Hf & Hsc & Hid & Hr).
    { by apply next_id_range. }
    { rewrite Hcy in Hx. cbn in Hx. apply elem_of_cons in Hx as [->|Hx].
      { unfold is_free in Hfx. congruence. }
      exists x. split; [|done]. rewrite Hcn. rewrite take_app. apply elem_of_app. by left. }
    exists id, rest. rewrite Hcn, filter_app, filter_cons, filter_nil, decide_False in Hf
      by (unfold is_free; congruence).
    rewrite app_nil_r in Hf. done.
Qed.

Lemma ring_cons n f cap h id :
  geti f h = Some id -> ring (S n) f cap h = id :: ring n f cap ((h + 1) mod cap).
Proof. intros Hg. cbn. by rewrite Hg. Qed.

Lemma ring_snoc n f cap h : 0 < cap -> 0 <= h < cap ->
  ring (S n) f cap h =
  ring n f cap h ++ [default 0 (geti f ((h + Z.of_nat n) mod cap))].
Proof.
  intros Hc. revert h. induction n as [|n IH]; intros h Hh.
  { cbn. by rewrite Z.add_0_r, Z.mod_small by lia. }
  change (ring (S (S n)) f cap h)
    with (default 0 (geti f h) :: ring (S n) f cap ((h + 1) mod cap)).
  rewrite IH by (apply Z.mod_pos_bound; lia). cbn [ring app]. do 5 f_equal.
  rewrite Zplus_mod_idemp_l. f_equal. lia.
Qed.

Lemma mod_offset_ne h i n c : 0 <= i < n -> n < c -> (h + i) mod c <> (h + n) mod c.
Proof.
  intros Hi Hn He. assert ((n - i) mod c = 0) as H0.
  { replace (n - i) with ((h + n) - (h + i)) by lia.
    by rewrite Zminus_mod, He, Z.sub_diag, Z.mod_0_l by lia. }
  rewrite Z.mod_small in H0 by lia. lia.
Qed.

Lemma ring_seti n f f' cap h j x : 0 < cap -> 0 <= h < cap -> seti f j x = Some f' ->
  (forall i, 0 <= i < Z.of_nat n -> (h + i) mod cap <> j) ->
  ring n f' cap h = ring n f cap h.
Proof.
  intros Hc Hh Hs. revert h Hh. induction n as [|n IH]; intros h Hh Hne; [done|].
  cbn [ring]. rewrite (geti_seti_ne _ _ _ _ _ Hs).
  2: { specialize (Hne 0 ltac:(lia)). rewrite Z.add_0_r, Z.mod_small in Hne; lia. }
  f_equal. apply IH; [apply Z.mod_pos_bound; lia|].
  intros i Hi. rewrite Zplus_mod_idemp_l. replace (h + 1 + i) with (h + (1 + i)) by lia.
  apply Hne. lia.
Qed.

Lemma is_free_seti sl sl' id obj x : seti sl id obj = Some sl' -> obj <> 0 ->
  is_free sl' x <-> is_free sl x /\ x <> id.
Proof.
  intros Hs Ho. unfold is_free. destruct (Z.eq_dec x id) as [->|Hne].
  - rewrite (geti_seti_eq _ _ _ _ Hs). split; [congruence|tauto].
  - rewrite (geti_seti_ne _ _ _ _ _ Hs) by done. tauto.
Qed.

Lemma is_free_clear sl sl' id x : seti sl id 0 = Some sl' ->
  is_free sl' x <-> is_free sl x \/ x = id.
Proof.
  intros Hs. unfold is_free. destruct (Z.eq_dec x id) as [->|Hne].
  - rewrite (geti_seti_eq _ _ _ _ Hs). tauto.
  - rewrite (geti_seti_ne _ _ _ _ _ Hs) by done. tauto.
Qed.

(** ** Insertion *)

(** What an insertion keeps, up to the slot, its generation and the pool. *)
Record published (t t' : handle_table_t) (id obj : Z) : Prop := {
  pub_slots : seti (slots t) id obj = Some (slots t');
  pub_gen : exists g, geti (generation t) id = Some g /\
              seti (generation t) id (g ⊞ 1) = Some (generation t');
  pub_cap : capacity t' = capacity t;
  pub_reuse : reuse t' = reuse t
}.

(** The part common to the policies: a policy that took [id] and left [t1]. *)
Lemma publish_spec t t1 id obj :
  wf_table t -> 1 <= id < capacity t -> 0 < free_count t ->
  slots t1 = slots t -> generation t1 = generation t -> capacity t1 = capacity t ->
  reuse t1 = reuse t -> free_count t1 = free_count t ->
  exists t3 g, slot_publish (set_free_count t1 (free_count t1 ⊟ 1)) id obj = Some t3 /\
    geti (generation t3) id = Some g /\ published t t3 id obj /\
    free_count t3 = free_count t - 1 /\ freelist t3 = freelist t1 /\
    free_head t3 = free_head t1 /\ free_tail t3 = free_tail t1 /\
    next_scan t3 = next_scan t1.
Proof.
  intros Hwf Hid Hfc Hs Hg Hc Hr Hf. unfold slot_publish. cbn.
  pose proof (wf_slots t Hwf). pose proof (wf_gens t Hwf). pose proof (wf_cap t Hwf).
  pose proof (free_count_lt t Hwf).
  rewrite Hs, Hg, Hf. rewrite seti_in_range by lia. cbn [mbind option_bind].
  destruct (geti_in_range (generation t) id) as [g Hgi]; [lia|]. rewrite Hgi.
  cbn [mbind option_bind]. rewrite seti_in_range by lia. cbn [mbind option_bind].
  eexists _, (g ⊞ 1). split; [done|]. cbn. rewrite (u32_small (free_count t - 1)) by lia. split_and!; try done.
  - eapply geti_seti_eq. apply seti_in_range. lia.
  - constructor; cbn; try done; [apply seti_in_range; lia|].
    exists g. split; [done|]. apply seti_in_range. lia.
Qed.

Lemma wf_after_insert t t3 id obj rest :
  wf_table t -> published t t3 id obj -> obj <> 0 -> 1 <= id < capacity t ->
  pool t = id :: rest -> pool t3 = rest -> free_count t3 = free_count t - 1 ->
  length (freelist t3) = length (freelist t) ->
  0 <= free_head t3 < capacity t ->
  (reuse t = HT_REUSE_FIFO ->
   free_tail t3 = (free_head t3 + free_count t3) mod capacity t) ->
  1 <= next_scan t3 < capacity t -> wf_table t3.
Proof.
  intros Hwf [Hs (g & Hg & Hg') Hc Hr] Hobj Hid Hp Hp3 Hf Hfl Hh Ht Hn.
  pose proof (wf_nodup t Hwf) as Hnd. rewrite Hp in Hnd. apply NoDup_cons in Hnd as [Hni Hnd].
  constructor; rewrite ?Hc, ?Hr, ?Hp3; try done.
  - apply Hwf.
  - rewrite (length_seti _ _ _ _ Hs). apply Hwf.
  - rewrite (length_seti _ _ _ _ Hg'). apply Hwf.
  - rewrite Hfl. apply Hwf.
  - rewrite Hf, (wf_count t Hwf), Hp. cbn. lia.
  - intros x. rewrite (is_free_seti _ _ _ _ _ Hs Hobj).
    pose proof (wf_pool t Hwf x) as Hx. rewrite Hp, elem_of_cons in Hx.
    split.
    + intros Hin. assert (x <> id) by congruence. tauto.
    + intros (? & ? & ?). destruct Hx as [_ Hx]. destruct Hx as [->|?]; done || tauto.
Qed.

Lemma take_spec t id rest : wf_table t -> pool t = id :: rest -> 0 < free_count t ->
  exists t1,
    match reuse t with
    | HT_REUSE_MONOTONIC => id_take_monotonic t
    | HT_REUSE_FIFO => id_take_fifo t
    | HT_REUSE_LIFO => id_take_lifo t
    end = Some (id, t1) /\
    slots t1 = slots t /\ generation t1 = generation t /\ capacity t1 = capacity t /\
    reuse t1 = reuse t /\ free_count t1 = free_count t /\ freelist t1 = freelist t /\
    free_tail t1 = free_tail t /\ 0 <= free_head t1 < capacity t /\
    1 <= next_scan t1 < capacity t /\
    match reuse t with
    | HT_REUSE_LIFO => t1 = t
    | HT_REUSE_FIFO => free_head t1 = (free_head t + 1) mod capacity t
    | HT_REUSE_MONOTONIC =>
        filter (fun x => is_free (slots t) x /\ x <> id) (cyc (capacity t) (next_scan t1))
        = rest
    end.
Proof.
  intros Hwf Hp Hfc. pose proof (wf_cap t Hwf). pose proof (free_count_lt t Hwf).
  pose proof (wf_flen t Hwf). pose proof (wf_head t Hwf). pose proof (wf_scan t Hwf).
  destruct (reuse t) eqn:Hr.
  - unfold id_take_lifo. rewrite u32_small by lia. unfold pool in Hp. rewrite Hr in Hp.
    destruct (geti_in_range (freelist t) (free_count t - 1)) as [v Hv]; [lia|].
    replace (Z.to_nat (free_count t)) with (S (Z.to_nat (free_count t - 1))) in Hp by lia.
    assert (freelist t !! Z.to_nat (free_count t - 1) = Some v) as Hv'.
    { rewrite <- geti_lookup, Z2Nat.id by lia. done. }
    rewrite (take_S_r _ _ _ Hv'), reverse_snoc in Hp. injection Hp as -> Hp.
    rewrite Hv. cbn. eexists. split; [done|]. split_and!; done || lia.
  - unfold id_take_fifo. unfold pool in Hp. rewrite Hr in Hp.
    destruct (geti_in_range (freelist t) (free_head t)) as [v Hv]; [lia|].
    replace (Z.to_nat (free_count t)) with (S (Z.to_nat (free_count t - 1))) in Hp by lia.
    rewrite (ring_cons _ _ _ _ _ Hv) in Hp. injection Hp as -> Hp.
    rewrite Hv. cbn. rewrite u32_small by lia. eexists. split; [done|]. cbn.
    pose proof (Z.mod_pos_bound (free_head t + 1) (capacity t) ltac:(lia)).
    split_and!; done || lia.
  - unfold id_take_monotonic. unfold pool in Hp. rewrite Hr in Hp.
    destruct (scan_free_spec (Z.to_nat (capacity t - 1)) (slots t) (capacity t) (next_scan t))
      as (id' & rest' & Hf & Hsc & Hid & Hrest); [done|apply Hwf|done| |].
    { exists id. assert (id ∈ pool t) as Hin.
      { unfold pool. rewrite Hr, Hp. by left. }
      unfold pool in Hin. rewrite Hr in Hin. apply list_elem_of_filter in Hin as [? Hin].
      split; [|done]. rewrite take_ge; [done|].
      unfold cyc. rewrite length_app, !length_seqZ. lia. }
    rewrite Hf in Hp. injection Hp as -> ->. rewrite Hsc. cbn.
    eexists. split; [done|]. cbn.
    pose proof (next_id_range (capacity t) id ltac:(done) ltac:(lia)).
    split_and!; done || lia.
Qed.

Lemma insert_spec t obj : wf_table t -> obj <> 0 ->
  match pool t with
  | [] => handle_table_insert t obj = Some (mk_ref 0 0, t)
  | id :: rest => exists g t', 
      handle_table_insert t obj = Some (mk_ref id g, t') /\ wf_table t' /\
      published t t' id obj /\ geti (generation t') id = Some g /\ pool t' = rest
  end.
Proof.
  intros Hwf Hobj. destruct (pool t) as [|id rest] eqn:Hp; unfold handle_table_insert.
  { pose proof (wf_count t Hwf) as Hc. rewrite Hp in Hc. by rewrite Hc. }
  pose proof (wf_count t Hwf) as Hc. rewrite Hp in Hc. cbn in Hc.
  destruct (Z.eqb_spec (free_count t) 0); [lia|].
  assert (1 <= id < capacity t) as Hid.
  { apply (wf_pool t Hwf). rewrite Hp. by left. }
  pose proof (wf_cap t Hwf).
  destruct (take_spec t id rest Hwf Hp ltac:(lia))
    as (t1 & -> & Hs & Hg & Hcap & Hr & Hf & Hfl & Htl & Hh & Hn & Hpol).
  cbn [mbind option_bind].
  destruct (publish_spec t t1 id obj Hwf Hid ltac:(lia) Hs Hg Hcap Hr Hf)
    as (t3 & g & -> & Hg3 & Hpub & Hf3 & Hfl3 & Hh3 & Htl3 & Hn3).
  cbn [mbind option_bind]. rewrite Hg3. cbn [mbind option_bind].
  exists g, t3. split; [done|].
  assert (pool t3 = rest) as Hp3.
  { destruct Hpub as [Hsl _ Hc3 Hr3]. unfold pool in Hp |- *.
    rewrite Hr3, Hc3, Hf3, Hfl3, Hfl, Hh3, Hn3. destruct (reuse t) eqn:Er.
    - subst t1. destruct (geti_in_range (freelist t) (free_count t - 1)) as [v Hv];
        [rewrite (wf_flen t Hwf); pose proof (free_count_lt t Hwf); lia|].
      replace (Z.to_nat (free_count t)) with (S (Z.to_nat (free_count t - 1))) in Hp by lia.
      assert (freelist t !! Z.to_nat (free_count t - 1) = Some v) as Hv'.
      { rewrite <- geti_lookup, Z2Nat.id by lia. done. }
      rewrite (take_S_r _ _ _ Hv'), reverse_snoc in Hp. by injection Hp as -> Hp.
    - rewrite Hpol.
      replace (Z.to_nat (free_count t)) with (S (Z.to_nat (free_count t - 1))) in Hp by lia.
      cbn [ring] in Hp. by injection Hp as _ Hp.
    - rewrite <- Hpol. apply list_filter_iff. intros x. by apply is_free_seti with (1 := Hsl). }
  split_and!; try done.
  apply (wf_after_insert t t3 id obj rest); rewrite ?Hfl3, ?Hn3, ?Hh3; try done; [by rewrite Hfl|].
  intros Er. rewrite Er in Hpol. rewrite Htl3, Htl, (wf_tail t Hwf Er), Hpol, Hf3.
  rewrite Zplus_mod_idemp_l. f_equal. lia.
Qed.

(** ** Removal *)

(** Where each policy puts a returned id. *)
Definition pool_returns (t t' : handle_table_t) (id : Z) : Prop :=
  match reuse t with
  | HT_REUSE_LIFO => pool t' = id :: pool t
  | HT_REUSE_FIFO => pool t' = pool t ++ [id]
  | HT_REUSE_MONOTONIC =>
      pool t' = filter (fun x => is_free (slots t) x \/ x = id)
                  (cyc (capacity t) (next_scan t))
  end.

Lemma filter_or_permutation (P : Z -> Prop) `{!forall x, Decision (P x)} id (l : list Z) :
  NoDup l -> id ∈ l -> ~ P id ->
  filter (fun x => P x \/ x = id) l ≡ₚ id :: filter P l.
Proof.
  intros Hnd Hin Hp. apply NoDup_Permutation.
  - by apply NoDup_filter.
  - constructor; [|by apply NoDup_filter]. rewrite list_elem_of_filter. tauto.
  - intros x. rewrite elem_of_cons, !list_elem_of_filter. split.
    + intros [[?| ->] ?]; tauto.
    + intros [->|[? ?]]; tauto.
Qed.

Lemma cyc_elem cap s x : 1 <= s < cap -> x ∈ cyc cap s <-> 1 <= x < cap.
Proof. intros Hs. unfold cyc. rewrite elem_of_app, !elem_of_seqZ. lia. Qed.

Lemma cyc_nodup cap s : 1 <= s < cap -> NoDup (cyc cap s).
Proof.
  intros Hs. unfold cyc. apply NoDup_app. split_and!; try apply NoDup_seqZ.
  intros x [? ?]%elem_of_seqZ [? ?]%elem_of_seqZ. lia.
Qed.

Lemma pool_returns_perm t t' id : wf_table t -> 1 <= id < capacity t ->
  ~ is_free (slots t) id -> pool_returns t t' id -> pool t' ≡ₚ id :: pool t.
Proof.
  intros Hwf Hid Hf Hp. unfold pool_returns in Hp. destruct (reuse t) eqn:Er.
  - by rewrite Hp.
  - rewrite Hp. symmetry. apply Permutation_cons_append.
  - rewrite Hp. unfold pool. rewrite Er.
    pose proof (wf_scan t Hwf). apply filter_or_permutation; [by apply cyc_nodup| |done].
    by apply cyc_elem.
Qed.

Lemma return_spec t s id : wf_table t -> 1 <= id < capacity t ->
  free_count t < capacity t - 1 ->
  seti (slots t) id 0 = Some s ->
  exists t2,
    match reuse t with
    | HT_REUSE_FIFO => id_return_fifo (set_lists t s (generation t) (freelist t)) id
    | HT_REUSE_LIFO => id_return_lifo (set_lists t s (generation t) (freelist t)) id
    | HT_REUSE_MONOTONIC => Some (set_lists t s (generation t) (freelist t))
    end = Some t2 /\
    slots t2 = s /\ generation t2 = generation t /\ capacity t2 = capacity t /\
    reuse t2 = reuse t /\ free_count t2 = free_count t /\
    length (freelist t2) = length (freelist t) /\ free_head t2 = free_head t /\
    next_scan t2 = next_scan t /\
    (reuse t = HT_REUSE_FIFO ->
     free_tail t2 = (free_head t + (free_count t + 1)) mod capacity t) /\
    pool_returns t (set_free_count t2 (free_count t + 1)) id.
Proof.
  intros Hwf Hid Hfc Hs. pose proof (wf_cap t Hwf). pose proof (wf_flen t Hwf).
  pose proof (free_count_lt t Hwf). pose proof (wf_head t Hwf).
  unfold pool_returns. destruct (reuse t) eqn:Er.
  - unfold id_return_lifo. cbn. rewrite seti_in_range by lia. cbn.
    eexists. split; [done|]. cbn. rewrite length_insert, Er. split_and!; try done.
    unfold pool. cbn. rewrite Er.
    replace (Z.to_nat (free_count t + 1)) with (S (Z.to_nat (free_count t))) by lia.
    rewrite (take_S_r _ _ id) by (apply list_lookup_insert_eq; lia).
    rewrite take_insert_ge by lia. by rewrite reverse_snoc.
  - unfold id_return_fifo. cbn. rewrite (wf_tail t Hwf Er).
    pose proof (Z.mod_pos_bound (free_head t + free_count t) (capacity t) ltac:(lia)).
    rewrite seti_in_range by lia. cbn. eexists. split; [done|]. cbn.
    rewrite length_insert, Er. rewrite u32_small by lia.
    split_and!; try done.
    { intros _. rewrite Zplus_mod_idemp_l. f_equal. lia. }
    unfold pool. cbn. rewrite Er.
    replace (Z.to_nat (free_count t + 1)) with (S (Z.to_nat (free_count t))) by lia.
    set (j := (free_head t + free_count t) mod capacity t) in *.
    assert (seti (freelist t) j id = Some (<[Z.to_nat j := id]> (freelist t))) as Hse
      by (apply seti_in_range; lia).
    rewrite ring_snoc by lia. f_equal.
    + eapply ring_seti; [lia|lia|exact Hse|].
      intros i Hi. unfold j. apply mod_offset_ne; lia.
    + rewrite Z2Nat.id by lia. fold j. by rewrite (geti_seti_eq _ _ _ _ Hse).
  - eexists. split; [done|]. cbn. rewrite Er. split_and!; try done.
    unfold pool. cbn. rewrite Er. apply list_filter_iff. intros x.
    by apply is_free_clear with (1 := Hs).
Qed.

Lemma remove_spec t id obj : wf_table t -> 1 <= id < capacity t ->
  geti (slots t) id = Some obj -> obj <> 0 ->
  exists t', handle_table_remove t id = Some (obj, t') /\ wf_table t' /\
    seti (slots t) id 0 = Some (slots t') /\ generation t' = generation t /\
    capacity t' = capacity t /\ reuse t' = reuse t /\ pool_returns t t' id.
Proof.
  intros Hwf Hid Hg Hobj. pose proof (wf_cap t Hwf). pose proof (wf_slots t Hwf).
  unfold handle_table_remove, in_range.
  destruct (Z.ltb_spec 0 id), (Z.ltb_spec id (capacity t)); try lia. cbn [negb andb].
  rewrite Hg. cbn [mbind option_bind]. destruct (Z.eqb_spec obj 0); [done|].
  destruct (seti (slots t) id 0) as [s|] eqn:Hs; [|rewrite seti_in_range in Hs by lia; done].
  cbn [mbind option_bind].
  assert (~ is_free (slots t) id) as Hnf by (unfold is_free; congruence).
  assert (id ∉ pool t) as Hni by (rewrite (wf_pool t Hwf); tauto).
  assert (free_count t < capacity t - 1) as Hfc.
  { rewrite (wf_count t Hwf).
    assert (length (id :: pool t) <= length (seqZ 1 (capacity t - 1)))%nat as Hle.
    { apply submseteq_length, NoDup_submseteq; [constructor; [done|apply Hwf]|].
      intros x [->|[Hx _]%(wf_pool t Hwf)]%elem_of_cons; apply elem_of_seqZ; lia. }
    rewrite length_seqZ in Hle. cbn in Hle. lia. }
  destruct (return_spec t s id Hwf Hid Hfc Hs)
    as (t2 & Ht2 & Hsl & Hge & Hcap & Hr & Hf & Hfl & Hh & Hn & Htl & Hpr).
  cbn [reuse set_lists]. rewrite Ht2. cbn [mbind option_bind]. eexists. split; [done|].
  pose proof (free_count_lt t Hwf). rewrite Hf, u32_small by lia. cbn.
  rewrite Hsl, Hge, Hcap, Hr. split_and!; try done.
  pose proof (pool_returns_perm _ _ _ Hwf Hid Hnf Hpr) as Hperm.
  constructor; cbn; rewrite ?Hsl, ?Hge, ?Hcap, ?Hr, ?Hh, ?Hn, ?Hfl.
  - done.
  - by rewrite (length_seti _ _ _ _ Hs).
  - apply Hwf.
  - apply Hwf.
  - rewrite Hperm. cbn. rewrite (wf_count t Hwf). lia.
  - rewrite Hperm. constructor; [done|apply Hwf].
  - intros x. rewrite Hperm, elem_of_cons, (wf_pool t Hwf), (is_free_clear _ _ _ _ Hs).
    split; [intros [->|?]; tauto|]. intros [? [?|?]]; tauto.
  - exact (wf_head t Hwf).
  - done.
  - exact (wf_scan t Hwf).
Qed.

(** ** The initial table *)

Lemma ring_prefix l tl cap n h : 0 < cap -> Z.of_nat (length (l ++ tl)) <= cap ->
  0 <= h -> h + Z.of_nat n <= Z.of_nat (length l) ->
  (h + Z.of_nat n < cap) ->
  ring n (l ++ tl) cap h = take n (drop (Z.to_nat h) l).
Proof.
  intros Hc Hl. revert h. induction n as [|n IH]; intros h Hh Hn Hlt; [done|].
  destruct (lookup_lt_is_Some_2 l (Z.to_nat h)) as [x Hx]; [lia|].
  rewrite (ring_cons _ _ _ _ x).
  2: { unfold geti. case_if; [lia|]. by apply lookup_app_l_Some. }
  rewrite Z.mod_small by lia. rewrite IH by lia.
  rewrite (drop_S _ _ _ Hx). cbn. do 2 f_equal.
  by replace (Z.to_nat (h + 1)) with (S (Z.to_nat h)) by lia.
Qed.

Lemma zeros_free n id : 0 <= id < Z.of_nat n -> is_free (replicate n 0) id.
Proof.
  intros Hid. unfold is_free, geti. case_if; [lia|]. apply lookup_replicate_2. lia.
Qed.

Lemma init_pool cap r : 2 <= cap < 0x100000000 ->
  pool (snd (handle_table_init true cap r)) = seqZ 1 (cap - 1).
Proof.
  intros Hc. unfold pool. cbn. rewrite u32_small by lia. destruct r; cbn [initial_freelist].
  - rewrite take_app_length' by (rewrite length_reverse, length_seqZ; lia).
    apply reverse_involutive.
  - rewrite ring_prefix; rewrite ?length_app, ?length_seqZ; cbn; try lia.
    rewrite drop_0. apply take_ge. rewrite length_seqZ. lia.
  - unfold cyc. cbn. change (seqZ 1 (1 - 1)) with (@nil Z). rewrite app_nil_r.
    apply filter_all. intros id [? ?]%elem_of_seqZ. apply zeros_free. lia.
Qed.

Lemma init_wf cap r : 2 <= cap < 0x100000000 ->
  wf_table (snd (handle_table_init true cap r)).
Proof.
  intros Hc. pose proof (init_pool cap r Hc) as Hp.
  constructor; rewrite ?Hp; cbn; rewrite ?length_replicate; try done; try lia.
  - destruct r; cbn; rewrite ?length_app, ?length_reverse, ?length_seqZ, ?length_replicate;
      cbn; lia.
  - rewrite u32_small, length_seqZ by lia. lia.
  - apply NoDup_seqZ.
  - intros id. rewrite elem_of_seqZ. split; [|lia].
    intros ?. split; [lia|]. apply zeros_free. lia.
  - intros _. rewrite u32_small by lia. by rewrite Z.mod_small by lia.
Qed.

(** ** Histories *)

Inductive hop := HInsert (obj : Z) | HRemove (id : Z).

Definition run_hop (t : handle_table_t) (o : hop) : option handle_table_t :=
  match o with
  | HInsert obj => snd <$> handle_table_insert t obj
  | HRemove id => snd <$> handle_table_remove t id
  end.

Fixpoint run_hops (t : handle_table_t) (ops : list hop) : option handle_table_t :=
  match ops with
  | [] => Some t
  | o :: ops' => t' ← run_hop t o; run_hops t' ops'
  end.

Definition hop_ok (o : hop) : Prop :=
  match o with HInsert obj => obj <> 0 | HRemove _ => True end.

Definition is_insert (o : hop) : bool :=
  match o with HInsert _ => true | HRemove _ => false end.

(** Slot [id] has been taken [k] times since its generation was [g]; with
    [k = 0] it has stayed empty. *)
Definition aged (t : handle_table_t) (id g k : Z) : Prop :=
  geti (generation t) id = Some (u32 (g + k)) /\ (k = 0 -> is_free (slots t) id).

Lemma remove_noop t id : wf_table t ->
  (~ 1 <= id < capacity t \/ is_free (slots t) id) -> handle_table_remove t id = Some (0, t).
Proof.
  intros Hwf Hno. unfold handle_table_remove, in_range.
  destruct (Z.ltb_spec 0 id), (Z.ltb_spec id (capacity t)); cbn; try done.
  destruct Hno as [?|Hf]; [lia|]. by rewrite Hf.
Qed.

Lemma run_hop_aged t o id g k :
  wf_table t -> hop_ok o -> 1 <= id < capacity t -> 0 <= k -> aged t id g k ->
  exists t' k', run_hop t o = Some t' /\ wf_table t' /\ capacity t' = capacity t /\
    aged t' id g k' /\ k <= k' <= k + (if is_insert o then 1 else 0).
Proof.
  intros Hwf Hok Hid Hk [Hgen Hfree]. destruct o as [obj|rid]; cbn [run_hop is_insert].
  - pose proof (insert_spec t obj Hwf Hok) as Hi. destruct (pool t) as [|nid rest] eqn:Hp.
    { rewrite Hi. exists t, k. split_and!; try done; lia. }
    destruct Hi as (g' & t' & -> & Hwf' & [Hs (g0 & Hg0 & Hgs) Hc Hr] & Hg' & _).
    exists t'. destruct (Z.eq_dec nid id) as [->|Hne].
    + exists (k + 1). split_and!; try done; try lia. split; [|lia].
      rewrite (geti_seti_eq _ _ _ _ Hgs). rewrite Hgen in Hg0. injection Hg0 as <-.
      rewrite u32_add_l. do 2 f_equal. lia.
    + exists k. split_and!; try done; try lia. split.
      * by rewrite (geti_seti_ne _ _ _ _ _ Hgs).
      * intros H0. unfold is_free. rewrite (geti_seti_ne _ _ _ _ _ Hs) by done. by apply Hfree.
  - destruct (decide (1 <= rid < capacity t)) as [Hr|Hr].
    2: { rewrite remove_noop by tauto. exists t, k. split_and!; try done; lia. }
    destruct (decide (is_free (slots t) rid)) as [Hf|Hf].
    { rewrite remove_noop by tauto. exists t, k. split_and!; try done; lia. }
    destruct (geti_in_range (slots t) rid) as [obj Hobj].
    { rewrite (wf_slots t Hwf). lia. }
    assert (obj <> 0) by (unfold is_free in Hf; congruence).
    destruct (remove_spec t rid obj Hwf Hr Hobj ltac:(done))
      as (t' & -> & Hwf' & Hs & Hg & Hc & Hre & _).
    exists t', k. split_and!; try done; try lia. split; [by rewrite Hg|].
    intros H0. apply (is_free_clear _ _ _ _ Hs). left. auto.
Qed.

Definition inserts (ops : list hop) : Z :=
  Z.of_nat (length (List.filter is_insert ops)).

Lemma run_hops_aged ops t id g k :
  Forall hop_ok ops -> wf_table t -> 1 <= id < capacity t -> 0 <= k -> aged t id g k ->
  exists t' k', run_hops t ops = Some t' /\ wf_table t' /\ capacity t' = capacity t /\
    aged t' id g k' /\ k <= k' <= k + inserts ops.
Proof.
  intros Hok. revert t k. induction Hok as [|o ops Ho _ IH]; intros t k Hwf Hid Hk Ha.
  { exists t, k. unfold inserts. split_and!; try done; cbn; lia. }
  destruct (run_hop_aged t o id g k Hwf Ho Hid Hk Ha)
    as (t1 & k1 & Hr & Hwf1 & Hc1 & Ha1 & Hk1).
  destruct (IH t1 k1 Hwf1 ltac:(lia) ltac:(lia) Ha1) as (t2 & k2 & Hr2 & Hwf2 & Hc2 & Ha2 & Hk2).
  exists t2, k2. cbn [run_hops]. rewrite Hr. cbn [mbind option_bind].
  split_and!; try done; try lia.
  unfold inserts in *. cbn. destruct (is_insert o); cbn; lia.
Qed.

Lemma get_checked_aged t id g k :
  wf_table t -> 1 <= id < capacity t -> is_u32 g -> 0 <= k < 0x100000000 ->
  aged t id g k -> handle_table_get_checked t (mk_ref id g) = Some 0.
Proof.
  intros Hwf Hid Hg Hk [Hgen Hfree]. unfold handle_table_get_checked, in_range. cbn.
  destruct (Z.ltb_spec 0 id), (Z.ltb_spec id (capacity t)); try lia. cbn.
  rewrite Hgen. cbn. destruct (Z.eqb_spec (u32 (g + k)) g) as [He|]; [|done].
  apply Hfree. unfold is_u32, u32 in *. zlia.
Qed.

(** ** Properties *)


Definition sample_table : handle_table_t :=
  snd (handle_table_init true 4 HT_REUSE_FIFO).




(** [n] insertions in a row, collecting the ids handed out. *)
Fixpoint insert_all (t : handle_table_t) (objs : list Z)
    : option (list Z * handle_table_t) :=
  match objs with
  | [] => Some ([], t)
  | obj :: objs' =>
      '(r, t1) ← handle_table_insert t obj;
      '(ids, t2) ← insert_all t1 objs';
      Some (ref_id r :: ids, t2)
  end.

Lemma insert_all_spec objs t : wf_table t -> Forall (fun o => o <> 0) objs ->
  (length objs <= length (pool t))%nat ->
  exists t', insert_all t objs = Some (take (length objs) (pool t), t') /\ wf_table t' /\
    pool t' = drop (length objs) (pool t) /\ reuse t' = reuse t.
Proof.
  revert t. induction objs as [|obj objs IH]; intros t Hwf Ho Hl.
  { exists t. by rewrite drop_0. }
  inversion_clear Ho as [|?? Hobj Hrest].
  pose proof (insert_spec t obj Hwf Hobj) as Hi.
  destruct (pool t) as [|id rest] eqn:Hp; [cbn in Hl; lia|].
  destruct Hi as (g & t1 & He & Hwf1 & [_ _ _ Hr] & _ & Hp1).
  destruct (IH t1 Hwf1 Hrest) as (t2 & Ha & Hwf2 & Hp2 & Hr2).
  { rewrite Hp1. cbn in Hl. lia. }
  exists t2. cbn [insert_all]. rewrite He. cbn [mbind option_bind]. rewrite Ha.
  cbn. rewrite <- Hp1. split_and!; done || congruence.
Qed.

(** how soon a freed id comes back.  Under FIFO every id that was free at the
    removal is handed out first, and the freed id is exactly the next one.  Under
    MONOTONIC there is no such delay: when the slot under the cursor is in use, an
    object removed from it is replaced at once, the very next insertion returning
    the id just freed, however many other ids are free. *)
Theorem reuse_delay t id o t1 objs obj :
  wf_table t -> handle_table_remove t id = Some (o, t1) -> o <> 0 ->
  Forall (fun x => x <> 0) objs -> obj <> 0 ->
  match reuse t with
  | HT_REUSE_FIFO =>
      (length objs = length (pool t)) ->
      exists t2 t3 g, insert_all t1 objs = Some (pool t, t2) /\ (id ∉ pool t) /\
        handle_table_insert t2 obj = Some (mk_ref id g, t3)
  | HT_REUSE_LIFO => exists t2 g, handle_table_insert t1 obj = Some (mk_ref id g, t2)
  | HT_REUSE_MONOTONIC =>
      id = next_scan t -> exists t2 g, handle_table_insert t1 obj = Some (mk_ref id g, t2)
  end.
Proof.
  intros Hwf Hrem Ho Hobjs Hobj.
  assert (1 <= id < capacity t) as Hid.
  { destruct (decide (1 <= id < capacity t)); [done|].
    rewrite remove_noop in Hrem by tauto. congruence. }
  assert (~ is_free (slots t) id) as Hf.
  { intros Hf. rewrite remove_noop in Hrem by tauto. congruence. }
  destruct (geti_in_range (slots t) id) as [o' Ho'].
  { rewrite (wf_slots t Hwf). lia. }
  destruct (remove_spec t id o' Hwf Hid Ho') as (t1' & He & Hwf1 & _ & _ & _ & Hr & Hp).
  { unfold is_free in Hf. congruence. }
  rewrite Hrem in He. injection He as <- <-. unfold pool_returns in Hp.
  assert (forall t, wf_table t -> forall i rest, pool t = i :: rest ->
            exists t2 g, handle_table_insert t obj = Some (mk_ref i g, t2)) as Hhead.
  { intros u Hu i rest Hpu. pose proof (insert_spec u obj Hu Hobj) as Hi.
    rewrite Hpu in Hi. destruct Hi as (g & t2 & ? & _). by exists t2, g. }
  destruct (reuse t) eqn:Er.
  - by eapply Hhead.
  - intros Hlen. destruct (insert_all_spec objs t1 Hwf1 Hobjs) as (t2 & Ha & Hwf2 & Hp2 & _).
    { rewrite Hp, length_app. cbn. lia. }
    rewrite Hlen, Hp, take_app_length in Ha. rewrite Hlen, Hp, drop_app_length in Hp2.
    destruct (Hhead t2 Hwf2 id [] Hp2) as (t3 & g & ?).
    exists t2, t3, g. split_and!; try done. rewrite (wf_pool t Hwf). tauto.
  - intros ->. pose proof (wf_scan t Hwf). pose proof (wf_cap t Hwf).
    destruct (cyc_next (capacity t) (next_scan t)) as (l & Hl & _); [done|done|].
    rewrite Hl, filter_cons, decide_True in Hp by tauto. by eapply Hhead.
Qed.

(** A table with ids 1 and 5 free: the removed id 3 is reused before either. *)
Definition monotonic_table : handle_table_t :=
  mk_table [0; 0; 12; 13; 14; 0] [0; 1; 1; 1; 1; 1] [0; 0; 0; 0; 0; 0] 0 5 2 3 6
    HT_REUSE_MONOTONIC.

Lemma monotonic_table_wf : wf_table monotonic_table.
Proof.
  assert (pool monotonic_table = [5; 1]) as Hp by done.
  constructor; rewrite ?Hp; cbn; try done; try lia.
  - apply NoDup_cons; split; [|apply NoDup_singleton].
    intros Hin%list_elem_of_singleton. discriminate.
  - intros id. rewrite !elem_of_cons, elem_of_nil. unfold is_free. split.
    + intros [->|[->|[]]]; split; done || lia.
    + intros [Hid Hf].
      assert (id = 1 \/ id = 2 \/ id = 3 \/ id = 4 \/ id = 5) as Hc by lia.
      destruct_or? Hc; subst; cbn in Hf; done || tauto.
Qed.

Lemma reuse_delay_witness :
  exists t1 t2 g, handle_table_remove monotonic_table 3 = Some (13, t1) /\
    handle_table_insert t1 99 = Some (mk_ref 3 g, t2).
Proof.
  destruct (handle_table_remove monotonic_table 3) as [[o t1]|] eqn:E; [|discriminate].
  assert (o = 13) as -> by (vm_compute in E; congruence).
  destruct (reuse_delay monotonic_table 3 13 t1 [] 99) as (t2 & g & H);
    [exact monotonic_table_wf|exact E|lia|constructor|lia|reflexivity|].
  exists t1, t2, g. split; [reflexivity|exact H].
Defined.
