(* ===== verification/Pmm.v ===== *)
(** * Physical frame allocator (kernel/mm/pmm.c)

    One bit per 4 KB frame (1 = used), two zones (DMA below 16 MB and NORMAL) with
    a search hint each, and the counters the memory pressure policy reads.  Every
    entry point runs under [s_lock], so it is one atomic function of the state.
    Console output is not modelled; the counters it prints are.  The boot memory
    map, the module list, the end of the kernel image and the direct-map limit are
    arguments. *)

From S2P Require Import Prelude Bitmap.

Definition MAX_FRAMES : Z := 0x100000.
Definition PMM_DMA_LIMIT : Z := 0x1000000.
Definition PMM_ZONE_DMA : Z := 1.
Definition PMM_ZONE_PREFER_LOW : Z := 2.

Definition ADDR_TO_FRAME (a : Z) : Z := Z.shiftr (u32 a) 12.
Definition FRAME_TO_ADDR (f : Z) : Z := u32 (Z.shiftl f 12).

Record pmm := mk_pmm {
  s_bitmap : list Z;
  s_total_frames : Z;
  s_alloc_ceiling_frame : Z;
  s_dma_limit_frame : Z;
  s_free_frames : Z;
  s_dma_free : Z;
  s_hint_dma : Z;
  s_hint_normal : Z;
  s_double_free_caught : Z
}.

Record boot_mmap_entry_t := mk_mmap { e_base : Z; e_length : Z; e_type : Z }.
Record boot_module_t := mk_module { phys_start : Z; phys_end : Z }.

Definition with_bitmap (s : pmm) (b : list Z) (free dma hd hn : Z) : pmm :=
  mk_pmm b (s_total_frames s) (s_alloc_ceiling_frame s) (s_dma_limit_frame s)
    free dma hd hn (s_double_free_caught s).

(** ** Bitmap verbs *)

Definition frame_is_used (s : pmm) (f : Z) : option bool :=
  w ← geti (s_bitmap s) (f / 32);
  Some (negb (Z.land (Z.shiftr w (f mod 32)) 1 =? 0)).

Definition frame_set_used (s : pmm) (f : Z) : option pmm :=
  w ← geti (s_bitmap s) (f / 32);
  b ← seti (s_bitmap s) (f / 32) (Z.lor w (bit32 (f mod 32)));
  Some (with_bitmap s b (s_free_frames s ⊟ 1)
          (if f <? s_dma_limit_frame s then s_dma_free s ⊟ 1 else s_dma_free s)
          (s_hint_dma s) (s_hint_normal s)).

Definition frame_set_free (s : pmm) (f : Z) : option pmm :=
  w ← geti (s_bitmap s) (f / 32);
  b ← seti (s_bitmap s) (f / 32) (Z.land w (not32 (bit32 (f mod 32))));
  Some (if f <? s_dma_limit_frame s then
          with_bitmap s b (s_free_frames s ⊞ 1) (s_dma_free s ⊞ 1)
            (if f <? s_hint_dma s then f else s_hint_dma s) (s_hint_normal s)
        else
          with_bitmap s b (s_free_frames s ⊞ 1) (s_dma_free s) (s_hint_dma s)
            (if f <? s_hint_normal s then f else s_hint_normal s)).

(** The [while (candidates != 0)] loop on word [w]: 32 turns are enough. *)
Fixpoint scan_candidates (fuel : nat) (candidates w start end_ : Z)
    : option (option Z) :=
  if candidates =? 0 then Some None
  else match fuel with
  | O => None
  | S fuel' =>
      let f := (w ⊠ 32) ⊞ ctz candidates in
      if (start <=? f) && (f <? end_) then Some (Some f)
      else scan_candidates fuel' (Z.land candidates (candidates ⊟ 1)) w start end_
  end.

(** [for (w = lo / 32; w < (hi + 31) / 32; w++)], [k] words left. *)
Fixpoint scan_words (k : nat) (bm : list Z) (w start end_ : Z) : option (option Z) :=
  match k with
  | O => Some None
  | S k' =>
      word ← geti bm w;
      r ← scan_candidates 32 (not32 word) w start end_;
      match r with
      | Some f => Some (Some f)
      | None => scan_words k' bm (w + 1) start end_
      end
  end.

Definition scan_pass (bm : list Z) (lo hi start end_ : Z) : option (option Z) :=
  scan_words (Z.to_nat ((hi ⊞ 31) / 32 - lo / 32)) bm (lo / 32) start end_.

Definition zone_find_free (bm : list Z) (start end_ hint : Z) : option Z :=
  let from := if (start <=? hint) && (hint <? end_) then hint else start in
  r ← scan_pass bm from end_ start end_;
  match r with
  | Some f => Some f
  | None =>
      r ← scan_pass bm start from start end_;
      Some (default UINT32_MAX r)
  end.

(** [for (f = start; f < end; f++)], [k] frames left. *)
Fixpoint contiguous_loop (k : nat) (s : pmm) (f run begin n : Z) : option Z :=
  match k with
  | O => Some UINT32_MAX
  | S k' =>
      u ← frame_is_used s f;
      if (u : bool) then contiguous_loop k' s (f + 1) 0 (f ⊞ 1) n
      else if run ⊞ 1 =? n then Some begin
      else contiguous_loop k' s (f + 1) (run ⊞ 1) begin n
  end.

Definition zone_find_contiguous (s : pmm) (start end_ n : Z) : option Z :=
  contiguous_loop (Z.to_nat (end_ - start)) s start 0 start n.

(** ** Allocation verbs *)

Inductive hint_sel := HintDma | HintNormal.

Definition get_hint (s : pmm) (h : hint_sel) : Z :=
  match h with HintDma => s_hint_dma s | HintNormal => s_hint_normal s end.

Definition set_hint (s : pmm) (h : hint_sel) (v : Z) : pmm :=
  match h with
  | HintDma => with_bitmap s (s_bitmap s) (s_free_frames s) (s_dma_free s) v (s_hint_normal s)
  | HintNormal => with_bitmap s (s_bitmap s) (s_free_frames s) (s_dma_free s) (s_hint_dma s) v
  end.

Definition take_frame (s : pmm) (start end_ : Z) (h : hint_sel) : option (Z * pmm) :=
  f ← zone_find_free (s_bitmap s) start end_ (get_hint s h);
  if f =? UINT32_MAX then Some (0, s)
  else
    s1 ← frame_set_used s f;
    Some (FRAME_TO_ADDR f, set_hint s1 h (f ⊞ 1)).

Definition release_frame_checked (s : pmm) (f : Z) : option (bool * pmm) :=
  if (f =? 0) || (s_alloc_ceiling_frame s <=? f) then Some (false, s)
  else
    u ← frame_is_used s f;
    if negb u then
      Some (false, mk_pmm (s_bitmap s) (s_total_frames s) (s_alloc_ceiling_frame s)
                     (s_dma_limit_frame s) (s_free_frames s) (s_dma_free s)
                     (s_hint_dma s) (s_hint_normal s) (s_double_free_caught s ⊞ 1))
    else s1 ← frame_set_free s f; Some (true, s1).

(** ** API *)

Definition has_flag (flags bit : Z) : bool := negb (Z.land flags bit =? 0).

Definition pmm_alloc_frame (s : pmm) (zone_flags : Z) : option (Z * pmm) :=
  if has_flag zone_flags PMM_ZONE_DMA then
    take_frame s 1 (s_dma_limit_frame s) HintDma
  else if has_flag zone_flags PMM_ZONE_PREFER_LOW then
    '(pa, s1) ← take_frame s 1 (s_dma_limit_frame s) HintDma;
    if pa =? 0 then take_frame s1 (s_dma_limit_frame s1) (s_alloc_ceiling_frame s1) HintNormal
    else Some (pa, s1)
  else
    '(pa, s1) ← take_frame s (s_dma_limit_frame s) (s_alloc_ceiling_frame s) HintNormal;
    if pa =? 0 then take_frame s1 1 (s_dma_limit_frame s1) HintDma
    else Some (pa, s1).

Definition pmm_free_frame (s : pmm) (phys_addr : Z) : option pmm :=
  if negb (Z.land phys_addr (PAGE_SIZE - 1) =? 0) then Some s
  else snd <$> release_frame_checked s (ADDR_TO_FRAME phys_addr).

(** [for (i = 0; i < count; i++) frame_set_used(base + i)] *)
Fixpoint set_used_run (k : nat) (s : pmm) (base i : Z) : option pmm :=
  match k with
  | O => Some s
  | S k' => s1 ← frame_set_used s (base ⊞ i); set_used_run k' s1 base (i + 1)
  end.

Definition pmm_alloc_contiguous (s : pmm) (count zone_flags : Z) : option (Z * pmm) :=
  if count =? 0 then Some (0, s)
  else
    base ←
      (if has_flag zone_flags PMM_ZONE_DMA then
         zone_find_contiguous s 1 (s_dma_limit_frame s) count
       else if has_flag zone_flags PMM_ZONE_PREFER_LOW then
         b ← zone_find_contiguous s 1 (s_dma_limit_frame s) count;
         if b =? UINT32_MAX then
           zone_find_contiguous s (s_dma_limit_frame s) (s_alloc_ceiling_frame s) count
         else Some b
       else
         b ← zone_find_contiguous s (s_dma_limit_frame s) (s_alloc_ceiling_frame s) count;
         if b =? UINT32_MAX then zone_find_contiguous s 1 (s_dma_limit_frame s) count
         else Some b);
    if base =? UINT32_MAX then Some (0, s)
    else
      s1 ← set_used_run (Z.to_nat count) s base 0;
      Some (FRAME_TO_ADDR base, s1).

Fixpoint release_run (k : nat) (s : pmm) (base i : Z) : option pmm :=
  match k with
  | O => Some s
  | S k' =>
      '(_, s1) ← release_frame_checked s (base ⊞ i); release_run k' s1 base (i + 1)
  end.

Definition pmm_free_contiguous (s : pmm) (phys_addr count : Z) : option pmm :=
  if negb (Z.land phys_addr (PAGE_SIZE - 1) =? 0) then Some s
  else release_run (Z.to_nat count) s (ADDR_TO_FRAME phys_addr) 0.

(** [for (f = fs; f < fe && f < s_total_frames; f++)] *)
Fixpoint mark_loop (k : nat) (s : pmm) (f : Z) : option pmm :=
  match k with
  | O => Some s
  | S k' =>
      u ← frame_is_used s f;
      s1 ← (if negb u then frame_set_used s f else Some s);
      mark_loop k' s1 (f + 1)
  end.

Definition pmm_mark_used (s : pmm) (phys_addr size : Z) : option pmm :=
  let fs := ADDR_TO_FRAME (ALIGN_DOWN phys_addr PAGE_SIZE) in
  let fe := ADDR_TO_FRAME (ALIGN_UP (phys_addr ⊞ size) PAGE_SIZE) in
  mark_loop (Z.to_nat (Z.min fe (s_total_frames s) - fs)) s fs.

Record pmm_stats_t := mk_stats {
  total_frames : Z; free_frames : Z; dma_free : Z; double_free_caught : Z; pressure : Z
}.

Definition pmm_get_stats (s : pmm) : pmm_stats_t :=
  mk_stats (s_alloc_ceiling_frame s) (s_free_frames s) (s_dma_free s)
    (s_double_free_caught s)
    (if s_alloc_ceiling_frame s =? 0 then 100
     else ((s_alloc_ceiling_frame s ⊟ s_free_frames s) ⊠ 100) / s_alloc_ceiling_frame s).

Definition pmm_is_frame_allocated (s : pmm) (phys_addr : Z) : option bool :=
  let f := ADDR_TO_FRAME phys_addr in
  if s_total_frames s <=? f then Some false else frame_is_used s f.

Definition pmm_get_ram_top (s : pmm) : Z := FRAME_TO_ADDR (s_total_frames s).

(** ** Boot *)

Definition entry_usable (e : boot_mmap_entry_t) : bool :=
  (e_type e =? 1) && (e_base e <=? 0xFFFFFFFF).

Definition mmap_usable_top (mmap : list boot_mmap_entry_t) : Z :=
  foldl (fun top e =>
    if entry_usable e then
      let end_ := u32 (e_base e + e_length e) in if top <? end_ then end_ else top
    else top) 0 mmap.

(** [s_total_frames], [s_dma_limit_frame] and [s_alloc_ceiling_frame]. *)
Definition measure_usable_ram (s : pmm) (mmap : list boot_mmap_entry_t) (dm_limit : Z) : pmm :=
  let total := Z.min (ADDR_TO_FRAME (mmap_usable_top mmap)) MAX_FRAMES in
  let dma := Z.min (ADDR_TO_FRAME PMM_DMA_LIMIT) total in
  let dm_top := ADDR_TO_FRAME dm_limit in
  mk_pmm (s_bitmap s) total (if total <? dm_top then total else dm_top) dma
    (s_free_frames s) (s_dma_free s) (s_hint_dma s) (s_hint_normal s)
    (s_double_free_caught s).

Fixpoint free_loop (k : nat) (s : pmm) (f : Z) : option pmm :=
  match k with
  | O => Some s
  | S k' => s1 ← frame_set_free s f; free_loop k' s1 (f + 1)
  end.

Definition entry_first (e : boot_mmap_entry_t) : Z :=
  ADDR_TO_FRAME (ALIGN_UP (u32 (e_base e)) PAGE_SIZE).
Definition entry_last (e : boot_mmap_entry_t) : Z :=
  ADDR_TO_FRAME (ALIGN_DOWN (u32 (e_base e + e_length e)) PAGE_SIZE).

Fixpoint release_entries (s : pmm) (mmap : list boot_mmap_entry_t) : option pmm :=
  match mmap with
  | [] => Some s
  | e :: rest =>
      s1 ← (if entry_usable e then
              free_loop (Z.to_nat (Z.min (entry_last e) (s_alloc_ceiling_frame s)
                                   - entry_first e)) s (entry_first e)
            else Some s);
      release_entries s1 rest
  end.

Definition release_available_regions (s : pmm) (mmap : list boot_mmap_entry_t)
    : option pmm :=
  let s0 := with_bitmap s (replicate (length (s_bitmap s)) 0xFFFFFFFF) 0 0
              (s_hint_dma s) (s_hint_normal s) in
  release_entries s0 mmap.

Fixpoint mark_modules (s : pmm) (mods : list boot_module_t) : option pmm :=
  match mods with
  | [] => Some s
  | m :: rest =>
      s1 ← pmm_mark_used s (phys_start m) (phys_end m ⊟ phys_start m);
      mark_modules s1 rest
  end.

Definition reserve_critical_regions (s : pmm) (kernel_end : Z)
    (mods : list boot_module_t) : option pmm :=
  s1 ← pmm_mark_used s 0 0x100000;
  s2 ← pmm_mark_used s1 0x100000 (kernel_end ⊟ 0x100000);
  mark_modules s2 mods.

(** The final [kpanic] check of [pmm_init] is the [None] of an invariant broken. *)
Definition pmm_init (s : pmm) (mmap : list boot_mmap_entry_t) (dm_limit kernel_end : Z)
    (mods : list boot_module_t) : option pmm :=
  s2 ← release_available_regions (measure_usable_ram s mmap dm_limit) mmap;
  s3 ← reserve_critical_regions s2 kernel_end mods;
  if ADDR_TO_FRAME dm_limit <? s_alloc_ceiling_frame s3 then None
  else Some (set_hint (set_hint s3 HintDma 1) HintNormal (s_dma_limit_frame s3)).

(** ** Abstract view and invariant *)

(** Frame [f] is in use. *)
Definition used (s : pmm) (f : Z) : bool := bitat (s_bitmap s) f.

Definition count_free (bm : list Z) (lo hi : Z) : Z :=
  Z.of_nat (length (filter (fun f => bitat bm f = false) (seqZ lo (hi - lo)))).

(** The bitmap covers the RAM, the zone limits nest, nothing above the ceiling is
    free, and both counters are exact. *)
Record wf_pmm (s : pmm) : Prop := {
  wfp_words : Forall is_u32 (s_bitmap s);
  wfp_total : 0 <= s_total_frames s <= MAX_FRAMES /\
              s_total_frames s <= 32 * Z.of_nat (length (s_bitmap s));
  wfp_limits : 1 <= s_dma_limit_frame s <= s_alloc_ceiling_frame s /\
               s_alloc_ceiling_frame s <= s_total_frames s;
  wfp_reserved : forall f, s_alloc_ceiling_frame s <= f < s_total_frames s ->
                 used s f = true;
  wfp_free : s_free_frames s = count_free (s_bitmap s) 0 (s_alloc_ceiling_frame s);
  wfp_dma : s_dma_free s = count_free (s_bitmap s) 0 (s_dma_limit_frame s)
}.

(** ** Bits of frames *)

Lemma frame_word bm f : Forall is_u32 bm -> 0 <= f < 32 * Z.of_nat (length bm) ->
  exists w, geti bm (f / 32) = Some w /\ is_u32 w /\ bitat bm f = Z.testbit w (f mod 32).
Proof.
  intros Hw Hf. destruct (geti_in_range bm (f / 32)) as [w Hg]; [zlia|].
  exists w. split_and!; [done|by eapply Forall_geti|]. unfold bitat. by rewrite Hg.
Qed.

Lemma shiftr_land_testbit w k : 0 <= k -> negb (Z.land (Z.shiftr w k) 1 =? 0) = Z.testbit w k.
Proof.
  intros Hk. change 1 with (Z.ones 1). rewrite Z.land_ones by lia.
  assert (Z.testbit w k = Z.testbit (Z.shiftr w k) 0) as ->
    by (rewrite Z.shiftr_spec by lia; f_equal; lia).
  change (2 ^ 1) with 2. rewrite <- Z.bit0_mod. by destruct (Z.testbit _ 0).
Qed.

Lemma frame_is_used_spec s f : Forall is_u32 (s_bitmap s) ->
  0 <= f < 32 * Z.of_nat (length (s_bitmap s)) -> frame_is_used s f = Some (used s f).
Proof.
  intros Hw Hf. destruct (frame_word _ f Hw Hf) as (w & Hg & _ & Hb).
  unfold frame_is_used, used. rewrite Hg, Hb. cbn. f_equal. apply shiftr_land_testbit. zlia.
Qed.

(** Writing one bit through its word. *)
Lemma bit_write bm f w' (b : bool) : Forall is_u32 bm ->
  0 <= f < 32 * Z.of_nat (length bm) ->
  (forall w, is_u32 w -> is_u32 (w' w)) ->
  (forall w k, is_u32 w -> 0 <= k < 32 ->
     Z.testbit (w' w) k = if k =? f mod 32 then b else Z.testbit w k) ->
  exists w bm', geti bm (f / 32) = Some w /\ seti bm (f / 32) (w' w) = Some bm' /\
    Forall is_u32 bm' /\ length bm' = length bm /\
    forall j, bitat bm' j = if j =? f then b else bitat bm j.
Proof.
  intros Hw Hf Hu Hb. destruct (frame_word _ f Hw Hf) as (w & Hg & Hwu & _).
  exists w, (<[Z.to_nat (f / 32) := w' w]> bm).
  assert (seti bm (f / 32) (w' w) = Some (<[Z.to_nat (f / 32) := w' w]> bm)) as Hs
    by (apply seti_in_range; zlia).
  split_and!; [done|done| |apply length_insert|].
  - eapply Forall_seti; [done| |exact Hs]. auto.
  - intros j. apply (bitat_update bm _ j f w (w' w) b Hg Hs). auto.
Qed.

Lemma set_bit_spec w k f : 0 <= k < 32 ->
  Z.testbit (Z.lor w (bit32 (f mod 32))) k = if k =? f mod 32 then true else Z.testbit w k.
Proof.
  intros Hk. rewrite Z.lor_spec, testbit_bit32 by zlia.
  case_cmp; [apply orb_true_r|apply orb_false_r].
Qed.

Lemma clear_bit_spec w k f : 0 <= k < 32 ->
  Z.testbit (Z.land w (not32 (bit32 (f mod 32)))) k
  = if k =? f mod 32 then false else Z.testbit w k.
Proof.
  intros Hk. rewrite Z.land_spec, testbit_not32, testbit_bit32 by zlia.
  rewrite (proj2 (Z.ltb_lt k 32)) by lia.
  case_cmp; [apply andb_false_r|apply andb_true_r].
Qed.

(** ** Counting *)

Lemma count_free_bounds bm lo hi : lo <= hi -> 0 <= count_free bm lo hi <= hi - lo.
Proof.
  intros Hle. unfold count_free. split; [lia|].
  pose proof (length_filter (fun f => bitat bm f = false) (seqZ lo (hi - lo))) as H.
  rewrite length_seqZ in H. lia.
Qed.

Lemma count_free_take bm bm' f lo hi :
  bitat bm f = false -> (forall j, bitat bm' j = if j =? f then true else bitat bm j) ->
  count_free bm' lo hi
  = count_free bm lo hi - (if (lo <=? f) && (f <? hi) then 1 else 0).
Proof.
  intros Hf Hb. unfold count_free.
  rewrite (length_filter_minus (fun f => bitat bm f = false) (fun f => bitat bm' f = false)
             (seqZ lo (hi - lo)) f); [|apply NoDup_seqZ|done|].
  - destruct (decide (f ∈ seqZ lo (hi - lo))) as [Hin|Hin]; rewrite elem_of_seqZ in Hin;
      destruct (Z.leb_spec lo f), (Z.ltb_spec f hi); cbn; lia.
  - intros x. rewrite Hb. destruct (Z.eqb_spec x f); split; try done; try tauto.
Qed.

Lemma count_free_give bm bm' f lo hi :
  bitat bm f = true -> (forall j, bitat bm' j = if j =? f then false else bitat bm j) ->
  count_free bm' lo hi
  = count_free bm lo hi + (if (lo <=? f) && (f <? hi) then 1 else 0).
Proof.
  intros Hf Hb. rewrite (count_free_take bm' bm f lo hi); [lia|by rewrite Hb, Z.eqb_refl|].
  intros j. rewrite Hb. by destruct (Z.eqb_spec j f) as [->|].
Qed.

Lemma count_free_pos bm lo hi f :
  lo <= f < hi -> bitat bm f = false -> 0 < count_free bm lo hi.
Proof.
  intros Hf Hb. unfold count_free.
  assert (f ∈ filter (fun f => bitat bm f = false) (seqZ lo (hi - lo))) as Hin.
  { apply list_elem_of_filter. split; [done|]. apply elem_of_seqZ. lia. }
  destruct (filter _ _); [by apply not_elem_of_nil in Hin|]. cbn. lia.
Qed.

(** ** Taking and giving one frame *)

(** [s'] is [s] with the state of frame [f] set to [b] and the counters moved. *)
Record frame_changed (s s' : pmm) (f : Z) (b : bool) : Prop := {
  fc_bits : forall j, used s' j = if j =? f then b else used s j;
  fc_total : s_total_frames s' = s_total_frames s;
  fc_ceiling : s_alloc_ceiling_frame s' = s_alloc_ceiling_frame s;
  fc_dma : s_dma_limit_frame s' = s_dma_limit_frame s;
  fc_df : s_double_free_caught s' = s_double_free_caught s;
  fc_len : length (s_bitmap s') = length (s_bitmap s)
}.

Lemma wf_count_ranges s : wf_pmm s ->
  0 <= s_free_frames s <= MAX_FRAMES /\ 0 <= s_dma_free s <= MAX_FRAMES.
Proof.
  intros H. destruct (wfp_limits s H), (wfp_total s H).
  rewrite (wfp_free s H), (wfp_dma s H).
  pose proof (count_free_bounds (s_bitmap s) 0 (s_alloc_ceiling_frame s)).
  pose proof (count_free_bounds (s_bitmap s) 0 (s_dma_limit_frame s)). lia.
Qed.

Lemma frame_set_used_spec s f : wf_pmm s -> 0 <= f < s_alloc_ceiling_frame s ->
  used s f = false ->
  exists s', frame_set_used s f = Some s' /\ wf_pmm s' /\ frame_changed s s' f true /\
    s_free_frames s' = s_free_frames s - 1 /\
    s_hint_dma s' = s_hint_dma s /\ s_hint_normal s' = s_hint_normal s.
Proof.
  intros Hwf Hf Hu. destruct (wfp_limits s Hwf), (wfp_total s Hwf).
  pose proof (wf_count_ranges s Hwf). unfold MAX_FRAMES in *.
  destruct (bit_write (s_bitmap s) f (fun w => Z.lor w (bit32 (f mod 32))) true)
    as (w & bm' & Hg & Hs & Hw' & Hlen & Hb); [apply Hwf|lia|auto with cint| |].
  { intros w k _ Hk. by apply set_bit_spec. }
  unfold frame_set_used. rewrite Hg. cbn [mbind option_bind]. rewrite Hs. cbn [mbind option_bind].
  pose proof (count_free_pos (s_bitmap s) 0 (s_alloc_ceiling_frame s) f ltac:(lia) Hu) as Hp.
  rewrite <- (wfp_free s Hwf) in Hp.
  eexists. split; [done|]. cbn. rewrite (u32_small (s_free_frames s - 1)) by lia.
  split_and!; try done.
  constructor; cbn; rewrite ?Hlen; try done; try (by apply Hwf).
  - intros j Hj. unfold used in *. cbn. rewrite Hb.
    destruct (Z.eqb_spec j f); [done|]. by apply Hwf.
  - rewrite (count_free_take _ _ f 0 _ Hu Hb), (wfp_free s Hwf).
    repeat case_cmp; cbn; lia.
  - rewrite (count_free_take _ _ f 0 _ Hu Hb), (wfp_dma s Hwf).
    destruct (Z.ltb_spec f (s_dma_limit_frame s)).
    + pose proof (count_free_pos (s_bitmap s) 0 (s_dma_limit_frame s) f ltac:(lia) Hu) as Hd.
      rewrite <- (wfp_dma s Hwf) in *. rewrite u32_small by lia.
      repeat case_cmp; cbn; lia.
    + repeat case_cmp; cbn; lia.
Qed.

Lemma frame_set_free_spec s f : wf_pmm s -> 0 <= f < s_alloc_ceiling_frame s ->
  used s f = true ->
  exists s', frame_set_free s f = Some s' /\ wf_pmm s' /\ frame_changed s s' f false /\
    s_free_frames s' = s_free_frames s + 1.
Proof.
  intros Hwf Hf Hu. destruct (wfp_limits s Hwf), (wfp_total s Hwf).
  pose proof (wf_count_ranges s Hwf). unfold MAX_FRAMES in *.
  destruct (bit_write (s_bitmap s) f (fun w => Z.land w (not32 (bit32 (f mod 32)))) false)
    as (w & bm' & Hg & Hs & Hw' & Hlen & Hb); [apply Hwf|lia| | |].
  { intros w Hw. apply is_u32_land; [done|apply u32_range]. }
  { intros w k _ Hk. by apply clear_bit_spec. }
  unfold frame_set_free. rewrite Hg. cbn [mbind option_bind]. rewrite Hs. cbn [mbind option_bind].
  rewrite !(u32_small (_ + 1)) by lia.
  assert (count_free bm' 0 (s_alloc_ceiling_frame s) = s_free_frames s + 1) as Hcf.
  { rewrite (count_free_give _ _ f 0 _ Hu Hb), (wfp_free s Hwf). repeat case_cmp; cbn; lia. }
  pose proof (count_free_give _ _ f 0 (s_dma_limit_frame s) Hu Hb) as Hcd.
  rewrite <- (wfp_dma s Hwf) in Hcd.
  assert (forall j, s_alloc_ceiling_frame s <= j < s_total_frames s -> bitat bm' j = true) as Hres.
  { intros j Hj. rewrite Hb. destruct (Z.eqb_spec j f); [lia|]. by apply Hwf. }
  eexists. split; [done|].
  case_if; (split_and!; [|by constructor|done]); constructor; cbn; rewrite ?Hlen, ?Hcf, ?Hcd;
    try done; try (by apply Hwf); repeat case_cmp; cbn; lia.
Qed.

Lemma wf_set_hint s h v : wf_pmm s -> wf_pmm (set_hint s h v).
Proof. intros [? ? ? ? ? ?]. destruct h; by constructor. Qed.

(** ** The free-frame search *)

Lemma scan_candidates_spec fuel c w start end_ i :
  is_u32 c -> 0 <= i <= 32 -> (forall b, 0 <= b < i -> Z.testbit c b = false) ->
  32 - i <= Z.of_nat fuel -> 0 <= w < 0x8000000 ->
  exists r, scan_candidates fuel c w start end_ = Some r /\
    match r with
    | Some f => start <= f < end_ /\ exists b, 0 <= b < 32 /\ Z.testbit c b = true /\
                f = w * 32 + b
    | None => forall b, 0 <= b < 32 -> Z.testbit c b = true ->
                ~ start <= w * 32 + b < end_
    end.
Proof.
  revert c i. induction fuel as [|fuel IH]; intros c i Hc Hi Hlow Hfuel Hw;
    cbn [scan_candidates]; destruct (Z.eqb_spec c 0) as [->|Hne].
  1,3: (exists None; split; [done|]; intros b Hb Ht; by rewrite Z.bits_0 in Ht).
  - exfalso. apply Hne. apply Z.bits_inj'. intros j Hj. rewrite Z.bits_0.
    destruct (Z.lt_ge_cases j 32); [apply Hlow; lia|by apply u32_testbit_high].
  - assert (0 < c) as Hpos by (unfold is_u32 in Hc; lia).
    destruct (ctz_spec c Hpos) as (H0 & H1 & H2). pose proof (ctz_u32_bound c Hpos Hc) as H3.
    unfold is_u32 in Hc.
    rewrite (u32_small (w * 32)), (u32_small (w * 32 + ctz c)), (u32_small (c - 1)) by lia.
    destruct ((start <=? w * 32 + ctz c) && (w * 32 + ctz c <? end_)) eqn:Hin.
    { bool_to_prop. eexists. split; [done|]. cbn. split; [lia|]. exists (ctz c). split_and!; done || lia. }
    assert (i <= ctz c) as Hic.
    { destruct (Z.le_gt_cases i (ctz c)); [done|]. rewrite Hlow in H1 by lia. done. }
    destruct (IH (Z.land c (c - 1)) (ctz c + 1)) as (r & Hr & Hspec).
    + apply is_u32_land; [done|lia].
    + lia.
    + intros b Hb. rewrite clear_lowest by lia.
      destruct (Z.eqb_spec b (ctz c)); cbn; [apply andb_false_r|].
      rewrite H2 by lia. done.
    + lia.
    + done.
    + exists r. split; [done|]. destruct r as [f|].
      * destruct Hspec as (? & b & ? & Ht & ?). split; [done|]. exists b.
        rewrite clear_lowest in Ht by lia. apply andb_true_iff in Ht as [? _].
        split_and!; done || lia.
      * intros b Hb Ht. destruct (Z.eq_dec b (ctz c)) as [->|Hbc].
        -- apply andb_false_iff in Hin as [?|?]; bool_to_prop; lia.
        -- apply Hspec; [done|]. rewrite clear_lowest by lia.
           rewrite Ht, (proj2 (Z.eqb_neq b (ctz c))) by done. done.
Qed.

(** Result of a search of frames [P] inside [start, end_). *)
Definition found_free (bm : list Z) (start end_ : Z) (P : Z -> Prop) (r : option Z) : Prop :=
  match r with
  | Some f => start <= f < end_ /\ bitat bm f = false
  | None => forall f, start <= f < end_ -> P f -> bitat bm f = true
  end.

Lemma scan_words_spec k bm w start end_ :
  Forall is_u32 bm -> 0 <= w -> w + Z.of_nat k <= Z.of_nat (length bm) ->
  w + Z.of_nat k < 0x8000000 ->
  exists r, scan_words k bm w start end_ = Some r /\
    found_free bm start end_ (fun f => w <= f / 32 < w + Z.of_nat k) r.
Proof.
  intros Hbm. revert w. induction k as [|k IH]; intros w Hw Hk Hlim; cbn [scan_words].
  { exists None. split; [done|]. intros f _ Hf. lia. }
  destruct (geti_in_range bm w) as [word Hg]; [lia|]. run_bind Hg.
  assert (is_u32 word) as Hwu by (by eapply Forall_geti).
  assert (forall b, 0 <= b < 32 -> bitat bm (w * 32 + b) = Z.testbit word b) as Hbit.
  { intros b Hb. unfold bitat. replace ((w * 32 + b) / 32) with w by zlia.
    rewrite Hg. f_equal. zlia. }
  destruct (scan_candidates_spec 32 (not32 word) w start end_ 0)
    as (r & Hr & Hspec); [apply u32_range|lia|lia|lia|lia|].
  run_bind Hr. destruct r as [f|].
  - destruct Hspec as (Hf & b & Hb & Ht & ->). eexists. split; [done|]. split; [done|].
    rewrite Hbit by done. rewrite testbit_not32, (proj2 (Z.ltb_lt b 32)) in Ht by lia.
    by apply negb_true_iff in Ht.
  - destruct (IH (w + 1)) as (r & Hr' & Hsp); [lia|lia|lia|]. exists r. split; [done|].
    destruct r as [f|]; [done|]. intros f Hf Hfw.
    destruct (Z.eq_dec (f / 32) w) as [He|Hne]; [|apply Hsp; lia].
    assert (f = w * 32 + f mod 32) as Hfd by zlia.
    assert (0 <= f mod 32 < 32) as Hm by zlia. rewrite Hfd, Hbit by done.
    destruct (Z.testbit word (f mod 32)) eqn:Ht; [done|]. exfalso.
    apply (Hspec (f mod 32) Hm); [|lia].
    rewrite testbit_not32, (proj2 (Z.ltb_lt (f mod 32) 32)), Ht by lia. done.
Qed.

Lemma scan_pass_spec bm lo hi start end_ :
  Forall is_u32 bm -> 0 <= lo -> hi <= 32 * Z.of_nat (length bm) -> 0 <= hi <= MAX_FRAMES ->
  exists r, scan_pass bm lo hi start end_ = Some r /\
    found_free bm start end_ (fun f => lo / 32 <= f / 32 /\ f / 32 < (hi + 31) / 32) r.
Proof.
  intros Hbm Hlo Hhi Hmax. unfold scan_pass, MAX_FRAMES in *.
  rewrite u32_small by lia.
  destruct (Z.le_gt_cases ((hi + 31) / 32) (lo / 32)) as [Hle|Hgt].
  - rewrite Z2Nat.nonpos by lia. cbn. exists None. split; [done|]. intros f _ [? ?]. lia.
  - destruct (scan_words_spec (Z.to_nat ((hi + 31) / 32 - lo / 32)) bm (lo / 32) start end_)
      as (r & Hr & Hs); [done|zlia|zlia|zlia|].
    exists r. split; [done|]. destruct r; [done|]. intros f Hf [? ?]. apply Hs; [done|lia].
Qed.

(** The two passes together find a free frame of the zone whenever there is one. *)
Lemma zone_find_free_spec bm start end_ hint :
  Forall is_u32 bm -> 0 <= start <= MAX_FRAMES -> 0 <= end_ <= MAX_FRAMES ->
  start <= 32 * Z.of_nat (length bm) -> end_ <= 32 * Z.of_nat (length bm) ->
  exists r, zone_find_free bm start end_ hint = Some r /\
    ((start <= r < end_ /\ bitat bm r = false) \/
     (r = UINT32_MAX /\ forall f, start <= f < end_ -> bitat bm f = true)).
Proof.
  intros Hbm Hs Hm Hsl He. unfold zone_find_free.
  set (from := if (start <=? hint) && (hint <? end_) then hint else start).
  assert (from = start \/ start <= from < end_) as Hfrom.
  { unfold from. destruct ((start <=? hint) && (hint <? end_)) eqn:E; bool_to_prop; lia. }
  destruct (scan_pass_spec bm from end_ start end_) as (r & Hp & Hr); [done|lia|lia|lia|].
  run_bind Hp. destruct r as [f|].
  { exists f. split; [done|]. by left. }
  destruct (scan_pass_spec bm start from start end_) as (r & Hp2 & Hr2); [done|lia|lia|lia|].
  run_bind Hp2. destruct r as [f|].
  { exists f. split; [done|]. by left. }
  exists UINT32_MAX. split; [done|]. right. split; [done|]. intros f Hf.
  destruct (Z.le_gt_cases (from / 32) (f / 32)) as [H1|H1].
  - apply Hr; [done|]. split; [done|]. zlia.
  - apply Hr2; [done|]. split; zlia.
Qed.

(** ** One frame out, one frame in *)

(** [r] is the address of a frame taken out of [start, end_). *)
Definition took (s s' : pmm) (start end_ r : Z) : Prop :=
  exists f, start <= f < end_ /\ used s f = false /\ r = f * PAGE_SIZE /\
    frame_changed s s' f true /\ s_free_frames s' = s_free_frames s - 1.

Definition zone_full (s : pmm) (start end_ : Z) : Prop :=
  forall f, start <= f < end_ -> used s f = true.

Lemma set_hint_changed s s' h v f b :
  frame_changed s s' f b -> frame_changed s (set_hint s' h v) f b.
Proof. intros []. by destruct h. Qed.

Lemma FRAME_TO_ADDR_small f : 0 <= f < MAX_FRAMES -> FRAME_TO_ADDR f = f * PAGE_SIZE.
Proof.
  unfold MAX_FRAMES, FRAME_TO_ADDR, PAGE_SIZE. intros Hf.
  rewrite Z.shiftl_mul_pow2 by lia. change (2 ^ 12) with 4096. apply u32_small. lia.
Qed.

Lemma ADDR_TO_FRAME_page f : 0 <= f < MAX_FRAMES -> ADDR_TO_FRAME (f * PAGE_SIZE) = f.
Proof.
  unfold MAX_FRAMES, ADDR_TO_FRAME, PAGE_SIZE. intros Hf. rewrite u32_small by lia.
  rewrite Z.shiftr_div_pow2 by lia. change (2 ^ 12) with 4096. apply Z.div_mul. lia.
Qed.

Lemma take_frame_spec s start end_ h : wf_pmm s -> 1 <= start <= end_ ->
  end_ <= s_alloc_ceiling_frame s ->
  exists r s', take_frame s start end_ h = Some (r, s') /\ wf_pmm s' /\
    (took s s' start end_ r \/ r = 0 /\ s' = s /\ zone_full s start end_).
Proof.
  intros Hwf Hs He. pose proof (wfp_limits s Hwf). pose proof (wfp_total s Hwf).
  destruct (zone_find_free_spec (s_bitmap s) start end_ (get_hint s h))
    as (r & Hr & Hcase); [apply Hwf|lia..|].
  unfold take_frame. run_bind Hr. destruct Hcase as [[Hin Hfree]|[-> Hfull]].
  - assert (r <> UINT32_MAX) as Hne by (unfold MAX_FRAMES, UINT32_MAX in *; lia).
    rewrite (proj2 (Z.eqb_neq _ _) Hne).
    destruct (frame_set_used_spec s r Hwf) as (s' & Hs' & Hwf' & Hch & Hfr & _); [lia|done|].
    run_bind Hs'. do 2 eexists. split; [done|]. split; [by apply wf_set_hint|]. left.
    exists r. rewrite FRAME_TO_ADDR_small by lia.
    split; [done|]. split; [done|]. split; [done|].
    split; [by apply set_hint_changed|by destruct h].
  - exists 0, s. split_and!; [done|done|]. by right.
Qed.

Lemma took_nonzero s s' start end_ r : 1 <= start -> took s s' start end_ r -> r <> 0.
Proof. intros Hs (f & Hf & _ & -> & _). unfold PAGE_SIZE. lia. Qed.

(** The zones a request may be served from, in the order they are tried. *)
Definition zones_of (s : pmm) (zone_flags : Z) : list (Z * Z) :=
  let dma := (1, s_dma_limit_frame s) in
  let normal := (s_dma_limit_frame s, s_alloc_ceiling_frame s) in
  if has_flag zone_flags PMM_ZONE_DMA then [dma]
  else if has_flag zone_flags PMM_ZONE_PREFER_LOW then [dma; normal]
  else [normal; dma].

(** [r] comes from the first zone of [zs] that is not full. *)
Inductive served (s s' : pmm) (r : Z) : list (Z * Z) -> Prop :=
  | served_here z zs : took s s' z.1 z.2 r -> served s s' r (z :: zs)
  | served_next z zs : zone_full s z.1 z.2 -> served s s' r zs -> served s s' r (z :: zs)
  | served_none : r = 0 -> s' = s -> served s s' r [].

(** Trying the two zones one after the other. *)
Lemma take_two s (a b : pmm -> Z) h (a' b' : pmm -> Z) h' : wf_pmm s ->
  1 <= a s <= b s -> 1 <= a' s <= b' s ->
  b s <= s_alloc_ceiling_frame s -> b' s <= s_alloc_ceiling_frame s ->
  exists r s', ('(pa, s1) ← take_frame s (a s) (b s) h;
                if pa =? 0 then take_frame s1 (a' s1) (b' s1) h' else Some (pa, s1))
               = Some (r, s') /\
    wf_pmm s' /\ served s s' r [(a s, b s); (a' s, b' s)].
Proof.
  intros Hwf Ha Ha' Hb Hb'.
  destruct (take_frame_spec s (a s) (b s) h Hwf Ha Hb)
    as (r & s1 & H1 & Hwf1 & [Ht|(-> & -> & Hf)]); run_bind H1.
  - rewrite (proj2 (Z.eqb_neq r 0)) by (eapply took_nonzero; [|done]; lia).
    do 2 eexists. split; [done|]. split; [done|]. by constructor.
  - destruct (take_frame_spec s (a' s) (b' s) h' Hwf Ha' Hb') as (r & s2 & H2 & Hwf2 & Hc).
    do 2 eexists. split; [exact H2|]. split; [done|]. apply served_next; [done|].
    destruct Hc as [?|(-> & -> & ?)]; [by constructor|].
    by apply served_next; [|constructor].
Qed.

Lemma alloc_frame_served s fl : wf_pmm s ->
  exists r s', pmm_alloc_frame s fl = Some (r, s') /\ wf_pmm s' /\
    served s s' r (zones_of s fl).
Proof.
  intros Hwf. pose proof (wfp_limits s Hwf) as Hl. unfold pmm_alloc_frame, zones_of.
  destruct (has_flag fl PMM_ZONE_DMA); [|destruct (has_flag fl PMM_ZONE_PREFER_LOW)].
  - destruct (take_frame_spec s 1 (s_dma_limit_frame s) HintDma Hwf)
      as (r & s1 & H1 & Hwf1 & Hc); [lia|lia|].
    do 2 eexists. split; [exact H1|]. split; [done|].
    destruct Hc as [?|(-> & -> & ?)]; [by constructor|].
    by apply served_next; [|constructor].
  - apply (take_two s (fun _ => 1) s_dma_limit_frame HintDma s_dma_limit_frame
             s_alloc_ceiling_frame HintNormal Hwf); lia.
  - apply (take_two s s_dma_limit_frame s_alloc_ceiling_frame HintNormal (fun _ => 1)
             s_dma_limit_frame HintDma Hwf); lia.
Qed.

(** What a release request does to frame [f]. *)
Definition released (s s' : pmm) (f : Z) : Prop :=
  if (f =? 0) || (s_alloc_ceiling_frame s <=? f) then s' = s
  else if used s f then frame_changed s s' f false /\ s_free_frames s' = s_free_frames s + 1
  else s' = mk_pmm (s_bitmap s) (s_total_frames s) (s_alloc_ceiling_frame s)
              (s_dma_limit_frame s) (s_free_frames s) (s_dma_free s)
              (s_hint_dma s) (s_hint_normal s) (s_double_free_caught s ⊞ 1).

Lemma release_frame_spec s f : wf_pmm s -> 0 <= f ->
  exists b s', release_frame_checked s f = Some (b, s') /\ wf_pmm s' /\ released s s' f.
Proof.
  intros Hwf Hf. pose proof (wfp_limits s Hwf). pose proof (wfp_total s Hwf).
  unfold release_frame_checked, released.
  destruct ((f =? 0) || (s_alloc_ceiling_frame s <=? f)) eqn:Hr; [by do 2 eexists|].
  bool_to_prop.
  assert (frame_is_used s f = Some (used s f)) as Hu by (apply frame_is_used_spec; [apply Hwf|lia]).
  run_bind Hu. destruct (used s f) eqn:Hus; cbn [negb].
  - destruct (frame_set_free_spec s f Hwf) as (s' & Hs' & Hwf' & Hch & Hfr); [lia|done|].
    run_bind Hs'. by do 2 eexists.
  - do 2 eexists. split; [done|]. split; [|done]. destruct Hwf. by constructor.
Qed.

(** ** Runs of frames *)

Definition in_run (lo hi j : Z) : bool := (lo <=? j) && (j <? hi).

(** The frames of [lo, hi) are set to [b], the rest of the state shape is kept. *)
Record range_changed (s s' : pmm) (lo hi : Z) (b : bool) : Prop := {
  rc_bits : forall j, used s' j = if in_run lo hi j then b else used s j;
  rc_total : s_total_frames s' = s_total_frames s;
  rc_ceiling : s_alloc_ceiling_frame s' = s_alloc_ceiling_frame s;
  rc_dma : s_dma_limit_frame s' = s_dma_limit_frame s;
  rc_df : s_double_free_caught s' = s_double_free_caught s;
  rc_len : length (s_bitmap s') = length (s_bitmap s)
}.

Lemma range_changed_refl s lo b : range_changed s s lo lo b.
Proof.
  constructor; try done. intros j. unfold in_run.
  destruct (Z.leb_spec lo j), (Z.ltb_spec j lo); done || lia.
Qed.

(** One more frame at the front of a run. *)
Lemma range_changed_cons s s1 s2 lo hi b :
  frame_changed s s1 lo b -> range_changed s1 s2 (lo + 1) hi b -> lo < hi ->
  range_changed s s2 lo hi b.
Proof.
  intros [F1 F2 F3 F4 F5 F6] [R1 R2 R3 R4 R5 R6] Hlt. constructor; try congruence.
  intros j. rewrite R1, F1. unfold in_run.
  repeat case_cmp; cbn; done || lia.
Qed.

Definition run_free (s : pmm) (x n : Z) : Prop := forall j, x <= j < x + n -> used s j = false.

(** [r] is the least start of a free run of [n] frames in [start, end_). *)
Definition first_run (s : pmm) (start end_ n r : Z) : Prop :=
  start <= r /\ r + n <= end_ /\ run_free s r n /\
  forall x, start <= x < r -> ~ run_free s x n.

Definition no_run (s : pmm) (start end_ n : Z) : Prop :=
  forall x, start <= x -> x + n <= end_ -> ~ run_free s x n.

Lemma contiguous_loop_spec s start n : wf_pmm s -> 1 <= start -> 1 <= n ->
  forall k f run begin, begin + run = f -> 0 <= run < n -> start <= begin ->
  f + Z.of_nat k <= s_alloc_ceiling_frame s ->
  run_free s begin run -> (begin = start \/ used s (begin - 1) = true) ->
  no_run s start f n ->
  exists r, contiguous_loop k s f run begin n = Some r /\
    (first_run s start (f + Z.of_nat k) n r \/
     r = UINT32_MAX /\ no_run s start (f + Z.of_nat k) n).
Proof.
  intros Hwf Hst Hn. pose proof (wfp_limits s Hwf). pose proof (wfp_total s Hwf).
  unfold MAX_FRAMES in *.
  induction k as [|k IH]; intros f run begin Hf Hrun Hb Hk Hfree Hedge Hno; cbn [contiguous_loop].
  { eexists. split; [done|]. right. split; [done|]. by replace (f + Z.of_nat 0) with f by lia. }
  assert (frame_is_used s f = Some (used s f)) as Hu by (apply frame_is_used_spec; [apply Hwf|lia]).
  run_bind Hu. replace (f + Z.of_nat (S k)) with (f + 1 + Z.of_nat k) by lia.
  assert (forall x, start <= x -> x + n <= f + 1 -> run_free s x n -> x + n = f + 1) as Hlast.
  { intros x Hx Hxn Hr. destruct (Z.eq_dec (x + n) (f + 1)); [done|].
    exfalso. apply (Hno x); done || lia. }
  destruct (used s f) eqn:Huf.
  - rewrite u32_small by lia. apply IH; try lia.
    + intros j Hj. lia.
    + right. by replace (f + 1 - 1) with f by lia.
    + intros x Hx Hxn Hr. pose proof (Hlast x Hx Hxn Hr). rewrite (Hr f) in Huf by lia. done.
  - rewrite u32_small by lia. destruct (Z.eqb_spec (run + 1) n) as [He|Hne].
    + exists begin. split; [done|]. left. split_and!; try lia.
      * intros j Hj. destruct (Z.eq_dec j f) as [->|]; [done|]. apply Hfree. lia.
      * intros x Hx Hr. apply (Hno x); done || lia.
    + apply IH; try lia; try done.
      * intros j Hj. destruct (Z.eq_dec j f) as [->|]; [done|]. apply Hfree. lia.
      * intros x Hx Hxn Hr. pose proof (Hlast x Hx Hxn Hr). destruct Hedge as [|Hed]; [lia|].
        rewrite (Hr (begin - 1)) in Hed by lia. done.
Qed.

Lemma zone_find_contiguous_spec s start end_ n : wf_pmm s -> 1 <= start <= end_ ->
  end_ <= s_alloc_ceiling_frame s -> 1 <= n ->
  exists r, zone_find_contiguous s start end_ n = Some r /\
    (first_run s start end_ n r \/ r = UINT32_MAX /\ no_run s start end_ n).
Proof.
  intros Hwf Hs He Hn. unfold zone_find_contiguous.
  destruct (contiguous_loop_spec s start n Hwf ltac:(lia) Hn (Z.to_nat (end_ - start))
              start 0 start) as (r & Hr & Hc); try lia.
  - intros j Hj. lia.
  - intros x Hx Hxn. lia.
  - replace (start + Z.of_nat (Z.to_nat (end_ - start))) with end_ in Hc by lia. by exists r.
Qed.

Lemma set_used_run_spec base k : forall s i, wf_pmm s -> 0 <= i -> 0 <= base ->
  base + i + Z.of_nat k <= s_alloc_ceiling_frame s ->
  run_free s (base + i) (Z.of_nat k) ->
  exists s', set_used_run k s base i = Some s' /\ wf_pmm s' /\
    range_changed s s' (base + i) (base + i + Z.of_nat k) true /\
    s_free_frames s' = s_free_frames s - Z.of_nat k.
Proof.
  induction k as [|k IH]; intros s i Hwf Hi Hb Hk Hfree; cbn [set_used_run];
    pose proof (wfp_limits s Hwf); pose proof (wfp_total s Hwf); unfold MAX_FRAMES in *.
  { exists s. replace (base + i + Z.of_nat 0) with (base + i) by lia.
    split_and!; [done|done|apply range_changed_refl|lia]. }
  rewrite u32_small by lia.
  destruct (frame_set_used_spec s (base + i) Hwf) as (s1 & H1 & Hwf1 & Hch & Hfr & _);
    [lia|apply Hfree; lia|].
  run_bind H1. destruct (IH s1 (i + 1) Hwf1) as (s2 & H2 & Hwf2 & Hrc & Hfr2); [lia|done| | |].
  - rewrite (fc_ceiling _ _ _ _ Hch). lia.
  - intros j Hj. rewrite (fc_bits _ _ _ _ Hch).
    destruct (Z.eqb_spec j (base + i)); [lia|]. apply Hfree. lia.
  - exists s2. split_and!; [done|done| |lia].
    eapply range_changed_cons; [done| |lia].
    replace (base + i + 1) with (base + (i + 1)) by lia.
    by replace (base + i + Z.of_nat (S k)) with (base + (i + 1) + Z.of_nat k) by lia.
Qed.

(** [f] is the first run of the first zone that has one. *)
Inductive run_found (s : pmm) (n f : Z) : list (Z * Z) -> Prop :=
  | run_here z zs : first_run s z.1 z.2 n f -> run_found s n f (z :: zs)
  | run_next z zs : no_run s z.1 z.2 n -> run_found s n f zs -> run_found s n f (z :: zs).

Definition no_run_in (s : pmm) (n : Z) : list (Z * Z) -> Prop :=
  Forall (fun z => no_run s z.1 z.2 n).

(** A run of [n] frames taken from the zones [zs], or none to take. *)
Definition run_served (s s' : pmm) (n r : Z) (zs : list (Z * Z)) : Prop :=
  (exists f, run_found s n f zs /\ r = f * PAGE_SIZE /\
     range_changed s s' f (f + n) true /\ s_free_frames s' = s_free_frames s - n) \/
  (r = 0 /\ s' = s /\ no_run_in s n zs).

Definition search_result (s : pmm) (n base : Z) (zs : list (Z * Z)) : Prop :=
  (run_found s n base zs /\ base <> UINT32_MAX) \/ (base = UINT32_MAX /\ no_run_in s n zs).

Lemma run_found_in s n f zs c : run_found s n f zs ->
  Forall (fun z => 1 <= z.1 /\ z.2 <= c) zs -> 1 <= f /\ f + n <= c /\ run_free s f n.
Proof.
  induction 1 as [z zs (? & ? & ? & _)|z zs _ _ IH]; intros Hz; inversion_clear Hz; [|auto].
  split_and!; done || lia.
Qed.

Lemma finish_run s zs n base : wf_pmm s -> 1 <= n -> search_result s n base zs ->
  Forall (fun z => 1 <= z.1 /\ z.2 <= s_alloc_ceiling_frame s) zs ->
  exists r s', (if base =? UINT32_MAX then Some (0, s)
                else s1 ← set_used_run (Z.to_nat n) s base 0; Some (FRAME_TO_ADDR base, s1))
               = Some (r, s') /\ wf_pmm s' /\ run_served s s' n r zs.
Proof.
  intros Hwf Hn [[Hf Hne]|[-> Hno]] Hzs.
  2:{ exists 0, s. rewrite Z.eqb_refl. split; [done|]. split; [done|]. by right. }
  rewrite (proj2 (Z.eqb_neq _ _) Hne).
  destruct (run_found_in _ _ _ _ _ Hf Hzs) as (Hb & Hend & Hfree).
  pose proof (wfp_limits s Hwf). pose proof (wfp_total s Hwf).
  destruct (set_used_run_spec base (Z.to_nat n) s 0 Hwf) as (s' & Hs' & Hwf' & Hrc & Hfr);
    [lia|lia|lia| |].
  { rewrite Z2Nat.id, Z.add_0_r by lia. done. }
  rewrite Z2Nat.id, Z.add_0_r in * by lia.
  run_bind Hs'. do 2 eexists. split; [done|]. split; [done|]. left. exists base.
  by rewrite FRAME_TO_ADDR_small by (unfold MAX_FRAMES in *; lia).
Qed.

(** One search, and two searches in order. *)
Lemma search_one s start end_ n : wf_pmm s -> 1 <= start <= end_ ->
  end_ <= s_alloc_ceiling_frame s -> 1 <= n ->
  exists r, zone_find_contiguous s start end_ n = Some r /\
    search_result s n r [(start, end_)].
Proof.
  intros Hwf Hs He Hn.
  destruct (zone_find_contiguous_spec s start end_ n Hwf Hs He Hn) as (r & Hr & [Hf|[-> Hno]]);
    eexists; (split; [done|]).
  - left. split; [by constructor|]. destruct Hf as (? & ? & _).
    pose proof (wfp_limits s Hwf). pose proof (wfp_total s Hwf).
    unfold MAX_FRAMES, UINT32_MAX in *. lia.
  - right. split; [done|]. by constructor.
Qed.

Lemma search_two s a b a' b' n : wf_pmm s -> 1 <= a <= b -> 1 <= a' <= b' ->
  b <= s_alloc_ceiling_frame s -> b' <= s_alloc_ceiling_frame s -> 1 <= n ->
  exists r, (x ← zone_find_contiguous s a b n;
             if x =? UINT32_MAX then zone_find_contiguous s a' b' n else Some x) = Some r /\
    search_result s n r [(a, b); (a', b')].
Proof.
  intros Hwf Ha Ha' Hb Hb' Hn.
  destruct (search_one s a b n Hwf Ha Hb Hn) as (r & Hr & [[Hf Hne]|[-> Hno]]); run_bind Hr.
  - rewrite (proj2 (Z.eqb_neq _ _) Hne). eexists. split; [done|]. left. split; [|done].
    inversion_clear Hf as [? ? Hfr|? ? ? Hf0]; [by constructor|inversion Hf0].
  - rewrite Z.eqb_refl.
    destruct (search_one s a' b' n Hwf Ha' Hb' Hn) as (r & Hr' & Hc).
    exists r. split; [done|]. inversion_clear Hno.
    destruct Hc as [[Hf Hne]|[-> Hno']].
    + left. split; [|done]. by apply run_next.
    + right. split; [done|]. by constructor.
Qed.

Lemma zones_of_in s fl : wf_pmm s ->
  Forall (fun z => 1 <= z.1 /\ z.2 <= s_alloc_ceiling_frame s) (zones_of s fl).
Proof.
  intros Hwf. pose proof (wfp_limits s Hwf). unfold zones_of.
  destruct (has_flag fl PMM_ZONE_DMA); [|destruct (has_flag fl PMM_ZONE_PREFER_LOW)];
    repeat constructor; cbn; lia.
Qed.

Lemma alloc_contiguous_served s n fl : wf_pmm s -> 1 <= n ->
  exists r s', pmm_alloc_contiguous s n fl = Some (r, s') /\ wf_pmm s' /\
    run_served s s' n r (zones_of s fl).
Proof.
  intros Hwf Hn. pose proof (wfp_limits s Hwf) as Hl. pose proof (zones_of_in s fl Hwf) as Hz.
  unfold pmm_alloc_contiguous, zones_of in *. rewrite (proj2 (Z.eqb_neq n 0)) by lia.
  destruct (has_flag fl PMM_ZONE_DMA); [|destruct (has_flag fl PMM_ZONE_PREFER_LOW)].
  - destruct (search_one s 1 (s_dma_limit_frame s) n Hwf) as (x & Hx & Hc); [lia..|].
    run_bind Hx. by apply finish_run.
  - destruct (search_two s 1 (s_dma_limit_frame s) (s_dma_limit_frame s)
      (s_alloc_ceiling_frame s) n Hwf) as (x & Hx & Hc); [lia..|].
    run_bind Hx. by apply finish_run.
  - destruct (search_two s (s_dma_limit_frame s) (s_alloc_ceiling_frame s) 1
      (s_dma_limit_frame s) n Hwf) as (x & Hx & Hc); [lia..|].
    run_bind Hx. by apply finish_run.
Qed.

(** ** Marking and releasing ranges *)

Lemma range_changed_skip s s2 lo hi b :
  used s lo = b -> range_changed s s2 (lo + 1) hi b -> lo < hi -> range_changed s s2 lo hi b.
Proof.
  intros Hu [R1 R2 R3 R4 R5 R6] Hlt. constructor; try done. intros j. rewrite R1.
  unfold in_run. destruct (Z.eq_dec j lo) as [->|]; [rewrite Hu|]; repeat case_cmp; cbn; done || lia.
Qed.

Lemma mark_loop_spec k : forall s f, wf_pmm s -> 0 <= f ->
  (k <> 0%nat -> f + Z.of_nat k <= s_total_frames s) ->
  exists s', mark_loop k s f = Some s' /\ wf_pmm s' /\
    range_changed s s' f (f + Z.of_nat k) true.
Proof.
  induction k as [|k IH]; intros s f Hwf Hf Hk; cbn [mark_loop].
  { exists s. replace (f + Z.of_nat 0) with f by lia.
    split_and!; [done|done|apply range_changed_refl]. }
  specialize (Hk ltac:(lia)). pose proof (wfp_total s Hwf).
  assert (frame_is_used s f = Some (used s f)) as Hu by (apply frame_is_used_spec; [apply Hwf|lia]).
  run_bind Hu. replace (f + Z.of_nat (S k)) with (f + 1 + Z.of_nat k) by lia.
  destruct (used s f) eqn:Huf; cbn [negb].
  - rewrite (bind_eq (Some s) s) by done.
    destruct (IH s (f + 1) Hwf) as (s' & Hs' & Hwf' & Hrc); [lia|lia|].
    exists s'. split_and!; [done|done|]. apply range_changed_skip; [done|done|lia].
  - destruct (frame_set_used_spec s f Hwf) as (s1 & H1 & Hwf1 & Hch & _); [|done|].
    { split; [done|]. destruct (Z.lt_ge_cases f (s_alloc_ceiling_frame s)); [done|].
      rewrite (wfp_reserved s Hwf) in Huf by lia. done. }
    run_bind H1. destruct (IH s1 (f + 1) Hwf1) as (s' & Hs' & Hwf' & Hrc); [lia| |].
    { rewrite (fc_total _ _ _ _ Hch). lia. }
    exists s'. split_and!; [done|done|]. eapply range_changed_cons; [done|done|lia].
Qed.

Definition mark_first (pa : Z) : Z := ADDR_TO_FRAME (ALIGN_DOWN pa PAGE_SIZE).
Definition mark_last (pa size : Z) : Z := ADDR_TO_FRAME (ALIGN_UP (pa ⊞ size) PAGE_SIZE).

Lemma ADDR_TO_FRAME_nonneg a : 0 <= ADDR_TO_FRAME a.
Proof. unfold ADDR_TO_FRAME. apply Z.shiftr_nonneg. apply u32_range. Qed.

(** Marking a range takes every frame of it below the RAM top. *)
Record marked (s s' : pmm) (pa size : Z) : Prop := {
  mk_bits : forall j, used s' j
    = in_run (mark_first pa) (Z.min (mark_last pa size) (s_total_frames s)) j || used s j;
  mk_total : s_total_frames s' = s_total_frames s;
  mk_ceiling : s_alloc_ceiling_frame s' = s_alloc_ceiling_frame s;
  mk_dma : s_dma_limit_frame s' = s_dma_limit_frame s
}.

Lemma mark_used_spec s pa size : wf_pmm s ->
  exists s', pmm_mark_used s pa size = Some s' /\ wf_pmm s' /\ marked s s' pa size.
Proof.
  intros Hwf. unfold pmm_mark_used. fold (mark_first pa) (mark_last pa size).
  pose proof (ADDR_TO_FRAME_nonneg (ALIGN_DOWN pa PAGE_SIZE)) as Hnn. fold (mark_first pa) in Hnn.
  set (lo := mark_first pa) in *. set (hi := Z.min (mark_last pa size) (s_total_frames s)).
  assert (Z.min (mark_last pa size) (s_total_frames s) <= s_total_frames s) as Hhi by lia.
  fold hi in Hhi.
  destruct (mark_loop_spec (Z.to_nat (hi - lo)) s lo Hwf Hnn) as (s' & Hs' & Hwf' & [R1 R2 R3 R4 R5 R6]);
    [lia|].
  exists s'. split; [done|]. split; [done|]. constructor; try done. intros j. rewrite R1.
  fold lo hi. unfold in_run. repeat case_cmp; cbn; done || lia.
Qed.

Lemma release_run_spec base k : forall s i, wf_pmm s -> 0 <= base -> 0 <= i ->
  exists s', release_run k s base i = Some s' /\ wf_pmm s' /\
    (forall j, used s j = true -> used s' j = false ->
       exists x, i <= x < i + Z.of_nat k /\ j = base ⊞ x).
Proof.
  induction k as [|k IH]; intros s i Hwf Hb Hi; cbn [release_run].
  { exists s. split_and!; [done|done|]. by intros j ->. }
  destruct (release_frame_spec s (base ⊞ i) Hwf) as (b & s1 & H1 & Hwf1 & Hrel);
    [apply u32_range|].
  run_bind H1. destruct (IH s1 (i + 1) Hwf1 Hb) as (s' & Hs' & Hwf' & Hfr); [lia|].
  exists s'. split_and!; [done|done|]. intros j Hj Hj'.
  destruct (used s1 j) eqn:H1j.
  - destruct (Hfr j H1j Hj') as (x & Hx & ->). exists x. split; [lia|done].
  - exists i. split; [lia|]. unfold released in Hrel.
    case_match; [congruence|]. case_match; [|by subst s1; unfold used in *; cbn in *; congruence].
    destruct Hrel as [Hch _]. rewrite (fc_bits _ _ _ _ Hch) in H1j.
    destruct (Z.eqb_spec j (base ⊞ i)); congruence.
Qed.

(** ** Histories *)

(** The allocator with the set of frames its clients hold. *)
Inductive pmm_step : pmm * (Z -> Prop) -> pmm * (Z -> Prop) -> Prop :=
  | ps_alloc s live fl r s' : pmm_alloc_frame s fl = Some (r, s') ->
      pmm_step (s, live) (s', fun j => live j \/ r <> 0 /\ j = ADDR_TO_FRAME r)
  | ps_alloc_contiguous s live n fl r s' :
      pmm_alloc_contiguous s n fl = Some (r, s') -> 1 <= n ->
      pmm_step (s, live) (s', fun j => live j \/
        r <> 0 /\ in_run (ADDR_TO_FRAME r) (ADDR_TO_FRAME r + n) j = true)
  | ps_free s live pa s' : pmm_free_frame s pa = Some s' ->
      pmm_step (s, live) (s', fun j => live j /\ j <> ADDR_TO_FRAME pa)
  | ps_free_contiguous s live pa n s' : pmm_free_contiguous s pa n = Some s' ->
      pmm_step (s, live) (s', fun j => live j /\
        ~ exists x, 0 <= x < n /\ j = ADDR_TO_FRAME pa ⊞ x)
  | ps_mark s live pa size s' : pmm_mark_used s pa size = Some s' ->
      pmm_step (s, live) (s', live).

Definition owned_used (p : pmm * (Z -> Prop)) : Prop :=
  wf_pmm p.1 /\ forall j, p.2 j -> used p.1 j = true.

Lemma served_frame s s' r zs : Forall (fun z => 1 <= z.1 /\ z.2 <= s_alloc_ceiling_frame s) zs ->
  wf_pmm s -> served s s' r zs ->
  r = 0 /\ s' = s \/
  used s (ADDR_TO_FRAME r) = false /\ frame_changed s s' (ADDR_TO_FRAME r) true.
Proof.
  intros Hz Hwf Hs. pose proof (wfp_limits s Hwf). pose proof (wfp_total s Hwf).
  induction Hs as [z zs Ht|z zs _ _ IH|]; [|inversion_clear Hz; auto|auto].
  right. destruct Ht as (f & Hf & Hu & -> & Hch & _). inversion_clear Hz.
  by rewrite ADDR_TO_FRAME_page by lia.
Qed.

Lemma run_served_frames s s' n r zs :
  Forall (fun z => 1 <= z.1 /\ z.2 <= s_alloc_ceiling_frame s) zs ->
  wf_pmm s -> 1 <= n -> run_served s s' n r zs ->
  r = 0 /\ s' = s \/
  run_free s (ADDR_TO_FRAME r) n /\
  range_changed s s' (ADDR_TO_FRAME r) (ADDR_TO_FRAME r + n) true.
Proof.
  intros Hz Hwf Hn [(f & Hf & -> & Hrc & _)|(-> & -> & _)]; [right|by left].
  pose proof (wfp_limits s Hwf). pose proof (wfp_total s Hwf).
  destruct (run_found_in _ _ _ _ _ Hf Hz) as (? & ? & ?).
  by rewrite ADDR_TO_FRAME_page by lia.
Qed.

Lemma free_frame_bits s pa s' j : wf_pmm s -> pmm_free_frame s pa = Some s' ->
  wf_pmm s' /\ (used s j = true -> j <> ADDR_TO_FRAME pa -> used s' j = true).
Proof.
  intros Hwf. unfold pmm_free_frame. case_match; [by intros [= <-]|].
  destruct (release_frame_spec s (ADDR_TO_FRAME pa) Hwf) as (b & s1 & H1 & Hwf1 & Hrel);
    [apply ADDR_TO_FRAME_nonneg|].
  rewrite H1. intros [= <-]. split; [done|]. intros Hu Hne.
  unfold released in Hrel. repeat case_match; subst; try done.
  destruct Hrel as [Hch _]. rewrite (fc_bits _ _ _ _ Hch). by rewrite (proj2 (Z.eqb_neq j _) Hne).
Qed.

Lemma free_contiguous_bits s pa n s' : wf_pmm s -> pmm_free_contiguous s pa n = Some s' ->
  wf_pmm s' /\ forall j, used s j = true ->
    ~ (exists x, 0 <= x < n /\ j = ADDR_TO_FRAME pa ⊞ x) -> used s' j = true.
Proof.
  intros Hwf. unfold pmm_free_contiguous. case_match; [by intros [= <-]|].
  destruct (release_run_spec (ADDR_TO_FRAME pa) (Z.to_nat n) s 0 Hwf) as (s1 & H1 & Hwf1 & Hfr);
    [apply ADDR_TO_FRAME_nonneg|lia|].
  rewrite H1. intros [= <-]. split; [done|]. intros j Hu Hno.
  destruct (used s1 j) eqn:Hj; [done|]. exfalso. apply Hno.
  destruct (Hfr j Hu Hj) as (x & Hx & ->). exists x. split; [lia|done].
Qed.

Lemma pmm_step_inv p p' : owned_used p -> pmm_step p p' -> owned_used p'.
Proof.
  intros [Hwf Hown] Hst.
  destruct Hst as [s live fl r s' H|s live n fl r s' H Hn|s live pa s' H
    |s live pa n s' H|s live pa sz s' H]; cbn in *.
  - destruct (alloc_frame_served s fl Hwf) as (r1 & s1 & H1 & Hwf1 & Hs).
    rewrite H in H1. injection H1 as <- <-. split; [done|]. cbn. intros j Hj.
    destruct (served_frame _ _ _ _ (zones_of_in s fl Hwf) Hwf Hs) as [[-> ->]|[_ Hch]].
    + destruct Hj as [?|[? _]]; [auto|done].
    + rewrite (fc_bits _ _ _ _ Hch). case_if; [done|]. destruct Hj as [?|[_ ?]]; [auto|done].
  - destruct (alloc_contiguous_served s n fl Hwf Hn) as (r1 & s1 & H1 & Hwf1 & Hs).
    rewrite H in H1. injection H1 as <- <-. split; [done|]. cbn. intros j Hj.
    destruct (run_served_frames _ _ _ _ _ (zones_of_in s fl Hwf) Hwf Hn Hs) as [[-> ->]|[_ Hrc]].
    + destruct Hj as [?|[? _]]; [auto|done].
    + rewrite (rc_bits _ _ _ _ _ Hrc). destruct (in_run _ _ j); [done|].
      destruct Hj as [?|[_ ?]]; [auto|done].
  - split; [by eapply (free_frame_bits s pa s' 0)|]. cbn. intros j [Hj Hne].
    eapply free_frame_bits; eauto.
  - destruct (free_contiguous_bits s pa n s' Hwf H) as [Hwf' Hb]. split; [done|].
    intros j [Hj Hno]. cbn. auto.
  - destruct (mark_used_spec s pa sz Hwf) as (s1 & H1 & Hwf1 & Hm). rewrite H in H1.
    injection H1 as <-. split; [done|]. cbn. intros j Hj. rewrite (mk_bits _ _ _ _ Hm).
    rewrite (Hown j Hj). apply orb_true_r.
Qed.

(** ** Boot *)

Lemma free_loop_spec k : forall s f, wf_pmm s -> 0 <= f ->
  f + Z.of_nat k <= s_alloc_ceiling_frame s ->
  (forall j, f <= j < f + Z.of_nat k -> used s j = true) ->
  exists s', free_loop k s f = Some s' /\ wf_pmm s' /\
    range_changed s s' f (f + Z.of_nat k) false.
Proof.
  induction k as [|k IH]; intros s f Hwf Hf Hk Hu; cbn [free_loop].
  { exists s. replace (f + Z.of_nat 0) with f by lia.
    split_and!; [done|done|apply range_changed_refl]. }
  replace (f + Z.of_nat (S k)) with (f + 1 + Z.of_nat k) by lia.
  destruct (frame_set_free_spec s f Hwf) as (s1 & H1 & Hwf1 & Hch & _); [lia|apply Hu; lia|].
  run_bind H1. destruct (IH s1 (f + 1) Hwf1) as (s' & Hs' & Hwf' & Hrc); [lia| | |].
  { rewrite (fc_ceiling _ _ _ _ Hch). lia. }
  { intros j Hj. rewrite (fc_bits _ _ _ _ Hch). case_if; [lia|]. apply Hu. lia. }
  exists s'. split_and!; [done|done|]. eapply range_changed_cons; [done|done|lia].
Qed.

(** Page [f] lies inside entry [e]; page [f] meets the bytes of a range. *)
Definition page_in (e : boot_mmap_entry_t) (f : Z) : Prop :=
  entry_usable e = true /\ e_base e <= f * PAGE_SIZE /\ (f + 1) * PAGE_SIZE <= e_base e + e_length e.

Definition page_meets (f lo hi : Z) : Prop := f * PAGE_SIZE < hi /\ lo < (f + 1) * PAGE_SIZE.

(** A usable entry that ends below the last page of the 32-bit space. *)
Definition entry_ok (e : boot_mmap_entry_t) : Prop :=
  entry_usable e = true -> 0 <= e_base e /\ 0 <= e_length e /\
    e_base e + e_length e <= 0xFFFFF000.

Definition entries_apart (e1 e2 : boot_mmap_entry_t) : Prop :=
  forall f, page_in e1 f -> ~ page_in e2 f.

Lemma ADDR_TO_FRAME_div a : is_u32 a -> ADDR_TO_FRAME a = a / PAGE_SIZE.
Proof.
  intros Ha. unfold ADDR_TO_FRAME. rewrite u32_small by done.
  by rewrite Z.shiftr_div_pow2 by lia.
Qed.

Lemma frame_round_down a : is_u32 a -> ADDR_TO_FRAME (ALIGN_DOWN a PAGE_SIZE) = a / PAGE_SIZE.
Proof.
  intros Ha. rewrite ALIGN_DOWN_page by done.
  unfold is_u32, PAGE_SIZE in *. rewrite ADDR_TO_FRAME_div by (unfold is_u32; zlia).
  unfold PAGE_SIZE. zlia.
Qed.

Lemma frame_round_up a : 0 <= a <= 0xFFFFF000 ->
  ADDR_TO_FRAME (ALIGN_UP a PAGE_SIZE) = (a + 4095) / PAGE_SIZE.
Proof.
  intros Ha. rewrite ALIGN_UP_page by done. unfold PAGE_SIZE in *.
  rewrite ADDR_TO_FRAME_div by (unfold is_u32; zlia). unfold PAGE_SIZE. zlia.
Qed.

Lemma entry_pages e f : entry_usable e = true -> entry_ok e ->
  entry_first e <= f < entry_last e <-> page_in e f.
Proof.
  intros Hu Hok. destruct (Hok Hu) as (? & ? & ?). unfold entry_first, entry_last, page_in.
  rewrite (u32_small (e_base e)), (u32_small (e_base e + e_length e)) by lia.
  rewrite frame_round_up, frame_round_down by (unfold is_u32; lia). unfold PAGE_SIZE.
  split; [intros; split; [done|]; zlia|intros [_ ?]; zlia].
Qed.

(** [s'] has the zone limits of [s]. *)
Definition same_limits (s s' : pmm) : Prop :=
  s_total_frames s' = s_total_frames s /\
  s_alloc_ceiling_frame s' = s_alloc_ceiling_frame s /\
  s_dma_limit_frame s' = s_dma_limit_frame s.

Definition release_entry (s : pmm) (e : boot_mmap_entry_t) : option pmm :=
  if entry_usable e then
    free_loop (Z.to_nat (Z.min (entry_last e) (s_alloc_ceiling_frame s) - entry_first e))
      s (entry_first e)
  else Some s.

Lemma release_entry_spec s e : wf_pmm s -> entry_ok e ->
  (forall f, page_in e f -> used s f = true) ->
  exists s', release_entry s e = Some s' /\ wf_pmm s' /\ same_limits s s' /\
    forall f, used s' f = false <->
      used s f = false \/ f < s_alloc_ceiling_frame s /\ page_in e f.
Proof.
  intros Hwf Hok Hused. unfold release_entry. destruct (entry_usable e) eqn:Hu.
  2:{ exists s. split_and!; try done. intros f. split; [by left|].
      intros [?|[_ [? _]]]; congruence. }
  assert (0 <= entry_first e) as Hfirst by apply ADDR_TO_FRAME_nonneg.
  set (k := Z.min (entry_last e) (s_alloc_ceiling_frame s) - entry_first e).
  assert (forall j, entry_first e <= j < entry_first e + k <->
            j < s_alloc_ceiling_frame s /\ page_in e j) as Hpg.
  { intros j. rewrite <- (entry_pages e j Hu Hok). lia. }
  assert (forall lo, Z.max 0 k = lo -> lo = Z.of_nat (Z.to_nat k)) as Hk by lia.
  destruct (Z.le_gt_cases k 0) as [Hle|Hgt].
  - rewrite (Z2Nat.nonpos k Hle). exists s. split_and!; try done. intros f.
    split; [by left|]. intros [?|Hf]; [done|]. apply Hpg in Hf. lia.
  - destruct (free_loop_spec (Z.to_nat k) s (entry_first e) Hwf Hfirst)
      as (s' & Hs' & Hwf' & [R1 R2 R3 R4 R5 R6]); [lia| |].
    { intros j Hj. apply Hused, Hpg. lia. }
    exists s'. split_and!; try done. intros f. rewrite R1, <- Hpg. unfold in_run.
    rewrite Z2Nat.id by lia. repeat case_cmp; cbn; split; try tauto; try lia;
      (intros [?|?]; [done|lia]).
Qed.

Lemma release_entries_spec mmap : forall s, wf_pmm s -> Forall entry_ok mmap ->
  ForallOrdPairs entries_apart mmap ->
  (forall f e, e ∈ mmap -> page_in e f -> used s f = true) ->
  exists s', release_entries s mmap = Some s' /\ wf_pmm s' /\ same_limits s s' /\
    forall f, used s' f = false <-> used s f = false \/
       f < s_alloc_ceiling_frame s /\ exists e, e ∈ mmap /\ page_in e f.
Proof.
  induction mmap as [|e mmap IH]; intros s Hwf Hok Hap Hused; cbn [release_entries].
  { exists s. split_and!; try done. intros f. split; [by left|].
    intros [?|(_ & e & He & _)]; [done|]. by apply not_elem_of_nil in He. }
  inversion_clear Hok as [|? ? Hoke Hok']. inversion_clear Hap as [|? ? Hape Hap'].
  destruct (release_entry_spec s e Hwf Hoke) as (s1 & H1 & Hwf1 & (T1 & C1 & D1) & B1);
    [intros f; apply Hused; by left|].
  unfold release_entry in H1. run_bind H1.
  destruct (IH s1 Hwf1 Hok' Hap') as (s' & Hs' & Hwf' & (T2 & C2 & D2) & B2).
  { intros f x Hx Hp. destruct (used s1 f) eqn:Hf; [done|]. exfalso.
    apply B1 in Hf as [Hf|[_ Hf]].
    - rewrite (Hused f x) in Hf; [done|by right|done].
    - rewrite Forall_forall in Hape. by eapply (Hape x). }
  exists s'. unfold same_limits. split_and!; try done || congruence. intros f.
  rewrite B2, B1, C1. setoid_rewrite elem_of_cons. split.
  - intros [[?|[? ?]]|(? & x & ? & ?)]; [by left|right..]; (split; [done|]); eauto.
  - intros [?|(? & x & [->|?] & ?)]; eauto 6.
Qed.

(** Boot reservations, as [(base, size)] ranges. *)
Definition boot_ranges (kernel_end : Z) (mods : list boot_module_t) : list (Z * Z) :=
  (0, 0x100000) :: (0x100000, kernel_end ⊟ 0x100000) ::
  map (fun m => (phys_start m, phys_end m ⊟ phys_start m)) mods.

Definition range_ok (r : Z * Z) : Prop := 0 <= r.1 /\ 0 <= r.2 /\ r.1 + r.2 <= 0xFFFFF000.

Fixpoint mark_ranges (s : pmm) (rs : list (Z * Z)) : option pmm :=
  match rs with
  | [] => Some s
  | r :: rest => s1 ← pmm_mark_used s r.1 r.2; mark_ranges s1 rest
  end.

Lemma reserve_is_ranges s kernel_end mods :
  reserve_critical_regions s kernel_end mods = mark_ranges s (boot_ranges kernel_end mods).
Proof.
  unfold reserve_critical_regions, boot_ranges. cbn [mark_ranges fst snd].
  destruct (pmm_mark_used s 0 0x100000) as [s1|]; [|done]. cbn.
  destruct (pmm_mark_used s1 0x100000 _) as [s2|]; [|done]. cbn.
  revert s2. induction mods as [|m mods IH]; intros s2; [done|]. cbn.
  destruct (pmm_mark_used s2 _ _); [apply IH|done].
Qed.

Lemma mark_pages pa size f : range_ok (pa, size) ->
  mark_first pa <= f < mark_last pa size <-> page_meets f pa (pa + size).
Proof.
  unfold range_ok, mark_first, mark_last, page_meets. cbn. intros (? & ? & ?).
  rewrite (u32_small (pa + size)) by lia.
  rewrite frame_round_up, frame_round_down by (unfold is_u32; lia).
  unfold PAGE_SIZE. split; intros; zlia.
Qed.

Lemma mark_ranges_spec rs : forall s, wf_pmm s -> Forall range_ok rs ->
  exists s', mark_ranges s rs = Some s' /\ wf_pmm s' /\ same_limits s s' /\
    forall f, f < s_total_frames s ->
      used s' f = false <-> used s f = false /\
        ~ exists r, r ∈ rs /\ page_meets f r.1 (r.1 + r.2).
Proof.
  induction rs as [|[pa size] rs IH]; intros s Hwf Hok; cbn [mark_ranges fst snd].
  { exists s. split_and!; try done. intros f _. split; [|tauto]. split; [done|].
    intros (r & Hr & _). by apply not_elem_of_nil in Hr. }
  inversion_clear Hok as [|? ? Hr Hok'].
  destruct (mark_used_spec s pa size Hwf) as (s1 & H1 & Hwf1 & [B1 T1 C1 D1]). run_bind H1.
  destruct (IH s1 Hwf1 Hok') as (s' & Hs' & Hwf' & (T2 & C2 & D2) & B2).
  exists s'. unfold same_limits. split_and!; try done || congruence.
  intros f Hf. rewrite B2, B1, orb_false_iff by congruence. setoid_rewrite elem_of_cons.
  assert (in_run (mark_first pa) (Z.min (mark_last pa size) (s_total_frames s)) f = false
          <-> ~ page_meets f pa (pa + size)) as ->.
  { rewrite <- (mark_pages pa size f Hr). unfold in_run.
    repeat case_cmp; cbn; split; done || lia. }
  split.
  - intros [[Hm Hu] Hno]. split; [done|]. intros (r & [->|Hin] & Hp); [done|]. by apply Hno; exists r.
  - intros [Hu Hno]. split_and!; [|done|].
    + intros Hp. apply Hno. exists (pa, size). auto.
    + intros (r & Hin & Hp). apply Hno. exists r. auto.
Qed.

(** ** pmm_init *)

Definition BM_WORDS : nat := Z.to_nat (MAX_FRAMES / 32).

(** What the boot loader hands over: usable entries below the last page and apart,
    at least one page of RAM, a direct map that holds the DMA zone, and modules and
    a kernel image with sane bounds. *)
Record boot_ok (mmap : list boot_mmap_entry_t) (dm_limit kernel_end : Z)
    (mods : list boot_module_t) : Prop := {
  bo_entries : Forall entry_ok mmap;
  bo_apart : ForallOrdPairs entries_apart mmap;
  bo_top : PAGE_SIZE <= mmap_usable_top mmap;
  bo_dm : PMM_DMA_LIMIT <= dm_limit < 0x100000000;
  bo_ranges : Forall range_ok (boot_ranges kernel_end mods)
}.

Lemma mmap_top_u32 mmap : is_u32 (mmap_usable_top mmap).
Proof.
  unfold mmap_usable_top. assert (is_u32 0) as H0 by (unfold is_u32; lia).
  revert H0. generalize 0. induction mmap as [|e mmap IH]; intros top Htop; [done|]. cbn.
  apply IH. repeat case_match; try done. apply u32_range.
Qed.

Lemma bits_all_ones n f : 0 <= f < 32 * Z.of_nat n ->
  bitat (replicate n 0xFFFFFFFF) f = true.
Proof.
  intros Hf. unfold bitat, geti. case_if; [zlia|].
  rewrite lookup_replicate_2 by zlia.
  change 0xFFFFFFFF with (Z.ones 32). apply Z.ones_spec_low. zlia.
Qed.

Lemma count_free_none bm lo hi :
  (forall f, lo <= f < hi -> bitat bm f = true) -> count_free bm lo hi = 0.
Proof.
  intros Hall. unfold count_free.
  destruct (filter _ _) as [|x l] eqn:Hf; [done|]. exfalso.
  assert (x ∈ x :: l) as Hx by (by left). rewrite <- Hf, list_elem_of_filter, elem_of_seqZ in Hx.
  destruct Hx as [Hx ?]. rewrite Hall in Hx by lia. done.
Qed.

(** [bm'] has every bit of [bm] set. *)
Lemma wf_all_used s : MAX_FRAMES <= 32 * Z.of_nat (length (s_bitmap s)) ->
  0 <= s_total_frames s <= MAX_FRAMES -> 1 <= s_dma_limit_frame s <= s_alloc_ceiling_frame s ->
  s_alloc_ceiling_frame s <= s_total_frames s ->
  wf_pmm (with_bitmap s (replicate (length (s_bitmap s)) 0xFFFFFFFF) 0 0
            (s_hint_dma s) (s_hint_normal s)).
Proof.
  intros Hlen Ht Hd Hc. constructor; cbn; rewrite ?length_replicate; try lia.
  - apply Forall_replicate. unfold is_u32. lia.
  - intros f Hf. unfold used. cbn. apply bits_all_ones. lia.
  - symmetry. apply count_free_none. intros f Hf. apply bits_all_ones. lia.
  - symmetry. apply count_free_none. intros f Hf. apply bits_all_ones. lia.
Qed.

(** C30: boot.  From a sane boot map [pmm_init] succeeds, leaves the invariant (exact
    counters included), caps the pool at the direct map, and a frame is free exactly
    when it lies inside a usable entry and no reserved range touches it. *)
Theorem pmm_init_establishes s mmap dm_limit kernel_end mods :
  length (s_bitmap s) = BM_WORDS -> boot_ok mmap dm_limit kernel_end mods ->
  exists s', pmm_init s mmap dm_limit kernel_end mods = Some s' /\ wf_pmm s' /\
    s_alloc_ceiling_frame s'
      = Z.min (mmap_usable_top mmap / PAGE_SIZE) (dm_limit / PAGE_SIZE) /\
    forall f, 0 <= f < s_alloc_ceiling_frame s' ->
      used s' f = false <->
        (exists e, e ∈ mmap /\ page_in e f) /\
        ~ exists r, r ∈ boot_ranges kernel_end mods /\ page_meets f r.1 (r.1 + r.2).
Proof.
  intros Hlen [He Ha Ht Hd Hr]. pose proof (mmap_top_u32 mmap) as Htu.
  unfold pmm_init, release_available_regions.
  set (s1 := measure_usable_ram s mmap dm_limit).
  assert (s_total_frames s1 = mmap_usable_top mmap / PAGE_SIZE /\
          s_alloc_ceiling_frame s1
            = Z.min (mmap_usable_top mmap / PAGE_SIZE) (dm_limit / PAGE_SIZE) /\
          s_dma_limit_frame s1 = Z.min 4096 (mmap_usable_top mmap / PAGE_SIZE))
    as (T1 & C1 & D1).
  { unfold s1, measure_usable_ram. cbn.
    rewrite (ADDR_TO_FRAME_div (mmap_usable_top mmap)), (ADDR_TO_FRAME_div dm_limit),
      (ADDR_TO_FRAME_div PMM_DMA_LIMIT) by (unfold is_u32, PMM_DMA_LIMIT in *; lia).
    unfold is_u32, PMM_DMA_LIMIT, PAGE_SIZE, MAX_FRAMES in *.
    split_and!; [zlia| |zlia]. case_if; zlia. }
  assert (Z.of_nat (length (s_bitmap s1)) = 0x8000) as HL by (cbn; rewrite Hlen; done).
  unfold is_u32, PMM_DMA_LIMIT, PAGE_SIZE in *.
  assert (wf_pmm (with_bitmap s1 (replicate (length (s_bitmap s1)) 0xFFFFFFFF) 0 0
            (s_hint_dma s1) (s_hint_normal s1))) as Hwf.
  { apply wf_all_used; rewrite ?HL, ?T1, ?C1, ?D1; unfold MAX_FRAMES; zlia. }
  set (s2 := with_bitmap s1 _ _ _ _ _) in *.
  assert (forall f, 0 <= f < 0x100000 -> used s2 f = true) as Hall.
  { intros f Hf. apply bits_all_ones. rewrite HL. lia. }
  assert (forall f e, page_in e f -> e ∈ mmap -> 0 <= f < 0x100000) as Hpg.
  { intros f e (Hu & ? & ?) Hin. rewrite Forall_forall in He.
    destruct (He e Hin Hu) as (? & ? & ?). unfold PAGE_SIZE in *. lia. }
  destruct (release_entries_spec mmap s2 Hwf He Ha) as (s3 & H3 & Hwf3 & (T3 & C3 & D3) & B3);
    [by eauto|]. run_bind H3.
  rewrite reserve_is_ranges.
  destruct (mark_ranges_spec _ s3 Hwf3 Hr) as (s4 & H4 & Hwf4 & (T4 & C4 & D4) & B4). run_bind H4.
  change (s_alloc_ceiling_frame s2) with (s_alloc_ceiling_frame s1) in *.
  change (s_total_frames s2) with (s_total_frames s1) in *.
  rewrite ADDR_TO_FRAME_div by (unfold is_u32; lia). unfold PAGE_SIZE.
  rewrite (proj2 (Z.ltb_ge (dm_limit / 4096) (s_alloc_ceiling_frame s4))) by lia.
  eexists. split; [done|]. split; [by apply wf_set_hint, wf_set_hint|].
  change (s_alloc_ceiling_frame (set_hint (set_hint s4 _ _) _ _)) with (s_alloc_ceiling_frame s4).
  split; [congruence|]. intros f Hf. change (used (set_hint _ _ _) f) with (used s4 f).
  rewrite B4, B3 by lia. rewrite Hall by zlia.
  split; intros [Hx ?]; (split; [|done]); [destruct Hx as [?|[_ ?]]; done|].
  right. split; [lia|done].
Qed.

Lemma pmm_init_establishes_witness :
  exists s', pmm_init (mk_pmm (replicate BM_WORDS 0) 0 0 0 0 0 0 0 0)
               [mk_mmap 0 0x9F000 1; mk_mmap 0x9F000 0x1000 2; mk_mmap 0x100000 0x1F00000 1]
               0x10000000 0x180000 [mk_module 0x200000 0x280123] = Some s' /\ wf_pmm s'.
Proof.
  destruct (pmm_init_establishes (mk_pmm (replicate BM_WORDS 0) 0 0 0 0 0 0 0 0)
    [mk_mmap 0 0x9F000 1; mk_mmap 0x9F000 0x1000 2; mk_mmap 0x100000 0x1F00000 1]
    0x10000000 0x180000 [mk_module 0x200000 0x280123]) as (s' & Hs & Hwf & _).
  - apply length_replicate.
  - split.
    + repeat constructor; cbn; lia.
    + repeat constructor; unfold entries_apart, page_in; intros f [H1 H2] [H3 H4];
        cbn in *; unfold PAGE_SIZE in *; try discriminate; lia.
    + vm_compute. discriminate.
    + unfold PMM_DMA_LIMIT. lia.
    + unfold boot_ranges. cbn [map phys_start phys_end].
      repeat constructor; vm_compute; discriminate.
  - exists s'. split; assumption.
Defined.

(** ** The properties *)

Lemma free_frame_page s f : wf_pmm s -> 1 <= f < s_alloc_ceiling_frame s ->
  exists s', pmm_free_frame s (f * PAGE_SIZE) = Some s' /\ wf_pmm s' /\ released s s' f.
Proof.
  intros Hwf Hf. pose proof (wfp_limits s Hwf). pose proof (wfp_total s Hwf).
  unfold pmm_free_frame. change (PAGE_SIZE - 1) with (Z.ones 12).
  rewrite Z.land_ones by lia. change (2 ^ 12) with PAGE_SIZE.
  rewrite Z.mod_mul by (unfold PAGE_SIZE; lia). cbn [Z.eqb negb].
  rewrite ADDR_TO_FRAME_page by lia.
  destruct (release_frame_spec s f Hwf) as (b & s' & Hs' & Hwf' & Hrel); [lia|].
  rewrite Hs'. by exists s'.
Qed.

(** C29: frames.  On any state satisfying the invariant [pmm_alloc_frame] returns, keeps
    the invariant, and serves the request from the first zone of its flags that is not
    full (DMA requests never leave the DMA zone): the frame was free and is the only
    one that changes; the answer is 0 exactly when every eligible zone is full.
    Freeing the frame restores every bit and the counter, and freeing it again only
    counts a double free. *)
Theorem pmm_alloc_frame_correct s fl : wf_pmm s ->
  exists r s', pmm_alloc_frame s fl = Some (r, s') /\ wf_pmm s' /\
    served s s' r (zones_of s fl) /\
    (r <> 0 -> exists s2 s3, pmm_free_frame s' r = Some s2 /\ wf_pmm s2 /\
       (forall j, used s2 j = used s j) /\ s_free_frames s2 = s_free_frames s /\
       pmm_free_frame s2 r = Some s3 /\ s_bitmap s3 = s_bitmap s2 /\
       s_free_frames s3 = s_free_frames s2 /\
       s_double_free_caught s3 = s_double_free_caught s ⊞ 1).
Proof.
  intros Hwf. destruct (alloc_frame_served s fl Hwf) as (r & s' & Hr & Hwf' & Hs).
  exists r, s'. split_and!; [done..|]. intros Hne.
  assert (exists f, 1 <= f < s_alloc_ceiling_frame s /\ used s f = false /\ r = f * PAGE_SIZE /\
    frame_changed s s' f true /\ s_free_frames s' = s_free_frames s - 1)
    as (f & Hf & Hu & -> & Hch & Hfr).
  { pose proof (zones_of_in s fl Hwf) as Hz. clear Hr.
    induction Hs as [z zs (f & Hf & Hx)| |]; [|inversion_clear Hz; auto|done].
    exists f. inversion_clear Hz. split; [lia|done]. }
  destruct (free_frame_page s' f Hwf') as (s2 & Hs2 & Hwf2 & Hrel);
    [rewrite (fc_ceiling _ _ _ _ Hch); lia|].
  unfold released in Hrel.
  rewrite (fc_ceiling _ _ _ _ Hch), (fc_bits _ _ _ _ Hch), Z.eqb_refl,
    (proj2 (Z.eqb_neq f 0)), (proj2 (Z.leb_gt _ f)) in Hrel by lia. cbn in Hrel.
  destruct Hrel as [Hch2 Hfr2].
  destruct (free_frame_page s2 f Hwf2) as (s3 & Hs3 & Hwf3 & Hrel);
    [rewrite (fc_ceiling _ _ _ _ Hch2), (fc_ceiling _ _ _ _ Hch); lia|].
  unfold released in Hrel.
  rewrite (fc_ceiling _ _ _ _ Hch2), (fc_ceiling _ _ _ _ Hch), (fc_bits _ _ _ _ Hch2),
    Z.eqb_refl, (proj2 (Z.eqb_neq f 0)), (proj2 (Z.leb_gt _ f)) in Hrel by lia. cbn in Hrel.
  exists s2, s3. split_and!; try done; try lia; try (by subst s3).
  - intros j. rewrite (fc_bits _ _ _ _ Hch2), (fc_bits _ _ _ _ Hch).
    destruct (Z.eqb_spec j f) as [->|]; done.
  - subst s3. cbn. by rewrite (fc_df _ _ _ _ Hch2), (fc_df _ _ _ _ Hch).
Qed.

Definition demo_pmm : pmm := mk_pmm [0x1; 0x0] 64 64 16 63 15 1 16 0.

Lemma demo_pmm_wf : wf_pmm demo_pmm.
Proof.
  constructor; cbn; unfold MAX_FRAMES; try lia.
  - repeat constructor; unfold is_u32; lia.
  - by vm_compute.
  - by vm_compute.
Qed.

Lemma pmm_alloc_frame_correct_witness :
  wf_pmm demo_pmm /\ exists r s', pmm_alloc_frame demo_pmm PMM_ZONE_DMA = Some (r, s') /\
    r = 0x1000 /\ wf_pmm s'.
Proof.
  split; [apply demo_pmm_wf|].
  destruct (pmm_alloc_frame_correct demo_pmm PMM_ZONE_DMA demo_pmm_wf) as (r & s' & Hr & Hwf & _).
  exists r, s'. split_and!; [done| |done]. vm_compute in Hr. congruence.
Defined.

(** contiguous runs.  For a positive count [pmm_alloc_contiguous] returns and takes
    exactly the first free run of that length in the first eligible zone having one;
    0 means that no eligible zone has such a run. *)
Theorem pmm_alloc_contiguous_first_fit s n fl : wf_pmm s -> 1 <= n ->
  exists r s', pmm_alloc_contiguous s n fl = Some (r, s') /\ wf_pmm s' /\
    run_served s s' n r (zones_of s fl).
Proof. apply alloc_contiguous_served. Qed.

Lemma pmm_alloc_contiguous_first_fit_witness :
  exists r s', pmm_alloc_contiguous demo_pmm 20 0 = Some (r, s') /\ r = 0x10000 /\ wf_pmm s'.
Proof.
  destruct (pmm_alloc_contiguous_first_fit demo_pmm 20 0 demo_pmm_wf ltac:(lia))
    as (r & s' & Hr & Hwf & _).
  exists r, s'. split_and!; [done| |done]. vm_compute in Hr. congruence.
Defined.

(** C2: histories.  Over any sequence of allocations, frees (double, unaligned and foreign
    ones included) and reservations, the counters stay exact, the pressure a percentage,
    every frame a client holds is marked used, and no allocation ever returns a frame
    that is still held. *)
Theorem pmm_histories s0 s live :
  wf_pmm s0 -> reachable pmm_step (s0, fun _ => False) (s, live) ->
  wf_pmm s /\ 0 <= pressure (pmm_get_stats s) <= 100 /\
  free_frames (pmm_get_stats s) = count_free (s_bitmap s) 0 (s_alloc_ceiling_frame s) /\
  forall fl n, 1 <= n -> exists r s1 b s2,
    pmm_alloc_frame s fl = Some (r, s1) /\ (r <> 0 -> ~ live (ADDR_TO_FRAME r)) /\
    pmm_alloc_contiguous s n fl = Some (b, s2) /\
    (b <> 0 -> forall j, in_run (ADDR_TO_FRAME b) (ADDR_TO_FRAME b + n) j = true -> ~ live j).
Proof.
  intros Hwf0 Hr.
  assert (owned_used (s, live)) as [Hwf Hown].
  { eapply (reachable_ind_inv pmm_step owned_used); [|apply pmm_step_inv|exact Hr].
    split; [done|]. by intros j []. }
  cbn in *. split; [done|]. split.
  { unfold pmm_get_stats. cbn. pose proof (wfp_limits s Hwf). pose proof (wfp_total s Hwf).
    pose proof (count_free_bounds (s_bitmap s) 0 (s_alloc_ceiling_frame s)) as Hc.
    rewrite <- (wfp_free s Hwf) in Hc. unfold MAX_FRAMES in *.
    rewrite (proj2 (Z.eqb_neq _ 0)) by lia.
    rewrite (u32_small (_ - _)), u32_small by lia.
    split; [apply Z.div_pos; lia|]. apply Z.div_le_upper_bound; lia. }
  split; [apply Hwf|]. intros fl n Hn.
  destruct (alloc_frame_served s fl Hwf) as (r & s1 & H1 & _ & Hs1).
  destruct (alloc_contiguous_served s n fl Hwf Hn) as (b & s2 & H2 & _ & Hs2).
  exists r, s1, b, s2. split_and!; [done| |done|].
  - intros Hne Hl%Hown.
    destruct (served_frame _ _ _ _ (zones_of_in s fl Hwf) Hwf Hs1) as [[? _]|[? _]]; congruence.
  - intros Hne j Hj Hl%Hown.
    destruct (run_served_frames _ _ _ _ _ (zones_of_in s fl Hwf) Hwf Hn Hs2) as [[? _]|[Hf _]];
      [done|].
    unfold in_run in Hj. bool_to_prop. rewrite (Hf j) in Hl by lia. done.
Qed.

Lemma pmm_histories_witness :
  exists s live, reachable pmm_step (demo_pmm, fun _ => False) (s, live) /\ live 1 /\
    wf_pmm s /\ s_double_free_caught s = 1.
Proof.
  pose (st1 := default demo_pmm (snd <$> pmm_alloc_frame demo_pmm PMM_ZONE_DMA)).
  pose (st2 := default demo_pmm (pmm_free_frame st1 0x5000)).
  assert (reachable pmm_step (demo_pmm, fun _ => False)
    (st2, fun j => (False \/ 0x1000 <> 0 /\ j = ADDR_TO_FRAME 0x1000) /\ j <> ADDR_TO_FRAME 0x5000))
    as Hr.
  { apply (reach_step _ _ (st1, fun j => False \/ 0x1000 <> 0 /\ j = ADDR_TO_FRAME 0x1000)).
    - apply (reach_step _ _ (demo_pmm, fun _ => False)); [constructor|].
      apply (ps_alloc demo_pmm (fun _ => False) PMM_ZONE_DMA 0x1000 st1). by vm_compute.
    - apply (ps_free st1 _ 0x5000 st2). by vm_compute. }
  do 2 eexists. split; [exact Hr|]. split; [|split].
  - vm_compute. split; [right; split|]; congruence.
  - exact (proj1 (pmm_histories demo_pmm _ _ demo_pmm_wf Hr)).
  - by vm_compute.
Defined.

(** A usable region that crosses 4 GB is measured by its wrapped end. *)
Remark mmap_top_wraps : mmap_usable_top [mk_mmap 0x100000 0xFFF00000 1] = 0.
Proof. by vm_compute. Qed.
