(* ===== verification/Mem.v ===== *)
(** * Byte-addressed memory

    The store the string and formatting routines run on: a finite map from 32-bit
    addresses to bytes.  An access outside the map is [None], the undefined behaviour
    or fault of the machine, so a theorem that a routine returns [Some] is a
    memory-safety claim.  Dwords are little endian.  The file has the block-copy
    relation and the C-string predicates the users share. *)

From S2P Require Import Prelude.

Abbreviation mem := (gmap Z Z).

Definition load8 (m : mem) (a : Z) : option Z := m !! u32 a.

Definition store8 (m : mem) (a v : Z) : option mem :=
  _ ← load8 m a; Some (<[u32 a := u8 v]> m).

Definition load32 (m : mem) (a : Z) : option Z :=
  b0 ← load8 m a; b1 ← load8 m (a + 1); b2 ← load8 m (a + 2); b3 ← load8 m (a + 3);
  Some (b0 + 0x100 * b1 + 0x10000 * b2 + 0x1000000 * b3).

Definition store32 (m : mem) (a v : Z) : option mem :=
  m1 ← store8 m a v;
  m2 ← store8 m1 (a + 1) (Z.shiftr v 8);
  m3 ← store8 m2 (a + 2) (Z.shiftr v 16);
  store8 m3 (a + 3) (Z.shiftr v 24).

(** Every cell holds a byte. *)
Definition bytes_ok (m : mem) : Prop := forall a v, m !! a = Some v -> is_u8 v.

(** The [n] cells from [a] exist and do not wrap around the address space. *)
Definition mapped (m : mem) (a n : Z) : Prop :=
  0 <= a /\ a + n < 0x100000000 /\ forall i, 0 <= i < n -> exists v, m !! (a + i) = Some v.

Lemma load8_mapped m a n i : mapped m a n -> 0 <= i < n ->
  exists v, load8 m (a + i) = Some v /\ m !! (a + i) = Some v.
Proof.
  intros (Ha & Hn & Hm) Hi. unfold load8. rewrite u32_small by lia.
  destruct (Hm i Hi) as [v ->]. by exists v.
Qed.

Lemma store8_spec m a v : bytes_ok m -> 0 <= a < 0x100000000 -> is_Some (m !! a) ->
  store8 m a v = Some (<[a := u8 v]> m) /\ bytes_ok (<[a := u8 v]> m).
Proof.
  intros Hok Ha [x Hx]. unfold store8, load8. rewrite u32_small, Hx by lia. split; [done|].
  intros b w. destruct (decide (b = a)) as [->|Hne].
  - rewrite lookup_insert_eq. intros [= <-]. apply u8_range.
  - rewrite lookup_insert_ne by done. apply Hok.
Qed.

(** [m'] is [m] with [g] written over the [n] cells from [d]. *)
Definition written (m m' : mem) (d n : Z) (g : Z -> option Z) : Prop :=
  bytes_ok m' /\
  forall a, m' !! a = if (d <=? a) && (a <? d + n) then g (a - d) else m !! a.

Lemma written_nil m d g : bytes_ok m -> written m m d 0 g.
Proof. intros Hm. split; [done|]. intros a. repeat case_cmp; cbn; done || lia. Qed.

Lemma written_byte m a v : bytes_ok m -> 0 <= a < 0x100000000 -> is_Some (m !! a) ->
  exists m', store8 m a v = Some m' /\ written m m' a 1 (fun _ => Some (u8 v)).
Proof.
  intros Hok Ha Hx. destruct (store8_spec m a v Hok Ha Hx) as [Hs Hb].
  eexists. split; [exact Hs|]. split; [done|]. intros b. destruct (decide (b = a)) as [->|Hne].
  - rewrite lookup_insert_eq. repeat case_cmp; cbn; done || lia.
  - rewrite lookup_insert_ne by done. repeat case_cmp; cbn; done || lia.
Qed.

(** Two adjacent writes are one write. *)
Lemma written_app m m1 m2 d n1 n2 g1 g2 g :
  0 <= n1 -> 0 <= n2 -> written m m1 d n1 g1 -> written m1 m2 (d + n1) n2 g2 ->
  (forall i, 0 <= i < n1 -> g i = g1 i) -> (forall i, 0 <= i < n2 -> g (n1 + i) = g2 i) ->
  written m m2 d (n1 + n2) g.
Proof.
  intros Hn1 Hn2 [_ H1] [Hok H2] Hg1 Hg2. split; [done|]. intros a. rewrite H2, H1.
  repeat case_cmp; cbn; try lia; try done;
    first [by rewrite Hg1 by lia | rewrite <- (Hg2 (a - (d + n1))) by lia; f_equal; lia].
Qed.

Lemma written_app_back m m1 m2 d n1 n2 g1 g2 g :
  0 <= n1 -> 0 <= n2 -> written m m1 (d + n1) n2 g2 -> written m1 m2 d n1 g1 ->
  (forall i, 0 <= i < n1 -> g i = g1 i) -> (forall i, 0 <= i < n2 -> g (n1 + i) = g2 i) ->
  written m m2 d (n1 + n2) g.
Proof.
  intros Hn1 Hn2 [_ H1] [Hok H2] Hg1 Hg2. split; [done|]. intros a. rewrite H2, H1.
  repeat case_cmp; cbn; try lia; try done;
    first [by rewrite Hg1 by lia | rewrite <- (Hg2 (a - (d + n1))) by lia; f_equal; lia].
Qed.

Lemma written_ext m m' d n g g' :
  written m m' d n g -> (forall i, 0 <= i < n -> g' i = g i) -> written m m' d n g'.
Proof.
  intros [Hok H] Hg. split; [done|]. intros a. rewrite H.
  repeat case_cmp; cbn; try done. rewrite Hg by lia. done.
Qed.

Lemma written_mapped m m' d n g a k : written m m' d n g ->
  (forall i, 0 <= i < n -> is_Some (g i)) -> mapped m a k -> mapped m' a k.
Proof.
  intros [_ H] Hg (Ha & Hk & Hm). split_and!; [done|done|]. intros i Hi. rewrite H.
  repeat case_cmp; cbn; auto. apply Hg. lia.
Qed.

(** A dword written is four bytes written. *)
Lemma byte_of_dword b0 b1 b2 b3 i : is_u8 b0 -> is_u8 b1 -> is_u8 b2 -> is_u8 b3 ->
  0 <= i < 4 ->
  u8 (Z.shiftr (b0 + 0x100 * b1 + 0x10000 * b2 + 0x1000000 * b3) (8 * i))
  = if i =? 0 then b0 else if i =? 1 then b1 else if i =? 2 then b2 else b3.
Proof.
  unfold is_u8, u8. intros. rewrite Z.shiftr_div_pow2 by lia.
  assert (i = 0 \/ i = 1 \/ i = 2 \/ i = 3) as [->|[->|[->| ->]]] by lia; cbn [Z.eqb Pos.eqb];
    [change (2 ^ (8 * 0)) with 1|change (2 ^ (8 * 1)) with 0x100
    |change (2 ^ (8 * 2)) with 0x10000|change (2 ^ (8 * 3)) with 0x1000000]; zlia.
Qed.

Lemma store32_spec m a v : bytes_ok m -> mapped m a 4 ->
  exists m', store32 m a v = Some m' /\
    written m m' a 4 (fun i => Some (u8 (Z.shiftr v (8 * i)))).
Proof.
  intros Hok (Ha & Hn & Hm). unfold store32.
  assert (forall i, 0 <= i < 4 -> is_Some (m !! (a + i))) as Hs by (intros i Hi; apply Hm, Hi).
  destruct (written_byte m a v Hok) as (m1 & H1 & W1);
    [lia|by rewrite <- (Z.add_0_r a); apply Hs; lia|]. run_bind H1.
  assert (forall k i mm g, 0 <= k -> k <= i < 4 -> written m mm a k g -> is_Some (mm !! (a + i))) as Hk.
  { intros k i mm g Hk0 Hk [_ Hw]. rewrite Hw. repeat case_cmp; cbn; try lia; apply Hs; lia. }
  destruct (written_byte m1 (a + 1) (Z.shiftr v 8) (proj1 W1)) as (m2 & H2 & W2);
    [lia|eapply (Hk 1); [lia|lia|done]|]. run_bind H2.
  pose proof (written_app m m1 m2 a 1 1 _ _ (fun i => Some (u8 (Z.shiftr v (8 * i))))
    ltac:(lia) ltac:(lia) W1 W2) as W12.
  cbn [Z.add] in W12. specialize (W12 ltac:(intros i Hi; by replace i with 0 by lia)
    ltac:(intros i Hi; by replace i with 0 by lia)).
  destruct (written_byte m2 (a + 2) (Z.shiftr v 16) (proj1 W12)) as (m3 & H3 & W3);
    [lia|eapply (Hk 2); [lia|lia|done]|]. run_bind H3.
  pose proof (written_app m m2 m3 a 2 1 _ _ (fun i => Some (u8 (Z.shiftr v (8 * i))))
    ltac:(lia) ltac:(lia) W12 W3 ltac:(done) ltac:(intros i Hi; by replace i with 0 by lia)) as W123.
  destruct (written_byte m3 (a + 3) (Z.shiftr v 24) (proj1 W123)) as (m4 & H4 & W4);
    [lia|eapply (Hk 3); [lia|lia|done]|].
  exists m4. split; [exact H4|].
  apply (written_app m m3 m4 a 3 1 _ _ _ ltac:(lia) ltac:(lia) W123 W4); [done|].
  intros i Hi. by replace i with 0 by lia.
Qed.

(** Loading a dword and storing it elsewhere copies its four bytes. *)
Lemma move32_spec m d s : bytes_ok m -> mapped m d 4 -> mapped m s 4 ->
  exists v m', load32 m s = Some v /\ store32 m d v = Some m' /\
    written m m' d 4 (fun i => m !! (s + i)).
Proof.
  intros Hok Hd Hs. unfold load32.
  destruct (load8_mapped m s 4 0 Hs) as (b0 & L0 & M0); [lia|].
  destruct (load8_mapped m s 4 1 Hs) as (b1 & L1 & M1); [lia|].
  destruct (load8_mapped m s 4 2 Hs) as (b2 & L2 & M2); [lia|].
  destruct (load8_mapped m s 4 3 Hs) as (b3 & L3 & M3); [lia|].
  rewrite Z.add_0_r in L0, M0.
  run_bind L0. run_bind L1. run_bind L2. run_bind L3.
  destruct (store32_spec m d (b0 + 0x100 * b1 + 0x10000 * b2 + 0x1000000 * b3) Hok Hd)
    as (m' & H & W).
  do 2 eexists. split; [done|]. split; [exact H|].
  eapply written_ext; [exact W|]. intros i Hi. cbn beta.
  rewrite byte_of_dword by eauto.
  assert (i = 0 \/ i = 1 \/ i = 2 \/ i = 3) as [->|[->|[->| ->]]] by lia; cbn; try done.
  by rewrite Z.add_0_r.
Qed.

(** ** C strings *)

(** The bytes [l], none of them NUL, then a NUL, from address [a]. *)
Fixpoint cstr (m : mem) (a : Z) (l : list Z) : Prop :=
  0 <= a < 0xFFFFFFFF /\
  match l with
  | [] => m !! a = Some 0
  | x :: l' => m !! a = Some x /\ x <> 0 /\ cstr m (a + 1) l'
  end.

Lemma cstr_range m a l : cstr m a l -> 0 <= a /\ a + Z.of_nat (length l) < 0xFFFFFFFF.
Proof.
  revert a. induction l as [|x l IH]; intros a [Ha Hl]; [cbn; lia|].
  destruct Hl as (_ & _ & Hl%IH). cbn [length]. lia.
Qed.

Lemma cstr_load m a l : cstr m a l -> load8 m a = Some (default 0 (head l)).
Proof.
  destruct l as [|x l]; cbn; intros [Ha Hl]; unfold load8; rewrite u32_small by lia; tauto.
Qed.

Lemma cstr_lookup m a l (i : nat) x : cstr m a l -> l !! i = Some x ->
  m !! (a + Z.of_nat i) = Some x /\ x <> 0.
Proof.
  revert a i. induction l as [|y l IH]; intros a [|i] [Ha Hl] Hx; try done.
  - cbn in Hx. injection Hx as ->. rewrite Z.add_0_r. tauto.
  - destruct Hl as (_ & _ & Hl). apply (IH (a + 1) i Hl) in Hx.
    by replace (a + Z.of_nat (S i)) with (a + 1 + Z.of_nat i) by lia.
Qed.

Lemma cstr_nul m a l : cstr m a l -> m !! (a + Z.of_nat (length l)) = Some 0.
Proof.
  revert a. induction l as [|x l IH]; intros a [Ha Hl]; cbn [length].
  - by rewrite Z.add_0_r.
  - destruct Hl as (_ & _ & Hl%IH).
    by replace (a + Z.of_nat (S (length l))) with (a + 1 + Z.of_nat (length l)) by lia.
Qed.

Lemma cstr_intro m a l : 0 <= a -> a + Z.of_nat (length l) < 0xFFFFFFFF ->
  (forall i x, l !! i = Some x -> m !! (a + Z.of_nat i) = Some x /\ x <> 0) ->
  m !! (a + Z.of_nat (length l)) = Some 0 -> cstr m a l.
Proof.
  revert a. induction l as [|x l IH]; intros a Ha Hr Hl H0; cbn in *.
  - split; [lia|]. by rewrite Z.add_0_r in H0.
  - split; [lia|]. destruct (Hl 0%nat x eq_refl) as [Hx Hne]. rewrite Z.add_0_r in Hx.
    split_and!; [done|done|]. apply IH; [lia|lia| |].
    + intros i y Hi. replace (a + 1 + Z.of_nat i) with (a + Z.of_nat (S i)) by lia. by apply Hl.
    + by replace (a + 1 + Z.of_nat (length l)) with (a + Z.of_nat (S (length l))) by lia.
Qed.

Lemma cstr_mapped m a l : cstr m a l -> mapped m a (Z.of_nat (length l) + 1).
Proof.
  intros Hc. pose proof (cstr_range _ _ _ Hc). split_and!; [lia|lia|]. intros i Hi.
  destruct (Z.eq_dec i (Z.of_nat (length l))) as [->|].
  - eexists. by apply cstr_nul.
  - destruct (lookup_lt_is_Some_2 l (Z.to_nat i)) as [x Hx]; [lia|]. exists x.
    destruct (cstr_lookup m a l (Z.to_nat i) x Hc Hx) as [Hm _].
    by replace (Z.of_nat (Z.to_nat i)) with i in Hm by lia.
Qed.

(** A write that misses the string leaves it. *)
Lemma cstr_written m m' d n g a l : written m m' d n g -> cstr m a l ->
  d + n <= a \/ a + Z.of_nat (length l) + 1 <= d -> cstr m' a l.
Proof.
  intros [_ Hw] Hc Hd. pose proof (cstr_range _ _ _ Hc).
  assert (forall b, a <= b <= a + Z.of_nat (length l) -> m' !! b = m !! b) as Hsame.
  { intros b Hb. rewrite Hw. repeat case_cmp; cbn; done || lia. }
  apply cstr_intro; [lia|lia| |].
  - intros i x Hx. rewrite Hsame by (apply lookup_lt_Some in Hx; lia). by eapply cstr_lookup.
  - rewrite Hsame by lia. by apply cstr_nul.
Qed.

(** ** Deciding the side conditions of a concrete memory *)

Definition bytes_okb (m : mem) : bool :=
  forallb (fun p => (0 <=? p.2) && (p.2 <? 0x100)) (map_to_list m).

Lemma bytes_okb_ok m : bytes_okb m = true -> bytes_ok m.
Proof.
  unfold bytes_okb. rewrite forallb_forall. intros H a v Hv.
  apply elem_of_map_to_list, list_elem_of_In in Hv. apply H in Hv. cbn in Hv.
  bool_to_prop. unfold is_u8. lia.
Qed.

Definition mappedb (m : mem) (a n : Z) : bool :=
  (0 <=? a) && (a + n <? 0x100000000) &&
  forallb (fun i => match m !! (a + i) with Some _ => true | None => false end) (seqZ 0 n).

Lemma mappedb_ok m a n : mappedb m a n = true -> mapped m a n.
Proof.
  unfold mappedb. intros H. bool_to_prop. split_and!; [lia|lia|]. intros i Hi.
  match goal with H : forallb _ _ = true |- _ => rewrite forallb_forall in H;
    specialize (H i) end.
  destruct (m !! (a + i)) as [v|]; [by exists v|]. exfalso.
  enough (false = true) by done. match goal with H : _ -> _ |- _ => apply H end.
  apply list_elem_of_In, elem_of_seqZ. lia.
Qed.
