(* ===== verification/KString.v ===== *)
(** * Memory and string routines (kernel/lib/string.c)

    The routines run on the byte memory of [Mem]; a pointer is a 32-bit address and
    the result an [option] that is [None] on an access outside the memory.  [rep movsl]
    and [rep stosl] are loops over dwords in the direction flag's order.  The scanning
    loops take fuel, and the theorems give the amount that is enough. *)

From S2P Require Import Prelude Mem.

(** ** copy_forward, copy_backward *)

(** [rep movsl] with the direction flag clear: [ecx] dwords, ascending. *)
Fixpoint rep_movsl (ecx : nat) (m : mem) (d s : Z) : option (mem * Z * Z) :=
  match ecx with
  | O => Some (m, d, s)
  | S ecx' => v ← load32 m s; m1 ← store32 m d v; rep_movsl ecx' m1 (d ⊞ 4) (s ⊞ 4)
  end.

(** [std; rep movsl; cld]: descending. *)
Fixpoint std_rep_movsl (ecx : nat) (m : mem) (d s : Z) : option mem :=
  match ecx with
  | O => Some m
  | S ecx' => v ← load32 m s; m1 ← store32 m d v; std_rep_movsl ecx' m1 (d ⊟ 4) (s ⊟ 4)
  end.

(** [while (trail--) *db++ = *sb++] *)
Fixpoint trail_forward (trail : nat) (m : mem) (db sb : Z) : option mem :=
  match trail with
  | O => Some m
  | S trail' => c ← load8 m sb; m1 ← store8 m db c; trail_forward trail' m1 (db ⊞ 1) (sb ⊞ 1)
  end.

(** [while (trail--) *--dt = *--st] *)
Fixpoint trail_backward (trail : nat) (m : mem) (dt st : Z) : option mem :=
  match trail with
  | O => Some m
  | S trail' =>
      c ← load8 m (st ⊟ 1); m1 ← store8 m (dt ⊟ 1) c;
      trail_backward trail' m1 (dt ⊟ 1) (st ⊟ 1)
  end.

Definition copy_forward (m : mem) (dst src n : Z) : option mem :=
  let dwords := Z.to_nat (Z.shiftr n 2) in
  let trail := Z.to_nat (Z.land n 3) in
  '(m1, d, s) ← rep_movsl dwords m dst src;
  trail_forward trail m1 d s.

Definition copy_backward (m : mem) (dst src n : Z) : option mem :=
  let dwords := Z.to_nat (Z.shiftr n 2) in
  let trail := Z.to_nat (Z.land n 3) in
  m1 ← trail_backward trail m (dst ⊞ n) (src ⊞ n);
  if Nat.ltb 0 dwords then
    std_rep_movsl dwords m1 ((dst ⊞ Z.land n (not32 3)) ⊟ 4) ((src ⊞ Z.land n (not32 3)) ⊟ 4)
  else Some m1.

(** ** memset, memcpy, memmove, memcmp *)

Fixpoint rep_stosl (ecx : nat) (m : mem) (d eax : Z) : option (mem * Z) :=
  match ecx with
  | O => Some (m, d)
  | S ecx' => m1 ← store32 m d eax; rep_stosl ecx' m1 (d ⊞ 4) eax
  end.

Fixpoint fill_bytes (trail : nat) (m : mem) (d byte : Z) : option mem :=
  match trail with
  | O => Some m
  | S trail' => m1 ← store8 m d byte; fill_bytes trail' m1 (d ⊞ 1) byte
  end.

Definition memset (m : mem) (dst val n : Z) : option (mem * Z) :=
  let byte := u8 val in
  let dword := Z.lor (Z.lor (Z.lor byte (Z.shiftl byte 8)) (Z.shiftl byte 16))
                 (Z.shiftl byte 24) in
  '(m1, d) ← rep_stosl (Z.to_nat (Z.shiftr n 2)) m dst dword;
  m2 ← fill_bytes (Z.to_nat (Z.land n 3)) m1 d byte;
  Some (m2, dst).

Definition memcpy (m : mem) (dst src n : Z) : option (mem * Z) :=
  m1 ← copy_forward m dst src n; Some (m1, dst).

Definition memmove (m : mem) (dst src n : Z) : option (mem * Z) :=
  m1 ← (if (dst <? src) || (src ⊞ n <=? dst) then copy_forward m dst src n
        else if src <? dst then copy_backward m dst src n
        else Some m);
  Some (m1, dst).

(** [for (i = 0; i < n; i++)], [k] turns left. *)
Fixpoint memcmp_loop (k : nat) (m : mem) (a b i : Z) : option Z :=
  match k with
  | O => Some 0
  | S k' =>
      x ← load8 m (a + i); y ← load8 m (b + i);
      if negb (x =? y) then Some (x - y) else memcmp_loop k' m a b (i + 1)
  end.

Definition memcmp (m : mem) (a b n : Z) : option Z := memcmp_loop (Z.to_nat n) m a b 0.

(** ** Strings *)

(** [while (s[len]) len++] *)
Fixpoint strlen_loop (fuel : nat) (m : mem) (s len : Z) : option Z :=
  match fuel with
  | O => None
  | S fuel' =>
      c ← load8 m (s + len);
      if c =? 0 then Some len else strlen_loop fuel' m s (len ⊞ 1)
  end.

Definition strlen (fuel : nat) (m : mem) (s : Z) : option Z := strlen_loop fuel m s 0.

(** [while (len < maxlen && s[len]) len++], [k] = maxlen - len. *)
Fixpoint strnlen_loop (k : nat) (m : mem) (s len : Z) : option Z :=
  match k with
  | O => Some len
  | S k' =>
      c ← load8 m (s + len);
      if c =? 0 then Some len else strnlen_loop k' m s (len ⊞ 1)
  end.

Definition strnlen (m : mem) (s maxlen : Z) : option Z := strnlen_loop (Z.to_nat maxlen) m s 0.

Fixpoint strcmp (fuel : nat) (m : mem) (a b : Z) : option Z :=
  match fuel with
  | O => None
  | S fuel' =>
      x ← load8 m a;
      if x =? 0 then (y ← load8 m b; Some (x - y))
      else
        y ← load8 m b;
        if x =? y then strcmp fuel' m (a ⊞ 1) (b ⊞ 1) else Some (x - y)
  end.

Fixpoint strncmp_loop (k : nat) (m : mem) (a b i : Z) : option Z :=
  match k with
  | O => Some 0
  | S k' =>
      x ← load8 m (a + i); y ← load8 m (b + i);
      if negb (x =? y) then Some (x - y)
      else if x =? 0 then Some 0
      else strncmp_loop k' m a b (i + 1)
  end.

Definition strncmp (m : mem) (a b n : Z) : option Z := strncmp_loop (Z.to_nat n) m a b 0.

Fixpoint strcpy_loop (fuel : nat) (m : mem) (d src : Z) : option mem :=
  match fuel with
  | O => None
  | S fuel' =>
      c ← load8 m src; m1 ← store8 m d c;
      if c =? 0 then Some m1 else strcpy_loop fuel' m1 (d ⊞ 1) (src ⊞ 1)
  end.

Definition strcpy (fuel : nat) (m : mem) (dst src : Z) : option (mem * Z) :=
  m1 ← strcpy_loop fuel m dst src; Some (m1, dst).

(** First loop of strncpy; the answer is the memory and the index reached. *)
Fixpoint strncpy_copy (k : nat) (m : mem) (dst src i : Z) : option (mem * Z) :=
  match k with
  | O => Some (m, i)
  | S k' =>
      c ← load8 m (src + i);
      if c =? 0 then Some (m, i)
      else m1 ← store8 m (dst + i) c; strncpy_copy k' m1 dst src (i + 1)
  end.

Definition strncpy (m : mem) (dst src n : Z) : option (mem * Z) :=
  '(m1, i) ← strncpy_copy (Z.to_nat n) m dst src 0;
  m2 ← fill_bytes (Z.to_nat (n - i)) m1 (dst + i) 0;
  Some (m2, dst).

Definition strlcpy (fuel : nat) (m : mem) (dst src size : Z) : option (mem * Z) :=
  src_len ← strlen fuel m src;
  if 0 <? size then
    let copy := if src_len <? size - 1 then src_len else size - 1 in
    '(m1, _) ← memcpy m dst src copy;
    m2 ← store8 m1 (dst + copy) 0;
    Some (m2, src_len)
  else Some (m, src_len).

(** The inner [while] of strstr; the answer is where it leaves [n]. *)
Fixpoint strstr_match (fuel : nat) (m : mem) (h n : Z) : option Z :=
  match fuel with
  | O => None
  | S fuel' =>
      x ← load8 m h;
      if x =? 0 then Some n
      else
        y ← load8 m n;
        if y =? 0 then Some n
        else if x =? y then strstr_match fuel' m (h ⊞ 1) (n ⊞ 1) else Some n
  end.

Fixpoint strstr_loop (fuel : nat) (m : mem) (haystack needle : Z) : option Z :=
  match fuel with
  | O => None
  | S fuel' =>
      c ← load8 m haystack;
      if c =? 0 then Some 0
      else
        n ← strstr_match fuel m haystack needle;
        e ← load8 m n;
        if e =? 0 then Some haystack else strstr_loop fuel' m (haystack ⊞ 1) needle
  end.

(** [NULL] is 0. *)
Definition strstr (fuel : nat) (m : mem) (haystack needle : Z) : option Z :=
  c ← load8 m needle;
  if c =? 0 then Some haystack else strstr_loop fuel m haystack needle.

(** ** The copies *)

Lemma copied_mapped m m' d s n a k :
  written m m' d n (fun i => m !! (s + i)) -> mapped m s n -> mapped m a k -> mapped m' a k.
Proof.
  intros Hw (_ & _ & Hs). eapply written_mapped; [exact Hw|]. intros i Hi. apply Hs. done.
Qed.

Lemma mapped_sub m a n b k : mapped m a n -> a <= b -> 0 <= k -> b + k <= a + n -> mapped m b k.
Proof.
  intros (Ha & Hn & Hm) Hb Hk Hk'. split_and!; [lia|lia|]. intros i Hi.
  replace (b + i) with (a + (b - a + i)) by lia. apply Hm. lia.
Qed.

Lemma rep_movsl_spec k : forall m d s, bytes_ok m ->
  mapped m d (4 * Z.of_nat k) -> mapped m s (4 * Z.of_nat k) ->
  d <= s \/ s + 4 * Z.of_nat k <= d ->
  exists m', rep_movsl k m d s = Some (m', d + 4 * Z.of_nat k, s + 4 * Z.of_nat k) /\
    written m m' d (4 * Z.of_nat k) (fun i => m !! (s + i)).
Proof.
  induction k as [|k IH]; intros m d s Hok Hd Hs Hov; cbn [rep_movsl].
  { exists m. change (4 * Z.of_nat 0) with 0. rewrite !Z.add_0_r.
    split; [done|by apply written_nil]. }
  destruct (move32_spec m d s Hok) as (v & m1 & Hl & Hst & W1);
    [eapply mapped_sub; [exact Hd|lia..]|eapply mapped_sub; [exact Hs|lia..]|].
  run_bind Hl. run_bind Hst.
  pose proof Hd as (? & ? & _). pose proof Hs as (? & ? & _). rewrite !u32_small by lia.
  assert (forall a n, mapped m a n -> mapped m1 a n) as Hm1.
  { intros a n. eapply copied_mapped; [exact W1|]. eapply mapped_sub; [exact Hs|lia..]. }
  destruct (IH m1 (d + 4) (s + 4) (proj1 W1)) as (m' & -> & W2);
    [apply Hm1; eapply mapped_sub; [exact Hd|lia..]
    |apply Hm1; eapply mapped_sub; [exact Hs|lia..]|lia|].
  exists m'. replace (4 * Z.of_nat (S k)) with (4 + 4 * Z.of_nat k) by lia.
  rewrite !Z.add_assoc. split; [done|].
  apply (written_app m m1 m' d 4 (4 * Z.of_nat k) _ _ _ ltac:(lia) ltac:(lia) W1 W2); [done|].
  intros i Hi. cbn beta. rewrite (proj2 W1). repeat case_cmp; cbn; try lia; f_equal; lia.
Qed.

Lemma trail_forward_spec k : forall m d s, bytes_ok m ->
  mapped m d (Z.of_nat k) -> mapped m s (Z.of_nat k) -> d <= s \/ s + Z.of_nat k <= d ->
  exists m', trail_forward k m d s = Some m' /\
    written m m' d (Z.of_nat k) (fun i => m !! (s + i)).
Proof.
  induction k as [|k IH]; intros m d s Hok Hd Hs Hov; cbn [trail_forward].
  { exists m. split; [done|by apply written_nil]. }
  destruct (load8_mapped m s _ 0 Hs) as (c & Hl & Hc); [lia|]. rewrite Z.add_0_r in Hl, Hc.
  run_bind Hl. pose proof Hd as (? & ? & Hd'). pose proof Hs as (? & ? & _).
  destruct (written_byte m d c Hok) as (m1 & Hst & W1);
    [lia|rewrite <- (Z.add_0_r d); apply Hd'; lia|].
  run_bind Hst. rewrite !u32_small by lia.
  assert (forall a n, mapped m a n -> mapped m1 a n) as Hm1.
  { intros a n. eapply written_mapped; [exact W1|]. intros i Hi. by eexists. }
  destruct (IH m1 (d + 1) (s + 1) (proj1 W1)) as (m' & -> & W2);
    [apply Hm1; eapply mapped_sub; [exact Hd|lia..]
    |apply Hm1; eapply mapped_sub; [exact Hs|lia..]|lia|].
  exists m'. split; [done|]. replace (Z.of_nat (S k)) with (1 + Z.of_nat k) by lia.
  apply (written_app m m1 m' d 1 (Z.of_nat k) _ _ _ ltac:(lia) ltac:(lia) W1 W2).
  - intros i Hi. replace i with 0 by lia. rewrite Z.add_0_r, Hc. f_equal. symmetry.
    apply u8_small. exact (Hok _ _ Hc).
  - intros i Hi. cbn beta. rewrite (proj2 W1). repeat case_cmp; cbn; try lia; f_equal; lia.
Qed.

Lemma shiftr2_land3 n : 0 <= n < 0x100000000 ->
  0 <= Z.shiftr n 2 /\ 0 <= Z.land n 3 < 4 /\ n = 4 * Z.shiftr n 2 + Z.land n 3 /\
  Z.land n (not32 3) = 4 * Z.shiftr n 2.
Proof.
  intros Hn. change 3 with (Z.ones 2) at 1 2 3.
  rewrite Z.land_ones, Z.shiftr_div_pow2 by lia. change (2 ^ 2) with 4.
  split_and!; try zlia.
  transitivity (Z.shiftl (Z.shiftr n 2) 2).
  - apply Z.bits_inj'. intros i Hi. rewrite Z.land_spec, Z.shiftl_spec, testbit_not32 by lia.
    change 3 with (Z.ones 2). destruct (Z.lt_ge_cases i 2).
    + rewrite Z.ones_spec_low, (Z.testbit_neg_r _ (i - 2)) by lia.
      by case_if; rewrite andb_false_r.
    + rewrite Z.ones_spec_high, Z.shiftr_spec by lia. replace (i - 2 + 2) with i by lia.
      case_if; cbn; [apply andb_true_r|]. rewrite (u32_testbit_high n) by done. done.
  - rewrite Z.shiftl_mul_pow2, Z.shiftr_div_pow2 by lia. change (2 ^ 2) with 4. lia.
Qed.

Lemma copy_forward_spec m dst src n : bytes_ok m -> 0 <= n ->
  mapped m dst n -> mapped m src n -> dst <= src \/ src + n <= dst ->
  exists m', copy_forward m dst src n = Some m' /\
    written m m' dst n (fun i => m !! (src + i)).
Proof.
  intros Hok Hn Hd Hs Hov. pose proof Hd as (? & ? & _). pose proof Hs as (? & ? & _).
  destruct (shiftr2_land3 n) as (Hq & Hr & Hqr & _); [lia|]. unfold copy_forward.
  set (q := Z.shiftr n 2) in *. set (r := Z.land n 3) in *.
  destruct (rep_movsl_spec (Z.to_nat q) m dst src Hok) as (m1 & HL & W1);
    [eapply mapped_sub; [exact Hd|lia..]|eapply mapped_sub; [exact Hs|lia..]|lia|].
  run_bind HL. rewrite Z2Nat.id in * by lia.
  assert (forall a k, mapped m a k -> mapped m1 a k) as Hm1.
  { intros a k. eapply copied_mapped; [exact W1|]. eapply mapped_sub; [exact Hs|lia..]. }
  destruct (trail_forward_spec (Z.to_nat r) m1 (dst + 4 * q) (src + 4 * q) (proj1 W1))
    as (m' & HL' & W2);
    [apply Hm1; eapply mapped_sub; [exact Hd|lia..]
    |apply Hm1; eapply mapped_sub; [exact Hs|lia..]|lia|].
  rewrite Z2Nat.id in * by lia. exists m'. split; [done|]. rewrite Hqr.
  apply (written_app m m1 m' dst (4 * q) r _ _ _ ltac:(lia) ltac:(lia) W1 W2); [done|].
  intros i Hi. cbn beta. rewrite (proj2 W1). repeat case_cmp; cbn; try lia; f_equal; lia.
Qed.

Lemma trail_backward_spec k : forall m d s, bytes_ok m ->
  mapped m d (Z.of_nat k) -> mapped m s (Z.of_nat k) -> s <= d ->
  exists m', trail_backward k m (d + Z.of_nat k) (s + Z.of_nat k) = Some m' /\
    written m m' d (Z.of_nat k) (fun i => m !! (s + i)).
Proof.
  induction k as [|k IH]; intros m d s Hok Hd Hs Hov; cbn [trail_backward].
  { exists m. split; [done|by apply written_nil]. }
  pose proof Hd as (? & ? & Hd'). pose proof Hs as (? & ? & _).
  rewrite !u32_small by lia.
  replace (d + Z.of_nat (S k) - 1) with (d + Z.of_nat k) by lia.
  replace (s + Z.of_nat (S k) - 1) with (s + Z.of_nat k) by lia.
  destruct (load8_mapped m s _ (Z.of_nat k) Hs) as (c & Hl & Hc); [lia|]. run_bind Hl.
  destruct (written_byte m (d + Z.of_nat k) c Hok) as (m1 & Hst & W1); [lia|apply Hd'; lia|].
  run_bind Hst.
  assert (forall a n, mapped m a n -> mapped m1 a n) as Hm1.
  { intros a n. eapply written_mapped; [exact W1|]. intros i Hi. by eexists. }
  destruct (IH m1 d s (proj1 W1)) as (m' & -> & W2);
    [apply Hm1; eapply mapped_sub; [exact Hd|lia..]
    |apply Hm1; eapply mapped_sub; [exact Hs|lia..]|lia|].
  exists m'. split; [done|]. replace (Z.of_nat (S k)) with (Z.of_nat k + 1) by lia.
  apply (written_app_back m m1 m' d (Z.of_nat k) 1 _ _ _ ltac:(lia) ltac:(lia) W1 W2).
  - intros i Hi. cbn beta. rewrite (proj2 W1). repeat case_cmp; cbn; done || lia.
  - intros i Hi. replace i with 0 by lia. rewrite Z.add_0_r, Hc. f_equal. symmetry.
    apply u8_small. exact (Hok _ _ Hc).
Qed.

Lemma std_rep_movsl_spec k : forall m d s d' s', bytes_ok m ->
  mapped m d (4 * Z.of_nat k) -> mapped m s (4 * Z.of_nat k) -> s <= d ->
  (k <> 0%nat -> d' = d + 4 * Z.of_nat k - 4 /\ s' = s + 4 * Z.of_nat k - 4) ->
  exists m', std_rep_movsl k m d' s' = Some m' /\
    written m m' d (4 * Z.of_nat k) (fun i => m !! (s + i)).
Proof.
  induction k as [|k IH]; intros m d s d' s' Hok Hd Hs Hov Hp; cbn [std_rep_movsl].
  { exists m. split; [done|by apply written_nil]. }
  pose proof Hd as (? & ? & Hd'). pose proof Hs as (? & ? & _).
  destruct Hp as [-> ->]; [done|].
  replace (d + 4 * Z.of_nat (S k) - 4) with (d + 4 * Z.of_nat k) by lia.
  replace (s + 4 * Z.of_nat (S k) - 4) with (s + 4 * Z.of_nat k) by lia.
  destruct (move32_spec m (d + 4 * Z.of_nat k) (s + 4 * Z.of_nat k) Hok) as (v & m1 & Hl & Hst & W1);
    [eapply mapped_sub; [exact Hd|lia..]|eapply mapped_sub; [exact Hs|lia..]|].
  run_bind Hl. run_bind Hst.
  assert (forall a n, mapped m a n -> mapped m1 a n) as Hm1.
  { intros a n. eapply copied_mapped; [exact W1|]. eapply mapped_sub; [exact Hs|lia..]. }
  destruct (IH m1 d s ((d + 4 * Z.of_nat k) ⊟ 4) ((s + 4 * Z.of_nat k) ⊟ 4) (proj1 W1))
    as (m' & -> & W2);
    [apply Hm1; eapply mapped_sub; [exact Hd|lia..]
    |apply Hm1; eapply mapped_sub; [exact Hs|lia..]|lia| |].
  { intros Hk. rewrite !u32_small by lia. done. }
  exists m'. split; [done|]. replace (4 * Z.of_nat (S k)) with (4 * Z.of_nat k + 4) by lia.
  apply (written_app_back m m1 m' d (4 * Z.of_nat k) 4 _ _ _ ltac:(lia) ltac:(lia) W1 W2).
  - intros i Hi. cbn beta. rewrite (proj2 W1). repeat case_cmp; cbn; done || lia.
  - intros i Hi. cbn beta. f_equal. lia.
Qed.

Lemma copy_backward_spec m dst src n : bytes_ok m -> 0 <= n ->
  mapped m dst n -> mapped m src n -> src <= dst ->
  exists m', copy_backward m dst src n = Some m' /\
    written m m' dst n (fun i => m !! (src + i)).
Proof.
  intros Hok Hn Hd Hs Hov. pose proof Hd as (? & ? & _). pose proof Hs as (? & ? & _).
  destruct (shiftr2_land3 n) as (Hq & Hr & Hqr & Hmask); [lia|]. unfold copy_backward.
  rewrite Hmask. set (q := Z.shiftr n 2) in *. set (r := Z.land n 3) in *.
  rewrite (u32_small (dst + n)), (u32_small (src + n)) by lia.
  destruct (trail_backward_spec (Z.to_nat r) m (dst + 4 * q) (src + 4 * q) Hok) as (m1 & HL & W1);
    [eapply mapped_sub; [exact Hd|lia..]|eapply mapped_sub; [exact Hs|lia..]|lia|].
  rewrite Z2Nat.id in * by lia.
  replace (dst + 4 * q + r) with (dst + n) in HL by lia.
  replace (src + 4 * q + r) with (src + n) in HL by lia. run_bind HL.
  assert (forall a k, mapped m a k -> mapped m1 a k) as Hm1.
  { intros a k. eapply copied_mapped; [exact W1|]. eapply mapped_sub; [exact Hs|lia..]. }
  destruct (std_rep_movsl_spec (Z.to_nat q) m1 dst src ((dst ⊞ (4 * q)) ⊟ 4) ((src ⊞ (4 * q)) ⊟ 4)
    (proj1 W1)) as (m' & HL' & W2);
    [apply Hm1; eapply mapped_sub; [exact Hd|lia..]
    |apply Hm1; eapply mapped_sub; [exact Hs|lia..]|lia| |].
  { intros Hq0. rewrite !u32_add_sub, !u32_small by lia. lia. }
  rewrite Z2Nat.id in * by lia. exists m'. split.
  - destruct (Nat.ltb_spec 0 (Z.to_nat q)); [done|].
    replace (Z.to_nat q) with 0%nat in HL' by lia. done.
  - rewrite Hqr. apply (written_app_back m m1 m' dst (4 * q) r _ _ _ ltac:(lia) ltac:(lia) W1 W2).
    + intros i Hi. cbn beta. rewrite (proj2 W1). repeat case_cmp; cbn; done || lia.
    + intros i Hi. cbn beta. f_equal. lia.
Qed.

Lemma rep_stosl_spec k : forall m d v, bytes_ok m -> mapped m d (4 * Z.of_nat k) ->
  exists m', rep_stosl k m d v = Some (m', d + 4 * Z.of_nat k) /\
    written m m' d (4 * Z.of_nat k) (fun i => Some (u8 (Z.shiftr v (8 * (i mod 4))))).
Proof.
  induction k as [|k IH]; intros m d v Hok Hd; cbn [rep_stosl].
  { exists m. change (4 * Z.of_nat 0) with 0. rewrite !Z.add_0_r.
    split; [done|by apply written_nil]. }
  destruct (store32_spec m d v Hok) as (m1 & Hst & W1); [eapply mapped_sub; [exact Hd|lia..]|].
  run_bind Hst. pose proof Hd as (? & ? & _). rewrite !u32_small by lia.
  destruct (IH m1 (d + 4) v (proj1 W1)) as (m' & -> & W2).
  { eapply written_mapped; [exact W1|by eexists|]. eapply mapped_sub; [exact Hd|lia..]. }
  exists m'. replace (4 * Z.of_nat (S k)) with (4 + 4 * Z.of_nat k) by lia.
  rewrite !Z.add_assoc. split; [done|].
  apply (written_app m m1 m' d 4 (4 * Z.of_nat k) _ _ _ ltac:(lia) ltac:(lia) W1 W2).
  - intros i Hi. by rewrite Z.mod_small by lia.
  - intros i Hi. cbn beta. do 4 f_equal. zlia.
Qed.

Lemma fill_bytes_spec k : forall m d v, bytes_ok m -> mapped m d (Z.of_nat k) ->
  exists m', fill_bytes k m d v = Some m' /\ written m m' d (Z.of_nat k) (fun _ => Some (u8 v)).
Proof.
  induction k as [|k IH]; intros m d v Hok Hd; cbn [fill_bytes].
  { exists m. split; [done|by apply written_nil]. }
  pose proof Hd as (? & ? & Hd').
  destruct (written_byte m d v Hok) as (m1 & Hst & W1);
    [lia|rewrite <- (Z.add_0_r d); apply Hd'; lia|].
  run_bind Hst.
  destruct k as [|k'].
  { exists m1. done. }
  rewrite u32_small by lia.
  destruct (IH m1 (d + 1) v (proj1 W1)) as (m' & -> & W2).
  { eapply written_mapped; [exact W1|by eexists|]. eapply mapped_sub; [exact Hd|lia..]. }
  exists m'. split; [done|]. replace (Z.of_nat (S (S k'))) with (1 + Z.of_nat (S k')) by lia.
  by apply (written_app m m1 m' d 1 (Z.of_nat (S k')) _ _ _ ltac:(lia) ltac:(lia) W1 W2).
Qed.

(** Each byte of memset's dword is the byte. *)
Lemma splat_byte b i : is_u8 b -> 0 <= i < 4 ->
  u8 (Z.shiftr (Z.lor (Z.lor (Z.lor b (Z.shiftl b 8)) (Z.shiftl b 16)) (Z.shiftl b 24)) (8 * i)) = b.
Proof.
  intros Hb Hi. unfold u8. change 0x100 with (2 ^ 8). apply Z.bits_inj'. intros j Hj.
  assert (forall k, 8 <= k -> Z.testbit b k = false) as Hhigh.
  { intros k Hk. unfold is_u8 in Hb. rewrite <- (Z.mod_small b (2 ^ 8)) by (change (2 ^ 8) with 0x100; lia).
    apply Z.mod_pow2_bits_high. lia. }
  destruct (Z.lt_ge_cases j 8).
  - rewrite Z.mod_pow2_bits_low, Z.shiftr_spec, !Z.lor_spec, !Z.shiftl_spec by lia.
    assert (i = 0 \/ i = 1 \/ i = 2 \/ i = 3) as [->|[->|[->| ->]]] by lia; cbn [Z.mul Pos.mul];
      rewrite ?(Z.testbit_neg_r b (j + _ - 24)), ?(Z.testbit_neg_r b (j + _ - 16)),
        ?(Z.testbit_neg_r b (j + _ - 8)) by lia;
      rewrite ?(Hhigh (j + _)), ?(Hhigh (j + _ - _)) by lia; rewrite ?orb_false_r; cbn;
      f_equal; lia.
  - rewrite Z.mod_pow2_bits_high, Hhigh by lia. done.
Qed.

Lemma memset_spec m dst val n : bytes_ok m -> 0 <= n -> mapped m dst n ->
  exists m', memset m dst val n = Some (m', dst) /\ written m m' dst n (fun _ => Some (u8 val)).
Proof.
  intros Hok Hn Hd. pose proof Hd as (? & ? & _).
  destruct (shiftr2_land3 n) as (Hq & Hr & Hqr & _); [lia|]. unfold memset.
  set (q := Z.shiftr n 2) in *. set (r := Z.land n 3) in *. set (dword := Z.lor _ _).
  destruct (rep_stosl_spec (Z.to_nat q) m dst dword Hok) as (m1 & HL & W1);
    [eapply mapped_sub; [exact Hd|lia..]|].
  run_bind HL. rewrite Z2Nat.id in * by lia.
  destruct (fill_bytes_spec (Z.to_nat r) m1 (dst + 4 * q) (u8 val) (proj1 W1)) as (m' & HL' & W2).
  { eapply written_mapped; [exact W1|by eexists|]. eapply mapped_sub; [exact Hd|lia..]. }
  run_bind HL'. rewrite Z2Nat.id in * by lia. exists m'. split; [done|]. rewrite Hqr.
  apply (written_app m m1 m' dst (4 * q) r _ _ _ ltac:(lia) ltac:(lia) W1 W2).
  - intros i Hi. cbn beta. f_equal. symmetry. apply splat_byte; [apply u8_range|zlia].
  - intros i Hi. cbn beta. f_equal. symmetry. apply u8_small, u8_range.
Qed.

Lemma memmove_spec m dst src n : bytes_ok m -> 0 <= n -> mapped m dst n -> mapped m src n ->
  exists m', memmove m dst src n = Some (m', dst) /\
    written m m' dst n (fun i => m !! (src + i)).
Proof.
  intros Hok Hn Hd Hs. pose proof Hd as (? & ? & _). pose proof Hs as (? & ? & _).
  unfold memmove. rewrite u32_small by lia.
  destruct ((dst <? src) || (src + n <=? dst)) eqn:Hb.
  - apply orb_true_iff in Hb.
    destruct (copy_forward_spec m dst src n Hok Hn Hd Hs) as (m' & HL & W);
      [destruct Hb; bool_to_prop; lia|]. run_bind HL. by exists m'.
  - bool_to_prop. case_if.
    + destruct (copy_backward_spec m dst src n Hok Hn Hd Hs) as (m' & HL & W); [lia|].
      run_bind HL. by exists m'.
    + exists m. split; [done|]. split; [done|]. intros a. replace dst with src by lia.
      repeat case_cmp; cbn; try done. f_equal. lia.
Qed.

(** ** The string routines *)

Lemma strlen_loop_spec fuel m s : forall l len, 0 <= s -> 0 <= len -> cstr m (s + len) l ->
  (length l < fuel)%nat -> strlen_loop fuel m s len = Some (len + Z.of_nat (length l)).
Proof.
  induction fuel as [|fuel IH]; intros l len Hs Hlen Hc Hf; [lia|]. cbn [strlen_loop].
  pose proof (cstr_load _ _ _ Hc) as Hl. pose proof (cstr_range _ _ _ Hc). run_bind Hl.
  destruct l as [|x l]; cbn [head default from_option id length] in *; [f_equal; lia|].
  destruct Hc as (_ & _ & Hx & Hc). rewrite (proj2 (Z.eqb_neq x 0) Hx), u32_small by lia.
  rewrite (IH l); [f_equal; lia|lia|lia| |lia].
  by replace (s + (len + 1)) with (s + len + 1) by lia.
Qed.

Lemma strlen_spec fuel m s l : cstr m s l -> (length l < fuel)%nat ->
  strlen fuel m s = Some (Z.of_nat (length l)).
Proof.
  intros Hc Hf. pose proof (cstr_range _ _ _ Hc). unfold strlen.
  rewrite (strlen_loop_spec fuel m s l 0); [done|lia|lia| |done]. by rewrite Z.add_0_r.
Qed.

(** The difference of the first bytes that differ, a shorter string being padded
    with its NUL. *)
Fixpoint lex_diff (a b : list Z) : Z :=
  match a, b with
  | [], [] => 0
  | [], y :: _ => 0 - y
  | x :: _, [] => x
  | x :: a', y :: b' => if x =? y then lex_diff a' b' else x - y
  end.

Lemma strcmp_spec fuel m : forall a b la lb, cstr m a la -> cstr m b lb ->
  (length la < fuel)%nat -> strcmp fuel m a b = Some (lex_diff la lb).
Proof.
  induction fuel as [|fuel IH]; intros a b la lb Ha Hb Hf; [lia|]. cbn [strcmp].
  pose proof (cstr_load _ _ _ Ha) as La. pose proof (cstr_load _ _ _ Hb) as Lb.
  pose proof (cstr_range _ _ _ Ha). pose proof (cstr_range _ _ _ Hb).
  run_bind La. destruct la as [|x la]; cbn [head default from_option id length lex_diff] in *.
  { cbn [Z.eqb]. run_bind Lb. by destruct lb. }
  destruct Ha as (_ & _ & Hx & Ha). rewrite (proj2 (Z.eqb_neq x 0) Hx). run_bind Lb.
  destruct lb as [|y lb]; cbn [head default from_option id length lex_diff] in *.
  { rewrite (proj2 (Z.eqb_neq x 0) Hx). by rewrite Z.sub_0_r. }
  destruct Hb as (_ & _ & Hy & Hb). case_if; [|done]. rewrite !u32_small by lia.
  apply IH; [done|done|lia].
Qed.

Lemma lex_diff_zero a b : Forall (fun x => 0 < x) a -> Forall (fun x => 0 < x) b ->
  lex_diff a b = 0 <-> a = b.
Proof.
  intros Ha. revert b. induction Ha as [|x a Hx Ha IH]; intros [|y b] Hb; cbn; try done.
  - inversion_clear Hb. split; [lia|done].
  - split; [lia|done].
  - inversion_clear Hb. case_if.
    + subst. rewrite IH by done. split; [by intros ->|by intros [= ->]].
    + split; [lia|]. intros [= -> _]. done.
Qed.

(** Result of a search of [ns] in the string [hs] at address [h]. *)
Definition first_occurrence (h : Z) (hs ns : list Z) (r : Z) : Prop :=
  (exists k : nat, r = h + Z.of_nat k /\ ns `prefix_of` drop k hs /\
     forall j, (j < k)%nat -> ~ ns `prefix_of` drop j hs) \/
  (r = 0 /\ forall k, ~ ns `prefix_of` drop k hs).

Lemma strstr_match_spec fuel m : forall h n hs ns, cstr m h hs -> cstr m n ns ->
  (length hs < fuel)%nat ->
  exists p c, strstr_match fuel m h n = Some p /\ load8 m p = Some c /\
    (c = 0 <-> ns `prefix_of` hs).
Proof.
  induction fuel as [|fuel IH]; intros h n hs ns Hh Hn Hf; [lia|]. cbn [strstr_match].
  pose proof (cstr_load _ _ _ Hh) as Lh. pose proof (cstr_load _ _ _ Hn) as Ln.
  pose proof (cstr_range _ _ _ Hh). pose proof (cstr_range _ _ _ Hn).
  run_bind Lh. destruct hs as [|x hs]; cbn [head default from_option id length] in *.
  { rewrite Z.eqb_refl. do 2 eexists. split; [done|]. split; [exact Ln|].
    destruct ns as [|y ns]; cbn; [split; [|done]; intros _; apply prefix_nil|].
    destruct Hn as (_ & _ & Hy & _). split; [done|]. by intros ?%prefix_nil_inv. }
  destruct Hh as (_ & _ & Hx & Hh). rewrite (proj2 (Z.eqb_neq x 0) Hx). run_bind Ln.
  destruct ns as [|y ns]; cbn [head default from_option id length] in *.
  { rewrite Z.eqb_refl. do 2 eexists. split; [done|]. split; [exact Ln|].
    split; [|done]. intros _. apply prefix_nil. }
  destruct Hn as (_ & _ & Hy & Hn). rewrite (proj2 (Z.eqb_neq y 0) Hy). case_if.
  - subst y. rewrite !u32_small by lia.
    destruct (IH (h + 1) (n + 1) hs ns Hh Hn) as (p & c & Hp & Hc & Hiff); [lia|].
    exists p, c. split_and!; [done|done|]. rewrite Hiff. split.
    + apply prefix_cons.
    + apply prefix_cons_inv_2.
  - do 2 eexists. split; [done|]. split; [exact Ln|]. split; [done|].
    intros ?%prefix_cons_inv_1. congruence.
Qed.

Lemma strstr_loop_spec fuel m n ns : cstr m n ns -> ns <> [] ->
  forall h hs, cstr m h hs -> (length hs < fuel)%nat ->
  exists r, strstr_loop fuel m h n = Some r /\ first_occurrence h hs ns r.
Proof.
  intros Hn Hne. induction fuel as [|fuel IH]; intros h hs Hh Hf; [lia|].
  destruct (strstr_match_spec (S fuel) m h n hs ns Hh Hn Hf) as (p & c & Hp & Hc & Hiff).
  cbn [strstr_loop]. pose proof (cstr_load _ _ _ Hh) as Lh. pose proof (cstr_range _ _ _ Hh).
  run_bind Lh. destruct hs as [|x hs]; cbn [head default from_option id length] in *.
  { rewrite Z.eqb_refl. exists 0. split; [done|]. right. split; [done|].
    intros k. rewrite drop_nil. by intros ?%prefix_nil_inv. }
  destruct Hh as (_ & _ & Hx & Hh). rewrite (proj2 (Z.eqb_neq x 0) Hx).
  run_bind Hp. run_bind Hc. case_if.
  - exists h. split; [done|]. left. exists 0%nat. rewrite Z.add_0_r. split_and!; [done|tauto|lia].
  - rewrite u32_small by lia. destruct (IH (h + 1) hs Hh) as (r & Hr & Hocc); [lia|].
    exists r. split; [done|]. destruct Hocc as [(k & -> & Hpre & Hmin)|[-> Hno]].
    + left. exists (S k). split_and!; [lia|done|]. intros [|j] Hj; [by rewrite <- Hiff|].
      apply Hmin. lia.
    + right. split; [done|]. intros [|k]; [by rewrite <- Hiff|apply Hno].
Qed.

(** The destination and the source string do not overlap. *)
Definition apart (dst n src len : Z) : Prop := dst + n <= src \/ src + len <= dst.

Lemma strcpy_loop_spec fuel : forall m d s l, bytes_ok m -> cstr m s l ->
  mapped m d (Z.of_nat (length l) + 1) ->
  apart d (Z.of_nat (length l) + 1) s (Z.of_nat (length l) + 1) -> (length l < fuel)%nat ->
  exists m', strcpy_loop fuel m d s = Some m' /\
    written m m' d (Z.of_nat (length l) + 1) (fun i => m !! (s + i)).
Proof.
  induction fuel as [|fuel IH]; intros m d s l Hok Hc Hd Hov Hf; [lia|]. cbn [strcpy_loop].
  pose proof (cstr_load _ _ _ Hc) as Ls. pose proof (cstr_range _ _ _ Hc). run_bind Ls.
  assert (m !! s = Some (default 0 (head l))) as Hs0 by (by destruct l; cbn in Hc |- *; tauto).
  pose proof Hd as (? & ? & Hd').
  destruct (written_byte m d (default 0 (head l)) Hok) as (m1 & Hst & W1);
    [lia|rewrite <- (Z.add_0_r d); apply Hd'; lia|].
  run_bind Hst. rewrite (u8_small _ (Hok _ _ Hs0)) in W1. rewrite <- Hs0 in W1.
  unfold apart in *.
  destruct l as [|x l]; cbn [head default from_option id length] in *.
  { rewrite Z.eqb_refl. exists m1. split; [done|]. eapply written_ext; [exact W1|].
    intros i Hi. by replace i with 0 by lia; rewrite Z.add_0_r. }
  pose proof Hc as (_ & _ & Hx & Hc'). rewrite (proj2 (Z.eqb_neq x 0) Hx), !u32_small by lia.
  destruct (IH m1 (d + 1) (s + 1) l (proj1 W1)) as (m' & -> & W2).
  - eapply cstr_written; [exact W1|exact Hc'|lia].
  - eapply written_mapped; [exact W1|intros; cbn; rewrite Hs0; by eexists|].
    eapply mapped_sub; [exact Hd|lia..].
  - lia.
  - lia.
  - exists m'. split; [done|].
    replace (Z.of_nat (S (length l)) + 1) with (1 + (Z.of_nat (length l) + 1)) by lia.
    apply (written_app m m1 m' d 1 (Z.of_nat (length l) + 1) _ _ _ ltac:(lia) ltac:(lia) W1 W2).
    + intros i Hi. by replace i with 0 by lia; rewrite Z.add_0_r.
    + intros i Hi. cbn beta. rewrite (proj2 W1). repeat case_cmp; cbn; try lia; f_equal; lia.
Qed.

(** A block holding the first [k] bytes of a string and a NUL is a string. *)
Lemma cstr_prefix m m' src l d k g : cstr m src l -> 0 <= d -> d + Z.of_nat k < 0xFFFFFFFF ->
  (k <= length l)%nat -> written m m' d (Z.of_nat k + 1) g ->
  (forall i, 0 <= i < Z.of_nat k -> g i = m !! (src + i)) -> g (Z.of_nat k) = Some 0 ->
  cstr m' d (take k l).
Proof.
  intros Hc Hd Hr Hk [_ Hw] Hg H0.
  assert (length (take k l) = k) as Hlen by (rewrite length_take; lia).
  assert (forall i, 0 <= i < Z.of_nat k + 1 -> m' !! (d + i) = g i) as Hin.
  { intros i Hi. rewrite Hw. repeat case_cmp; cbn; try lia. f_equal. lia. }
  apply cstr_intro; [done|by rewrite Hlen| |by rewrite Hlen, Hin by lia].
  intros i x Hx. pose proof (lookup_lt_Some _ _ _ Hx). rewrite Hin, Hg by lia.
  apply lookup_take_Some in Hx as [Hx _]. by eapply cstr_lookup.
Qed.

Lemma strcpy_spec fuel m dst src l : bytes_ok m -> cstr m src l ->
  mapped m dst (Z.of_nat (length l) + 1) ->
  apart dst (Z.of_nat (length l) + 1) src (Z.of_nat (length l) + 1) -> (length l < fuel)%nat ->
  exists m', strcpy fuel m dst src = Some (m', dst) /\ cstr m' dst l /\ cstr m' src l.
Proof.
  intros Hok Hc Hd Hov Hf.
  destruct (strcpy_loop_spec fuel m dst src l Hok Hc Hd Hov Hf) as (m' & HL & W).
  unfold strcpy. run_bind HL. exists m'. split; [done|]. pose proof Hd as (? & ? & _). split.
  - rewrite <- (firstn_all l).
    eapply (cstr_prefix m m' src l dst (length l)); [done|lia|lia|lia|exact W|done|].
    by apply cstr_nul.
  - unfold apart in Hov. eapply cstr_written; [exact W|done|lia].
Qed.

Lemma strlcpy_spec fuel m dst src size l : bytes_ok m -> cstr m src l -> 0 < size ->
  mapped m dst size -> apart dst size src (Z.of_nat (length l) + 1) -> (length l < fuel)%nat ->
  let k := Nat.min (length l) (Z.to_nat (size - 1)) in
  exists m', strlcpy fuel m dst src size = Some (m', Z.of_nat (length l)) /\
    cstr m' dst (take k l) /\ cstr m' src l /\
    (forall a, ~ dst <= a <= dst + Z.of_nat k -> m' !! a = m !! a).
Proof.
  intros Hok Hc Hsz Hd Hov Hf k. unfold apart in Hov. pose proof Hd as (? & ? & Hd').
  unfold strlcpy. rewrite (bind_eq _ _ _ (strlen_spec fuel m src l Hc Hf)).
  rewrite (proj2 (Z.ltb_lt 0 size) Hsz).
  replace (if Z.of_nat (length l) <? size - 1 then Z.of_nat (length l) else size - 1)
    with (Z.of_nat k) by (case_if; lia).
  pose proof (cstr_mapped _ _ _ Hc) as Hs.
  destruct (copy_forward_spec m dst src (Z.of_nat k) Hok) as (m1 & HL & W1);
    [lia|eapply mapped_sub; [exact Hd|lia..]|eapply mapped_sub; [exact Hs|lia..]|lia|].
  unfold memcpy. rewrite HL. cbn [mbind option_bind].
  destruct (written_byte m1 (dst + Z.of_nat k) 0 (proj1 W1)) as (m2 & Hst & W2); [lia| |].
  { rewrite (proj2 W1). repeat case_cmp; cbn; try lia; apply Hd'; lia. }
  run_bind Hst. exists m2. split; [done|].
  assert (written m m2 dst (Z.of_nat k + 1)
            (fun i => if i =? Z.of_nat k then Some 0 else m !! (src + i))) as W.
  { apply (written_app m m1 m2 dst (Z.of_nat k) 1 _ _ _ ltac:(lia) ltac:(lia) W1 W2).
    - intros i Hi. case_if; [lia|done].
    - intros i Hi. replace (Z.of_nat k + i) with (Z.of_nat k) by lia. by rewrite Z.eqb_refl. }
  split_and!.
  - eapply (cstr_prefix m m2 src l dst k); [done|lia|lia|lia|exact W| |].
    + intros i Hi. cbn beta. by rewrite (proj2 (Z.eqb_neq i (Z.of_nat k))) by lia.
    + cbn beta. by rewrite Z.eqb_refl.
  - eapply cstr_written; [exact W|done|lia].
  - intros a Ha. rewrite (proj2 W). repeat case_cmp; cbn; done || lia.
Qed.

(** ** The properties *)

(** C38: memmove.  Whatever the overlap of the two regions, memmove stays inside them,
    leaves in the destination the bytes the source held before the call, returns the
    destination and changes nothing else. *)
Theorem memmove_correct m dst src n :
  bytes_ok m -> 0 <= n -> mapped m dst n -> mapped m src n ->
  exists m', memmove m dst src n = Some (m', dst) /\ bytes_ok m' /\
    (forall i, 0 <= i < n -> m' !! (dst + i) = m !! (src + i)) /\
    (forall a, ~ dst <= a < dst + n -> m' !! a = m !! a).
Proof.
  intros Hok Hn Hd Hs. destruct (memmove_spec m dst src n Hok Hn Hd Hs) as (m' & HL & Hok' & W).
  exists m'. split_and!; [done|done| |].
  - intros i Hi. rewrite W. repeat case_cmp; cbn; try lia. f_equal. lia.
  - intros a Ha. rewrite W. repeat case_cmp; cbn; done || lia.
Qed.

(** Ten consecutive bytes 1..10 from address 100. *)
Definition demo_mem : mem := list_to_map (zip (seqZ 100 10) (seqZ 1 10)).

Lemma memmove_correct_witness :
  exists m', memmove demo_mem 102 100 7 = Some (m', 102) /\ m' !! 108 = Some 7.
Proof.
  destruct (memmove_correct demo_mem 102 100 7) as (m' & HL & _ & H & _).
  - apply bytes_okb_ok. by vm_compute.
  - lia.
  - apply mappedb_ok. by vm_compute.
  - apply mappedb_ok. by vm_compute.
  - exists m'. split; [exact HL|]. change 108 with (102 + 6). rewrite H by lia. vm_compute. reflexivity.
Defined.

(** strlcpy.  With room for [size] bytes apart from the source, strlcpy returns the
    source's length, leaves in the destination its longest prefix that fits with a NUL
    and touches no byte beyond that NUL; strcmp of a string that was not truncated with
    its source is 0. *)
Theorem strlcpy_correct fuel m dst src size l :
  bytes_ok m -> cstr m src l -> 0 < size -> mapped m dst size ->
  apart dst size src (Z.of_nat (length l) + 1) -> (length l < fuel)%nat ->
  let k := Nat.min (length l) (Z.to_nat (size - 1)) in
  exists m', strlcpy fuel m dst src size = Some (m', Z.of_nat (length l)) /\
    cstr m' dst (take k l) /\
    (forall a, ~ dst <= a <= dst + Z.of_nat k -> m' !! a = m !! a) /\
    strcmp fuel m' dst src = Some (lex_diff (take k l) l) /\
    (Z.of_nat (length l) < size -> strcmp fuel m' dst src = Some 0).
Proof.
  intros Hok Hc Hsz Hd Hov Hf k.
  destruct (strlcpy_spec fuel m dst src size l Hok Hc Hsz Hd Hov Hf) as (m' & HL & Hd1 & Hs1 & Hfr).
  fold k in Hd1, Hfr. exists m'.
  assert (strcmp fuel m' dst src = Some (lex_diff (take k l) l)) as Hcmp.
  { apply strcmp_spec; [done|done|]. rewrite length_take. lia. }
  split_and!; [done|done|done|done|]. intros Hfit. rewrite Hcmp.
  replace k with (length l) by lia. rewrite firstn_all. f_equal.
  clear. induction l as [|x l IH]; [done|]. cbn. by rewrite Z.eqb_refl.
Qed.

Definition demo_str : mem :=
  <[105 := 0]> (<[104 := 99]> (<[103 := 98]> (<[102 := 97]> (<[100 := 7]> (<[101 := 7]> ∅))))).

Lemma strlcpy_correct_witness :
  exists m', strlcpy 4 demo_str 100 102 2 = Some (m', 3) /\ cstr m' 100 [97].
Proof.
  destruct (strlcpy_correct 4 demo_str 100 102 2 [97; 98; 99]) as (m' & HL & Hc & _).
  - apply bytes_okb_ok. by vm_compute.
  - cbn. split_and!; try lia; vm_compute; done.
  - lia.
  - apply mappedb_ok. by vm_compute.
  - left. cbn. lia.
  - cbn. lia.
  - exists m'. split; [exact HL|exact Hc].
Defined.

(** strstr.  With more fuel than the haystack is long, strstr reads only the two
    strings, terminates, and returns the address of the first occurrence of the needle,
    or NULL when the needle occurs nowhere. *)
Theorem strstr_first fuel m h n hs ns :
  cstr m h hs -> cstr m n ns -> (length hs < fuel)%nat ->
  exists r, strstr fuel m h n = Some r /\ first_occurrence h hs ns r.
Proof.
  intros Hh Hn Hf. unfold strstr. rewrite (bind_eq _ _ _ (cstr_load _ _ _ Hn)). destruct ns as [|y ns].
  - exists h. split; [done|]. left. exists 0%nat. rewrite Z.add_0_r.
    split_and!; [done|apply prefix_nil|lia].
  - assert (y <> 0) as Hy by (cbn in Hn; tauto).
    cbn [head default from_option id]. rewrite (proj2 (Z.eqb_neq y 0) Hy).
    by apply (strstr_loop_spec fuel m n (y :: ns)).
Qed.

Lemma strstr_first_witness :
  exists r, strstr 4 demo_str 102 104 = Some r /\ first_occurrence 102 [97; 98; 99] [99] r.
Proof.
  apply (strstr_first 4 demo_str 102 104 [97; 98; 99] [99]).
  - cbn. split_and!; try lia; vm_compute; done.
  - cbn. split_and!; try lia; vm_compute; done.
  - cbn. lia.
Defined.
