(* ===== verification/Format.v ===== *)
(** * Formatted output (kernel/lib/format.c)

    The engine calls a sink once per character, so it is a function of the sink's
    state; a sink may refuse (an out-of-bounds write).  The format and the [%s]
    arguments are the contents of their C strings, the variable arguments a list of
    words and strings; a missing or ill-typed argument, like a write outside
    [emit_uint]'s 32-byte buffer, is undefined behaviour ([None]). *)

From Stdlib Require Import Ascii String.
From S2P Require Import Prelude.
Local Open Scope Z_scope.
Local Abbreviation length := Datatypes.length.

(** The characters of a literal. *)
Definition chr (a : ascii) : Z := Z.of_N (N_of_ascii a).

Definition chars (s : string) : list Z := map chr (list_ascii_of_string s).

(** One variable argument: a 32-bit word or a [const char *] (NULL is [None]). *)
Inductive va_arg_t :=
  | VaInt (w : Z)
  | VaStr (s : option (list Z)).

(** ** The engine *)

Section Engine.
Context {S : Type} (put : Z -> S -> option S).

Fixpoint put_all (l : list Z) (s : S) : option S :=
  match l with
  | [] => Some s
  | c :: l' => s1 ← put c s; put_all l' s1
  end.

Definition emit_string (str : option (list Z)) (s : S) : option S :=
  put_all (default (chars "(null)") str) s.

Definition digits (upper : bool) : list Z :=
  chars (if upper then "0123456789ABCDEF" else "0123456789abcdef").

(** [while (val > 0)]; 32 turns are enough for any base above 1. *)
Fixpoint digit_loop (fuel : nat) (upper : bool) (base val pos : Z) (buf : list Z)
    : option (list Z * Z) :=
  if val =? 0 then Some (buf, pos)
  else match fuel with
  | O => None
  | Datatypes.S fuel' =>
      d ← geti (digits upper) (val mod base);
      buf1 ← seti buf pos d;
      digit_loop fuel' upper base (val / base) (pos + 1) buf1
  end.

(** [while (pos < min_width)], [k] = min_width - pos. *)
Fixpoint pad_loop (k : nat) (pad_char pos : Z) (buf : list Z) : option (list Z * Z) :=
  match k with
  | O => Some (buf, pos)
  | Datatypes.S k' => buf1 ← seti buf pos pad_char; pad_loop k' pad_char (pos + 1) buf1
  end.

(** [for (i = pos - 1; i >= 0; i--)], [k] = i + 1. *)
Fixpoint out_loop (k : nat) (buf : list Z) (s : S) : option S :=
  match k with
  | O => Some s
  | Datatypes.S k' => c ← geti buf (Z.of_nat k'); s1 ← put c s; out_loop k' buf s1
  end.

Definition emit_uint (val base : Z) (upper : bool) (min_width pad_char : Z) (s : S) : option S :=
  let buf := replicate 32 0 in
  '(buf1, pos) ←
    (if val =? 0 then buf1 ← seti buf 0 (chr "0"); Some (buf1, 1)
     else digit_loop 32 upper base val 0 buf);
  '(buf2, pos2) ← pad_loop (Z.to_nat (min_width - pos)) pad_char pos buf1;
  out_loop (Z.to_nat pos2) buf2 s.

Definition emit_int (val min_width pad_char : Z) (s : S) : option S :=
  if val <? 0 then
    s1 ← put (chr "-") s;
    emit_uint (u32 (- u32 val)) 10 false (if min_width =? 0 then 0 else min_width - 1) pad_char s1
  else emit_uint (u32 val) 10 false min_width pad_char s.

(** The [switch]: the new sink state and the arguments left. *)
Definition convert (c min_width pad_char : Z) (args : list va_arg_t) (s : S)
    : option (S * list va_arg_t) :=
  if (c =? chr "d") || (c =? chr "i") then
    match args with
    | VaInt w :: args' => s1 ← emit_int (s32 w) min_width pad_char s; Some (s1, args')
    | _ => None
    end
  else if c =? chr "u" then
    match args with
    | VaInt w :: args' => s1 ← emit_uint (u32 w) 10 false min_width pad_char s; Some (s1, args')
    | _ => None
    end
  else if c =? chr "x" then
    match args with
    | VaInt w :: args' => s1 ← emit_uint (u32 w) 16 false min_width pad_char s; Some (s1, args')
    | _ => None
    end
  else if c =? chr "X" then
    match args with
    | VaInt w :: args' => s1 ← emit_uint (u32 w) 16 true min_width pad_char s; Some (s1, args')
    | _ => None
    end
  else if c =? chr "p" then
    match args with
    | VaInt w :: args' =>
        s1 ← emit_string (Some (chars "0x")) s;
        s2 ← emit_uint (u32 w) 16 false 8 (chr "0") s1; Some (s2, args')
    | _ => None
    end
  else if c =? chr "s" then
    match args with
    | VaStr str :: args' => s1 ← emit_string str s; Some (s1, args')
    | _ => None
    end
  else if c =? chr "c" then
    match args with
    | VaInt w :: args' => s1 ← put (u8 w) s; Some (s1, args')
    | _ => None
    end
  else if c =? chr "%" then s1 ← put (chr "%") s; Some (s1, args)
  else s1 ← put (chr "%") s; s2 ← put c s1; Some (s2, args).

Definition parse_pad (fmt : list Z) : Z * list Z :=
  match fmt with
  | c :: r => if c =? chr "0" then (chr "0", r) else (chr " ", fmt)
  | [] => (chr " ", fmt)
  end.

Fixpoint parse_width (w : Z) (fmt : list Z) : Z * list Z :=
  match fmt with
  | c :: r => if (chr "0" <=? c) && (c <=? chr "9") then parse_width (s32 (w * 10 + (c - chr "0"))) r
              else (w, fmt)
  | [] => (w, [])
  end.

Fixpoint format_output (fuel : nat) (fmt : list Z) (args : list va_arg_t) (s : S) : option S :=
  match fmt with
  | [] => Some s
  | c :: fmt1 =>
      match fuel with
      | O => None
      | Datatypes.S fuel' =>
          if negb (c =? chr "%") then
            s1 ← put c s; format_output fuel' fmt1 args s1
          else
            let '(pad_char, fmt2) := parse_pad fmt1 in
            let '(min_width, fmt3) := parse_width 0 fmt2 in
            match fmt3 with
            | [] => Some s
            | k :: fmt4 =>
                '(s1, args1) ← convert k min_width pad_char args s;
                format_output fuel' fmt4 args1 s1
            end
      end
  end.

End Engine.

(** ** The buffer sink *)

Record buffer_sink_t := mk_sink { buf : list Z; size : Z; pos : Z }.

Definition buffer_put (c : Z) (s : buffer_sink_t) : option buffer_sink_t :=
  b ← (if pos s <? size s ⊟ 1 then seti (buf s) (pos s) c else Some (buf s));
  Some (mk_sink b (size s) (pos s ⊞ 1)).

(** The buffer after the call and the returned [int]. *)
Definition vsnprintf (fuel : nat) (b : option (list Z)) (sz : Z) (fmt : list Z)
    (args : list va_arg_t) : option (option (list Z) * Z) :=
  match b with
  | None => Some (None, 0)
  | Some b =>
      if sz =? 0 then Some (Some b, 0)
      else
        sink ← format_output buffer_put fuel fmt args (mk_sink b sz 0);
        let end_ := if pos sink <? sz - 1 then pos sink else sz - 1 in
        b1 ← seti (buf sink) end_ 0;
        Some (Some b1, s32 (pos sink))
  end.

(** ** Numbers *)

(** Little-endian digits of [val]. *)
Fixpoint le_digits (fuel : nat) (base val : Z) : list Z :=
  match fuel with
  | O => []
  | S fuel' => if val =? 0 then [] else val mod base :: le_digits fuel' base (val / base)
  end.

Definition value (base : Z) (ds : list Z) : Z := foldr (fun d acc => d + base * acc) 0 ds.

Definition digit_char (upper : bool) (d : Z) : Z := default 0 (geti (digits upper) d).

Lemma digit_ok upper d : 0 <= d < 16 -> geti (digits upper) d = Some (digit_char upper d).
Proof.
  intros Hd. unfold digit_char. destruct (geti_in_range (digits upper) d) as [x ->]; [|done].
  by destruct upper; cbn.
Qed.

Lemma le_digits_spec base fuel : 2 <= base -> forall val, 0 <= val < 2 ^ Z.of_nat fuel ->
  Forall (fun d => 0 <= d < base) (le_digits fuel base val) /\
  value base (le_digits fuel base val) = val /\
  (length (le_digits fuel base val) <= fuel)%nat /\
  (val <> 0 -> last (le_digits fuel base val) <> Some 0 /\ le_digits fuel base val <> []).
Proof.
  intros Hb. induction fuel as [|fuel IH]; intros val Hv; cbn [le_digits].
  { change (2 ^ Z.of_nat 0) with 1 in Hv. split_and!; [constructor|cbn; lia|cbn; lia|lia]. }
  destruct (Z.eqb_spec val 0) as [->|Hne]; [split_and!; [constructor|done|cbn; lia|done]|].
  assert (0 <= val / base < 2 ^ Z.of_nat fuel) as Hd.
  { rewrite Nat2Z.inj_succ, Z.pow_succ_r in Hv by lia. split; [apply Z.div_pos; lia|].
    apply Z.div_lt_upper_bound; nia. }
  destruct (IH _ Hd) as (H1 & H2 & H3 & H4). pose proof (Z.mod_pos_bound val base ltac:(lia)).
  split_and!.
  - by constructor.
  - unfold value in *. cbn [foldr]. rewrite H2. pose proof (Z.div_mod val base). lia.
  - cbn. lia.
  - intros _. split; [|done]. destruct (Z.eq_dec (val / base) 0) as [Hz|Hz].
    + rewrite Hz. replace (le_digits fuel base 0) with (@nil Z) by (by destruct fuel).
      cbn. intros [= Hm]. pose proof (Z.div_mod val base). lia.
    + destruct (H4 Hz) as [Hl Hn]. destruct (le_digits fuel base (val / base)); done.
Qed.

(** The first [length l] cells of the buffer are [l]. *)
Definition holds (b l : list Z) : Prop := length b = 32%nat /\ take (length l) b = l.

Lemma holds_push b l x : holds b l -> (length l < 32)%nat ->
  exists b', seti b (Z.of_nat (length l)) x = Some b' /\ holds b' (l ++ [x]).
Proof.
  intros [Hb Hl] Hlt. eexists. split; [apply seti_in_range; lia|]. rewrite Nat2Z.id. split.
  - by rewrite length_insert.
  - rewrite length_app. cbn. rewrite Nat.add_1_r, (take_S_r _ _ x).
    + by rewrite take_insert_ge, Hl by lia.
    + apply list_lookup_insert_eq. lia.
Qed.

Lemma digit_loop_spec upper base fuel : 2 <= base <= 16 -> forall val b l,
  0 <= val < 2 ^ Z.of_nat fuel -> holds b l -> (length l + fuel <= 32)%nat ->
  exists b', digit_loop fuel upper base val (Z.of_nat (length l)) b
    = Some (b', Z.of_nat (length l + length (le_digits fuel base val))) /\
    holds b' (l ++ map (digit_char upper) (le_digits fuel base val)).
Proof.
  intros Hb. induction fuel as [|fuel IH]; intros val b l Hv Hl Hf; cbn [digit_loop le_digits];
    destruct (Z.eqb_spec val 0) as [->|Hne].
  1,3: (exists b; cbn; rewrite app_nil_r; split; [do 2 f_equal; lia|done]).
  { change (2 ^ Z.of_nat 0) with 1 in Hv. lia. }
  pose proof (Z.mod_pos_bound val base ltac:(lia)).
  rewrite (bind_eq _ _ _ (digit_ok upper (val mod base) ltac:(lia))).
  destruct (holds_push b l (digit_char upper (val mod base)) Hl) as (b1 & Hs & Hl1); [lia|].
  run_bind Hs.
  replace (Z.of_nat (length l) + 1)
    with (Z.of_nat (length (l ++ [digit_char upper (val mod base)])))
    by (rewrite length_app; cbn; lia).
  destruct (IH (val / base) b1 (l ++ [digit_char upper (val mod base)])) as (b' & Hd & Hh).
  - rewrite Nat2Z.inj_succ, Z.pow_succ_r in Hv by lia. split; [apply Z.div_pos; lia|].
    apply Z.div_lt_upper_bound; nia.
  - done.
  - rewrite length_app. cbn. lia.
  - exists b'. rewrite Hd. split.
    + rewrite length_app. cbn. do 2 f_equal. lia.
    + cbn [map]. by rewrite <- app_assoc in Hh.
Qed.

Lemma pad_loop_spec pad k : forall b l, holds b l -> (length l + k <= 32)%nat ->
  exists b', pad_loop k pad (Z.of_nat (length l)) b = Some (b', Z.of_nat (length l + k)) /\
    holds b' (l ++ replicate k pad).
Proof.
  induction k as [|k IH]; intros b l Hl Hk; cbn [pad_loop].
  { exists b. cbn. rewrite app_nil_r. split; [do 2 f_equal; lia|done]. }
  destruct (holds_push b l pad Hl) as (b1 & Hs & Hl1); [lia|]. run_bind Hs.
  replace (Z.of_nat (length l) + 1) with (Z.of_nat (length (l ++ [pad])))
    by (rewrite length_app; cbn; lia).
  destruct (IH b1 (l ++ [pad]) Hl1) as (b' & Hd & Hh); [rewrite length_app; cbn; lia|].
  exists b'. rewrite Hd. split.
  - rewrite length_app. cbn. do 2 f_equal. lia.
  - by rewrite <- app_assoc in Hh.
Qed.

(** Padding past the 32 bytes of the buffer is the overflow. *)
Lemma pad_loop_overflow pad k : forall pos (b : list Z), length b = 32%nat -> 0 <= pos <= 32 ->
  32 < pos + Z.of_nat k -> pad_loop k pad pos b = None.
Proof.
  induction k as [|k IH]; intros pos b Hb Hp Hk; cbn [pad_loop]; [lia|].
  destruct (seti b pos pad) as [b1|] eqn:Hs; [|done]. cbn [mbind option_bind].
  pose proof (seti_Some _ _ _ _ Hs) as [? _].
  apply IH; [by rewrite (length_seti _ _ _ _ Hs)|lia|lia].
Qed.

Lemma out_loop_spec {S} (put : Z -> S -> option S) b l : holds b l -> forall k s,
  (k <= length l)%nat -> out_loop put k b s = put_all put (rev (take k l)) s.
Proof.
  intros [Hb Hl]. induction k as [|k IH]; intros s Hk; cbn [out_loop]; [done|].
  destruct (lookup_lt_is_Some_2 l k) as [x Hx]; [lia|].
  assert (geti b (Z.of_nat k) = Some x) as Hg.
  { unfold geti. case_if; [lia|]. rewrite Nat2Z.id. rewrite <- Hl in Hx.
    by apply lookup_take_Some in Hx as [? _]. }
  run_bind Hg. rewrite (take_S_r _ _ x Hx), rev_app_distr. cbn.
  destruct (put x s); [|done]. cbn. apply IH. lia.
Qed.

Lemma rev_replicate {A} n (x : A) : rev (replicate n x) = replicate n x.
Proof.
  induction n as [|n IH]; [done|]. rewrite replicate_S at 1. cbn [rev].
  by rewrite IH, <- replicate_S_end.
Qed.

(** What emit_uint prints. *)
Definition number (val base : Z) : list Z :=
  if val =? 0 then [0] else le_digits 32 base val.

Definition render_uint (val base : Z) (upper : bool) (min_width pad_char : Z) : list Z :=
  replicate (Z.to_nat (min_width - Z.of_nat (length (number val base)))) pad_char
  ++ rev (map (digit_char upper) (number val base)).

Lemma number_spec val base : 2 <= base -> is_u32 val ->
  number val base <> [] /\ Forall (fun d => 0 <= d < base) (number val base) /\
  value base (number val base) = val /\ (val <> 0 -> last (number val base) <> Some 0) /\
  (length (number val base) <= 32)%nat.
Proof.
  intros Hb Hv. unfold number. destruct (Z.eqb_spec val 0) as [->|Hne].
  - split_and!; [done|repeat constructor; lia|cbn; lia|done|cbn; lia].
  - destruct (le_digits_spec base 32 Hb val) as (H1 & H2 & H3 & H4); [done|].
    destruct (H4 Hne) as [? ?]. done.
Qed.

(** The digits reach the buffer, in either branch. *)
Lemma digits_in_buffer upper val base : 2 <= base <= 16 -> is_u32 val ->
  exists b', (if val =? 0 then buf1 ← seti (replicate 32 0) 0 (chr "0"); Some (buf1, 1)
              else digit_loop 32 upper base val 0 (replicate 32 0))
    = Some (b', Z.of_nat (length (number val base))) /\
    holds b' (map (digit_char upper) (number val base)).
Proof.
  intros Hb Hv. unfold number. destruct (Z.eqb_spec val 0) as [->|Hne].
  - eexists. split; [vm_compute; reflexivity|]. by destruct upper; split; vm_compute.
  - destruct (digit_loop_spec upper base 32 Hb val (replicate 32 0) []) as (b' & Hd & Hh);
      [done|by split|cbn; lia|]. by exists b'.
Qed.

Lemma emit_uint_spec val base upper w pad : 2 <= base <= 16 -> is_u32 val -> w <= 32 ->
  forall S (put : Z -> S -> option S) s,
  emit_uint put val base upper w pad s = put_all put (render_uint val base upper w pad) s.
Proof.
  intros Hb Hv Hw S put s. unfold emit_uint, render_uint.
  destruct (digits_in_buffer upper val base Hb Hv) as (b1 & H1 & Hh1). run_bind H1.
  destruct (number_spec val base ltac:(lia) Hv) as (_ & _ & _ & _ & Hlen).
  set (l := map (digit_char upper) (number val base)) in *.
  assert (length l = length (number val base)) as Hl by apply length_map.
  rewrite <- Hl in *.
  destruct (pad_loop_spec pad (Z.to_nat (w - Z.of_nat (length l))) b1 l Hh1) as (b2 & H2 & Hh2);
    [lia|].
  run_bind H2. rewrite Nat2Z.id.
  rewrite (out_loop_spec put b2 _ Hh2) by (rewrite length_app, length_replicate; lia).
  rewrite take_ge by (rewrite length_app, length_replicate; lia).
  by rewrite rev_app_distr, rev_replicate.
Qed.

Lemma emit_uint_overflow val base upper w pad : 2 <= base <= 16 -> is_u32 val -> 32 < w ->
  forall S (put : Z -> S -> option S) s, emit_uint put val base upper w pad s = None.
Proof.
  intros Hb Hv Hw S put s. unfold emit_uint.
  destruct (digits_in_buffer upper val base Hb Hv) as (b1 & H1 & Hh1). run_bind H1.
  destruct (number_spec val base ltac:(lia) Hv) as (_ & _ & _ & _ & Hlen).
  rewrite pad_loop_overflow; [done|apply Hh1|lia|lia].
Qed.

(** ** The engine as a producer of characters *)

(** An emitter that prints [r], or fails, whatever the sink. *)
Definition prints (f : forall S, (Z -> S -> option S) -> S -> option S) (r : option (list Z)) : Prop :=
  forall S (put : Z -> S -> option S) s, f S put s = (out ← r; put_all put out s).

Lemma put_all_app {S} (put : Z -> S -> option S) l1 l2 s :
  put_all put (l1 ++ l2) s = (s1 ← put_all put l1 s; put_all put l2 s1).
Proof.
  revert s. induction l1 as [|c l1 IH]; intros s; cbn; [done|].
  destruct (put c s); cbn; [apply IH|done].
Qed.

Definition render_int (val min_width pad_char : Z) : list Z :=
  if val <? 0 then
    chr "-" :: render_uint (u32 (- u32 val)) 10 false
                 (if min_width =? 0 then 0 else min_width - 1) pad_char
  else render_uint (u32 val) 10 false min_width pad_char.

(** What one conversion prints and the arguments left; [None] for a number wider
    than the buffer or a missing or ill-typed argument. *)
Definition render_number (ok : bool) (l : list Z) (args : list va_arg_t)
    : option (list Z * list va_arg_t) :=
  if ok then Some (l, args) else None.

Definition int_width (val min_width : Z) : Z :=
  if val <? 0 then if min_width =? 0 then 0 else min_width - 1 else min_width.

Definition render_conv (c w pad : Z) (args : list va_arg_t) : option (list Z * list va_arg_t) :=
  if (c =? chr "d") || (c =? chr "i") then
    match args with
    | VaInt v :: a => render_number (int_width (s32 v) w <=? 32) (render_int (s32 v) w pad) a
    | _ => None
    end
  else if c =? chr "u" then
    match args with
    | VaInt v :: a => render_number (w <=? 32) (render_uint (u32 v) 10 false w pad) a
    | _ => None
    end
  else if c =? chr "x" then
    match args with
    | VaInt v :: a => render_number (w <=? 32) (render_uint (u32 v) 16 false w pad) a
    | _ => None
    end
  else if c =? chr "X" then
    match args with
    | VaInt v :: a => render_number (w <=? 32) (render_uint (u32 v) 16 true w pad) a
    | _ => None
    end
  else if c =? chr "p" then
    match args with
    | VaInt v :: a => Some (chars "0x" ++ render_uint (u32 v) 16 false 8 (chr "0"), a)
    | _ => None
    end
  else if c =? chr "s" then
    match args with
    | VaStr str :: a => Some (default (chars "(null)") str, a)
    | _ => None
    end
  else if c =? chr "c" then
    match args with VaInt v :: a => Some ([u8 v], a) | _ => None end
  else if c =? chr "%" then Some ([chr "%"], args)
  else Some ([chr "%"; c], args).

Fixpoint render (fuel : nat) (fmt : list Z) (args : list va_arg_t) : option (list Z) :=
  match fmt with
  | [] => Some []
  | c :: fmt1 =>
      match fuel with
      | O => None
      | S fuel' =>
          if negb (c =? chr "%") then cons c <$> render fuel' fmt1 args
          else
            let '(pad_char, fmt2) := parse_pad fmt1 in
            let '(min_width, fmt3) := parse_width 0 fmt2 in
            match fmt3 with
            | [] => Some []
            | k :: fmt4 =>
                '(l, args1) ← render_conv k min_width pad_char args;
                app l <$> render fuel' fmt4 args1
            end
      end
  end.

Lemma emit_uint_prints val base upper w pad : 2 <= base <= 16 -> is_u32 val ->
  prints (fun S put s => emit_uint put val base upper w pad s)
    (if w <=? 32 then Some (render_uint val base upper w pad) else None).
Proof.
  intros Hb Hv S put s. case_if; [by apply emit_uint_spec|by apply emit_uint_overflow].
Qed.

Lemma emit_int_prints val w pad :
  prints (fun S put s => emit_int put val w pad s)
    (if int_width val w <=? 32 then Some (render_int val w pad) else None).
Proof.
  intros S put s. unfold emit_int, render_int, int_width. destruct (val <? 0).
  - set (w' := if w =? 0 then 0 else w - 1).
    destruct (put (chr "-") s) as [s1|] eqn:Hp; cbn [mbind option_bind].
    + rewrite (emit_uint_prints _ 10 false w' pad ltac:(lia) (u32_range _)).
      case_if; [|done]. cbn. by rewrite Hp.
    + case_if; [|done]. cbn. by rewrite Hp.
  - apply (emit_uint_prints _ 10 false w pad ltac:(lia) (u32_range _)).
Qed.

(** One conversion prints its rendering. *)
Lemma convert_prints c w pad args S (put : Z -> S -> option S) s :
  convert put c w pad args s
  = ('(l, a) ← render_conv c w pad args; s1 ← put_all put l s; Some (s1, a)).
Proof.
  unfold convert, render_conv, render_number.
  repeat match goal with |- context [if ?b then _ else _] =>
    lazymatch b with context [chr] => destruct b | _ => fail end end;
    try (destruct args as [|[v|str] a]; try done).
  - rewrite emit_int_prints. by case_if.
  - rewrite (emit_uint_prints _ 10 _ _ _ ltac:(lia) (u32_range _)). by case_if.
  - rewrite (emit_uint_prints _ 16 _ _ _ ltac:(lia) (u32_range _)). by case_if.
  - rewrite (emit_uint_prints _ 16 _ _ _ ltac:(lia) (u32_range _)). by case_if.
  - cbn [mbind option_bind]. rewrite put_all_app. unfold emit_string.
    cbn [default from_option id].
    destruct (put_all put (chars "0x") s) as [s1|]; cbn [mbind option_bind]; [|done].
    by rewrite (emit_uint_prints _ 16 _ _ _ ltac:(lia) (u32_range _)).
  - cbn. by destruct (put (u8 v) s).
  - cbn. by destruct (put (chr "%") s).
  - cbn. by destruct (put (chr "%") s).
  - cbn. by destruct (put (chr "%") s).
  - cbn. destruct (put (chr "%") s) as [s1|]; cbn; [|done]. by destruct (put c s1).
  - cbn. destruct (put (chr "%") s) as [s1|]; cbn; [|done]. by destruct (put c s1).
  - cbn. destruct (put (chr "%") s) as [s1|]; cbn; [|done]. by destruct (put c s1).
Qed.

Lemma format_output_prints fuel : forall fmt args S (put : Z -> S -> option S) s,
  format_output put fuel fmt args s = (out ← render fuel fmt args; put_all put out s).
Proof.
  induction fuel as [|fuel IH]; intros [|c fmt1] args S put s; try done.
  cbn [format_output render]. destruct (negb (c =? chr "%")).
  - destruct (put c s) as [s1|] eqn:Hp; cbn [mbind option_bind].
    + rewrite IH. destruct (render fuel fmt1 args); cbn; by rewrite ?Hp.
    + destruct (render fuel fmt1 args); cbn; by rewrite ?Hp.
  - destruct (parse_pad fmt1) as [pad fmt2]. destruct (parse_width 0 fmt2) as [w fmt3].
    destruct fmt3 as [|k fmt4]; [done|]. rewrite convert_prints.
    destruct (render_conv k w pad args) as [[l a]|]; cbn [mbind option_bind]; [|done].
    destruct (put_all put l s) as [s1|] eqn:Hp; cbn [mbind option_bind].
    + rewrite IH. destruct (render fuel fmt4 a); cbn; by rewrite ?put_all_app, ?Hp.
    + destruct (render fuel fmt4 a); cbn; by rewrite ?put_all_app, ?Hp.
Qed.

Lemma parse_pad_length fmt : (length (parse_pad fmt).2 <= length fmt)%nat.
Proof. destruct fmt as [|c r]; cbn; [lia|]. destruct (c =? chr "0"); cbn; lia. Qed.

Lemma parse_width_length fmt : forall w, (length (parse_width w fmt).2 <= length fmt)%nat.
Proof.
  induction fmt as [|c r IH]; intros w; cbn; [lia|]. destruct (_ && _); cbn; [|lia].
  specialize (IH (s32 (w * 10 + (c - chr "0")))). lia.
Qed.

(** As much fuel as the format is long is enough. *)
Lemma render_fuel fuel : forall fuel' fmt args,
  (length fmt <= fuel)%nat -> (length fmt <= fuel')%nat ->
  render fuel fmt args = render fuel' fmt args.
Proof.
  induction fuel as [|fuel IH]; intros [|fuel'] [|c fmt] args H1 H2; cbn in H1, H2; try lia; try done.
  cbn [render]. destruct (negb _); [by rewrite (IH fuel') by lia|].
  pose proof (parse_pad_length fmt). destruct (parse_pad fmt) as [pad fmt2]. cbn in *.
  pose proof (parse_width_length fmt2 0). destruct (parse_width 0 fmt2) as [w [|k fmt4]]; [done|].
  cbn in *. destruct (render_conv k w pad args) as [[l a]|]; cbn; [|done].
  by rewrite (IH fuel') by lia.
Qed.

(** ** The buffer sink *)

(** Characters beyond the last cell but one are counted and dropped. *)
Lemma buffer_put_all out : forall b sz p, 1 <= sz < 0x100000000 -> sz <= Z.of_nat (length b) ->
  0 <= p -> p + Z.of_nat (length out) < 0x100000000 ->
  exists b', put_all buffer_put out (mk_sink b sz p)
    = Some (mk_sink b' sz (p + Z.of_nat (length out))) /\
    length b' = length b /\
    forall i, geti b' i = if (p <=? i) && (i <? Z.min (p + Z.of_nat (length out)) (sz - 1))
                          then geti out (i - p) else geti b i.
Proof.
  induction out as [|c out IH]; intros b sz p Hsz Hb Hp Hlen; cbn [put_all length] in *.
  { exists b. rewrite Z.add_0_r. split_and!; [done|done|]. intros i.
    repeat case_cmp; cbn; done || lia. }
  assert (forall i, 0 < i -> geti (c :: out) i = geti out (i - 1)) as Hcons.
  { intros i Hi. unfold geti. repeat case_if; try lia. replace (Z.to_nat i) with (S (Z.to_nat (i - 1))) by lia. done. }
  assert (exists b1, buffer_put c (mk_sink b sz p) = Some (mk_sink b1 sz (p + 1)) /\
            length b1 = length b /\
            forall i, geti b1 i = if (i =? p) && (p <? sz - 1) then Some c else geti b i)
    as (b1 & H1 & Hl1 & Hg1).
  { unfold buffer_put. cbn [buf size pos]. rewrite !u32_small by lia.
    destruct (Z.ltb_spec p (sz - 1)).
    - destruct (seti_in_range b p c) as []; [lia|].
      pose proof (seti_in_range b p c ltac:(lia)) as Hs. run_bind Hs. eexists.
      split; [done|]. split; [by eapply length_seti|]. intros i.
      destruct (Z.eqb_spec i p) as [->|]; cbn; [by eapply geti_seti_eq|].
      by eapply geti_seti_ne.
    - eexists. split; [done|]. split; [done|]. intros i. by rewrite andb_false_r. }
  run_bind H1. destruct (IH b1 sz (p + 1) Hsz) as (b' & -> & Hl & Hg); [lia|lia|lia|].
  exists b'. replace (p + Z.of_nat (S (length out))) with (p + 1 + Z.of_nat (length out)) by lia.
  split_and!; [done|congruence|]. intros i. rewrite Hg, Hg1.
  destruct (Z.eq_dec i p) as [->|Hne].
  - rewrite Z.eqb_refl, Z.sub_diag. repeat case_cmp; cbn; done || lia.
  - rewrite (proj2 (Z.eqb_neq i p) Hne). cbn. repeat case_cmp; cbn; try done; try lia.
    rewrite Hcons by lia. f_equal. lia.
Qed.

(** ** The properties *)

(** numbers.  For a base from 2 to 16 and a width of at most 32, emit_uint stays in
    its buffer and prints padding followed by the digits of the value: at least one,
    each below the base, no leading zero, worth exactly the value; and the whole is as
    wide as asked.  A larger width writes past the 32-byte buffer. *)
Theorem emit_uint_correct val base upper w pad :
  2 <= base <= 16 -> is_u32 val ->
  exists ds, ds <> [] /\ Forall (fun d => 0 <= d < base) ds /\ value base ds = val /\
    (val <> 0 -> last ds <> Some 0) /\
    forall S (put : Z -> S -> option S) s,
      emit_uint put val base upper w pad s
      = if w <=? 32
        then put_all put (replicate (Z.to_nat (w - Z.of_nat (length ds))) pad
                          ++ rev (map (digit_char upper) ds)) s
        else None.
Proof.
  intros Hb Hv. destruct (number_spec val base ltac:(lia) Hv) as (H1 & H2 & H3 & H4 & _).
  exists (number val base). split_and!; [done..|]. intros S put s. case_if.
  - by apply emit_uint_spec.
  - by apply emit_uint_overflow.
Qed.

Definition lput (c : Z) (l : list Z) : option (list Z) := Some (l ++ [c]).

Lemma emit_uint_correct_witness :
  exists ds, value 10 ds = 305 /\
    emit_uint lput 305 10 false 5 (chr "0") [] = put_all lput (replicate 2 (chr "0") ++ chars "305") [].
Proof.
  destruct (emit_uint_correct 305 10 false 5 (chr "0")) as (ds & _ & _ & Hv & _ & _).
  - lia.
  - unfold is_u32. lia.
  - exists ds. split; [exact Hv|]. vm_compute. reflexivity.
Defined.


