(* ===== verification/DList.v ===== *)
(** * Intrusive doubly linked list (kernel/lib/list.h)

    Pointer level: a heap maps the address of a node to its two pointers, the list is
    the sentinel node [head], and the operations are the assignments of the source in
    their order, [None] being an access to a node that does not exist.  The run
    queue, wait queues and IPC queues of the kernel are such lists. *)

From S2P Require Import Prelude.

Record list_node_t := mk_node { prev : Z; next : Z }.

Abbreviation heap := (gmap Z list_node_t).

Definition NULL : Z := 0.

(** [n->next = v] and [n->prev = v]. *)
Definition set_next (σ : heap) (n v : Z) : option heap :=
  x ← σ !! n; Some (<[n := mk_node (prev x) v]> σ).
Definition set_prev (σ : heap) (n v : Z) : option heap :=
  x ← σ !! n; Some (<[n := mk_node v (next x)]> σ).
Definition get_next (σ : heap) (n : Z) : option Z := next <$> σ !! n.
Definition get_prev (σ : heap) (n : Z) : option Z := prev <$> σ !! n.

Definition list_init (σ : heap) (lst : Z) : option heap :=
  σ1 ← set_next σ lst lst; set_prev σ1 lst lst.

Definition list_node_init (σ : heap) (node : Z) : option heap :=
  σ1 ← set_next σ node node; set_prev σ1 node node.

Definition list_empty (σ : heap) (lst : Z) : option bool :=
  x ← get_next σ lst; Some (x =? lst).

Definition list_node_is_linked (σ : heap) (node : Z) : option bool :=
  x ← get_next σ node; Some (negb (x =? node)).

Definition list_insert_after (σ : heap) (pos node : Z) : option heap :=
  x ← get_next σ pos;
  σ1 ← set_next σ node x;
  σ2 ← set_prev σ1 node pos;
  y ← get_next σ2 pos;
  σ3 ← set_prev σ2 y node;
  set_next σ3 pos node.

Definition list_insert_before (σ : heap) (pos node : Z) : option heap :=
  p ← get_prev σ pos; list_insert_after σ p node.

Definition list_push_back (σ : heap) (lst node : Z) : option heap :=
  list_insert_before σ lst node.

Definition list_push_front (σ : heap) (lst node : Z) : option heap :=
  list_insert_after σ lst node.

Definition list_remove (σ : heap) (node : Z) : option heap :=
  p ← get_prev σ node;
  x ← get_next σ node;
  σ1 ← set_next σ p x;
  x1 ← get_next σ1 node;
  p1 ← get_prev σ1 node;
  σ2 ← set_prev σ1 x1 p1;
  σ3 ← set_next σ2 node node;
  set_prev σ3 node node.

Definition list_pop_front (σ : heap) (lst : Z) : option (Z * heap) :=
  e ← list_empty σ lst;
  if (e : bool) then Some (NULL, σ)
  else
    node ← get_next σ lst;
    σ1 ← list_remove σ node;
    Some (node, σ1).

Definition list_first (σ : heap) (lst : Z) : option Z :=
  e ← list_empty σ lst;
  if (e : bool) then Some NULL else get_next σ lst.

Definition list_last (σ : heap) (lst : Z) : option Z :=
  e ← list_empty σ lst;
  if (e : bool) then Some NULL else get_prev σ lst.

(** [list_for_each]: the nodes visited, with fuel for the ring. *)
Fixpoint list_walk (fuel : nat) (σ : heap) (lst pos : Z) : option (list Z) :=
  if pos =? lst then Some []
  else match fuel with
  | O => None
  | S fuel' => x ← get_next σ pos; cons pos <$> list_walk fuel' σ lst x
  end.

Definition list_for_each (fuel : nat) (σ : heap) (lst : Z) : option (list Z) :=
  x ← get_next σ lst; list_walk fuel σ lst x.

(** ** The ring *)

Definition linked (σ : heap) (x y : Z) : Prop :=
  get_next σ x = Some y /\ get_prev σ y = Some x.

Fixpoint path (σ : heap) (xs : list Z) : Prop :=
  match xs with
  | x :: (y :: _) as r => linked σ x y /\ path σ r
  | _ => True
  end.

(** The list at sentinel [h] holds the nodes [l]; every other node of [nodes] is
    linked to itself. *)
Record dlist (σ : heap) (nodes : gset Z) (h : Z) (l : list Z) : Prop := {
  dl_path : path σ (h :: l ++ [h]);
  dl_nodup : NoDup (h :: l);
  dl_nodes : forall n, n ∈ h :: l -> n ∈ nodes;
  dl_free : forall n, n ∈ nodes -> n ∉ h :: l -> linked σ n n
}.

Lemma path_app σ u x v : path σ (u ++ x :: v) <-> path σ (u ++ [x]) /\ path σ (x :: v).
Proof.
  induction u as [|a u IH]; cbn [app]; [cbn; tauto|].
  destruct u as [|b u]; cbn [app path] in *; [tauto|]. rewrite IH. tauto.
Qed.

Lemma path_ext σ σ' xs : path σ xs ->
  (forall u x y v, xs = u ++ x :: y :: v ->
     get_next σ' x = get_next σ x /\ get_prev σ' y = get_prev σ y) -> path σ' xs.
Proof.
  induction xs as [|x xs IH]; [done|]. destruct xs as [|y xs]; [done|].
  intros [[H1 H2] Hp] Hs. split.
  - destruct (Hs [] x y xs eq_refl) as [E1 E2]. split; congruence.
  - apply IH; [done|]. intros u a b v E. apply (Hs (x :: u) a b v). by rewrite E.
Qed.

(** One assignment. *)
Lemma set_next_spec σ n v : is_Some (σ !! n) -> exists σ', set_next σ n v = Some σ' /\
  (forall a, get_next σ' a = if a =? n then Some v else get_next σ a) /\
  (forall a, get_prev σ' a = get_prev σ a).
Proof.
  intros [x Hx]. unfold set_next. run_bind Hx. eexists. split; [done|].
  unfold get_next, get_prev. split; intros a; destruct (Z.eqb_spec a n) as [->|];
    rewrite ?lookup_insert_eq, ?lookup_insert_ne, ?Hx by done; done.
Qed.

Lemma set_prev_spec σ n v : is_Some (σ !! n) -> exists σ', set_prev σ n v = Some σ' /\
  (forall a, get_prev σ' a = if a =? n then Some v else get_prev σ a) /\
  (forall a, get_next σ' a = get_next σ a).
Proof.
  intros [x Hx]. unfold set_prev. run_bind Hx. eexists. split; [done|].
  unfold get_next, get_prev. split; intros a; destruct (Z.eqb_spec a n) as [->|];
    rewrite ?lookup_insert_eq, ?lookup_insert_ne, ?Hx by done; done.
Qed.

Lemma get_next_node σ a x : get_next σ a = Some x -> is_Some (σ !! a).
Proof. unfold get_next. destruct (σ !! a); [by eexists|done]. Qed.

Lemma get_prev_node σ a x : get_prev σ a = Some x -> is_Some (σ !! a).
Proof. unfold get_prev. destruct (σ !! a); [by eexists|done]. Qed.

(** The effect of linking [n] between [p] and its successor [q]. *)
Lemma list_insert_after_spec σ p q n : linked σ p q -> is_Some (σ !! n) -> n <> p -> n <> q ->
  exists σ', list_insert_after σ p n = Some σ' /\
    (forall a, get_next σ' a = if a =? p then Some n else if a =? n then Some q else get_next σ a) /\
    (forall a, get_prev σ' a = if a =? q then Some n else if a =? n then Some p else get_prev σ a).
Proof.
  intros [Hpn Hqp] Hn Hne1 Hne2. unfold list_insert_after. run_bind Hpn.
  destruct (set_next_spec σ n q Hn) as (σ1 & S1 & N1 & P1). run_bind S1.
  destruct (set_prev_spec σ1 n p) as (σ2 & S2 & P2 & N2).
  { apply (get_next_node _ _ q). by rewrite N1, Z.eqb_refl. }
  run_bind S2.
  assert (get_next σ2 p = Some q) as Hy.
  { rewrite N2, N1. by rewrite (proj2 (Z.eqb_neq p n)) by congruence. }
  run_bind Hy.
  destruct (set_prev_spec σ2 q n) as (σ3 & S3 & P3 & N3).
  { eapply (get_prev_node _ _ p). rewrite P2, P1. by rewrite (proj2 (Z.eqb_neq q n)) by congruence. }
  run_bind S3.
  destruct (set_next_spec σ3 p n) as (σ4 & S4 & N4 & P4).
  { eapply (get_next_node _ _ q). by rewrite N3. }
  exists σ4. split; [done|]. split; intros a.
  - by rewrite N4, N3, N2, N1.
  - by rewrite P4, P3, P2, P1.
Qed.

(** The effect of unlinking [n] from between [p] and [q] (which may be equal). *)
Lemma list_remove_spec σ p q n : linked σ p n -> linked σ n q ->
  exists σ', list_remove σ n = Some σ' /\
    (forall a, get_next σ' a = if a =? n then Some n else if a =? p then Some q else get_next σ a) /\
    (forall a, get_prev σ' a = if a =? n then Some n else if a =? q then Some p else get_prev σ a).
Proof.
  intros [Hpn Hnp] [Hnq Hqn]. unfold list_remove. run_bind Hnp. run_bind Hnq.
  destruct (set_next_spec σ p q (get_next_node _ _ _ Hpn)) as (σ1 & S1 & N1 & P1). run_bind S1.
  assert (get_next σ1 n = Some q) as Hx by (rewrite N1; by case_if; congruence). run_bind Hx.
  assert (get_prev σ1 n = Some p) as Hy by (by rewrite P1). run_bind Hy.
  destruct (set_prev_spec σ1 q p) as (σ2 & S2 & P2 & N2).
  { eapply (get_prev_node _ _ n). by rewrite P1. }
  run_bind S2.
  destruct (set_next_spec σ2 n n) as (σ3 & S3 & N3 & P3).
  { eapply (get_next_node _ _ q). by rewrite N2. }
  run_bind S3.
  destruct (set_prev_spec σ3 n n) as (σ4 & S4 & P4 & N4).
  { eapply (get_next_node _ _ n). by rewrite N3, Z.eqb_refl. }
  exists σ4. split; [done|]. split; intros a.
  - by rewrite N4, N3, N2, N1.
  - by rewrite P4, P3, P2, P1.
Qed.

(** ** The ring under insertion and removal *)

Lemma adjacent_tail {A} (u v : list A) x y a w : u ++ x :: y :: v = a :: w -> y ∈ w.
Proof. destruct u as [|b u]; cbn; intros [= _ <-]; set_solver. Qed.

Lemma adjacent_init {A} (u v : list A) x y w b : u ++ x :: y :: v = w ++ [b] -> x ∈ w.
Proof.
  destruct (exists_last (l := y :: v)) as (v' & c & ->); [done|].
  rewrite app_comm_cons, app_assoc. intros [<- _]%app_inj_tail. set_solver +.
Qed.

(** The part of a path that does not use [p]'s successor nor [q]'s predecessor. *)
Lemma path_keep σ σ' xs p q n : path σ xs ->
  (forall a, a <> p -> a <> n -> get_next σ' a = get_next σ a) ->
  (forall a, a <> q -> a <> n -> get_prev σ' a = get_prev σ a) ->
  (forall u x y v, xs = u ++ x :: y :: v -> x <> p /\ x <> n /\ y <> q /\ y <> n) ->
  path σ' xs.
Proof.
  intros Hp Hn Hv Hadj. apply (path_ext σ); [done|]. intros u x y v E.
  destruct (Hadj u x y v E) as (? & ? & ? & ?). split; auto.
Qed.

(** The neighbours of a cut of the ring. *)
Lemma ring_cut h l1 l2 : NoDup (h :: l1 ++ l2) -> exists (U : list Z) (p q : Z) (V : list Z),
  h :: l1 = U ++ [p] /\ l2 ++ [h] = q :: V /\
  (forall (u : list Z) (x y : Z) (v : list Z), U ++ [p] = u ++ x :: y :: v -> x <> p /\ y <> q) /\
  (forall (u : list Z) (x y : Z) (v : list Z), q :: V = u ++ x :: y :: v -> x <> p /\ y <> q).
Proof.
  intros Hnd. destruct (exists_last (l := h :: l1)) as (U & p & HU); [done|].
  destruct l2 as [|q l2].
  - exists U, p, h, []. split_and!; [done|done| |].
    + intros u x y v E. rewrite app_nil_r in Hnd. split.
      * symmetry in E. apply (adjacent_init u v x y U p) in E.
        rewrite HU, NoDup_app in Hnd. set_solver +Hnd E.
      * rewrite <- HU in E. symmetry in E. apply adjacent_tail in E.
        apply NoDup_cons in Hnd as [Hh _]. set_solver +Hh E.
    + intros u x y v E. symmetry in E. by apply adjacent_tail, not_elem_of_nil in E.
  - exists U, p, q, (l2 ++ [h]). split_and!; [done|done| |].
    + intros u x y v E. rewrite <- HU in E. split.
      * rewrite HU in E. symmetry in E. apply adjacent_init in E.
        rewrite app_comm_cons, HU in Hnd. rewrite !NoDup_app in Hnd. set_solver +Hnd E.
      * symmetry in E. apply adjacent_tail in E. apply NoDup_cons in Hnd as [_ Hnd].
        rewrite NoDup_app in Hnd. set_solver +Hnd E.
    + intros u x y v E. symmetry in E. split.
      * rewrite app_comm_cons in E. apply adjacent_init in E.
        assert (p ∈ h :: l1) as Hp by (rewrite HU; set_solver +).
        rewrite app_comm_cons, NoDup_app in Hnd. set_solver +Hnd E Hp.
      * apply adjacent_tail in E. apply NoDup_cons in Hnd as [Hh Hnd].
        rewrite NoDup_app, NoDup_cons in Hnd. set_solver +Hh Hnd E.
Qed.

Lemma linked_ring σ u x y v : path σ (u ++ x :: y :: v) -> linked σ x y.
Proof. rewrite path_app. intros [_ [H _]]. done. Qed.

(** Linking a free node into a cut of the ring. *)
Lemma dlist_insert σ nodes h l1 l2 n p : dlist σ nodes h (l1 ++ l2) ->
  n ∈ nodes -> n ∉ h :: l1 ++ l2 -> last (h :: l1) = Some p ->
  exists σ', list_insert_after σ p n = Some σ' /\ dlist σ' nodes h (l1 ++ n :: l2).
Proof.
  intros [Hp Hnd Hns Hfree] Hn Hnot Hlast.
  destruct (ring_cut h l1 l2 Hnd) as (U & p' & q & V & HU & HV & Hadj1 & Hadj2).
  rewrite HU, last_snoc in Hlast. injection Hlast as ->.
  assert (h :: (l1 ++ l2) ++ [h] = U ++ p :: q :: V) as Hring.
  { rewrite <- app_assoc, app_comm_cons, HU, HV, <- app_assoc. done. }
  assert (forall x, x ∈ U ++ p :: q :: V -> x <> n) as Hnew.
  { intros x Hx ->. apply Hnot. rewrite <- Hring in Hx. set_solver +Hx. }
  rewrite Hring in Hp. pose proof (linked_ring _ _ _ _ _ Hp) as Hpq.
  destruct (Hfree n Hn Hnot) as [Hnn _].
  destruct (list_insert_after_spec σ p q n Hpq (get_next_node _ _ _ Hnn)) as (σ' & Hs & N & P);
    [intros ->; apply (Hnew p); [set_solver +|done]|intros ->; apply (Hnew q); [set_solver +|done]|].
  exists σ'. split; [done|].
  rewrite path_app in Hp. destruct Hp as [Hp1 [_ Hp2]].
  assert (forall a, a <> p -> a <> n -> get_next σ' a = get_next σ a) as Nsame.
  { intros a ? ?. rewrite N. by rewrite !(proj2 (Z.eqb_neq _ _)) by done. }
  assert (forall a, a <> q -> a <> n -> get_prev σ' a = get_prev σ a) as Psame.
  { intros a ? ?. rewrite P. by rewrite !(proj2 (Z.eqb_neq _ _)) by done. }
  assert (n <> p /\ n <> q) as [Hnp Hnq] by (split; intros E; symmetry in E; revert E; apply Hnew; set_solver +).
  constructor.
  - replace (h :: (l1 ++ n :: l2) ++ [h]) with (U ++ p :: n :: q :: V)
      by (rewrite <- app_assoc, app_comm_cons, HU; cbn; rewrite HV, <- app_assoc; done).
    rewrite path_app. split; [|split; [|split]].
    + apply (path_keep σ σ' _ p q n Hp1 Nsame Psame). intros u x y v E.
      destruct (Hadj1 u x y v E). assert (x ∈ U ++ [p] /\ y ∈ U ++ [p]) as [? ?] by (rewrite E; set_solver +).
      split_and!; try done; apply Hnew; set_solver.
    + split; rewrite ?N, ?P, ?Z.eqb_refl, ?(proj2 (Z.eqb_neq n q)); done.
    + split; rewrite ?N, ?P, ?Z.eqb_refl, ?(proj2 (Z.eqb_neq n p)); done.
    + apply (path_keep σ σ' _ p q n Hp2 Nsame Psame). intros u x y v E.
      destruct (Hadj2 u x y v E). split_and!; try done; apply Hnew; rewrite E; set_solver +.
  - apply NoDup_cons in Hnd as [Hh Hnd]. rewrite NoDup_app in Hnd.
    apply NoDup_cons. split; [set_solver +Hh Hnot|]. rewrite NoDup_app, NoDup_cons.
    set_solver +Hh Hnot Hnd.
  - intros x Hx. destruct (decide (x = n)) as [->|]; [done|]. apply Hns. set_solver.
  - intros x Hx Hx'. destruct (Hfree x Hx) as [F1 F2]; [set_solver|].
    assert (p ∈ h :: l1 ++ n :: l2 /\ q ∈ h :: l1 ++ n :: l2) as [? ?].
    { assert (p ∈ h :: l1) by (rewrite HU; set_solver +).
      assert (q ∈ l2 ++ [h]) by (rewrite HV; set_solver +). set_solver. }
    split; rewrite ?Nsame, ?Psame; try done; intros ->; apply Hx'; try done; set_solver +.
Qed.

(** Unlinking a node of the ring leaves it on its own. *)
Lemma dlist_remove σ nodes h l1 l2 n : dlist σ nodes h (l1 ++ n :: l2) ->
  exists σ', list_remove σ n = Some σ' /\ dlist σ' nodes h (l1 ++ l2).
Proof.
  intros [Hp Hnd Hns Hfree].
  assert (NoDup (h :: l1 ++ l2) /\ n ∉ h :: l1 ++ l2) as [Hnd' Hnot].
  { apply NoDup_cons in Hnd as [Hh Hnd]. rewrite NoDup_app, NoDup_cons in Hnd.
    rewrite NoDup_cons, NoDup_app. set_solver +Hh Hnd. }
  destruct (ring_cut h l1 l2 Hnd') as (U & p & q & V & HU & HV & Hadj1 & Hadj2).
  assert (h :: (l1 ++ n :: l2) ++ [h] = U ++ p :: n :: q :: V) as Hring
    by (rewrite <- app_assoc, app_comm_cons, HU; cbn; rewrite HV, <- app_assoc; done).
  assert (forall x, x ∈ U ++ p :: q :: V -> x <> n) as Hnew.
  { intros x Hx ->. apply Hnot.
    assert (h :: (l1 ++ l2) ++ [h] = U ++ p :: q :: V) as E
      by (rewrite <- app_assoc, app_comm_cons, HU, HV, <- app_assoc; done).
    rewrite <- E in Hx. set_solver +Hx. }
  rewrite Hring in Hp. rewrite path_app in Hp. destruct Hp as [Hp1 (Hpn & Hnq & Hp2)].
  destruct (list_remove_spec σ p q n Hpn Hnq) as (σ' & Hs & N & P).
  exists σ'. split; [done|].
  assert (forall a, a <> p -> a <> n -> get_next σ' a = get_next σ a) as Nsame.
  { intros a ? ?. rewrite N. by rewrite !(proj2 (Z.eqb_neq _ _)) by done. }
  assert (forall a, a <> q -> a <> n -> get_prev σ' a = get_prev σ a) as Psame.
  { intros a ? ?. rewrite P. by rewrite !(proj2 (Z.eqb_neq _ _)) by done. }
  assert (p <> n /\ q <> n) as [Hpne Hqne] by (split; apply Hnew; set_solver +).
  constructor; [|done| |].
  - replace (h :: (l1 ++ l2) ++ [h]) with (U ++ p :: q :: V)
      by (rewrite <- app_assoc, app_comm_cons, HU, HV, <- app_assoc; done).
    rewrite path_app. split; [|split].
    + apply (path_keep σ σ' _ p q n Hp1 Nsame Psame). intros u x y v E.
      destruct (Hadj1 u x y v E). assert (x ∈ U ++ [p] /\ y ∈ U ++ [p]) as [? ?] by (rewrite E; set_solver +).
      split_and!; try done; apply Hnew; set_solver.
    + split; rewrite ?N, ?P, ?(proj2 (Z.eqb_neq p n)), ?(proj2 (Z.eqb_neq q n)), ?Z.eqb_refl; done.
    + apply (path_keep σ σ' _ p q n Hp2 Nsame Psame). intros u x y v E.
      destruct (Hadj2 u x y v E). split_and!; try done; apply Hnew; rewrite E; set_solver +.
  - intros x Hx. apply Hns. set_solver +Hx.
  - intros x Hx Hx'. destruct (decide (x = n)) as [->|Hne].
    + split; by rewrite ?N, ?P, Z.eqb_refl.
    + destruct (Hfree x Hx) as [F1 F2]; [set_solver|].
      assert (p ∈ h :: l1 ++ l2 /\ q ∈ h :: l1 ++ l2) as [? ?].
      { assert (p ∈ h :: l1) by (rewrite HU; set_solver +).
        assert (q ∈ l2 ++ [h]) by (rewrite HV; set_solver +). set_solver. }
      split; rewrite ?Nsame, ?Psame; try done; intros ->; apply Hx'; try done; set_solver +.
Qed.

(** ** The operations on a well-formed ring *)

Section Ops.
Context (nodes : gset Z) (h : Z).

Lemma dlist_next σ l : dlist σ nodes h l -> get_next σ h = Some (default h (head l)).
Proof. intros [Hp _ _ _]. destruct l; apply Hp. Qed.

Lemma dlist_prev σ l : dlist σ nodes h l -> get_prev σ h = Some (default h (last l)).
Proof.
  intros [Hp _ _ _]. destruct l as [|x l _] using rev_ind; [apply Hp|].
  rewrite last_snoc. rewrite <- app_assoc, app_comm_cons in Hp. cbn in Hp.
  by apply (linked_ring σ (h :: l) x h []) in Hp as [_ ?].
Qed.

Lemma push_back_spec σ l n : dlist σ nodes h l -> n ∈ nodes -> n ∉ h :: l ->
  exists σ', list_push_back σ h n = Some σ' /\ dlist σ' nodes h (l ++ [n]).
Proof.
  intros Hd Hn Hnot. unfold list_push_back, list_insert_before.
  rewrite (bind_eq _ _ _ (dlist_prev _ _ Hd)).
  apply (dlist_insert σ nodes h l []); rewrite ?app_nil_r; [done|done|done|].
  destruct l as [|x l _] using rev_ind; [done|]. by rewrite app_comm_cons, !last_snoc.
Qed.

Lemma push_front_spec σ l n : dlist σ nodes h l -> n ∈ nodes -> n ∉ h :: l ->
  exists σ', list_push_front σ h n = Some σ' /\ dlist σ' nodes h (n :: l).
Proof. intros Hd Hn Hnot. by apply (dlist_insert σ nodes h [] l). Qed.

(** Removing a node that is not in the list changes nothing. *)
Lemma remove_free_spec σ l n : dlist σ nodes h l -> n ∈ nodes -> n ∉ h :: l ->
  exists σ', list_remove σ n = Some σ' /\ dlist σ' nodes h l.
Proof.
  intros [Hp Hnd Hns Hfree] Hn Hnot. pose proof (Hfree n Hn Hnot) as Hl.
  destruct (list_remove_spec σ n n n Hl Hl) as (σ' & Hs & N & P). exists σ'. split; [done|].
  assert (forall a, get_next σ' a = get_next σ a /\ get_prev σ' a = get_prev σ a) as Hsame.
  { intros a. rewrite N, P. destruct (Z.eqb_spec a n) as [->|]; [|done].
    destruct Hl as [-> ->]. done. }
  constructor; [|done|done|].
  - apply (path_ext σ); [done|]. intros. split; apply Hsame.
  - intros x Hx Hx'. destruct (Hfree x Hx Hx'). by split; rewrite (proj1 (Hsame x)) || rewrite (proj2 (Hsame x)).
Qed.

Lemma filter_out (n : Z) (l : list Z) : n ∉ l -> filter (fun x => x <> n) l = l.
Proof. intros Hn. apply filter_all. intros x Hx ->. done. Qed.

Lemma dlist_remove_spec σ l n : dlist σ nodes h l -> n ∈ nodes -> n <> h ->
  exists σ', list_remove σ n = Some σ' /\ dlist σ' nodes h (filter (fun x => x <> n) l).
Proof.
  intros Hd Hn Hne. destruct (decide (n ∈ l)) as [Hin|Hnin].
  - apply list_elem_of_split in Hin as (l1 & l2 & ->).
    pose proof (dl_nodup _ _ _ _ Hd) as Hnd. apply NoDup_cons in Hnd as [_ Hnd].
    rewrite NoDup_app, NoDup_cons in Hnd. destruct Hnd as (_ & Hdis & Hn2 & _).
    rewrite filter_app, filter_cons, decide_False by (intros Hc; by apply Hc).
    rewrite !filter_out; [by apply dlist_remove|done|]. intros Hin. apply (Hdis n Hin). by left.
  - rewrite filter_out by done. apply remove_free_spec; [done|done|].
    rewrite not_elem_of_cons. done.
Qed.

Lemma list_empty_spec σ l : dlist σ nodes h l ->
  list_empty σ h = Some (bool_decide (l = [])).
Proof.
  intros Hd. unfold list_empty. rewrite (bind_eq _ _ _ (dlist_next _ _ Hd)).
  destruct l as [|x l]; cbn; [by rewrite Z.eqb_refl|].
  pose proof (dl_nodup _ _ _ _ Hd) as Hnd. apply NoDup_cons in Hnd as [Hnd _].
  rewrite not_elem_of_cons in Hnd. destruct Hnd as [Hne _].
  by rewrite (proj2 (Z.eqb_neq x h)) by congruence.
Qed.

Lemma pop_front_spec σ l : dlist σ nodes h l ->
  exists σ', list_pop_front σ h = Some (default NULL (head l), σ') /\ dlist σ' nodes h (tail l).
Proof.
  intros Hd. unfold list_pop_front. rewrite (bind_eq _ _ _ (list_empty_spec _ _ Hd)).
  destruct l as [|x l]; cbn [bool_decide head tail]; [by exists σ|].
  rewrite (bind_eq _ _ _ (dlist_next _ _ Hd)).
  destruct (dlist_remove σ nodes h [] l x Hd) as (σ' & Hs & Hd').
  cbn [head default from_option id]. run_bind Hs. by exists σ'.
Qed.

Lemma first_spec σ l : dlist σ nodes h l -> list_first σ h = Some (default NULL (head l)).
Proof.
  intros Hd. unfold list_first. rewrite (bind_eq _ _ _ (list_empty_spec _ _ Hd)).
  destruct l; cbn [bool_decide]; [done|]. by rewrite (dlist_next _ _ Hd).
Qed.

Lemma last_spec σ l : dlist σ nodes h l -> list_last σ h = Some (default NULL (last l)).
Proof.
  intros Hd. unfold list_last. rewrite (bind_eq _ _ _ (list_empty_spec _ _ Hd)).
  destruct l; cbn [bool_decide]; [done|]. rewrite (dlist_prev _ _ Hd).
  by destruct (last _) eqn:E; [|apply last_None in E].
Qed.

(** [list_for_each] visits the list in order. *)
Lemma list_walk_spec σ l fuel u : (length l <= fuel)%nat -> NoDup (h :: l) ->
  path σ (u ++ l ++ [h]) -> list_walk fuel σ h (default h (head l)) = Some l.
Proof.
  revert l u. induction fuel as [|fuel IH]; intros [|x l] u Hf Hnd Hp; cbn in Hf; try lia;
    cbn [list_walk head default from_option id]; rewrite ?Z.eqb_refl; try done.
  pose proof Hnd as Hnd'. apply NoDup_cons in Hnd as [Hnot Hnd]. rewrite not_elem_of_cons in Hnot.
  rewrite (proj2 (Z.eqb_neq x h)) by (intros ->; by apply (proj1 Hnot)).
  assert (get_next σ x = Some (default h (head l))) as Hn.
  { change ((x :: l) ++ [h]) with (x :: l ++ [h]) in Hp. rewrite path_app in Hp. destruct Hp as [_ Hp]. destruct l; apply Hp. }
  run_bind Hn. rewrite (IH l (u ++ [x])); [done|lia| |].
  - apply NoDup_cons in Hnd as [_ ?]. apply NoDup_cons. split; [apply Hnot|done].
  - by rewrite <- app_assoc.
Qed.

Lemma for_each_spec σ l fuel : dlist σ nodes h l -> (length l <= fuel)%nat ->
  list_for_each fuel σ h = Some l.
Proof.
  intros Hd Hf. unfold list_for_each. rewrite (bind_eq _ _ _ (dlist_next _ _ Hd)).
  apply (list_walk_spec σ l fuel [h]); [done|apply Hd|apply Hd].
Qed.
End Ops.

(** ** The properties *)

Inductive dop :=
  | DPushBack (n : Z)
  | DPushFront (n : Z)
  | DPopFront
  | DRemove (n : Z)
  | DFirst
  | DLast.

Definition run_dop (σ : heap) (h : Z) (o : dop) : option (Z * heap) :=
  match o with
  | DPushBack n => pair NULL <$> list_push_back σ h n
  | DPushFront n => pair NULL <$> list_push_front σ h n
  | DPopFront => list_pop_front σ h
  | DRemove n => pair NULL <$> list_remove σ n
  | DFirst => x ← list_first σ h; Some (x, σ)
  | DLast => x ← list_last σ h; Some (x, σ)
  end.

Fixpoint run_dops (σ : heap) (h : Z) (ops : list dop) : option (list Z * heap) :=
  match ops with
  | [] => Some ([], σ)
  | o :: rest =>
      '(r, σ1) ← run_dop σ h o; '(rs, σ2) ← run_dops σ1 h rest; Some (r :: rs, σ2)
  end.

(** The deque the pointers implement. *)
Definition deque_op (l : list Z) (o : dop) : Z * list Z :=
  match o with
  | DPushBack n => (NULL, l ++ [n])
  | DPushFront n => (NULL, n :: l)
  | DPopFront => (default NULL (head l), tail l)
  | DRemove n => (NULL, filter (fun x => x <> n) l)
  | DFirst => (default NULL (head l), l)
  | DLast => (default NULL (last l), l)
  end.

Fixpoint deque_ops (l : list Z) (ops : list dop) : list Z * list Z :=
  match ops with
  | [] => ([], l)
  | o :: rest => let '(r, l1) := deque_op l o in let '(rs, l2) := deque_ops l1 rest in (r :: rs, l2)
  end.

(** A node is pushed only while unlinked. *)
Definition dop_ok (nodes : gset Z) (h : Z) (l : list Z) (o : dop) : Prop :=
  match o with
  | DPushBack n | DPushFront n => n ∈ nodes /\ n <> h /\ n ∉ l
  | DRemove n => n ∈ nodes /\ n <> h
  | _ => True
  end.

Fixpoint dops_ok (nodes : gset Z) (h : Z) (l : list Z) (ops : list dop) : Prop :=
  match ops with
  | [] => True
  | o :: rest => dop_ok nodes h l o /\ dops_ok nodes h (deque_op l o).2 rest
  end.

Lemma run_dop_spec nodes h σ l o : dlist σ nodes h l -> dop_ok nodes h l o ->
  exists σ', run_dop σ h o = Some ((deque_op l o).1, σ') /\ dlist σ' nodes h (deque_op l o).2.
Proof.
  intros Hd Hok. destruct o as [n|n| |n| |]; cbn in *.
  - destruct Hok as (Hn & Hh & Hl).
    destruct (push_back_spec nodes h σ l n Hd Hn) as (σ' & -> & ?);
      [by rewrite not_elem_of_cons|by exists σ'].
  - destruct Hok as (Hn & Hh & Hl).
    destruct (push_front_spec nodes h σ l n Hd Hn) as (σ' & -> & ?);
      [by rewrite not_elem_of_cons|by exists σ'].
  - by apply pop_front_spec.
  - destruct Hok as [Hn Hh]. destruct (dlist_remove_spec nodes h σ l n Hd Hn Hh) as (σ' & -> & ?).
    by exists σ'.
  - rewrite (first_spec nodes h σ l Hd). by exists σ.
  - rewrite (last_spec nodes h σ l Hd). by exists σ.
Qed.

(** C23: refinement.  From a well-formed ring, any sequence of pushes (of unlinked
    nodes), pops, removals (of linked nodes or not, twice included) and peeks runs
    without touching a node outside the heap, answers what the deque answers, and
    leaves a well-formed ring that [list_for_each] walks in the deque's order; every
    node not in it is linked to itself. *)
Theorem list_refines_deque nodes h ops : forall σ l fuel,
  dlist σ nodes h l -> dops_ok nodes h l ops ->
  (length (deque_ops l ops).2 <= fuel)%nat ->
  exists σ', run_dops σ h ops = Some ((deque_ops l ops).1, σ') /\
    dlist σ' nodes h (deque_ops l ops).2 /\
    list_for_each fuel σ' h = Some (deque_ops l ops).2.
Proof.
  induction ops as [|o ops IH]; intros σ l fuel Hd Hok Hf; cbn [run_dops deque_ops] in *.
  { exists σ. split_and!; [done|done|by eapply for_each_spec]. }
  destruct Hok as [Ho Hok]. destruct (run_dop_spec nodes h σ l o Hd Ho) as (σ1 & H1 & Hd1).
  rewrite H1. cbn [mbind option_bind]. destruct (deque_op l o) as [r l1]. cbn [fst snd] in *.
  destruct (deque_ops l1 ops) as [rs l2] eqn:E. cbn [fst snd] in *.
  destruct (IH σ1 l1 fuel Hd1 Hok) as (σ' & H2 & Hd2 & Hw); [by rewrite E|].
  rewrite H2, E in *. by exists σ'.
Qed.

(** A sentinel at 100 and three free nodes. *)
Definition demo_heap : heap :=
  list_to_map (map (fun n => (n, mk_node n n)) [100; 1; 2; 3]).
Definition demo_nodes : gset Z := {[100; 1; 2; 3]}.

Lemma demo_dlist : dlist demo_heap demo_nodes 100 [].
Proof.
  constructor.
  - by vm_compute.
  - apply NoDup_singleton.
  - intros n Hn. apply list_elem_of_singleton in Hn. subst. unfold demo_nodes. set_solver.
  - intros n Hn _. unfold demo_nodes in Hn.
    assert (n = 100 \/ n = 1 \/ n = 2 \/ n = 3) as [->|[->|[->| ->]]] by set_solver;
      by vm_compute.
Qed.

Lemma list_refines_deque_witness :
  exists σ', run_dops demo_heap 100
      [DPushBack 1; DPushBack 2; DPushFront 3; DRemove 1; DRemove 1; DPopFront; DPopFront; DPopFront]
      = Some ([0; 0; 0; 0; 0; 3; 2; 0], σ') /\ dlist σ' demo_nodes 100 [].
Proof.
  destruct (list_refines_deque demo_nodes 100
    [DPushBack 1; DPushBack 2; DPushFront 3; DRemove 1; DRemove 1; DPopFront; DPopFront; DPopFront]
    demo_heap [] 4) as (σ' & H & Hd & _).
  - exact demo_dlist.
  - cbn. unfold demo_nodes. split_and!; try done; set_solver.
  - vm_compute. lia.
  - exists σ'. split; [exact H|exact Hd].
Defined.
