(* ===== verification/Refcount.v ===== *)
(** * Atomic reference counts (krt/refcount.h)

    The compare-and-swap loops as a step relation: any number of threads, each at one
    point of [refcount_inc] or [refcount_dec], interleave their loads and CASes on
    the shared word.  The log lists the operations in the order they took effect. *)

From S2P Require Import Prelude.

Definition REFCOUNT_SATURATED : Z := 0xC0000000.

(** Where a thread is: outside, before the load, or between the load of [cur] and the
    CAS. *)
Inductive rc_pc :=
  | Idle
  | IncLoad
  | IncCas (cur : Z)
  | DecLoad
  | DecCas (cur : Z).

Inductive rc_event :=
  | EvInc
  | EvDec (last_ref : bool).

#[global] Instance rc_event_eq_dec : EqDecision rc_event.
Proof. solve_decision. Defined.

Record rc_state := mk_rc { rc_value : Z; rc_pcs : nat -> rc_pc; rc_log : list rc_event }.

Definition refcount_init (initial : Z) : rc_state := mk_rc initial (fun _ => Idle) [].

Definition at_pc (s : rc_state) (t : nat) (p : rc_pc) : rc_state :=
  mk_rc (rc_value s) (fun x => if decide (x = t) then p else rc_pcs s x) (rc_log s).

(** The operation of thread [t] takes effect, leaving [v], and returns. *)
Definition returns (s : rc_state) (t : nat) (v : Z) (e : rc_event) : rc_state :=
  mk_rc v (fun x => if decide (x = t) then Idle else rc_pcs s x) (rc_log s ++ [e]).

Inductive refcount_step (s : rc_state) : rc_state -> Prop :=
  | call_inc t : rc_pcs s t = Idle -> refcount_step s (at_pc s t IncLoad)
  | inc_saturated t : rc_pcs s t = IncLoad -> REFCOUNT_SATURATED <= rc_value s ->
      refcount_step s (returns s t (rc_value s) EvInc)
  | inc_load t : rc_pcs s t = IncLoad -> rc_value s < REFCOUNT_SATURATED ->
      refcount_step s (at_pc s t (IncCas (rc_value s)))
  | inc_cas t cur : rc_pcs s t = IncCas cur -> rc_value s = cur ->
      refcount_step s (returns s t (cur ⊞ 1) EvInc)
  | inc_retry t cur : rc_pcs s t = IncCas cur -> rc_value s <> cur ->
      refcount_step s (at_pc s t IncLoad)
  | call_dec t : rc_pcs s t = Idle -> refcount_step s (at_pc s t DecLoad)
  | dec_saturated t : rc_pcs s t = DecLoad -> REFCOUNT_SATURATED <= rc_value s ->
      refcount_step s (returns s t (rc_value s) (EvDec false))
  | dec_underflow t : rc_pcs s t = DecLoad -> rc_value s = 0 ->
      refcount_step s (returns s t (rc_value s) (EvDec false))
  | dec_load t : rc_pcs s t = DecLoad -> rc_value s < REFCOUNT_SATURATED -> rc_value s <> 0 ->
      refcount_step s (at_pc s t (DecCas (rc_value s)))
  | dec_cas t cur : rc_pcs s t = DecCas cur -> rc_value s = cur ->
      refcount_step s (returns s t (cur ⊟ 1) (EvDec (cur =? 1)))
  | dec_retry t cur : rc_pcs s t = DecCas cur -> rc_value s <> cur ->
      refcount_step s (at_pc s t DecLoad).

(** ** The sequential count *)

(** One operation on the count: the new count, or [None] if [e] is not the answer. *)
Definition rc_seq (v : Z) (e : rc_event) : option Z :=
  match e with
  | EvInc => Some (if REFCOUNT_SATURATED <=? v then v else v + 1)
  | EvDec b =>
      if (REFCOUNT_SATURATED <=? v) || (v =? 0) then if b then None else Some v
      else if Bool.eqb b (v =? 1) then Some (v - 1) else None
  end.

Fixpoint replay (v : Z) (log : list rc_event) : option Z :=
  match log with
  | [] => Some v
  | e :: log' => v1 ← rc_seq v e; replay v1 log'
  end.

Lemma replay_app v l1 l2 : replay v (l1 ++ l2) = (v1 ← replay v l1; replay v1 l2).
Proof.
  revert v. induction l1 as [|e l1 IH]; intros v; cbn; [done|].
  destruct (rc_seq v e); cbn; [apply IH|done].
Qed.

(** A pending CAS holds a count the operation may act on. *)
Definition pc_ok (p : rc_pc) : Prop :=
  match p with
  | IncCas cur => 0 <= cur < REFCOUNT_SATURATED
  | DecCas cur => 0 < cur < REFCOUNT_SATURATED
  | _ => True
  end.

Record rc_inv (v0 : Z) (s : rc_state) : Prop := {
  rci_range : 0 <= rc_value s <= REFCOUNT_SATURATED;
  rci_pcs : forall t, pc_ok (rc_pcs s t);
  rci_log : replay v0 (rc_log s) = Some (rc_value s)
}.

Lemma at_pc_inv v0 s t p : rc_inv v0 s -> pc_ok p -> rc_inv v0 (at_pc s t p).
Proof.
  intros [Hr Hp Hl] Hok. constructor; [done| |done]. intros x. cbn. by case_decide.
Qed.

Lemma returns_inv v0 s t v e : rc_inv v0 s -> rc_seq (rc_value s) e = Some v ->
  0 <= v <= REFCOUNT_SATURATED -> rc_inv v0 (returns s t v e).
Proof.
  intros [Hr Hp Hl] Hv Hrange. constructor; cbn; [done| |].
  - intros x. by case_decide.
  - rewrite replay_app, Hl. cbn. by rewrite Hv.
Qed.

Lemma refcount_step_inv v0 s s' : rc_inv v0 s -> refcount_step s s' -> rc_inv v0 s'.
Proof.
  intros Hinv Hst. pose proof (rci_range _ _ Hinv) as Hr. pose proof (rci_pcs _ _ Hinv) as Hp.
  unfold REFCOUNT_SATURATED in *.
  destruct Hst as [t _|t _ Hs|t _ Hs|t cur Ht Hv|t cur _ _|t _|t _ Hs|t _ Hv|t _ Hs Hv|t cur Ht Hv|t cur _ _];
    unfold REFCOUNT_SATURATED in *;
    try (apply at_pc_inv; [done|]; cbn; unfold REFCOUNT_SATURATED; lia);
    try (specialize (Hp t); rewrite Ht in Hp; cbn in Hp; subst cur; unfold REFCOUNT_SATURATED in *;
         rewrite u32_small by lia);
    (apply returns_inv; [done| |unfold REFCOUNT_SATURATED; lia]); cbn; unfold REFCOUNT_SATURATED.
  - by rewrite (proj2 (Z.leb_le _ _)) by done.
  - by rewrite (proj2 (Z.leb_gt _ _)) by lia.
  - by rewrite (proj2 (Z.leb_le _ _)) by done.
  - rewrite Hv. done.
  - rewrite (proj2 (Z.leb_gt _ _)), (proj2 (Z.eqb_neq _ 0)) by lia. cbn.
    by rewrite Bool.eqb_reflx.
Qed.

(** ** Teardown *)

(** No increment finds the count at zero. *)
Fixpoint no_resurrection (v : Z) (log : list rc_event) : Prop :=
  match log with
  | [] => True
  | e :: log' =>
      (e = EvInc -> v <> 0) /\
      match rc_seq v e with Some v1 => no_resurrection v1 log' | None => True end
  end.

Definition teardowns (log : list rc_event) : nat :=
  length (filter (fun e => e = EvDec true) log).

Lemma teardown_once log : forall v w, replay v log = Some w ->
  0 <= v <= REFCOUNT_SATURATED -> no_resurrection v log ->
  (teardowns log <= 1)%nat /\ (teardowns log = 1%nat -> w = 0) /\
  (v = 0 -> teardowns log = 0%nat /\ w = 0).
Proof.
  unfold REFCOUNT_SATURATED. induction log as [|e log IH]; intros v w Hr Hv Hno; cbn in Hr.
  { injection Hr as ->. unfold teardowns. cbn. split_and!; [lia|done|done]. }
  destruct Hno as [Hi Hno]. destruct (rc_seq v e) as [v1|] eqn:Hs; cbn in Hr; [|done].
  assert (teardowns (e :: log) = (if decide (e = EvDec true) then 1 else 0) + teardowns log)%nat
    as Ht by (unfold teardowns; rewrite filter_cons; by case_decide).
  rewrite Ht.
  assert (0 <= v1 <= 0xC0000000 /\ (e = EvDec true -> v = 1 /\ v1 = 0) /\ (v = 0 -> v1 = 0))
    as (Hv1 & Htd & Hz).
  { destruct e as [|b]; cbn in Hs; unfold REFCOUNT_SATURATED in Hs.
    - destruct (Z.leb_spec 0xC0000000 v); injection Hs as <-; (split_and!; [lia|lia|done|]);
        [lia|]. intros ->. by destruct (Hi eq_refl).
    - destruct (Z.leb_spec 0xC0000000 v), (Z.eqb_spec v 0), b; cbn in Hs; try done;
        try (injection Hs as <-); try (split_and!; done || lia);
        destruct (Z.eqb_spec v 1); try done; injection Hs as <-; split_and!; done || lia. }
  destruct (IH v1 w Hr Hv1 Hno) as (H1 & H2 & H3).
  destruct (decide (e = EvDec true)) as [He|He].
  - destruct (Htd He) as [-> ->]. destruct H3 as [-> ->]; [done|]. split_and!; done || lia.
  - cbn. split_and!; [done|done|]. intros ->. by apply H3, Hz.
Qed.


