(* ===== verification/KVa.v ===== *)
(** * Kernel virtual pages (kernel/mm/kheap.c, first level)

    The page-range allocator of the kernel heap window: a bump pointer, a stack of
    single pages and a table of multi-page ranges, with coalescing on every return.
    [take_virtual_range] and [give_virtual_range] run under [s_kva_lock], so each is
    one function of the state.  The two tables are lists whose length the source
    bounds by [KP_STACK_MAX] and [KP_MULTI_MAX]; the stack's top is the head. *)

From S2P Require Import Prelude.

Definition KHEAP_VBASE : Z := 0xD0000000.
Definition KHEAP_VLIMIT : Z := 0xE0000000.
Definition KP_STACK_MAX : Z := 1024.
Definition KP_MULTI_MAX : Z := 128.

Record kp_multi_t := mk_multi { m_virt : Z; m_pages : Z }.

Record kva := mk_kva {
  s_bump : Z;
  s_kp_stack : list Z;
  s_kp_multi : list kp_multi_t;
  s_kp_va_lost_pages : Z
}.

Definition kva_init : kva := mk_kva KHEAP_VBASE [] [] 0.

Definition s_kp_top (s : kva) : Z := Z.of_nat (length (s_kp_stack s)).
Definition s_kp_multi_n (s : kva) : Z := Z.of_nat (length (s_kp_multi s)).

Definition with_stack (s : kva) (st : list Z) : kva :=
  mk_kva (s_bump s) st (s_kp_multi s) (s_kp_va_lost_pages s).
Definition with_multi (s : kva) (mu : list kp_multi_t) : kva :=
  mk_kva (s_bump s) (s_kp_stack s) mu (s_kp_va_lost_pages s).
Definition with_bump (s : kva) (b : Z) : kva :=
  mk_kva b (s_kp_stack s) (s_kp_multi s) (s_kp_va_lost_pages s).

(** [s_kp_multi[i] = s_kp_multi[--s_kp_multi_n]], the table being [pre ++ x :: post]
    and [i] the place of [x]. *)
Definition swap_remove (pre post : list kp_multi_t) : list kp_multi_t :=
  match last post with
  | None => pre
  | Some y => pre ++ y :: removelast post
  end.

(** The scan of the table in [take_virtual_range]. *)
Fixpoint scan_multi (pre cur : list kp_multi_t) (count : Z) : option (Z * list kp_multi_t) :=
  match cur with
  | [] => None
  | x :: post =>
      if m_pages x =? count then Some (m_virt x, swap_remove pre post)
      else if count <? m_pages x then
        Some (m_virt x, pre ++ mk_multi (m_virt x ⊞ (count ⊠ PAGE_SIZE)) (m_pages x ⊟ count) :: post)
      else scan_multi (pre ++ [x]) post count
  end.

Definition take_virtual_range (s : kva) (count : Z) : Z * kva :=
  match (if (count =? 1) then s_kp_stack s else []) with
  | v :: rest => (v, with_stack s rest)
  | [] =>
      match scan_multi [] (s_kp_multi s) count with
      | Some (v, mu) => (v, with_multi s mu)
      | None =>
          if KHEAP_VLIMIT <? s_bump s ⊞ (count ⊠ PAGE_SIZE) then (0, s)
          else (s_bump s, with_bump s (s_bump s ⊞ (count ⊠ PAGE_SIZE)))
      end
  end.

(** The [for] of [merge_with_multi]: the first entry adjacent to the range. *)
Fixpoint merge_scan (pre cur : list kp_multi_t) (virt count : Z)
    : option (Z * Z * list kp_multi_t) :=
  match cur with
  | [] => None
  | x :: post =>
      if m_virt x ⊞ (m_pages x ⊠ PAGE_SIZE) =? virt then
        Some (m_virt x, count ⊞ m_pages x, swap_remove pre post)
      else if virt ⊞ (count ⊠ PAGE_SIZE) =? m_virt x then
        Some (virt, count ⊞ m_pages x, swap_remove pre post)
      else merge_scan (pre ++ [x]) post virt count
  end.

(** [while (merged)]; every turn consumes a table entry. *)
Fixpoint merge_with_multi (fuel : nat) (mu : list kp_multi_t) (virt count : Z)
    : option (Z * Z * list kp_multi_t) :=
  match fuel with
  | O => None
  | S fuel' =>
      match merge_scan [] mu virt count with
      | None => Some (virt, count, mu)
      | Some (virt', count', mu') => merge_with_multi fuel' mu' virt' count'
      end
  end.

(** [for (i = 0; i < count && s_kp_top < KP_STACK_MAX; i++)]; the result is the stack
    and [spilled]. *)
Fixpoint spill (k : nat) (st : list Z) (virt i : Z) : list Z * Z :=
  match k with
  | O => (st, i)
  | S k' =>
      if Z.of_nat (length st) <? KP_STACK_MAX
      then spill k' (virt ⊞ (i ⊠ PAGE_SIZE) :: st) virt (i + 1)
      else (st, i)
  end.

Definition give_virtual_range (s : kva) (virt count : Z) : option (Z * kva) :=
  '(virt, count, mu) ← merge_with_multi (S (length (s_kp_multi s))) (s_kp_multi s) virt count;
  let s := with_multi s mu in
  Some
    (if virt ⊞ (count ⊠ PAGE_SIZE) =? s_bump s then (0, with_bump s virt)
     else if (count =? 1) && (s_kp_top s <? KP_STACK_MAX) then
       (0, with_stack s (virt :: s_kp_stack s))
     else if s_kp_multi_n s <? KP_MULTI_MAX then
       (0, with_multi s (s_kp_multi s ++ [mk_multi virt count]))
     else
       let '(st, spilled) := spill (Z.to_nat count) (s_kp_stack s) virt 0 in
       let lost := count ⊟ spilled in
       (lost, mk_kva (s_bump s) st (s_kp_multi s) (s_kp_va_lost_pages s ⊞ lost))).

(** [kva_singles_trim]; a turn that makes progress shortens the stack. *)
Fixpoint kva_singles_trim (fuel : nat) (s : kva) : option kva :=
  match s_kp_stack s with
  | [] => Some s
  | v :: rest =>
      match fuel with
      | O => None
      | S fuel' =>
          let before := Z.of_nat (length rest) in
          '(_, s1) ← give_virtual_range (with_stack s rest) v 1;
          if s_kp_top s1 <? before + 1 then kva_singles_trim fuel' s1 else Some s1
      end
  end.

(** ** Abstract view: the pages of the window *)

Definition pages_of (virt count : Z) : list Z :=
  (fun i => virt + i * PAGE_SIZE) <$> seqZ 0 count.

Definition multi_pages (mu : list kp_multi_t) : list Z :=
  concat (map (fun x => pages_of (m_virt x) (m_pages x)) mu).

Arguments pages_of : simpl never.
Arguments multi_pages : simpl never.

(** A nonempty page-aligned range inside the window. *)
Definition range_in (virt count : Z) : Prop :=
  KHEAP_VBASE <= virt /\ 1 <= count /\ virt + count * PAGE_SIZE <= KHEAP_VLIMIT /\
  (virt - KHEAP_VBASE) mod PAGE_SIZE = 0.

(** The pages below the bump pointer are, each once, owned by a client, on the
    stack, in the table or lost; the tables fit their arrays. *)
Record wf_kva (s : kva) (owned lost : list Z) : Prop := {
  wk_bump : KHEAP_VBASE <= s_bump s <= KHEAP_VLIMIT /\
            (s_bump s - KHEAP_VBASE) mod PAGE_SIZE = 0;
  wk_stack : s_kp_top s <= KP_STACK_MAX;
  wk_multi_n : s_kp_multi_n s <= KP_MULTI_MAX;
  wk_multi : Forall (fun x => range_in (m_virt x) (m_pages x)) (s_kp_multi s);
  wk_lost : s_kp_va_lost_pages s = u32 (Z.of_nat (length lost));
  wk_pages : Permutation (pages_of KHEAP_VBASE ((s_bump s - KHEAP_VBASE) / PAGE_SIZE))
               (owned ++ s_kp_stack s ++ multi_pages (s_kp_multi s) ++ lost)
}.

(** ** Page lists *)

Lemma length_pages_of v n : 0 <= n -> Z.of_nat (length (pages_of v n)) = n.
Proof. intros Hn. unfold pages_of. rewrite length_fmap, length_seqZ. lia. Qed.

Lemma elem_of_pages v n p : p ∈ pages_of v n <-> exists i, 0 <= i < n /\ p = v + i * PAGE_SIZE.
Proof.
  unfold pages_of. rewrite list_elem_of_fmap. setoid_rewrite elem_of_seqZ.
  split; intros (i & ? & ?); exists i; split; done || lia.
Qed.

Lemma NoDup_pages v n : NoDup (pages_of v n).
Proof.
  unfold pages_of. apply NoDup_fmap_2; [|apply NoDup_seqZ].
  intros x y. unfold PAGE_SIZE. lia.
Qed.

Lemma pages_app v n1 n2 : 0 <= n1 -> 0 <= n2 ->
  pages_of v (n1 + n2) = pages_of v n1 ++ pages_of (v + n1 * PAGE_SIZE) n2.
Proof.
  intros H1 H2. unfold pages_of. rewrite seqZ_app, fmap_app by lia. f_equal.
  replace (0 + n1) with (n1 + 0) by lia. rewrite <- (fmap_add_seqZ n1 0 n2), <- list_fmap_compose.
  apply list_fmap_ext. intros i x _. cbn. lia.
Qed.

Lemma pages_one v : pages_of v 1 = [v].
Proof. change (pages_of v 1) with [v + 0 * PAGE_SIZE]. by rewrite Z.mul_0_l, Z.add_0_r. Qed.

Lemma swap_remove_perm pre x post : Permutation (pre ++ x :: post) (x :: swap_remove pre post).
Proof.
  unfold swap_remove. destruct post as [|y post _] using rev_ind.
  - cbn. symmetry. apply Permutation_cons_append.
  - rewrite last_snoc, removelast_last. rewrite <- Permutation_middle. apply Permutation_skip.
    apply Permutation_app_head. symmetry. apply Permutation_cons_append.
Qed.

Lemma multi_pages_perm mu mu' : Permutation mu mu' -> Permutation (multi_pages mu) (multi_pages mu').
Proof.
  intros H. unfold multi_pages. induction H; cbn; [done| | |].
  - by apply Permutation_app_head.
  - rewrite !app_assoc. apply Permutation_app_tail, Permutation_app_comm.
  - by etrans.
Qed.

Lemma multi_pages_app a b : multi_pages (a ++ b) = multi_pages a ++ multi_pages b.
Proof. unfold multi_pages. by rewrite map_app, concat_app. Qed.

Lemma multi_pages_cons x a : multi_pages (x :: a) = pages_of (m_virt x) (m_pages x) ++ multi_pages a.
Proof. done. Qed.

(** No wrap-around for a range of the window. *)
Lemma range_end_small v n : range_in v n -> v ⊞ (n ⊠ PAGE_SIZE) = v + n * PAGE_SIZE.
Proof.
  unfold range_in, KHEAP_VBASE, KHEAP_VLIMIT, PAGE_SIZE. intros. rewrite (u32_small (n * _)) by lia.
  apply u32_small. lia.
Qed.

(** ** Taking a range *)

Lemma scan_multi_spec count : 1 <= count -> forall cur pre,
  Forall (fun x => range_in (m_virt x) (m_pages x)) (pre ++ cur) ->
  match scan_multi pre cur count with
  | None => True
  | Some (v, mu) => range_in v count /\
      Forall (fun x => range_in (m_virt x) (m_pages x)) mu /\
      (length mu <= length (pre ++ cur))%nat /\
      Permutation (multi_pages (pre ++ cur)) (pages_of v count ++ multi_pages mu)
  end.
Proof.
  intros Hc. induction cur as [|x post IH]; intros pre Hf; cbn [scan_multi]; [done|].
  assert (range_in (m_virt x) (m_pages x)) as Hx.
  { rewrite Forall_app, Forall_cons in Hf. tauto. }
  destruct (Z.eqb_spec (m_pages x) count) as [He|Hne]; [|case_if].
  - subst count. pose proof (swap_remove_perm pre x post) as Hp.
    split; [done|]. split; [|split].
    + rewrite Hp, Forall_cons in Hf. tauto.
    + rewrite Hp. cbn. lia.
    + rewrite (multi_pages_perm _ _ Hp). by rewrite multi_pages_cons.
  - destruct Hx as (? & ? & ? & Hal). unfold KHEAP_VBASE, KHEAP_VLIMIT, PAGE_SIZE in *.
    rewrite (u32_small (count * _)), (u32_small (m_virt x + _)), u32_small by lia.
    split; [unfold range_in, KHEAP_VBASE, KHEAP_VLIMIT, PAGE_SIZE; lia|].
    split; [|split].
    + rewrite Forall_app, Forall_cons in Hf. rewrite Forall_app, Forall_cons.
      split_and!; try tauto.
      unfold range_in, KHEAP_VBASE, KHEAP_VLIMIT, PAGE_SIZE. cbn. split_and!; try lia. zlia.
    + rewrite !length_app. cbn. lia.
    + rewrite !multi_pages_app, !multi_pages_cons. cbn [m_virt m_pages].
      replace (m_pages x) with (count + (m_pages x - count)) at 1 by lia.
      rewrite pages_app by lia. unfold PAGE_SIZE. rewrite <- app_assoc.
      perm_app.
  - specialize (IH (pre ++ [x])). rewrite <- app_assoc in IH. by apply IH.
Qed.

Lemma page_of_window s owned lost v : wf_kva s owned lost ->
  v ∈ owned ++ s_kp_stack s ++ multi_pages (s_kp_multi s) ++ lost -> range_in v 1.
Proof.
  intros [[Hb Hal] _ _ _ _ Hp] Hv. rewrite <- Hp in Hv. apply elem_of_pages in Hv as (i & Hi & ->).
  unfold range_in, KHEAP_VBASE, KHEAP_VLIMIT, PAGE_SIZE in *. split_and!; zlia.
Qed.

(** Pushing the bump pointer up by [count] pages. *)
Lemma bump_pages b count : KHEAP_VBASE <= b -> (b - KHEAP_VBASE) mod PAGE_SIZE = 0 -> 0 <= count ->
  pages_of KHEAP_VBASE ((b + count * PAGE_SIZE - KHEAP_VBASE) / PAGE_SIZE)
  = pages_of KHEAP_VBASE ((b - KHEAP_VBASE) / PAGE_SIZE) ++ pages_of b count.
Proof.
  intros Hb Hal Hc. unfold PAGE_SIZE in *.
  replace ((b + count * 4096 - KHEAP_VBASE) / 4096) with ((b - KHEAP_VBASE) / 4096 + count) by zlia.
  rewrite pages_app by zlia. f_equal. f_equal. unfold PAGE_SIZE. zlia.
Qed.

Lemma take_range_spec s owned lost count : wf_kva s owned lost -> 1 <= count < 0x20000 ->
  let '(v, s') := take_virtual_range s count in
  (v = 0 /\ s' = s /\ KHEAP_VLIMIT < s_bump s + count * PAGE_SIZE) \/
  (range_in v count /\ wf_kva s' (pages_of v count ++ owned) lost).
Proof.
  intros Hwf Hc. pose proof Hwf as [[Hb Hal] Hst Hmn Hmu Hl Hp]. unfold take_virtual_range.
  destruct (if count =? 1 then s_kp_stack s else []) as [|v rest] eqn:Hs.
  - pose proof (scan_multi_spec count ltac:(lia) (s_kp_multi s) [] Hmu) as Hscan.
    destruct (scan_multi [] (s_kp_multi s) count) as [[v mu]|].
    + right. destruct Hscan as (Hv & Hmu' & Hlen & Hperm). cbn [app] in *. split; [done|].
      constructor; cbn; try done.
      * unfold s_kp_multi_n in *. cbn. lia.
      * rewrite Hp, Hperm. perm_app.
    + rewrite (u32_small (count * _)) by (unfold PAGE_SIZE; lia).
      unfold KHEAP_VBASE, KHEAP_VLIMIT, PAGE_SIZE in *. rewrite u32_small by lia.
      case_if; [left; done|]. right. split.
      { unfold range_in, KHEAP_VBASE, KHEAP_VLIMIT, PAGE_SIZE. lia. }
      constructor; cbn; try done; unfold KHEAP_VBASE, KHEAP_VLIMIT, PAGE_SIZE.
      * split; [lia|zlia].
      * pose proof (bump_pages (s_bump s) count) as Hbp. unfold KHEAP_VBASE, PAGE_SIZE in Hbp.
        rewrite Hbp by (done || lia). rewrite Hp. perm_app.
  - right. destruct (Z.eqb_spec count 1) as [->|]; [|done]. split.
    + eapply page_of_window; [done|]. rewrite Hs. set_solver +.
    + rewrite pages_one. constructor; cbn; try done.
      * unfold s_kp_top in *. rewrite Hs in Hst. cbn in *. lia.
      * rewrite Hp, Hs. cbn. symmetry. apply Permutation_middle.
Qed.

(** ** Giving a range back *)

Definition no_neighbour (mu : list kp_multi_t) (virt count : Z) : Prop :=
  Forall (fun x => m_virt x + m_pages x * PAGE_SIZE <> virt /\
                   virt + count * PAGE_SIZE <> m_virt x) mu.

Lemma merge_scan_spec virt count : range_in virt count -> forall cur pre,
  Forall (fun x => range_in (m_virt x) (m_pages x)) (pre ++ cur) ->
  match merge_scan pre cur virt count with
  | None => no_neighbour cur virt count
  | Some (v, c, mu) => range_in v c /\
      Forall (fun x => range_in (m_virt x) (m_pages x)) mu /\
      (S (length mu) = length (pre ++ cur))%nat /\
      Permutation (pages_of v c ++ multi_pages mu)
        (pages_of virt count ++ multi_pages (pre ++ cur))
  end.
Proof.
  intros Hr. induction cur as [|x post IH]; intros pre Hf; cbn [merge_scan]; [constructor|].
  assert (range_in (m_virt x) (m_pages x)) as Hx by (rewrite Forall_app, Forall_cons in Hf; tauto).
  rewrite (range_end_small _ _ Hx), (range_end_small _ _ Hr).
  pose proof (swap_remove_perm pre x post) as Hp.
  assert (Forall (fun x => range_in (m_virt x) (m_pages x)) (swap_remove pre post)) as Hsw
    by (rewrite Hp, Forall_cons in Hf; tauto).
  assert (S (length (swap_remove pre post)) = length (pre ++ x :: post))%nat as Hlen
    by (by rewrite Hp).
  assert (count ⊞ m_pages x = count + m_pages x) as Hsum.
  { unfold range_in, KHEAP_VBASE, KHEAP_VLIMIT, PAGE_SIZE in *. apply u32_small. lia. }
  destruct (Z.eqb_spec (m_virt x + m_pages x * PAGE_SIZE) virt) as [He|Hne].
  { rewrite Hsum. split; [|split; [done|split; [done|]]].
    - unfold range_in, KHEAP_VBASE, KHEAP_VLIMIT, PAGE_SIZE in *. lia.
    - rewrite (multi_pages_perm _ _ Hp), multi_pages_cons, <- He.
      rewrite Z.add_comm, pages_app by (unfold range_in in *; lia).
      perm_app. }
  destruct (Z.eqb_spec (virt + count * PAGE_SIZE) (m_virt x)) as [He|Hne2].
  { rewrite Hsum. split; [|split; [done|split; [done|]]].
    - unfold range_in, KHEAP_VBASE, KHEAP_VLIMIT, PAGE_SIZE in *. lia.
    - rewrite (multi_pages_perm _ _ Hp), multi_pages_cons, <- He.
      rewrite pages_app by (unfold range_in in *; lia). by rewrite <- app_assoc. }
  specialize (IH (pre ++ [x])). rewrite <- app_assoc in IH. specialize (IH Hf).
  destruct (merge_scan _ _ _ _) as [[[v c] mu]|]; [done|]. by constructor.
Qed.

Lemma merge_with_multi_spec fuel : forall mu virt count,
  range_in virt count -> Forall (fun x => range_in (m_virt x) (m_pages x)) mu ->
  (length mu < fuel)%nat ->
  exists v c mu', merge_with_multi fuel mu virt count = Some (v, c, mu') /\ range_in v c /\
    Forall (fun x => range_in (m_virt x) (m_pages x)) mu' /\ (length mu' <= length mu)%nat /\
    Permutation (pages_of v c ++ multi_pages mu') (pages_of virt count ++ multi_pages mu) /\
    no_neighbour mu' v c.
Proof.
  induction fuel as [|fuel IH]; intros mu virt count Hr Hf Hlen; [lia|]. cbn [merge_with_multi].
  pose proof (merge_scan_spec virt count Hr mu [] Hf) as Hs.
  destruct (merge_scan [] mu virt count) as [[[v c] mu1]|].
  - destruct Hs as (Hr1 & Hf1 & Hl1 & Hp1). cbn in *.
    destruct (IH mu1 v c Hr1 Hf1) as (v' & c' & mu' & -> & Hr' & Hf' & Hl' & Hp' & Hn); [lia|].
    do 3 eexists. split; [done|]. split_and!; try apply Hr'; try done; [lia|]. by rewrite Hp'.
  - do 3 eexists. split; [done|]. split_and!; try apply Hr; done.
Qed.

Lemma spill_spec k : forall st virt i, 0 <= i -> range_in virt (i + Z.of_nat k) \/ k = 0%nat ->
  Z.of_nat (length st) <= KP_STACK_MAX ->
  let '(st', i') := spill k st virt i in
  i <= i' <= i + Z.of_nat k /\ Z.of_nat (length st') <= KP_STACK_MAX /\
  Permutation st' (pages_of (virt + i * PAGE_SIZE) (i' - i) ++ st).
Proof.
  induction k as [|k IH]; intros st virt i Hi Hr Hst; cbn [spill].
  { rewrite Z.sub_diag. split_and!; done || lia. }
  destruct Hr as [Hr|]; [|done].
  case_if; [|rewrite Z.sub_diag; split_and!; done || lia].
  assert (virt ⊞ (i ⊠ PAGE_SIZE) = virt + i * PAGE_SIZE) as ->.
  { unfold range_in, KHEAP_VBASE, KHEAP_VLIMIT, PAGE_SIZE in *. rewrite (u32_small (i * _)) by lia.
    apply u32_small. lia. }
  specialize (IH ((virt + i * PAGE_SIZE) :: st) virt (i + 1)).
  destruct (spill k _ virt (i + 1)) as [st' i'].
  destruct IH as (H1 & H2 & H3); [lia| |cbn; lia|].
  { left. by replace (i + 1 + Z.of_nat k) with (i + Z.of_nat (S k)) by lia. }
  split; [lia|]. split; [done|]. rewrite H3.
  replace (i' - i) with (1 + (i' - (i + 1))) by lia. rewrite pages_app, pages_one by lia.
  replace (virt + i * PAGE_SIZE + 1 * PAGE_SIZE) with (virt + (i + 1) * PAGE_SIZE)
    by (unfold PAGE_SIZE; lia).
  symmetry. apply Permutation_middle.
Qed.

Lemma give_spec s owned lost virt count : wf_kva s (pages_of virt count ++ owned) lost ->
  range_in virt count ->
  exists s' fresh, give_virtual_range s virt count = Some (Z.of_nat (length fresh), s') /\
    wf_kva s' owned (fresh ++ lost).
Proof.
  intros [[Hb Hal] Hst Hmn Hmu Hl Hp] Hr. unfold give_virtual_range.
  destruct (merge_with_multi_spec (S (length (s_kp_multi s))) (s_kp_multi s) virt count Hr Hmu)
    as (v & c & mu & Hm & Hr' & Hmu' & Hlen & Hperm & _); [lia|].
  run_bind Hm. cbn beta zeta. rewrite (range_end_small _ _ Hr').
  assert (Permutation (pages_of KHEAP_VBASE ((s_bump s - KHEAP_VBASE) / PAGE_SIZE))
            (pages_of v c ++ owned ++ s_kp_stack s ++ multi_pages mu ++ lost)) as Hp'.
  { rewrite Hp. rewrite <- app_assoc. transitivity (owned ++ s_kp_stack s ++
      (pages_of virt count ++ multi_pages (s_kp_multi s)) ++ lost); [perm_app|].
    rewrite <- Hperm. perm_app. }
  clear Hp Hperm. pose proof Hr' as (Hv & Hc & Hvc & Hva).
  unfold s_kp_top, s_kp_multi_n in *. cbn [s_bump s_kp_stack s_kp_multi s_kp_va_lost_pages with_multi].
  destruct (Z.eqb_spec (v + c * PAGE_SIZE) (s_bump s)) as [He|Hne].
  { exists (with_bump (with_multi s mu) v), []. split; [done|]. constructor; cbn; try done.
    - split; [|done]. unfold PAGE_SIZE in *. lia.
    - unfold s_kp_multi_n. cbn. lia.
    - rewrite <- He, (bump_pages v c Hv Hva ltac:(lia)) in Hp'.
      apply (Permutation_app_inv_l (pages_of v c)). rewrite <- Hp'. apply Permutation_app_comm. }
  destruct ((c =? 1) && (Z.of_nat (length (s_kp_stack s)) <? KP_STACK_MAX)) eqn:Hone.
  { bool_to_prop. subst c. exists (with_stack (with_multi s mu) (v :: s_kp_stack s)), [].
    split; [done|]. constructor; cbn; try done.
    - unfold s_kp_top. cbn. lia.
    - unfold s_kp_multi_n. cbn. lia.
    - rewrite Hp', pages_one. change (v :: s_kp_stack s) with ([v] ++ s_kp_stack s). perm_app. }
  case_if.
  { exists (with_multi s (mu ++ [mk_multi v c])), []. split; [done|]. constructor; cbn; try done.
    - unfold s_kp_multi_n. cbn. rewrite length_app. cbn. lia.
    - apply Forall_app. split; [done|]. by repeat constructor.
    - rewrite Hp', multi_pages_app, multi_pages_cons. cbn [m_virt m_pages].
      change (multi_pages []) with (@nil Z). rewrite app_nil_r. perm_app. }
  pose proof (spill_spec (Z.to_nat c) (s_kp_stack s) v 0) as Hsp.
  destruct (spill (Z.to_nat c) (s_kp_stack s) v 0) as [st sp].
  destruct Hsp as (Hsp & Hlen' & Hperm); [lia|left; by rewrite Z2Nat.id by lia|done|].
  rewrite Z2Nat.id, Z.add_0_l in * by lia.
  assert (c ⊟ sp = c - sp) as ->.
  { unfold KHEAP_VBASE, KHEAP_VLIMIT, PAGE_SIZE in *. apply u32_small. lia. }
  eexists _, (pages_of (v + sp * PAGE_SIZE) (c - sp)).
  split; [by rewrite length_pages_of by lia|]. constructor; cbn; try done.
  - unfold s_kp_multi_n. cbn. lia.
  - rewrite Hl, length_app, Nat2Z.inj_add, length_pages_of, u32_add_l by lia. f_equal. lia.
  - rewrite Hp', Hperm. rewrite Z.mul_0_l, Z.add_0_r, Z.sub_0_r.
    replace c with (sp + (c - sp)) at 1 by lia. rewrite pages_app by lia. perm_app.
Qed.

(** ** Histories *)

(** The allocator with the ranges its clients hold. *)
Inductive kva_step : kva * list Z -> kva * list Z -> Prop :=
  | kv_take s owned count v s' :
      1 <= count < 0x20000 -> take_virtual_range s count = (v, s') ->
      kva_step (s, owned) (s', if v =? 0 then owned else pages_of v count ++ owned)
  | kv_give s owned owned' virt count lost s' :
      range_in virt count -> Permutation owned (pages_of virt count ++ owned') ->
      give_virtual_range s virt count = Some (lost, s') -> kva_step (s, owned) (s', owned')
  | kv_trim s owned fuel s' : kva_singles_trim fuel s = Some s' -> kva_step (s, owned) (s', owned).

Lemma wf_kva_perm s owned owned' lost : wf_kva s owned lost -> Permutation owned owned' ->
  wf_kva s owned' lost.
Proof. intros [] Hp. constructor; try done. by rewrite <- Hp. Qed.

(** Popping a single page and giving it back. *)
Lemma regive_spec s owned lost v rest : wf_kva s owned lost -> s_kp_stack s = v :: rest ->
  exists s1 fresh, give_virtual_range (with_stack s rest) v 1 = Some (Z.of_nat (length fresh), s1) /\
    wf_kva s1 owned (fresh ++ lost).
Proof.
  intros Hwf Hs. apply give_spec.
  - destruct Hwf as [Hb Hst Hmn Hmu Hl Hp]. constructor; cbn; try done.
    + unfold s_kp_top in *. rewrite Hs in Hst. cbn in *. lia.
    + rewrite Hp, Hs, pages_one. change (v :: rest) with ([v] ++ rest). perm_app.
  - eapply page_of_window; [exact Hwf|]. rewrite Hs. set_solver +.
Qed.

(** A trim needs one turn per page on the stack. *)
Lemma singles_trim_spec fuel : forall s owned lost, wf_kva s owned lost ->
  (length (s_kp_stack s) <= fuel)%nat ->
  exists s' lost', kva_singles_trim fuel s = Some s' /\ wf_kva s' owned lost'.
Proof.
  induction fuel as [|fuel IH]; intros s owned lost Hwf Hf; cbn [kva_singles_trim].
  all: destruct (s_kp_stack s) as [|v rest] eqn:Hs; cbn in Hf; try lia.
  1,2: by exists s, lost.
  destruct (regive_spec s owned lost v rest Hwf Hs) as (s1 & fresh & Hg & Hwf1).
  run_bind Hg. case_if.
  - apply (IH s1 owned (fresh ++ lost)); [done|]. unfold s_kp_top in *. lia.
  - by exists s1, (fresh ++ lost).
Qed.

Lemma trim_preserves s owned lost fuel s' : wf_kva s owned lost ->
  kva_singles_trim fuel s = Some s' -> exists lost', wf_kva s' owned lost'.
Proof.
  revert s lost. induction fuel as [|fuel IH]; intros s lost Hwf; cbn [kva_singles_trim].
  all: destruct (s_kp_stack s) as [|v rest] eqn:Hs; try done.
  1,2: by intros [= <-]; exists lost.
  destruct (regive_spec s owned lost v rest Hwf Hs) as (s1 & fresh & Hg & Hwf1).
  run_bind Hg. case_if; [by eapply IH|]. intros [= <-]. by eexists.
Qed.

Lemma kva_step_inv p p' : (exists lost, wf_kva p.1 p.2 lost) -> kva_step p p' ->
  exists lost, wf_kva p'.1 p'.2 lost.
Proof.
  intros [lost Hwf] Hst. destruct Hst as [s owned count v s' Hc Ht|s owned owned' virt count l s' Hr Hp Hg
    |s owned fuel s' Ht]; cbn [fst snd] in *.
  - pose proof (take_range_spec s owned lost count Hwf Hc) as Hs. rewrite Ht in Hs.
    destruct Hs as [(-> & -> & _)|[Hv Hwf']]; [by exists lost|].
    rewrite (proj2 (Z.eqb_neq v 0)) by (unfold range_in, KHEAP_VBASE in Hv; lia). by exists lost.
  - destruct (give_spec s owned' lost virt count) as (s1 & fresh & Hg' & Hwf').
    { by eapply wf_kva_perm. }
    { done. }
    rewrite Hg in Hg'. injection Hg' as _ <-. by exists (fresh ++ lost).
  - by eapply trim_preserves.
Qed.

Lemma kva_init_wf : wf_kva kva_init [] [].
Proof. constructor; try done; vm_compute; done. Qed.

(** ** kpages_alloc and kpages_free *)

(** [backed]: whether [back_range_with_frames] found a frame for every page; on
    failure it has already stripped what it mapped. *)
Definition kpages_alloc (backed : bool) (s : kva) (count : Z) : option (Z * kva) :=
  if count =? 0 then Some (0, s)
  else
    let '(virt, s1) := take_virtual_range s count in
    if virt =? 0 then Some (0, s1)
    else if backed then Some (virt, s1)
    else '(_, s2) ← give_virtual_range s1 virt count; Some (0, s2).

Definition kpages_free (s : kva) (virt count : Z) : option kva :=
  if (virt =? 0) || (count =? 0) then Some s
  else '(_, s1) ← give_virtual_range s virt count; Some s1.

(** What the slab layer asks of the page layer: pages are handed out to one holder
    at a time, in aligned ranges of the heap window, and come back. *)
Class PageSource (P : Type) := {
  ps_alloc : bool -> P -> Z -> option (Z * P);
  ps_free : P -> Z -> Z -> option P;
  ps_inv : P -> list Z -> Prop;
  ps_perm : forall p o o', ps_inv p o -> Permutation o o' -> ps_inv p o';
  ps_nodup : forall p o, ps_inv p o -> NoDup o;
  ps_range : forall p o v, ps_inv p o -> v ∈ o -> range_in v 1;
  ps_alloc_ok : forall b p o count, ps_inv p o -> 1 <= count < 0x20000 ->
    exists v p', ps_alloc b p count = Some (v, p') /\
      ((v = 0 /\ ps_inv p' o) \/ (range_in v count /\ ps_inv p' (pages_of v count ++ o)));
  ps_free_ok : forall p o v count, ps_inv p (pages_of v count ++ o) -> range_in v count ->
    exists p', ps_free p v count = Some p' /\ ps_inv p' o
}.

#[export] Program Instance kva_source : PageSource kva := {|
  ps_alloc := kpages_alloc;
  ps_free := kpages_free;
  ps_inv := fun s o => exists lost, wf_kva s o lost
|}.
Next Obligation. intros s o o' [lost Hwf] Hp. exists lost. by eapply wf_kva_perm. Qed.
Next Obligation.
  intros s o [lost Hwf]. pose proof (NoDup_pages KHEAP_VBASE ((s_bump s - KHEAP_VBASE) / PAGE_SIZE)) as H.
  rewrite (wk_pages _ _ _ Hwf), NoDup_app in H. tauto.
Qed.
Next Obligation.
  intros s o v [lost Hwf] Hv. eapply page_of_window; [exact Hwf|]. apply elem_of_app. by left.
Qed.
Next Obligation.
  intros b s o count [lost Hwf] Hc. unfold kpages_alloc. rewrite (proj2 (Z.eqb_neq count 0)) by lia.
  pose proof (take_range_spec s o lost count Hwf Hc) as Ht.
  destruct (take_virtual_range s count) as [v s1]. destruct Ht as [(-> & -> & _)|[Hv Hwf1]].
  { exists 0, s. split; [done|]. left. by eauto. }
  rewrite (proj2 (Z.eqb_neq v 0)) by (unfold range_in, KHEAP_VBASE in Hv; lia).
  destruct b; [do 2 eexists; split; [done|]; right; split; [done|]; by eexists|].
  destruct (give_spec s1 o lost v count Hwf1 Hv) as (s2 & fresh & Hg & Hwf2). run_bind Hg.
  do 2 eexists. split; [done|]. left. split; [done|]. by eexists.
Qed.
Next Obligation.
  intros s o v count [lost Hwf] Hv. unfold kpages_free.
  destruct (give_spec s o lost v count Hwf Hv) as (s2 & fresh & Hg & Hwf2).
  rewrite (proj2 (Z.eqb_neq v 0)), (proj2 (Z.eqb_neq count 0))
    by (unfold range_in, KHEAP_VBASE in Hv; lia). cbn [orb]. run_bind Hg.
  eexists. split; [done|]. by eexists.
Qed.

(** ** The properties *)



(** Coalescing: a returned range merges with its free neighbours before it is stored,
    so no entry left in the table touches the merged range. *)
Lemma merge_maximal mu virt count : range_in virt count ->
  Forall (fun x => range_in (m_virt x) (m_pages x)) mu ->
  exists v c mu', merge_with_multi (S (length mu)) mu virt count = Some (v, c, mu') /\
    no_neighbour mu' v c.
Proof.
  intros Hr Hmu. destruct (merge_with_multi_spec (S (length mu)) mu virt count Hr Hmu)
    as (v & c & mu' & H & _ & _ & _ & _ & Hn); [lia|]. by exists v, c, mu'.
Qed.

(** A request of 2^20 - 1 pages passes the limit check, its size having wrapped, and
    moves the bump pointer down over a page in use. *)
Remark take_wraps :
  take_virtual_range (mk_kva 0xD0001000 [] [] 0) 0xFFFFF
  = (0xD0001000, mk_kva 0xD0000000 [] [] 0).
Proof. by vm_compute. Qed.

(** Two adjacent single pages on the stack are not recomposed by the trim: the first
    one popped goes straight back and ends it. *)
Remark trim_leaves_adjacent_singles :
  let s := mk_kva 0xD0004000 [0xD0002000; 0xD0001000] [] 0 in
  kva_singles_trim 2 s = Some s.
Proof. by vm_compute. Qed.
