(* ===== verification/Slab.v ===== *)
(** * Kernel heap (kernel/mm/kheap.c, second level)

    Slab pages in eight classes, the per-CPU caches of claimed slots and the large
    allocations, over any [PageSource].  The page headers are a finite map from page
    addresses ([SLAB_MAGIC] being membership), the partial and empty lists the page
    addresses in list order, a large header an entry of [larges].  Each section under
    [s_slab_lock], or with interrupts off for the caches, is one function of the
    state; [kmalloc] and [kfree] compose them.  The bitmap scan of a slab page is the
    word scan of the frame allocator started at slot 0. *)

From S2P Require Import Prelude Bitmap Pmm KVa.

Definition NUM_CLASSES : Z := 8.
Definition EMPTY_CACHE_MAX : Z := 8.
Definition KM_CACHE_DEPTH : Z := 16.
Definition sizeof_kheap_page : Z := 20.
Definition sizeof_large_hdr : Z := 8.

Definition s_class_size : list Z := [16; 32; 64; 128; 256; 512; 1024; 2048].

Definition class_size (cls : Z) : Z := default 0 (geti s_class_size cls).

Record kheap_page_t := mk_page {
  class_idx : Z;
  in_partial : bool;
  free_count : Z;
  total_slots : Z;
  page_bitmap : list Z
}.

Definition upd {A} (f : Z -> A) (k : Z) (v : A) : Z -> A :=
  fun x => if decide (x = k) then v else f x.

Section Heap.
Context {P : Type} `{PageSource P}.

Record kheap := mk_kheap {
  pages : gmap Z kheap_page_t;
  larges : gmap Z Z;
  s_partial : Z -> list Z;
  s_empty : Z -> list Z;
  s_double_free : Z;
  s_km_cache : gmap (Z * Z) (list Z);
  source : P
}.

Definition kheap_init (p : P) : kheap :=
  mk_kheap ∅ ∅ (fun _ => []) (fun _ => []) 0 ∅ p.

Definition s_empty_n (h : kheap) (cls : Z) : Z := Z.of_nat (length (s_empty h cls)).

(** ** Geometry *)

Definition bitmap_words (pg : kheap_page_t) : Z := (total_slots pg ⊞ 31) / 32.

Definition slot_address (pg : kheap_page_t) (p idx sz : Z) : Z :=
  u32 (p + sizeof_kheap_page + bitmap_words pg * 4 + idx * sz).

(** The [while] of [slots_that_fit]. *)
Fixpoint fit_loop (n : nat) (slot_size : Z) : Z :=
  match n with
  | O => 0
  | S n' =>
      if PAGE_SIZE <? sizeof_kheap_page + (Z.of_nat n + 31) / 32 * 4 + Z.of_nat n * slot_size
      then fit_loop n' slot_size else Z.of_nat n
  end.

Definition slots_that_fit (slot_size : Z) : Z :=
  fit_loop (Z.to_nat ((PAGE_SIZE - sizeof_kheap_page) / slot_size)) slot_size.

Fixpoint find_class (sizes : list Z) (c size : Z) : Z :=
  match sizes with
  | [] => -1
  | s :: rest => if size <=? s then c else find_class rest (c + 1) size
  end.

Definition size_to_class (size : Z) : Z := find_class s_class_size 0 size.

(** ** Slab verbs *)

Definition set_page (h : kheap) (p : Z) (pg : kheap_page_t) : kheap :=
  mk_kheap (<[p := pg]> (pages h)) (larges h) (s_partial h) (s_empty h) (s_double_free h)
    (s_km_cache h) (source h).

Definition set_partial (h : kheap) (cls : Z) (l : list Z) : kheap :=
  mk_kheap (pages h) (larges h) (upd (s_partial h) cls l) (s_empty h) (s_double_free h)
    (s_km_cache h) (source h).

Definition set_empty (h : kheap) (cls : Z) (l : list Z) : kheap :=
  mk_kheap (pages h) (larges h) (s_partial h) (upd (s_empty h) cls l) (s_double_free h)
    (s_km_cache h) (source h).

Definition set_cache (h : kheap) (k : Z * Z) (l : list Z) : kheap :=
  mk_kheap (pages h) (larges h) (s_partial h) (s_empty h) (s_double_free h)
    (<[k := l]> (s_km_cache h)) (source h).

Definition count_double_free (h : kheap) : kheap :=
  mk_kheap (pages h) (larges h) (s_partial h) (s_empty h) (s_double_free h ⊞ 1)
    (s_km_cache h) (source h).

Definition set_flag (pg : kheap_page_t) (b : bool) : kheap_page_t :=
  mk_page (class_idx pg) b (free_count pg) (total_slots pg) (page_bitmap pg).

Definition set_count (pg : kheap_page_t) (n : Z) (bm : list Z) : kheap_page_t :=
  mk_page (class_idx pg) (in_partial pg) n (total_slots pg) bm.

Definition partial_push (h : kheap) (cls p : Z) : option kheap :=
  pg ← pages h !! p;
  Some (set_page (set_partial h cls (p :: s_partial h cls)) p (set_flag pg true)).

Definition partial_remove (h : kheap) (cls p : Z) : option kheap :=
  pg ← pages h !! p;
  if negb (in_partial pg) then Some h
  else Some (set_page (set_partial h cls (filter (fun x => x <> p) (s_partial h cls))) p
               (set_flag pg false)).

(** A fresh page from the source, zeroed. *)
Definition create_slab_page (backed : bool) (h : kheap) (cls : Z) : option (Z * kheap) :=
  '(v, src) ← ps_alloc backed (source h) 1;
  let h1 := mk_kheap (pages h) (larges h) (s_partial h) (s_empty h) (s_double_free h)
              (s_km_cache h) src in
  if v =? 0 then Some (0, h1)
  else
    let n := slots_that_fit (class_size cls) in
    let pg := mk_page cls false n n (replicate (Z.to_nat ((n + 31) / 32)) 0) in
    Some (v, set_page h1 v pg).

(** [NULL] is 0. *)
Definition pick_cached_page (h : kheap) (cls : Z) : option (Z * kheap) :=
  match s_partial h cls with
  | p :: _ => Some (p, h)
  | [] =>
      match s_empty h cls with
      | p :: rest =>
          pg ← pages h !! p;
          let h1 := set_page (set_empty h cls rest) p (set_flag pg false) in
          h2 ← partial_push h1 cls p; Some (p, h2)
      | [] => Some (0, h)
      end
  end.

(** The slot index (-1 if none) and the page with its bit set. *)
Definition claim_free_slot (pg : kheap_page_t) : option (Z * kheap_page_t) :=
  r ← scan_words (Z.to_nat (bitmap_words pg)) (page_bitmap pg) 0 0 (total_slots pg);
  match r with
  | None => Some (-1, pg)
  | Some idx =>
      w ← geti (page_bitmap pg) (idx / 32);
      bm ← seti (page_bitmap pg) (idx / 32) (Z.lor w (bit32 (idx mod 32)));
      Some (idx, set_count pg (free_count pg) bm)
  end.

(** Claim a slot of page [p], count it and drop a full page from the partial list:
    the sequence of both allocation loops. *)
Definition claim_on (h : kheap) (cls p : Z) : option (Z * kheap) :=
  pg ← pages h !! p;
  '(idx, pg1) ← claim_free_slot pg;
  let pg2 := set_count pg1 (u16 (free_count pg1 - 1)) (page_bitmap pg1) in
  let h1 := set_page h p pg2 in
  h2 ← (if free_count pg2 =? 0 then partial_remove h1 cls p else Some h1);
  Some (slot_address pg2 p (u32 idx) (class_size cls), h2).

(** The verified release of a slot: the page to return to the source, or 0. *)
Definition release_slot_checked (h : kheap) (addr : Z) : option (Z * kheap) :=
  let p := ALIGN_DOWN addr PAGE_SIZE in
  pg ← pages h !! p;
  sz ← geti s_class_size (class_idx pg);
  let off := u32 (addr - p - sizeof_kheap_page - bitmap_words pg * 4) in
  let idx := off / sz in
  if (total_slots pg <=? idx) || negb (off mod sz =? 0) then Some (0, count_double_free h)
  else
    w ← geti (page_bitmap pg) (idx / 32);
    if Z.land w (bit32 (idx mod 32)) =? 0 then Some (0, count_double_free h)
    else
      bm ← seti (page_bitmap pg) (idx / 32) (Z.land w (not32 (bit32 (idx mod 32))));
      let was_full := free_count pg =? 0 in
      let pg1 := set_count pg (u16 (free_count pg + 1)) bm in
      let h1 := set_page h p pg1 in
      h2 ← (if was_full then partial_push h1 (class_idx pg) p else Some h1);
      if free_count pg1 =? total_slots pg1 then
        h3 ← partial_remove h2 (class_idx pg) p;
        if s_empty_n h3 (class_idx pg) <? EMPTY_CACHE_MAX
        then Some (0, set_empty h3 (class_idx pg) (p :: s_empty h3 (class_idx pg)))
        else Some (p, h3)
      else Some (0, h2).

(** [kpage_free] of a drained slab page: the header goes with the page. *)
Definition drop_page (h : kheap) (p : Z) : option kheap :=
  src ← ps_free (source h) p 1;
  Some (mk_kheap (delete p (pages h)) (larges h) (s_partial h) (s_empty h) (s_double_free h)
          (s_km_cache h) src).

(** ** kmalloc and kfree, section by section *)

Definition cache_of (h : kheap) (k : Z * Z) : list Z := default [] (s_km_cache h !! k).

(** The hot path: pop the CPU's cache. *)
Definition cache_pop (h : kheap) (cpu cls : Z) : option Z * kheap :=
  match cache_of h (cpu, cls) with
  | obj :: rest => (Some obj, set_cache h (cpu, cls) rest)
  | [] => (None, h)
  end.

(** [while (got < KM_CACHE_DEPTH / 2 + 1)]; the batch's top is its head. *)
Fixpoint claim_batch (k : nat) (h : kheap) (cls : Z) (batch : list Z) : option (list Z * kheap) :=
  match k with
  | O => Some (batch, h)
  | S k' =>
      '(p, h1) ← pick_cached_page h cls;
      if p =? 0 then Some (batch, h1)
      else '(obj, h2) ← claim_on h1 cls p; claim_batch k' h2 cls (obj :: batch)
  end.

(** The refill with a fresh page. *)
Definition claim_fresh (backed : bool) (h : kheap) (cls : Z) : option (Z * kheap) :=
  '(p, h1) ← create_slab_page backed h cls;
  if p =? 0 then Some (0, h1)
  else h2 ← partial_push h1 cls p; claim_on h2 cls p.

(** [while (got > 0 && s_km_n < KM_CACHE_DEPTH)]: the rest of the batch and the heap. *)
Fixpoint cache_fill (batch : list Z) (h : kheap) (k : Z * Z) : list Z * kheap :=
  match batch with
  | [] => ([], h)
  | obj :: rest =>
      if Z.of_nat (length (cache_of h k)) <? KM_CACHE_DEPTH
      then cache_fill rest (set_cache h k (obj :: cache_of h k)) k
      else (batch, h)
  end.

(** The page of [addr] belongs to the heap; reading elsewhere faults, or reads memory
    of others, and is outside the model. *)
Definition readable (h : kheap) (addr : Z) : bool :=
  let p := ALIGN_DOWN addr PAGE_SIZE in
  match pages h !! p with
  | Some _ => true
  | None => bool_decide (p ∈ concat ((fun x => pages_of x.1 x.2) <$> map_to_list (larges h)))
  end.

(** The data of a large object is taken not to imitate a magic number. *)
Definition kfree (h : kheap) (addr : Z) : option kheap :=
  if addr =? 0 then Some h
  else if negb (readable h addr) then None
  else
    match pages h !! ALIGN_DOWN addr PAGE_SIZE with
    | Some _ =>
        '(drained, h1) ← release_slot_checked h addr;
        if drained =? 0 then Some h1 else drop_page h1 drained
    | None =>
        let hd := addr ⊟ sizeof_large_hdr in
        if negb (readable h hd) then None
        else
          match larges h !! hd with
          | Some n =>
              src ← ps_free (source h) hd n;
              Some (mk_kheap (pages h) (delete hd (larges h)) (s_partial h) (s_empty h)
                      (s_double_free h) (s_km_cache h) src)
          | None => Some h
          end
    end.

Fixpoint kfree_all (h : kheap) (l : list Z) : option kheap :=
  match l with
  | [] => Some h
  | a :: rest => h1 ← kfree h a; kfree_all h1 rest
  end.

Definition kmalloc_large (backed : bool) (h : kheap) (size : Z) : option (Z * kheap) :=
  let n := ALIGN_UP (size ⊞ sizeof_large_hdr) PAGE_SIZE / PAGE_SIZE in
  '(v, src) ← (if n =? 0 then Some (0, source h) else ps_alloc backed (source h) n);
  if v =? 0 then
    Some (0, mk_kheap (pages h) (larges h) (s_partial h) (s_empty h) (s_double_free h)
               (s_km_cache h) src)
  else
    Some (v ⊞ sizeof_large_hdr,
          mk_kheap (pages h) (<[v := n]> (larges h)) (s_partial h) (s_empty h) (s_double_free h)
            (s_km_cache h) src).

(** [cpu] is the CPU at the first [this_cpu()], [cpu2] the one at the second. *)
Definition kmalloc (backed : bool) (cpu cpu2 : Z) (h : kheap) (size : Z) : option (Z * kheap) :=
  if size =? 0 then Some (0, h)
  else
    let cls := size_to_class size in
    if 0 <=? cls then
      match cache_pop h cpu cls with
      | (Some obj, h1) => Some (obj, h1)
      | (None, h1) =>
          '(batch, h2) ← claim_batch (Z.to_nat (KM_CACHE_DEPTH / 2 + 1)) h1 cls [];
          match batch with
          | [] => claim_fresh backed h2 cls
          | obj :: rest =>
              let '(surplus, h3) := cache_fill rest h2 (cpu2, cls) in
              h4 ← kfree_all h3 surplus; Some (obj, h4)
          end
      end
    else kmalloc_large backed h size.

(** One class of [kheap_empty_trim]: detach all but the first page of the list... *)
Definition trim_class (h : kheap) (cls : Z) (chain : list Z) : kheap * list Z :=
  let l := s_empty h cls in
  let k := Nat.pred (length l) in
  (set_empty h cls (drop k l), rev (take k l) ++ chain).

Fixpoint trim_classes (k : nat) (h : kheap) (cls : Z) (chain : list Z) : kheap * list Z :=
  match k with
  | O => (h, chain)
  | S k' => let '(h1, c1) := trim_class h cls chain in trim_classes k' h1 (cls + 1) c1
  end.

Fixpoint drop_pages (h : kheap) (l : list Z) : option kheap :=
  match l with
  | [] => Some h
  | p :: rest => h1 ← drop_page h p; drop_pages h1 rest
  end.

(** ... and return the chain to the source. *)
Definition kheap_empty_trim (h : kheap) : option (Z * kheap) :=
  let '(h1, chain) := trim_classes (Z.to_nat NUM_CLASSES) h 0 [] in
  h2 ← drop_pages h1 chain;
  Some (Z.of_nat (length chain) ⊠ PAGE_SIZE, h2).

(** ** Slots and bits *)

Definition is_set (bm : list Z) (i : Z) : Prop := bitat bm i = true.

#[local] Instance is_set_dec bm i : Decision (is_set bm i).
Proof. unfold is_set. apply _. Defined.

Definition set_slots (bm : list Z) (total : Z) : list Z := filter (is_set bm) (seqZ 0 total).

Definition slot_of (p : Z) (pg : kheap_page_t) (i : Z) : Z :=
  slot_address pg p i (class_size (class_idx pg)).

Definition claimed_slots (p : Z) (pg : kheap_page_t) : list Z :=
  slot_of p pg <$> set_slots (page_bitmap pg) (total_slots pg).

Record wf_page (p : Z) (pg : kheap_page_t) : Prop := {
  wp_class : 0 <= class_idx pg < NUM_CLASSES;
  wp_total : total_slots pg = slots_that_fit (class_size (class_idx pg));
  wp_words : Forall is_u32 (page_bitmap pg);
  wp_len : Z.of_nat (length (page_bitmap pg)) = (total_slots pg + 31) / 32;
  wp_count : free_count pg + Z.of_nat (length (set_slots (page_bitmap pg) (total_slots pg)))
             = total_slots pg;
  wp_range : range_in p 1
}.

Lemma NoDup_set_slots bm total : NoDup (set_slots bm total).
Proof. apply NoDup_filter, NoDup_seqZ. Qed.

Lemma elem_of_set_slots bm total i :
  i ∈ set_slots bm total <-> bitat bm i = true /\ 0 <= i < total.
Proof. unfold set_slots. rewrite list_elem_of_filter, elem_of_seqZ. unfold is_set. split; intros; split; tauto || lia. Qed.

(** Setting, and clearing, one bit. *)
Lemma set_slots_add bm bm' total i : 0 <= i < total -> bitat bm i = false ->
  (forall j, bitat bm' j = if j =? i then true else bitat bm j) ->
  Permutation (set_slots bm' total) (i :: set_slots bm total).
Proof.
  intros Hi Hb Hb'. apply NoDup_Permutation.
  - apply NoDup_set_slots.
  - apply NoDup_cons. split; [|apply NoDup_set_slots]. rewrite elem_of_set_slots. by intros [? _]; congruence.
  - intros j. rewrite elem_of_cons, !elem_of_set_slots, Hb'.
    destruct (Z.eqb_spec j i) as [->|]; tauto.
Qed.

(** The eight geometries. *)
Lemma class_cases c : 0 <= c < NUM_CLASSES ->
  c = 0 \/ c = 1 \/ c = 2 \/ c = 3 \/ c = 4 \/ c = 5 \/ c = 6 \/ c = 7.
Proof. unfold NUM_CLASSES. lia. Qed.

Lemma geometry c : 0 <= c < NUM_CLASSES ->
  let sz := class_size c in let n := slots_that_fit sz in
  16 <= sz /\ geti s_class_size c = Some sz /\ 1 <= n <= 252 /\
  sizeof_kheap_page + (n + 31) / 32 * 4 + n * sz <= PAGE_SIZE.
Proof.
  intros Hc. destruct (class_cases c Hc) as [->|[->|[->|[->|[->|[->|[->| ->]]]]]]];
    vm_compute; repeat split; discriminate.
Qed.

Lemma wf_page_geometry p pg : wf_page p pg ->
  16 <= class_size (class_idx pg) /\
  geti s_class_size (class_idx pg) = Some (class_size (class_idx pg)) /\
  1 <= total_slots pg <= 252 /\ bitmap_words pg = (total_slots pg + 31) / 32 /\
  0 <= bitmap_words pg <= 8 /\
  sizeof_kheap_page + bitmap_words pg * 4 + total_slots pg * class_size (class_idx pg) <= PAGE_SIZE.
Proof.
  intros [Hc Ht _ _ _ _]. destruct (geometry _ Hc) as (H1 & H2 & H3 & H4). rewrite <- Ht in *.
  unfold bitmap_words. rewrite u32_small by lia. split_and!; try done; zlia.
Qed.

(** A slot lies inside its page, and its index comes back from its address. *)
Lemma slot_in_page p pg i : wf_page p pg -> 0 <= i < total_slots pg ->
  slot_of p pg i = p + sizeof_kheap_page + bitmap_words pg * 4 + i * class_size (class_idx pg) /\
  p <= slot_of p pg i < p + PAGE_SIZE /\ slot_of p pg i <> 0.
Proof.
  intros Hwf Hi. destruct (wf_page_geometry p pg Hwf) as (H1 & _ & H3 & _ & H5 & H6).
  destruct (wp_range _ _ Hwf) as (R1 & _ & R2 & _). unfold slot_of, slot_address.
  unfold KHEAP_VBASE, KHEAP_VLIMIT, PAGE_SIZE, sizeof_kheap_page in *.
  rewrite u32_small by nia. nia.
Qed.

Lemma slot_inj p pg i j : wf_page p pg -> 0 <= i < total_slots pg -> 0 <= j < total_slots pg ->
  slot_of p pg i = slot_of p pg j -> i = j.
Proof.
  intros Hwf Hi Hj E. destruct (slot_in_page p pg i Hwf Hi) as [E1 _].
  destruct (slot_in_page p pg j Hwf Hj) as [E2 _].
  destruct (wf_page_geometry p pg Hwf) as (H1 & _). nia.
Qed.

Lemma page_of_slot p pg a : wf_page p pg -> p <= a < p + PAGE_SIZE -> ALIGN_DOWN a PAGE_SIZE = p.
Proof.
  intros Hwf Ha. destruct (wp_range _ _ Hwf) as (R1 & _ & R2 & R3).
  unfold KHEAP_VBASE, KHEAP_VLIMIT, PAGE_SIZE in *.
  rewrite ALIGN_DOWN_page by (unfold is_u32; lia). unfold PAGE_SIZE. zlia.
Qed.

Lemma claimed_NoDup p pg : wf_page p pg -> NoDup (claimed_slots p pg).
Proof.
  intros Hwf. unfold claimed_slots. apply NoDup_fmap_2_strong; [|apply NoDup_set_slots].
  intros i j [_ Hi]%elem_of_set_slots [_ Hj]%elem_of_set_slots. by apply slot_inj.
Qed.

Lemma claimed_in_page p pg a : wf_page p pg -> a ∈ claimed_slots p pg ->
  p <= a < p + PAGE_SIZE /\ a <> 0.
Proof.
  intros Hwf Ha. apply list_elem_of_fmap in Ha as (i & -> & [_ Hi]%elem_of_set_slots).
  by apply slot_in_page.
Qed.

(** ** The claimed slots of the heap *)

Definition claimed (m : gmap Z kheap_page_t) : list Z :=
  concat ((fun x => claimed_slots x.1 x.2) <$> map_to_list m).

Definition cached (m : gmap (Z * Z) (list Z)) : list Z := concat (snd <$> map_to_list m).

Definition large_pages (m : gmap Z Z) : list Z :=
  concat ((fun x => pages_of x.1 x.2) <$> map_to_list m).

Lemma Permutation_concat {A} (l l' : list (list A)) :
  Permutation l l' -> Permutation (concat l) (concat l').
Proof. induction 1; cbn; [done|by apply Permutation_app_head|perm_app|by etrans]. Qed.

Lemma claimed_split m p pg : m !! p = Some pg ->
  Permutation (claimed m) (claimed_slots p pg ++ claimed (delete p m)).
Proof.
  intros Hp. unfold claimed. by rewrite <- (map_to_list_delete m p pg Hp).
Qed.

Lemma claimed_insert m p pg :
  Permutation (claimed (<[p := pg]> m)) (claimed_slots p pg ++ claimed (delete p m)).
Proof.
  rewrite (claimed_split _ p pg) by apply lookup_insert_eq. by rewrite delete_insert_eq.
Qed.

Lemma elem_of_claimed m a : a ∈ claimed m <-> exists p pg, m !! p = Some pg /\ a ∈ claimed_slots p pg.
Proof.
  unfold claimed. rewrite list_elem_of_In, in_concat. setoid_rewrite <- list_elem_of_In. split.
  - intros (l & ([p pg] & -> & Hin)%list_elem_of_fmap & Ha).
    apply elem_of_map_to_list in Hin. by exists p, pg.
  - intros (p & pg & Hp & Ha). eexists. split; [|exact Ha].
    apply list_elem_of_fmap. exists (p, pg). split; [done|]. by apply elem_of_map_to_list.
Qed.

(** ** The page lists *)

Lemma upd_eq {A} (f : Z -> A) k v : upd f k v k = v.
Proof. unfold upd. by rewrite decide_True. Qed.

Lemma upd_ne {A} (f : Z -> A) k v x : x <> k -> upd f k v x = f x.
Proof. intros. unfold upd. by rewrite decide_False. Qed.

(** A page is on the partial list of its class exactly when its flag says so, on the
    empty list when it is unflagged and wholly free, and otherwise full. *)
Definition in_list (m : gmap Z kheap_page_t) (Q : kheap_page_t -> Prop) (cls : Z) (l : list Z) : Prop :=
  NoDup l /\ forall p, p ∈ l <-> exists pg, m !! p = Some pg /\ class_idx pg = cls /\ Q pg.

Definition flagged (pg : kheap_page_t) : Prop := in_partial pg = true.
Definition drained (pg : kheap_page_t) : Prop :=
  in_partial pg = false /\ free_count pg = total_slots pg.

Definition flag_ok (pg : kheap_page_t) : Prop :=
  if in_partial pg then 0 < free_count pg
  else free_count pg = 0 \/ free_count pg = total_slots pg.

Record lists_ok (m : gmap Z kheap_page_t) (sp se : Z -> list Z) : Prop := {
  lo_partial : forall cls, in_list m flagged cls (sp cls);
  lo_empty : forall cls, in_list m drained cls (se cls);
  lo_flag : forall p pg, m !! p = Some pg -> flag_ok pg
}.

Lemma in_list_update m Q cls p pg' (f f' : Z -> list Z) :
  (forall c, in_list m Q c (f c)) -> class_idx pg' = cls ->
  (forall pg, m !! p = Some pg -> class_idx pg = cls) ->
  (forall c, c <> cls -> f' c = f c) -> NoDup (f' cls) ->
  (forall q, q <> p -> q ∈ f' cls <-> q ∈ f cls) -> (p ∈ f' cls <-> Q pg') ->
  forall c, in_list (<[p := pg']> m) Q c (f' c).
Proof.
  intros Hold Hcls Hm Hne Hnd Hother Hp c. destruct (decide (c = cls)) as [->|Hc].
  - split; [done|]. intros q. destruct (decide (q = p)) as [->|Hq].
    + rewrite Hp, lookup_insert_eq. split; [by exists pg'|]. by intros (? & [= <-] & _ & ?).
    + rewrite Hother, lookup_insert_ne by done. apply (proj2 (Hold cls)).
  - rewrite Hne by done. split; [apply Hold|]. intros q.
    rewrite (proj2 (Hold c) q). destruct (decide (q = p)) as [->|Hq].
    + rewrite lookup_insert_eq. split; [|intros (? & [= <-] & ? & _); congruence].
      intros (pg & Hpg & Hc' & _). rewrite (Hm pg Hpg) in Hc'. congruence.
    + by rewrite lookup_insert_ne by done.
Qed.

Lemma in_list_delete m Q cls p (f f' : Z -> list Z) :
  (forall c, in_list m Q c (f c)) -> (forall pg, m !! p = Some pg -> class_idx pg = cls) ->
  (forall c, c <> cls -> f' c = f c) -> NoDup (f' cls) ->
  (forall q, q <> p -> q ∈ f' cls <-> q ∈ f cls) -> p ∉ f' cls ->
  forall c, in_list (delete p m) Q c (f' c).
Proof.
  intros Hold Hm Hne Hnd Hother Hp c. destruct (decide (c = cls)) as [->|Hc].
  - split; [done|]. intros q. destruct (decide (q = p)) as [->|Hq].
    + rewrite lookup_delete_eq. split; [done|]. by intros (? & ? & _).
    + rewrite Hother, lookup_delete_ne by done. apply (proj2 (Hold cls)).
  - rewrite Hne by done. split; [apply Hold|]. intros q.
    rewrite (proj2 (Hold c) q). destruct (decide (q = p)) as [->|Hq].
    + rewrite lookup_delete_eq. split; [|by intros (? & ? & _)].
      intros (pg & Hpg & Hc' & _). rewrite (Hm pg Hpg) in Hc'. congruence.
    + by rewrite lookup_delete_ne by done.
Qed.

Lemma flag_ok_insert (m : gmap Z kheap_page_t) p pg' : (forall q pg, m !! q = Some pg -> flag_ok pg) -> flag_ok pg' ->
  forall q pg, <[p := pg']> m !! q = Some pg -> flag_ok pg.
Proof.
  intros Hm Hp q pg. destruct (decide (q = p)) as [->|Hq].
  - rewrite lookup_insert_eq. by intros [= <-].
  - rewrite lookup_insert_ne by done. apply Hm.
Qed.

(** ** The heap invariant *)

(** [held]: the slots in the hands of clients or of allocations in progress; [ext]:
    pages of the source held by others. *)
Record wf_heap (h : kheap) (held ext : list Z) : Prop := {
  wh_pages : forall p pg, pages h !! p = Some pg -> wf_page p pg;
  wh_lists : lists_ok (pages h) (s_partial h) (s_empty h);
  wh_claimed : Permutation (claimed (pages h)) (held ++ cached (s_km_cache h));
  wh_large : forall v n, larges h !! v = Some n -> range_in v n;
  wh_source : ps_inv (source h)
                ((map_to_list (pages h)).*1 ++ large_pages (larges h) ++ ext)
}.

Lemma wf_heap_perm h held held' ext : wf_heap h held ext -> Permutation held held' ->
  wf_heap h held' ext.
Proof. intros [] Hp. constructor; try done. by rewrite <- Hp. Qed.

Lemma NoDup_claimed (m : gmap Z kheap_page_t) : (forall p pg, m !! p = Some pg -> wf_page p pg) -> NoDup (claimed m).
Proof.
  induction m as [|p pg m Hp Hfirst IH] using map_first_key_ind; intros Hm; [constructor|].
  rewrite (claimed_insert m p pg), delete_id by done.
  assert (forall q qg, m !! q = Some qg -> wf_page q qg) as Hm'.
  { intros q qg Hq. apply Hm. rewrite lookup_insert_ne; congruence. }
  pose proof (Hm p pg (lookup_insert_eq _ _ _)) as Hwf.
  apply NoDup_app. split_and!; [by apply claimed_NoDup| |auto].
  intros a Ha (q & qg & Hq & Ha')%elem_of_claimed.
  destruct (claimed_in_page p pg a Hwf Ha) as [R1 _].
  destruct (claimed_in_page q qg a (Hm' q qg Hq) Ha') as [R2 _].
  assert (q = p) as ->; [|congruence].
  by rewrite <- (page_of_slot p pg a Hwf R1), (page_of_slot q qg a (Hm' q qg Hq) R2).
Qed.

(** No slot has two holders. *)
Lemma wf_heap_exclusive h held ext : wf_heap h held ext -> NoDup (held ++ cached (s_km_cache h)).
Proof. intros [Hp _ Hc _ _]. rewrite <- Hc. by apply NoDup_claimed. Qed.

(** ** Claiming *)

Lemma free_count_bound p pg : wf_page p pg -> 0 <= free_count pg <= total_slots pg.
Proof.
  intros Hwf. pose proof (wp_count _ _ Hwf).
  pose proof (length_filter (is_set (page_bitmap pg)) (seqZ 0 (total_slots pg))) as Hl.
  rewrite length_seqZ in Hl. unfold set_slots in *.
  destruct (wf_page_geometry p pg Hwf) as (_ & _ & ? & _). lia.
Qed.

(** On a page with a free slot the scan finds a clear bit and sets it. *)
Lemma claim_free_slot_spec p pg : wf_page p pg -> 0 < free_count pg ->
  exists i bm, claim_free_slot pg = Some (i, set_count pg (free_count pg) bm) /\
    0 <= i < total_slots pg /\ bitat (page_bitmap pg) i = false /\
    Forall is_u32 bm /\ length bm = length (page_bitmap pg) /\
    (forall j, bitat bm j = if j =? i then true else bitat (page_bitmap pg) j).
Proof.
  intros Hwf Hfree. pose proof (wp_len _ _ Hwf) as Hlen.
  destruct (wf_page_geometry p pg Hwf) as (_ & _ & Ht & Hw & Hw8 & _).
  unfold claim_free_slot.
  destruct (scan_words_spec (Z.to_nat (bitmap_words pg)) (page_bitmap pg) 0 0 (total_slots pg))
    as (r & Hr & Hspec); [apply Hwf|lia|lia|lia|].
  run_bind Hr. destruct r as [i|].
  - destruct Hspec as [Hi Hb].
    destruct (bit_write (page_bitmap pg) i (fun w => Z.lor w (bit32 (i mod 32))) true)
      as (w & bm & Hg & Hs & Hu & Hl & Hbits); [apply Hwf|zlia|auto with cint| |].
    { intros w k _ Hk. by apply set_bit_spec. }
    run_bind Hg. run_bind Hs. by exists i, bm.
  - exfalso. pose proof (wp_count _ _ Hwf) as Hc. unfold set_slots in Hc.
    rewrite filter_all in Hc; [rewrite length_seqZ in Hc; lia|].
    intros j Hj%elem_of_seqZ. apply Hspec; [lia|]. cbn. zlia.
Qed.

Lemma keys_insert (m : gmap Z kheap_page_t) p pg pg' : m !! p = Some pg ->
  Permutation (map_to_list (<[p := pg']> m)).*1 (map_to_list m).*1.
Proof.
  intros Hp. rewrite <- (map_to_list_delete m p pg Hp).
  rewrite <- (map_to_list_delete (<[p := pg']> m) p pg') by apply lookup_insert_eq.
  by rewrite delete_insert_eq.
Qed.

(** Replacing one page; [held'] accounts for the slots gained or lost. *)
Lemma wf_update h h' held held' ext p pg pg' : wf_heap h held ext ->
  pages h !! p = Some pg -> pages h' = <[p := pg']> (pages h) ->
  larges h' = larges h -> s_km_cache h' = s_km_cache h -> source h' = source h ->
  wf_page p pg' -> lists_ok (<[p := pg']> (pages h)) (s_partial h') (s_empty h') ->
  Permutation (claimed_slots p pg' ++ held) (claimed_slots p pg ++ held') ->
  wf_heap h' held' ext.
Proof.
  intros [Hpg Hl Hc Hla Hso] Hp Hm El Ec Es Hwf Hlists Hperm.
  constructor; rewrite ?Hm, ?El, ?Ec, ?Es; try done.
  - intros q qg. destruct (decide (q = p)) as [->|Hq].
    + rewrite lookup_insert_eq. by intros [= <-].
    + rewrite lookup_insert_ne by done. apply Hpg.
  - rewrite claimed_insert. rewrite (claimed_split _ p pg Hp) in Hc.
    apply (Permutation_app_inv_l (claimed_slots p pg)).
    transitivity (claimed_slots p pg' ++ claimed_slots p pg ++ claimed (delete p (pages h)));
      [perm_app|]. rewrite Hc. rewrite !app_assoc. by apply Permutation_app_tail.
  - eapply ps_perm; [exact Hso|]. symmetry. apply Permutation_app_tail. by eapply keys_insert.
Qed.

Lemma filter_not_in (l : list Z) p q : q <> p -> q ∈ filter (fun x => x <> p) l <-> q ∈ l.
Proof. intros Hq. rewrite list_elem_of_filter. tauto. Qed.

Lemma filter_not_self (l : list Z) p : p ∉ filter (fun x => x <> p) l.
Proof. rewrite list_elem_of_filter. tauto. Qed.

(** A page already on the right list, or on none, keeps its list. *)
Lemma in_list_keep (m : gmap Z kheap_page_t) Q p pg pg' (f : Z -> list Z) :
  (forall c, in_list m Q c (f c)) -> m !! p = Some pg -> class_idx pg' = class_idx pg ->
  (Q pg' <-> Q pg) -> forall c, in_list (<[p := pg']> m) Q c (f c).
Proof.
  intros Hold Hp Hcls HQ. apply (in_list_update m Q (class_idx pg) p pg' f f); try done.
  - intros qg Hq. congruence.
  - apply Hold.
  - rewrite (proj2 (Hold _) p), HQ. split; [|intros; by exists pg].
    by intros (? & ? & _ & ?); simplify_eq.
Qed.

Lemma in_list_add (m : gmap Z kheap_page_t) Q p pg pg' (f f' : Z -> list Z) :
  (forall c, in_list m Q c (f c)) -> m !! p = Some pg -> class_idx pg' = class_idx pg ->
  ~ Q pg -> Q pg' -> f' (class_idx pg) = p :: f (class_idx pg) ->
  (forall c, c <> class_idx pg -> f' c = f c) ->
  forall c, in_list (<[p := pg']> m) Q c (f' c).
Proof.
  intros Hold Hp Hcls HQ HQ' Hf Hne.
  assert (p ∉ f (class_idx pg)) as Hnot.
  { rewrite (proj2 (Hold _) p). by intros (? & ? & _ & ?); simplify_eq. }
  apply (in_list_update m Q (class_idx pg) p pg' f f'); try done.
  - intros qg Hq. congruence.
  - rewrite Hf. apply NoDup_cons. split; [done|apply Hold].
  - intros q Hq. rewrite Hf, elem_of_cons. tauto.
  - rewrite Hf. split; [done|]. by left.
Qed.

Lemma in_list_drop (m : gmap Z kheap_page_t) Q p pg pg' (f f' : Z -> list Z) :
  (forall c, in_list m Q c (f c)) -> m !! p = Some pg -> class_idx pg' = class_idx pg ->
  ~ Q pg' -> f' (class_idx pg) = filter (fun x => x <> p) (f (class_idx pg)) ->
  (forall c, c <> class_idx pg -> f' c = f c) ->
  forall c, in_list (<[p := pg']> m) Q c (f' c).
Proof.
  intros Hold Hp Hcls HQ' Hf Hne.
  apply (in_list_update m Q (class_idx pg) p pg' f f'); try done.
  - intros qg Hq. congruence.
  - rewrite Hf. apply NoDup_filter, Hold.
  - intros q Hq. rewrite Hf. by apply filter_not_in.
  - rewrite Hf. split; [|done]. by intros ?%filter_not_self.
Qed.

(** The page after a claim. *)
Lemma claim_page p pg i bm : wf_page p pg -> 0 < free_count pg -> 0 <= i < total_slots pg ->
  bitat (page_bitmap pg) i = false -> Forall is_u32 bm -> length bm = length (page_bitmap pg) ->
  (forall j, bitat bm j = if j =? i then true else bitat (page_bitmap pg) j) ->
  forall fl, let pg' := mk_page (class_idx pg) fl (free_count pg - 1) (total_slots pg) bm in
  wf_page p pg' /\ Permutation (claimed_slots p pg') (slot_of p pg i :: claimed_slots p pg).
Proof.
  intros Hwf Hfree Hi Hb Hu Hlen Hbits fl pg'.
  pose proof (set_slots_add _ bm (total_slots pg) i Hi Hb Hbits) as Hp. split.
  - destruct Hwf as [H1 H2 H3 H4 H5 H6]. constructor; cbn; try done.
    + by rewrite Hlen.
    + rewrite Hp. cbn. lia.
  - unfold claimed_slots. cbn [page_bitmap total_slots pg']. rewrite Hp. done.
Qed.

Lemma claim_on_spec h held ext p pg : wf_heap h held ext -> pages h !! p = Some pg ->
  in_partial pg = true ->
  exists a h', claim_on h (class_idx pg) p = Some (a, h') /\ wf_heap h' (a :: held) ext /\
    a <> 0 /\ source h' = source h.
Proof.
  intros Hwf Hp Hfl. pose proof (wh_pages _ _ _ Hwf p pg Hp) as Hwp.
  destruct (wh_lists _ _ _ Hwf) as [Lp Le Lf].
  assert (0 < free_count pg) as Hfree.
  { pose proof (Lf p pg Hp) as H0. unfold flag_ok in H0. by rewrite Hfl in H0. }
  pose proof (free_count_bound p pg Hwp).
  destruct (wf_page_geometry p pg Hwp) as (_ & _ & Ht & _).
  destruct (claim_free_slot_spec p pg Hwp Hfree) as (i & bm & Hc & Hi & Hb & Hu & Hl & Hbits).
  unfold claim_on. run_bind Hp. run_bind Hc. unfold set_count.
  assert (u16 (free_count pg - 1) = free_count pg - 1) as Hu16 by (apply Z.mod_small; lia).
  cbn [free_count page_bitmap in_partial class_idx total_slots].
  assert (slot_of p pg i <> 0) as Hnz by (by apply slot_in_page).
  rewrite Hu16. destruct (Z.eqb_spec (free_count pg - 1) 0) as [Hz|Hz].
  - unfold partial_remove. cbn [pages set_page].
    rewrite (bind_eq _ _ _ (lookup_insert_eq (pages h) p _)). cbn beta. cbn [in_partial]. rewrite Hfl. cbn [negb].
    destruct (claim_page p pg i bm Hwp Hfree Hi Hb Hu Hl Hbits false) as [Hw' Hperm].
    do 2 eexists. split; [done|]. split; [|split]; [|by rewrite u32_small by lia|done].
    eapply (wf_update h _ held _ ext p pg); [done|done| |done|done|done|exact Hw'| |].
    + cbn. by rewrite insert_insert_eq.
    + constructor; cbn.
      * eapply in_list_drop; [exact Lp|exact Hp|done|done|apply upd_eq|].
        intros c Hcc. by apply upd_ne.
      * eapply in_list_keep; [exact Le|exact Hp|done|]. unfold drained. cbn. rewrite Hfl.
        split; [intros [_ ?]; lia|by intros [? _]].
      * apply flag_ok_insert; [exact Lf|]. unfold flag_ok. cbn. by left.
    + rewrite Hperm. rewrite u32_small by lia. cbn. rewrite <- Permutation_middle. done.
  - rewrite (bind_eq (Some _) _ _ eq_refl).
    destruct (claim_page p pg i bm Hwp Hfree Hi Hb Hu Hl Hbits (in_partial pg)) as [Hw' Hperm].
    do 2 eexists. split; [done|]. split; [|split]; [|by rewrite u32_small by lia|done].
    eapply (wf_update h _ held _ ext p pg); [done|done|done|done|done|done|exact Hw'| |].
    + constructor; cbn.
      * eapply in_list_keep; [exact Lp|exact Hp|done|done].
      * eapply in_list_keep; [exact Le|exact Hp|done|]. unfold drained. cbn. rewrite Hfl.
        by split; intros [? _].
      * apply flag_ok_insert; [exact Lf|]. unfold flag_ok. cbn. rewrite Hfl. lia.
    + rewrite Hperm. rewrite u32_small by lia. cbn. rewrite <- Permutation_middle. done.
Qed.

(** ** Finding a page to claim on *)

Lemma page_nonzero p pg : wf_page p pg -> p <> 0.
Proof. intros Hwf. destruct (wp_range _ _ Hwf) as (? & _). unfold KHEAP_VBASE in *. lia. Qed.

Lemma claimed_slots_flag p pg b : claimed_slots p (set_flag pg b) = claimed_slots p pg.
Proof. done. Qed.

Lemma wf_page_flag p pg b : wf_page p pg -> wf_page p (set_flag pg b).
Proof. intros []. by constructor. Qed.

Lemma pick_spec h held ext cls : wf_heap h held ext ->
  exists p h', pick_cached_page h cls = Some (p, h') /\ wf_heap h' held ext /\
    source h' = source h /\ s_km_cache h' = s_km_cache h /\
    (p = 0 /\ h' = h /\ s_partial h cls = [] /\ s_empty h cls = [] \/
     exists pg, pages h' !! p = Some pg /\ class_idx pg = cls /\ in_partial pg = true).
Proof.
  intros Hwf. destruct (wh_lists _ _ _ Hwf) as [Lp Le Lf]. unfold pick_cached_page.
  destruct (s_partial h cls) as [|p rest] eqn:Hsp.
  2:{ exists p, h. split_and!; try done. right. apply (proj2 (Lp cls)). rewrite Hsp. by left. }
  destruct (s_empty h cls) as [|p rest] eqn:Hse; [exists 0, h; split_and!; try done; by left|].
  assert (p ∈ s_empty h cls) as Hin by (rewrite Hse; by left).
  apply (proj2 (Le cls)) in Hin as (pg & Hp & Hcls & Hfl & Hfree).
  pose proof (wh_pages _ _ _ Hwf p pg Hp) as Hwp. run_bind Hp.
  unfold partial_push. cbn [pages set_page]. rewrite (bind_eq _ _ _ (lookup_insert_eq _ p _)).
  cbn beta. do 2 eexists. split; [done|]. split; [|split; [done|split; [done|]]].
  2:{ right. exists (set_flag pg true). split; [|done]. cbn. by rewrite lookup_insert_eq. }
  eapply (wf_update h _ held held ext p pg (set_flag pg true)); try done.
  - cbn. by rewrite insert_insert_eq.
  - by apply wf_page_flag.
  - constructor; cbn.
    + eapply in_list_add; [exact Lp|exact Hp|done| |done| |].
      * unfold flagged. congruence.
      * by rewrite Hcls, upd_eq.
      * intros c Hc. apply upd_ne. congruence.
    + eapply in_list_drop; [exact Le|exact Hp|done| | |].
      * by intros [? _].
      * rewrite Hcls, upd_eq, Hse, filter_cons, decide_False by (intros Hn; by apply Hn).
        symmetry. apply filter_all. intros q Hq ->.
        pose proof (proj1 (Le cls)) as Hnd. rewrite Hse in Hnd. by apply NoDup_cons in Hnd as [? _].
      * intros c Hc. apply upd_ne. congruence.
    + apply flag_ok_insert; [exact Lf|]. unfold flag_ok. cbn. rewrite Hfree.
      destruct (wf_page_geometry p pg Hwp) as (_ & _ & ? & _). lia.
Qed.

Lemma claim_batch_spec ext cls k : forall h held batch, wf_heap h held ext ->
  exists new h', claim_batch k h cls batch = Some (new ++ batch, h') /\
    wf_heap h' (new ++ held) ext /\ Forall (fun a => a <> 0) new.
Proof.
  induction k as [|k IH]; intros h held batch Hwf; cbn [claim_batch]; [by exists [], h|].
  destruct (pick_spec h held ext cls Hwf) as (p & h1 & H1 & Hwf1 & _ & _ & Hcase). run_bind H1.
  destruct Hcase as [(-> & -> & _)|(pg & Hp & Hcls & Hfl)]; [by exists [], h|].
  rewrite (proj2 (Z.eqb_neq p 0)) by (eapply page_nonzero; by apply (wh_pages _ _ _ Hwf1)).
  destruct (claim_on_spec h1 held ext p pg Hwf1 Hp Hfl) as (a & h2 & H2 & Hwf2 & Ha & _).
  rewrite Hcls in H2. run_bind H2.
  destruct (IH h2 (a :: held) (a :: batch) Hwf2) as (new & h3 & H3 & Hwf3 & Hn).
  exists (new ++ [a]), h3. rewrite <- !app_assoc. split; [done|]. split; [done|].
  apply Forall_app. split; [done|]. by repeat constructor.
Qed.

Lemma zero_bits n i : bitat (replicate n 0) i = false.
Proof.
  unfold bitat, geti. case_if; [done|].
  destruct (replicate n 0 !! Z.to_nat (i / 32)) as [w|] eqn:E; [|done].
  apply lookup_replicate_1 in E as [-> _]. apply Z.bits_0.
Qed.

Lemma fresh_page_wf v cls fl : 0 <= cls < NUM_CLASSES -> range_in v 1 ->
  let n := slots_that_fit (class_size cls) in
  let pg := mk_page cls fl n n (replicate (Z.to_nat ((n + 31) / 32)) 0) in
  wf_page v pg /\ claimed_slots v pg = [].
Proof.
  intros Hcls Hv n pg. destruct (geometry cls Hcls) as (_ & _ & Hn & _). fold n in Hn.
  assert (set_slots (page_bitmap pg) n = []) as Hs.
  { destruct (set_slots _ _) as [|i l] eqn:E; [done|]. exfalso.
    assert (i ∈ i :: l) as Hi by (by left). rewrite <- E, elem_of_set_slots in Hi.
    destruct Hi as [Hi _]. cbn in Hi. by rewrite zero_bits in Hi. }
  split.
  - constructor; unfold pg; cbn [class_idx total_slots page_bitmap free_count]; try done.
    + apply Forall_replicate. unfold is_u32. lia.
    + rewrite length_replicate. zlia.
    + unfold pg in Hs. cbn [page_bitmap] in Hs. rewrite Hs. cbn. lia.
  - unfold claimed_slots. cbn [total_slots pg]. by rewrite Hs.
Qed.

Definition with_source (h : kheap) (src : P) : kheap :=
  mk_kheap (pages h) (larges h) (s_partial h) (s_empty h) (s_double_free h) (s_km_cache h) src.

Lemma claim_fresh_spec b h held ext cls : wf_heap h held ext -> 0 <= cls < NUM_CLASSES ->
  exists a h', claim_fresh b h cls = Some (a, h') /\
    ((a = 0 /\ wf_heap h' held ext) \/ (a <> 0 /\ wf_heap h' (a :: held) ext)).
Proof.
  intros Hwf Hcls. destruct Hwf as [Hpg [Lp Le Lf] Hc Hla Hso] eqn:E.
  unfold claim_fresh, create_slab_page.
  destruct (ps_alloc_ok b _ _ 1 Hso) as (v & src & Ha & Hcase); [lia|]. rewrite Ha.
  cbn [mbind option_bind].
  destruct Hcase as [[-> Hso']|[Hv Hso']].
  { cbn [Z.eqb mbind option_bind]. do 2 eexists. split; [done|]. left. split; [done|].
    by constructor. }
  assert (v <> 0) as Hnz by (unfold range_in, KHEAP_VBASE in Hv; lia).
  rewrite (proj2 (Z.eqb_neq v 0) Hnz). cbn [mbind option_bind].
  rewrite (proj2 (Z.eqb_neq v 0) Hnz). rewrite pages_one in Hso'.
  assert (pages h !! v = None) as Hnew.
  { destruct (pages h !! v) as [pg|] eqn:Hp; [|done]. exfalso.
    pose proof (ps_nodup _ _ Hso') as Hnd. apply NoDup_cons in Hnd as [Hnot _]. apply Hnot.
    apply elem_of_app. left. apply list_elem_of_fmap. exists (v, pg). split; [done|].
    by apply elem_of_map_to_list. }
  unfold partial_push. cbn [pages set_page]. rewrite (bind_eq _ _ _ (lookup_insert_eq _ v _)).
  cbn [mbind option_bind].
  set (n := slots_that_fit (class_size cls)).
  set (pg := mk_page cls true n n (replicate (Z.to_nat ((n + 31) / 32)) 0)).
  destruct (fresh_page_wf v cls true Hcls Hv) as [Hwp Hempty]. fold n pg in Hwp, Hempty.
  set (h2 := set_page (set_partial _ _ _) _ _).
  assert (pages h2 = <[v := pg]> (pages h)) as Hm by (cbn; by rewrite insert_insert_eq).
  assert (wf_heap h2 held ext) as Hwf2.
  { constructor; rewrite ?Hm; cbn [s_partial s_empty s_km_cache larges source h2].
    - intros q qg. destruct (decide (q = v)) as [->|Hq].
      + rewrite lookup_insert_eq. by intros [= <-].
      + rewrite lookup_insert_ne by done. apply Hpg.
    - constructor; cbn.
      + apply (in_list_update (pages h) flagged cls v pg (s_partial h)); try done.
        * congruence.
        * intros c Hcc. by apply upd_ne.
        * rewrite upd_eq. apply NoDup_cons. split; [|apply Lp].
          rewrite (proj2 (Lp cls) v). intros (? & ? & _). congruence.
        * intros q Hq. rewrite upd_eq, elem_of_cons. tauto.
        * rewrite upd_eq. split; [done|]. by left.
      + apply (in_list_update (pages h) drained cls v pg (s_empty h)); try done.
        * congruence.
        * apply Le.
        * rewrite (proj2 (Le cls) v). split; [intros (? & ? & _); congruence|by intros [? _]].
      + apply flag_ok_insert; [exact Lf|]. unfold flag_ok. cbn.
        destruct (geometry cls Hcls) as (_ & _ & Hg & _). unfold n. lia.
    - cbn. rewrite claimed_insert, Hempty, delete_id by done. done.
    - cbn. done.
    - cbn. eapply ps_perm; [exact Hso'|]. rewrite map_to_list_insert by done. done. }
  destruct (claim_on_spec h2 held ext v pg Hwf2) as (a & h3 & H3 & Hwf3 & Hnz3 & _);
    [by rewrite Hm, lookup_insert_eq|done|].
  exists a, h3. split; [exact H3|]. by right.
Qed.

(** ** The per-CPU caches *)

Lemma cached_split (m : gmap (Z * Z) (list Z)) k : 
  Permutation (cached m) (default [] (m !! k) ++ cached (delete k m)).
Proof.
  destruct (m !! k) as [l|] eqn:Hk; cbn.
  - unfold cached. by rewrite <- (map_to_list_delete m k l Hk).
  - by rewrite delete_id.
Qed.

Lemma cached_insert (m : gmap (Z * Z) (list Z)) k l :
  Permutation (cached (<[k := l]> m)) (l ++ cached (delete k m)).
Proof. rewrite (cached_split _ k), lookup_insert_eq, delete_insert_eq. done. Qed.

(** Moving slots between the holders and one cache. *)
Lemma wf_set_cache h held held' ext k l : wf_heap h held ext ->
  Permutation (held' ++ l) (held ++ cache_of h k) -> wf_heap (set_cache h k l) held' ext.
Proof.
  intros [Hpg Hl Hc Hla Hso] Hp. constructor; cbn; try done.
  rewrite Hc, cached_insert, (cached_split (s_km_cache h) k). fold (cache_of h k).
  rewrite !app_assoc. by rewrite Hp.
Qed.

Lemma cache_pop_spec h held ext cpu cls : wf_heap h held ext ->
  match cache_pop h cpu cls with
  | (Some a, h') => wf_heap h' (a :: held) ext
  | (None, h') => h' = h
  end.
Proof.
  intros Hwf. unfold cache_pop. destruct (cache_of h (cpu, cls)) as [|a rest] eqn:Hc; [done|].
  eapply wf_set_cache; [exact Hwf|]. rewrite Hc. cbn. apply Permutation_middle.
Qed.

Lemma cache_fill_spec ext k batch : forall h held, wf_heap h (batch ++ held) ext ->
  let '(rem, h') := cache_fill batch h k in wf_heap h' (rem ++ held) ext.
Proof.
  induction batch as [|a rest IH]; intros h held Hwf; cbn [cache_fill]; [done|].
  case_if; [|done]. apply IH. eapply wf_set_cache; [exact Hwf|]. cbn. symmetry.
  apply Permutation_middle.
Qed.

(** ** Releasing *)

Lemma land_bit32 w k : 0 <= k < 32 -> (Z.land w (bit32 k) =? 0) = negb (Z.testbit w k).
Proof.
  intros Hk. destruct (Z.testbit w k) eqn:Hb; cbn.
  - apply Z.eqb_neq. intros H0.
    assert (Z.testbit (Z.land w (bit32 k)) k = true) as Ht.
    { rewrite Z.land_spec, Hb, testbit_bit32, Z.eqb_refl by lia. done. }
    by rewrite H0, Z.bits_0 in Ht.
  - apply Z.eqb_eq. apply Z.bits_inj'. intros j Hj.
    rewrite Z.land_spec, testbit_bit32, Z.bits_0 by lia.
    destruct (Z.eqb_spec j k) as [->|]; [by rewrite Hb|apply andb_false_r].
Qed.

(** Where an address of a page falls: on slot [i], or on none. *)
Lemma slot_index p pg a : wf_page p pg -> p <= a < p + PAGE_SIZE ->
  let off := u32 (a - p - sizeof_kheap_page - bitmap_words pg * 4) in
  let sz := class_size (class_idx pg) in
  if (total_slots pg <=? off / sz) || negb (off mod sz =? 0)
  then a ∉ claimed_slots p pg
  else 0 <= off / sz < total_slots pg /\ slot_of p pg (off / sz) = a.
Proof.
  intros Hwf Ha off sz.
  destruct (wf_page_geometry p pg Hwf) as (H1 & _ & H3 & _ & H5 & H6). fold sz in H1, H6.
  unfold sizeof_kheap_page, PAGE_SIZE in *.
  assert (forall i, 0 <= i < total_slots pg -> slot_of p pg i = a -> off = i * sz) as Hoff.
  { intros i Hi E. destruct (slot_in_page p pg i Hwf Hi) as [E' _]. fold sz in E'.
    unfold off, sizeof_kheap_page in *. rewrite u32_small by nia. lia. }
  destruct ((total_slots pg <=? off / sz) || negb (off mod sz =? 0)) eqn:Hc.
  - intros (i & -> & [_ Hi]%elem_of_set_slots)%list_elem_of_fmap.
    rewrite (Hoff i Hi eq_refl), Z.div_mul, Z.mod_mul in Hc by lia. cbn in Hc.
    rewrite orb_false_r in Hc. bool_to_prop. lia.
  - bool_to_prop. pose proof (u32_range (a - p - 20 - bitmap_words pg * 4)) as Hr. fold off in Hr.
    split; [split; [apply Z.div_pos; lia|done]|].
    destruct (slot_in_page p pg (off / sz) Hwf) as [E _]; [split; [apply Z.div_pos; lia|done]|].
    rewrite E. fold sz. assert (off = sz * (off / sz)) as E2 by (pose proof (Z.div_mod off sz); lia).
    assert (off = a - p - 20 - bitmap_words pg * 4) as E3; [|unfold sizeof_kheap_page; lia].
    unfold off. apply u32_small. split; [|lia].
    destruct (Z.lt_ge_cases (a - p - 20 - bitmap_words pg * 4) 0) as [Hneg|]; [|done]. exfalso.
    assert (off = a - p - 20 - bitmap_words pg * 4 + 0x100000000) as E4.
    { unfold off, u32. rewrite <- (Z.mod_add _ 1) by lia. rewrite Z.mod_small by lia. lia. }
    nia.
Qed.

(** The page after a release. *)
Lemma release_page p pg i bm : wf_page p pg -> 0 <= i < total_slots pg ->
  bitat (page_bitmap pg) i = true -> Forall is_u32 bm -> length bm = length (page_bitmap pg) ->
  (forall j, bitat bm j = if j =? i then false else bitat (page_bitmap pg) j) ->
  free_count pg < total_slots pg /\
  forall fl, let pg' := mk_page (class_idx pg) fl (free_count pg + 1) (total_slots pg) bm in
  wf_page p pg' /\ Permutation (claimed_slots p pg) (slot_of p pg i :: claimed_slots p pg').
Proof.
  intros Hwf Hi Hb Hu Hlen Hbits.
  assert (Permutation (set_slots (page_bitmap pg) (total_slots pg)) (i :: set_slots bm (total_slots pg)))
    as Hp.
  { apply set_slots_add; [done| |].
    - by rewrite Hbits, Z.eqb_refl.
    - intros j. rewrite Hbits. by destruct (Z.eqb_spec j i) as [->|]. }
  destruct Hwf as [H1 H2 H3 H4 H5 H6]. rewrite Hp in H5. cbn in H5. split; [lia|].
  intros fl pg'. split.
  - constructor; cbn; try done; [by rewrite Hlen|lia].
  - unfold claimed_slots. rewrite Hp. done.
Qed.

(** A drained page taken off every list, waiting to be returned. *)
Record detached (h h' : kheap) (p : Z) (pg pg' : kheap_page_t) : Prop := {
  de_pages : pages h' = <[p := pg']> (pages h);
  de_partial : s_partial h' (class_idx pg) = filter (fun x => x <> p) (s_partial h (class_idx pg));
  de_partial_ne : forall c, c <> class_idx pg -> s_partial h' c = s_partial h c;
  de_empty : s_empty h' = s_empty h;
  de_larges : larges h' = larges h;
  de_cache : s_km_cache h' = s_km_cache h;
  de_source : source h' = source h
}.

Lemma detached_empty h h' held ext p pg pg' a : wf_heap h (a :: held) ext ->
  pages h !! p = Some pg -> detached h h' p pg pg' -> drained pg' ->
  class_idx pg' = class_idx pg -> wf_page p pg' -> ~ drained pg ->
  Permutation (claimed_slots p pg) (a :: claimed_slots p pg') ->
  wf_heap (set_empty h' (class_idx pg) (p :: s_empty h' (class_idx pg))) held ext.
Proof.
  intros Hwf Hp [D1 D2 D3 D4 D5 D6 D7] Hd Hcls Hwp Hnd Hperm.
  destruct (wh_lists _ _ _ Hwf) as [Lp Le Lf].
  eapply (wf_update h _ (a :: held) held ext p pg pg'); try done.
  - constructor; cbn.
    + eapply in_list_drop; [exact Lp|exact Hp|done| |exact D2|exact D3].
      unfold flagged. destruct Hd as [-> _]. done.
    + eapply in_list_add; [exact Le|exact Hp|done|done|done| |].
      * by rewrite upd_eq, D4.
      * intros c Hc. by rewrite upd_ne, D4.
    + apply flag_ok_insert; [exact Lf|]. unfold flag_ok. destruct Hd as [-> Hf]. by right.
  - rewrite Hperm. cbn. symmetry. rewrite Permutation_middle. done.
Qed.

Lemma detached_drop h h' held ext p pg pg' a : wf_heap h (a :: held) ext ->
  pages h !! p = Some pg -> detached h h' p pg pg' -> claimed_slots p pg' = [] -> ~ drained pg ->
  Permutation (claimed_slots p pg) (a :: claimed_slots p pg') ->
  exists h2, drop_page h' p = Some h2 /\ wf_heap h2 held ext.
Proof.
  intros [Hpg [Lp Le Lf] Hc Hla Hso] Hp [D1 D2 D3 D4 D5 D6 D7] Hem Hnd Hperm.
  assert (ps_inv (source h') (pages_of p 1 ++ (map_to_list (delete p (pages h))).*1
            ++ large_pages (larges h) ++ ext)) as Hso'.
  { rewrite D7. eapply ps_perm; [exact Hso|]. rewrite <- (map_to_list_delete _ p pg Hp), pages_one.
    done. }
  destruct (ps_free_ok _ _ p 1 Hso' (wp_range _ _ (Hpg p pg Hp))) as (src & Hf & Hso2).
  unfold drop_page. run_bind Hf. eexists. split; [done|].
  constructor; cbn; rewrite ?D1, ?D5, ?D6, ?delete_insert_eq; try done.
  - intros q qg. destruct (decide (q = p)) as [->|Hq]; [by rewrite lookup_delete_eq|].
    rewrite lookup_delete_ne by done. apply Hpg.
  - constructor; cbn.
    + apply (in_list_delete (pages h) flagged (class_idx pg) p (s_partial h)); try done.
      * congruence.
      * rewrite D2. apply NoDup_filter, Lp.
      * intros q Hq. rewrite D2. by apply filter_not_in.
      * rewrite D2. apply filter_not_self.
    + rewrite D4. apply (in_list_delete (pages h) drained (class_idx pg) p (s_empty h)); try done.
      * congruence.
      * apply Le.
      * rewrite (proj2 (Le _) p). by intros (? & ? & _ & ?); simplify_eq.
    + intros q qg. destruct (decide (q = p)) as [->|Hq]; [by rewrite lookup_delete_eq|].
      rewrite lookup_delete_ne by done. apply Lf.
  - rewrite (claimed_split _ p pg Hp), Hperm, Hem in Hc. cbn in Hc.
    by apply Permutation_cons_inv in Hc.
Qed.

Lemma count_double_free_wf h held ext : wf_heap h held ext -> wf_heap (count_double_free h) held ext.
Proof. intros []. by constructor. Qed.

(** The last part of a release that drained the page: unlink it, then keep or return it. *)
Lemma release_tail h h' held ext p pg pg' a : wf_heap h (a :: held) ext ->
  pages h !! p = Some pg -> detached h h' p pg pg' -> drained pg' ->
  class_idx pg' = class_idx pg -> wf_page p pg' -> ~ drained pg ->
  Permutation (claimed_slots p pg) (a :: claimed_slots p pg') ->
  exists d h2, ((if s_empty_n h' (class_idx pg) <? EMPTY_CACHE_MAX
                then Some (0, set_empty h' (class_idx pg) (p :: s_empty h' (class_idx pg)))
                else Some (p, h')) = Some (d, h2)) /\
    ((d = 0 /\ wf_heap h2 held ext) \/
     (d <> 0 /\ exists h3, drop_page h2 d = Some h3 /\ wf_heap h3 held ext)).
Proof.
  intros Hwf Hp Hde Hd Hcls Hwp Hnd Hperm. case_if.
  - do 2 eexists. split; [done|]. left. split; [done|]. by eapply detached_empty.
  - do 2 eexists. split; [done|]. right. split; [by eapply page_nonzero|].
    eapply detached_drop; [exact Hwf|exact Hp|exact Hde| |done|done].
    destruct Hd as [_ Hfree]. pose proof (wp_count _ _ Hwp) as Hcnt.
    unfold claimed_slots. destruct (set_slots _ _); [done|cbn in Hcnt; lia].
Qed.

(** [h'] is [h] with page [p] flagged and on its partial list. *)
Record on_partial (h h' : kheap) (p : Z) (pg pg' : kheap_page_t) : Prop := {
  op_pages : pages h' = <[p := pg']> (pages h);
  op_lists : lists_ok (<[p := pg']> (pages h)) (s_partial h') (s_empty h');
  op_filter : filter (fun x => x <> p) (s_partial h' (class_idx pg))
              = filter (fun x => x <> p) (s_partial h (class_idx pg));
  op_partial_ne : forall c, c <> class_idx pg -> s_partial h' c = s_partial h c;
  op_empty : s_empty h' = s_empty h;
  op_larges : larges h' = larges h;
  op_cache : s_km_cache h' = s_km_cache h;
  op_source : source h' = source h
}.

(** Writing back the released page, a full one going to the partial list. *)
Lemma release_push h held ext p pg bm : wf_heap h held ext -> pages h !! p = Some pg ->
  0 <= free_count pg < total_slots pg ->
  let pg1 fl := mk_page (class_idx pg) fl (free_count pg + 1) (total_slots pg) bm in
  exists h', (if free_count pg =? 0
              then partial_push (set_page h p (pg1 (in_partial pg))) (class_idx pg) p
              else Some (set_page h p (pg1 (in_partial pg)))) = Some h' /\
    on_partial h h' p pg (pg1 true).
Proof.
  intros Hwf Hp Hfree pg1. destruct (wh_lists _ _ _ Hwf) as [Lp Le Lf].
  pose proof (Lf p pg Hp) as Hfo. unfold flag_ok in Hfo.
  assert (flag_ok (pg1 true)) as Hok by (unfold flag_ok; cbn; lia).
  destruct (Z.eqb_spec (free_count pg) 0) as [Hz|Hz].
  - assert (in_partial pg = false) as Hfl by (destruct (in_partial pg); [lia|done]).
    unfold partial_push. cbn [pages set_page]. rewrite (bind_eq _ _ _ (lookup_insert_eq _ p _)).
    cbn beta. eexists. split; [done|]. constructor; cbn; try done.
    + by rewrite insert_insert_eq.
    + constructor.
      * eapply in_list_add; [exact Lp|exact Hp|done| |done|apply upd_eq|].
        -- unfold flagged. congruence.
        -- intros c Hc. by apply upd_ne.
      * eapply in_list_keep; [exact Le|exact Hp|done|]. unfold drained. cbn.
        split; [by intros [? _]|intros [_ ?]; lia].
      * by apply flag_ok_insert.
    + rewrite upd_eq, filter_cons, decide_False by (intros Hn; by apply Hn). done.
    + intros c Hc. by rewrite upd_ne.
  - assert (in_partial pg = true) as Hfl by (destruct (in_partial pg); [done|lia]).
    rewrite Hfl. eexists. split; [done|]. constructor; cbn; try done. constructor.
    + eapply in_list_keep; [exact Lp|exact Hp|done|]. by unfold flagged.
    + eapply in_list_keep; [exact Le|exact Hp|done|]. unfold drained. cbn.
      split; [by intros [? _]|intros [? _]; congruence].
    + by apply flag_ok_insert.
Qed.

(** From the partial list to nowhere. *)
Lemma remove_detached h h' p pg pg' : on_partial h h' p pg pg' -> flagged pg' ->
  class_idx pg' = class_idx pg ->
  exists h2, partial_remove h' (class_idx pg) p = Some h2 /\ detached h h2 p pg (set_flag pg' false).
Proof.
  intros [O1 O2 O3 O4 O5 O6 O7 O8] Hfl Hcls. unfold partial_remove. rewrite O1.
  rewrite (bind_eq _ _ _ (lookup_insert_eq _ p _)). cbn beta. rewrite Hfl. cbn [negb].
  eexists. split; [done|]. constructor; cbn; try done.
  - by rewrite O1, insert_insert_eq.
  - by rewrite upd_eq.
  - intros c Hc. by rewrite upd_ne, O4.
Qed.

(** Releasing a claimed slot clears it; anything else of the page is only counted. *)
Lemma release_spec h held ext addr pg : wf_heap h held ext -> is_u32 addr ->
  pages h !! ALIGN_DOWN addr PAGE_SIZE = Some pg ->
  ((addr ∉ claimed_slots (ALIGN_DOWN addr PAGE_SIZE) pg) /\
   release_slot_checked h addr = Some (0, count_double_free h)) \/
  (addr ∈ claimed_slots (ALIGN_DOWN addr PAGE_SIZE) pg /\
   forall held', Permutation held (addr :: held') ->
   exists d h', release_slot_checked h addr = Some (d, h') /\
     ((d = 0 /\ wf_heap h' held' ext) \/
      (d <> 0 /\ exists h2, drop_page h' d = Some h2 /\ wf_heap h2 held' ext))).
Proof.
  intros Hwf Ha Hp. set (p := ALIGN_DOWN addr PAGE_SIZE) in *.
  pose proof (wh_pages _ _ _ Hwf p pg Hp) as Hwp. pose proof (free_count_bound p pg Hwp).
  destruct (wf_page_geometry p pg Hwp) as (Hsz & Hcls & Ht & Hw & Hw8 & _).
  assert (p <= addr < p + PAGE_SIZE) as Hin.
  { unfold p. rewrite ALIGN_DOWN_page by done. unfold PAGE_SIZE. zlia. }
  unfold release_slot_checked. fold p. run_bind Hp. run_bind Hcls.
  pose proof (slot_index p pg addr Hwp Hin) as Hidx. cbv zeta in Hidx.
  set (i := u32 (addr - p - sizeof_kheap_page - bitmap_words pg * 4) / class_size (class_idx pg)) in *.
  destruct ((total_slots pg <=? i) || _); [left; done|]. destruct Hidx as [Hi Hslot].
  pose proof (wp_len _ _ Hwp) as Hlen.
  destruct (bit_write (page_bitmap pg) i (fun w => Z.land w (not32 (bit32 (i mod 32)))) false)
    as (w & bm & Hg & Hs & Hu & Hl & Hbits); [apply Hwp|zlia| | |].
  { intros w Hw'. apply is_u32_land; [done|apply u32_range]. }
  { intros w k _ Hk. by apply clear_bit_spec. }
  assert (bitat (page_bitmap pg) i = Z.testbit w (i mod 32)) as Hbit by (unfold bitat; by rewrite Hg).
  run_bind Hg. rewrite land_bit32, <- Hbit by zlia.
  destruct (bitat (page_bitmap pg) i) eqn:Hb; cbn [negb].
  2:{ left. split; [|done]. intros (j & E & [Hbj Hj]%elem_of_set_slots)%list_elem_of_fmap.
      assert (j = i) as -> by (apply (slot_inj p pg j i Hwp Hj Hi); congruence). congruence. }
  right. split.
  { apply list_elem_of_fmap. exists i. split; [done|]. by apply elem_of_set_slots. }
  intros held' Hheld. pose proof (wf_heap_perm _ _ _ _ Hwf Hheld) as Hwf'.
  destruct (release_page p pg i bm Hwp Hi Hb Hu Hl Hbits) as [Hlt Hpage].
  rewrite Hslot in Hpage. run_bind Hs. unfold set_count.
  cbn [free_count total_slots class_idx in_partial page_bitmap].
  assert (u16 (free_count pg + 1) = free_count pg + 1) as -> by (apply Z.mod_small; lia).
  destruct (release_push h held ext p pg bm Hwf Hp) as (h2 & H2 & Hop); [lia|]. run_bind H2.
  destruct (Z.eqb_spec (free_count pg + 1) (total_slots pg)) as [Hfull|Hfull].
  - destruct (remove_detached h h2 p pg _ Hop) as (h3 & H3 & Hde); [done|done|]. run_bind H3.
    destruct (Hpage false) as [Hwp2 Hperm2].
    eapply (release_tail h h3 held' ext p pg); [done|done|exact Hde|by split|done|exact Hwp2| |done].
    intros [_ ?]. lia.
  - destruct (Hpage true) as [Hwp1 Hperm1]. destruct Hop as [O1 O2 O3 O4 O5 O6 O7 O8].
    exists 0, h2. split; [done|]. left. split; [done|].
    eapply (wf_update h h2 (addr :: held') held' ext p pg); [done|done|exact O1|done|done|done|exact Hwp1|done|].
    rewrite Hperm1. cbn. symmetry. rewrite Permutation_middle. done.
Qed.

(** ** kfree *)

Lemma large_split (m : gmap Z Z) v n : m !! v = Some n ->
  Permutation (large_pages m) (pages_of v n ++ large_pages (delete v m)).
Proof. intros Hv. unfold large_pages. by rewrite <- (map_to_list_delete m v n Hv). Qed.

Lemma kfree_held h held ext addr : wf_heap h (addr :: held) ext -> is_u32 addr ->
  exists h', kfree h addr = Some h' /\ wf_heap h' held ext.
Proof.
  intros Hwf Ha.
  assert (addr ∈ claimed (pages h)) as Hin.
  { rewrite (wh_claimed _ _ _ Hwf). by left. }
  apply elem_of_claimed in Hin as (p & pg & Hp & Hin).
  pose proof (wh_pages _ _ _ Hwf p pg Hp) as Hwp.
  destruct (claimed_in_page p pg addr Hwp Hin) as [Hrange Hnz].
  pose proof (page_of_slot p pg addr Hwp Hrange) as Hal. subst p.
  unfold kfree, readable. rewrite (proj2 (Z.eqb_neq addr 0) Hnz), Hp. cbn [negb].
  destruct (release_spec h _ ext addr pg Hwf Ha Hp) as [[Hno _]|[_ Hrel]]; [done|].
  destruct (Hrel held (reflexivity _)) as (d & h1 & H1 & Hcase). run_bind H1.
  destruct Hcase as [[-> Hwf1]|[Hd (h2 & H2 & Hwf2)]]; [by exists h1|].
  rewrite (proj2 (Z.eqb_neq d 0) Hd). by exists h2.
Qed.

(** Freeing what is not a claimed slot of a slab page. *)
Lemma kfree_other h held ext addr : wf_heap h held ext -> is_u32 addr ->
  addr ∉ claimed (pages h) -> addr = 0 \/ readable h addr = true ->
  (pages h !! ALIGN_DOWN addr PAGE_SIZE = None -> readable h (addr ⊟ sizeof_large_hdr) = true) ->
  exists h', kfree h addr = Some h' /\ wf_heap h' held ext /\
    (forall pg, addr <> 0 -> pages h !! ALIGN_DOWN addr PAGE_SIZE = Some pg -> h' = count_double_free h).
Proof.
  intros Hwf Ha Hno Hrd Hrd2. unfold kfree.
  destruct (Z.eqb_spec addr 0) as [->|Hnz]; [by exists h|].
  destruct Hrd as [?|Hrd]; [done|]. rewrite Hrd. cbn [negb].
  destruct (pages h !! ALIGN_DOWN addr PAGE_SIZE) as [pg|] eqn:Hp.
  { destruct (release_spec h held ext addr pg Hwf Ha Hp) as [[_ Hrel]|[Hin _]].
    - run_bind Hrel. eexists. split; [done|]. split; [by apply count_double_free_wf|done].
    - exfalso. apply Hno, elem_of_claimed. by eexists _, _. }
  rewrite (Hrd2 eq_refl). cbn [negb].
  destruct (larges h !! (addr ⊟ sizeof_large_hdr)) as [n|] eqn:Hl; [|by exists h].
  set (v := addr ⊟ sizeof_large_hdr) in *.
  destruct Hwf as [Hpg Hlo Hc Hla Hso].
  destruct (ps_free_ok (source h) ((map_to_list (pages h)).*1 ++ large_pages (delete v (larges h)) ++ ext)
              v n) as (src & Hf & Hso'); [|by apply Hla|].
  { eapply ps_perm; [exact Hso|]. rewrite (large_split _ v n Hl). perm_app. }
  run_bind Hf. eexists. split; [done|]. split; [|done]. constructor; cbn; try done.
  intros w m Hw. apply lookup_delete_Some in Hw as [_ Hw]. by apply Hla.
Qed.

Lemma kfree_all_spec ext l : forall h held, wf_heap h (l ++ held) ext -> Forall is_u32 l ->
  exists h', kfree_all h l = Some h' /\ wf_heap h' held ext.
Proof.
  induction l as [|a l IH]; intros h held Hwf Hu; cbn [kfree_all]; [by exists h|].
  apply Forall_cons in Hu as [Ha Hl].
  destruct (kfree_held h (l ++ held) ext a) as (h1 & H1 & Hwf1); [done..|].
  run_bind H1. by apply IH.
Qed.

(** Every claimed slot is a 32-bit address. *)
Lemma claimed_u32 h held ext a : wf_heap h held ext -> a ∈ claimed (pages h) -> is_u32 a.
Proof.
  intros Hwf (p & pg & Hp & Ha)%elem_of_claimed.
  pose proof (wh_pages _ _ _ Hwf p pg Hp) as Hwp.
  destruct (claimed_in_page p pg a Hwp Ha) as [? _]. destruct (wp_range _ _ Hwp) as (? & _ & ? & _).
  unfold is_u32, KHEAP_VBASE, KHEAP_VLIMIT, PAGE_SIZE in *. lia.
Qed.

(** ** kmalloc *)

Lemma size_to_class_spec size : 0 < size ->
  (size <= 2048 -> 0 <= size_to_class size < NUM_CLASSES /\ size <= class_size (size_to_class size)) /\
  (2048 < size -> size_to_class size = -1).
Proof.
  intros Hs. unfold size_to_class, class_size, s_class_size, NUM_CLASSES. cbn [find_class].
  repeat case_if; split; intros; try lia; split; try lia; vm_compute; done || lia.
Qed.

Lemma kmalloc_large_spec b h held ext size : wf_heap h held ext ->
  2048 < size < 0x10000000 ->
  exists a h', kmalloc_large b h size = Some (a, h') /\ wf_heap h' held ext /\
    (a = 0 \/ exists n, larges h' !! (a - sizeof_large_hdr) = Some n /\
       larges h !! (a - sizeof_large_hdr) = None /\ size + sizeof_large_hdr <= n * PAGE_SIZE).
Proof.
  intros [Hpg Hlo Hc Hla Hso] Hs. unfold kmalloc_large, sizeof_large_hdr.
  rewrite (u32_small (size + 8)), ALIGN_UP_page by lia. unfold PAGE_SIZE.
  set (n := (size + 8 + (- (size + 8)) mod 4096) / 4096).
  assert (1 <= n < 0x20000 /\ size + 8 <= n * 4096) as [Hn Hfit] by (unfold n; zlia).
  rewrite (proj2 (Z.eqb_neq n 0)) by lia.
  destruct (ps_alloc_ok b _ _ n Hso Hn) as (v & src & Ha & Hcase). run_bind Ha.
  destruct Hcase as [[-> Hso']|[Hv Hso']].
  { do 2 eexists. split; [done|]. split; [|by left]. by constructor. }
  assert (v <> 0 /\ v + 8 < 0x100000000 /\ 0 <= v) as (Hnz & Hv8 & Hv0)
    by (unfold range_in, KHEAP_VBASE, KHEAP_VLIMIT, PAGE_SIZE in Hv; lia).
  rewrite (proj2 (Z.eqb_neq v 0) Hnz).
  assert (larges h !! v = None) as Hnew.
  { destruct (larges h !! v) as [m|] eqn:Hm; [|done]. exfalso.
    pose proof (ps_nodup _ _ Hso') as Hnd. rewrite NoDup_app in Hnd. destruct Hnd as (_ & Hd & _).
    apply (Hd v); [apply elem_of_pages; exists 0; lia|]. rewrite (large_split _ v m Hm).
    rewrite !elem_of_app. right. left. left. apply elem_of_pages. exists 0.
    pose proof (Hla v m Hm) as (_ & ? & _). lia. }
  do 2 eexists. split; [done|]. rewrite u32_small by lia. split.
  - constructor; cbn; try done.
    + intros w m Hw. apply lookup_insert_Some in Hw as [[<- <-]|[_ Hw]]; [done|by apply Hla].
    + eapply ps_perm; [exact Hso'|].
      rewrite (large_split (<[v := n]> (larges h)) v n) by apply lookup_insert_eq.
      rewrite delete_insert_eq, delete_id by done. perm_app.
  - right. exists n. replace (v + 8 - 8) with v by lia. cbn. by rewrite lookup_insert_eq.
Qed.

(** Results of [kmalloc]: nothing, a slot, or a new large object. *)
Definition kmalloc_result (h h' : kheap) (held ext : list Z) (size a : Z) : Prop :=
  (a = 0 /\ wf_heap h' held ext) \/
  (a <> 0 /\ size <= 2048 /\ wf_heap h' (a :: held) ext) \/
  (a <> 0 /\ 2048 < size /\ wf_heap h' held ext /\
   exists n, larges h' !! (a - sizeof_large_hdr) = Some n /\
     larges h !! (a - sizeof_large_hdr) = None /\ size + sizeof_large_hdr <= n * PAGE_SIZE).

Lemma slot_nonzero h held ext a : wf_heap h (a :: held) ext -> a <> 0.
Proof.
  intros Hwf. assert (a ∈ claimed (pages h)) as Ha by (rewrite (wh_claimed _ _ _ Hwf); by left).
  apply elem_of_claimed in Ha as (p & pg & Hp & Ha).
  by apply (claimed_in_page p pg a (wh_pages _ _ _ Hwf p pg Hp)).
Qed.

Lemma kmalloc_spec b cpu cpu2 h held ext size : wf_heap h held ext -> 0 <= size < 0x10000000 ->
  exists a h', kmalloc b cpu cpu2 h size = Some (a, h') /\ kmalloc_result h h' held ext size a.
Proof.
  intros Hwf Hs. unfold kmalloc.
  destruct (Z.eqb_spec size 0) as [->|Hs0]; [exists 0, h; split; [done|by left]|].
  destruct (size_to_class_spec size) as [Hsmall Hbig]; [lia|].
  destruct (Z.le_gt_cases size 2048) as [Hle|Hgt].
  2:{ rewrite (Hbig Hgt). cbn [Z.leb Z.compare].
      destruct (kmalloc_large_spec b h held ext size Hwf) as (a & h' & H1 & Hwf' & Hcase); [lia|].
      exists a, h'. split; [exact H1|]. destruct (Z.eq_dec a 0) as [->|Hne]; [by left|].
      right. right. destruct Hcase as [?|?]; [done|]. split_and!; done || lia. }
  destruct (Hsmall Hle) as [Hcls _]. set (cls := size_to_class size) in *.
  rewrite (proj2 (Z.leb_le 0 cls)) by lia.
  pose proof (cache_pop_spec h held ext cpu cls Hwf) as Hpop.
  destruct (cache_pop h cpu cls) as [[a|] h1].
  { exists a, h1. split; [done|]. right. left. split; [by eapply slot_nonzero|done]. }
  subst h1. destruct (claim_batch_spec ext cls (Z.to_nat (KM_CACHE_DEPTH / 2 + 1)) h held [] Hwf)
    as (new & h2 & H2 & Hwf2 & Hnz). run_bind H2. rewrite app_nil_r.
  destruct new as [|a rest].
  { destruct (claim_fresh_spec b h2 held ext cls Hwf2 Hcls) as (a & h3 & H3 & Hcase).
    exists a, h3. split; [exact H3|]. destruct Hcase as [?|[? ?]]; [by left|right; by left]. }
  pose proof (cache_fill_spec ext (cpu2, cls) rest h2 (a :: held)) as Hfill.
  destruct (cache_fill rest h2 (cpu2, cls)) as [surplus h3].
  assert (wf_heap h3 (surplus ++ a :: held) ext) as Hwf3.
  { apply Hfill. eapply wf_heap_perm; [exact Hwf2|]. cbn. apply Permutation_middle. }
  destruct (kfree_all_spec ext surplus h3 (a :: held) Hwf3) as (h4 & H4 & Hwf4).
  { apply Forall_forall. intros x Hx. eapply claimed_u32; [exact Hwf3|].
    rewrite (wh_claimed _ _ _ Hwf3), !elem_of_app. by left; left. }
  run_bind H4. exists a, h4. split; [done|]. right. left. split; [by eapply slot_nonzero|done].
Qed.

(** ** The trim *)

Definition with_empty (h : kheap) (se : Z -> list Z) : kheap :=
  mk_kheap (pages h) (larges h) (s_partial h) se (s_double_free h) (s_km_cache h) (source h).

Lemma wf_empty_ext h held ext se se' : wf_heap (with_empty h se) held ext ->
  (forall c, se' c = se c) -> wf_heap (with_empty h se') held ext.
Proof.
  intros [Hpg [Lp Le Lf] Hc Hla Hso] Hse. constructor; cbn in *; try done.
  constructor; try done. intros c. rewrite Hse. apply Le.
Qed.

(** A page of an empty list goes back to the source. *)
Lemma drop_drained h held ext se cls p : wf_heap (with_empty h se) held ext -> p ∈ se cls ->
  exists h2, drop_page h p = Some h2 /\ s_empty h2 = s_empty h /\
    wf_heap (with_empty h2 (fun c => filter (fun x => x <> p) (se c))) held ext.
Proof.
  intros [Hpg [Lp Le Lf] Hc Hla Hso] Hin. cbn in *.
  apply (proj2 (Le cls)) in Hin as (pg & Hp & Hcls & Hdr). pose proof (Hpg p pg Hp) as Hwp.
  assert (ps_inv (source h) (pages_of p 1 ++ (map_to_list (delete p (pages h))).*1
            ++ large_pages (larges h) ++ ext)) as Hso'.
  { eapply ps_perm; [exact Hso|]. by rewrite <- (map_to_list_delete _ p pg Hp), pages_one. }
  destruct (ps_free_ok _ _ p 1 Hso' (wp_range _ _ Hwp)) as (src & Hf & Hso2).
  unfold drop_page. run_bind Hf. eexists. split; [done|]. split; [done|].
  assert (claimed_slots p pg = []) as Hem.
  { destruct Hdr as [_ Hfree]. pose proof (wp_count _ _ Hwp) as Hcnt. unfold claimed_slots.
    destruct (set_slots _ _); [done|cbn in Hcnt; lia]. }
  assert (forall c, c <> cls -> filter (fun x => x <> p) (se c) = se c) as Hother.
  { intros c Hne. apply filter_all. intros x Hx ->.
    apply (proj2 (Le c)) in Hx as (pg' & Hp' & Hc' & _). simplify_eq. }
  constructor; cbn; try done.
  - intros q qg. destruct (decide (q = p)) as [->|Hq]; [by rewrite lookup_delete_eq|].
    rewrite lookup_delete_ne by done. apply Hpg.
  - constructor.
    + apply (in_list_delete (pages h) flagged cls p (s_partial h)); try done.
      * congruence.
      * apply Lp.
      * rewrite (proj2 (Lp cls) p). unfold flagged. destruct Hdr as [Hfl _].
        intros (? & ? & _ & ?); simplify_eq; congruence.
    + apply (in_list_delete (pages h) drained cls p se); try done.
      * congruence.
      * apply NoDup_filter, Le.
      * intros q Hq. by apply filter_not_in.
      * apply filter_not_self.
    + intros q qg. destruct (decide (q = p)) as [->|Hq]; [by rewrite lookup_delete_eq|].
      rewrite lookup_delete_ne by done. apply Lf.
  - by rewrite (claimed_split _ p pg Hp), Hem in Hc.
Qed.

Lemma drop_pages_spec ext held l : forall h se, wf_heap (with_empty h se) held ext ->
  NoDup l -> (forall p, p ∈ l -> exists cls, p ∈ se cls) ->
  exists h2, drop_pages h l = Some h2 /\ s_empty h2 = s_empty h /\
    wf_heap (with_empty h2 (fun c => filter (fun x => x ∉ l) (se c))) held ext.
Proof.
  induction l as [|p l IH]; intros h se Hwf Hnd Hin; cbn [drop_pages].
  { exists h. split; [done|]. split; [done|]. eapply wf_empty_ext; [exact Hwf|].
    intros c. apply filter_all. intros x _. apply not_elem_of_nil. }
  apply NoDup_cons in Hnd as [Hnot Hnd]. destruct (Hin p) as [cls Hp]; [by left|].
  destruct (drop_drained h held ext se cls p Hwf Hp) as (h1 & H1 & E1 & Hwf1). run_bind H1.
  destruct (IH h1 _ Hwf1 Hnd) as (h2 & H2 & E2 & Hwf2).
  { intros q Hq. destruct (Hin q) as [c Hc]; [by right|]. exists c.
    apply filter_not_in; [|done]. by intros ->. }
  exists h2. split; [done|]. split; [congruence|]. eapply wf_empty_ext; [exact Hwf2|].
  intros c. cbn beta. rewrite list_filter_filter. apply list_filter_iff. intros x.
  rewrite not_elem_of_cons. tauto.
Qed.

(** The classes [lo, lo + k) lose all but the last page of their lists. *)
Lemma trim_classes_spec k : forall h cls chain,
  let '(h', chain') := trim_classes k h cls chain in
  (forall se, with_empty h' se = with_empty h se) /\
  (forall c, s_empty h' c = if (cls <=? c) && (c <? cls + Z.of_nat k)
                            then drop (Nat.pred (length (s_empty h c))) (s_empty h c)
                            else s_empty h c) /\
  exists new, chain' = new ++ chain /\
    Permutation new (concat ((fun c => take (Nat.pred (length (s_empty h c))) (s_empty h c))
                       <$> seqZ cls (Z.of_nat k))).
Proof.
  induction k as [|k IH]; intros h cls chain; cbn [trim_classes].
  { split; [done|]. split; [|by exists []]. intros c. repeat case_cmp; cbn; done || lia. }
  unfold trim_class. set (l := s_empty h cls). set (m := Nat.pred (length l)).
  specialize (IH (set_empty h cls (drop m l)) (cls + 1) (rev (take m l) ++ chain)).
  destruct (trim_classes k _ _ _) as [h' chain']. destruct IH as (E & He & new & -> & Hp).
  split; [intros se; apply E|]. split.
  - intros c. rewrite He. cbn. destruct (decide (c = cls)) as [->|Hc].
    + rewrite upd_eq. repeat case_cmp; cbn; done || lia.
    + rewrite upd_ne by done. repeat case_cmp; cbn; done || lia.
  - exists (new ++ rev (take m l)). split; [by rewrite app_assoc|].
    rewrite Nat2Z.inj_succ, seqZ_cons by lia. cbn. fold l m. rewrite Hp.
    replace (Z.pred (Z.succ (Z.of_nat k))) with (Z.of_nat k) by lia.
    rewrite Permutation_app_comm, <- Permutation_rev. apply Permutation_app_head.
    erewrite list_fmap_ext; [done|]. intros i c Hc. cbn. apply lookup_seqZ in Hc as [-> ?].
    rewrite upd_ne by lia. done.
Qed.

Lemma filter_chain (l new : list Z) m : NoDup l ->
  (forall x, x ∈ l -> x ∈ new <-> x ∈ take m l) -> filter (fun x => x ∉ new) l = drop m l.
Proof.
  intros Hnd Hnew. pose proof (take_drop m l) as El. rewrite <- El in Hnd.
  apply NoDup_app in Hnd as (_ & Hdis & _). rewrite <- El at 1. rewrite filter_app.
  rewrite (filter_all _ (drop m l)).
  - replace (filter (fun x => x ∉ new) (take m l)) with (@nil Z); [done|]. symmetry.
    destruct (filter _ (take m l)) as [|x r] eqn:E; [done|]. exfalso.
    assert (x ∈ filter (fun x => x ∉ new) (take m l)) as Hx by (rewrite E; by left).
    apply list_elem_of_filter in Hx as [Hno Hx]. apply Hno, Hnew; [|done].
    rewrite <- El. apply elem_of_app. by left.
  - intros x Hx Hn. apply (Hdis x); [|done]. apply Hnew; [|done].
    rewrite <- El. apply elem_of_app. by right.
Qed.

(** The pages a trim detaches, class by class. *)
Definition trimmed (h : kheap) (cls : Z) : list Z :=
  take (Nat.pred (length (s_empty h cls))) (s_empty h cls).

Lemma trimmed_in h cls p : p ∈ trimmed h cls -> p ∈ s_empty h cls.
Proof.
  unfold trimmed. intros Hp. rewrite <- (take_drop (Nat.pred (length (s_empty h cls))) (s_empty h cls)).
  apply elem_of_app. by left.
Qed.

Lemma elem_of_trimmed h k p :
  p ∈ concat (trimmed h <$> seqZ 0 k) <-> exists c, 0 <= c < k /\ p ∈ trimmed h c.
Proof.
  rewrite list_elem_of_In, in_concat. setoid_rewrite <- list_elem_of_In.
  setoid_rewrite list_elem_of_fmap. setoid_rewrite elem_of_seqZ. split.
  - intros (x & (c & -> & Hc) & Hpx). exists c. split; [lia|done].
  - intros (c & Hc & Hpx). eexists. split; [|exact Hpx]. exists c. split; [done|lia].
Qed.

Lemma empty_class_unique h held ext c c' p : wf_heap h held ext ->
  p ∈ s_empty h c -> p ∈ s_empty h c' -> c = c' /\ 0 <= c < NUM_CLASSES.
Proof.
  intros Hwf Hc Hc'. destruct (wh_lists _ _ _ Hwf) as [_ Le _].
  apply (proj2 (Le c)) in Hc as (pg & Hp & <- & _).
  apply (proj2 (Le c')) in Hc' as (? & ? & <- & _). simplify_eq. split; [done|].
  apply (wp_class _ _ (wh_pages _ _ _ Hwf p pg Hp)).
Qed.

Lemma NoDup_trimmed h held ext k : wf_heap h held ext -> NoDup (concat (trimmed h <$> seqZ 0 k)).
Proof.
  intros Hwf. pose proof (NoDup_seqZ 0 k) as Hn. revert Hn. generalize (seqZ 0 k).
  induction l as [|c l IH]; intros Hn; [constructor|]. apply NoDup_cons in Hn as [Hc Hn].
  rewrite fmap_cons. cbn [concat]. apply NoDup_app. split_and!; [| |by apply IH].
  - eapply sublist_NoDup; [apply (lo_empty _ _ _ (wh_lists _ _ _ Hwf) c)|]. apply sublist_take.
  - intros p Hp Hp'. rewrite list_elem_of_In, in_concat in Hp'. destruct Hp' as (x & Hx & Hpx).
    rewrite <- !list_elem_of_In in *. apply list_elem_of_fmap in Hx as (c' & -> & Hc').
    destruct (empty_class_unique h held ext c c' p Hwf) as [-> _]; [by apply trimmed_in..|done].
Qed.

Lemma empty_trim_spec h held ext : wf_heap h held ext ->
  exists n h', kheap_empty_trim h = Some (n, h') /\ wf_heap h' held ext /\
    (forall cls, 0 <= cls < NUM_CLASSES -> s_empty_n h' cls <= 1).
Proof.
  intros Hwf. unfold kheap_empty_trim.
  pose proof (trim_classes_spec (Z.to_nat NUM_CLASSES) h 0 []) as Htr.
  destruct (trim_classes _ h 0 []) as [h1 chain]. destruct Htr as (E & He & new & -> & Hp).
  rewrite app_nil_r. change (Z.of_nat (Z.to_nat NUM_CLASSES)) with NUM_CLASSES in *.
  fold (trimmed h) in Hp.
  assert (forall p, p ∈ new <-> exists c, 0 <= c < NUM_CLASSES /\ p ∈ trimmed h c) as Hnew.
  { intros p. rewrite Hp. apply elem_of_trimmed. }
  destruct (drop_pages_spec ext held new h1 (s_empty h)) as (h2 & H2 & E2 & Hwf2).
  { rewrite E. by destruct h. }
  { rewrite Hp. by eapply NoDup_trimmed. }
  { intros p Hin. apply Hnew in Hin as (c & _ & Hin). exists c. by apply trimmed_in. }
  run_bind H2. do 2 eexists. split; [done|]. split.
  - eapply (wf_empty_ext h2 held ext _ (s_empty h2)) in Hwf2; [by destruct h2|].
    intros c. cbn beta. rewrite E2, He.
    assert (NoDup (s_empty h c)) as Hndc by apply (lo_empty _ _ _ (wh_lists _ _ _ Hwf) c).
    assert (forall x, x ∈ s_empty h c -> x ∈ new <-> x ∈ trimmed h c) as Hx.
    { intros x Hx. rewrite Hnew. split.
      - intros (c' & Hc' & Hx').
        destruct (empty_class_unique h held ext c c' x Hwf Hx (trimmed_in h c' x Hx')) as [-> _].
        done.
      - intros Hx'. exists c. split; [|done].
        exact (proj2 (empty_class_unique h held ext c c x Hwf Hx Hx)). }
    rewrite (filter_chain _ _ _ Hndc Hx).
    destruct (s_empty h c) as [|x l] eqn:Hl; [by destruct (_ && _)|].
    destruct (empty_class_unique h held ext c c x Hwf) as [_ Hc]; [rewrite Hl; by left..|].
    by rewrite (proj2 (Z.leb_le 0 c)), (proj2 (Z.ltb_lt c _)) by lia.
  - intros c Hc. unfold s_empty_n. rewrite E2, He.
    rewrite (proj2 (Z.leb_le 0 c)), (proj2 (Z.ltb_lt c _)) by lia.
    cbn [andb]. rewrite length_drop. lia.
Qed.

(** ** Histories *)

(** The sections of kmalloc, kfree and the trim, interleaved by any number of threads
    and CPUs: [held] are the slots in the hands of clients or of unfinished calls. *)
Inductive heap_step : kheap * list Z -> kheap * list Z -> Prop :=
  | hs_pop h held cpu cls a h' : cache_pop h cpu cls = (Some a, h') ->
      heap_step (h, held) (h', a :: held)
  | hs_batch h held k cls batch h' : claim_batch k h cls [] = Some (batch, h') ->
      heap_step (h, held) (h', batch ++ held)
  | hs_fresh h held b cls a h' : 0 <= cls < NUM_CLASSES -> claim_fresh b h cls = Some (a, h') ->
      heap_step (h, held) (h', if a =? 0 then held else a :: held)
  | hs_fill h held held' batch k rem h' : Permutation held (batch ++ held') ->
      cache_fill batch h k = (rem, h') -> heap_step (h, held) (h', rem ++ held')
  | hs_free h held held' a h' : Permutation held (a :: held') -> kfree h a = Some h' ->
      heap_step (h, held) (h', held')
  | hs_bad_free h held a pg h' : is_u32 a -> a ∉ claimed (pages h) -> a <> 0 ->
      pages h !! ALIGN_DOWN a PAGE_SIZE = Some pg -> kfree h a = Some h' ->
      heap_step (h, held) (h', held)
  | hs_large h held b size a h' : 2048 < size < 0x10000000 ->
      kmalloc_large b h size = Some (a, h') -> heap_step (h, held) (h', held)
  | hs_trim h held n h' : kheap_empty_trim h = Some (n, h') -> heap_step (h, held) (h', held).

Lemma heap_step_inv ext p p' : wf_heap p.1 p.2 ext -> heap_step p p' -> wf_heap p'.1 p'.2 ext.
Proof.
  intros Hwf Hst. destruct Hst as [h held cpu cls a h' E|h held k cls batch h' E|h held b cls a h' Hc E
    |h held held' batch k rem h' Hp E|h held held' a h' Hp E|h held a pg h' Hu Hno Hnz Hpg E
    |h held b size a h' Hs E|h held n h' E]; cbn [fst snd] in *.
  - pose proof (cache_pop_spec h held ext cpu cls Hwf) as Hs. by rewrite E in Hs.
  - destruct (claim_batch_spec ext cls k h held [] Hwf) as (new & h2 & E2 & Hwf2 & _).
    rewrite E2, app_nil_r in E. by injection E as <- <-.
  - destruct (claim_fresh_spec b h held ext cls Hwf Hc) as (a2 & h2 & E2 & Hcase).
    rewrite E2 in E. injection E as <- <-. destruct Hcase as [[-> ?]|[Hne ?]]; [done|].
    by rewrite (proj2 (Z.eqb_neq a2 0) Hne).
  - pose proof (cache_fill_spec ext k batch h held' (wf_heap_perm _ _ _ _ Hwf Hp)) as Hs.
    by rewrite E in Hs.
  - pose proof (wf_heap_perm _ _ _ _ Hwf Hp) as Hwf1.
    destruct (kfree_held h held' ext a Hwf1) as (h2 & E2 & Hwf2); [|by simplify_eq].
    eapply claimed_u32; [exact Hwf1|]. rewrite (wh_claimed _ _ _ Hwf1). by left.
  - destruct (kfree_other h held ext a Hwf Hu Hno) as (h2 & E2 & Hwf2 & _); [| |by simplify_eq].
    + right. unfold readable. by rewrite Hpg.
    + congruence.
  - destruct (kmalloc_large_spec b h held ext size Hwf Hs) as (a2 & h2 & E2 & Hwf2 & _).
    by simplify_eq.
  - destruct (empty_trim_spec h held ext Hwf) as (n2 & h2 & E2 & Hwf2 & _). by simplify_eq.
Qed.

Lemma kheap_init_wf p ext : ps_inv p ext -> wf_heap (kheap_init p) [] ext.
Proof.
  intros Hp. constructor; cbn; try done.
  constructor; try done; intros cls; (split; [constructor|]); intros q;
    (split; [by intros ?%not_elem_of_nil|by intros (? & ? & _)]).
Qed.

(** No path of kfree touches the per-CPU caches. *)
Lemma release_cache h a d h' : release_slot_checked h a = Some (d, h') ->
  s_km_cache h' = s_km_cache h.
Proof.
  unfold release_slot_checked, partial_push, partial_remove, mbind, option_bind. intros Hr.
  repeat case_match; simplify_eq; done.
Qed.

Lemma kfree_cache h a h' : kfree h a = Some h' -> s_km_cache h' = s_km_cache h.
Proof.
  unfold kfree, drop_page, mbind, option_bind. intros H'.
  repeat case_match; simplify_eq; try done;
    repeat match goal with E : release_slot_checked _ _ = _ |- _ => apply release_cache in E end;
    cbn; congruence.
Qed.

(** ** The properties *)


(** C27: kfree.  Freeing a held slot takes exactly that slot out of the heap; as long as
    its page is not returned and the slot not claimed again, freeing it a second time
    changes nothing but the double-free counter. *)
Theorem kfree_then_double_free h held ext a :
  wf_heap h (a :: held) ext ->
  exists h1, kfree h a = Some h1 /\ wf_heap h1 held ext /\
    ((forall b, b ∈ held -> b ∈ claimed (pages h1)) /\ (a ∉ claimed (pages h1))) /\
    forall pg, pages h1 !! ALIGN_DOWN a PAGE_SIZE = Some pg ->
      kfree h1 a = Some (count_double_free h1).
Proof.
  intros Hwf.
  assert (is_u32 a) as Hu.
  { eapply claimed_u32; [exact Hwf|]. rewrite (wh_claimed _ _ _ Hwf). by left. }
  destruct (kfree_held h held ext a Hwf Hu) as (h1 & E & Hwf1). exists h1.
  split; [done|]. split; [done|].
  pose proof (kfree_cache _ _ _ E) as Hc.
  assert (a ∉ claimed (pages h1)) as Hno.
  { rewrite (wh_claimed _ _ _ Hwf1), Hc. apply wf_heap_exclusive in Hwf.
    cbn [app] in Hwf. by apply NoDup_cons in Hwf as [? _]. }
  assert (a <> 0) as Hnz by by eapply slot_nonzero.
  split.
  - split; [|done]. intros b Hb. rewrite (wh_claimed _ _ _ Hwf1). apply elem_of_app. by left.
  - intros pg Hpg. destruct (kfree_other h1 held ext a Hwf1 Hu Hno) as (h2 & E2 & _ & Hsame).
    + right. unfold readable. by rewrite Hpg.
    + congruence.
    + by rewrite <- (Hsame pg Hnz Hpg).
Qed.

End Heap.
Arguments kheap : clear implicits.

Definition heap0 : kheap kva := kheap_init kva_init.

Lemma kva_init_inv : ps_inv kva_init [].
Proof. exists []. apply kva_init_wf. Qed.

(** Two allocations of 24 bytes, and a free of the first. *)
Definition after (o : option (Z * kheap kva)) : kheap kva := default heap0 (snd <$> o).


Lemma kfree_then_double_free_witness :
  exists h h1 pg, kfree h 0xD0000024 = Some h1 /\ pages h1 !! 0xD0000000 = Some pg /\
    kfree h1 0xD0000024 = Some (count_double_free h1).
Proof.
  pose (h := after (claim_fresh true heap0 1)).
  assert (wf_heap h [0xD0000024] []) as Hwf.
  { apply (heap_step_inv [] (heap0, []) (h, [0xD0000024])).
    - apply kheap_init_wf, kva_init_inv.
    - apply (hs_fresh heap0 [] true 1 0xD0000024 h); [by vm_compute|vm_compute; reflexivity]. }
  destruct (kfree_then_double_free h [] [] 0xD0000024 Hwf) as (h1 & E & _ & _ & Hd).
  exists h, h1. destruct (pages h1 !! 0xD0000000) as [pg|] eqn:Hp.
  - exists pg. split; [exact E|]. split; [reflexivity|]. exact (Hd pg Hp).
  - exfalso. assert ((h2 ← kfree h 0xD0000024; pages h2 !! 0xD0000000) <> None) as Hx
      by (vm_compute; discriminate).
    rewrite (bind_eq _ _ _ E) in Hx. exact (Hx Hp).
Defined.

(** ** What the double-free check does not see

    [a] is freed, claimed into the cache of CPU 1 by the allocation of another object,
    and freed a second time: the bit is set, so the second kfree clears it unnoticed;
    the next refill puts the same slot in the cache of CPU 2 as well. *)
Definition double_free_history : option (kheap kva) :=
  '(a, h1) ← kmalloc true 0 0 heap0 16;
  '(_, h2) ← kmalloc true 0 0 h1 16;
  h3 ← kfree h2 a;
  '(_, h4) ← kmalloc true 1 1 h3 16;
  h5 ← kfree h4 a;
  '(_, h6) ← kmalloc true 2 2 h5 16;
  Some h6.

Remark double_free_into_two_caches :
  match double_free_history with
  | Some h => s_double_free h = 0 /\ 0xD0000034 ∈ cache_of h (1, 0) /\ 0xD0000034 ∈ cache_of h (2, 0)
  | None => False
  end.
Proof.
  unfold double_free_history. vm_compute. split; [done|].
  split; repeat (first [left|right]; try reflexivity).
Qed.

(** A request of 2^32 - 4 bytes: the size with the header wraps to 4, and a one-page
    object is returned. *)
Remark kmalloc_size_wraps :
  (fst <$> kmalloc true 0 0 heap0 0xFFFFFFFC) = Some 0xD0000008 /\
  larges (after (kmalloc true 0 0 heap0 0xFFFFFFFC)) !! 0xD0000000 = Some 1.
Proof. by vm_compute. Qed.
