(* ===== verification/Timer.v ===== *)
(** * Timers (kernel/time/timer.c)

    The binary min-heap of timer pointers with its back indexes, its growth from the
    static boot array and its trim, arming, cancelling, and the drain at a tick.  A
    timer is an entry of [timers] under its address; the heap is the array of
    addresses, of which the first [s_count] cells are live.  Each section under
    [s_lock] is one function; storage got from kmalloc comes in as an argument (its
    contents, or [None] for NULL), and so do the clock and the callbacks.  Reading
    outside the array, or a timer that is not there, is [None]. *)

From S2P Require Import Prelude.

Record timer_t := mk_timer {
  deadline_ns : Z;
  period_ns : Z;
  fn : Z;
  arg : Z;
  heap_idx : Z;
  gen : Z;
  fire_pending : Z
}.

Definition TIMER_HEAP_BOOT_CAP : Z := 1024.
Definition TIMER_HEAP_MAX_CAP : Z := 65536.

(** [s_dyn] is the array from kmalloc when [s_heap] is not [s_boot_heap]. *)
Record wheel := mk_wheel {
  s_boot_heap : list Z;
  s_dyn : option (list Z);
  s_cap : Z;
  s_count : Z;
  timers : gmap Z timer_t
}.

Definition s_heap (s : wheel) : list Z := default (s_boot_heap s) (s_dyn s).

Definition with_heap (s : wheel) (h : list Z) : wheel :=
  match s_dyn s with
  | None => mk_wheel h None (s_cap s) (s_count s) (timers s)
  | Some _ => mk_wheel (s_boot_heap s) (Some h) (s_cap s) (s_count s) (timers s)
  end.
Definition with_count (s : wheel) (n : Z) : wheel :=
  mk_wheel (s_boot_heap s) (s_dyn s) (s_cap s) n (timers s).
Definition with_timer (s : wheel) (t : Z) (r : timer_t) : wheel :=
  mk_wheel (s_boot_heap s) (s_dyn s) (s_cap s) (s_count s) (<[t := r]> (timers s)).

Definition set_idx (r : timer_t) (i : Z) : timer_t :=
  mk_timer (deadline_ns r) (period_ns r) (fn r) (arg r) i (gen r) (fire_pending r).
Definition set_deadline (r : timer_t) (d p : Z) : timer_t :=
  mk_timer d p (fn r) (arg r) (heap_idx r) (gen r) (fire_pending r).
Definition bump_gen (r : timer_t) : timer_t :=
  mk_timer (deadline_ns r) (period_ns r) (fn r) (arg r) (heap_idx r) (gen r ⊞ 1) (fire_pending r).
Definition set_pending (r : timer_t) (p : Z) : timer_t :=
  mk_timer (deadline_ns r) (period_ns r) (fn r) (arg r) (heap_idx r) (gen r) p.

(** ** Heap primitives *)

Definition heap_set (s : wheel) (i t : Z) : option wheel :=
  h ← seti (s_heap s) i t;
  r ← timers s !! t;
  Some (with_timer (with_heap s h) t (set_idx r (s32 i))).

Definition heap_swap (s : wheel) (i j : Z) : option wheel :=
  a ← geti (s_heap s) i;
  b ← geti (s_heap s) j;
  s1 ← heap_set s i b;
  heap_set s1 j a.

(** [s_heap[i]->deadline_ns] *)
Definition deadline_at (s : wheel) (i : Z) : option Z :=
  t ← geti (s_heap s) i; r ← timers s !! t; Some (deadline_ns r).

Fixpoint heap_sift_up (fuel : nat) (s : wheel) (i : Z) : option wheel :=
  match fuel with
  | O => None
  | S f =>
      if 0 <? i then
        let parent := (i ⊟ 1) / 2 in
        dp ← deadline_at s parent;
        di ← deadline_at s i;
        if dp <=? di then Some s
        else s1 ← heap_swap s i parent; heap_sift_up f s1 parent
      else Some s
  end.

(** One of the two child tests. *)
Definition smaller_child (s : wheel) (c smallest : Z) : option Z :=
  if c <? s_count s then
    dc ← deadline_at s c;
    ds ← deadline_at s smallest;
    Some (if dc <? ds then c else smallest)
  else Some smallest.

Fixpoint heap_sift_down (fuel : nat) (s : wheel) (i : Z) : option wheel :=
  match fuel with
  | O => None
  | S f =>
      let l := (2 ⊠ i) ⊞ 1 in
      let r := (2 ⊠ i) ⊞ 2 in
      sm ← smaller_child s l i;
      smallest ← smaller_child s r sm;
      if smallest =? i then Some s
      else s1 ← heap_swap s i smallest; heap_sift_down f s1 smallest
  end.

(** Loop bound of the sifts: an index below the count strictly moves to a parent, or
    strictly grows. *)
Definition sift_fuel (s : wheel) : nat := S (Z.to_nat (s_count s)).

Definition heap_insert (s : wheel) (t : Z) : option (bool * wheel) :=
  if s_cap s <=? s_count s then Some (false, s)
  else
    let i := s_count s in
    s1 ← heap_set (with_count s (i ⊞ 1)) i t;
    s2 ← heap_sift_up (sift_fuel s1) s1 i;
    Some (true, s2).

Definition heap_remove_at (s : wheel) (i : Z) : option wheel :=
  if s_count s <=? i then Some s
  else
    t ← geti (s_heap s) i;
    r ← timers s !! t;
    let s1 := with_count (with_timer s t (set_idx r (-1))) (s_count s ⊟ 1) in
    if i =? s_count s1 then Some s1
    else
      moved ← geti (s_heap s1) (s_count s1);
      s2 ← heap_set s1 i moved;
      m ← timers s2 !! moved;
      up ← (if 0 <? i then dp ← deadline_at s2 ((i ⊟ 1) / 2); Some (deadline_ns m <? dp)
            else Some false);
      if up : bool then heap_sift_up (sift_fuel s2) s2 i
      else heap_sift_down (sift_fuel s2) s2 i.

(** [heap_idx] is an [int32_t]: once non-negative its cast is itself. *)
Definition detach_if_armed (s : wheel) (t : Z) : option wheel :=
  r ← timers s !! t;
  s1 ← (if (0 <=? heap_idx r) && (heap_idx r <? s_count s) then
          x ← geti (s_heap s) (heap_idx r);
          if x =? t then heap_remove_at s (heap_idx r) else Some s
        else Some s);
  r1 ← timers s1 !! t;
  Some (with_timer s1 t (set_idx r1 (-1))).

Definition arm_locked (s : wheel) (t deadline period : Z) : option (bool * wheel) :=
  s1 ← detach_if_armed s t;
  r ← timers s1 !! t;
  heap_insert (with_timer s1 t (set_deadline (bump_gen r) deadline period)) t.

(** ** Growth and trim of the storage *)

(** The second section of [heap_try_grow], [fresh] being the new array. *)
Definition adopt_grown (s : wheel) (have : Z) (fresh : list Z) : wheel :=
  if s_cap s =? have then
    let n := Z.to_nat (s_count s) in
    mk_wheel (s_boot_heap s) (Some (take n (s_heap s) ++ drop n fresh)) (have ⊠ 2)
      (s_count s) (timers s)
  else s.

(** With no section of another CPU in between. *)
Definition heap_try_grow (s : wheel) (alloc : option (list Z)) : bool * wheel :=
  let have := s_cap s in
  if TIMER_HEAP_MAX_CAP <? have ⊠ 2 then (false, s)
  else match alloc with
       | None => (false, s)
       | Some fresh => (true, adopt_grown s have fresh)
       end.

Definition trim_target (cap : Z) : Z :=
  if cap / 2 <? TIMER_HEAP_BOOT_CAP then TIMER_HEAP_BOOT_CAP else cap / 2.

(** The second section of [timer_heap_trim]; [fresh] is [None] for the boot array. *)
Definition adopt_trimmed (s : wheel) (cap : Z) (fresh : option (list Z)) : Z * wheel :=
  let want := trim_target cap in
  if (s_cap s =? cap) && (s_count s <=? want / 2) then
    let n := Z.to_nat (s_count s) in
    (((cap ⊟ want) ⊠ 4),
     match fresh with
     | None => mk_wheel (take n (s_heap s) ++ drop n (s_boot_heap s)) None want (s_count s) (timers s)
     | Some f => mk_wheel (s_boot_heap s) (Some (take n (s_heap s) ++ drop n f)) want
                   (s_count s) (timers s)
     end)
  else (0, s).

Definition timer_heap_trim (s : wheel) (alloc : option (list Z)) : Z * wheel :=
  let cap := s_cap s in
  if (cap <=? TIMER_HEAP_BOOT_CAP) || (cap / 4 <? s_count s) then (0, s)
  else if trim_target cap =? TIMER_HEAP_BOOT_CAP then adopt_trimmed s cap None
  else match alloc with
       | None => (0, s)
       | Some f => adopt_trimmed s cap (Some f)
       end.

(** ** Arming, cancelling, and the drain *)

(** [allocs] are the arrays kmalloc returns, in order; the first boolean of the result
    is the return value, the second whether [time_event_refresh] is called. *)
Fixpoint arm_with_growth (allocs : list (option (list Z))) (s : wheel) (t deadline period : Z)
  : option (bool * bool * wheel) :=
  '(ok, s1) ← arm_locked s t deadline period;
  if ok : bool then
    x ← geti (s_heap s1) 0; Some (true, x =? t, s1)
  else
    match allocs with
    | [] => Some (false, false, s1)
    | a :: rest =>
        let '(grown, s2) := heap_try_grow s1 a in
        if grown then arm_with_growth rest s2 t deadline period else Some (false, false, s2)
    end.

Definition timer_subsystem_init (s : wheel) : wheel := with_count s 0.

Definition timer_init (f a : Z) : timer_t := mk_timer 0 0 f a (-1) 0 0.

Definition timer_arm_at allocs s t deadline := arm_with_growth allocs s t deadline 0.
Definition timer_arm_in allocs (now : Z) s t delay := timer_arm_at allocs s t (u64 (now + delay)).
Definition timer_arm_periodic allocs (now : Z) s t period :=
  arm_with_growth allocs s t (u64 (now + period)) period.

Definition timer_cancel (s : wheel) (t : Z) : option wheel :=
  s1 ← detach_if_armed s t;
  r ← timers s1 !! t;
  Some (with_timer s1 t (set_deadline (bump_gen r) 0 0)).

Definition UINT64_MAX : Z := 0xFFFFFFFFFFFFFFFF.

Definition timer_next_deadline_ns (s : wheel) : option Z :=
  if 0 <? s_count s then deadline_at s 0 else Some UINT64_MAX.

(** The next deadline of a timer that fires at [now]. *)
Definition rearm (r : timer_t) (now : Z) : timer_t :=
  let d := u64 (deadline_ns r + period_ns r) in
  set_deadline r (if d <=? now then u64 (now + period_ns r) else d) (period_ns r).

(** One pop of the drain under the lock: [None] inside when nothing is due, else the
    timer and the generation captured. *)
Definition drain_pop (s : wheel) (now : Z) : option (option (Z * Z) * wheel) :=
  if s_count s <=? 0 then Some (None, s)
  else
    d0 ← deadline_at s 0;
    if now <? d0 then Some (None, s)
    else
      t ← geti (s_heap s) 0;
      r ← timers s !! t;
      let fire_gen := gen r in
      s1 ← heap_remove_at s 0;
      r1 ← timers s1 !! t;
      s2 ← (if negb (period_ns r1 =? 0)
            then '(_, s') ← heap_insert (with_timer s1 t (rearm r1 now)) t; Some s'
            else Some (with_timer s1 t (set_deadline r1 0 (period_ns r1))));
      r2 ← timers s2 !! t;
      Some (Some (t, fire_gen), with_timer s2 t (set_pending r2 1)).

(** The callback section, outside the lock: the stale check, the callback [cb] (which
    may arm and cancel timers), the end of the flight. *)
Definition drain_fire (cb : Z -> wheel -> option wheel) (s : wheel) (t fire_gen : Z)
  : option (bool * wheel) :=
  r ← timers s !! t;
  s1 ← (if gen r =? fire_gen then cb t s else Some s);
  r1 ← timers s1 !! t;
  Some (gen r =? fire_gen, with_timer s1 t (set_pending r1 0)).

Fixpoint timer_on_tick (fuel : nat) (cb : Z -> wheel -> option wheel) (s : wheel) (now : Z)
  : option (list Z * wheel) :=
  match fuel with
  | O => None
  | S f =>
      '(p, s1) ← drain_pop s now;
      match p with
      | None => Some ([], s1)
      | Some (t, g) =>
          '(fired, s2) ← drain_fire cb s1 t g;
          '(l, s3) ← timer_on_tick f cb s2 now;
          Some ((if fired : bool then [t] else []) ++ l, s3)
      end
  end.

(** ** The shape of the heap: live cells hold timers that point back at them *)

Definition armed (s : wheel) : list Z := take (Z.to_nat (s_count s)) (s_heap s).

Definition key (s : wheel) (i : Z) : Z := default 0 (deadline_at s i).

Definition parent (i : Z) : Z := (i - 1) / 2.

Record shape (s : wheel) : Prop := {
  sh_len : Z.of_nat (length (s_heap s)) = s_cap s;
  sh_boot : Z.of_nat (length (s_boot_heap s)) = TIMER_HEAP_BOOT_CAP;
  sh_cap : s_cap s ∈ [1024; 2048; 4096; 8192; 16384; 32768; 65536];
  sh_count : 0 <= s_count s <= s_cap s;
  sh_cells : forall i, 0 <= i < s_count s ->
    exists t r, geti (s_heap s) i = Some t /\ timers s !! t = Some r /\ heap_idx r = i
}.

Definition ordered (s : wheel) : Prop :=
  forall i, 0 < i < s_count s -> key s (parent i) <= key s i.

(** A timer, its back index apart. *)
Definition core (o : option timer_t) : option timer_t := option_map (fun r => set_idx r 0) o.

(** [s'] is [s] with the live cells rearranged. *)
Record moved (s s' : wheel) : Prop := {
  mv_cap : s_cap s' = s_cap s;
  mv_count : s_count s' = s_count s;
  mv_dyn : is_Some (s_dyn s') <-> is_Some (s_dyn s);
  mv_armed : forall t, t ∈ armed s' <-> t ∈ armed s;
  mv_timers : forall t, core (timers s' !! t) = core (timers s !! t);
  mv_off : forall t, t ∉ armed s -> timers s' !! t = timers s !! t
}.

Lemma moved_refl s : moved s s.
Proof. by constructor. Qed.

Lemma moved_trans s s1 s2 : moved s s1 -> moved s1 s2 -> moved s s2.
Proof.
  intros [C N D A T O] [C' N' D' A' T' O']. constructor; try congruence.
  - by rewrite D', D.
  - intros t. by rewrite A', A.
  - intros t Ht. rewrite O' by (by rewrite A). by apply O.
Qed.

Lemma cap_bounds s : shape s -> 1024 <= s_cap s <= 65536.
Proof.
  intros Hs. pose proof (sh_cap _ Hs) as Hc. repeat (apply elem_of_cons in Hc as [->|Hc]; [lia|]).
  by apply not_elem_of_nil in Hc.
Qed.

Lemma geti_take {A} (l : list A) n i : 0 <= n ->
  geti (take (Z.to_nat n) l) i = if i <? n then geti l i else None.
Proof.
  intros Hn. unfold geti. destruct (Z.ltb_spec i 0); [by case_if|].
  destruct (Z.ltb_spec i n).
  - apply lookup_take_lt. lia.
  - apply lookup_take_ge. lia.
Qed.

Lemma elem_of_geti {A} (l : list A) x : x ∈ l <-> exists i, geti l i = Some x.
Proof.
  rewrite list_elem_of_lookup. split.
  - intros (i & Hi). exists (Z.of_nat i). unfold geti. rewrite Nat2Z.id.
    by destruct (Z.ltb_spec (Z.of_nat i) 0); [lia|].
  - intros (i & Hi). pose proof (geti_Some_range _ _ _ Hi). unfold geti in Hi.
    destruct (Z.ltb_spec i 0); [lia|]. by eexists.
Qed.

Lemma elem_of_armed s t : shape s ->
  t ∈ armed s <-> exists i, 0 <= i < s_count s /\ geti (s_heap s) i = Some t.
Proof.
  intros Hs. pose proof (sh_count _ Hs). unfold armed. rewrite elem_of_geti.
  setoid_rewrite geti_take; [|lia]. split; intros (i & Hi); exists i.
  - destruct (Z.ltb_spec i (s_count s)); [|done].
    pose proof (geti_Some_range _ _ _ Hi). split; [lia|done].
  - destruct Hi as [Hi Ht]. by rewrite (proj2 (Z.ltb_lt _ _)) by lia.
Qed.

Lemma cell_of s i t : shape s -> 0 <= i < s_count s -> geti (s_heap s) i = Some t ->
  exists r, timers s !! t = Some r /\ heap_idx r = i.
Proof.
  intros Hs Hi Ht. destruct (sh_cells _ Hs i Hi) as (t' & r & Ht' & Hr & Hx). simplify_eq. eauto.
Qed.

Lemma armed_index s t : shape s -> t ∈ armed s ->
  exists r, timers s !! t = Some r /\ 0 <= heap_idx r < s_count s /\
    geti (s_heap s) (heap_idx r) = Some t.
Proof.
  intros Hs (i & Hi & Ht)%elem_of_armed; [|done].
  destruct (cell_of s i t Hs Hi Ht) as (r & Hr & <-). eauto.
Qed.

Lemma armed_NoDup s : shape s -> NoDup (armed s).
Proof.
  intros Hs. pose proof (sh_count _ Hs) as Hc. pose proof (sh_len _ Hs) as Hl.
  apply NoDup_alt. intros i j t Hi Hj. unfold armed in *.
  pose proof (lookup_lt_Some _ _ _ Hi) as Hi1. pose proof (lookup_lt_Some _ _ _ Hj) as Hj1.
  rewrite length_take in Hi1, Hj1. rewrite lookup_take_lt in Hi, Hj by lia.
  assert (forall k, (k < Z.to_nat (s_count s))%nat -> s_heap s !! k = Some t ->
    exists r, timers s !! t = Some r /\ heap_idx r = Z.of_nat k) as Hk.
  { intros k Hk E. apply (cell_of s (Z.of_nat k) t Hs); [lia|]. unfold geti.
    rewrite Nat2Z.id. by destruct (Z.ltb_spec (Z.of_nat k) 0); [lia|]. }
  destruct (Hk i) as (r & Hr & Hx); [lia|done|]. destruct (Hk j) as (r' & Hr' & Hy); [lia|done|].
  simplify_eq. lia.
Qed.

Lemma deadline_key s i : shape s -> 0 <= i < s_count s -> deadline_at s i = Some (key s i).
Proof.
  intros Hs Hi. destruct (sh_cells _ Hs i Hi) as (t & r & Ht & Hr & _).
  unfold key, deadline_at. by rewrite Ht; cbn; rewrite Hr.
Qed.

Lemma key_cell s i t r : geti (s_heap s) i = Some t -> timers s !! t = Some r ->
  key s i = deadline_ns r.
Proof. intros Ht Hr. unfold key, deadline_at. by rewrite Ht; cbn; rewrite Hr. Qed.

Lemma s_heap_with s h : s_heap (with_heap s h) = h.
Proof. unfold with_heap, s_heap. by destruct (s_dyn s). Qed.

Lemma with_heap_same s h :
  s_cap (with_heap s h) = s_cap s /\ s_count (with_heap s h) = s_count s /\
  timers (with_heap s h) = timers s /\ (is_Some (s_dyn (with_heap s h)) <-> is_Some (s_dyn s)) /\
  (length h = length (s_heap s) -> length (s_boot_heap (with_heap s h)) = length (s_boot_heap s)).
Proof.
  unfold with_heap, s_heap. destruct (s_dyn s) eqn:E; cbn; rewrite ?E; split_and!; try done.
Qed.

Lemma heap_set_eq s i t r : 0 <= i < Z.of_nat (length (s_heap s)) -> timers s !! t = Some r ->
  heap_set s i t = Some (with_timer (with_heap s (<[Z.to_nat i := t]> (s_heap s))) t (set_idx r (s32 i))).
Proof.
  intros Hi Hr. unfold heap_set. run_bind (seti_in_range (s_heap s) i t Hi). by run_bind Hr.
Qed.

Lemma geti_insert {A} (l : list A) i j (x : A) : 0 <= i < Z.of_nat (length l) ->
  geti (<[Z.to_nat i := x]> l) j = if j =? i then Some x else geti l j.
Proof.
  intros Hi. pose proof (seti_in_range l i x Hi) as E. destruct (Z.eqb_spec j i) as [->|Hj].
  - by apply (geti_seti_eq _ _ _ _ E).
  - by apply (geti_seti_ne _ _ _ _ _ E).
Qed.

(** What the swap of two live cells does. *)
Record swapped (s s' : wheel) (i j : Z) : Prop := {
  sw_shape : shape s';
  sw_moved : moved s s';
  sw_i : key s' i = key s j;
  sw_j : key s' j = key s i;
  sw_other : forall x, 0 <= x < s_count s -> x <> i -> x <> j -> key s' x = key s x
}.

Lemma heap_swap_spec s i j : shape s -> 0 <= i < s_count s -> 0 <= j < s_count s -> i <> j ->
  exists s', heap_swap s i j = Some s' /\ swapped s s' i j.
Proof.
  intros Hs Hi Hj Hne. pose proof (cap_bounds s Hs) as Hcap.
  destruct Hs as [Hl Hb Hc Hn Hcells]. pose proof (Build_shape s Hl Hb Hc Hn Hcells) as Hs.
  destruct (Hcells i Hi) as (a & ra & Ha & Hra & Hxa).
  destruct (Hcells j Hj) as (b & rb & Hb' & Hrb & Hxb).
  assert (a <> b) as Hab by (intros ->; simplify_eq; lia).
  unfold heap_swap. run_bind Ha. run_bind Hb'.
  run_bind (heap_set_eq s i b rb ltac:(lia) Hrb).
  set (h1 := <[Z.to_nat i := b]> (s_heap s)). set (s1 := with_timer _ _ _).
  assert (s_heap s1 = h1) as E1 by apply s_heap_with.
  destruct (with_heap_same s h1) as (C1 & N1 & T1 & D1 & B1).
  assert (length h1 = length (s_heap s)) as Hl1 by apply length_insert.
  assert (timers s1 !! a = Some ra) as Hra1.
  { unfold s1. cbn. rewrite T1. by rewrite lookup_insert_ne. }
  rewrite (heap_set_eq s1 j a ra) by (rewrite ?E1, ?Hl1; lia || done).
  eexists. split; [reflexivity|]. rewrite E1. set (h2 := <[Z.to_nat j := a]> h1).
  destruct (with_heap_same s1 h2) as (C2 & N2 & T2 & D2 & B2).
  assert (length h2 = length h1) as Hl2 by apply length_insert.
  set (s2 := with_timer _ _ _).
  assert (s_heap s2 = h2) as E2 by apply s_heap_with.
  assert (forall x, geti h2 x = if x =? j then Some a else if x =? i then Some b else geti (s_heap s) x) as Hg.
  { intros x. unfold h2, h1. rewrite geti_insert by (rewrite length_insert; lia).
    destruct (x =? j); [done|]. by rewrite geti_insert by lia. }
  assert (timers s2 = <[a := set_idx ra j]> (<[b := set_idx rb i]> (timers s))) as T.
  { unfold s2. cbn [timers with_timer]. rewrite T2. unfold s1. cbn [timers with_timer].
    rewrite T1. by rewrite !s32_small by lia. }
  assert (s_count s2 = s_count s) as N by (unfold s2; cbn; rewrite N2; exact N1).
  assert (s_cap s2 = s_cap s) as C by (unfold s2; cbn; rewrite C2; exact C1).
  assert (shape s2) as Hs2.
  { constructor; rewrite ?N, ?C, ?E2; try done; [lia| |].
    - unfold s2. cbn. rewrite B2 by (by rewrite E1). unfold s1; cbn [s_boot_heap with_timer]; rewrite B1 by done. exact Hb.
    - intros x Hx. rewrite Hg, T. destruct (Z.eqb_spec x j) as [->|Hxj]; [|destruct (Z.eqb_spec x i) as [->|Hxi]].
      + do 2 eexists. split; [done|]. by rewrite lookup_insert_eq.
      + do 2 eexists. split; [done|]. by rewrite lookup_insert_ne, lookup_insert_eq by done.
      + destruct (Hcells x Hx) as (t & r & Ht & Hr & Hidx). exists t, r. split; [done|].
        rewrite !lookup_insert_ne; [done| |]; intros ->; simplify_eq; lia. }
  constructor; [done| | | |].
  - constructor; try done.
    + unfold s2. cbn. rewrite D2. exact D1.
    + intros t. rewrite !elem_of_armed by done. rewrite N, E2. setoid_rewrite Hg. split.
      * intros (x & Hx & Ht). destruct (Z.eqb_spec x j); [|destruct (Z.eqb_spec x i)]; [..|by eauto];
          injection Ht as <-; eauto.
      * intros (x & Hx & Ht). destruct (Z.eq_dec x i) as [->|]; [|destruct (Z.eq_dec x j) as [->|]].
        -- exists j. rewrite Z.eqb_refl. split; [done|congruence].
        -- exists i. assert (t = b) as -> by congruence. by rewrite (proj2 (Z.eqb_neq i j) Hne), Z.eqb_refl.
        -- exists x. rewrite (proj2 (Z.eqb_neq x j)), (proj2 (Z.eqb_neq x i)) by done. done.
    + intros t. rewrite T. destruct (decide (t = a)) as [->|]; [by rewrite lookup_insert_eq, Hra|].
      rewrite lookup_insert_ne by done. destruct (decide (t = b)) as [->|]; [by rewrite lookup_insert_eq, Hrb|].
      by rewrite lookup_insert_ne.
    + intros t Ht. rewrite elem_of_armed in Ht by done. rewrite T.
      rewrite !lookup_insert_ne; [done| |]; intros ->; apply Ht; eauto.
  - rewrite (key_cell s2 i b (set_idx rb i)), (key_cell s j b rb); try done.
    + rewrite E2, Hg. by rewrite (proj2 (Z.eqb_neq i j) Hne), Z.eqb_refl.
    + rewrite T. by rewrite lookup_insert_ne, lookup_insert_eq by done.
  - rewrite (key_cell s2 j a (set_idx ra j)), (key_cell s i a ra); try done.
    + rewrite E2, Hg. by rewrite Z.eqb_refl.
    + rewrite T. by rewrite lookup_insert_eq.
  - intros x Hx Hxi Hxj. destruct (Hcells x Hx) as (t & r & Ht & Hr & Hidx).
    rewrite (key_cell s2 x t r), (key_cell s x t r); try done.
    + rewrite E2, Hg. by rewrite (proj2 (Z.eqb_neq x j)), (proj2 (Z.eqb_neq x i)).
    + rewrite T. rewrite !lookup_insert_ne; [done| |]; intros ->; simplify_eq; lia.
Qed.

(** ** The sifts restore the order *)

Lemma sift_up_spec fuel : forall s i, (Z.to_nat i < fuel)%nat -> shape s -> 0 <= i < s_count s ->
  (forall x, 0 < x < s_count s -> x <> i -> key s (parent x) <= key s x) ->
  (forall x, 0 < x < s_count s -> parent x = i -> 0 < i -> key s (parent i) <= key s x) ->
  exists s', heap_sift_up fuel s i = Some s' /\ shape s' /\ moved s s' /\ ordered s'.
Proof.
  induction fuel as [|fuel IH]; intros s i Hf Hs Hi Hord Hgp; [lia|]. cbn [heap_sift_up].
  pose proof (cap_bounds s Hs) as Hcap. pose proof (sh_count s Hs) as Hn.
  destruct (Z.ltb_spec 0 i) as [Hpos|].
  2: { exists s. split_and!; [done|done|apply moved_refl|]. intros x Hx. apply Hord; [done|lia]. }
  rewrite (u32_small (i - 1)) by lia. fold (parent i).
  assert (0 <= parent i < i) as Hp by (unfold parent; zlia).
  rewrite (bind_eq _ _ _ (deadline_key s (parent i) Hs ltac:(lia))). cbn beta.
  rewrite (bind_eq _ _ _ (deadline_key s i Hs Hi)). cbn beta.
  destruct (Z.leb_spec (key s (parent i)) (key s i)) as [Hle|Hgt].
  { exists s. split_and!; [done|done|apply moved_refl|]. intros x Hx.
    destruct (Z.eq_dec x i) as [->|]; [done|by apply Hord]. }
  destruct (heap_swap_spec s i (parent i) Hs Hi ltac:(lia) ltac:(lia)) as (s1 & E & [Hs1 Hm Ki Kp Ko]).
  run_bind E. pose proof (mv_count _ _ Hm) as N.
  destruct (IH s1 (parent i) ltac:(lia) Hs1 ltac:(lia)) as (s2 & E2 & Hs2 & Hm2 & Hord2).
  - rewrite N. intros x Hx Hne. destruct (Z.eq_dec x i) as [->|Hxi]; [lia|].
    rewrite (Ko x) by lia. assert (0 <= parent x < x) as Hpx by (unfold parent; zlia).
    destruct (Z.eq_dec (parent x) i) as [Hpi|Hpi].
    + rewrite Hpi, Ki. by apply Hgp.
    + pose proof (Hord x Hx Hxi). destruct (Z.eq_dec (parent x) (parent i)) as [Hpp|Hpp].
      * rewrite Hpp in *. lia.
      * by rewrite Ko by lia.
  - rewrite N. intros x Hx Hpx Hpos2.
    assert (0 <= parent (parent i) < parent i) as Hpp by (unfold parent in *; zlia).
    rewrite (Ko (parent (parent i))) by lia.
    assert (key s (parent (parent i)) <= key s (parent i)) as Hpar by (apply Hord; lia).
    destruct (Z.eq_dec x i) as [->|Hxi]; [by rewrite Ki|].
    rewrite (Ko x) by (unfold parent in *; zlia). pose proof (Hord x Hx Hxi) as Hx2.
    rewrite Hpx in Hx2. lia.
  - exists s2. split_and!; [done|done|by eapply moved_trans|done].
Qed.

(** The smallest of a node and its two children. *)
Lemma smallest_spec s i : shape s -> 0 <= i < s_count s ->
  exists m, (sm ← smaller_child s ((2 ⊠ i) ⊞ 1) i; smaller_child s ((2 ⊠ i) ⊞ 2) sm) = Some m /\
    (m = i \/ (m < s_count s /\ parent m = i /\ i < m /\ key s m < key s i)) /\
    forall x, 0 < x < s_count s -> parent x = i -> key s m <= key s x.
Proof.
  intros Hs Hi. pose proof (cap_bounds s Hs) as Hcap. pose proof (sh_count s Hs) as Hn.
  rewrite (u32_small (2 * i)), (u32_small (2 * i + 1)), (u32_small (2 * i + 2)) by lia.
  assert (forall x, 0 < x -> parent x = i -> x = 2 * i + 1 \/ x = 2 * i + 2) as Hch
    by (intros x Hx Hp; unfold parent in *; zlia).
  assert (forall c m, 0 <= m < s_count s -> (c <= s_count s \/ s_count s < c) -> 0 <= c ->
    smaller_child s c m = Some (if (c <? s_count s) && (key s c <? key s m) then c else m)) as Hsc.
  { intros c m Hm _ Hc. unfold smaller_child. destruct (Z.ltb_spec c (s_count s)); [|done].
    rewrite (bind_eq _ _ _ (deadline_key s c Hs ltac:(lia))). cbn beta.
    by rewrite (bind_eq _ _ _ (deadline_key s m Hs Hm)). }
  rewrite (bind_eq _ _ _ (Hsc (2 * i + 1) i Hi ltac:(lia) ltac:(lia))). cbn beta.
  assert (parent (2 * i + 1) = i /\ parent (2 * i + 2) = i) as [Hp1 Hp2] by (unfold parent; zlia).
  destruct (Z.ltb_spec (2 * i + 1) (s_count s)); cbn [andb];
    [destruct (Z.ltb_spec (key s (2 * i + 1)) (key s i))|];
    rewrite Hsc by lia; (destruct (Z.ltb_spec (2 * i + 2) (s_count s)); cbn [andb];
      [match goal with |- context [?a <? ?b] => destruct (Z.ltb_spec a b) end|]);
    (eexists; split; [reflexivity|]; split;
     [lia|intros x Hx Hpx; destruct (Hch x ltac:(lia) Hpx) as [->| ->]; lia]).
Qed.

Lemma sift_down_spec fuel : forall s i, (Z.to_nat (s_count s - i) < fuel)%nat -> shape s ->
  0 <= i < s_count s ->
  (forall x, 0 < x < s_count s -> parent x <> i -> key s (parent x) <= key s x) ->
  (forall x, 0 < x < s_count s -> parent x = i -> 0 < i -> key s (parent i) <= key s x) ->
  exists s', heap_sift_down fuel s i = Some s' /\ shape s' /\ moved s s' /\ ordered s'.
Proof.
  induction fuel as [|fuel IH]; intros s i Hf Hs Hi Hord Hgp; [lia|]. cbn [heap_sift_down].
  destruct (smallest_spec s i Hs Hi) as (m & Hm & Hcase & Hmin).
  destruct (smaller_child s ((2 ⊠ i) ⊞ 1) i) as [sm|] eqn:Esm; [|done].
  cbn [mbind option_bind] in Hm. rewrite (bind_eq _ _ _ eq_refl). run_bind Hm.
  destruct (Z.eqb_spec m i) as [->|Hne].
  { exists s. split_and!; [done|done|apply moved_refl|]. intros x Hx.
    destruct (Z.eq_dec (parent x) i) as [Hp|]; [|by apply Hord]. rewrite Hp. by apply Hmin. }
  destruct Hcase as [?|(Hmc & Hpm & Him & Hlt)]; [done|].
  destruct (heap_swap_spec s i m Hs Hi ltac:(lia) ltac:(lia)) as (s1 & E & [Hs1 Hmv Ki Km Ko]).
  run_bind E. pose proof (mv_count _ _ Hmv) as N.
  destruct (IH s1 m ltac:(lia) Hs1 ltac:(lia)) as (s2 & E2 & Hs2 & Hm2 & Hord2).
  - rewrite N. intros x Hx Hpx. assert (0 <= parent x < x) as Hpr by (unfold parent; zlia).
    destruct (Z.eq_dec x m) as [->|Hxm]; [rewrite Hpm, Ki, Km; lia|].
    destruct (Z.eq_dec x i) as [->|Hxi].
    + rewrite Ki, (Ko (parent i)) by lia. apply Hgp; lia.
    + rewrite (Ko x) by lia. destruct (Z.eq_dec (parent x) i) as [Hpi|Hpi].
      * rewrite Hpi, Ki. by apply Hmin.
      * rewrite Ko by lia. by apply Hord.
  - rewrite N. intros x Hx Hpx _. rewrite Hpm, Ki.
    assert (x <> m /\ x <> i) as [? ?] by (unfold parent in *; zlia).
    rewrite Ko by lia. rewrite <- Hpx. apply Hord; lia.
  - exists s2. split_and!; [done|done|by eapply moved_trans|done].
Qed.

(** ** Insertion and removal *)

Record wf_wheel (s : wheel) : Prop := { ww_shape : shape s; ww_ordered : ordered s }.

(** [s'] has [n] live cells that hold the timers of [A]; only back indexes moved. *)
Record became (s s' : wheel) (n : Z) (A : Z -> Prop) : Prop := {
  bc_cap : s_cap s' = s_cap s;
  bc_count : s_count s' = n;
  bc_dyn : is_Some (s_dyn s') <-> is_Some (s_dyn s);
  bc_armed : forall t, t ∈ armed s' <-> A t;
  bc_core : forall t, core (timers s' !! t) = core (timers s !! t);
  bc_off : forall t, t ∉ armed s -> ~ A t -> timers s' !! t = timers s !! t
}.

Lemma became_moved s s1 s2 n A : became s s1 n A -> moved s1 s2 -> became s s2 n A.
Proof.
  intros [C N D Ar T O] [C' N' D' A' T' O']. constructor; try congruence.
  - by rewrite D', D.
  - intros t. by rewrite A', Ar.
  - intros t Ht HA. rewrite O' by (by rewrite Ar). by apply O.
Qed.

(** Writing a timer that is not armed, or its fields other than deadline and index. *)
Lemma touch_spec s t r' : shape s ->
  (t ∉ armed s \/ exists r, timers s !! t = Some r /\ heap_idx r' = heap_idx r /\
                            deadline_ns r' = deadline_ns r) ->
  shape (with_timer s t r') /\ (forall i, 0 <= i < s_count s -> key (with_timer s t r') i = key s i).
Proof.
  intros Hs Hr. pose proof Hs as [Hl Hb Hc Hn Hcells].
  assert (forall i x r, 0 <= i < s_count s -> geti (s_heap s) i = Some x -> timers s !! x = Some r ->
    exists r2, <[t := r']> (timers s) !! x = Some r2 /\ heap_idx r2 = heap_idx r /\
               deadline_ns r2 = deadline_ns r) as Hx.
  { intros i x r Hi Hx Hrx. destruct (decide (x = t)) as [->|Hne].
    - rewrite lookup_insert_eq. exists r'. split; [done|]. destruct Hr as [Hr|(r0 & Hr0 & ? & ?)].
      + exfalso. apply Hr, elem_of_armed; [done|]. eauto.
      + by simplify_eq.
    - rewrite lookup_insert_ne by done. eauto. }
  split.
  - constructor; try done. intros i Hi. destruct (Hcells i Hi) as (x & r & Hg & Hrx & Hidx).
    destruct (Hx i x r Hi Hg Hrx) as (r2 & ? & ? & _). exists x, r2. split_and!; [done|done|congruence].
  - intros i Hi. destruct (Hcells i Hi) as (x & r & Hg & Hrx & Hidx).
    destruct (Hx i x r Hi Hg Hrx) as (r2 & ? & _ & Hd).
    by rewrite (key_cell s i x r), (key_cell _ i x r2).
Qed.

Lemma touch_wf s t r' : wf_wheel s ->
  (t ∉ armed s \/ exists r, timers s !! t = Some r /\ heap_idx r' = heap_idx r /\
                            deadline_ns r' = deadline_ns r) ->
  wf_wheel (with_timer s t r').
Proof.
  intros [Hs Ho] Hr. destruct (touch_spec s t r' Hs Hr) as [Hs' Hk]. split; [done|].
  intros i Hi. assert (0 <= parent i < i) by (unfold parent; zlia). cbn in Hi.
  rewrite !Hk by lia. by apply Ho.
Qed.

Lemma heap_insert_spec s t r : wf_wheel s -> t ∉ armed s -> timers s !! t = Some r ->
  (s_cap s = s_count s /\ heap_insert s t = Some (false, s)) \/
  (s_count s < s_cap s /\ exists s', heap_insert s t = Some (true, s') /\ wf_wheel s' /\
     became s s' (s_count s + 1) (fun x => x ∈ armed s \/ x = t)).
Proof.
  intros [Hs Ho] Ht Hr. pose proof (cap_bounds s Hs) as Hcap. pose proof Hs as [Hl Hb Hc Hn Hcells].
  unfold heap_insert. destruct (Z.leb_spec (s_cap s) (s_count s)); [left; split; [lia|done]|].
  right. split; [done|]. rewrite (u32_small (s_count s + 1)) by lia.
  set (s0 := with_count s (s_count s + 1)).
  assert (s_heap s0 = s_heap s) as E0 by done.
  rewrite (bind_eq _ _ _ (heap_set_eq s0 (s_count s) t r ltac:(rewrite E0; lia) Hr)). cbn beta.
  rewrite E0. set (h1 := <[_ := t]> (s_heap s)). set (s1 := with_timer _ _ _).
  destruct (with_heap_same s0 h1) as (C1 & N1 & T1 & D1 & B1).
  assert (length h1 = length (s_heap s)) as Hl1 by apply length_insert.
  assert (s_heap s1 = h1) as E1 by apply s_heap_with.
  assert (s_count s1 = s_count s + 1) as N by (unfold s1; cbn; exact N1).
  assert (s_cap s1 = s_cap s) as C by (unfold s1; cbn; exact C1).
  assert (timers s1 = <[t := set_idx r (s_count s)]> (timers s)) as T.
  { unfold s1. cbn [timers with_timer]. rewrite T1. by rewrite s32_small by lia. }
  assert (forall x, geti h1 x = if x =? s_count s then Some t else geti (s_heap s) x) as Hg
    by (intros x; apply geti_insert; lia).
  assert (forall i x, 0 <= i < s_count s -> geti (s_heap s) i = Some x -> x <> t) as Hne.
  { intros i x Hi Hx ->. apply Ht, elem_of_armed; eauto. }
  assert (shape s1) as Hs1.
  { constructor; rewrite ?N, ?C, ?E1; try done; [lia| |lia|].
    - unfold s1. cbn. rewrite B1 by done. exact Hb.
    - intros i Hi. rewrite Hg, T. destruct (Z.eqb_spec i (s_count s)) as [->|].
      + do 2 eexists. split; [done|]. by rewrite lookup_insert_eq.
      + destruct (Hcells i ltac:(lia)) as (x & rx & Hx & Hrx & Hidx). exists x, rx. split; [done|].
        rewrite lookup_insert_ne; [done|]. intros <-. by apply (Hne i t); [lia|..]. }
  assert (forall i, 0 <= i < s_count s -> key s1 i = key s i) as Hk.
  { intros i Hi. destruct (Hcells i ltac:(lia)) as (x & rx & Hx & Hrx & Hidx).
    rewrite (key_cell s i x rx), (key_cell s1 i x rx); try done.
    - rewrite E1, Hg. by rewrite (proj2 (Z.eqb_neq i (s_count s))) by lia.
    - rewrite T, lookup_insert_ne; [done|]. intros <-. by apply (Hne i t). }
  destruct (sift_up_spec (sift_fuel s1) s1 (s_count s)) as (s2 & E2 & Hs2 & Hm & Ho2).
  - unfold sift_fuel. lia.
  - done.
  - lia.
  - intros x Hx Hxn. assert (0 <= parent x < x) by (unfold parent; zlia).
    rewrite !Hk by lia. apply Ho. lia.
  - intros x Hx Hp. unfold parent in Hp. zlia.
  - run_bind E2. exists s2. split; [done|]. split; [by split|]. eapply became_moved; [|exact Hm].
    constructor; try done.
    + intros x. rewrite !elem_of_armed by done. rewrite N, E1. setoid_rewrite Hg. split.
      * intros (i & Hi & Hx). destruct (Z.eqb_spec i (s_count s)); [right; by simplify_eq|].
        left. exists i. split; [lia|done].
      * intros [(i & Hi & Hx)| ->].
        -- exists i. split; [lia|]. by rewrite (proj2 (Z.eqb_neq i (s_count s))) by lia.
        -- exists (s_count s). split; [lia|]. by rewrite Z.eqb_refl.
    + intros x. rewrite T. destruct (decide (x = t)) as [->|]; [by rewrite lookup_insert_eq, Hr|].
      by rewrite lookup_insert_ne.
    + intros x Hx HA. rewrite T, lookup_insert_ne; [done|]. intros <-. apply HA. by right.
Qed.

(** Taking [t] off the end: the live cells but the last. *)
Lemma shrink_spec s i t r : wf_wheel s -> 0 <= i < s_count s -> geti (s_heap s) i = Some t ->
  timers s !! t = Some r ->
  let s1 := with_count (with_timer s t (set_idx r (-1))) (s_count s - 1) in
  (forall x, 0 <= x < s_count s -> x <> i -> exists y ry, geti (s_heap s1) x = Some y /\ y <> t /\
     timers s1 !! y = Some ry /\ heap_idx ry = x /\ deadline_ns ry = key s x).
Proof.
  intros [Hs Ho] Hi Ht Hr s1 x Hx Hne. destruct (sh_cells _ Hs x Hx) as (y & ry & Hy & Hry & Hidx).
  destruct (cell_of s i t Hs Hi Ht) as (r0 & Hr0 & Hi0).
  assert (y <> t) as Hyt by (intros ->; simplify_eq; lia).
  exists y, ry. cbn. rewrite lookup_insert_ne by done. split_and!; try done.
  by rewrite (key_cell s x y ry).
Qed.

(** Filling cell [i] with the last one: the state between the move and the sift. *)
Record refilled (s s2 : wheel) (i t : Z) : Prop := {
  rf_shape : shape s2;
  rf_became : became s s2 (s_count s - 1) (fun x => x ∈ armed s /\ x <> t);
  rf_key : forall x, 0 <= x < s_count s - 1 -> key s2 x = if x =? i then key s (s_count s - 1) else key s x
}.

Lemma refill_spec s i t r mv : wf_wheel s -> 0 <= i < s_count s - 1 -> geti (s_heap s) i = Some t ->
  timers s !! t = Some r -> geti (s_heap s) (s_count s - 1) = Some mv ->
  let s1 := with_count (with_timer s t (set_idx r (-1))) (s_count s - 1) in
  exists s2, heap_set s1 i mv = Some s2 /\ refilled s s2 i t /\
    timers s2 !! t = Some (set_idx r (-1)).
Proof.
  intros Hwf Hi Ht Hr Hmv s1. pose proof (ww_shape _ Hwf) as Hs. pose proof (cap_bounds s Hs) as Hcap.
  pose proof Hs as [Hl Hb Hc Hn Hcells].
  pose proof (shrink_spec s i t r Hwf ltac:(lia) Ht Hr) as Hcell. fold s1 in Hcell.
  destruct (Hcell (s_count s - 1) ltac:(lia) ltac:(lia)) as (y & ry & Hy & Hyt & Hry & Hyi & Hyd).
  change (s_heap s1) with (s_heap s) in *. assert (mv = y) as -> by congruence.
  rewrite (heap_set_eq s1 i y ry) by (change (s_heap s1) with (s_heap s); lia || done).
  eexists. split; [reflexivity|]. change (s_heap s1) with (s_heap s).
  set (h1 := <[_ := y]> (s_heap s)). set (s2 := with_timer _ _ _).
  destruct (with_heap_same s1 h1) as (C1 & N1 & T1 & D1 & B1).
  assert (length h1 = length (s_heap s)) as Hl1 by apply length_insert.
  assert (s_heap s2 = h1) as E2 by apply s_heap_with.
  assert (s_count s2 = s_count s - 1) as N by (unfold s2; cbn; exact N1).
  assert (s_cap s2 = s_cap s) as C by (unfold s2; cbn; exact C1).
  assert (timers s2 = <[y := set_idx ry i]> (<[t := set_idx r (-1)]> (timers s))) as T.
  { unfold s2. cbn [timers with_timer]. rewrite T1. by rewrite s32_small by lia. }
  assert (forall x, geti h1 x = if x =? i then Some y else geti (s_heap s) x) as Hg
    by (intros x; apply geti_insert; lia).
  assert (forall x, 0 <= x < s_count s - 1 -> x <> i -> exists z rz, geti h1 x = Some z /\
    timers s2 !! z = Some rz /\ heap_idx rz = x /\ deadline_ns rz = key s x /\ z <> t) as Hcell2.
  { intros x Hx Hne. destruct (Hcell x ltac:(lia) Hne) as (z & rz & Hz & Hzt & Hrz & Hzi & Hzd).
    exists z, rz. rewrite Hg, (proj2 (Z.eqb_neq x i) Hne), T.
    rewrite lookup_insert_ne; [done|]. intros ->. simplify_eq. lia. }
  assert (shape s2) as Hs2.
  { constructor; rewrite ?N, ?C, ?E2; try done; [lia| |lia|].
    - unfold s2. cbn. rewrite B1 by done. exact Hb.
    - intros x Hx. destruct (Z.eq_dec x i) as [->|Hne].
      + rewrite Hg, Z.eqb_refl, T. do 2 eexists. split; [done|]. by rewrite lookup_insert_eq.
      + destruct (Hcell2 x Hx Hne) as (z & rz & ? & ? & ? & _). eauto. }
  split; [|by rewrite T, lookup_insert_ne, lookup_insert_eq by done]. constructor; [done| |].
  - constructor; try done.
    + intros x. rewrite !elem_of_armed by done. rewrite N, E2. setoid_rewrite Hg. split.
      * intros (k & Hk & Hx). destruct (Z.eqb_spec k i) as [->|Hki].
        -- injection Hx as <-. split; [|done]. exists (s_count s - 1). split; [lia|done].
        -- destruct (Hcell2 k Hk Hki) as (z & rz & Hz & _ & _ & _ & Hzt).
           rewrite Hg, (proj2 (Z.eqb_neq k i) Hki) in Hz. simplify_eq.
           split; [|done]. exists k. split; [lia|done].
      * intros [(k & Hk & Hx) Hxt]. destruct (Z.eq_dec k (s_count s - 1)) as [->|Hkl].
        -- simplify_eq. exists i. by rewrite Z.eqb_refl.
        -- exists k. destruct (Z.eqb_spec k i) as [->|]; [by simplify_eq|]. split; [lia|done].
    + intros x. rewrite T. destruct (decide (x = y)) as [->|].
      * rewrite lookup_insert_eq. cbn in Hry. rewrite lookup_insert_ne in Hry by done. by rewrite Hry.
      * rewrite lookup_insert_ne by done. destruct (decide (x = t)) as [->|].
        -- by rewrite lookup_insert_eq, Hr.
        -- by rewrite lookup_insert_ne.
    + intros x Hx HA. rewrite T. rewrite !lookup_insert_ne; [done| |]; intros <-; apply Hx, elem_of_armed;
        try done; [by exists i; split; [lia|]|by exists (s_count s - 1); split; [lia|]].
  - intros x Hx. destruct (Z.eqb_spec x i) as [->|Hne].
    + rewrite (key_cell s2 i y (set_idx ry i)); [done| |by rewrite T, lookup_insert_eq].
      by rewrite E2, Hg, Z.eqb_refl.
    + destruct (Hcell2 x Hx Hne) as (z & rz & Hz & Hrz & _ & Hd & _).
      by rewrite (key_cell s2 x z rz) by (by rewrite ?E2).
Qed.

(** Removing the last cell. *)
Lemma remove_last_spec s t r : wf_wheel s -> 0 < s_count s ->
  geti (s_heap s) (s_count s - 1) = Some t -> timers s !! t = Some r ->
  let s1 := with_count (with_timer s t (set_idx r (-1))) (s_count s - 1) in
  wf_wheel s1 /\ became s s1 (s_count s - 1) (fun x => x ∈ armed s /\ x <> t).
Proof.
  intros Hwf Hn Ht Hr s1. pose proof (ww_shape _ Hwf) as Hs.
  pose proof (sh_count _ Hs) as Hc0.
  pose proof (shrink_spec s (s_count s - 1) t r Hwf ltac:(lia) Ht Hr) as Hcell. fold s1 in Hcell.
  assert (shape s1) as Hs1.
  { destruct Hs as [Hl Hb Hc _ _]. constructor; try done; cbn; [lia|]. intros x Hx.
    destruct (Hcell x ltac:(lia) ltac:(lia)) as (y & ry & ? & _ & ? & ? & _). eauto. }
  split.
  - split; [done|]. intros x Hx. cbn in Hx. assert (0 <= parent x < x) by (unfold parent; zlia).
    destruct (Hcell x ltac:(lia) ltac:(lia)) as (y & ry & Hy & _ & Hry & _ & Hdy).
    destruct (Hcell (parent x) ltac:(lia) ltac:(lia)) as (z & rz & Hz & _ & Hrz & _ & Hd).
    rewrite (key_cell s1 _ _ _ Hz Hrz), (key_cell s1 _ _ _ Hy Hry), Hd, Hdy.
    apply (ww_ordered _ Hwf). lia.
  - constructor; try done; cbn.
    + intros x. rewrite !elem_of_armed by done. cbn. split.
      * intros (k & Hk & Hx). destruct (Hcell k ltac:(lia) ltac:(lia)) as (y & ry & Hy & Hyt & _).
        change (geti (s_heap s) k = Some x) in Hx. change (geti (s_heap s) k = Some y) in Hy.
        rewrite Hx in Hy. injection Hy as <-. split; [|done]. exists k. split; [lia|done].
      * intros [(k & Hk & Hx) Hxt]. exists k. split; [|done].
        destruct (Z.eq_dec k (s_count s - 1)) as [->|]; [by simplify_eq|lia].
    + intros x. destruct (decide (x = t)) as [->|]; [by rewrite lookup_insert_eq, Hr|].
      by rewrite lookup_insert_ne.
    + intros x Hx HA. rewrite lookup_insert_ne; [done|]. intros <-.
      apply Hx, elem_of_armed; [done|]. exists (s_count s - 1). split; [lia|done].
Qed.

(** After the refill, the sift in the direction the code chooses. *)
Lemma resift_spec s s2 i t mv m : wf_wheel s -> 0 <= i < s_count s - 1 -> refilled s s2 i t ->
  geti (s_heap s2) i = Some mv -> timers s2 !! mv = Some m ->
  exists up s3, (if 0 <? i
        then dp ← deadline_at s2 ((i ⊟ 1) / 2); Some (deadline_ns m <? dp)
        else Some false) = Some up /\
    (if up : bool then heap_sift_up (sift_fuel s2) s2 i
     else heap_sift_down (sift_fuel s2) s2 i) = Some s3 /\
    shape s3 /\ moved s2 s3 /\ ordered s3.
Proof.
  intros [Hs Ho] Hi [Hs2 Hb2 Hk] Hgi Hm. pose proof (cap_bounds s Hs) as Hcap.
  pose proof (sh_count _ Hs) as Hn. pose proof (bc_count _ _ _ _ Hb2) as N.
  pose proof (key_cell s2 i mv m Hgi Hm) as Km.
  assert (forall x, 0 < x < s_count s2 -> x <> i -> parent x <> i -> key s2 (parent x) <= key s2 x) as Hoth.
  { intros x Hx Hxi Hpi. assert (0 <= parent x < x) by (unfold parent; zlia).
    rewrite !Hk by lia. rewrite (proj2 (Z.eqb_neq _ _) Hxi), (proj2 (Z.eqb_neq _ _) Hpi).
    apply Ho. lia. }
  assert (forall x, 0 < x < s_count s2 -> parent x = i -> key s i <= key s2 x) as Hch.
  { intros x Hx Hpx. assert (x <> i) as Hxi by (unfold parent in Hpx; zlia).
    rewrite Hk by lia. rewrite (proj2 (Z.eqb_neq _ _) Hxi), <- Hpx. apply Ho. lia. }
  assert (0 < i -> 0 <= parent i < i /\ key s2 (parent i) = key s (parent i) /\
    key s (parent i) <= key s i) as Hpar.
  { intros Hpos. assert (0 <= parent i < i) as Hp by (unfold parent; zlia).
    rewrite Hk by lia. rewrite (proj2 (Z.eqb_neq (parent i) i)) by lia.
    split_and!; try lia. apply Ho. lia. }
  assert (forall x, 0 < x < s_count s2 -> parent x = i -> 0 < i -> key s2 (parent i) <= key s2 x) as Hgp.
  { intros x Hx Hpx Hpos. pose proof (Hch x Hx Hpx). lia. }
  set (up := (0 <? i) && (key s2 i <? key s2 (parent i))).
  assert (exists s3, (if up then heap_sift_up (sift_fuel s2) s2 i
     else heap_sift_down (sift_fuel s2) s2 i) = Some s3 /\
    shape s3 /\ moved s2 s3 /\ ordered s3) as (s3 & E3).
  { destruct up eqn:Eup; unfold up in Eup.
    - apply andb_true_iff in Eup as [?%Z.ltb_lt ?%Z.ltb_lt].
      apply sift_up_spec; [unfold sift_fuel; lia|done|lia| |done].
      intros x Hx Hxi. destruct (Z.eq_dec (parent x) i) as [Hpi|Hpi]; [|by apply Hoth].
      pose proof (Hch x Hx Hpi). rewrite Hpi. lia.
    - apply sift_down_spec; [unfold sift_fuel; lia|done|lia| |done].
      intros x Hx Hpi. destruct (Z.eq_dec x i) as [->|Hxi]; [|by apply Hoth].
      apply andb_false_iff in Eup as [?%Z.ltb_ge|?%Z.ltb_ge]; lia. }
  exists up, s3. split; [|exact E3]. unfold up. destruct (Z.ltb_spec 0 i) as [Hpos|]; [|done].
  rewrite (u32_small (i - 1)) by lia. fold (parent i).
  rewrite (bind_eq _ _ _ (deadline_key s2 (parent i) Hs2 ltac:(lia))). by rewrite Km.
Qed.

Lemma heap_set_cell s i t s' : heap_set s i t = Some s' -> geti (s_heap s') i = Some t.
Proof.
  unfold heap_set. destruct (seti _ _ _) as [h|] eqn:Eh; [|done]. cbn.
  destruct (_ !! t); [|done]. cbn. intros [= <-]. change (geti (s_heap (with_heap s h)) i = Some t). rewrite s_heap_with.
  by apply (geti_seti_eq _ _ _ _ Eh).
Qed.

Lemma heap_remove_at_spec s i t : wf_wheel s -> 0 <= i < s_count s -> geti (s_heap s) i = Some t ->
  exists r s', timers s !! t = Some r /\ heap_remove_at s i = Some s' /\ wf_wheel s' /\
    became s s' (s_count s - 1) (fun x => x ∈ armed s /\ x <> t) /\
    timers s' !! t = Some (set_idx r (-1)).
Proof.
  intros Hwf Hi Ht. pose proof (ww_shape _ Hwf) as Hs.
  pose proof (cap_bounds s Hs) as Hcap. pose proof (sh_count _ Hs) as Hn.
  destruct (cell_of s i t Hs Hi Ht) as (r & Hr & _). exists r.
  unfold heap_remove_at. rewrite (proj2 (Z.leb_gt (s_count s) i)) by lia.
  run_bind Ht. run_bind Hr. rewrite (u32_small (s_count s - 1)) by lia.
  set (s1 := with_count (with_timer s t (set_idx r (-1))) (s_count s - 1)).
  change (s_count s1) with (s_count s - 1). change (s_heap s1) with (s_heap s).
  destruct (Z.eqb_spec i (s_count s - 1)) as [->|Hne].
  - destruct (remove_last_spec s t r Hwf ltac:(lia) Ht Hr) as [Hwf1 Hb1]. exists s1.
    split_and!; try done. cbn. by rewrite lookup_insert_eq.
  - destruct (geti_in_range (s_heap s) (s_count s - 1)) as [mv Hmv]; [rewrite (sh_len _ Hs); lia|].
    run_bind Hmv.
    destruct (refill_spec s i t r mv Hwf ltac:(lia) Ht Hr Hmv) as (s2 & E2 & Hrf & Htr).
    fold s1 in E2. run_bind E2. pose proof Hrf as [Hs2 Hb2 _].
    pose proof (heap_set_cell _ _ _ _ E2) as Hgi.
    destruct (cell_of s2 i mv Hs2) as (m & Hm & _); [rewrite (bc_count _ _ _ _ Hb2); lia|done|].
    run_bind Hm.
    destruct (resift_spec s s2 i t mv m Hwf ltac:(lia) Hrf Hgi Hm) as (up & s3 & Eup & E3 & Hs3 & Hm3 & Ho3).
    run_bind Eup. exists s3. split_and!; try done.
    + by eapply became_moved.
    + rewrite (mv_off _ _ Hm3); [exact Htr|]. rewrite (bc_armed _ _ _ _ Hb2). tauto.
Qed.

(** ** Detaching, arming, cancelling *)

(** An operation on timer [t]: others keep their fields, and their back index when they
    are out of the heap; [n] cells are live and hold the timers of [A]. *)
Record effect (s s' : wheel) (t n : Z) (A : Z -> Prop) : Prop := {
  ef_cap : s_cap s' = s_cap s;
  ef_count : s_count s' = n;
  ef_armed : forall x, x ∈ armed s' <-> A x;
  ef_core : forall x, x <> t -> core (timers s' !! x) = core (timers s !! x);
  ef_off : forall x, x <> t -> x ∉ armed s -> timers s' !! x = timers s !! x
}.

Definition live (s : wheel) (t : Z) : Z := if bool_decide (t ∈ armed s) then 1 else 0.

Lemma became_effect s s' n A t : became s s' n A -> (forall x, A x -> x ∈ armed s \/ x = t) ->
  effect s s' t n A.
Proof.
  intros [C N D Ar T O] HA. constructor; try done. intros x Hxt Hx. apply O; [done|].
  intros [?|?]%HA; done.
Qed.

Lemma effect_touch s s' t n A r : effect s s' t n A -> effect s (with_timer s' t r) t n A.
Proof.
  intros [C N Ar T O]. constructor; try done; intros x Hx; cbn.
  - rewrite lookup_insert_ne by done. auto.
  - rewrite lookup_insert_ne by done. auto.
Qed.

Lemma effect_trans s s1 s2 t n n' A A' : effect s s1 t n A -> effect s1 s2 t n' A' ->
  (forall x, A x -> x ∈ armed s \/ x = t) -> effect s s2 t n' A'.
Proof.
  intros [C N Ar T O] [C' N' Ar' T' O'] HA. constructor; try done; try congruence.
  - intros x Hx. by rewrite T', T.
  - intros x Hx Hno. rewrite O', O; try done. rewrite Ar. intros [?|?]%HA; done.
Qed.

(** Back indexes of timers out of the heap may hold anything: the check is by identity. *)
Lemma detach_spec s t r : wf_wheel s -> timers s !! t = Some r ->
  exists s', detach_if_armed s t = Some s' /\ wf_wheel s' /\
    effect s s' t (s_count s - live s t) (fun x => x ∈ armed s /\ x <> t) /\
    timers s' !! t = Some (set_idx r (-1)).
Proof.
  intros Hwf Hr. pose proof (ww_shape _ Hwf) as Hs. unfold detach_if_armed, live. run_bind Hr.
  case_bool_decide as Hin.
  - destruct (armed_index s t Hs Hin) as (r' & Hr' & Hi & Ht). simplify_eq.
    rewrite (proj2 (Z.leb_le _ _)), (proj2 (Z.ltb_lt _ _)) by lia. cbn [andb].
    destruct (heap_remove_at_spec s (heap_idx r) t Hwf Hi Ht) as (r0 & s1 & Hr0 & E & Hwf1 & Hb & Ht1).
    simplify_eq. rewrite (bind_eq _ s1); [|by run_bind Ht; rewrite Z.eqb_refl]. run_bind Ht1.
    eexists. split; [reflexivity|]. split_and!.
    + apply touch_wf; [done|]. left. rewrite (bc_armed _ _ _ _ Hb). tauto.
    + apply effect_touch. eapply became_effect; [exact Hb|]. tauto.
    + cbn. by rewrite lookup_insert_eq.
  - rewrite (bind_eq _ s).
    + run_bind Hr. eexists. split; [reflexivity|].
      split_and!; [apply touch_wf; auto| |cbn; by rewrite lookup_insert_eq].
      apply effect_touch. constructor; try done; [lia|].
      intros x. split; [|by intros [? _]]. intros Hx. split; [done|]. by intros ->.
    + destruct (Z.leb_spec 0 (heap_idx r)), (Z.ltb_spec (heap_idx r) (s_count s)); try done. cbn [andb].
      destruct (sh_cells _ Hs (heap_idx r)) as (x & rx & Hx & _ & _); [lia|]. run_bind Hx.
      destruct (Z.eqb_spec x t) as [->|]; [|done]. exfalso. apply Hin, elem_of_armed; [done|].
      exists (heap_idx r). split; [lia|done].
Qed.

Lemma cancel_spec s t r : wf_wheel s -> timers s !! t = Some r ->
  exists s', timer_cancel s t = Some s' /\ wf_wheel s' /\
    effect s s' t (s_count s - live s t) (fun x => x ∈ armed s /\ x <> t) /\
    timers s' !! t = Some (set_deadline (bump_gen (set_idx r (-1))) 0 0).
Proof.
  intros Hwf Hr. unfold timer_cancel.
  destruct (detach_spec s t r Hwf Hr) as (s1 & E & Hwf1 & He & Ht). run_bind E. run_bind Ht.
  eexists. split; [reflexivity|]. split_and!.
  - apply touch_wf; [done|]. left. rewrite (ef_armed _ _ _ _ _ He). tauto.
  - by apply effect_touch.
  - cbn. by rewrite lookup_insert_eq.
Qed.

Lemma arm_locked_spec s t r d p : wf_wheel s -> timers s !! t = Some r ->
  let r' := set_deadline (bump_gen (set_idx r (-1))) d p in
  exists ok s', arm_locked s t d p = Some (ok, s') /\ wf_wheel s' /\
    core (timers s' !! t) = core (Some r') /\
    if ok : bool
    then effect s s' t (s_count s - live s t + 1) (fun x => x ∈ armed s \/ x = t)
    else s_count s = s_cap s /\ (t ∉ armed s) /\ effect s s' t (s_count s) (fun x => x ∈ armed s).
Proof.
  intros Hwf Hr r'. unfold arm_locked.
  destruct (detach_spec s t r Hwf Hr) as (s1 & E & Hwf1 & He & Ht). run_bind E. run_bind Ht.
  fold r'. set (s2 := with_timer s1 t r').
  assert (t ∉ armed s1) as Hno by (rewrite (ef_armed _ _ _ _ _ He); tauto).
  assert (wf_wheel s2) as Hwf2 by (apply touch_wf; auto).
  assert (effect s s2 t (s_count s - live s t) (fun x => x ∈ armed s /\ x <> t)) as He2
    by by apply effect_touch.
  assert (timers s2 !! t = Some r') as Ht2 by (cbn; by rewrite lookup_insert_eq).
  destruct (heap_insert_spec s2 t r' Hwf2 Hno Ht2) as [[Hfull ->]|(Hroom & s3 & -> & Hwf3 & Hb)].
  - exists false, s2. rewrite (ef_cap _ _ _ _ _ He2), (ef_count _ _ _ _ _ He2) in Hfull.
    pose proof (sh_count _ (ww_shape _ Hwf)). unfold live in *.
    case_bool_decide as Hns; [lia|]. split_and!; try done; [by rewrite Ht2|lia|].
    destruct He2 as [C N A T O]. constructor; try done; [lia|].
    intros x. rewrite A. split; [tauto|]. intros Hx. split; [done|]. by intros ->.
  - exists true, s3. split_and!; try done; [by rewrite (bc_core _ _ _ _ Hb), Ht2|].
    pose proof (became_effect _ _ _ _ t Hb ltac:(intros x; cbn beta; tauto)) as He3.
    pose proof (effect_trans _ _ _ _ _ _ _ _ He2 He3 ltac:(intros x; cbn beta; tauto)) as [C N A T O].
    constructor; try done.
    + rewrite N, (ef_count _ _ _ _ _ He2). lia.
    + intros x. rewrite A, (ef_armed _ _ _ _ _ He2). destruct (decide (x = t)); tauto.
Qed.

(** ** Storage *)

(** Other storage with the same live cells. *)
Lemma restore_spec s s' : wf_wheel s -> s_count s' = s_count s -> timers s' = timers s ->
  Z.of_nat (length (s_heap s')) = s_cap s' ->
  Z.of_nat (length (s_boot_heap s')) = TIMER_HEAP_BOOT_CAP ->
  s_cap s' ∈ [1024; 2048; 4096; 8192; 16384; 32768; 65536] -> s_count s <= s_cap s' ->
  (forall i, 0 <= i < s_count s -> geti (s_heap s') i = geti (s_heap s) i) ->
  wf_wheel s' /\ (forall t, t ∈ armed s' <-> t ∈ armed s).
Proof.
  intros [Hs Ho] N T L B C Hroom Hg. pose proof Hs as [Hl Hb Hc Hn Hcells].
  assert (shape s') as Hs'.
  { constructor; rewrite ?N, ?T; try done; [lia|]. intros i Hi. rewrite Hg by done. by apply Hcells. }
  assert (forall i, 0 <= i < s_count s -> key s' i = key s i) as Hk.
  { intros i Hi. unfold key, deadline_at. by rewrite Hg, T. }
  split.
  - split; [done|]. intros i Hi. rewrite N in Hi. assert (0 <= parent i < i) by (unfold parent; zlia).
    rewrite !Hk by lia. by apply Ho.
  - intros t. rewrite !elem_of_armed, N by done.
    split; intros (i & Hi & Ht); exists i; (split; [done|]); [by rewrite <- Hg|by rewrite Hg].
Qed.

Lemma memcpy_cells (old fresh : list Z) n : 0 <= n -> n <= Z.of_nat (length old) ->
  n <= Z.of_nat (length fresh) ->
  let h := take (Z.to_nat n) old ++ drop (Z.to_nat n) fresh in
  length h = length fresh /\ forall i, 0 <= i < n -> geti h i = geti old i.
Proof.
  intros Hn Ho Hf h. split.
  - unfold h. rewrite length_app, length_take, length_drop. lia.
  - intros i Hi. unfold h, geti. destruct (Z.ltb_spec i 0); [lia|].
    rewrite lookup_app_l by (rewrite length_take; lia). apply lookup_take_lt. lia.
Qed.

Lemma adopt_grown_spec s have fresh : wf_wheel s -> have * 2 <= TIMER_HEAP_MAX_CAP ->
  Z.of_nat (length fresh) = have * 2 ->
  let s' := adopt_grown s have fresh in
  wf_wheel s' /\ (forall t, t ∈ armed s' <-> t ∈ armed s) /\ timers s' = timers s /\
  s_count s' = s_count s /\ (s_cap s = have -> s_cap s' = have * 2).
Proof.
  intros Hwf Hmax Hlen s'. pose proof (ww_shape _ Hwf) as Hs. pose proof (cap_bounds s Hs).
  pose proof (sh_count _ Hs) as Hn. pose proof (sh_len _ Hs) as Hl. unfold s', adopt_grown.
  destruct (Z.eqb_spec (s_cap s) have) as [<-|]; [|done]. rewrite (u32_small (_ * 2)) by lia.
  destruct (memcpy_cells (s_heap s) fresh (s_count s) ltac:(lia) ltac:(lia) ltac:(lia)) as [Hh Hg].
  split_and!; try done; apply (restore_spec s _ Hwf); try done; cbn; try lia;
    try apply (sh_boot _ Hs).
  all: pose proof (sh_cap _ Hs) as Hc; revert Hc; unfold TIMER_HEAP_MAX_CAP in Hmax; clear -Hmax;
    rewrite !list_elem_of_In; cbn; lia.
Qed.

Lemma adopt_trimmed_spec s cap fresh : wf_wheel s -> TIMER_HEAP_BOOT_CAP < cap ->
  match fresh with
  | None => trim_target cap = TIMER_HEAP_BOOT_CAP
  | Some f => Z.of_nat (length f) = trim_target cap
  end ->
  let s' := (adopt_trimmed s cap fresh).2 in
  wf_wheel s' /\ (forall t, t ∈ armed s' <-> t ∈ armed s) /\ timers s' = timers s /\
  s_count s' = s_count s /\ s_cap s' <= s_cap s.
Proof.
  intros Hwf Hcap Hlen s'. pose proof (ww_shape _ Hwf) as Hs. pose proof (cap_bounds s Hs).
  pose proof (sh_count _ Hs) as Hn. pose proof (sh_len _ Hs) as Hl. unfold s', adopt_trimmed.
  destruct (Z.eqb_spec (s_cap s) cap) as [<-|]; [|done].
  destruct (Z.leb_spec (s_count s) (trim_target (s_cap s) / 2)) as [Hc|]; [|done]. cbn [andb snd].
  assert (trim_target (s_cap s) = s_cap s / 2 /\
    trim_target (s_cap s) ∈ [1024; 2048; 4096; 8192; 16384; 32768; 65536]) as [Ht Hin].
  { pose proof (sh_cap _ Hs) as Hx. revert Hx Hcap. clear. generalize (s_cap s) as c. intros c Hx Hcap.
    rewrite !list_elem_of_In in *. cbn in Hx.
    repeat destruct Hx as [<-|Hx]; [by vm_compute in Hcap| | | | | | |done];
      (split; [by vm_compute|vm_compute; tauto]). }
  assert (0 <= s_count s <= trim_target (s_cap s)) as Hfit by (rewrite Ht in *; zlia).
  destruct fresh as [f|].
  - destruct (memcpy_cells (s_heap s) f (s_count s) ltac:(lia) ltac:(lia) ltac:(lia)) as [Hh Hg].
    split_and!; try done; [| |cbn; rewrite Ht; zlia];
      apply (restore_spec s _ Hwf); try done; cbn; try lia; apply (sh_boot _ Hs).
  - pose proof (sh_boot _ Hs) as Hb. unfold TIMER_HEAP_BOOT_CAP in *.
    destruct (memcpy_cells (s_heap s) (s_boot_heap s) (s_count s) ltac:(lia) ltac:(lia) ltac:(lia)) as [Hh Hg].
    split_and!; try done; [| |cbn; rewrite Ht; zlia];
      apply (restore_spec s _ Hwf); try done; cbn; unfold TIMER_HEAP_BOOT_CAP; try lia.
Qed.

(** ** Arming with growth *)

(** What [arm] leaves in the timer, its generation and index apart. *)
Definition armed_as (s s' : wheel) (t d p : Z) : Prop :=
  exists r r', timers s !! t = Some r /\ timers s' !! t = Some r' /\
    deadline_ns r' = d /\ period_ns r' = p /\ fn r' = fn r /\ arg r' = arg r.

Lemma core_Some (o : option timer_t) r : core o = core (Some r) ->
  exists r', o = Some r' /\ deadline_ns r' = deadline_ns r /\ period_ns r' = period_ns r /\
    fn r' = fn r /\ arg r' = arg r /\ gen r' = gen r /\ fire_pending r' = fire_pending r.
Proof. destruct o as [r'|]; [|done]. cbn. intros [=]. eauto 10. Qed.

Lemma arm_result s t r d p : wf_wheel s -> timers s !! t = Some r ->
  exists ok s', arm_locked s t d p = Some (ok, s') /\ wf_wheel s' /\ armed_as s s' t d p /\
    if ok : bool
    then effect s s' t (s_count s - live s t + 1) (fun x => x ∈ armed s \/ x = t) /\ 0 < s_count s'
    else s_count s = s_cap s /\ (t ∉ armed s) /\ effect s s' t (s_count s) (fun x => x ∈ armed s).
Proof.
  intros Hwf Hr. destruct (arm_locked_spec s t r d p Hwf Hr) as (ok & s' & E & Hwf' & Hc & He).
  exists ok, s'. split; [done|]. split; [done|]. split.
  - apply core_Some in Hc as (r' & Hr' & ? & ? & ? & ? & _). exists r, r'. split_and!; done.
  - destruct ok; [|done]. split; [done|]. pose proof (sh_count _ (ww_shape _ Hwf)).
    assert (t ∈ armed s') as Hin by (apply (ef_armed _ _ _ _ _ He); by right).
    apply elem_of_armed in Hin as (i & Hi & _); [lia|apply Hwf'].
Qed.

Definition grow_fails (s : wheel) (allocs : list (option (list Z))) : Prop :=
  TIMER_HEAP_MAX_CAP < s_cap s * 2 \/ allocs = [] \/ head allocs = Some None.

Lemma arm_with_growth_spec allocs s t r d p : wf_wheel s -> timers s !! t = Some r ->
  (forall f rest, allocs = Some f :: rest -> Z.of_nat (length f) = s_cap s * 2) ->
  exists ok first s', arm_with_growth allocs s t d p = Some (ok, first, s') /\ wf_wheel s' /\
    armed_as s s' t d p /\ (forall x, x <> t -> core (timers s' !! x) = core (timers s !! x)) /\
    if ok : bool
    then (forall x, x ∈ armed s' <-> x ∈ armed s \/ x = t) /\ (first = true <-> geti (s_heap s') 0 = Some t)
    else first = false /\ (forall x, x ∈ armed s' <-> x ∈ armed s) /\ (t ∉ armed s) /\
         s_count s = s_cap s /\ grow_fails s allocs.
Proof.
  intros Hwf Hr Hal.
  assert (forall al, arm_with_growth al s t d p = '(ok, s1) ← arm_locked s t d p;
    if ok : bool then x ← geti (s_heap s1) 0; Some (true, x =? t, s1)
    else match al with
         | [] => Some (false, false, s1)
         | a :: rest => let '(grown, s2) := heap_try_grow s1 a in
             if grown then arm_with_growth rest s2 t d p else Some (false, false, s2)
         end) as Hun by (intros []; done).
  rewrite Hun. clear Hun.
  destruct (arm_result s t r d p Hwf Hr) as (ok & s1 & E & Hwf1 & Ha & He). run_bind E. destruct ok.
  - destruct He as [He Hpos]. destruct (sh_cells _ (ww_shape _ Hwf1) 0) as (x & _ & Hx & _); [lia|].
    run_bind Hx. exists true, (x =? t), s1. split_and!; try done; [apply He|apply He|].
    rewrite Hx, Z.eqb_eq. split; congruence.
  - destruct He as (Hfull & Hno & He).
    assert (s_cap s1 = s_cap s) as C by apply He.
    assert (grow_fails s allocs -> forall s2, s2 = s1 -> exists ok first s',
      Some (false, false, s2) = Some (ok, first, s') /\ wf_wheel s' /\ armed_as s s' t d p /\
      (forall x, x <> t -> core (timers s' !! x) = core (timers s !! x)) /\
      if ok : bool then (forall x, x ∈ armed s' <-> x ∈ armed s \/ x = t) /\
                        (first = true <-> geti (s_heap s') 0 = Some t)
      else first = false /\ (forall x, x ∈ armed s' <-> x ∈ armed s) /\ (t ∉ armed s) /\
         s_count s = s_cap s /\ grow_fails s allocs) as Hfail.
    { intros Hg s2 ->. exists false, false, s1. split_and!; try done; apply He. }
    destruct allocs as [|a rest]; [apply Hfail; [right; by left|done]|].
    unfold heap_try_grow. rewrite C. pose proof (cap_bounds s (ww_shape _ Hwf)).
    rewrite (u32_small (_ * 2)) by lia.
    destruct (Z.ltb_spec TIMER_HEAP_MAX_CAP (s_cap s * 2)); [apply Hfail; [by left|done]|].
    destruct a as [f|]; [|apply Hfail; [right; by right|done]].
    destruct (adopt_grown_spec s1 (s_cap s) f Hwf1 ltac:(lia) (Hal _ _ eq_refl))
      as (Hwf2 & A2 & T2 & N2 & C2). specialize (C2 C). set (s2 := adopt_grown s1 (s_cap s) f) in *.
    destruct Ha as (r0 & r1 & Hr0 & Hr1 & Hd1 & Hp1 & Hf1 & Hg1). assert (r0 = r) as -> by congruence.
    rewrite <- T2 in Hr1.
    destruct (arm_result s2 t r1 d p Hwf2 Hr1) as (ok2 & s3 & E3 & Hwf3 & Ha3 & He3).
    assert (s_count s2 = s_count s) as N by (rewrite N2; apply He).
    destruct ok2.
    2: { destruct He3 as (Hf & _). lia. }
    destruct He3 as [He3 Hpos]. destruct rest as [|b rest]; cbn [arm_with_growth]; run_bind E3;
      (destruct (sh_cells _ (ww_shape _ Hwf3) 0) as (x & _ & Hx & _); [lia|]);
      run_bind Hx; exists true, (x =? t), s3; (split; [done|]; split; [done|]; split;
      [destruct Ha3 as (r2 & r3 & Hr2 & Hr3 & ? & ? & ? & ?); assert (r2 = r1) as -> by congruence;
       exists r, r3; split_and!; congruence|]);
      (split; [intros y Hy; rewrite (ef_core _ _ _ _ _ He3), T2 by done; by apply He|]);
      (split; [intros y; rewrite (ef_armed _ _ _ _ _ He3), A2, (ef_armed _ _ _ _ _ He); done|]);
      rewrite Hx, Z.eqb_eq; (split; congruence).
Qed.

(** ** The drain *)

Lemma head_minimal s i : wf_wheel s -> 0 <= i < s_count s -> key s 0 <= key s i.
Proof.
  intros [Hs Ho] [Hi0 Hi]. revert Hi.
  revert i Hi0. apply (Zlt_0_ind (fun j => j < s_count s -> key s 0 <= key s j)).
  intros i IH Hi0 Hi. destruct (Z.eq_dec i 0) as [->|]; [lia|].
  assert (0 <= parent i < i) as Hp by (unfold parent; zlia).
  pose proof (IH (parent i) ltac:(lia) ltac:(lia)). pose proof (Ho i ltac:(lia)). lia.
Qed.

Definition deadline_of (s : wheel) (t : Z) : Z := default 0 (deadline_ns <$> timers s !! t).

Lemma armed_minimal s t : wf_wheel s -> t ∈ armed s -> 0 < s_count s /\ key s 0 <= deadline_of s t.
Proof.
  intros Hwf (i & Hi & Ht)%elem_of_armed; [|apply Hwf].
  destruct (cell_of s i t (ww_shape _ Hwf) Hi Ht) as (r & Hr & _). split; [lia|].
  unfold deadline_of. rewrite Hr. cbn. rewrite <- (key_cell s i t r Ht Hr). by apply head_minimal.
Qed.

(** One turn of the drain. *)
Lemma drain_pop_spec s now : wf_wheel s ->
  (drain_pop s now = Some (None, s) /\ (forall x, x ∈ armed s -> now < deadline_of s x)) \/
  exists t r s1 r1, drain_pop s now = Some (Some (t, gen r), s1) /\ wf_wheel s1 /\
    (t ∈ armed s) /\ timers s !! t = Some r /\ deadline_ns r <= now /\
    (forall x, x ∈ armed s -> deadline_ns r <= deadline_of s x) /\
    timers s1 !! t = Some r1 /\
    core (Some r1) = core (Some (set_pending (if period_ns r =? 0 then set_deadline r 0 0 else rearm r now) 1)) /\
    (forall x, x <> t -> core (timers s1 !! x) = core (timers s !! x)) /\
    (forall x, x ∈ armed s1 <-> x ∈ armed s /\ (x = t -> period_ns r <> 0)) /\
    s_cap s1 = s_cap s.
Proof.
  intros Hwf. pose proof (ww_shape _ Hwf) as Hs. pose proof (sh_count _ Hs) as Hn. unfold drain_pop.
  destruct (Z.leb_spec (s_count s) 0) as [|Hpos].
  { left. split; [done|]. intros x Hx%armed_minimal; [lia|done]. }
  rewrite (bind_eq _ _ _ (deadline_key s 0 Hs ltac:(lia))). cbn beta.
  destruct (Z.ltb_spec now (key s 0)) as [Hlt|Hdue].
  { left. split; [done|]. intros x Hx. pose proof (armed_minimal s x Hwf Hx). lia. }
  right. destruct (sh_cells _ Hs 0 ltac:(lia)) as (t & r & Ht & Hr & _). run_bind Ht. run_bind Hr.
  pose proof (key_cell s 0 t r Ht Hr) as Hk.
  assert (t ∈ armed s) as Hin by (apply elem_of_armed; [done|]; exists 0; split; [lia|done]).
  assert (forall x, x ∈ armed s -> deadline_ns r <= deadline_of s x) as Hmin
    by (intros x Hx; pose proof (armed_minimal s x Hwf Hx); lia).
  destruct (heap_remove_at_spec s 0 t Hwf ltac:(lia) Ht) as (r' & s1 & Hr' & E & Hwf1 & Hb & Ht1).
  assert (r' = r) as -> by congruence. run_bind E. run_bind Ht1.
  assert (t ∉ armed s1) as Hno by (rewrite (bc_armed _ _ _ _ Hb); tauto).
  change (period_ns (set_idx r (-1))) with (period_ns r).
  destruct (Z.eqb_spec (period_ns r) 0) as [Hz|Hz]; cbn [negb].
  - rewrite (bind_eq _ _ _ eq_refl). set (r1 := set_deadline (set_idx r (-1)) 0 (period_ns (set_idx r (-1)))).
    rewrite (bind_eq _ r1) by (cbn; by rewrite lookup_insert_eq).
    exists t, r, (with_timer (with_timer s1 t r1) t (set_pending r1 1)), (set_pending r1 1).
    split; [reflexivity|]. split_and!; [|exact Hin|exact Hr|lia|exact Hmin| | | | |apply Hb].
    + apply touch_wf; [apply touch_wf; [done|]|]; left; exact Hno.
    + apply lookup_insert_eq.
    + unfold r1. cbn. by rewrite Hz.
    + intros x Hx. cbn. rewrite !lookup_insert_ne by done. apply Hb.
    + intros x. change (armed (with_timer (with_timer s1 t r1) t (set_pending r1 1))) with (armed s1).
      rewrite (bc_armed _ _ _ _ Hb). destruct (decide (x = t)); tauto.
  - set (r1 := rearm (set_idx r (-1)) now). set (s2 := with_timer s1 t r1).
    assert (wf_wheel s2) as Hwf2 by (apply touch_wf; auto).
    destruct (heap_insert_spec s2 t r1 Hwf2 Hno) as [[Hf _]|(_ & s3 & -> & Hwf3 & Hb3)];
      [cbn; by rewrite lookup_insert_eq| |].
    { change (s_cap s1 = s_count s1) in Hf. rewrite (bc_cap _ _ _ _ Hb), (bc_count _ _ _ _ Hb) in Hf. lia. }
    rewrite (bind_eq _ s3) by reflexivity.
    pose proof (bc_core _ _ _ _ Hb3 t) as Hc. cbn [timers s2 with_timer] in Hc.
    rewrite lookup_insert_eq in Hc. destruct (core_Some _ _ Hc) as (r2 & Hr2 & Ed & Ep & Ef & Ea & Eg & _). run_bind Hr2.
    exists t, r, (with_timer s3 t (set_pending r2 1)), (set_pending r2 1).
    split; [reflexivity|]. split_and!; [|exact Hin|exact Hr|lia|exact Hmin| | | | |].
    + apply touch_wf; [done|]. right. by exists r2.
    + apply lookup_insert_eq.
    + rewrite (proj2 (Z.eqb_neq _ _) Hz). unfold core, option_map, set_pending, set_idx. cbn [deadline_ns period_ns fn arg heap_idx gen].
      by rewrite Ed, Ep, Ef, Ea, Eg.
    + intros x Hx. cbn. rewrite lookup_insert_ne by done. rewrite (bc_core _ _ _ _ Hb3).
      cbn. rewrite lookup_insert_ne by done. apply Hb.
    + intros x. change (armed (with_timer s3 t (set_pending r2 1))) with (armed s3).
      rewrite (bc_armed _ _ _ _ Hb3). change (armed s2) with (armed s1). rewrite (bc_armed _ _ _ _ Hb).
      destruct (decide (x = t)) as [->|]; tauto.
    + cbn. rewrite (bc_cap _ _ _ _ Hb3). apply Hb.
Qed.

Definition due (s : wheel) (now x : Z) : Prop := x ∈ armed s /\ deadline_of s x <= now.

(** No period carries [now] past 2^64 nanoseconds, 584 years. *)
Record tick_ok (now : Z) (s : wheel) : Prop := {
  tk_wf : wf_wheel s;
  tk_period : forall t r, timers s !! t = Some r ->
    0 <= period_ns r < 0x10000000000000000 - now
}.

(** What the drain needs of a callback: it runs to the end, frees no timer, and leaves no
    timer due that was not due before it. *)
Definition callback_ok (now : Z) (cb : Z -> wheel -> option wheel) : Prop :=
  forall t s, tick_ok now s -> is_Some (timers s !! t) ->
  exists s', cb t s = Some s' /\ tick_ok now s' /\
    (forall x, is_Some (timers s !! x) -> is_Some (timers s' !! x)) /\
    (forall x, due s' now x -> due s now x).

Lemma rearm_future r now : 0 <= now -> 0 < period_ns r < 0x10000000000000000 - now ->
  now < deadline_ns (rearm r now).
Proof.
  intros Hn Hp. unfold rearm. cbn.
  destruct (Z.leb_spec (u64 (deadline_ns r + period_ns r)) now); [|done]. rewrite u64_small; lia.
Qed.

Lemma core_deadline s s' x : core (timers s' !! x) = core (timers s !! x) ->
  deadline_of s' x = deadline_of s x.
Proof.
  unfold deadline_of. destruct (timers s' !! x), (timers s !! x); cbn; try done. by intros [=].
Qed.

(** Popping takes exactly the head off what is due. *)
Lemma pop_due s now t r s1 r1 : 0 <= now -> tick_ok now s -> timers s !! t = Some r ->
  timers s1 !! t = Some r1 ->
  core (Some r1) = core (Some (set_pending (if period_ns r =? 0 then set_deadline r 0 0 else rearm r now) 1)) ->
  (forall x, x <> t -> core (timers s1 !! x) = core (timers s !! x)) ->
  (forall x, x ∈ armed s1 <-> x ∈ armed s /\ (x = t -> period_ns r <> 0)) ->
  wf_wheel s1 ->
  tick_ok now s1 /\ (forall x, due s1 now x <-> due s now x /\ x <> t).
Proof.
  intros Hn0 [Hwf Hper] Hr Hr1 Hc Hoth Harm Hwf1. pose proof (Hper t r Hr) as Hp.
  apply core_Some in Hc as (r2 & Hx & Ed & Ep & _). injection Hx as <-. split.
  - split; [done|]. intros x rx Hrx. destruct (decide (x = t)) as [->|Hne].
    + assert (rx = r1) as -> by congruence. rewrite Ep. destruct (Z.eqb_spec (period_ns r) 0); cbn; lia.
    + specialize (Hoth x Hne). rewrite Hrx in Hoth. symmetry in Hoth.
      apply core_Some in Hoth as (r0 & Hr0 & _ & E & _). rewrite <- E. by eapply Hper.
  - intros x. unfold due. rewrite Harm. destruct (decide (x = t)) as [->|Hne].
    + split; [|by intros [_ ?]]. intros [[_ Hne] Hd]. exfalso. specialize (Hne eq_refl).
      unfold deadline_of in Hd. rewrite Hr1 in Hd. cbn in Hd. rewrite Ed in Hd.
      rewrite (proj2 (Z.eqb_neq _ _) Hne) in Hd. pose proof (rearm_future r now Hn0 ltac:(lia)).
      cbn in *. lia.
    + rewrite (core_deadline s s1 x) by auto. tauto.
Qed.

Lemma fire_end_spec now s r t : tick_ok now s -> timers s !! t = Some r ->
  tick_ok now (with_timer s t (set_pending r 0)) /\
  (forall x, due (with_timer s t (set_pending r 0)) now x <-> due s now x).
Proof.
  intros [Hwf Hp] Hr. split.
  - split; [apply touch_wf; [done|]; right; by exists r|]. intros x rx. cbn.
    destruct (decide (x = t)) as [->|]; [|rewrite lookup_insert_ne by done; apply Hp].
    rewrite lookup_insert_eq. intros [= <-]. cbn. by eapply Hp.
  - intros x. unfold due. change (armed (with_timer s t (set_pending r 0))) with (armed s).
    unfold deadline_of. cbn. destruct (decide (x = t)) as [->|]; [|by rewrite lookup_insert_ne].
    by rewrite lookup_insert_eq, Hr.
Qed.

Lemma drain_spec fuel cb now : 0 <= now -> callback_ok now cb -> forall D s, NoDup D ->
  tick_ok now s -> (forall x, due s now x -> x ∈ D) -> (length D < fuel)%nat ->
  exists l s', timer_on_tick fuel cb s now = Some (l, s') /\ tick_ok now s' /\
    (forall x, x ∈ armed s' -> now < deadline_of s' x) /\ NoDup l /\ (forall x, x ∈ l -> due s now x).
Proof.
  intros Hn0 Hcb. induction fuel as [|fuel IH]; intros D s HD Hok Hdue Hlen; [lia|]. cbn [timer_on_tick].
  destruct (drain_pop_spec s now (tk_wf _ _ Hok))
    as [[E Hnone]|(t & r & s1 & r1 & E & Hwf1 & Hin & Hr & Hd & _ & Hr1 & Hc & Hoth & Harm & _)]; run_bind E.
  { exists [], s. split_and!; try done; [constructor|by intros x ?%not_elem_of_nil]. }
  destruct (pop_due s now t r s1 r1 Hn0 Hok Hr Hr1 Hc Hoth Harm Hwf1) as [Hok1 Hdue1].
  assert (due s now t) as Hdt by (split; [done|]; unfold deadline_of; by rewrite Hr).
  destruct (Hcb t s1 Hok1 ltac:(by eexists)) as (s2 & Ec & Hok2 & Hdom & Hdue2).
  destruct (Hdom t ltac:(by eexists)) as [r2 Hr2].
  apply core_Some in Hc as (r1' & Hx & _ & _ & _ & _ & Hg & _). injection Hx as <-.
  assert (gen r1 = gen r) as Hgen by (rewrite Hg; by destruct (period_ns r =? 0)).
  unfold drain_fire. run_bind Hr1. rewrite Hgen, Z.eqb_refl. run_bind Ec. run_bind Hr2.
  destruct (fire_end_spec now s2 r2 t Hok2 Hr2) as [Hok3 Hdue3]. set (s3 := with_timer s2 t _) in *.
  destruct (proj1 (elem_of_Permutation D t) (Hdue t Hdt)) as [D' HD'].
  assert (NoDup D' /\ t ∉ D') as [HnD' Htn] by (rewrite HD' in HD; apply NoDup_cons in HD; tauto).
  assert (length D = S (length D')) as HlD by (by rewrite HD').
  destruct (IH D' s3) as (l & s' & El & Hok' & Hnone & Hnd & Hl); try done; [|lia|].
  { intros x Hx. apply Hdue3, Hdue2, Hdue1 in Hx as [Hx Hne]. apply Hdue in Hx.
    rewrite HD' in Hx. by apply elem_of_cons in Hx as [->|?]. }
  rewrite (bind_eq _ _ _ eq_refl). cbn beta. run_bind El. exists (t :: l), s'. split_and!; try done.
  - apply NoDup_cons. split; [|done]. intros Hx%Hl%Hdue3%Hdue2%Hdue1. tauto.
  - intros x [->|Hx]%elem_of_cons; [done|]. apply Hl, Hdue3, Hdue2, Hdue1 in Hx. tauto.
Qed.

(** With callbacks that touch no timer the drain is exact. *)
#[local] Instance due_dec s now x : Decision (due s now x).
Proof. unfold due. apply _. Defined.

Definition fired (r : timer_t) (now : Z) : timer_t :=
  if period_ns r =? 0 then set_deadline r 0 0 else rearm r now.

Lemma core_fired r r' now : core (Some r) = core (Some r') ->
  core (Some (set_pending (fired r now) 0)) = core (Some (set_pending (fired r' now) 0)).
Proof.
  destruct r, r'. unfold fired. cbn. intros [=]; subst. by destruct (_ =? 0).
Qed.

Lemma core_set_pending r r' p : core (Some r) = core (Some r') ->
  core (Some (set_pending r p)) = core (Some (set_pending r' p)).
Proof. destruct r, r'. cbn. by intros [=]; subst. Qed.

(** The fate of one timer in a drain at [now]. *)
Definition fate (s s' : wheel) (now x : Z) : Prop :=
  core (timers s' !! x) =
  core (if bool_decide (due s now x) then (fun r => set_pending (fired r now) 0) <$> timers s !! x
        else timers s !! x).

(** One turn of a drain whose callbacks touch no timer: [s3] is [s] with its head fired. *)
Record turned (now : Z) (s s3 : wheel) (t : Z) : Prop := {
  tu_due : due s now t;
  tu_min : forall x, due s now x -> deadline_of s t <= deadline_of s x;
  tu_ok : tick_ok now s3;
  tu_rest : forall x, due s3 now x <-> due s now x /\ x <> t;
  tu_fired : exists r, timers s !! t = Some r /\
    core (timers s3 !! t) = core (Some (set_pending (fired r now) 0));
  tu_core : forall x, x <> t -> core (timers s3 !! x) = core (timers s !! x);
  tu_armed : forall x, x ∈ armed s3 <-> x ∈ armed s /\
    (x = t -> forall r, timers s !! x = Some r -> period_ns r <> 0)
}.

Lemma drain_turn s now : 0 <= now -> tick_ok now s ->
  (drain_pop s now = Some (None, s) /\ forall x, ~ due s now x) \/
  exists t s3, turned now s s3 t /\ forall f,
    timer_on_tick (S f) (fun _ s => Some s) s now =
    '(l, s') ← timer_on_tick f (fun _ s => Some s) s3 now; Some (t :: l, s').
Proof.
  intros Hn0 Hok. destruct (drain_pop_spec s now (tk_wf _ _ Hok))
    as [[E Hnone]|(t & r & s1 & r1 & E & Hwf1 & Hin & Hr & Hd & Hmin & Hr1 & Hc & Hoth & Harm & _)].
  { left. split; [done|]. intros x [Hx Hd]. pose proof (Hnone x Hx). lia. }
  right. destruct (pop_due s now t r s1 r1 Hn0 Hok Hr Hr1 Hc Hoth Harm Hwf1) as [Hok1 Hdue1].
  assert (gen r1 = gen r) as Hgen.
  { apply core_Some in Hc as (r1' & Hx & _ & _ & _ & _ & Hg & _). injection Hx as <-.
    rewrite Hg. by destruct (period_ns r =? 0). }
  destruct (fire_end_spec now s1 r1 t Hok1 Hr1) as [Hok3 Hdue3].
  assert (deadline_of s t = deadline_ns r) as Hdt by (unfold deadline_of; by rewrite Hr).
  exists t, (with_timer s1 t (set_pending r1 0)). split.
  - constructor; try done.
    + split; [done|]. lia.
    + intros x [Hx _]. rewrite Hdt. by apply Hmin.
    + intros x. by rewrite Hdue3, Hdue1.
    + exists r. split; [done|]. cbn [timers with_timer]. rewrite lookup_insert_eq. by apply (core_set_pending _ _ 0) in Hc.
    + intros x Hx. cbn. rewrite lookup_insert_ne by done. auto.
    + intros x. change (armed (with_timer s1 t (set_pending r1 0))) with (armed s1). rewrite Harm.
      split; intros [Hx Hp]; (split; [done|]); [|by intros ->; apply Hp].
      intros -> r' Hr'. assert (r' = r) as -> by congruence. by apply Hp.
  - intros f. cbn [timer_on_tick]. run_bind E. unfold drain_fire. run_bind Hr1.
    rewrite Hgen, Z.eqb_refl. rewrite (bind_eq _ _ _ eq_refl). by run_bind Hr1.
Qed.

Lemma sorted_ext (f g : Z -> Z) t l : (forall x, x <> t -> f x = g x) -> t ∉ l ->
  StronglySorted (fun x y => f x <= f y) l -> StronglySorted (fun x y => g x <= g y) l.
Proof.
  intros Hfg Hne Hs. induction Hs as [|x l Hs IHs Hf]; [constructor|].
  apply not_elem_of_cons in Hne as [Hx Hne]. constructor; [by apply IHs|].
  rewrite Forall_forall in *. intros y Hy. rewrite <- !Hfg by (congruence || by intros ->). by apply Hf.
Qed.

Lemma turned_fate now s s3 s' t x : turned now s s3 t -> fate s3 s' now x -> fate s s' now x.
Proof.
  intros [Hd _ _ Hrest [r [Hr Hf]] Hcore _]. unfold fate. intros ->. destruct (decide (x = t)) as [->|Hne].
  - rewrite bool_decide_eq_false_2 by (rewrite Hrest; tauto). rewrite bool_decide_eq_true_2 by done.
    by rewrite Hr.
  - assert (due s3 now x <-> due s now x) as Hiff by (rewrite Hrest; tauto).
    rewrite (bool_decide_ext _ _ Hiff). case_bool_decide; [|by apply Hcore].
    specialize (Hcore x Hne). revert Hcore.
    destruct (timers s3 !! x) as [a|], (timers s !! x) as [b|]; try done. apply core_fired.
Qed.

Lemma drain_quiet fuel now : 0 <= now -> forall D s, NoDup D -> tick_ok now s ->
  (forall x, due s now x <-> x ∈ D) -> (length D < fuel)%nat ->
  exists l s', timer_on_tick fuel (fun _ s => Some s) s now = Some (l, s') /\ tick_ok now s' /\
    Permutation l D /\ StronglySorted (fun x y => deadline_of s x <= deadline_of s y) l /\
    (forall x, fate s s' now x) /\
    (forall x, x ∈ armed s' <-> x ∈ armed s /\ (x ∈ D -> forall r, timers s !! x = Some r -> period_ns r <> 0)).
Proof.
  intros Hn0. induction fuel as [|fuel IH]; intros D s HD Hok Hdue Hlen; [lia|].
  destruct (drain_turn s now Hn0 Hok) as [[E Hno]|(t & s3 & Ht & E)].
  { cbn [timer_on_tick]. run_bind E. exists [], s.
    assert (D = []) as -> by (destruct D as [|x D]; [done|]; destruct (Hno x); apply Hdue; by left).
    split_and!; try done; [constructor| |].
    - intros x. unfold fate. by rewrite bool_decide_eq_false_2.
    - intros x. split; [|by intros [? _]]. intros Hx. split; [done|]. by intros ?%not_elem_of_nil. }
  destruct (proj1 (elem_of_Permutation D t) (proj1 (Hdue t) (tu_due _ _ _ _ Ht))) as [D' HD'].
  assert (NoDup D' /\ t ∉ D') as [HnD' Htn] by (rewrite HD' in HD; apply NoDup_cons in HD; tauto).
  assert (length D = S (length D')) as HlD by (by rewrite HD').
  assert (forall x, due s3 now x <-> x ∈ D') as Hdue'.
  { intros x. rewrite (tu_rest _ _ _ _ Ht), Hdue, HD', elem_of_cons. split; [tauto|].
    intros Hx. split; [by right|]. by intros ->. }
  destruct (IH D' s3) as (l & s' & El & Hok' & Hp & Hsort & Hfate & Harm');
    [done|apply Ht|done|lia|]. rewrite E. run_bind El. exists (t :: l), s'.
  split_and!; [done|done|by rewrite Hp, HD'| | |].
  - constructor.
    + apply (sorted_ext (deadline_of s3) _ t); [|by rewrite Hp|done].
      intros x Hx. by apply core_deadline, (tu_core _ _ _ _ Ht).
    + apply Forall_forall. intros x Hx. apply (tu_min _ _ _ _ Ht). apply Hdue. rewrite HD', <- Hp.
      by right.
  - intros x. by eapply turned_fate.
  - intros x. rewrite Harm', (tu_armed _ _ _ _ Ht), HD', elem_of_cons.
    destruct (decide (x = t)) as [->|Hne]; [tauto|]. pose proof (tu_core _ _ _ _ Ht x Hne) as Hc.
    assert ((forall r, timers s3 !! x = Some r -> period_ns r <> 0) <->
            (forall r, timers s !! x = Some r -> period_ns r <> 0)) as ->; [|tauto].
    split; intros Hpn r Hr; rewrite Hr in Hc; [|symmetry in Hc];
      apply core_Some in Hc as (r3 & Hr3 & _ & <- & _); by apply Hpn.
Qed.

(** ** Histories *)

(** One section under [s_lock], by any CPU; the label is the timer whose episode it
    ends, if any. *)
Inductive wheel_step : option Z -> wheel -> wheel -> Prop :=
  | ws_arm s t d p ok s' : arm_locked s t d p = Some (ok, s') -> wheel_step (Some t) s s'
  | ws_cancel s t s' : timer_cancel s t = Some s' -> wheel_step (Some t) s s'
  | ws_grow s have fresh : have * 2 <= TIMER_HEAP_MAX_CAP -> Z.of_nat (length fresh) = have * 2 ->
      wheel_step None s (adopt_grown s have fresh)
  | ws_trim s cap fresh n s' : TIMER_HEAP_BOOT_CAP < cap ->
      match fresh with
      | None => trim_target cap = TIMER_HEAP_BOOT_CAP
      | Some f => Z.of_nat (length f) = trim_target cap
      end -> adopt_trimmed s cap fresh = (n, s') -> wheel_step None s s'
  | ws_pop s now p s' : drain_pop s now = Some (p, s') -> wheel_step None s s'
  | ws_landed s t r : timers s !! t = Some r ->
      wheel_step None s (with_timer s t (set_pending r 0)).

(** Labels of a run, the last step first. *)
Inductive wheel_run (s0 : wheel) : list (option Z) -> wheel -> Prop :=
  | wr_nil : wheel_run s0 [] s0
  | wr_step ls s l s' : wheel_run s0 ls s -> wheel_step l s s' -> wheel_run s0 (l :: ls) s'.

(** The wheel at boot, over timers that [timer_init] has prepared. *)
Definition boot_wheel (ts : gmap Z timer_t) : wheel :=
  timer_subsystem_init (mk_wheel (replicate 1024 0) None TIMER_HEAP_BOOT_CAP 0 ts).

Lemma boot_wheel_wf ts : wf_wheel (boot_wheel ts).
Proof.
  split; [|intros i Hi; cbn in Hi; lia]. constructor.
  - by vm_compute.
  - by vm_compute.
  - by left.
  - cbn. unfold TIMER_HEAP_BOOT_CAP. lia.
  - cbn. lia.
Qed.

(** What a step does to the generation of [t]. *)
Definition gen_step (l : option Z) (t : Z) (s s' : wheel) : Prop :=
  forall r, timers s !! t = Some r -> exists r', timers s' !! t = Some r' /\
    gen r' = if bool_decide (l = Some t) then gen r ⊞ 1 else gen r.

Lemma gen_step_core t s s' : core (timers s' !! t) = core (timers s !! t) -> gen_step None t s s'.
Proof.
  intros Hc r Hr. rewrite Hr in Hc. apply core_Some in Hc as (r' & ? & _ & _ & _ & _ & ? & _). eauto.
Qed.

Lemma wheel_step_inv l s s' : wf_wheel s -> wheel_step l s s' ->
  wf_wheel s' /\ forall t, gen_step l t s s'.
Proof.
  intros Hwf Hst. destruct Hst as [s t d p ok s' E|s t s' E|s have fresh Hm Hl|s cap fresh n s' Hc Hl E
    |s now p s' E|s t r Hr].
  - assert (exists r, timers s !! t = Some r) as (r & Hr).
    { unfold arm_locked, detach_if_armed in E. by destruct (timers s !! t); [eexists|]. }
    destruct (arm_locked_spec s t r d p Hwf Hr) as (ok2 & s2 & E2 & Hwf2 & Hcore & He).
    rewrite E2 in E. injection E as <- <-. split; [done|]. intros x rx Hx.
    destruct (decide (x = t)) as [->|Hne].
    + rewrite bool_decide_eq_true_2 by done. assert (rx = r) as -> by congruence.
      apply core_Some in Hcore as (r' & Hr' & _ & _ & _ & _ & Hg & _). eauto.
    + rewrite bool_decide_eq_false_2 by congruence.
      assert (core (timers s2 !! x) = core (timers s !! x)) as Hcx by (destruct ok2; [by apply He|by apply He]).
      destruct (gen_step_core x s s2 Hcx rx Hx) as (r' & ? & Hg). eauto.
  - assert (exists r, timers s !! t = Some r) as (r & Hr).
    { unfold timer_cancel, detach_if_armed in E. by destruct (timers s !! t); [eexists|]. }
    destruct (cancel_spec s t r Hwf Hr) as (s2 & E2 & Hwf2 & He & Ht). assert (s' = s2) as -> by congruence.
    split; [done|]. intros x rx Hx. destruct (decide (x = t)) as [->|Hne].
    + rewrite bool_decide_eq_true_2 by done. assert (rx = r) as -> by congruence. eauto.
    + rewrite bool_decide_eq_false_2 by congruence.
      destruct (gen_step_core x s s2 (ef_core _ _ _ _ _ He x Hne) rx Hx) as (r' & ? & Hg). eauto.
  - destruct (adopt_grown_spec s have fresh Hwf Hm Hl) as (Hwf' & _ & T & _). split; [done|].
    intros x. apply gen_step_core. by rewrite T.
  - pose proof (adopt_trimmed_spec s cap fresh Hwf Hc Hl) as (Hwf' & _ & T & _).
    rewrite E in Hwf', T. cbn [snd] in Hwf', T.
    split; [done|]. intros x. apply gen_step_core. by rewrite T.
  - destruct (drain_pop_spec s now Hwf)
      as [[E2 _]|(t & r & s1 & r1 & E2 & Hwf1 & _ & Hr & _ & _ & Hr1 & Hc & Hoth & _)];
      rewrite E2 in E; injection E as <- <-; (split; [done|]); intros x rx Hx; [by eauto|].
    destruct (decide (x = t)) as [->|Hne].
    + assert (rx = r) as -> by congruence. apply core_Some in Hc as (r' & Hx' & _ & _ & _ & _ & Hg & _).
      injection Hx' as <-. exists r1. split; [done|]. rewrite Hg. by destruct (period_ns r =? 0).
    + by apply (gen_step_core x s s1 (Hoth x Hne)).
  - split; [apply touch_wf; [done|]; right; by exists r|]. intros x rx Hx. cbn.
    destruct (decide (x = t)) as [->|Hne]; [|rewrite lookup_insert_ne by done; eauto].
    rewrite lookup_insert_eq. assert (rx = r) as -> by congruence. by eexists.
Qed.

Lemma wheel_run_wf s0 ls s : wf_wheel s0 -> wheel_run s0 ls s -> wf_wheel s.
Proof. intros H0 Hr. induction Hr; [done|]. by eapply wheel_step_inv. Qed.

(** Episodes of [t] ended in a run. *)
Definition episodes (t : Z) (ls : list (option Z)) : Z :=
  Z.of_nat (length (filter (fun l => l = Some t) ls)).

Lemma run_gen s0 ls s t r : wf_wheel s0 -> wheel_run s0 ls s -> timers s0 !! t = Some r ->
  exists r', timers s !! t = Some r' /\
    gen r' = if episodes t ls =? 0 then gen r else u32 (gen r + episodes t ls).
Proof.
  intros H0 Hr Ht. induction Hr as [|ls s l s' Hrun IH Hst]; [by eauto|].
  destruct IH as (r1 & Hr1 & Hg1).
  destruct (wheel_step_inv l s s' (wheel_run_wf _ _ _ H0 Hrun) Hst) as [_ Hg].
  destruct (Hg t r1 Hr1) as (r2 & Hr2 & Hg2). exists r2. split; [done|]. rewrite Hg2, Hg1.
  unfold episodes. rewrite filter_cons. case_bool_decide as Hl.
  - rewrite decide_True by done. cbn [length]. set (n := length _).
    rewrite (proj2 (Z.eqb_neq (Z.of_nat (S n)) 0)) by lia.
    destruct (Z.eqb_spec (Z.of_nat n) 0); [f_equal; lia|]. rewrite u32_add_l. f_equal. lia.
  - by rewrite decide_False.
Qed.

(** ** The properties *)

(** C6: the timer heap under any interleaving of arms, cancels, growths, trims, drains and
    callback ends.  It stays a heap whose live cells and back indexes agree, no timer is
    in it twice, and the next deadline reported is the least armed one.  Arming any timer
    returns: with room it is armed with its deadline and nothing else changes; it is
    refused only when the heap is full, the timer is not in it and the storage cannot
    grow.  Cancelling takes out exactly that timer. *)
Theorem timer_histories ts ls s :
  wheel_run (boot_wheel ts) ls s ->
  wf_wheel s /\ NoDup (armed s) /\
  (exists d, timer_next_deadline_ns s = Some d /\
     (armed s = [] -> d = UINT64_MAX) /\
     (armed s <> [] -> exists t, t ∈ armed s /\ deadline_of s t = d) /\
     forall t, t ∈ armed s -> d <= deadline_of s t) /\
  (forall allocs t r d p, timers s !! t = Some r ->
     (forall f rest, allocs = Some f :: rest -> Z.of_nat (length f) = s_cap s * 2) ->
     exists ok first s', arm_with_growth allocs s t d p = Some (ok, first, s') /\
       armed_as s s' t d p /\ (forall x, x <> t -> core (timers s' !! x) = core (timers s !! x)) /\
       if ok : bool then forall x, x ∈ armed s' <-> x ∈ armed s \/ x = t
       else (forall x, x ∈ armed s' <-> x ∈ armed s) /\ (t ∉ armed s) /\
            s_count s = s_cap s /\ grow_fails s allocs) /\
  (forall t r, timers s !! t = Some r -> exists s', timer_cancel s t = Some s' /\
     (forall x, x ∈ armed s' <-> x ∈ armed s /\ x <> t) /\
     (forall x, x <> t -> core (timers s' !! x) = core (timers s !! x))).
Proof.
  intros Hrun. pose proof (wheel_run_wf _ _ _ (boot_wheel_wf ts) Hrun) as Hwf.
  pose proof (ww_shape _ Hwf) as Hs. pose proof (sh_count _ Hs) as Hn.
  split; [done|]. split; [by apply armed_NoDup|]. split; [|split].
  - unfold timer_next_deadline_ns. destruct (Z.ltb_spec 0 (s_count s)) as [Hpos|Hz].
    + rewrite (deadline_key s 0 Hs) by lia. exists (key s 0).
      destruct (sh_cells _ Hs 0 ltac:(lia)) as (t & r & Ht & Hr & _).
      assert (t ∈ armed s) as Hin by (apply elem_of_armed; [done|]; exists 0; split; [lia|done]).
      split_and!; [done|intros E; rewrite E in Hin; by apply not_elem_of_nil in Hin| |].
      * intros _. exists t. split; [done|]. unfold deadline_of. rewrite Hr. by rewrite (key_cell s 0 t r).
      * intros x Hx. by apply armed_minimal.
    + exists UINT64_MAX. assert (armed s = []) as E by (unfold armed; by rewrite Z2Nat.nonpos by lia).
      rewrite E. split_and!; try done. by intros t ?%not_elem_of_nil.
  - intros allocs t r d p Hr Hal.
    destruct (arm_with_growth_spec allocs s t r d p Hwf Hr Hal) as (ok & first & s' & E & _ & Ha & Hc & Hres).
    exists ok, first, s'. split_and!; try done. destruct ok; [apply Hres|]. tauto.
  - intros t r Hr. destruct (cancel_spec s t r Hwf Hr) as (s' & E & _ & He & _).
    exists s'. split; [done|]. split; apply He.
Qed.


(** C25: the drain of a tick is exact.  With callbacks that leave the timers alone, exactly
    the due timers fire, in the order of their deadlines; a one-shot leaves the heap, a
    periodic stays at its next deadline (its cadence, or one period from now when it had
    fallen behind), and no other timer changes. *)
Theorem timer_on_tick_exact s now :
  0 <= now -> tick_ok now s ->
  exists l s', timer_on_tick (S (Z.to_nat (s_count s))) (fun _ s => Some s) s now = Some (l, s') /\
    Permutation l (filter (due s now) (armed s)) /\
    StronglySorted (fun x y => deadline_of s x <= deadline_of s y) l /\
    (forall x, fate s s' now x) /\
    (forall x, x ∈ armed s' <-> x ∈ armed s /\
       (due s now x -> forall r, timers s !! x = Some r -> period_ns r <> 0)).
Proof.
  intros Hn Hok. pose proof (ww_shape _ (tk_wf _ _ Hok)) as Hs.
  assert (forall x, due s now x <-> x ∈ filter (due s now) (armed s)) as Hd.
  { intros x. rewrite list_elem_of_filter. split; [|tauto]. intros Hx. split; [done|apply Hx]. }
  destruct (drain_quiet (S (Z.to_nat (s_count s))) now Hn (filter (due s now) (armed s)) s)
    as (l & s' & E & _ & Hp & Hsort & Hf & Ha); try done.
  - by apply NoDup_filter, armed_NoDup.
  - pose proof (length_filter (due s now) (armed s)). unfold armed in * |-.
    rewrite length_take in *. unfold armed. lia.
  - exists l, s'. split_and!; try done. intros x. by rewrite Ha, Hd.
Qed.


(** ** Concrete runs *)

Definition two_timers : gmap Z timer_t := <[1 := timer_init 10 0]> (<[2 := timer_init 20 0]> ∅).
Definition step_to (o : option (bool * wheel)) : wheel := default (boot_wheel ∅) (snd <$> o).
Definition wheel1 : wheel := step_to (arm_locked (boot_wheel two_timers) 1 700 0).
Definition wheel2 : wheel := step_to (arm_locked wheel1 2 300 100).

Lemma wheel2_run : wheel_run (boot_wheel two_timers) [Some 2; Some 1] wheel2.
Proof.
  apply (wr_step _ [Some 1] wheel1); [apply (wr_step _ [] (boot_wheel two_timers)); [constructor|]|].
  - apply (ws_arm _ 1 700 0 true). by vm_compute.
  - apply (ws_arm _ 2 300 100 true). by vm_compute.
Qed.

Lemma wheel2_ok : tick_ok 350 wheel2.
Proof.
  split; [exact (wheel_run_wf _ _ _ (boot_wheel_wf _) wheel2_run)|]. intros t r.
  replace (timers wheel2) with (<[1 := mk_timer 700 0 10 0 1 1 0]>
    (<[2 := mk_timer 300 100 20 0 0 1 0]> (∅ : gmap Z timer_t))) by by vm_compute.
  rewrite !lookup_insert_Some, lookup_empty. intros [[_ <-]|(_ & [[_ <-]|(_ & [=])])]; cbn; lia.
Qed.

Lemma timer_histories_witness :
  wf_wheel wheel2 /\ timer_next_deadline_ns wheel2 = Some 300 /\
  exists s', timer_cancel wheel2 2 = Some s' /\ (2 ∉ armed s') /\ 1 ∈ armed s'.
Proof.
  destruct (timer_histories two_timers [Some 2; Some 1] wheel2 wheel2_run)
    as (Hwf & _ & _ & _ & Hcancel).
  split; [exact Hwf|]. split; [reflexivity|].
  destruct (timers wheel2 !! 2) as [r|] eqn:Hr; [|by vm_compute in Hr].
  destruct (Hcancel 2 r Hr) as (s' & E & Ha & _). exists s'. split; [exact E|].
  assert (armed wheel2 = [2; 1]) as Hl by by vm_compute.
  split; [intros [_ Hn]%Ha; by apply Hn|]. apply Ha. rewrite Hl. split; [|done]. right. by left.
Defined.


Lemma timer_on_tick_exact_witness :
  exists l s', timer_on_tick 3 (fun _ s => Some s) wheel2 350 = Some (l, s') /\ fate wheel2 s' 350 1 /\
    deadline_of s' 2 = 400.
Proof.
  destruct (timer_on_tick_exact wheel2 350 ltac:(lia) wheel2_ok) as (l & s' & E & _ & _ & Hf & _).
  change (S (Z.to_nat (s_count wheel2))) with 3%nat in E. exists l, s'. split; [exact E|].
  split; [exact (Hf 1)|].
  assert ((fun x => deadline_of x.2 2) <$> timer_on_tick 3 (fun _ s => Some s) wheel2 350 = Some 400) as Hc
    by by vm_compute.
  rewrite E in Hc. cbn in Hc. congruence.
Defined.

Definition popped : wheel := match drain_pop wheel2 350 with Some (_, s) => s | None => wheel2 end.
Definition cancelled : wheel := default wheel2 (timer_cancel popped 2).


(** A callback that re-arms its own timer in the past: timer.h has it fire at the next
    tick, but the same drain pops it again, for ever. *)
Definition rearm_in_the_past (t : Z) (s : wheel) : option wheel := snd <$> arm_locked s t 0 0.

Lemma drain_livelock fuel : forall s t now, 0 <= now -> wf_wheel s ->
  (forall x, x ∈ armed s <-> x = t) -> deadline_of s t <= now ->
  (forall r, timers s !! t = Some r -> period_ns r = 0) ->
  timer_on_tick fuel rearm_in_the_past s now = None.
Proof.
  induction fuel as [|fuel IH]; intros s t now Hn Hwf Ha Hd Hper; [done|]. cbn [timer_on_tick].
  destruct (drain_pop_spec s now Hwf)
    as [[E Hnone]|(t' & r & s1 & r1 & E & Hwf1 & Hin & Hr & _ & _ & Hr1 & Hc & _ & Harm & _)].
  { pose proof (Hnone t ltac:(by apply Ha)). lia. }
  run_bind E. apply Ha in Hin as ->. apply core_Some in Hc as (r1' & Hx & _ & _ & _ & _ & Hg & _).
  injection Hx as <-. assert (gen r1 = gen r) as Hgen by (rewrite Hg; by destruct (period_ns r =? 0)).
  assert (forall x, x ∉ armed s1) as Hnone.
  { intros x [Hx Hp]%Harm. apply Ha in Hx as ->. by apply (Hp eq_refl), Hper. }
  unfold drain_fire. run_bind Hr1. rewrite Hgen, Z.eqb_refl. change (rearm_in_the_past t s1) with (snd <$> arm_locked s1 t 0 0).
  destruct (arm_locked_spec s1 t r1 0 0 Hwf1 Hr1) as (ok & s2 & E2 & Hwf2 & Hc2 & He). rewrite E2.
  rewrite (bind_eq _ s2) by done. apply core_Some in Hc2 as (r2 & Hr2 & Hd2 & Hp2 & _). run_bind Hr2.
  rewrite (bind_eq _ _ _ eq_refl). cbn beta.
  destruct ok.
  2: { destruct He as (Hf & _). pose proof (cap_bounds s1 (ww_shape _ Hwf1)).
       destruct (sh_cells _ (ww_shape _ Hwf1) 0) as (x & _ & Hx & _); [lia|].
       exfalso. apply (Hnone x), elem_of_armed; [apply Hwf1|]. exists 0. split; [lia|done]. }
  rewrite (IH (with_timer s2 t (set_pending r2 0)) t now); try done.
  - apply touch_wf; [done|]. right. by exists r2.
  - intros x. change (armed (with_timer s2 t (set_pending r2 0))) with (armed s2).
    rewrite (ef_armed _ _ _ _ _ He). pose proof (Hnone x). split; [|by right]. by intros [?|?].
  - unfold deadline_of. cbn. rewrite lookup_insert_eq. cbn. rewrite Hd2. cbn. lia.
  - cbn. rewrite lookup_insert_eq. intros ? [= <-]. cbn. by rewrite Hp2.
Qed.

Remark past_deadline_livelock fuel : timer_on_tick fuel rearm_in_the_past wheel1 800 = None.
Proof.
  apply (drain_livelock fuel wheel1 1); [lia| | |by vm_compute|].
  - apply (wheel_run_wf (boot_wheel two_timers) [Some 1]); [apply boot_wheel_wf|].
    apply (wr_step _ [] (boot_wheel two_timers)); [constructor|].
    apply (ws_arm _ 1 700 0 true). by vm_compute.
  - replace (armed wheel1) with [1] by by vm_compute. intros x. apply list_elem_of_singleton.
  - intros r Hr. vm_compute in Hr. by injection Hr as <-.
Qed.
