(* ===== verification/Wait.v ===== *)
(** * Wait queues (kernel/proc/wait.c, and the two scheduler entries it relies on)

    Intrusive FIFO queues of threads, linked through [wq_next], with one sleep timer per
    thread.  The world holds the threads and the queues by address; [armed] are the
    threads whose sleep timer is armed and [ready] the threads handed to the run queues
    by [enqueue_home_and_kick], in order.  Each spinlock section is one function. *)

From S2P Require Import Prelude.

Definition WAIT_OK : Z := 0.
Definition WAIT_TIMEOUT : Z := 1.
Definition WAIT_CANCELLED : Z := 2.
Definition NULL : Z := 0.

Inductive thread_state_t :=
  | THREAD_READY | THREAD_RUNNING | THREAD_BLOCKED | THREAD_SLEEPING | THREAD_DEAD.

#[export] Instance thread_state_eq_dec : EqDecision thread_state_t.
Proof. solve_decision. Defined.

Record thread_t := mk_thread {
  state : thread_state_t;
  wq_next : Z;
  blocked_on : Z;
  wait_result : Z
}.

Record wait_queue_t := mk_wq { head : Z; tail : Z }.

Record world := mk_world {
  threads : gmap Z thread_t;
  queues : gmap Z wait_queue_t;
  armed : gset Z;
  ready : list Z
}.

Definition set_state (th : thread_t) (st : thread_state_t) : thread_t :=
  mk_thread st (wq_next th) (blocked_on th) (wait_result th).
Definition set_next (th : thread_t) (n : Z) : thread_t :=
  mk_thread (state th) n (blocked_on th) (wait_result th).
Definition set_blocked (th : thread_t) (q : Z) : thread_t :=
  mk_thread (state th) (wq_next th) q (wait_result th).
Definition set_result (th : thread_t) (r : Z) : thread_t :=
  mk_thread (state th) (wq_next th) (blocked_on th) r.

Definition clear_links (th : thread_t) : thread_t := set_blocked (set_next th NULL) NULL.

(** A store through a thread pointer; a wild pointer is [None]. *)
Definition upd_thread (w : world) (t : Z) (f : thread_t -> thread_t) : option world :=
  th ← threads w !! t;
  Some (mk_world (<[t := f th]> (threads w)) (queues w) (armed w) (ready w)).
Definition upd_queue (w : world) (q : Z) (v : wait_queue_t) : world :=
  mk_world (threads w) (<[q := v]> (queues w)) (armed w) (ready w).
Definition with_armed (w : world) (a : gset Z) : world :=
  mk_world (threads w) (queues w) a (ready w).
Definition with_ready (w : world) (r : list Z) : world :=
  mk_world (threads w) (queues w) (armed w) r.

(** ** Verbs, under the queue's lock *)

Definition enqueue_tail (w : world) (q t : Z) : option world :=
  wq ← queues w !! q;
  w1 ← upd_thread w t (fun th => set_blocked (set_next th NULL) q);
  if negb (tail wq =? NULL) then
    w2 ← upd_thread w1 (tail wq) (fun th => set_next th t);
    Some (upd_queue w2 q (mk_wq (head wq) t))
  else Some (upd_queue w1 q (mk_wq t t)).

Definition dequeue_head (w : world) (q : Z) : option (Z * world) :=
  wq ← queues w !! q;
  let t := head wq in
  if t =? NULL then Some (NULL, w)
  else
    th ← threads w !! t;
    let w1 := upd_queue w q (mk_wq (wq_next th) (if wq_next th =? NULL then NULL else tail wq)) in
    w2 ← upd_thread w1 t clear_links;
    Some (t, w2).

(** The loop of [unlink_locked]. *)
Fixpoint unlink_loop (fuel : nat) (w : world) (q target prev cur : Z) : option world :=
  match fuel with
  | O => None
  | S f =>
      if cur =? NULL then Some w
      else
        c ← threads w !! cur;
        if cur =? target then
          wq ← queues w !! q;
          w1 ← (if negb (prev =? NULL)
                then w1 ← upd_thread w prev (fun th => set_next th (wq_next c)); Some (w1, head wq)
                else Some (w, wq_next c));
          let w2 := upd_queue w1.1 q (mk_wq w1.2 (if tail wq =? cur then prev else tail wq)) in
          upd_thread w2 cur clear_links
        else unlink_loop f w q target cur (wq_next c)
  end.

Definition unlink_locked (fuel : nat) (w : world) (q target : Z) : option world :=
  wq ← queues w !! q;
  unlink_loop fuel w q target NULL (head wq).

(** ** The scheduler's side *)

Definition timer_cancel (w : world) (t : Z) : world := with_armed w (armed w ∖ {[t]}).

(** scheduler.c: a thread that is neither blocked nor sleeping is left alone. *)
Definition scheduler_unblock (w : world) (t : Z) : option world :=
  if t =? NULL then Some w
  else
    let w1 := timer_cancel w t in
    th ← threads w1 !! t;
    match state th with
    | THREAD_BLOCKED | THREAD_SLEEPING =>
        w2 ← upd_thread w1 t (fun th => set_state th THREAD_READY);
        Some (with_ready w2 (ready w2 ++ [t]))
    | _ => Some w1
    end.

(** ** API *)

Definition wait_queue_init (w : world) (q : Z) : world := upd_queue w q (mk_wq NULL NULL).

Definition wait_queue_extract_one (w : world) (q : Z) : option (Z * world) :=
  '(t, w1) ← dequeue_head w q;
  if t =? NULL then Some (t, w1)
  else w2 ← upd_thread w1 t (fun th => set_result th WAIT_OK); Some (t, w2).

Definition wait_queue_wake_one (w : world) (q : Z) : option (bool * world) :=
  '(t, w1) ← dequeue_head w q;
  if t =? NULL then Some (false, w1)
  else
    w2 ← upd_thread w1 t (fun th => set_result th WAIT_OK);
    w3 ← scheduler_unblock w2 t;
    Some (true, w3).

(** Under the lock: the chain leaves the queue. *)
Fixpoint unblock_chain (fuel : nat) (w : world) (t : Z) : option world :=
  match fuel with
  | O => None
  | S f =>
      if t =? NULL then Some w
      else
        w1 ← upd_thread w t (fun th => set_blocked th NULL);
        th ← threads w1 !! t;
        unblock_chain f w1 (wq_next th)
  end.

(** Outside the lock: the chain is woken. *)
Fixpoint wake_chain (fuel : nat) (w : world) (chain : Z) : option world :=
  match fuel with
  | O => None
  | S f =>
      if chain =? NULL then Some w
      else
        th ← threads w !! chain;
        let next := wq_next th in
        w1 ← upd_thread w chain (fun th => set_result (set_next th NULL) WAIT_OK);
        w2 ← scheduler_unblock w1 chain;
        wake_chain f w2 next
  end.

Definition wait_queue_wake_all (fuel : nat) (w : world) (q : Z) : option world :=
  wq ← queues w !! q;
  w1 ← unblock_chain fuel (upd_queue w q (mk_wq NULL NULL)) (head wq);
  wake_chain fuel w1 (head wq).

Definition wait_queue_remove_thread (fuel : nat) (w : world) (q target : Z) : option world :=
  if (q =? NULL) || (target =? NULL) then Some w else unlink_locked fuel w q target.

Definition wait_queue_empty (w : world) (q : Z) : option bool :=
  wq ← queues w !! q; Some (head wq =? NULL).

(** [t] is [current_thread], [room] what [timer_arm_in] returns. *)
Definition wait_prepare (fuel : nat) (w : world) (t q timeout_ms : Z) (room : bool) : option world :=
  w1 ← enqueue_tail w q t;
  w2 ← upd_thread w1 t (fun th => set_state (set_result th WAIT_OK) THREAD_BLOCKED);
  if 0 <? timeout_ms then
    if room then Some (with_armed w2 (armed w2 ∪ {[t]}))
    else
      let w3 := with_armed w2 (armed w2 ∖ {[t]}) in
      w4 ← unlink_locked fuel w3 q t;
      upd_thread w4 t (fun th => set_result (set_state th THREAD_RUNNING) WAIT_TIMEOUT)
  else Some w2.

(** The result is whether the caller goes through [scheduler_yield]. *)
Definition wait_cancel (fuel : nat) (w : world) (t : Z) : option (bool * world) :=
  let w1 := timer_cancel w t in
  th ← threads w1 !! t;
  w2 ← (if negb (blocked_on th =? NULL) then wait_queue_remove_thread fuel w1 (blocked_on th) t
        else Some w1);
  th2 ← threads w2 !! t;
  match state th2 with
  | THREAD_BLOCKED => w3 ← upd_thread w2 t (fun th => set_state th THREAD_RUNNING); Some (false, w3)
  | _ => Some (true, w2)
  end.

Definition wait_finish (w : world) (t : Z) : option (Z * world) :=
  let w1 := timer_cancel w t in
  th ← threads w1 !! t; Some (wait_result th, w1).

(** scheduler.c: the callback of the sleep timer, which the drain has taken off. *)
Definition scheduler_sleep_timer_fire (fuel : nat) (w : world) (t : Z) : option world :=
  if t =? NULL then Some w
  else
    th ← threads w !! t;
    w1 ← (if negb (blocked_on th =? NULL) then
            w1 ← wait_queue_remove_thread fuel w (blocked_on th) t;
            upd_thread w1 t (fun th => set_result th WAIT_TIMEOUT)
          else Some w);
    scheduler_unblock w1 t.

(** ** The queues as lists *)

(** The link fields of a thread. *)
Definition link (w : world) (t : Z) : option (Z * Z) :=
  (fun th => (wq_next th, blocked_on th)) <$> threads w !! t.

(** The threads of [l], in order, linked in queue [q] up to [e]. *)
Fixpoint seg (w : world) (q : Z) (l : list Z) (e : Z) : Prop :=
  match l with
  | [] => True
  | t :: r => t <> NULL /\ link w t = Some (hd e r, q) /\ seg w q r e
  end.

Definition ends (l : list Z) : wait_queue_t := mk_wq (hd NULL l) (List.last l NULL).

Record reps (w : world) (Q : gmap Z (list Z)) : Prop := {
  rp_queue : forall q l, Q !! q = Some l ->
    q <> NULL /\ queues w !! q = Some (ends l) /\ seg w q l NULL /\ NoDup l;
  rp_free : forall t n b, link w t = Some (n, b) -> b <> NULL -> exists l, Q !! b = Some l /\ t ∈ l
}.

Lemma seg_app w q l1 l2 e : seg w q (l1 ++ l2) e <-> seg w q l1 (hd e l2) /\ seg w q l2 e.
Proof.
  induction l1 as [|t l1 IH]; cbn; [tauto|]. rewrite IH.
  replace (hd e (l1 ++ l2)) with (hd (hd e l2) l1) by by destruct l1. tauto.
Qed.

Lemma seg_ext w w' q l e : (forall t, t ∈ l -> link w' t = link w t) -> seg w q l e -> seg w' q l e.
Proof.
  induction l as [|t l IH]; cbn; [done|]. intros Hl (H1 & H2 & H3). split_and!; [done| |].
  - rewrite Hl by left. done.
  - apply IH; [|done]. intros x Hx. apply Hl. by right.
Qed.

Lemma seg_link w q l e t : seg w q l e -> t ∈ l -> t <> NULL /\ exists n, link w t = Some (n, q).
Proof.
  induction l as [|x l IH]; cbn; [by intros _ ?%not_elem_of_nil|].
  intros (H1 & H2 & H3) [->|Hx]%elem_of_cons; eauto.
Qed.

Lemma seg_last w q l e t : seg w q (l ++ [t]) e <-> seg w q l t /\ t <> NULL /\ link w t = Some (e, q).
Proof. rewrite seg_app. cbn. tauto. Qed.

Lemma hd_null w q l e : seg w q l e -> hd NULL l = NULL -> l = [].
Proof. destruct l as [|t l]; [done|]. cbn. by intros (? & _). Qed.

(** A thread is in at most one queue. *)
Lemma queue_unique w Q q q' l l' t : reps w Q -> Q !! q = Some l -> Q !! q' = Some l' ->
  t ∈ l -> t ∈ l' -> q = q'.
Proof.
  intros HR Hq Hq' Ht Ht'. destruct (rp_queue _ _ HR q l Hq) as (_ & _ & Hs & _).
  destruct (rp_queue _ _ HR q' l' Hq') as (_ & _ & Hs' & _).
  destruct (seg_link _ _ _ _ t Hs Ht) as [_ [n Hn]]. destruct (seg_link _ _ _ _ t Hs' Ht') as [_ [n' Hn']].
  congruence.
Qed.

Definition unqueued (w : world) (t : Z) : Prop := exists n, link w t = Some (n, NULL).

(** Replacing the contents of one queue. *)
Lemma reps_update w w' Q q l l' : reps w Q -> Q !! q = Some l ->
  queues w' = <[q := ends l']> (queues w) -> seg w' q l' NULL -> NoDup l' ->
  (forall t, t ∉ l -> t ∉ l' -> link w' t = link w t) ->
  (forall t, t ∈ l' -> t ∈ l \/ unqueued w t) ->
  (forall t, t ∈ l -> t ∉ l' -> unqueued w' t) ->
  reps w' (<[q := l']> Q).
Proof.
  intros HR Hq Hqs Hseg Hnd Hsame Hin Hout. destruct (rp_queue _ _ HR q l Hq) as (Hq0 & _ & Hs & _).
  split.
  - intros q2 l2. destruct (decide (q2 = q)) as [->|Hne].
    + rewrite lookup_insert_eq. intros [= <-]. split_and!; try done. by rewrite Hqs, lookup_insert_eq.
    + rewrite lookup_insert_ne by done. intros Hq2.
      destruct (rp_queue _ _ HR q2 l2 Hq2) as (? & ? & Hs2 & ?).
      split_and!; try done; [by rewrite Hqs, lookup_insert_ne|]. eapply seg_ext; [|exact Hs2].
      intros t Ht. apply Hsame.
      * intros Ht'. apply Hne. by eapply (queue_unique w Q q2 q).
      * intros [Ht'|[n Hn]]%Hin; [apply Hne; by eapply (queue_unique w Q q2 q)|].
        destruct (seg_link _ _ _ _ t Hs2 Ht) as [_ [n' Hn']]. congruence.
  - intros t n b Hl Hb. destruct (decide (t ∈ l')) as [Ht|Ht].
    + destruct (seg_link _ _ _ _ t Hseg Ht) as [_ [n' Hn']]. simplify_eq.
      exists l'. by rewrite lookup_insert_eq.
    + destruct (decide (t ∈ l)) as [Ht2|Ht2].
      * destruct (Hout t Ht2 Ht) as [n' Hn']. congruence.
      * rewrite Hsame in Hl by done. destruct (rp_free _ _ HR t n b Hl Hb) as (l2 & Hl2 & Hin2).
        destruct (decide (b = q)) as [->|]; [simplify_eq|]. exists l2. by rewrite lookup_insert_ne.
Qed.

Lemma reps_ext w w' Q : reps w Q -> (forall t, link w' t = link w t) -> queues w' = queues w -> reps w' Q.
Proof.
  intros HR Hl Hq. split.
  - intros q l Hql. destruct (rp_queue _ _ HR q l Hql) as (? & ? & Hs & ?).
    split_and!; try done; [by rewrite Hq|]. eapply seg_ext; [|exact Hs]. auto.
  - intros t n b. rewrite Hl. apply HR.
Qed.

(** ** Stores *)

Lemma upd_thread_spec w t f th : threads w !! t = Some th ->
  exists w', upd_thread w t f = Some w' /\ threads w' = <[t := f th]> (threads w) /\
    queues w' = queues w /\ armed w' = armed w /\ ready w' = ready w /\
    link w' t = Some (wq_next (f th), blocked_on (f th)) /\ (forall x, x <> t -> link w' x = link w x).
Proof.
  intros Ht. unfold upd_thread. run_bind Ht. eexists. split; [reflexivity|]. split_and!; try done.
  - unfold link. cbn. by rewrite lookup_insert_eq.
  - intros x Hx. unfold link. cbn. by rewrite lookup_insert_ne.
Qed.

Lemma link_thread w t n b : link w t = Some (n, b) ->
  exists th, threads w !! t = Some th /\ wq_next th = n /\ blocked_on th = b.
Proof. unfold link. destruct (threads w !! t) as [th|]; [|done]. cbn. intros [=]. eauto. Qed.

Lemma link_some w t th : threads w !! t = Some th -> link w t = Some (wq_next th, blocked_on th).
Proof. intros Ht. unfold link. by rewrite Ht. Qed.

(** Everything but the link fields. *)
Definition body (w : world) (t : Z) : option (thread_state_t * Z) :=
  (fun th => (state th, wait_result th)) <$> threads w !! t.

(** [w'] is [w] but for links and queues. *)
Record same_bodies (w w' : world) : Prop := {
  sb_body : forall t, body w' t = body w t;
  sb_armed : armed w' = armed w;
  sb_ready : ready w' = ready w
}.

Lemma same_bodies_trans w w1 w2 : same_bodies w w1 -> same_bodies w1 w2 -> same_bodies w w2.
Proof. intros [] []. constructor; congruence. Qed.

Lemma upd_links w t f w' : upd_thread w t f = Some w' ->
  (forall th, state (f th) = state th /\ wait_result (f th) = wait_result th) -> same_bodies w w'.
Proof.
  unfold upd_thread. destruct (threads w !! t) as [th|] eqn:Ht; [|done]. cbn. intros [= <-] Hf.
  constructor; try done. intros x. unfold body. cbn. destruct (decide (x = t)) as [->|].
  - rewrite lookup_insert_eq, Ht. cbn. destruct (Hf th) as [-> ->]. done.
  - by rewrite lookup_insert_ne.
Qed.

(** ** The verbs on the lists *)

Lemma last_snoc_Z (l : list Z) x d : List.last (l ++ [x]) d = x.
Proof. apply List.last_last. Qed.

Lemma ends_snoc l t : ends (l ++ [t]) = mk_wq (hd t l) t.
Proof. unfold ends. rewrite last_snoc_Z. by destruct l. Qed.

Lemma upd_queue_link w q v t : link (upd_queue w q v) t = link w t.
Proof. done. Qed.

Lemma enqueue_spec w Q q l t : reps w Q -> Q !! q = Some l -> unqueued w t -> t <> NULL ->
  exists w', enqueue_tail w q t = Some w' /\ reps w' (<[q := l ++ [t]]> Q) /\ same_bodies w w'.
Proof.
  intros HR Hq [n Hn] Ht. destruct (rp_queue _ _ HR q l Hq) as (Hq0 & Hqs & Hseg & Hnd).
  assert (t ∉ l) as Htl by (intros Hin; destruct (seg_link _ _ _ _ t Hseg Hin) as [_ [n' ?]]; congruence).
  assert (NoDup (l ++ [t])) as Hnd2.
  { apply NoDup_app. split_and!; [done| |apply NoDup_singleton]. intros x Hx ->%list_elem_of_singleton. done. }
  destruct (link_thread _ _ _ _ Hn) as (th & Hth & _ & _). unfold enqueue_tail. run_bind Hqs.
  destruct (upd_thread_spec w t (fun th => set_blocked (set_next th NULL) q) th Hth)
    as (w1 & E1 & T1 & Q1 & A1 & R1 & L1 & O1). run_bind E1. cbn [wq_next blocked_on set_blocked set_next] in L1.
  pose proof (upd_links _ _ _ _ E1 ltac:(done)) as Hb1.
  assert (forall x, x ∈ l ++ [t] -> x ∈ l \/ unqueued w x) as Hin.
  { intros x [?| ->%list_elem_of_singleton]%elem_of_app; [by left|right; by exists n]. }
  destruct l as [|x l _] using rev_ind.
  - cbn. eexists. split; [reflexivity|]. split; [|by destruct Hb1].
    eapply (reps_update w _ Q q [] [t]); try done; cbn; [by rewrite Q1| |by intros ? ?%not_elem_of_nil].
    intros y _ Hy. change (link w1 y = link w y). apply O1. intros ->. apply Hy. by left.
  - cbn [tail ends]. unfold ends. cbn [tail]. rewrite last_snoc_Z.
    assert (x <> NULL /\ x <> t) as [Hx0 Hxt].
    { apply seg_last in Hseg as (_ & ? & _). split; [done|]. intros ->. apply Htl, elem_of_app. right. by left. }
    rewrite (proj2 (Z.eqb_neq x NULL) Hx0). cbn [negb].
    apply seg_last in Hseg as (Hseg & _ & Hlx). rewrite <- (O1 x Hxt) in Hlx.
    destruct (link_thread _ _ _ _ Hlx) as (thx & Hthx & _ & Hbx).
    destruct (upd_thread_spec w1 x (fun th => set_next th t) thx Hthx)
      as (w2 & E2 & T2 & Q2 & A2 & R2 & L2 & O2). run_bind E2. cbn [wq_next blocked_on set_next] in L2.
    pose proof (upd_links _ _ _ _ E2 ltac:(done)) as Hb2.
    eexists. split; [reflexivity|]. split; [|by destruct (same_bodies_trans _ _ _ Hb1 Hb2)].
    assert (forall y, y <> t -> y <> x -> link w2 y = link w y) as Hsame by (intros y ? ?; by rewrite O2, O1).
    eapply (reps_update w _ Q q (l ++ [x])); try done.
    + cbn. rewrite Q2, Q1. f_equal. rewrite ends_snoc. f_equal. by destruct l.
    + rewrite seg_last. split_and!; [|done|change (link w2 t = Some (NULL, q)); by rewrite O2].
      rewrite seg_last. split_and!; [|done|change (link w2 x = Some (t, q)); by rewrite L2, Hbx].
      eapply seg_ext; [|exact Hseg]. intros y Hy. apply Hsame; intros ->.
      * apply Htl, elem_of_app. by left.
      * apply NoDup_app in Hnd as (_ & Hd & _). apply (Hd x Hy). by left.
    + intros y Hy Hy2. apply Hsame; intros ->; [apply Hy2|apply Hy]; apply elem_of_app; right; by left.
    + intros y Hy Hny. exfalso. apply Hny, elem_of_app. by left.
Qed.

Lemma dequeue_spec w Q q l : reps w Q -> Q !! q = Some l ->
  match l with
  | [] => dequeue_head w q = Some (NULL, w)
  | t :: r => exists w', dequeue_head w q = Some (t, w') /\ reps w' (<[q := r]> Q) /\
                same_bodies w w' /\ unqueued w' t /\ t <> NULL
  end.
Proof.
  intros HR Hq. destruct (rp_queue _ _ HR q l Hq) as (Hq0 & Hqs & Hseg & Hnd).
  unfold dequeue_head. run_bind Hqs. destruct l as [|t r]; [done|]. cbn [head ends hd].
  destruct Hseg as (Ht0 & Ht & Hseg). rewrite (proj2 (Z.eqb_neq t NULL) Ht0).
  destruct (link_thread _ _ _ _ Ht) as (th & Hth & Hn & Hb). run_bind Hth. rewrite Hn.
  set (w1 := upd_queue w q _).
  destruct (upd_thread_spec w1 t clear_links th Hth)
    as (w2 & E2 & T2 & Q2 & A2 & R2 & L2 & O2). run_bind E2. cbn [wq_next blocked_on clear_links set_blocked set_next] in L2.
  pose proof (upd_links _ _ _ _ E2 ltac:(done)) as [Hb2 Ha2 Hr2].
  apply NoDup_cons in Hnd as [Htr Hnd].
  assert (unqueued w2 t) as Hun by (exists NULL; exact L2).
  eexists. split; [reflexivity|]. split; [|split; [by constructor|done]].
  eapply (reps_update w _ Q q (t :: r) r); try done.
  - rewrite Q2. unfold w1. cbn. f_equal. unfold ends. destruct r as [|y r]; [done|].
    cbn [hd] in *. destruct Hseg as (Hy & _). by rewrite (proj2 (Z.eqb_neq y NULL) Hy).
  - eapply seg_ext; [|exact Hseg]. intros y Hy. rewrite O2; [done|]. by intros ->.
  - intros y Hy Hyr. rewrite O2; [done|]. intros ->. apply Hy. by left.
  - intros y Hy. left. by right.
  - by intros y [->|Hy]%elem_of_cons Hny.
Qed.

Definition without (t : Z) (l : list Z) : list Z := filter (fun x => x <> t) l.

Lemma without_not_in t l : t ∉ l -> without t l = l.
Proof. intros Ht. apply filter_all. intros x Hx ->. done. Qed.

Lemma without_mid t pre rest : NoDup (pre ++ t :: rest) -> without t (pre ++ t :: rest) = pre ++ rest.
Proof.
  intros Hnd. apply NoDup_app in Hnd as (_ & Hd & Hr). apply NoDup_cons in Hr as [Hr _].
  unfold without. rewrite filter_app, filter_cons, decide_False by (intros Hn; by apply Hn).
  f_equal; apply without_not_in; [|done]. intros Ht. apply (Hd t Ht). by left.
Qed.

Lemma split_NoDup {A} (pre rest : list A) t : NoDup (pre ++ t :: rest) ->
  (t ∉ pre) /\ (t ∉ rest) /\ NoDup (pre ++ rest) /\ (forall x, x ∈ pre -> x ∉ rest).
Proof.
  intros (Hp & Hd & Hr)%NoDup_app. apply NoDup_cons in Hr as [Hr Hr2]. split_and!; try done.
  - intros Hin. apply (Hd t Hin). by left.
  - apply NoDup_app. split_and!; [done| |done]. intros x Hx Hx2. apply (Hd x Hx). by right.
  - intros x Hx Hx2. apply (Hd x Hx). by right.
Qed.

(** The new tail. *)
Lemma unlink_tail pre rest t : t ∉ rest ->
  (if tail (ends (pre ++ t :: rest)) =? t then List.last pre NULL else tail (ends (pre ++ t :: rest)))
  = List.last (pre ++ rest) NULL.
Proof.
  intros Htr. cbn [tail ends]. unfold ends. cbn [tail].
  destruct rest as [|y rest _] using rev_ind; [by rewrite last_snoc_Z, Z.eqb_refl, app_nil_r|].
  rewrite app_comm_cons, !app_assoc, !last_snoc_Z. destruct (Z.eqb_spec y t) as [->|]; [|done].
  exfalso. apply Htr, elem_of_app. right. by left.
Qed.

(** [w1] has stepped over [t]; closing the queue and clearing the links of [t]. *)
Lemma unlink_finish w w1 Q q pre rest t c h : reps w Q -> Q !! q = Some (pre ++ t :: rest) ->
  same_bodies w w1 -> queues w1 = queues w -> threads w1 !! t = Some c ->
  seg w1 q pre (hd NULL rest) -> (forall x, x ∉ pre -> link w1 x = link w x) ->
  h = hd NULL (pre ++ rest) ->
  let tl := if tail (ends (pre ++ t :: rest)) =? t then List.last pre NULL
            else tail (ends (pre ++ t :: rest)) in
  exists w', upd_thread (upd_queue w1 q (mk_wq h tl)) t clear_links = Some w' /\
    reps w' (<[q := pre ++ rest]> Q) /\ same_bodies w w' /\ unqueued w' t.
Proof.
  intros HR Hq [Hb1 Ha1 Hr1] Hq1 Hc1 Hseg1 Hl1 -> tl.
  destruct (rp_queue _ _ HR q _ Hq) as (_ & _ & Hseg & Hnd).
  apply seg_app in Hseg as [_ (_ & _ & Hrest)]. destruct (split_NoDup _ _ _ Hnd) as (Htp & Htr & Hnd' & Hdis).
  set (w2 := upd_queue w1 q _).
  destruct (upd_thread_spec w2 t clear_links c Hc1) as (w3 & E3 & T3 & Q3 & A3 & R3 & L3 & O3).
  cbn [wq_next blocked_on clear_links set_blocked set_next] in L3.
  pose proof (upd_links _ _ _ _ E3 ltac:(done)) as [Hb3 Ha3 Hr3].
  assert (unqueued w3 t) as Hun by (exists NULL; exact L3). exists w3. split; [exact E3|].
  split; [|split; [constructor; [intros x; rewrite Hb3; apply Hb1|by rewrite Ha3|by rewrite Hr3]|done]].
  eapply (reps_update w _ Q q (pre ++ t :: rest)); try done.
  - rewrite Q3. unfold w2. cbn [queues upd_queue]. rewrite Hq1. f_equal. unfold tl.
    by rewrite (unlink_tail pre rest t Htr).
  - apply seg_app. split.
    + eapply seg_ext; [|exact Hseg1]. intros x Hx. apply (O3 x). by intros ->.
    + eapply seg_ext; [|exact Hrest]. intros x Hx. rewrite (O3 x) by (by intros ->).
      apply Hl1. intros Hxp. by apply (Hdis x Hxp).
  - intros x Hx Hx2. rewrite (O3 x); [apply Hl1|]; intros Hx3; [|subst];
      apply Hx, elem_of_app; [by left|right; by left].
  - intros x Hx. left. apply elem_of_app in Hx as [?|?]; apply elem_of_app; [by left|right; by right].
  - intros x Hx Hnx. apply elem_of_app in Hx as [Hx|[->|Hx]%elem_of_cons]; [|done|];
      exfalso; apply Hnx, elem_of_app; auto.
Qed.

(** The unlinking itself. *)
Lemma unlink_here w Q q pre rest t : reps w Q -> Q !! q = Some (pre ++ t :: rest) ->
  exists c w1 w', threads w !! t = Some c /\
    (if negb (List.last pre NULL =? NULL)
     then w1 ← upd_thread w (List.last pre NULL) (fun th => set_next th (wq_next c));
          Some (w1, head (ends (pre ++ t :: rest)))
     else Some (w, wq_next c)) = Some w1 /\
    upd_thread (upd_queue w1.1 q (mk_wq w1.2 (if tail (ends (pre ++ t :: rest)) =? t
      then List.last pre NULL else tail (ends (pre ++ t :: rest))))) t clear_links = Some w' /\
    reps w' (<[q := pre ++ rest]> Q) /\ same_bodies w w' /\ unqueued w' t.
Proof.
  intros HR Hq. destruct (rp_queue _ _ HR q _ Hq) as (Hq0 & Hqs & Hseg & Hnd).
  destruct (split_NoDup _ _ _ Hnd) as (Htp & Htr & Hnd' & Hdis).
  apply seg_app in Hseg as [Hpre (Ht0 & Hlt & Hrest)]. cbn [hd] in Hpre.
  destruct (link_thread _ _ _ _ Hlt) as (c & Hc & Hn & Hb). exists c.
  destruct pre as [|p pre _] using rev_ind.
  - destruct (unlink_finish w w Q q [] rest t c (hd NULL rest) HR Hq) as (w' & Hw'); try done.
    exists (w, wq_next c), w'. rewrite Hn. split_and!; try done; apply Hw'.
  - apply seg_last in Hpre as (Hpre & Hp0 & Hlp).
    destruct (link_thread _ _ _ _ Hlp) as (thp & Hthp & _ & Hbp).
    destruct (upd_thread_spec w p (fun th => set_next th (wq_next c)) thp Hthp)
      as (w1 & E1 & T1 & Q1 & A1 & R1 & L1 & O1). cbn [wq_next blocked_on set_next] in L1.
    assert (p <> t) as Hpt by (intros ->; apply Htp, elem_of_app; right; by left).
    destruct (unlink_finish w w1 Q q (pre ++ [p]) rest t c (head (ends ((pre ++ [p]) ++ t :: rest))) HR Hq)
      as (w' & Hw'); try done.
    + exact (upd_links _ _ _ _ E1 ltac:(done)).
    + rewrite T1. by rewrite lookup_insert_ne.
    + rewrite seg_last. split_and!; [|done|by rewrite L1, Hn, Hbp].
      eapply seg_ext; [|exact Hpre]. intros x Hx. apply O1. intros ->.
      apply NoDup_app in Hnd' as [Hpp _]. apply NoDup_app in Hpp as (_ & Hd & _). apply (Hd p Hx). by left.
    + intros x Hx. apply O1. intros ->. apply Hx, elem_of_app. right. by left.
    + by destruct pre.
    + exists (w1, head (ends ((pre ++ [p]) ++ t :: rest))), w'.
      rewrite last_snoc_Z in *. rewrite (proj2 (Z.eqb_neq p NULL) Hp0). cbn [negb].
      split_and!; try done; [by run_bind E1|apply Hw'..].
Qed.

Lemma unlink_loop_spec fuel w Q q t : forall rest pre, reps w Q -> Q !! q = Some (pre ++ rest) ->
  (t ∉ pre) -> (length rest < fuel)%nat ->
  exists w', unlink_loop fuel w q t (List.last pre NULL) (hd NULL rest) = Some w' /\
    reps w' (<[q := without t (pre ++ rest)]> Q) /\ same_bodies w w' /\
    (t ∈ rest -> unqueued w' t) /\ (t ∉ rest -> w' = w).
Proof.
  induction fuel as [|fuel IH]; intros rest pre HR Hq Htp Hf; [lia|]. cbn [unlink_loop].
  destruct (rp_queue _ _ HR q _ Hq) as (Hq0 & Hqs & Hseg & Hnd). destruct rest as [|c rest].
  - exists w. cbn. split; [done|]. rewrite app_nil_r in *. rewrite without_not_in, insert_id by done.
    split; [done|]. split; [done|]. split; [by intros ?%not_elem_of_nil|done].
  - cbn [hd]. apply seg_app in Hseg as [_ (Hc0 & Hlc & _)].
    rewrite (proj2 (Z.eqb_neq c NULL) Hc0). destruct (link_thread _ _ _ _ Hlc) as (th & Hth & Hn & Hb).
    run_bind Hth. destruct (Z.eqb_spec c t) as [->|Hne].
    + destruct (unlink_here w Q q pre rest t HR Hq) as (c & w1 & w' & Hc & E1 & E2 & HR' & Hb' & Hu).
      assert (c = th) as -> by congruence. run_bind Hqs. run_bind E1. exists w'.
      rewrite without_mid by done. split_and!; try done. intros Ht. exfalso. apply Ht. by left.
    + destruct (IH rest (pre ++ [c]) HR) as (w' & E & HR' & Hb' & Hu & Hsame).
      * by rewrite <- app_assoc.
      * intros [?| ->%list_elem_of_singleton]%elem_of_app; done.
      * cbn in Hf. lia.
      * rewrite last_snoc_Z in E. rewrite Hn. exists w'. rewrite <- app_assoc in HR'. cbn [app] in HR'.
        split; [exact E|]. split; [done|]. split; [done|].
        split; [intros [->|?]%elem_of_cons; [done|auto]|].
        intros Ht. apply Hsame. intros ?. apply Ht. by right.
Qed.

Lemma unlink_spec fuel w Q q l t : reps w Q -> Q !! q = Some l -> (length l < fuel)%nat ->
  exists w', unlink_locked fuel w q t = Some w' /\ reps w' (<[q := without t l]> Q) /\
    same_bodies w w' /\ (t ∈ l -> unqueued w' t) /\ (t ∉ l -> w' = w).
Proof.
  intros HR Hq Hf. destruct (rp_queue _ _ HR q _ Hq) as (_ & Hqs & _ & _).
  unfold unlink_locked. run_bind Hqs. apply (unlink_loop_spec fuel w Q q t l []); try done.
  by intros ?%not_elem_of_nil.
Qed.

(** ** The abstract machine: queues are lists, threads a state and a result *)

Record aworld := mk_aw {
  aq : gmap Z (list Z);
  abody : gmap Z (thread_state_t * Z);
  aarmed : gset Z;
  aready : list Z
}.

Definition a_queues (A : aworld) (Q : gmap Z (list Z)) : aworld := mk_aw Q (abody A) (aarmed A) (aready A).
Definition a_timer (A : aworld) (s : gset Z) : aworld := mk_aw (aq A) (abody A) s (aready A).
Definition a_body (A : aworld) (t : Z) (b : thread_state_t * Z) : aworld :=
  mk_aw (aq A) (<[t := b]> (abody A)) (aarmed A) (aready A).
Definition a_state (A : aworld) (t : Z) : thread_state_t :=
  default THREAD_DEAD (fst <$> abody A !! t).
Definition a_result (A : aworld) (t : Z) : Z := default 0 (snd <$> abody A !! t).
Definition a_list (A : aworld) (q : Z) : list Z := default [] (aq A !! q).

Definition queued (A : aworld) (t : Z) : Prop := map_Exists (fun _ l => t ∈ l) (aq A).
Definition a_out (A : aworld) (t : Z) : aworld := a_queues A (without t <$> aq A).

Definition a_unblock (A : aworld) (t : Z) : aworld :=
  if t =? NULL then A
  else
    let A1 := a_timer A (aarmed A ∖ {[t]}) in
    match a_state A t with
    | THREAD_BLOCKED | THREAD_SLEEPING =>
        let A2 := a_body A1 t (THREAD_READY, a_result A t) in
        mk_aw (aq A2) (abody A2) (aarmed A2) (aready A2 ++ [t])
    | _ => A1
    end.

(** Waking a thread that is out of the queues. *)
Definition a_wake (A : aworld) (t : Z) : aworld := a_unblock (a_body A t (a_state A t, WAIT_OK)) t.

Inductive wait_op :=
  | WPrepare (t q timeout_ms : Z) (room : bool)
  | WCancel (t : Z)
  | WFinish (t : Z)
  | WWakeOne (q : Z)
  | WExtract (q : Z)
  | WWakeAll (q : Z)
  | WRemove (q t : Z)
  | WFire (t : Z)
  | WEmpty (q : Z).

Definition b2z (b : bool) : Z := if b then 1 else 0.

Definition run_wop (fuel : nat) (w : world) (o : wait_op) : option (Z * world) :=
  match o with
  | WPrepare t q tmo room => w' ← wait_prepare fuel w t q tmo room; Some (0, w')
  | WCancel t => '(b, w') ← wait_cancel fuel w t; Some (b2z b, w')
  | WFinish t => wait_finish w t
  | WWakeOne q => '(b, w') ← wait_queue_wake_one w q; Some (b2z b, w')
  | WExtract q => wait_queue_extract_one w q
  | WWakeAll q => w' ← wait_queue_wake_all fuel w q; Some (0, w')
  | WRemove q t => w' ← wait_queue_remove_thread fuel w q t; Some (0, w')
  | WFire t => w' ← scheduler_sleep_timer_fire fuel w t; Some (0, w')
  | WEmpty q => b ← wait_queue_empty w q; Some (b2z b, w)
  end.

Definition a_wop (A : aworld) (o : wait_op) : Z * aworld :=
  match o with
  | WPrepare t q tmo room =>
      if (0 <? tmo) && negb room
      then (0, a_body (a_timer A (aarmed A ∖ {[t]})) t (THREAD_RUNNING, WAIT_TIMEOUT))
      else (0, a_body (a_timer (a_queues A (<[q := a_list A q ++ [t]]> (aq A)))
                 (if 0 <? tmo then aarmed A ∪ {[t]} else aarmed A)) t (THREAD_BLOCKED, WAIT_OK))
  | WCancel t =>
      let A1 := a_out (a_timer A (aarmed A ∖ {[t]})) t in
      match a_state A t with
      | THREAD_BLOCKED => (0, a_body A1 t (THREAD_RUNNING, a_result A t))
      | _ => (1, A1)
      end
  | WFinish t => (a_result A t, a_timer A (aarmed A ∖ {[t]}))
  | WWakeOne q =>
      match a_list A q with
      | [] => (0, A)
      | t :: r => (1, a_wake (a_queues A (<[q := r]> (aq A))) t)
      end
  | WExtract q =>
      match a_list A q with
      | [] => (NULL, A)
      | t :: r => (t, a_body (a_queues A (<[q := r]> (aq A))) t (a_state A t, WAIT_OK))
      end
  | WWakeAll q => (0, fold_left a_wake (a_list A q) (a_queues A (<[q := []]> (aq A))))
  | WRemove q t => (0, a_queues A (<[q := without t (a_list A q)]> (aq A)))
  | WFire t =>
      if bool_decide (queued A t)
      then let A1 := a_out A t in (0, a_unblock (a_body A1 t (a_state A t, WAIT_TIMEOUT)) t)
      else (0, a_unblock A t)
  | WEmpty q => (b2z (bool_decide (a_list A q = [])), A)
  end.

(** A thread waits in one queue at a time; threads and queues exist. *)
Definition wop_ok (A : aworld) (o : wait_op) : Prop :=
  match o with
  | WPrepare t q _ _ => t <> NULL /\ is_Some (abody A !! t) /\ is_Some (aq A !! q) /\ ~ queued A t
  | WCancel t | WFinish t | WFire t => t <> NULL /\ is_Some (abody A !! t)
  | WRemove q t => t <> NULL /\ is_Some (aq A !! q)
  | WWakeOne q | WExtract q | WWakeAll q | WEmpty q => is_Some (aq A !! q)
  end.

Record matches (w : world) (A : aworld) : Prop := {
  ma_reps : reps w (aq A);
  ma_body : forall t, abody A !! t = body w t;
  ma_armed : aarmed A = armed w;
  ma_ready : aready A = ready w
}.

(** ** The simulation *)

Lemma matches_thread w A t b : matches w A -> abody A !! t = Some b ->
  exists th, threads w !! t = Some th /\ b = (state th, wait_result th).
Proof.
  intros HM. rewrite (ma_body _ _ HM). unfold body. destruct (threads w !! t) as [th|]; [|done].
  cbn. intros [= <-]. eauto.
Qed.

Lemma matches_at w A t th : matches w A -> threads w !! t = Some th ->
  abody A !! t = Some (state th, wait_result th) /\ a_state A t = state th /\ a_result A t = wait_result th.
Proof.
  intros HM Ht. assert (abody A !! t = Some (state th, wait_result th)) as E
    by (rewrite (ma_body _ _ HM); unfold body; by rewrite Ht).
  unfold a_state, a_result. by rewrite E.
Qed.

Lemma matches_queues w w' A Q : matches w A -> reps w' Q -> same_bodies w w' -> matches w' (a_queues A Q).
Proof.
  intros [HR Hb Ha Hr] HR' [Hb' Ha' Hr']. constructor; cbn; [done|intros t; by rewrite Hb, Hb'|congruence..].
Qed.

Lemma matches_timer w A s : matches w A -> matches (with_armed w s) (a_timer A s).
Proof. intros [HR Hb Ha Hr]. constructor; try done. by eapply reps_ext. Qed.

Lemma upd_body_spec w A t f th : matches w A -> threads w !! t = Some th ->
  (wq_next (f th) = wq_next th /\ blocked_on (f th) = blocked_on th) ->
  exists w', upd_thread w t f = Some w' /\ matches w' (a_body A t (state (f th), wait_result (f th))) /\
    (forall x, link w' x = link w x) /\ threads w' !! t = Some (f th) /\ armed w' = armed w.
Proof.
  intros [HR Hb Ha Hr] Ht [Hn Hbl].
  destruct (upd_thread_spec w t f th Ht) as (w' & E & T & Q & A' & R & L & O). exists w'.
  assert (forall x, link w' x = link w x) as Hl.
  { intros x. destruct (decide (x = t)) as [->|]; [|by apply O]. rewrite L, Hn, Hbl. by rewrite (link_some w t th). }
  split; [done|]. split; [|split; [done|split; [by rewrite T, lookup_insert_eq|done]]].
  constructor; cbn; [by eapply reps_ext| |congruence..].
  intros x. unfold body. rewrite T. destruct (decide (x = t)) as [->|]; [by rewrite !lookup_insert_eq|].
  rewrite !lookup_insert_ne by done. rewrite Hb. done.
Qed.

Lemma unblock_spec w A t th : matches w A -> threads w !! t = Some th ->
  exists w', scheduler_unblock w t = Some w' /\ matches w' (a_unblock A t) /\
    (forall x, link w' x = link w x).
Proof.
  intros HM Ht. unfold scheduler_unblock, a_unblock. destruct (t =? NULL); [by exists w|].
  pose proof (matches_timer w A (armed w ∖ {[t]}) HM) as HM1. rewrite (ma_armed _ _ HM).
  fold (timer_cancel w t) in HM1. set (w1 := timer_cancel w t) in *.
  assert (threads w1 !! t = Some th) as Ht1 by done. run_bind Ht1.
  destruct (matches_at w A t th HM Ht) as (_ & -> & ->).
  destruct (state th); try (by exists w1);
    (destruct (upd_body_spec w1 _ t (fun th => set_state th THREAD_READY) th HM1 Ht1) as (w2 & E & HM2 & Hl & _);
     [done|]; run_bind E; eexists; split; [reflexivity|]; split; [|exact Hl];
     destruct HM2 as [HR2 Hb2 Ha2 Hr2]; constructor; cbn in *; [by eapply reps_ext|done|done|by rewrite Hr2]).
Qed.

Lemma queued_link w A t n b : matches w A -> link w t = Some (n, b) ->
  (b <> NULL -> exists l, aq A !! b = Some l /\ t ∈ l) /\ (queued A t <-> b <> NULL).
Proof.
  intros HM Hl. assert (b <> NULL -> exists l, aq A !! b = Some l /\ t ∈ l) as Hb
    by (intros Hb; by eapply (rp_free _ _ (ma_reps _ _ HM))).
  split; [done|]. split.
  - intros (q & l & Hq & Ht). destruct (rp_queue _ _ (ma_reps _ _ HM) q l Hq) as (Hq0 & _ & Hs & _).
    destruct (seg_link _ _ _ _ t Hs Ht) as [_ [n' Hn']]. congruence.
  - intros (l & Hq & Ht)%Hb. by exists b, l.
Qed.

Lemma queue_short w A q l : matches w A -> aq A !! q = Some l -> (length l <= size (abody A))%nat.
Proof.
  intros HM Hq. destruct (rp_queue _ _ (ma_reps _ _ HM) q l Hq) as (_ & _ & Hs & Hnd).
  rewrite <- (size_list_to_set (C := gset Z) l Hnd), <- size_dom. apply subseteq_size.
  intros t Ht%elem_of_list_to_set. destruct (seg_link _ _ _ _ t Hs Ht) as [_ [n Hn]].
  destruct (link_thread _ _ _ _ Hn) as (th & Hth & _).
  apply elem_of_dom. destruct (matches_at w A t th HM Hth) as [-> _]. by eexists.
Qed.

Lemma without_out w A t : matches w A ->
  (forall q l, aq A !! q = Some l -> t ∈ l -> without t <$> aq A = <[q := without t l]> (aq A)) /\
  (~ queued A t -> without t <$> aq A = aq A).
Proof.
  intros HM. split.
  - intros q l Hq Ht. apply map_eq. intros q'. rewrite lookup_fmap. destruct (decide (q' = q)) as [->|Hne].
    + by rewrite Hq, lookup_insert_eq.
    + rewrite lookup_insert_ne by done. destruct (aq A !! q') as [l'|] eqn:Hq'; [|done]. cbn. f_equal.
      apply without_not_in. intros Ht'. apply Hne. by eapply (queue_unique w (aq A) q' q l' l t (ma_reps _ _ HM)).
  - intros Hno. apply map_eq. intros q. rewrite lookup_fmap. destruct (aq A !! q) as [l|] eqn:Hq; [|done].
    cbn. f_equal. apply without_not_in. intros Ht. apply Hno. by exists q, l.
Qed.

(** Taking a thread out of the queue it says it is in. *)
Lemma out_spec fuel w A t th : matches w A -> (size (abody A) < fuel)%nat -> t <> NULL ->
  threads w !! t = Some th ->
  exists w', (if negb (blocked_on th =? NULL) then wait_queue_remove_thread fuel w (blocked_on th) t
              else Some w) = Some w' /\ matches w' (a_out A t) /\ body w' t = body w t.
Proof.
  intros HM Hf Ht0 Hth. pose proof (link_some w t th Hth) as Hl.
  destruct (queued_link w A t _ _ HM Hl) as [Hin Hq]. destruct (without_out w A t HM) as [Hw1 Hw2].
  destruct (Z.eqb_spec (blocked_on th) NULL) as [Hz|Hnz]; cbn [negb].
  - exists w. split; [done|]. split; [|done]. unfold a_out. rewrite Hw2 by (rewrite Hq; tauto). by destruct A.
  - destruct (Hin Hnz) as (l & Hq' & Htl). unfold wait_queue_remove_thread.
    rewrite (proj2 (Z.eqb_neq _ _) Hnz), (proj2 (Z.eqb_neq _ _) Ht0). cbn [orb].
    pose proof (queue_short w A _ l HM Hq').
    destruct (unlink_spec fuel w (aq A) _ l t (ma_reps _ _ HM) Hq' ltac:(lia)) as (w' & E & HR & Hb & _).
    exists w'. split; [done|]. split; [|apply Hb]. unfold a_out. rewrite (Hw1 _ l Hq' Htl).
    by eapply matches_queues.
Qed.

(** ** Waking a whole queue *)

Lemma unblock_chain_spec fuel q l : forall w, seg w q l NULL -> NoDup l -> (length l < fuel)%nat ->
  exists w', unblock_chain fuel w (hd NULL l) = Some w' /\ seg w' NULL l NULL /\ same_bodies w w' /\
    queues w' = queues w /\ (forall t, t ∉ l -> link w' t = link w t).
Proof.
  revert l. induction fuel as [|fuel IH]; intros l w Hs Hnd Hf; [lia|]. cbn [unblock_chain].
  destruct l as [|t l]; [exists w; by split_and!|]. cbn [hd]. destruct Hs as (Ht0 & Hl & Hs).
  rewrite (proj2 (Z.eqb_neq t NULL) Ht0). destruct (link_thread _ _ _ _ Hl) as (th & Hth & Hn & Hb).
  apply NoDup_cons in Hnd as [Htl Hnd]. cbn in Hf.
  destruct (upd_thread_spec w t (fun th => set_blocked th NULL) th Hth) as (w1 & E1 & T1 & Q1 & A1 & R1 & L1 & O1).
  run_bind E1. assert (threads w1 !! t = Some (set_blocked th NULL)) as Ht1 by by rewrite T1, lookup_insert_eq.
  run_bind Ht1. cbn [wq_next set_blocked] in *. rewrite Hn.
  assert (seg w1 q l NULL) as Hs1 by (eapply seg_ext; [|exact Hs]; intros x Hx; apply O1; by intros ->).
  destruct (IH l w1 Hs1 Hnd ltac:(lia)) as (w2 & E2 & Hs2 & Hb2 & Q2 & O2). exists w2.
  split; [done|]. split; [|split; [|split; [congruence|]]].
  - cbn. split; [done|]. split; [|done]. rewrite O2 by done. by rewrite L1, Hn.
  - eapply same_bodies_trans; [|exact Hb2]. by eapply upd_links.
  - intros x Hx. rewrite O2, O1; [done| |]; intros Hx2; apply Hx; [subst; by left|by right].
Qed.

(** Threads in no queue keep it consistent whatever their [wq_next]. *)
Lemma reps_loose w w' Q t : reps w Q -> queues w' = queues w -> unqueued w t -> unqueued w' t ->
  (forall x, x <> t -> link w' x = link w x) -> reps w' Q.
Proof.
  intros HR Hq [n Hn] [n' Hn'] Hl. split.
  - intros q l Hql. destruct (rp_queue _ _ HR q l Hql) as (? & ? & Hs & ?).
    split_and!; try done; [by rewrite Hq|]. eapply seg_ext; [|exact Hs]. intros x Hx. apply Hl. intros ->.
    destruct (seg_link _ _ _ _ t Hs Hx) as [_ [? ?]]. congruence.
  - intros x m b Hx Hb. destruct (decide (x = t)) as [->|]; [congruence|]. rewrite Hl in Hx by done.
    by eapply (rp_free _ _ HR).
Qed.

Lemma wake_chain_spec fuel l : forall w A, matches w A -> seg w NULL l NULL -> NoDup l ->
  (length l < fuel)%nat ->
  exists w', wake_chain fuel w (hd NULL l) = Some w' /\ matches w' (fold_left a_wake l A).
Proof.
  revert l. induction fuel as [|fuel IH]; intros l w A HM Hs Hnd Hf; [lia|]. cbn [wake_chain].
  destruct l as [|t l]; [by exists w|]. cbn [hd]. destruct Hs as (Ht0 & Hl & Hs).
  rewrite (proj2 (Z.eqb_neq t NULL) Ht0). destruct (link_thread _ _ _ _ Hl) as (th & Hth & Hn & Hb).
  apply NoDup_cons in Hnd as [Htl Hnd]. cbn in Hf. run_bind Hth. rewrite Hn.
  destruct (upd_thread_spec w t (fun th => set_result (set_next th NULL) WAIT_OK) th Hth)
    as (w1 & E1 & T1 & Q1 & A1 & R1 & L1 & O1). run_bind E1. cbn [wq_next blocked_on set_result set_next] in L1.
  destruct (matches_at w A t th HM Hth) as (_ & Hst & _).
  assert (matches w1 (a_body A t (a_state A t, WAIT_OK))) as HM1.
  { destruct HM as [HR Hbd Ha Hr]. constructor; cbn; [| |congruence..].
    - eapply reps_loose; [exact HR|done|by eexists|by rewrite Hb in L1; eexists|done].
    - intros x. unfold body. rewrite T1. destruct (decide (x = t)) as [->|].
      + rewrite !lookup_insert_eq. cbn. by rewrite Hst.
      + rewrite !lookup_insert_ne by done. by rewrite Hbd. }
  destruct (unblock_spec w1 _ t (set_result (set_next th NULL) WAIT_OK) HM1) as (w2 & E2 & HM2 & L2).
  { by rewrite T1, lookup_insert_eq. }
  run_bind E2. cbn [fold_left]. unfold a_wake at 2. apply IH; [done| |done|lia]. eapply seg_ext; [|exact Hs].
  intros x Hx. rewrite L2, O1; [done|]. by intros ->.
Qed.

(** ** Each operation *)

Lemma a_list_eq A q l : aq A !! q = Some l -> a_list A q = l.
Proof. intros E. unfold a_list. by rewrite E. Qed.

Lemma not_queued_unqueued w A t : matches w A -> is_Some (abody A !! t) -> ~ queued A t -> unqueued w t.
Proof.
  intros HM [b Hb] Hno. destruct (matches_thread w A t b HM Hb) as (th & Hth & _).
  pose proof (link_some w t th Hth) as Hl. destruct (queued_link w A t _ _ HM Hl) as [_ Hq].
  exists (wq_next th). rewrite Hl. destruct (Z.eq_dec (blocked_on th) NULL) as [->|]; [done|tauto].
Qed.

Lemma without_snoc t l : t ∉ l -> without t (l ++ [t]) = l.
Proof.
  intros Ht. unfold without. rewrite filter_app, filter_cons, decide_False by (intros Hn; by apply Hn).
  rewrite filter_nil, app_nil_r. by apply without_not_in.
Qed.

Lemma prepare_spec fuel w A t q tmo room : matches w A -> (S (size (abody A)) < fuel)%nat ->
  wop_ok A (WPrepare t q tmo room) ->
  exists w', wait_prepare fuel w t q tmo room = Some w' /\ matches w' (a_wop A (WPrepare t q tmo room)).2.
Proof.
  intros HM Hf (Ht0 & Hb & [l Hq] & Hno). pose proof (not_queued_unqueued w A t HM Hb Hno) as Hun.
  destruct (enqueue_spec w (aq A) q l t (ma_reps _ _ HM) Hq Hun Ht0) as (w1 & E1 & HR1 & Hb1).
  pose proof (matches_queues w w1 A _ HM HR1 Hb1) as HM1. unfold wait_prepare. run_bind E1.
  destruct Hb as [b Hb]. destruct (matches_thread w1 _ t b HM1 Hb) as (th & Hth & _).
  destruct (upd_body_spec w1 _ t (fun th => set_state (set_result th WAIT_OK) THREAD_BLOCKED) th HM1 Hth)
    as (w2 & E2 & HM2 & L2 & Ht2 & A2); [done|]. run_bind E2.
  cbn [state wait_result set_state set_result] in HM2. cbn [a_wop].
  rewrite <- (a_list_eq A q l Hq) in HM2. destruct (0 <? tmo); cbn [andb].
  2: { exists w2. split; [done|]. cbn [snd]. destruct HM2. by constructor. }
  destruct room; cbn [negb].
  - eexists. split; [reflexivity|]. cbn [snd].
    apply (matches_timer _ _ (armed w2 ∪ {[t]})) in HM2. rewrite (ma_armed _ _ HM), <- (sb_armed _ _ Hb1), <- A2.
    exact HM2.
  - set (w3 := with_armed w2 (armed w2 ∖ {[t]})).
    pose proof (matches_timer _ _ (armed w2 ∖ {[t]}) HM2) as HM3. fold w3 in HM3.
    assert (t ∉ a_list A q) as Htl by (rewrite (a_list_eq A q l Hq); intros Hin; apply Hno; by exists q, l).
    destruct (unlink_spec fuel w3 (<[q := a_list A q ++ [t]]> (aq A)) q (a_list A q ++ [t]) t)
      as (w4 & E4 & HR4 & Hb4 & _).
    { exact (ma_reps _ _ HM3). }
    { by rewrite lookup_insert_eq. }
    { rewrite length_app. cbn. rewrite (a_list_eq A q l Hq). pose proof (queue_short w A q l HM Hq). lia. }
    run_bind E4. rewrite insert_insert_eq, without_snoc in HR4 by done.
    rewrite (a_list_eq A q l Hq), insert_id in HR4 by done.
    pose proof (matches_queues w3 w4 _ (aq A) HM3 HR4 Hb4) as HM4.
    destruct (matches_thread w4 _ t (THREAD_BLOCKED, WAIT_OK) HM4) as (th4 & Hth4 & _).
    { cbn. by rewrite lookup_insert_eq. }
    destruct (upd_body_spec w4 _ t (fun th => set_result (set_state th THREAD_RUNNING) WAIT_TIMEOUT) th4 HM4 Hth4)
      as (w5 & E5 & HM5 & _); [done|]. exists w5. split; [exact E5|]. destruct HM5 as [HR5 Hb5 Ha5 Hr5].
    constructor; cbn in *; [done| | |done].
    + intros x. rewrite <- Hb5. destruct (decide (x = t)) as [->|]; [by rewrite !lookup_insert_eq|].
      by rewrite !lookup_insert_ne.
    + rewrite <- Ha5, A2, (sb_armed _ _ Hb1). f_equal. apply (ma_armed _ _ HM).
Qed.

Lemma cancel_op_spec fuel w A t : matches w A -> (size (abody A) < fuel)%nat -> wop_ok A (WCancel t) ->
  exists b w', wait_cancel fuel w t = Some (b, w') /\ b2z b = (a_wop A (WCancel t)).1 /\
    matches w' (a_wop A (WCancel t)).2.
Proof.
  intros HM Hf [Ht0 [b Hb]]. unfold wait_cancel.
  pose proof (matches_timer w A (armed w ∖ {[t]}) HM) as HM1. fold (timer_cancel w t) in HM1.
  destruct (matches_thread w A t b HM Hb) as (th & Hth & ->).
  assert (threads (timer_cancel w t) !! t = Some th) as Hth1 by done. run_bind Hth1.
  destruct (out_spec fuel _ _ t th HM1 Hf Ht0 Hth1) as (w2 & E2 & HM2 & Hb2). run_bind E2.
  unfold body in Hb2. rewrite Hth1 in Hb2. destruct (threads w2 !! t) as [th2|] eqn:Hth2; [|done].
  cbn in Hb2. injection Hb2 as Hst Hre. rewrite (bind_eq _ _ _ eq_refl). cbn beta. rewrite Hst.
  destruct (matches_at w A t th HM Hth) as (_ & Hast & Hare). cbn [a_wop]. rewrite Hast, Hare, (ma_armed _ _ HM).
  destruct (state th) eqn:Est; try (exists true, w2; by split_and!).
  destruct (upd_body_spec w2 _ t (fun th => set_state th THREAD_RUNNING) th2 HM2 Hth2) as (w3 & E3 & HM3 & _); [done|].
  run_bind E3. exists false, w3. cbn [state wait_result set_state] in HM3. rewrite Hre in HM3. by split_and!.
Qed.

Lemma fire_op_spec fuel w A t : matches w A -> (size (abody A) < fuel)%nat -> wop_ok A (WFire t) ->
  exists w', scheduler_sleep_timer_fire fuel w t = Some w' /\ matches w' (a_wop A (WFire t)).2.
Proof.
  intros HM Hf [Ht0 [b Hb]]. unfold scheduler_sleep_timer_fire. rewrite (proj2 (Z.eqb_neq t NULL) Ht0).
  destruct (matches_thread w A t b HM Hb) as (th & Hth & ->). run_bind Hth.
  destruct (queued_link w A t _ _ HM (link_some w t th Hth)) as [_ Hq].
  destruct (out_spec fuel w A t th HM Hf Ht0 Hth) as (w1 & E1 & HM1 & Hb1). cbn [a_wop].
  destruct (Z.eqb_spec (blocked_on th) NULL) as [Hz|Hnz]; cbn [negb] in *.
  - rewrite bool_decide_eq_false_2 by tauto. rewrite (bind_eq _ _ _ eq_refl).
    destruct (unblock_spec w A t th HM Hth) as (w2 & E2 & HM2 & _). by exists w2.
  - rewrite bool_decide_eq_true_2 by tauto. cbn [snd].
    unfold body in Hb1. rewrite Hth in Hb1. destruct (threads w1 !! t) as [th1|] eqn:Hth1; [|done].
    cbn in Hb1. injection Hb1 as Hst Hre.
    destruct (upd_body_spec w1 _ t (fun th => set_result th WAIT_TIMEOUT) th1 HM1 Hth1) as (w2 & E2 & HM2 & _ & Ht2 & _); [done|].
    cbn [state wait_result set_result] in HM2.
    rewrite (bind_eq _ w2) by (by run_bind E1).
    destruct (unblock_spec w2 _ t _ HM2 Ht2) as (w3 & E3 & HM3 & _). exists w3. split; [exact E3|].
    destruct (matches_at w A t th HM Hth) as (_ & -> & _). by rewrite <- Hst.
Qed.

Lemma dequeue_op_spec w A q l : matches w A -> aq A !! q = Some l ->
  match l with
  | [] => dequeue_head w q = Some (NULL, w)
  | t :: r => exists w1 w2, dequeue_head w q = Some (t, w1) /\ t <> NULL /\
      upd_thread w1 t (fun th => set_result th WAIT_OK) = Some w2 /\
      matches w2 (a_body (a_queues A (<[q := r]> (aq A))) t (a_state A t, WAIT_OK)) /\
      exists th, threads w2 !! t = Some th
  end.
Proof.
  intros HM Hq. pose proof (dequeue_spec w (aq A) q l (ma_reps _ _ HM) Hq) as Hd.
  destruct l as [|t r]; [done|]. destruct Hd as (w1 & E1 & HR1 & Hb1 & [n Hn] & Ht0).
  pose proof (matches_queues w w1 A _ HM HR1 Hb1) as HM1.
  destruct (link_thread _ _ _ _ Hn) as (th & Hth & _).
  destruct (upd_body_spec w1 _ t (fun th => set_result th WAIT_OK) th HM1 Hth) as (w2 & E2 & HM2 & _ & Ht2 & _); [done|].
  destruct (matches_at w1 _ t th HM1 Hth) as (_ & Hst & _). exists w1, w2. split_and!; try done; [|by eexists].
  cbn [state wait_result set_result] in HM2. change (a_state A t) with (a_state (a_queues A (<[q := r]> (aq A))) t).
  by rewrite Hst.
Qed.

Lemma wake_all_spec fuel w A q l : matches w A -> (size (abody A) < fuel)%nat -> aq A !! q = Some l ->
  exists w', wait_queue_wake_all fuel w q = Some w' /\
    matches w' (fold_left a_wake l (a_queues A (<[q := []]> (aq A)))).
Proof.
  intros HM Hf Hq. pose proof (queue_short w A q l HM Hq) as Hlen.
  destruct (rp_queue _ _ (ma_reps _ _ HM) q l Hq) as (_ & Hqs & Hs & Hnd).
  unfold wait_queue_wake_all. run_bind Hqs. cbn [head ends].
  set (w0 := upd_queue w q (mk_wq NULL NULL)).
  apply (seg_ext w w0) in Hs; [|done].
  destruct (unblock_chain_spec fuel q l w0 Hs Hnd ltac:(lia)) as (w1 & E1 & Hs1 & Hb1 & Q1 & O1). run_bind E1.
  apply wake_chain_spec; [|done|done|lia]. apply (matches_queues w); [done| |by destruct Hb1].
  eapply (reps_update w w1 (aq A) q l []); [apply HM|done|by rewrite Q1|done|constructor| |by intros ? ?%not_elem_of_nil|].
  - intros t Ht _. by rewrite O1.
  - intros t Ht _. destruct (seg_link _ _ _ _ t Hs1 Ht) as [_ [n Hn]]. by exists n.
Qed.

Lemma run_wop_spec fuel w A o : matches w A -> (S (size (abody A)) < fuel)%nat -> wop_ok A o ->
  exists w', run_wop fuel w o = Some ((a_wop A o).1, w') /\ matches w' (a_wop A o).2.
Proof.
  intros HM Hf Hok. destruct o as [t q tmo room|t|t|q|q|q|q t|t|q]; cbn [run_wop].
  - destruct (prepare_spec fuel w A t q tmo room HM Hf Hok) as (w' & E & HM'). run_bind E.
    exists w'. split; [|done]. cbn. by destruct (_ && _).
  - destruct (cancel_op_spec fuel w A t HM ltac:(lia) Hok) as (b & w' & E & Hb & HM'). run_bind E.
    exists w'. by rewrite Hb.
  - destruct Hok as [_ [b Hb]]. destruct (matches_thread w A t b HM Hb) as (th & Hth & _).
    unfold wait_finish. assert (threads (timer_cancel w t) !! t = Some th) as Hth1 by done. run_bind Hth1.
    destruct (matches_at w A t th HM Hth) as (_ & _ & Hre). eexists. split; [by cbn; rewrite Hre|].
    cbn. rewrite (ma_armed _ _ HM). by apply matches_timer.
  - destruct Hok as [l Hq]. pose proof (dequeue_op_spec w A q l HM Hq) as Hd. cbn [a_wop].
    rewrite (a_list_eq A q l Hq). unfold wait_queue_wake_one. destruct l as [|t r].
    + run_bind Hd. cbn. by exists w.
    + destruct Hd as (w1 & w2 & E1 & Ht0 & E2 & HM2 & th & Hth). run_bind E1.
      rewrite (proj2 (Z.eqb_neq t NULL) Ht0). run_bind E2.
      destruct (unblock_spec w2 _ t th HM2 Hth) as (w3 & E3 & HM3 & _). run_bind E3. by exists w3.
  - destruct Hok as [l Hq]. pose proof (dequeue_op_spec w A q l HM Hq) as Hd. cbn [a_wop].
    rewrite (a_list_eq A q l Hq). unfold wait_queue_extract_one. destruct l as [|t r].
    + run_bind Hd. cbn. by exists w.
    + destruct Hd as (w1 & w2 & E1 & Ht0 & E2 & HM2 & _). run_bind E1.
      rewrite (proj2 (Z.eqb_neq t NULL) Ht0). run_bind E2. by exists w2.
  - destruct Hok as [l Hq]. destruct (wake_all_spec fuel w A q l HM ltac:(lia) Hq) as (w' & E & HM').
    run_bind E. exists w'. cbn [a_wop]. by rewrite (a_list_eq A q l Hq).
  - destruct Hok as [Ht0 [l Hq]]. destruct (rp_queue _ _ (ma_reps _ _ HM) q l Hq) as (Hq0 & _).
    unfold wait_queue_remove_thread. rewrite (proj2 (Z.eqb_neq t NULL) Ht0), (proj2 (Z.eqb_neq q NULL) Hq0).
    cbn [orb]. pose proof (queue_short w A q l HM Hq).
    destruct (unlink_spec fuel w (aq A) q l t (ma_reps _ _ HM) Hq ltac:(lia)) as (w' & E & HR & Hb & _).
    run_bind E. exists w'. cbn [a_wop]. rewrite (a_list_eq A q l Hq). split; [done|]. by eapply matches_queues.
  - destruct (fire_op_spec fuel w A t HM ltac:(lia) Hok) as (w' & E & HM'). run_bind E. exists w'.
    split; [|done]. cbn. by destruct (bool_decide _).
  - destruct Hok as [l Hq]. destruct (rp_queue _ _ (ma_reps _ _ HM) q l Hq) as (_ & Hqs & Hs & _).
    unfold wait_queue_empty. rewrite (bind_eq _ (bool_decide (a_list A q = []))); [by exists w|].
    run_bind Hqs. f_equal. rewrite (a_list_eq A q l Hq). cbn [head ends]. destruct l as [|t r]; [done|].
    destruct Hs as (Ht0 & _). cbn [hd]. by rewrite (proj2 (Z.eqb_neq t NULL) Ht0).
Qed.

(** ** The property *)

Fixpoint run_wops (fuel : nat) (w : world) (ops : list wait_op) : option (list Z * world) :=
  match ops with
  | [] => Some ([], w)
  | o :: rest =>
      '(r, w1) ← run_wop fuel w o;
      '(rs, w2) ← run_wops fuel w1 rest;
      Some (r :: rs, w2)
  end.

Fixpoint a_wops (A : aworld) (ops : list wait_op) : list Z * aworld :=
  match ops with
  | [] => ([], A)
  | o :: rest => let '(r, A1) := a_wop A o in let '(rs, A2) := a_wops A1 rest in (r :: rs, A2)
  end.

Fixpoint wops_ok (A : aworld) (ops : list wait_op) : Prop :=
  match ops with
  | [] => True
  | o :: rest => wop_ok A o /\ wops_ok (a_wop A o).2 rest
  end.

(** No operation creates or forgets a thread. *)
Definition tids (A : aworld) : gset Z := dom (abody A).

Lemma tids_body A t b : t ∈ tids A -> tids (a_body A t b) = tids A.
Proof. unfold tids. cbn. rewrite dom_insert_L. set_solver. Qed.

Lemma tids_unblock A t : tids (a_unblock A t) = tids A.
Proof.
  unfold a_unblock. destruct (t =? NULL); [done|]. unfold a_state.
  destruct (abody A !! t) as [[st r]|] eqn:E; [|done].
  assert (t ∈ tids A) as Ht by (apply elem_of_dom; by eexists).
  destruct st; cbn; try done; by apply (tids_body (a_timer A (aarmed A ∖ {[t]}))).
Qed.

Lemma tids_wake l : forall A, (forall t, t ∈ l -> t ∈ tids A) -> tids (fold_left a_wake l A) = tids A.
Proof.
  induction l as [|t l IH]; intros A Hl; [done|]. cbn.
  assert (tids (a_wake A t) = tids A) as E.
  { unfold a_wake. rewrite tids_unblock. apply tids_body, Hl. by left. }
  rewrite IH, E; [done|]. intros x Hx. rewrite E. apply Hl. by right.
Qed.

Lemma queue_tids w A q t : matches w A -> t ∈ a_list A q -> t ∈ tids A.
Proof.
  intros HM Ht. unfold a_list in Ht. destruct (aq A !! q) as [l|] eqn:Hq; [|by apply not_elem_of_nil in Ht].
  destruct (rp_queue _ _ (ma_reps _ _ HM) q l Hq) as (_ & _ & Hs & _).
  destruct (seg_link _ _ _ _ t Hs Ht) as [_ [n Hn]]. destruct (link_thread _ _ _ _ Hn) as (th & Hth & _).
  apply elem_of_dom. destruct (matches_at w A t th HM Hth) as [-> _]. by eexists.
Qed.

Lemma tids_wop w A o : matches w A -> wop_ok A o -> tids (a_wop A o).2 = tids A.
Proof.
  intros HM Hok. destruct o as [t q tmo room|t|t|q|q|q|q t|t|q]; cbn [a_wop]; try done.
  - destruct Hok as (_ & Hb & _). assert (t ∈ tids A) as Ht by by apply elem_of_dom.
    destruct (_ && _); cbn [snd]; by rewrite tids_body.
  - destruct Hok as [_ Hb]. assert (t ∈ tids A) as Ht by by apply elem_of_dom.
    destruct (a_state A t); try done. cbn [snd]. by rewrite tids_body.
  - destruct (a_list A q) as [|t r] eqn:El; [done|]. cbn [snd]. unfold a_wake. rewrite tids_unblock.
    rewrite tids_body; [done|]. apply (queue_tids w A q t HM). rewrite El. by left.
  - destruct (a_list A q) as [|t r] eqn:El; [done|]. cbn [snd]. rewrite tids_body; [done|].
    apply (queue_tids w A q t HM). rewrite El. by left.
  - cbn [snd]. rewrite tids_wake; [done|]. intros t Ht. by apply (queue_tids w A q t HM).
  - destruct Hok as [_ Hb]. assert (t ∈ tids A) as Ht by by apply elem_of_dom.
    case_bool_decide; cbn [snd]; rewrite tids_unblock; [|done]. by rewrite tids_body.
Qed.

Definition fuel_for (A : aworld) : nat := S (S (size (abody A))).

(** C5: wait queues are FIFO lists.  Any sequence of preparations (with a timeout, without
    one, or with a full timer heap), cancellations, wakes of one or all, extractions,
    removals, timer expiries and finishes, run on the intrusive queues, gives the results
    and the states the list machine gives: threads are woken in arrival order, made ready
    once, with the result and the timer the machine says; and a thread is never in two
    queues or twice in one. *)
Theorem wait_queues_refine_lists ops : forall w A,
  matches w A -> wops_ok A ops ->
  exists w', run_wops (fuel_for A) w ops = Some ((a_wops A ops).1, w') /\
    matches w' (a_wops A ops).2 /\
    (forall q q' l l' t, aq (a_wops A ops).2 !! q = Some l -> aq (a_wops A ops).2 !! q' = Some l' ->
       t ∈ l -> t ∈ l' -> q = q' /\ NoDup l).
Proof.
  assert (forall ops fuel w A, matches w A -> wops_ok A ops -> (S (size (abody A)) < fuel)%nat ->
    exists w', run_wops fuel w ops = Some ((a_wops A ops).1, w') /\ matches w' (a_wops A ops).2) as Hrun.
  { clear ops. induction ops as [|o ops IH]; intros fuel w A HM Hok Hf; [by exists w|].
    cbn [run_wops a_wops]. destruct Hok as [Ho Hok].
    destruct (run_wop_spec fuel w A o HM Hf Ho) as (w1 & E1 & HM1). run_bind E1.
    destruct (IH fuel w1 _ HM1 Hok) as (w2 & E2 & HM2).
    { pose proof (tids_wop w A o HM Ho) as Ht. unfold tids in Ht.
      rewrite <- (size_dom (D := gset Z)), Ht, size_dom. done. }
    run_bind E2. exists w2. destruct (a_wop A o) as [r A1]. cbn in *. by destruct (a_wops A1 ops). }
  intros w A HM Hok. destruct (Hrun ops (fuel_for A) w A HM Hok) as (w' & E & HM'); [unfold fuel_for; lia|].
  exists w'. split; [done|]. split; [done|]. intros q q' l l' t Hq Hq' Ht Ht'. split.
  - by eapply (queue_unique w' _ q q' l l' t (ma_reps _ _ HM')).
  - apply (rp_queue _ _ (ma_reps _ _ HM') q l Hq).
Qed.

(** Two threads and a queue; the first waits with a timeout, the second without. *)
Definition demo_world : world :=
  mk_world (<[1 := mk_thread THREAD_RUNNING 0 0 0]> (<[2 := mk_thread THREAD_RUNNING 0 0 0]> ∅))
    (<[100 := mk_wq NULL NULL]> ∅) ∅ [].
Definition demo_aworld : aworld :=
  mk_aw (<[100 := []]> ∅) (<[1 := (THREAD_RUNNING, 0)]> (<[2 := (THREAD_RUNNING, 0)]> ∅)) ∅ [].

Lemma demo_matches : matches demo_world demo_aworld.
Proof.
  constructor; try done.
  - split.
    + intros q l. cbn. rewrite lookup_insert_Some, lookup_empty. intros [[<- <-]|[_ [=]]].
      split_and!; try done. constructor.
    + intros t n b Hl Hb. exfalso. apply Hb. destruct (link_thread _ _ _ _ Hl) as (th & Hth & _ & <-). cbn in Hth.
      rewrite !lookup_insert_Some, lookup_empty in Hth. by destruct Hth as [[_ <-]|(_ & [[_ <-]|(_ & [=])])].
  - intros t. unfold body. cbn. destruct (decide (t = 1)) as [->|]; [by rewrite !lookup_insert_eq|].
    rewrite !(lookup_insert_ne _ 1) by done. destruct (decide (t = 2)) as [->|]; [by rewrite !lookup_insert_eq|].
    by rewrite !lookup_insert_ne.
Qed.

Definition demo_wops : list wait_op :=
  [WPrepare 1 100 50 true; WPrepare 2 100 0 true; WFire 1; WWakeOne 100; WFinish 1; WFinish 2].

Lemma wait_queues_refine_lists_witness :
  exists w', run_wops 4 demo_world demo_wops = Some ([0; 0; 0; 1; WAIT_TIMEOUT; WAIT_OK], w') /\
    ready w' = [1; 2].
Proof.
  destruct (wait_queues_refine_lists demo_wops demo_world demo_aworld demo_matches) as (w' & E & HM & _).
  { repeat split; try (by vm_compute); try (by eexists).
    - intros (q & l & Hq & Ht). cbn in Hq. rewrite lookup_insert_Some, lookup_empty in Hq.
      destruct Hq as [[_ <-]|[_ [=]]]. by apply not_elem_of_nil in Ht.
    - intros (q & l & Hq & Ht). cbn in Hq. rewrite !lookup_insert_Some, lookup_empty in Hq.
      destruct Hq as [[_ <-]|[? [[? ?]|[? [=]]]]]; [|done].
      vm_compute in Ht. set_solver. }
  exists w'. split; [exact E|]. rewrite <- (ma_ready _ _ HM). by vm_compute.
Defined.
