(* ===== verification/Semaphore.v ===== *)
(** * Counting semaphores (kernel/sync/semaphore.c)

    Any number of threads in [wait], [wait_timeout], [trywait] and [signal].  Each
    section under the guard, each wake and each expiry of a sleep timer is one step, and
    the wait queue is the FIFO list that [Wait] shows it is. *)

From S2P Require Import Prelude Wait.

(** Where a thread is in the semaphore's code. *)
Inductive sem_pc :=
  | SIdle
  | STry (timeout_ms : Z)                (* wait_internal, at the top of the loop *)
  | SAsleep (timeout_ms : Z)             (* in scheduler_yield, on the queue *)
  | SWoken (timeout_ms result : Z)       (* runnable again, before wait_finish *)
  | SPost.                               (* semaphore_signal, before the wake *)

(** The last two fields count the acquisitions and the signals. *)
Record semaphore_t := mk_sem {
  count : Z;
  waiters : list Z;
  pcs : gmap Z sem_pc;
  acquired : Z;
  signalled : Z
}.

Definition semaphore_init (initial : Z) (ts : gset Z) : semaphore_t :=
  mk_sem initial [] (gset_to_gmap SIdle ts) 0 0.

(** The guarded section of [semaphore_trywait] and of the loop's fast path. *)
Definition sem_take (s : semaphore_t) : option semaphore_t :=
  if 0 <? count s
  then Some (mk_sem (s32 (count s - 1)) (waiters s) (pcs s) (acquired s + 1) (signalled s))
  else None.

Definition at_pc (s : semaphore_t) (t : Z) (p : sem_pc) : semaphore_t :=
  mk_sem (count s) (waiters s) (<[t := p]> (pcs s)) (acquired s) (signalled s).
Definition with_waiters (s : semaphore_t) (l : list Z) : semaphore_t :=
  mk_sem (count s) l (pcs s) (acquired s) (signalled s).

(** One turn of the loop of [wait_internal]: take, or prepare to sleep ([room] as
    [timer_arm_in] answers). *)
Definition wait_turn (s : semaphore_t) (t timeout_ms : Z) (room : bool) : semaphore_t :=
  match sem_take s with
  | Some s' => at_pc s' t SIdle
  | None =>
      if (0 <? timeout_ms) && negb room then at_pc s t (SWoken timeout_ms WAIT_TIMEOUT)
      else at_pc (with_waiters s (waiters s ++ [t])) t (SAsleep timeout_ms)
  end.

(** [wait_queue_wake_one] *)
Definition sem_wake (s : semaphore_t) : semaphore_t :=
  match waiters s with
  | [] => s
  | u :: rest =>
      match pcs s !! u with
      | Some (SAsleep tmo) => at_pc (with_waiters s rest) u (SWoken tmo WAIT_OK)
      | _ => with_waiters s rest
      end
  end.

Definition semaphore_signal (s : semaphore_t) (t : Z) : semaphore_t :=
  at_pc (mk_sem (s32 (count s + 1)) (waiters s) (pcs s) (acquired s) (signalled s + 1)) t SPost.

Inductive sem_step (s : semaphore_t) : semaphore_t -> Prop :=
  | sem_call t tmo : pcs s !! t = Some SIdle -> 0 <= tmo -> sem_step s (at_pc s t (STry tmo))
  | sem_turn t tmo room : pcs s !! t = Some (STry tmo) -> sem_step s (wait_turn s t tmo room)
  | sem_finish t tmo res : pcs s !! t = Some (SWoken tmo res) ->
      sem_step s (at_pc s t (if res =? WAIT_TIMEOUT then SIdle else STry tmo))
  | sem_trywait t s' : pcs s !! t = Some SIdle -> sem_take s = Some s' -> sem_step s s'
  | sem_signal t : pcs s !! t = Some SIdle -> sem_step s (semaphore_signal s t)
  | sem_woke t : pcs s !! t = Some SPost -> sem_step s (at_pc (sem_wake s) t SIdle)
  | sem_expire t tmo : pcs s !! t = Some (SAsleep tmo) -> 0 < tmo ->
      sem_step s (at_pc (with_waiters s (without t (waiters s))) t (SWoken tmo WAIT_TIMEOUT)).

(** ** The invariant *)

(** Threads that will look at the count again, or wake one that will. *)
Definition in_flight (p : sem_pc) : Z :=
  match p with
  | STry _ | SPost => 1
  | SWoken _ r => if r =? WAIT_TIMEOUT then 0 else 1
  | SIdle | SAsleep _ => 0
  end.

Definition asleep (p : sem_pc) : Prop := match p with SAsleep _ => True | _ => False end.

Record sem_inv (initial : Z) (s : semaphore_t) : Prop := {
  si_count : count s = initial + signalled s - acquired s;
  si_pos : 0 <= count s;
  si_signals : 0 <= acquired s /\ 0 <= signalled s;
  si_nodup : NoDup (waiters s);
  si_queue : forall t, t ∈ waiters s <-> exists p, pcs s !! t = Some p /\ asleep p;
  si_wakes : waiters s <> [] -> count s <= msum in_flight (pcs s)
}.

Lemma in_flight_nonneg p : 0 <= in_flight p.
Proof. destruct p; cbn; try lia. by destruct (_ =? _). Qed.

Lemma in_queue_at s t p q : (forall t, t ∈ waiters s <-> exists p, pcs s !! t = Some p /\ asleep p) ->
  pcs s !! t = Some q -> (asleep p <-> asleep q) ->
  forall x, x ∈ waiters s <-> exists p', <[t := p]> (pcs s) !! x = Some p' /\ asleep p'.
Proof.
  intros Hq Ht Hpq x. rewrite Hq. destruct (decide (x = t)) as [->|].
  - rewrite lookup_insert_eq. split; intros (p' & ? & ?); simplify_eq; eexists; (split; [done|]); tauto.
  - by rewrite lookup_insert_ne.
Qed.

Lemma elem_of_without t l x : x ∈ without t l <-> x ∈ l /\ x <> t.
Proof. unfold without. rewrite list_elem_of_filter. tauto. Qed.

Lemma sem_take_spec initial s : sem_inv initial s -> initial + signalled s < 0x80000000 ->
  match sem_take s with
  | Some s' => 0 < count s /\
      s' = mk_sem (count s - 1) (waiters s) (pcs s) (acquired s + 1) (signalled s)
  | None => count s = 0
  end.
Proof.
  intros [Hc Hp Hs _ _ _] Hb. unfold sem_take. destruct (Z.ltb_spec 0 (count s)); [|lia].
  split; [done|]. by rewrite s32_small by lia.
Qed.

(** A thread moves between two places outside the queue. *)
Lemma sem_at_pc_inv initial s t p q : sem_inv initial s -> pcs s !! t = Some q ->
  ~ asleep p -> ~ asleep q ->
  (waiters s <> [] -> count s <= msum in_flight (pcs s) - in_flight q + in_flight p) ->
  sem_inv initial (at_pc s t p).
Proof.
  intros [Hc Hp Hs Hnd Hq Hw] Ht Hap Haq Hm. constructor; cbn; try done.
  - by apply (in_queue_at s t p q Hq Ht).
  - by rewrite (msum_update in_flight _ t q).
Qed.

(** A sleeping thread leaves the queue, which becomes [without t]. *)
Lemma leave_inv initial s t tmo p : sem_inv initial s -> pcs s !! t = Some (SAsleep tmo) ->
  ~ asleep p ->
  (waiters s <> [] -> count s <= msum in_flight (pcs s) + in_flight p) ->
  sem_inv initial (at_pc (with_waiters s (without t (waiters s))) t p).
Proof.
  intros [Hc Hp Hs Hnd Hq Hw] Ht Hap Hm.
  assert (t ∈ waiters s) as Hin by (apply Hq; eexists; by split).
  constructor; cbn; try done.
  - by apply NoDup_filter.
  - intros x. rewrite elem_of_without, Hq. destruct (decide (x = t)) as [->|].
    + rewrite lookup_insert_eq. split; [by intros [_ ?]|]. by intros (p' & [= <-] & ?).
    + rewrite lookup_insert_ne by done. tauto.
  - intros _. rewrite (msum_update in_flight _ t (SAsleep tmo)) by done. cbn [in_flight].
    assert (waiters s <> []) as Hne by (intros E; rewrite E in Hin; by apply not_elem_of_nil in Hin).
    specialize (Hm Hne). lia.
Qed.

Lemma wait_turn_inv initial s t tmo room : sem_inv initial s -> initial + signalled s < 0x80000000 ->
  pcs s !! t = Some (STry tmo) -> sem_inv initial (wait_turn s t tmo room).
Proof.
  intros Hinv Hb Ht. pose proof (sem_take_spec initial s Hinv Hb) as Htake. unfold wait_turn.
  pose proof Hinv as [Hc Hp Hs Hnd Hq Hw]. destruct (sem_take s) as [s'|].
  - destruct Htake as [Hpos ->]. constructor; cbn; try done; try lia.
    + by apply (in_queue_at s t SIdle (STry tmo) Hq Ht).
    + intros Hne. specialize (Hw Hne). rewrite (msum_update in_flight _ t (STry tmo)) by done. cbn. lia.
  - destruct (_ && _) eqn:E.
    + apply (sem_at_pc_inv initial s t _ (STry tmo)); try done; [by intros []..|].
      pose proof (msum_ge in_flight (pcs s) t _ in_flight_nonneg Ht).
      change (in_flight (SWoken tmo WAIT_TIMEOUT)) with 0. change (in_flight (STry tmo)) with 1 in *. lia.
    + assert (t ∉ waiters s) as Hno by (rewrite Hq; intros (p & ? & ?); by simplify_eq).
      constructor; cbn; try done.
      * apply NoDup_app. split_and!; [done| |apply NoDup_singleton].
        intros x Hx ->%list_elem_of_singleton. done.
      * intros x. rewrite elem_of_app, list_elem_of_singleton, Hq. destruct (decide (x = t)) as [->|].
        -- rewrite lookup_insert_eq. split; [intros _; eexists; by split|by right].
        -- rewrite lookup_insert_ne by done. tauto.
      * intros _. rewrite (msum_update in_flight _ t (STry tmo)) by done. cbn [in_flight].
        pose proof (msum_ge in_flight (pcs s) t _ in_flight_nonneg Ht). cbn in *. lia.
Qed.

(** The post that wakes: either nobody sleeps, or its in-flight token passes to the first. *)
Lemma sem_wake_spec initial s : sem_inv initial s ->
  match waiters s with
  | [] => sem_wake s = s
  | u :: rest => exists tmo, pcs s !! u = Some (SAsleep tmo) /\ rest = without u (waiters s) /\
      sem_wake s = at_pc (with_waiters s rest) u (SWoken tmo WAIT_OK)
  end.
Proof.
  intros [_ _ _ Hnd Hq _]. unfold sem_wake. destruct (waiters s) as [|u rest] eqn:Ew; [done|].
  assert (u ∈ waiters s) as Hu by (rewrite Ew; by left).
  rewrite <- Ew in Hq. apply Hq in Hu as (p & Hp & Ha). destruct p as [| |tmo| |]; try done. exists tmo.
  rewrite Hp. split; [done|]. split; [|done]. apply NoDup_cons in Hnd as [Hur _]. unfold without.
  rewrite filter_cons, decide_False by (intros Hn; by apply Hn). symmetry. by apply without_not_in.
Qed.

Lemma sem_step_inv initial s s' : sem_inv initial s -> sem_step s s' ->
  initial + signalled s' < 0x80000000 -> signalled s <= signalled s' /\ sem_inv initial s'.
Proof.
  intros Hinv Hst Hb. pose proof Hinv as [Hc Hp Hs Hnd Hq Hw].
  destruct Hst as [t tmo Ht Htm|t tmo room Ht|t tmo res Ht|t s' Ht Htake|t Ht|t Ht|t tmo Ht Htm].
  - split; [done|]. apply (sem_at_pc_inv initial s t _ SIdle); try done; [by intros []..|].
    intros Hne. specialize (Hw Hne). cbn. lia.
  - assert (signalled (wait_turn s t tmo room) = signalled s) as E.
    { unfold wait_turn, sem_take. destruct (0 <? count s); [done|]. by destruct (_ && _). }
    rewrite E in *. split; [lia|]. by apply wait_turn_inv.
  - split; [done|]. apply (sem_at_pc_inv initial s t _ (SWoken tmo res)); try done; [destruct (_ =? _); by intros []|by intros []|].
    intros Hne. specialize (Hw Hne). cbn. destruct (Z.eqb_spec res WAIT_TIMEOUT) as [->|]; cbn; lia.
  - assert (signalled s' = signalled s) as E.
    { unfold sem_take in Htake. destruct (0 <? count s); [|done]. by injection Htake as <-. }
    rewrite E in *. pose proof (sem_take_spec initial s Hinv Hb) as Hspec. rewrite Htake in Hspec.
    destruct Hspec as [Hpos ->]. split; [done|]. constructor; cbn; try done; try lia.
    intros Hne. specialize (Hw Hne). lia.
  - cbn in Hb. split; [cbn; lia|]. constructor; cbn; rewrite ?s32_small by lia; try done; try lia.
    + by apply (in_queue_at s t SPost SIdle Hq Ht).
    + intros Hne. specialize (Hw Hne). rewrite (msum_update in_flight _ t SIdle) by done. cbn. lia.
  - pose proof (sem_wake_spec initial s Hinv) as Hwk. destruct (waiters s) as [|u rest] eqn:Ew.
    + rewrite Hwk. split; [done|]. apply (sem_at_pc_inv initial s t _ SPost); try done; by intros [].
    + destruct Hwk as (tmo & Hu & Hrest & ->). assert (u <> t) as Hut by (intros ->; congruence).
      split; [done|]. rewrite Hrest, <- Ew. specialize (Hw ltac:(done)).
      set (s1 := at_pc (with_waiters s (without u (waiters s))) u (SWoken tmo WAIT_OK)).
      assert (sem_inv initial s1) as Hinv1.
      { apply (leave_inv initial s u tmo); try done; [by intros []|]. intros _.
        change (in_flight (SWoken tmo WAIT_OK)) with 1. lia. }
      apply (sem_at_pc_inv initial s1 t _ SPost); try done; [|by intros []..|].
      * unfold s1. cbn. by rewrite lookup_insert_ne.
      * intros _. unfold s1. cbn [waiters at_pc with_waiters pcs count].
        rewrite (msum_update in_flight _ u (SAsleep tmo)) by done.
        change (in_flight (SWoken tmo WAIT_OK)) with 1. cbn [in_flight]. lia.
  - split; [done|]. apply (leave_inv initial s t tmo); try done; [by intros []|].
    intros Hne. specialize (Hw Hne). cbn. lia.
Qed.

Lemma sem_init_inv initial ts : 0 <= initial -> sem_inv initial (semaphore_init initial ts).
Proof.
  intros Hi. assert (forall t p, gset_to_gmap SIdle ts !! t = Some p -> p = SIdle) as Hidle.
  { intros t p Hp. by apply lookup_gset_to_gmap_Some in Hp as [_ <-]. }
  constructor; cbn; try lia; [constructor| |done].
  - intros t. split; [by intros ?%not_elem_of_nil|]. intros (p & ->%Hidle & []).
Qed.

(** ** The properties *)


