(* ===== verification/Rwlock.v ===== *)
(** * Reader/writer locks (kernel/sync/rwlock.c)

    Any number of threads locking and unlocking for reading and writing.  Each section
    under the guard and each wake is one step; the two wait queues are FIFO lists.  A
    thread unlocks only what it holds. *)

From S2P Require Import Prelude Wait.

(** Where a thread is in the lock's code. *)
Inductive rw_pc :=
  | RwIdle
  | RTry                 (* rwlock_read_lock, at the top of the loop *)
  | RAsleep
  | Reading
  | RWakeWriter          (* rwlock_read_unlock, before the wake *)
  | WTry                 (* rwlock_write_lock, at the top of the loop *)
  | WAsleep
  | WWindow              (* awake, before its writers_waiting-- *)
  | Writing
  | WWakeWriter          (* rwlock_write_unlock, before the wake of one writer *)
  | WWakeReaders.        (* rwlock_write_unlock, before the wake of all readers *)

#[export] Instance rw_pc_eq_dec : EqDecision rw_pc.
Proof. solve_decision. Defined.

Record rwlock_t := mk_rw {
  readers : Z;
  writers_waiting : Z;
  read_waiters : list Z;
  write_waiters : list Z;
  pcs : gmap Z rw_pc
}.

Definition rwlock_init (ts : gset Z) : rwlock_t := mk_rw 0 0 [] [] (gset_to_gmap RwIdle ts).

Definition at_pc (s : rwlock_t) (t : Z) (p : rw_pc) : rwlock_t :=
  mk_rw (readers s) (writers_waiting s) (read_waiters s) (write_waiters s) (<[t := p]> (pcs s)).

(** One turn of the loop of [rwlock_read_lock]. *)
Definition rwlock_read_lock (s : rwlock_t) (t : Z) : rwlock_t :=
  if (0 <=? readers s) && (writers_waiting s =? 0) then
    at_pc (mk_rw (s32 (readers s + 1)) (writers_waiting s) (read_waiters s) (write_waiters s) (pcs s)) t Reading
  else
    at_pc (mk_rw (readers s) (writers_waiting s) (read_waiters s ++ [t]) (write_waiters s) (pcs s)) t RAsleep.

Definition rwlock_read_unlock (s : rwlock_t) (t : Z) : rwlock_t :=
  let r := s32 (readers s - 1) in
  let wake_writer := (r =? 0) && (0 <? writers_waiting s) in
  at_pc (mk_rw r (writers_waiting s) (read_waiters s) (write_waiters s) (pcs s)) t
    (if wake_writer then RWakeWriter else RwIdle).

(** One turn of the loop of [rwlock_write_lock], and the section after the sleep. *)
Definition rwlock_write_lock (s : rwlock_t) (t : Z) : rwlock_t :=
  if readers s =? 0 then
    at_pc (mk_rw (-1) (writers_waiting s) (read_waiters s) (write_waiters s) (pcs s)) t Writing
  else
    at_pc (mk_rw (readers s) (writers_waiting s ⊞ 1) (read_waiters s) (write_waiters s ++ [t]) (pcs s)) t WAsleep.

Definition write_resume (s : rwlock_t) (t : Z) : rwlock_t :=
  at_pc (mk_rw (readers s) (writers_waiting s ⊟ 1) (read_waiters s) (write_waiters s) (pcs s)) t WTry.

Definition rwlock_write_unlock (s : rwlock_t) (t : Z) : rwlock_t :=
  let writer_next := 0 <? writers_waiting s in
  at_pc (mk_rw 0 (writers_waiting s) (read_waiters s) (write_waiters s) (pcs s)) t
    (if writer_next then WWakeWriter else WWakeReaders).

(** [wait_queue_wake_one(&rw->write_waiters)] *)
Definition wake_one_writer (s : rwlock_t) : rwlock_t :=
  match write_waiters s with
  | [] => s
  | u :: rest =>
      at_pc (mk_rw (readers s) (writers_waiting s) (read_waiters s) rest (pcs s)) u WWindow
  end.

(** [wait_queue_wake_all(&rw->read_waiters)] *)
Definition wake_all_readers (s : rwlock_t) : rwlock_t :=
  mk_rw (readers s) (writers_waiting s) [] (write_waiters s)
    (fold_left (fun m u => <[u := RTry]> m) (read_waiters s) (pcs s)).

Inductive rw_step (s : rwlock_t) : rwlock_t -> Prop :=
  | rw_call_read t : pcs s !! t = Some RwIdle -> rw_step s (at_pc s t RTry)
  | rw_read_turn t : pcs s !! t = Some RTry -> rw_step s (rwlock_read_lock s t)
  | rw_read_unlock t : pcs s !! t = Some Reading -> rw_step s (rwlock_read_unlock s t)
  | rw_call_write t : pcs s !! t = Some RwIdle -> rw_step s (at_pc s t WTry)
  | rw_write_turn t : pcs s !! t = Some WTry -> rw_step s (rwlock_write_lock s t)
  | rw_write_resume t : pcs s !! t = Some WWindow -> rw_step s (write_resume s t)
  | rw_write_unlock t : pcs s !! t = Some Writing -> rw_step s (rwlock_write_unlock s t)
  | rw_wake_writer t p : pcs s !! t = Some p -> p = RWakeWriter \/ p = WWakeWriter ->
      rw_step s (at_pc (wake_one_writer s) t RwIdle)
  | rw_wake_readers t : pcs s !! t = Some WWakeReaders ->
      rw_step s (at_pc (wake_all_readers s) t RwIdle).

(** ** The invariant *)

Definition is_pc (q p : rw_pc) : Z := if decide (p = q) then 1 else 0.

(** How many threads are at [q]. *)
Definition num (s : rwlock_t) (q : rw_pc) : Z := msum (is_pc q) (pcs s).

(** Writers that will look at [readers] again, or threads that will wake one. *)
Definition writer_coming (s : rwlock_t) : Prop :=
  0 < num s RWakeWriter + num s WWakeWriter + num s WWindow + num s WTry.

Record rw_inv (s : rwlock_t) : Prop := {
  rw_mutex : (0 <= readers s /\ num s Reading = readers s /\ num s Writing = 0) \/
             (readers s = -1 /\ num s Reading = 0 /\ num s Writing = 1);
  rw_waiting : writers_waiting s = num s WAsleep + num s WWindow;
  rw_nodup : NoDup (read_waiters s) /\ NoDup (write_waiters s);
  rw_rq : forall t, t ∈ read_waiters s <-> pcs s !! t = Some RAsleep;
  rw_wq : forall t, t ∈ write_waiters s <-> pcs s !! t = Some WAsleep;
  rw_writers : write_waiters s <> [] -> readers s <> 0 \/ writer_coming s;
  rw_readers : read_waiters s <> [] ->
    readers s = -1 \/ 0 < num s WWakeReaders \/ 0 < num s WAsleep + num s WWindow + num s WTry;
  rw_size : Z.of_nat (size (pcs s)) < 0x7fffffff
}.

Lemma is_pc_range q p : 0 <= is_pc q p <= 1.
Proof. unfold is_pc. case_decide; lia. Qed.

Lemma num_nonneg s q : 0 <= num s q.
Proof. apply msum_nonneg. intros p. pose proof (is_pc_range q p). lia. Qed.

Lemma num_pos s t q : pcs s !! t = Some q -> 1 <= num s q.
Proof.
  intros Ht. pose proof (msum_ge (is_pc q) (pcs s) t q) as H. unfold num.
  assert (is_pc q q = 1) as E by (unfold is_pc; by rewrite decide_True).
  rewrite E in H. apply H; [|done]. intros p. pose proof (is_pc_range q p). lia.
Qed.

Lemma num_size s q : num s q <= Z.of_nat (size (pcs s)).
Proof. apply msum_le_size. intros p. pose proof (is_pc_range q p). lia. Qed.

(** A thread moves from [old] to [new]. *)
Lemma num_move (m : gmap Z rw_pc) t old new q : m !! t = Some old ->
  msum (is_pc q) (<[t := new]> m) = msum (is_pc q) m - is_pc q old + is_pc q new.
Proof. apply msum_update. Qed.

Definition off_queues (p : rw_pc) : Prop := p <> RAsleep /\ p <> WAsleep.

Lemma num_at s t old new q r ww rq wq : pcs s !! t = Some old ->
  num (at_pc (mk_rw r ww rq wq (pcs s)) t new) q = num s q - is_pc q old + is_pc q new.
Proof. apply num_move. Qed.

(** The numbers after one thread moved, and that all are non-negative. *)
Ltac eval_is_pc :=
  repeat match goal with
  | |- context [is_pc ?a ?b] => let v := eval vm_compute in (is_pc a b) in change (is_pc a b) with v
  | H : context [is_pc ?a ?b] |- _ => let v := eval vm_compute in (is_pc a b) in change (is_pc a b) with v in H
  end.

Ltac rw_nums s :=
  pose proof (num_nonneg s Reading); pose proof (num_nonneg s Writing);
  pose proof (num_nonneg s RWakeWriter); pose proof (num_nonneg s WWakeWriter);
  pose proof (num_nonneg s WWakeReaders); pose proof (num_nonneg s WWindow);
  pose proof (num_nonneg s WTry); pose proof (num_nonneg s WAsleep).

Lemma queue_move (m : gmap Z rw_pc) t old new q (l : list Z) : m !! t = Some old -> old <> q -> new <> q ->
  (forall x, x ∈ l <-> m !! x = Some q) -> forall x, x ∈ l <-> <[t := new]> m !! x = Some q.
Proof.
  intros Ht Ho Hn Hl x. rewrite Hl. destruct (decide (x = t)) as [->|]; [|by rewrite lookup_insert_ne].
  rewrite lookup_insert_eq. split; congruence.
Qed.

Lemma size_move (m : gmap Z rw_pc) t old new : m !! t = Some old -> size (<[t := new]> m) = size m.
Proof. intros Ht. by rewrite map_size_insert, Ht. Qed.

(** A thread moves and the queues stay. *)
Lemma move_inv s t old new r ww : rw_inv s -> pcs s !! t = Some old -> off_queues old -> off_queues new ->
  (let n q := num s q - is_pc q old + is_pc q new in
   ((0 <= r /\ n Reading = r /\ n Writing = 0) \/ (r = -1 /\ n Reading = 0 /\ n Writing = 1)) /\
   ww = n WAsleep + n WWindow /\
   (write_waiters s <> [] -> r <> 0 \/ 0 < n RWakeWriter + n WWakeWriter + n WWindow + n WTry) /\
   (read_waiters s <> [] -> r = -1 \/ 0 < n WWakeReaders \/ 0 < n WAsleep + n WWindow + n WTry)) ->
  rw_inv (at_pc (mk_rw r ww (read_waiters s) (write_waiters s) (pcs s)) t new).
Proof.
  intros [Hm Hw [Hn1 Hn2] Hrq Hwq Hws Hrs Hsz] Ht [Ho1 Ho2] [Hnw1 Hnw2] Hn.
  cbv beta zeta in Hn. destruct Hn as (Hm' & Hw' & Hws' & Hrs').
  constructor; cbn; unfold writer_coming; rewrite ?(num_at s t old) by done; try done.
  - by apply (queue_move _ t old).
  - by apply (queue_move _ t old).
  - by rewrite (size_move _ t old).
Qed.

(** A thread goes to sleep at the end of the readers' queue, or of the writers'. *)
Lemma read_sleep_inv s t : rw_inv s -> pcs s !! t = Some RTry ->
  readers s < 0 \/ writers_waiting s <> 0 ->
  rw_inv (at_pc (mk_rw (readers s) (writers_waiting s) (read_waiters s ++ [t]) (write_waiters s) (pcs s)) t RAsleep).
Proof.
  intros [Hm Hw [Hn1 Hn2] Hrq Hwq Hws Hrs Hsz] Ht Hwhy. rw_nums s.
  constructor; cbn; unfold writer_coming; rewrite ?(num_at s t RTry) by done; eval_is_pc; try lia.
  - split; [|done]. apply NoDup_app. split_and!; [done| |apply NoDup_singleton].
    intros x Hx ->%list_elem_of_singleton. apply Hrq in Hx. congruence.
  - intros x. rewrite elem_of_app, list_elem_of_singleton, Hrq.
    destruct (decide (x = t)) as [->|]; [rewrite lookup_insert_eq; tauto|]. rewrite lookup_insert_ne by done. tauto.
  - by apply (queue_move _ t RTry).
  - intros Hne. destruct (Hws Hne) as [?|Hc]; [by left|right]. unfold writer_coming in Hc. lia.
  - by rewrite (size_move _ t RTry).
Qed.

Lemma write_sleep_inv s t : rw_inv s -> pcs s !! t = Some WTry -> readers s <> 0 ->
  rw_inv (at_pc (mk_rw (readers s) (writers_waiting s ⊞ 1) (read_waiters s) (write_waiters s ++ [t]) (pcs s)) t WAsleep).
Proof.
  intros [Hm Hw [Hn1 Hn2] Hrq Hwq Hws Hrs Hsz] Ht Hwhy. rw_nums s.
  pose proof (num_size s WAsleep). pose proof (num_size s WWindow).
  rewrite (u32_small (writers_waiting s + 1)) by lia.
  constructor; cbn; rewrite ?(num_at s t WTry) by done; eval_is_pc; try lia.
  - split; [done|]. apply NoDup_app. split_and!; [done| |apply NoDup_singleton].
    intros x Hx ->%list_elem_of_singleton. apply Hwq in Hx. congruence.
  - by apply (queue_move _ t WTry).
  - intros x. rewrite elem_of_app, list_elem_of_singleton, Hwq.
    destruct (decide (x = t)) as [->|]; [rewrite lookup_insert_eq; tauto|]. rewrite lookup_insert_ne by done. tauto.
  - intros Hne. destruct (Hrs Hne) as [?|[?|?]]; lia.
  - by rewrite (size_move _ t WTry).
Qed.

Lemma wake_writer_inv s u rest : rw_inv s -> write_waiters s = u :: rest ->
  pcs s !! u = Some WAsleep /\ rw_inv (wake_one_writer s) /\ 0 < num (wake_one_writer s) WWindow.
Proof.
  intros [Hm Hw [Hn1 Hn2] Hrq Hwq Hws Hrs Hsz] E. unfold wake_one_writer. rewrite E. rw_nums s.
  assert (pcs s !! u = Some WAsleep) as Hu by (apply Hwq; rewrite E; by left). split; [done|].
  rewrite E in Hn2. apply NoDup_cons in Hn2 as [Hur Hn2]. pose proof (num_pos s u WAsleep Hu).
  split; [|rewrite (num_at s u WAsleep) by done; eval_is_pc; lia].
  constructor; cbn; unfold writer_coming; rewrite ?(num_at s u WAsleep) by done; eval_is_pc; try done; try lia.
  - by apply (queue_move _ u WAsleep).
  - intros x. rewrite E in Hwq. specialize (Hwq x). rewrite elem_of_cons in Hwq.
    destruct (decide (x = u)) as [->|]; [rewrite lookup_insert_eq; split; [done|by intros [=]]|].
    rewrite lookup_insert_ne by done. rewrite <- Hwq. split; [by right|]. by intros [?|?].
  - by rewrite (size_move _ u WAsleep).
Qed.

(** Waking every reader, one entry at a time. *)
Definition wake_reader (m : gmap Z rw_pc) (u : Z) : gmap Z rw_pc := <[u := RTry]> m.

Lemma wake_readers_spec (l : list Z) : forall m : gmap Z rw_pc, NoDup l ->
  (forall u, u ∈ l -> m !! u = Some RAsleep) ->
  let m' := fold_left wake_reader l m in
  (forall x, m' !! x = if bool_decide (x ∈ l) then Some RTry else m !! x) /\
  size m' = size m /\
  (forall q, q <> RTry -> q <> RAsleep -> msum (is_pc q) m' = msum (is_pc q) m).
Proof.
  induction l as [|u l IH]; intros m Hnd Hl m'; [done|]. apply NoDup_cons in Hnd as [Hu Hnd].
  assert (m !! u = Some RAsleep) as Hmu by (apply Hl; by left).
  destruct (IH (wake_reader m u) Hnd) as (H1 & H2 & H3).
  { intros x Hx. unfold wake_reader. rewrite lookup_insert_ne by (intros ->; done). apply Hl. by right. }
  unfold m'. cbn [fold_left]. split_and!.
  - intros x. rewrite H1. unfold wake_reader. case_bool_decide as Hx.
    + rewrite bool_decide_eq_true_2; [done|by right].
    + destruct (decide (x = u)) as [->|Hne].
      * rewrite lookup_insert_eq, bool_decide_eq_true_2; [done|by left].
      * rewrite lookup_insert_ne by done. rewrite bool_decide_eq_false_2; [done|].
        by intros [?|?]%elem_of_cons.
  - rewrite H2. by apply (size_move _ u RAsleep).
  - intros q Hq1 Hq2. rewrite H3 by done. unfold wake_reader. rewrite (num_move _ _ RAsleep) by done.
    unfold is_pc. rewrite !decide_False by congruence. lia.
Qed.

Lemma wake_readers_inv s : rw_inv s -> rw_inv (wake_all_readers s) /\
  forall t p, pcs s !! t = Some p -> p <> RAsleep -> pcs (wake_all_readers s) !! t = Some p.
Proof.
  intros [Hm Hw [Hn1 Hn2] Hrq Hwq Hws Hrs Hsz].
  destruct (wake_readers_spec (read_waiters s) (pcs s) Hn1 ltac:(intros; by apply Hrq)) as (H1 & H2 & H3).
  set (m' := fold_left _ _ _) in *.
  assert (forall t p, pcs s !! t = Some p -> p <> RAsleep -> m' !! t = Some p) as Hkeep.
  { intros t p Ht Hp. rewrite H1, bool_decide_eq_false_2; [done|]. intros Hin%Hrq. congruence. }
  split; [|exact Hkeep].
  assert (forall q, q <> RTry -> q <> RAsleep -> num (wake_all_readers s) q = num s q) as Hnum by exact H3.
  constructor; cbn -[m']; try rewrite !Hnum by done; try done.
  - split; [constructor|done].
  - intros t. split; [by intros ?%not_elem_of_nil|]. change (fold_left _ (read_waiters s) (pcs s)) with m'.
    rewrite H1. case_bool_decide as Hx; [done|]. rewrite <- Hrq. done.
  - intros t. change (fold_left _ (read_waiters s) (pcs s)) with m'. rewrite H1. case_bool_decide as Hx; [|apply Hwq].
    rewrite Hwq. apply Hrq in Hx. rewrite Hx. split; congruence.
  - unfold writer_coming. by rewrite !Hnum by done.
  - change (fold_left _ (read_waiters s) (pcs s)) with m'. by rewrite H2.
Qed.

(** A thread's move, down to the arithmetic of the numbers. *)
Ltac rw_move s Ht r ww :=
  match type of Ht with pcs s !! ?t = Some ?old =>
    apply (move_inv s t old _ r ww); [done|done|by split| |]; [by split|];
    cbn beta zeta; eval_is_pc; unfold writer_coming in *
  end.

(** Closes the four facts about the numbers, each as it stands or with the old one. *)
Ltac rw_arith :=
  split_and!; try lia;
  try (let Hne := fresh in intros Hne;
       repeat match goal with Hq : ?l <> [] -> _, Hl : ?l <> [] |- _ => specialize (Hq Hl) end; lia).

Lemma wake_writer_inv' s t p : rw_inv s -> pcs s !! t = Some p -> p = RWakeWriter \/ p = WWakeWriter ->
  rw_inv (at_pc (wake_one_writer s) t RwIdle).
Proof.
  intros Hi Ht Hp. destruct (write_waiters s) as [|u rest] eqn:E.
  - unfold wake_one_writer. rewrite E. pose proof Hi as [Hm Hw [Hn1 Hn2] Hrq Hwq Hws Hrs Hsz]. rw_nums s.
    destruct Hp as [-> | ->]; rw_move s Ht (readers s) (writers_waiting s); rewrite E in *; rw_arith; done.
  - destruct (wake_writer_inv s u rest Hi E) as (Hu & Hi' & Hpos).
    assert (pcs (wake_one_writer s) !! t = Some p) as Ht'.
    { unfold wake_one_writer. rewrite E. cbn. rewrite lookup_insert_ne; [done|]. intros ->.
      destruct Hp as [-> | ->]; congruence. }
    set (s1 := wake_one_writer s) in *. pose proof Hi' as [Hm Hw [Hn1 Hn2] Hrq Hwq Hws Hrs Hsz]. rw_nums s1.
    pose proof (num_pos _ _ _ Ht').
    destruct Hp as [-> | ->]; rw_move s1 Ht' (readers s1) (writers_waiting s1); rw_arith.
Qed.

Lemma rw_step_inv s s' : rw_inv s -> rw_step s s' -> rw_inv s'.
Proof.
  intros Hi Hs. pose proof Hi as [Hm Hw [Hn1 Hn2] Hrq Hwq Hws Hrs Hsz]. rw_nums s.
  pose proof (num_size s Reading). pose proof (num_size s WAsleep). pose proof (num_size s WWindow).
  destruct Hs as [t Ht|t Ht|t Ht|t Ht|t Ht|t Ht|t Ht|t p Ht Hp|t Ht]; pose proof (num_pos _ _ _ Ht).
  - rw_move s Ht (readers s) (writers_waiting s). rw_arith.
  - unfold rwlock_read_lock. destruct (_ && _) eqn:E.
    + apply andb_true_iff in E as [?%Z.leb_le ?%Z.eqb_eq].
      rewrite s32_small by lia. rw_move s Ht (readers s + 1) (writers_waiting s). rw_arith.
    + apply andb_false_iff in E. apply read_sleep_inv; [done..|].
      destruct E as [?%Z.leb_gt|?%Z.eqb_neq]; [left; lia|by right].
  - unfold rwlock_read_unlock. rewrite s32_small by lia. destruct (_ && _) eqn:E.
    + apply andb_true_iff in E as [?%Z.eqb_eq ?%Z.ltb_lt]. rw_move s Ht (readers s - 1) (writers_waiting s). rw_arith.
    + apply andb_false_iff in E. rewrite Z.eqb_neq, Z.ltb_ge in E.
      rw_move s Ht (readers s - 1) (writers_waiting s). rw_arith.
      intros Hne. left. intros Hr. destruct E as [E|E]; [lia|].
      destruct (write_waiters s) as [|u l] eqn:El; [done|].
      pose proof (num_pos s u WAsleep ltac:(apply Hwq; by left)). lia.
  - rw_move s Ht (readers s) (writers_waiting s). rw_arith.
  - unfold rwlock_write_lock. case_cmp.
    + rw_move s Ht (-1) (writers_waiting s). rw_arith.
    + by apply write_sleep_inv.
  - unfold write_resume. rewrite u32_small by lia. rw_move s Ht (readers s) (writers_waiting s - 1). rw_arith.
  - unfold rwlock_write_unlock. destruct (0 <? writers_waiting s) eqn:E.
    + apply Z.ltb_lt in E. rw_move s Ht 0 (writers_waiting s). rw_arith.
    + apply Z.ltb_ge in E. rw_move s Ht 0 (writers_waiting s). rw_arith.
      intros Hne. destruct (write_waiters s) as [|u l] eqn:El; [done|].
      pose proof (num_pos s u WAsleep ltac:(apply Hwq; by left)). lia.
  - by apply (wake_writer_inv' s t p).
  - destruct (wake_readers_inv s Hi) as [Hi' Hkeep]. specialize (Hkeep t _ Ht ltac:(done)).
    clear -Hi' Hkeep. set (s1 := wake_all_readers s) in *.
    pose proof Hi' as [Hm Hw [Hn1 Hn2] Hrq Hwq Hws Hrs Hsz]. rw_nums s1.
    rw_move s1 Hkeep (readers s1) (writers_waiting s1). rw_arith. done.
Qed.

Lemma rw_init_inv (ts : gset Z) : Z.of_nat (size ts) < 0x7fffffff -> rw_inv (rwlock_init ts).
Proof.
  intros Hsz. assert (forall q, q <> RwIdle -> num (rwlock_init ts) q = 0) as Hz.
  { intros q Hq. apply msum_zero. intros t p Ht. apply lookup_gset_to_gmap_Some in Ht as [_ <-].
    unfold is_pc. by rewrite decide_False by congruence. }
  assert (forall t q, q <> RwIdle -> pcs (rwlock_init ts) !! t <> Some q) as Hno.
  { intros t q Hq Ht. apply lookup_gset_to_gmap_Some in Ht as [_ <-]. done. }
  constructor; cbn [readers writers_waiting read_waiters write_waiters rwlock_init]; rewrite ?Hz by done; try done.
  - by left.
  - split; constructor.
  - intros t. split; [by intros ?%not_elem_of_nil|]. by intros ?%Hno.
  - intros t. split; [by intros ?%not_elem_of_nil|]. by intros ?%Hno.
  - unfold rwlock_init; cbn [pcs]. by rewrite <- (size_dom (D := gset Z) (gset_to_gmap RwIdle ts)), dom_gset_to_gmap.
Qed.

(** Two different threads at [q] count twice. *)
Lemma num_two s t u q : pcs s !! t = Some q -> pcs s !! u = Some q -> t <> u -> 2 <= num s q.
Proof.
  intros Ht Hu Hne. unfold num. rewrite (msum_delete _ _ t q Ht).
  assert (is_pc q q = 1) as E by (unfold is_pc; by rewrite decide_True).
  pose proof (msum_ge (is_pc q) (delete t (pcs s)) u q) as Hg.
  rewrite lookup_delete_ne in Hg by done. specialize (Hg ltac:(intros; apply is_pc_range) Hu). lia.
Qed.

(** ** The properties *)

(** C16: reader/writer locks under any interleaving of threads that lock, unlock, sleep and
    wake each other.  A writer is alone, and [readers] counts the readers inside; no
    wakeup is lost: once every thread is idle or asleep the lock is free and nobody
    sleeps. *)
Theorem rwlock_exclusion_and_progress ts s :
  Z.of_nat (size ts) < 0x7fffffff -> reachable rw_step (rwlock_init ts) s ->
  (forall t u, pcs s !! t = Some Writing -> pcs s !! u = Some Writing -> t = u) /\
  (forall t u, pcs s !! t = Some Writing -> pcs s !! u <> Some Reading) /\
  (0 <= readers s -> num s Reading = readers s) /\
  writers_waiting s = num s WAsleep + num s WWindow /\
  ((forall t p, pcs s !! t = Some p -> p ∈ [RwIdle; RAsleep; WAsleep]) ->
     readers s = 0 /\ read_waiters s = [] /\ write_waiters s = [] /\ writers_waiting s = 0).
Proof.
  intros Hsz Hr. assert (rw_inv s) as [Hm Hw [Hn1 Hn2] Hrq Hwq Hws Hrs _].
  { induction Hr as [|s s' Hr IH Hst]; [by apply rw_init_inv|]. by apply (rw_step_inv s). }
  split_and!; try done; try lia.
  - intros t u Ht Hu. destruct (decide (t = u)) as [|Hne]; [done|].
    pose proof (num_two s t u _ Ht Hu Hne). lia.
  - intros t u Ht%num_pos Hu%num_pos. lia.
  - intros Hq.
    assert (forall q, q ∉ [RwIdle; RAsleep; WAsleep] -> num s q = 0) as Hz.
    { intros q Hnq. apply msum_zero. intros t p Ht%Hq. unfold is_pc. rewrite decide_False; [done|].
      by intros ->. }
    unfold writer_coming in *.
    pose proof (Hz Reading). pose proof (Hz Writing). pose proof (Hz RWakeWriter). pose proof (Hz WWakeWriter).
    pose proof (Hz WWakeReaders). pose proof (Hz WWindow). pose proof (Hz WTry). clear Hz.
    repeat match goal with H : _ ∉ _ -> _ |- _ => specialize (H ltac:(set_solver)) end.
    assert (write_waiters s = []) as Ew by (destruct (write_waiters s); [done|]; destruct Hws; [done|lia..]).
    assert (num s WAsleep = 0) as Ea.
    { apply msum_zero. intros t p Ht. unfold is_pc. rewrite decide_False; [done|]. intros ->.
      apply Hwq in Ht. rewrite Ew in Ht. by apply not_elem_of_nil in Ht. }
    split_and!; [lia| |done|lia].
    destruct (read_waiters s); [done|]. destruct Hrs as [|[|]]; [done|lia..].
Qed.

Lemma rwlock_exclusion_and_progress_witness :
  exists s, reachable rw_step (rwlock_init {[1; 2]}) s /\ readers s = 1 /\
    pcs s !! 2 = Some Reading /\ num s Reading = 1.
Proof.
  pose (s0 := rwlock_init {[1; 2]}).
  pose (s1 := rwlock_write_lock (at_pc s0 1 WTry) 1).
  pose (s2 := rwlock_read_lock (at_pc s1 2 RTry) 2).
  pose (s3 := rwlock_write_unlock s2 1).
  pose (s4 := at_pc (wake_all_readers s3) 1 RwIdle).
  pose (s5 := rwlock_read_lock s4 2).
  assert (reachable rw_step s0 s5) as Hr.
  { apply (reach_step _ _ s4); [|by apply rw_read_turn].
    apply (reach_step _ _ s3); [|by apply rw_wake_readers].
    apply (reach_step _ _ s2); [|by apply rw_write_unlock].
    apply (reach_step _ _ (at_pc s1 2 RTry)); [|by apply rw_read_turn].
    apply (reach_step _ _ s1); [|by apply rw_call_read].
    apply (reach_step _ _ (at_pc s0 1 WTry)); [|by apply rw_write_turn].
    apply (reach_step _ _ s0); [constructor|by apply rw_call_write]. }
  exists s5. split; [exact Hr|]. split; [vm_compute; reflexivity|]. split; [vm_compute; reflexivity|].
  assert (Z.of_nat (size ({[1; 2]} : gset Z)) < 0x7fffffff) as Hsz by (vm_compute; reflexivity).
  destruct (rwlock_exclusion_and_progress {[1; 2]} s5 Hsz Hr) as (_ & _ & Hc & _).
  rewrite Hc; [vm_compute; reflexivity|vm_compute; discriminate].
Defined.
