(* ===== verification/Mutex.v ===== *)
(** * Mutexes with priority inheritance (kernel/sync/mutex.c, thread_boost_by_tid)

    Any number of threads and mutexes.  Each section under a mutex's guard, each wake,
    each boost and each recomputation is one step of [mtx_step]; the wait queues are FIFO
    lists (Wait shows that they behave so).  [holds] is a ghost: the pairs (thread, mutex)
    whose lock call returned and whose unlock call did not yet happen, by the calls alone. *)

From S2P Require Import Prelude Wait.

Definition THREAD_MAX_OWNED_MUTEXES : Z := 16.
Definition SCHED_NUM_PRIORITIES : Z := 4.
Definition MAX_THREADS : Z := 1024.
Definition PI_CHAIN_MAX_DEPTH : nat := 8.
Definition NULL : Z := 0.

(** Where a thread is in the code.  [MWait m tmo boost woken]: in the wait queue of [m]
    until [woken] has the result; [boost] is the boost of the owner still to be done. *)
Inductive mtx_pc :=
  | MIdle
  | MTry (m timeout_ms : Z)
  | MWait (m timeout_ms : Z) (boost : option (Z * Z)) (woken : option Z)
  | MRecompute (m : Z)
  | MWake (m : Z)
  | MReap (todo : list Z)
  | MReapWake (m : Z) (todo : list Z)
  | MDead.

#[export] Instance mtx_pc_eq_dec : EqDecision mtx_pc.
Proof. solve_decision. Defined.

Record mutex_t := mk_mutex {
  locked : Z;
  owner_tid : Z;
  boost_prio : Z;
  waiters : list Z
}.

Record thread_t := mk_thread {
  base_priority : Z;
  priority : Z;
  owned_mutexes : list Z;
  untracked_mutexes : Z;
  waiting_on_mutex : Z;
  waiting_owner_tid : Z;
  pc : mtx_pc
}.

Record world := mk_world {
  mutexes : gmap Z mutex_t;
  threads : gmap Z thread_t;
  holds : gset (Z * Z)
}.

Definition mutex_init : mutex_t := mk_mutex 0 (-1) UINT32_MAX [].
Definition new_thread (base : Z) : thread_t := mk_thread base base [] 0 NULL (-1) MIdle.
Definition boot (ms : gset Z) (prios : gmap Z Z) : world :=
  mk_world (gset_to_gmap mutex_init ms) (new_thread <$> prios) ∅.

Definition set_pc (th : thread_t) (p : mtx_pc) : thread_t :=
  mk_thread (base_priority th) (priority th) (owned_mutexes th) (untracked_mutexes th)
    (waiting_on_mutex th) (waiting_owner_tid th) p.
Definition set_prio (th : thread_t) (p : Z) : thread_t :=
  mk_thread (base_priority th) p (owned_mutexes th) (untracked_mutexes th)
    (waiting_on_mutex th) (waiting_owner_tid th) (pc th).
Definition set_owned (th : thread_t) (l : list Z) (u : Z) : thread_t :=
  mk_thread (base_priority th) (priority th) l u (waiting_on_mutex th) (waiting_owner_tid th) (pc th).
Definition set_waiting (th : thread_t) (m owner : Z) : thread_t :=
  mk_thread (base_priority th) (priority th) (owned_mutexes th) (untracked_mutexes th) m owner (pc th).

Definition put (w : world) (t : Z) (th : thread_t) : world :=
  mk_world (mutexes w) (<[t := th]> (threads w)) (holds w).
Definition put_mutex (w : world) (m : Z) (x : mutex_t) : world :=
  mk_world (<[m := x]> (mutexes w)) (threads w) (holds w).
Definition with_holds (w : world) (h : gset (Z * Z)) : world :=
  mk_world (mutexes w) (threads w) h.

(** ** Verbs *)

(** The priority itself; moving a ready thread between run queues is not modelled. *)
Definition scheduler_set_priority (th : thread_t) (new_prio : Z) : thread_t :=
  if SCHED_NUM_PRIORITIES <=? new_prio then th else set_prio th new_prio.

Fixpoint min_boost (w : world) (l : list Z) (eff : Z) : option Z :=
  match l with
  | [] => Some eff
  | m :: rest =>
      x ← mutexes w !! m;
      min_boost w rest (if boost_prio x <? eff then boost_prio x else eff)
  end.

Definition recompute_owner_priority (w : world) (th : thread_t) : option thread_t :=
  eff ← min_boost w (owned_mutexes th) (base_priority th);
  Some (scheduler_set_priority th eff).

Definition track_ownership (m : Z) (x : mutex_t) (t : Z) (th : thread_t) : mutex_t * thread_t :=
  (mk_mutex 1 t (boost_prio x) (waiters x),
   let th := set_waiting th NULL (waiting_owner_tid th) in
   if Z.of_nat (length (owned_mutexes th)) <? THREAD_MAX_OWNED_MUTEXES
   then set_owned th (owned_mutexes th ++ [m]) (untracked_mutexes th)
   else set_owned th (owned_mutexes th) (untracked_mutexes th ⊞ 1)).

(** The array with its slot at the head of [cur] taken over by the last one. *)
Definition swap_last (pre rest : list Z) : list Z :=
  match rest with
  | [] => pre
  | _ => pre ++ List.last rest NULL :: removelast rest
  end.

Fixpoint untrack_loop (pre cur : list Z) (m : Z) : option (list Z) :=
  match cur with
  | [] => None
  | x :: rest => if x =? m then Some (swap_last pre rest) else untrack_loop (pre ++ [x]) rest m
  end.

Definition untrack_ownership (m : Z) (th : thread_t) : thread_t :=
  match untrack_loop [] (owned_mutexes th) m with
  | Some l => set_owned th l (untracked_mutexes th)
  | None =>
      if 0 <? untracked_mutexes th
      then set_owned th (owned_mutexes th) (untracked_mutexes th ⊟ 1) else th
  end.

(** The walk of [thread_boost_by_tid] up the chain of owners. *)
Definition blocked (th : thread_t) : bool :=
  match pc th with MWait _ _ _ None => true | _ => false end.

Fixpoint boost_chain (depth : nat) (w : world) (tid cursor prio : Z) : world :=
  match depth with
  | O => w
  | S d =>
      if (cursor <=? 0) || (MAX_THREADS <=? cursor) then w
      else
        match threads w !! cursor with
        | None => w
        | Some owner =>
            if priority owner <=? prio then w
            else
              let w1 := put w cursor (scheduler_set_priority owner prio) in
              if negb (blocked owner) || (waiting_on_mutex owner =? NULL) then w1
              else
                let next := waiting_owner_tid owner in
                if (next =? cursor) || (next =? tid) then w1 else boost_chain d w1 tid next prio
        end
  end.

Definition thread_boost_by_tid (w : world) (tid prio : Z) : world :=
  if (tid <=? 0) || (MAX_THREADS <=? tid) then w
  else boost_chain PI_CHAIN_MAX_DEPTH w tid tid prio.

(** ** The operations, section by section *)

(** A lock call that found the mutex free. *)
Definition take (w : world) (t m : Z) (x : mutex_t) (th : thread_t) : world :=
  let '(x', th') := track_ownership m x t th in
  with_holds (put (put_mutex w m x') t (set_pc th' MIdle)) (holds w ∪ {[(t, m)]}).

(** One turn of [lock_internal], down to the release of the guard; [room]: the sleep timer
    could be armed. *)
Definition lock_turn (w : world) (t m timeout_ms : Z) (room : bool) : option world :=
  x ← mutexes w !! m; th ← threads w !! t;
  if locked x =? 0 then Some (take w t m x th)
  else
    let req := priority th in
    let boost := if req <? boost_prio x then req else boost_prio x in
    let th1 := set_waiting th m (owner_tid x) in
    if (0 <? timeout_ms) && negb room then
      Some (put (put_mutex w m (mk_mutex (locked x) (owner_tid x) boost (waiters x))) t
              (set_pc th1 (MWait m timeout_ms (Some (owner_tid x, req)) (Some WAIT_TIMEOUT))))
    else
      Some (put (put_mutex w m (mk_mutex (locked x) (owner_tid x) boost (waiters x ++ [t]))) t
              (set_pc th1 (MWait m timeout_ms (Some (owner_tid x, req)) None))).

(** The boost of the owner, outside the guard. *)
Definition boost_turn (w : world) (t : Z) : option world :=
  th ← threads w !! t;
  match pc th with
  | MWait m tmo (Some (owner, req)) woken =>
      let w1 := thread_boost_by_tid w owner req in
      th1 ← threads w1 !! t;
      Some (put w1 t (set_pc th1 (MWait m tmo None woken)))
  | _ => None
  end.

(** Back from [scheduler_yield]: [wait_finish] and the test of its result. *)
Definition finish_turn (w : world) (t : Z) : option world :=
  th ← threads w !! t;
  match pc th with
  | MWait m tmo None (Some result) =>
      Some (put w t (set_pc (set_waiting th NULL (-1))
                       (if result =? WAIT_TIMEOUT then MIdle else MTry m tmo)))
  | _ => None
  end.

Definition mutex_trylock (w : world) (t m : Z) : option (bool * world) :=
  x ← mutexes w !! m; th ← threads w !! t;
  if locked x =? 0 then Some (true, take w t m x th) else Some (false, w).

Definition unlocked (x : mutex_t) : mutex_t := mk_mutex 0 (-1) UINT32_MAX (waiters x).

(** [mutex_unlock] down to the release of the guard; then the recomputation, then the wake. *)
Definition mutex_unlock (w : world) (t m : Z) : option world :=
  x ← mutexes w !! m; th ← threads w !! t;
  let h := holds w ∖ {[(t, m)]} in
  if negb (t =? owner_tid x) then Some (with_holds w h)
  else Some (with_holds (put (put_mutex w m (unlocked x)) t
                           (set_pc (untrack_ownership m th) (MRecompute m))) h).

Definition unlock_recompute (w : world) (t m : Z) : option world :=
  th ← threads w !! t;
  th1 ← recompute_owner_priority w th;
  Some (put w t (set_pc th1 (MWake m))).

(** [wait_queue_wake_one(&m->waiters)], and the same until the queue is empty. *)
Definition wake_one (w : world) (m : Z) : option world :=
  x ← mutexes w !! m;
  match waiters x with
  | [] => Some w
  | u :: rest =>
      th ← threads w !! u;
      match pc th with
      | MWait m' tmo boost None =>
          Some (put (put_mutex w m (mk_mutex (locked x) (owner_tid x) (boost_prio x) rest)) u
                  (set_pc th (MWait m' tmo boost (Some WAIT_OK))))
      | _ => None
      end
  end.

Fixpoint wake_all (n : nat) (w : world) (m : Z) : option world :=
  match n with O => Some w | S k => w1 ← wake_one w m; wake_all k w1 m end.

Definition unlock_wake (w : world) (t m : Z) : option world :=
  w1 ← wake_one w m; th ← threads w1 !! t; Some (put w1 t (set_pc th MIdle)).

(** The sleep timer of a thread fires while it is in the queue. *)
Definition timeout_turn (w : world) (t : Z) : option world :=
  th ← threads w !! t;
  match pc th with
  | MWait m tmo boost None =>
      x ← mutexes w !! m;
      Some (put (put_mutex w m (mk_mutex (locked x) (owner_tid x) (boost_prio x) (without t (waiters x)))) t
              (set_pc th (MWait m tmo boost (Some WAIT_TIMEOUT))))
  | _ => None
  end.

(** [mutex_release_all_owned]: the owned mutexes in reverse order, each released in its
    section and its waiters woken in the next one, then the count cleared. *)
Definition reap_turn (w : world) (t : Z) : option world :=
  th ← threads w !! t;
  match pc th with
  | MReap [] => Some (put w t (set_pc (set_owned th [] (untracked_mutexes th)) MDead))
  | MReap (m :: rest) =>
      x ← mutexes w !! m;
      if negb (locked x =? 0) && (owner_tid x =? t) then
        Some (with_holds (put (put_mutex w m (unlocked x)) t (set_pc th (MReapWake m rest)))
                (holds w ∖ {[(t, m)]}))
      else Some (put w t (set_pc th (MReap rest)))
  | MReapWake m rest =>
      x ← mutexes w !! m;
      w1 ← wake_all (length (waiters x)) w m;
      th1 ← threads w1 !! t; Some (put w1 t (set_pc th1 (MReap rest)))
  | _ => None
  end.

(** ** Runs *)

Inductive section :=
  | SCall (t m timeout_ms : Z)
  | STurn (t : Z) (room : bool)
  | SBoost (t : Z)
  | STimeout (t : Z)
  | SFinish (t : Z)
  | STrylock (t m : Z)
  | SUnlock (t m : Z)
  | SRecompute (t : Z)
  | SWake (t : Z)
  | SDie (t : Z)
  | SReap (t : Z).

Definition pc_of (w : world) (t : Z) : option mtx_pc := pc <$> threads w !! t.

(** When a section may run: the thread is there, and a call names an existing mutex. *)
Definition enabled (w : world) (s : section) : Prop :=
  match s with
  | SCall t m _ | STrylock t m | SUnlock t m => pc_of w t = Some MIdle /\ is_Some (mutexes w !! m)
  | STurn t _ => exists m tmo, pc_of w t = Some (MTry m tmo)
  | SBoost t => exists m tmo b r, pc_of w t = Some (MWait m tmo (Some b) r)
  | STimeout t => exists m tmo b, pc_of w t = Some (MWait m tmo b None) /\ 0 < tmo
  | SFinish t => exists m tmo r, pc_of w t = Some (MWait m tmo None (Some r))
  | SRecompute t => exists m, pc_of w t = Some (MRecompute m)
  | SWake t => exists m, pc_of w t = Some (MWake m)
  | SDie t => pc_of w t = Some MIdle
  | SReap t => exists l, pc_of w t = Some (MReap l) \/ exists m, pc_of w t = Some (MReapWake m l)
  end.

Definition run_section (w : world) (s : section) : option world :=
  match s with
  | SCall t m tmo => th ← threads w !! t; Some (put w t (set_pc th (MTry m tmo)))
  | STurn t room =>
      th ← threads w !! t;
      match pc th with MTry m tmo => lock_turn w t m tmo room | _ => None end
  | SBoost t => boost_turn w t
  | STimeout t => timeout_turn w t
  | SFinish t => finish_turn w t
  | STrylock t m => snd <$> mutex_trylock w t m
  | SUnlock t m => mutex_unlock w t m
  | SRecompute t =>
      th ← threads w !! t;
      match pc th with MRecompute m => unlock_recompute w t m | _ => None end
  | SWake t =>
      th ← threads w !! t;
      match pc th with MWake m => unlock_wake w t m | _ => None end
  | SDie t => th ← threads w !! t; Some (put w t (set_pc th (MReap (rev (owned_mutexes th)))))
  | SReap t => reap_turn w t
  end.

Definition mtx_step (w w' : world) : Prop := exists s, enabled w s /\ run_section w s = Some w'.

(** ** The invariant *)

(** The threads that will look at [m] again, or wake a waiter of [m]. *)
Definition coming (m : Z) (p : mtx_pc) : bool :=
  match p with
  | MTry k _ | MRecompute k | MWake k | MReapWake k _ => k =? m
  | MWait k _ _ (Some r) => (k =? m) && (r =? WAIT_OK)
  | _ => false
  end.

Definition queued_on (m : Z) (p : mtx_pc) : Prop := exists tmo b, p = MWait m tmo b None.

Definition reaping (p : mtx_pc) : bool :=
  match p with MReap _ | MReapWake _ _ => true | _ => false end.

(** The mutex a place in the code refers to exists. *)
Definition pc_ok (w : world) (p : mtx_pc) : Prop :=
  match p with
  | MTry m _ | MRecompute m | MWake m => is_Some (mutexes w !! m)
  | MWait m _ b _ => is_Some (mutexes w !! m) /\ forall o req, b = Some (o, req) -> 0 <= req
  | MReap l => forall k, k ∈ l -> is_Some (mutexes w !! k)
  | MReapWake m l => is_Some (mutexes w !! m) /\ forall k, k ∈ l -> is_Some (mutexes w !! k)
  | MIdle | MDead => True
  end.

Definition held (w : world) (t : Z) : gset Z := filter (fun m => (t, m) ∈ holds w) (dom (mutexes w)).

Definition mutex_ok (x : mutex_t) : Prop :=
  0 <= boost_prio x /\ NoDup (waiters x) /\
  ((locked x = 0 /\ owner_tid x = -1) \/ (locked x = 1 /\ owner_tid x <> -1)).

Record thread_ok (w : world) (t : Z) (th : thread_t) : Prop := {
  to_prio : 0 <= priority th <= base_priority th;
  to_nodup : NoDup (owned_mutexes th);
  to_len : Z.of_nat (length (owned_mutexes th)) <= THREAD_MAX_OWNED_MUTEXES;
  to_exist : forall m, m ∈ owned_mutexes th -> is_Some (mutexes w !! m);
  to_pc : pc_ok w (pc th);
  to_owned : reaping (pc th) = false -> forall m, m ∈ owned_mutexes th -> (t, m) ∈ holds w;
  to_count : reaping (pc th) = false -> pc th <> MDead ->
    Z.of_nat (size (held w t)) = Z.of_nat (length (owned_mutexes th)) + untracked_mutexes th;
  to_untracked : 0 <= untracked_mutexes th
}.

Record mtx_inv (w : world) : Prop := {
  mi_mutex : forall m x, mutexes w !! m = Some x -> mutex_ok x;
  mi_holds : forall t m, (t, m) ∈ holds w <->
    exists x, mutexes w !! m = Some x /\ locked x = 1 /\ owner_tid x = t;
  mi_queue : forall m x t, mutexes w !! m = Some x ->
    (t ∈ waiters x <-> exists th, threads w !! t = Some th /\ queued_on m (pc th));
  mi_thread : forall t th, threads w !! t = Some th -> thread_ok w t th;
  mi_wake : forall m x, mutexes w !! m = Some x -> waiters x <> [] ->
    locked x = 1 \/ exists t th, threads w !! t = Some th /\ coming m (pc th) = true;
  mi_tid : threads w !! (-1) = None;
  mi_size : Z.of_nat (size (mutexes w)) < 0x100000000
}.

Lemma held_le w t : (size (held w t) <= size (mutexes w))%nat.
Proof.
  rewrite <- (size_dom (D := gset Z)). apply subseteq_size. intros m. by intros [_ ?]%elem_of_filter.
Qed.

(** Another thread's facts survive a change that leaves its mutexes alone. *)
Lemma thread_ok_mono w w' t th : thread_ok w t th -> dom (mutexes w') = dom (mutexes w) ->
  (forall m, (t, m) ∈ holds w' <-> (t, m) ∈ holds w) -> thread_ok w' t th.
Proof.
  intros [H1 H2 H3 H4 H5 H6 H7 H8] Hd Hh.
  assert (forall m, is_Some (mutexes w !! m) -> is_Some (mutexes w' !! m)) as Hs.
  { intros m. rewrite <- !elem_of_dom. by rewrite Hd. }
  constructor; try done.
  - intros m Hm. by apply Hs, H4.
  - destruct (pc th); cbn in *; try done; try by apply Hs.
    + destruct H5 as [? H5]. split; [by apply Hs|done].
    + intros k Hk. by apply Hs, H5.
    + destruct H5 as [? H5]. split; [by apply Hs|]. intros k Hk. by apply Hs, H5.
  - intros Hr m Hm. by apply Hh, H6.
  - intros Hr Hd'. rewrite <- (H7 Hr Hd'). do 2 f_equal. apply set_eq. intros m. unfold held.
    rewrite !elem_of_filter, Hd, Hh. done.
Qed.

(** One mutex, one thread and the ghost change together. *)
Lemma upd_inv w m x x' t th th' h' : mtx_inv w -> mutexes w !! m = Some x -> threads w !! t = Some th ->
  let w' := with_holds (put (put_mutex w m x') t th') h' in
  mutex_ok x' ->
  (forall u k, (u, k) ∈ h' <-> if bool_decide (k = m) then locked x' = 1 /\ owner_tid x' = u else (u, k) ∈ holds w) ->
  (forall u k, u <> t -> (u, k) ∈ h' <-> (u, k) ∈ holds w) ->
  (forall u, u ∈ waiters x' <-> if bool_decide (u = t) then queued_on m (pc th') else u ∈ waiters x) ->
  (forall k, k <> m -> queued_on k (pc th') <-> queued_on k (pc th)) ->
  thread_ok w' t th' ->
  (waiters x' <> [] -> locked x' = 1 \/ coming m (pc th') = true \/
     exists u tu, u <> t /\ threads w !! u = Some tu /\ coming m (pc tu) = true) ->
  (forall k y, k <> m -> mutexes w !! k = Some y -> waiters y <> [] -> coming k (pc th) = true ->
     locked y = 1 \/ coming k (pc th') = true) ->
  mtx_inv w'.
Proof.
  intros [Hm Hh Hq Ht Hw Hti Hsz] Hx Hth w' Hx' Hh' Hho Hq' Hqo Hto Hw' Hwo.
  assert (dom (mutexes w') = dom (mutexes w)) as Hd.
  { cbn. apply dom_insert_lookup_L. by exists x. }
  assert (t <> -1) as Ht1 by (intros ->; congruence).
  constructor; cbn.
  - intros k y. destruct (decide (k = m)) as [->|]; [rewrite lookup_insert_eq; by intros [= <-]|].
    rewrite lookup_insert_ne by done. apply Hm.
  - intros u k. rewrite Hh'. case_bool_decide as Hk.
    + subst k. rewrite lookup_insert_eq. split; [by exists x'|]. intros (y & [= <-] & ?). done.
    + rewrite lookup_insert_ne by done. apply Hh.
  - intros k y u Hy. destruct (decide (k = m)) as [->|Hk].
    + rewrite lookup_insert_eq in Hy. injection Hy as <-. rewrite Hq'. case_bool_decide as Hu.
      * subst u. rewrite lookup_insert_eq. split; [by exists th'|]. by intros (? & [= <-] & ?).
      * rewrite lookup_insert_ne by done. by apply Hq.
    + rewrite lookup_insert_ne in Hy by done. rewrite (Hq k y u Hy).
      destruct (decide (u = t)) as [->|Hu]; [|by rewrite lookup_insert_ne].
      rewrite lookup_insert_eq. specialize (Hqo k Hk). split.
      * intros (z & Hz & Hqz). assert (z = th) as -> by congruence. exists th'. tauto.
      * intros (z & [= <-] & Hqz). exists th. tauto.
  - intros u z Hz. destruct (decide (u = t)) as [->|Hu].
    + rewrite lookup_insert_eq in Hz. by injection Hz as <-.
    + rewrite lookup_insert_ne in Hz by done.
      apply (thread_ok_mono w); [by apply Ht|done|]. intros k. by apply Hho.
  - intros k y Hy Hne. destruct (decide (k = m)) as [->|Hk].
    + rewrite lookup_insert_eq in Hy. injection Hy as <-.
      destruct (Hw' Hne) as [?|[?|(u & tu & Hu & Htu & Hc)]]; [by left|right..].
      * exists t, th'. by rewrite lookup_insert_eq.
      * exists u, tu. by rewrite lookup_insert_ne.
    + rewrite lookup_insert_ne in Hy by done. destruct (Hw k y Hy Hne) as [?|(u & tu & Htu & Hc)]; [by left|].
      destruct (decide (u = t)) as [->|Hu]; [|right; exists u, tu; by rewrite lookup_insert_ne].
      assert (tu = th) as -> by congruence. destruct (Hwo k y Hk Hy Hne Hc) as [?|?]; [by left|right].
      exists t, th'. by rewrite lookup_insert_eq.
  - by rewrite lookup_insert_ne.
  - by rewrite map_size_insert_Some.
Qed.

(** One thread changes alone. *)
Lemma put_inv w t th th' : mtx_inv w -> threads w !! t = Some th ->
  thread_ok (put w t th') t th' ->
  (forall k, queued_on k (pc th') <-> queued_on k (pc th)) ->
  (forall k y, mutexes w !! k = Some y -> waiters y <> [] -> coming k (pc th) = true ->
     locked y = 1 \/ coming k (pc th') = true \/
     exists u tu, u <> t /\ threads w !! u = Some tu /\ coming k (pc tu) = true) ->
  mtx_inv (put w t th').
Proof.
  intros [Hm Hh Hq Ht Hw Hti Hsz] Hth Hto Hqo Hwo.
  assert (t <> -1) as Ht1 by (intros ->; congruence).
  constructor; cbn; try done.
  - intros k y u Hy. rewrite (Hq k y u Hy). destruct (decide (u = t)) as [->|Hu]; [|by rewrite lookup_insert_ne].
    rewrite lookup_insert_eq. specialize (Hqo k). split.
    + intros (z & Hz & Hqz). assert (z = th) as -> by congruence. exists th'. tauto.
    + intros (z & [= <-] & Hqz). exists th. tauto.
  - intros u z Hz. destruct (decide (u = t)) as [->|Hu].
    + rewrite lookup_insert_eq in Hz. by injection Hz as <-.
    + rewrite lookup_insert_ne in Hz by done. apply (thread_ok_mono w); [by apply Ht|done|done].
  - intros k y Hy Hne. destruct (Hw k y Hy Hne) as [?|(u & tu & Htu & Hc)]; [by left|].
    destruct (decide (u = t)) as [->|Hu]; [|right; exists u, tu; by rewrite lookup_insert_ne].
    assert (tu = th) as -> by congruence. destruct (Hwo k y Hy Hne Hc) as [?|[?|(v & tv & ? & ? & ?)]]; [by left|right..].
    + exists t, th'. by rewrite lookup_insert_eq.
    + exists v, tv. by rewrite lookup_insert_ne.
  - by rewrite lookup_insert_ne.
Qed.

(** A new place in the code, nothing else of the thread. *)
Lemma thread_ok_pc w t th p : thread_ok w t th -> pc_ok w p ->
  (reaping p = false -> p <> MDead -> reaping (pc th) = false /\ pc th <> MDead) ->
  (p = MDead -> owned_mutexes th = []) ->
  thread_ok w t (set_pc th p).
Proof.
  intros [H1 H2 H3 H4 H5 H6 H7 H8] Hp Hr Hd. constructor; cbn; try done.
  - intros Hp' m Hm. destruct (decide (p = MDead)) as [E|E].
    + rewrite (Hd E) in Hm. by apply not_elem_of_nil in Hm.
    + by apply H6; [apply Hr|].
  - intros Hp' Hd'. by apply H7; apply Hr.
Qed.

Lemma thread_ok_put w t th u z : thread_ok w t th -> thread_ok (put w u z) t th.
Proof. intros H. by apply (thread_ok_mono w). Qed.

Lemma thread_ok_waiting w t th m o : thread_ok w t th -> thread_ok w t (set_waiting th m o).
Proof. by intros []; constructor. Qed.

Lemma thread_ok_prio w t th p : thread_ok w t th -> 0 <= p <= base_priority th -> thread_ok w t (set_prio th p).
Proof. by intros [] ?; constructor. Qed.

Lemma elem_of_held w t m : m ∈ held w t <-> (t, m) ∈ holds w /\ m ∈ dom (mutexes w).
Proof. unfold held. by rewrite elem_of_filter. Qed.

Lemma held_add w w' t m : dom (mutexes w') = dom (mutexes w) -> holds w' = holds w ∪ {[(t, m)]} ->
  is_Some (mutexes w !! m) -> (t, m) ∉ holds w -> size (held w' t) = S (size (held w t)).
Proof.
  intros Hd Hh Hm%elem_of_dom Hn. assert (held w' t = {[m]} ∪ held w t) as ->.
  { apply set_eq. intros k. rewrite elem_of_union, !elem_of_held, Hd, Hh, elem_of_union, !elem_of_singleton.
    split; [intros [[?|[= ->]] ?]; auto|intros [->|[? ?]]; auto]. }
  rewrite size_union, size_singleton; [done|]. intros k ->%elem_of_singleton. rewrite elem_of_held. tauto.
Qed.

Lemma held_del w w' t m : dom (mutexes w') = dom (mutexes w) -> holds w' = holds w ∖ {[(t, m)]} ->
  is_Some (mutexes w !! m) -> (t, m) ∈ holds w -> size (held w t) = S (size (held w' t)).
Proof.
  intros Hd Hh Hm%elem_of_dom Hn. assert (held w t = {[m]} ∪ held w' t) as ->.
  { apply set_eq. intros k. rewrite elem_of_union, !elem_of_held, Hd, Hh, elem_of_difference, !elem_of_singleton.
    split; [|intros [->|[[? ?] ?]]; auto]. intros [? ?]. destruct (decide (k = m)); [by left|right].
    split_and!; [done| |done]. congruence. }
  rewrite size_union, size_singleton; [done|]. intros k ->%elem_of_singleton.
  rewrite elem_of_held, Hh, elem_of_difference, elem_of_singleton. tauto.
Qed.

Lemma held_bound w t : mtx_inv w -> Z.of_nat (size (held w t)) < 0x100000000.
Proof. intros Hi. pose proof (held_le w t). pose proof (mi_size w Hi). lia. Qed.

(** The places from which a lock call can find the mutex free. *)
Definition acquiring (m : Z) (p : mtx_pc) : Prop := p = MIdle \/ exists tmo, p = MTry m tmo.

Lemma take_inv w t m x th : mtx_inv w -> mutexes w !! m = Some x -> threads w !! t = Some th ->
  locked x = 0 -> acquiring m (pc th) -> mtx_inv (take w t m x th).
Proof.
  intros Hi Hx Hth Hl Ha. pose proof Hi as [Hm Hh Hq Ht Hw Hti Hsz].
  pose proof (Ht t th Hth) as Hto. destruct (Hm m x Hx) as (Hb & Hnd & _).
  assert ((t, m) ∉ holds w) as Hn by (intros (y & Hy & ? & _)%Hh; assert (y = x) as -> by congruence; lia).
  assert (reaping (pc th) = false /\ pc th <> MDead) as [Hr Hd] by (by destruct Ha as [-> | [? ->]]).
  pose proof (to_owned _ _ _ Hto Hr) as Hown. pose proof (to_count _ _ _ Hto Hr Hd) as Hcnt.
  assert (t <> -1) as Ht1 by (intros ->; congruence).
  unfold take, track_ownership. cbn [owned_mutexes set_waiting].
  set (x' := mk_mutex 1 t (boost_prio x) (waiters x)).
  set (w' := with_holds (put (put_mutex w m x') t th) (holds w ∪ {[(t, m)]})).
  assert (dom (mutexes w') = dom (mutexes w)) as Hdom.
  { cbn. apply dom_insert_lookup_L. by exists x. }
  pose proof (held_add w w' t m Hdom eq_refl ltac:(by exists x) Hn) as Hsize.
  pose proof (held_le w' t) as Hle. cbn in Hle. rewrite map_size_insert_Some in Hle by done.
  match goal with |- mtx_inv (with_holds (put _ _ ?z) _) => set (th' := z) end.
  assert (base_priority th' = base_priority th /\ priority th' = priority th /\ pc th' = MIdle /\
    NoDup (owned_mutexes th') /\ Z.of_nat (length (owned_mutexes th')) <= THREAD_MAX_OWNED_MUTEXES /\
    (forall k, k ∈ owned_mutexes th' -> k = m \/ k ∈ owned_mutexes th) /\
    0 <= untracked_mutexes th' /\
    Z.of_nat (length (owned_mutexes th')) + untracked_mutexes th' =
      Z.of_nat (length (owned_mutexes th)) + untracked_mutexes th + 1)
    as (E1 & E2 & E3 & E4 & E5 & E6 & E7 & E8).
  { destruct Hto as [H1 H2 H3 H4 H5 H6 H7 H8]. unfold th'.
    destruct (Z.ltb_spec (Z.of_nat (length (owned_mutexes th))) THREAD_MAX_OWNED_MUTEXES); cbn.
    - rewrite length_app. cbn. split_and!; try done; try lia.
      + apply NoDup_app. split_and!; [done| |apply NoDup_singleton].
        intros k Hk ->%list_elem_of_singleton. by apply Hn, H6.
      + intros k [?|?%list_elem_of_singleton]%elem_of_app; auto.
    - rewrite u32_small by lia. split_and!; try done; try lia. auto. }
  clearbody th'. apply (upd_inv w m x x' t th); try done; try lia.
  - split_and!; [done|done|right; done].
  - intros u k. rewrite elem_of_union, elem_of_singleton. case_bool_decide as Hk.
    + subst k. split; [|intros [_ <-]; by right]. intros [(y & Hy & ? & ?)%Hh| [= ->]]; [|done].
      assert (y = x) as -> by congruence. lia.
    + split; [intros [?|[= ? ?]]; done|by left].
  - intros u k Hu. rewrite elem_of_union, elem_of_singleton. split; [intros [?|[= ? ?]]; done|by left].
  - intros u. cbn. case_bool_decide as Hu; [|done]. subst u. rewrite (Hq m x t Hx), E3.
    split; [|by intros (? & ? & ?)]. intros (z & Hz & tmo & b & Hpc). assert (z = th) as -> by congruence.
    destruct Ha as [Ha|[? Ha]]; congruence.
  - intros k _. rewrite E3. split; [by intros (? & ? & ?)|]. intros (? & ? & Hpc).
    destruct Ha as [Ha|[? Ha]]; congruence.
  - assert (forall k, is_Some (mutexes w !! k) -> is_Some (<[m := x']> (mutexes w) !! k)) as Hs.
    { intros k. rewrite lookup_insert_is_Some'. by right. }
    constructor; cbn; rewrite ?E1, ?E2, ?E3; try done.
    + apply Hto.
    + intros k [->|Hk]%E6; apply Hs; [by exists x|by apply (to_exist _ _ _ Hto)].
    + intros _ k [->|Hk]%E6; [apply elem_of_union_r; by apply elem_of_singleton|]. apply elem_of_union_l. by apply Hown.
    + intros _ _. change (held _ t) with (held w' t). lia.
  - by left.
  - intros k y Hk Hy Hne Hc. exfalso. destruct Ha as [Ha|[tmo Ha]]; rewrite Ha in Hc; cbn in Hc; [done|].
    apply Z.eqb_eq in Hc. congruence.
Qed.

(** Appending to the queue, or failing to arm the timer, on a locked mutex. *)
Lemma contend_inv w t m tmo x th room : mtx_inv w -> mutexes w !! m = Some x -> threads w !! t = Some th ->
  locked x <> 0 -> pc th = MTry m tmo ->
  exists w', lock_turn w t m tmo room = Some w' /\ mtx_inv w'.
Proof.
  intros Hi Hx Hth Hl Hpc. pose proof Hi as [Hm Hh Hq Ht Hw Hti Hsz].
  pose proof (Ht t th Hth) as Hto. destruct (Hm m x Hx) as (Hb & Hnd & Hlk).
  assert (locked x = 1) as Hl1 by lia.
  unfold lock_turn. rewrite (bind_eq _ _ _ Hx), (bind_eq _ _ _ Hth). cbn beta.
  rewrite (proj2 (Z.eqb_neq _ _) Hl). cbv zeta.
  set (boost := if priority th <? boost_prio x then priority th else boost_prio x).
  assert (0 <= boost) as Hb' by (unfold boost; destruct Hto as [[? _] _ _ _ _ _ _ _]; case_if; lia).
  assert (t ∉ waiters x) as Hnq by (rewrite (Hq m x t Hx); intros (z & ? & ? & ? & ?); congruence).
  assert (forall r, thread_ok w t (set_pc (set_waiting th m (owner_tid x))
    (MWait m tmo (Some (owner_tid x, priority th)) r))) as Hto'.
  { intros r. apply thread_ok_pc; [by apply thread_ok_waiting| | |done]; cbn; [|by rewrite Hpc].
    split; [by exists x|]. intros o req [= <- <-]. apply (to_prio _ _ _ Hto). }
  destruct (_ && _) eqn:Er; eexists; (split; [done|]).
  - apply (upd_inv w m x _ t th); try done.
    + intros u k. cbn. case_bool_decide as Hk; [subst k|done]. rewrite Hh. split.
      * intros (y & Hy & ?). by assert (y = x) as -> by congruence.
      * intros ?. by exists x.
    + intros u. cbn. case_bool_decide as Hu; [subst u|done]. split; [done|]. by intros (? & ? & ?).
    + intros k Hk. rewrite Hpc. split; by intros (? & ? & ?).
    + apply (thread_ok_mono w); [done| |done]. cbn. apply dom_insert_lookup_L. by exists x.
    + by left.
    + intros k y Hk Hy _ Hc. rewrite Hpc in Hc. cbn in Hc. apply Z.eqb_eq in Hc. congruence.
  - apply (upd_inv w m x _ t th); try done.
    + split_and!; [done| |right; cbn; lia]. cbn. apply NoDup_app. split_and!; [done| |apply NoDup_singleton].
      intros k Hk ->%list_elem_of_singleton. done.
    + intros u k. cbn. case_bool_decide as Hk; [subst k|done]. rewrite Hh. split.
      * intros (y & Hy & ?). by assert (y = x) as -> by congruence.
      * intros ?. by exists x.
    + intros u. cbn. rewrite elem_of_app, list_elem_of_singleton. case_bool_decide as Hu; [subst u|tauto].
      split; [intros _; by eexists _, _|by right].
    + intros k Hk. rewrite Hpc. split; [intros (? & ? & [=])|intros (? & ? & ?)]; congruence.
    + apply (thread_ok_mono w); [done| |done]. cbn. apply dom_insert_lookup_L. by exists x.
    + by left.
    + intros k y Hk Hy _ Hc. rewrite Hpc in Hc. cbn in Hc. apply Z.eqb_eq in Hc. congruence.
Qed.

(** The release of a mutex by the thread that holds it. *)
Lemma release_inv w t m x th th' : mtx_inv w -> mutexes w !! m = Some x -> threads w !! t = Some th ->
  locked x = 1 -> owner_tid x = t ->
  coming m (pc th') = true -> (forall k, ~ queued_on k (pc th)) -> (forall k, ~ queued_on k (pc th')) ->
  (forall k, k <> m -> coming k (pc th) = false) ->
  (let w' := with_holds (put (put_mutex w m (unlocked x)) t th') (holds w ∖ {[(t, m)]}) in
   thread_ok w' t th') ->
  mtx_inv (with_holds (put (put_mutex w m (unlocked x)) t th') (holds w ∖ {[(t, m)]})).
Proof.
  intros Hi Hx Hth Hl Ho Hc Hq1 Hq2 Hco Hto. pose proof Hi as [Hm Hh Hq Ht Hw Hti Hsz].
  destruct (Hm m x Hx) as (Hb & Hnd & Hlk). assert (t <> -1) as Ht1 by (intros ->; congruence).
  apply (upd_inv w m x _ t th); try done.
  - split_and!; [unfold unlocked, UINT32_MAX; cbn; lia|done|by left].
  - intros u k. rewrite elem_of_difference, elem_of_singleton. case_bool_decide as Hk; cbn.
    + subst k. split; [|intros [? _]; lia]. intros [(y & Hy & ? & Hu)%Hh Hne]. exfalso. apply Hne.
      assert (y = x) as -> by congruence. congruence.
    + split; [tauto|]. intros ?. split; [done|]. intros [= ? ?]. done.
  - intros u k Hu. rewrite elem_of_difference, elem_of_singleton. split; [tauto|].
    intros ?. split; [done|]. intros [= ? ?]. done.
  - intros u. cbn. case_bool_decide as Hu; [subst u|done]. split; [|by intros ?%Hq2].
    intros (z & Hz & Hqz)%(Hq m x t Hx). assert (z = th) as -> by congruence. by apply Hq1 in Hqz.
  - intros k _. split; [by intros ?%Hq2|by intros ?%Hq1].
  - intros _. right. by left.
  - intros k y Hk _ _ Hcc. by rewrite Hco in Hcc.
Qed.

Lemma swap_last_perm pre rest : swap_last pre rest ≡ₚ pre ++ rest.
Proof.
  destruct rest as [|y rest]; cbn -[List.last removelast]; [by rewrite app_nil_r|].
  rewrite (app_removelast_last NULL (l := y :: rest)) at 3 by done.
  by rewrite (Permutation_app_comm (removelast _) [_]).
Qed.

Lemma untrack_loop_spec m cur : forall pre,
  match untrack_loop pre cur m with
  | Some l => pre ++ cur ≡ₚ m :: l
  | None => m ∉ cur
  end.
Proof.
  induction cur as [|y cur IH]; intros pre; cbn; [apply not_elem_of_nil|].
  destruct (Z.eqb_spec y m) as [->|Hne].
  - rewrite swap_last_perm. symmetry. apply Permutation_middle.
  - specialize (IH (pre ++ [y])). destruct (untrack_loop _ _ _) as [l|].
    + by rewrite <- app_assoc in IH.
    + rewrite not_elem_of_cons. by split.
Qed.

(** Releasing a held mutex keeps the thread's accounts. *)
Lemma untrack_ok w w' t m th : mtx_inv w -> threads w !! t = Some th -> pc th = MIdle ->
  (t, m) ∈ holds w -> is_Some (mutexes w !! m) -> dom (mutexes w') = dom (mutexes w) ->
  holds w' = holds w ∖ {[(t, m)]} ->
  thread_ok w' t (set_pc (untrack_ownership m th) (MRecompute m)).
Proof.
  intros Hi Hth Hpc Hin Hm Hd Hh. pose proof (mi_thread w Hi t th Hth) as [H1 H2 H3 H4 H5 H6 H7 H8].
  rewrite Hpc in *. specialize (H6 eq_refl). specialize (H7 eq_refl ltac:(done)).
  pose proof (held_del w w' t m Hd Hh Hm Hin) as Hsz. pose proof (held_bound w t Hi).
  assert (forall k, is_Some (mutexes w !! k) -> is_Some (mutexes w' !! k)) as Hs.
  { intros k. rewrite <- !elem_of_dom. by rewrite Hd. }
  assert (forall k, k <> m -> (t, k) ∈ holds w -> (t, k) ∈ holds w') as Hhs.
  { intros k Hk ?. rewrite Hh, elem_of_difference, elem_of_singleton. split; [done|congruence]. }
  unfold untrack_ownership. pose proof (untrack_loop_spec m (owned_mutexes th) []) as Hu.
  destruct (untrack_loop [] (owned_mutexes th) m) as [l|]; cbn in Hu.
  - assert (forall k, k ∈ l -> k ∈ owned_mutexes th) as Hsub by (intros k ?; rewrite Hu; by right).
    pose proof (Permutation_length Hu) as Hlen. cbn in Hlen. rewrite Hu in H2. apply NoDup_cons in H2 as [Hml Hl].
    constructor; cbn; try done; try lia.
    + intros k Hk. by apply Hs, H4, Hsub.
    + by apply Hs.
    + intros _ k Hk. apply Hhs; [congruence|]. by apply H6, Hsub.
  - assert (S (length (owned_mutexes th)) <= size (held w t))%nat as Hge.
    { change (S (length (owned_mutexes th))) with (length (m :: owned_mutexes th)).
      rewrite <- (size_list_to_set (C := gset Z) (m :: owned_mutexes th)) by (by apply NoDup_cons).
      apply subseteq_size. intros k Hk. apply elem_of_list_to_set, elem_of_cons in Hk. apply elem_of_held.
      rewrite elem_of_dom. destruct Hk as [->|Hk]; [by split|]. split; [by apply H6|by apply H4]. }
    rewrite (proj2 (Z.ltb_lt _ _)) by lia.
    constructor; cbn; try done; rewrite ?u32_small by lia; try lia.
    + intros k Hk. by apply Hs, H4.
    + by apply Hs.
    + intros _ k Hk. apply Hhs; [congruence|]. by apply H6.
Qed.

(** The priority a thread has by what it owns. *)
Fixpoint inherited (w : world) (l : list Z) (base : Z) : Z :=
  match l with
  | [] => base
  | m :: rest => inherited w rest (Z.min base (default base (boost_prio <$> mutexes w !! m)))
  end.

Lemma min_boost_spec w l : forall e, mtx_inv w -> (forall m, m ∈ l -> is_Some (mutexes w !! m)) -> 0 <= e ->
  min_boost w l e = Some (inherited w l e) /\ 0 <= inherited w l e <= e.
Proof.
  induction l as [|m l IH]; intros e Hi Hl He; cbn; [split; [done|lia]|].
  destruct (Hl m ltac:(by left)) as [x Hx]. rewrite (bind_eq _ _ _ Hx), Hx. cbn.
  pose proof (mi_mutex w Hi m x Hx) as (Hb & _ & _).
  assert ((if boost_prio x <? e then boost_prio x else e) = Z.min e (boost_prio x)) as -> by (case_if; lia).
  destruct (IH (Z.min e (boost_prio x)) Hi ltac:(intros; apply Hl; by right) ltac:(lia)) as [-> ?].
  split; [done|lia].
Qed.

Lemma set_priority_ok w t th p : thread_ok w t th -> 0 <= p <= base_priority th ->
  thread_ok w t (scheduler_set_priority th p).
Proof. intros ??. unfold scheduler_set_priority. case_if; [done|]. by apply thread_ok_prio. Qed.

Lemma set_priority_pc th p : pc (scheduler_set_priority th p) = pc th.
Proof. unfold scheduler_set_priority. by case_if. Qed.

(** A thread's priority is raised. *)
Lemma boost_one_inv w t th p : mtx_inv w -> threads w !! t = Some th -> 0 <= p -> p < priority th ->
  mtx_inv (put w t (scheduler_set_priority th p)).
Proof.
  intros Hi Hth Hp Hlt. pose proof (mi_thread w Hi t th Hth) as Hto.
  apply (put_inv w t th); try done.
  - apply thread_ok_put, set_priority_ok; [done|]. destruct Hto as [? _ _ _ _ _ _ _]. lia.
  - intros k. by rewrite set_priority_pc.
  - intros k y _ _ ?. right. left. by rewrite set_priority_pc.
Qed.

Lemma boost_chain_inv p d : forall w tid c, mtx_inv w -> 0 <= p ->
  mtx_inv (boost_chain d w tid c p) /\
  forall t th, threads w !! t = Some th -> exists th', threads (boost_chain d w tid c p) !! t = Some th' /\ pc th' = pc th.
Proof.
  induction d as [|d IH]; intros w tid c Hi Hp; cbn [boost_chain]; [eauto|].
  destruct (_ || _); [eauto|]. destruct (threads w !! c) as [o|] eqn:Ho; [|eauto].
  destruct (Z.leb_spec (priority o) p); [eauto|].
  set (w1 := put w c (scheduler_set_priority o p)).
  assert (mtx_inv w1) as Hi1 by (by apply boost_one_inv).
  assert (forall t th, threads w !! t = Some th -> exists th', threads w1 !! t = Some th' /\ pc th' = pc th) as Hk.
  { intros t th Hth. cbn. destruct (decide (t = c)) as [->|]; [|rewrite lookup_insert_ne by done; eauto].
    rewrite lookup_insert_eq. eexists. split; [done|]. rewrite set_priority_pc. congruence. }
  cbv zeta. destruct (_ || _); [done|]. destruct (_ || _); [done|].
  destruct (IH w1 tid (waiting_owner_tid o) Hi1 Hp) as [Hi2 Hk2]. split; [done|].
  intros t th Hth. destruct (Hk t th Hth) as (th1 & Hth1 & E1). destruct (Hk2 t th1 Hth1) as (th2 & Hth2 & E2).
  exists th2. split; [done|congruence].
Qed.

(** Waking the head of a queue. *)
Lemma wake_one_inv w m : mtx_inv w -> is_Some (mutexes w !! m) ->
  exists w1 x1, wake_one w m = Some w1 /\ mtx_inv w1 /\ mutexes w1 !! m = Some x1 /\
    waiters x1 = List.tl (default [] (waiters <$> mutexes w !! m)) /\
    (forall t th, threads w !! t = Some th -> (forall k, ~ queued_on k (pc th)) -> threads w1 !! t = Some th) /\
    (waiters x1 <> [] -> exists u tu, threads w1 !! u = Some tu /\ coming m (pc tu) = true /\ exists tmo b, pc tu = MWait m tmo b (Some WAIT_OK)).
Proof.
  intros Hi [x Hx]. pose proof Hi as [Hm Hh Hq Ht Hw Hti Hsz]. destruct (Hm m x Hx) as (Hb & Hnd & Hlk).
  unfold wake_one. rewrite (bind_eq _ _ _ Hx), Hx. cbn [fmap option_fmap option_map default from_option id].
  destruct (waiters x) as [|u rest] eqn:Ew.
  { exists w, x. rewrite Ew. by split_and!. }
  destruct (proj1 (Hq m x u Hx) ltac:(rewrite Ew; by left)) as (th & Hu & tmo & b & Hpc).
  rewrite (bind_eq _ _ _ Hu), Hpc. apply NoDup_cons in Hnd as [Hur Hnd].
  set (x1 := mk_mutex (locked x) (owner_tid x) (boost_prio x) rest).
  eexists _, x1. split; [done|]. split; [|split; [by cbn; rewrite lookup_insert_eq|]].
  - apply (upd_inv w m x x1 u th); try done.
    + intros v k. cbn. case_bool_decide as Hk; [subst k|done]. rewrite Hh. split; [|intros; by exists x].
      intros (y & Hy & ?). by assert (y = x) as -> by congruence.
    + intros v. cbn. case_bool_decide as Hv; [subst v|rewrite Ew, elem_of_cons; tauto].
      split; [done|]. by intros (? & ? & ?).
    + intros k Hk. cbn. rewrite Hpc. split; [by intros (? & ? & ?)|]. intros (? & ? & [= ? ? ?]). congruence.
    + pose proof (Ht u th Hu) as Hto. pose proof (to_pc _ _ _ Hto) as Hp. rewrite Hpc in Hp.
      apply thread_ok_pc; [|cbn; rewrite lookup_insert_eq; split; [done|apply Hp]| |done].
      * apply (thread_ok_mono w); [done| |done]. cbn. apply dom_insert_lookup_L. by exists x.
      * cbn. by rewrite Hpc.
    + intros _. right. left. cbn. by rewrite Z.eqb_refl.
    + intros k y _ _ _ Hc. by rewrite Hpc in Hc.
  - split; [done|]. split.
    + intros t z Hz Hnq. cbn. rewrite lookup_insert_ne; [done|]. intros ->. assert (z = th) as -> by congruence.
      apply (Hnq m). rewrite Hpc. by eexists _, _.
    + intros _. eexists u, _. cbn. rewrite lookup_insert_eq. split; [done|]. cbn. rewrite Z.eqb_refl. split; [done|].
      by eexists _, _.
Qed.

Lemma wake_all_inv m n : forall w x, mtx_inv w -> mutexes w !! m = Some x -> length (waiters x) = n ->
  exists w1 x1, wake_all n w m = Some w1 /\ mtx_inv w1 /\ mutexes w1 !! m = Some x1 /\ waiters x1 = [] /\
    (forall t th, threads w !! t = Some th -> (forall k, ~ queued_on k (pc th)) -> threads w1 !! t = Some th).
Proof.
  induction n as [|n IH]; intros w x Hi Hx Hn; cbn [wake_all].
  - exists w, x. apply nil_length_inv in Hn. by split_and!.
  - destruct (wake_one_inv w m Hi ltac:(by exists x)) as (w1 & x1 & E & Hi1 & Hx1 & Hl & Hk & _).
    rewrite Hx in Hl. cbn in Hl. rewrite (bind_eq _ _ _ E).
    destruct (IH w1 x1 Hi1 Hx1) as (w2 & x2 & E2 & Hi2 & Hx2 & Hl2 & Hk2).
    { rewrite Hl. destruct (waiters x); [done|]. cbn in *. lia. }
    exists w2, x2. split_and!; try done. intros t th Hth Hnq. apply Hk2; [|done]. by apply Hk.
Qed.

Lemma pc_of_Some w t p : pc_of w t = Some p -> exists th, threads w !! t = Some th /\ pc th = p.
Proof. unfold pc_of. destruct (threads w !! t) as [th|]; [|done]. intros [= <-]. by exists th. Qed.

(** Neither place is in a queue. *)
Ltac off_queue := let Hx := fresh in intros; split; intros (? & ? & Hx); congruence.

(** A thread moves on in the code, out of every queue, and what it was to look at still is. *)
Lemma pc_inv w t th p : mtx_inv w -> threads w !! t = Some th -> (forall k, ~ queued_on k (pc th)) ->
  (forall k, ~ queued_on k p) -> pc_ok w p ->
  (reaping p = false -> p <> MDead -> reaping (pc th) = false /\ pc th <> MDead) ->
  (p = MDead -> owned_mutexes th = []) ->
  (forall k y, mutexes w !! k = Some y -> waiters y <> [] -> coming k (pc th) = true ->
     locked y = 1 \/ coming k p = true \/
     exists u tu, u <> t /\ threads w !! u = Some tu /\ coming k (pc tu) = true) ->
  mtx_inv (put w t (set_pc th p)).
Proof.
  intros Hi Hth Hq1 Hq2 Hp Hr Hd Hc. apply (put_inv w t th); try done.
  - apply thread_ok_put, thread_ok_pc; [by apply (mi_thread w Hi)|done..].
  - intros k. split; [by intros ?%Hq2|by intros ?%Hq1].
Qed.

Lemma call_inv w t m tmo : mtx_inv w -> enabled w (SCall t m tmo) ->
  exists w', run_section w (SCall t m tmo) = Some w' /\ mtx_inv w'.
Proof.
  intros Hi [(th & Hth & Hpc)%pc_of_Some Hm]. cbn [run_section]. rewrite (bind_eq _ _ _ Hth).
  eexists. split; [done|]. apply (pc_inv w t th); try done; rewrite ?Hpc.
  - by intros k (? & ? & ?).
  - by intros k (? & ? & ?).
  - done.
  - by intros k y _ _ ?.
Qed.

Lemma turn_inv w t room : mtx_inv w -> enabled w (STurn t room) ->
  exists w', run_section w (STurn t room) = Some w' /\ mtx_inv w'.
Proof.
  intros Hi (m & tmo & (th & Hth & Hpc)%pc_of_Some). cbn [run_section]. rewrite (bind_eq _ _ _ Hth), Hpc.
  pose proof (to_pc _ _ _ (mi_thread w Hi t th Hth)) as Hm. rewrite Hpc in Hm. destruct Hm as [x Hx].
  destruct (decide (locked x = 0)) as [Hl|Hl]; [|by apply (contend_inv w t m tmo x th)].
  unfold lock_turn. rewrite (bind_eq _ _ _ Hx), (bind_eq _ _ _ Hth), Hl. eexists. split; [done|].
  apply take_inv; try done. right. by exists tmo.
Qed.

Lemma boost_inv w t : mtx_inv w -> enabled w (SBoost t) ->
  exists w', run_section w (SBoost t) = Some w' /\ mtx_inv w'.
Proof.
  intros Hi (m & tmo & [o req] & r & (th & Hth & Hpc)%pc_of_Some). cbn [run_section]. unfold boost_turn.
  rewrite (bind_eq _ _ _ Hth), Hpc. cbv zeta.
  pose proof (to_pc _ _ _ (mi_thread w Hi t th Hth)) as Hp. rewrite Hpc in Hp. destruct Hp as [Hm Hreq].
  specialize (Hreq o req eq_refl).
  assert (mtx_inv (thread_boost_by_tid w o req) /\
    exists th', threads (thread_boost_by_tid w o req) !! t = Some th' /\ pc th' = pc th) as [Hi1 (th1 & Hth1 & E1)].
  { unfold thread_boost_by_tid. destruct (_ || _); [eauto|].
    destruct (boost_chain_inv req PI_CHAIN_MAX_DEPTH w o o Hi Hreq) as [? Hk]. split; [done|]. by apply Hk. }
  rewrite (bind_eq _ _ _ Hth1). eexists. split; [done|].
  pose proof (mi_thread _ Hi1 t th1 Hth1) as Hto. pose proof (to_pc _ _ _ Hto) as Hp1.
  rewrite E1, Hpc in Hp1. apply (put_inv _ t th1); try done.
  - apply thread_ok_put, thread_ok_pc; try done; [split; [apply Hp1|done]|]. by rewrite E1, Hpc.
  - intros k. rewrite E1, Hpc. split; intros (tmo' & b & Hx); cbn in Hx; simplify_eq; by eexists _, _.
  - intros k y _ _. rewrite E1, Hpc. cbn. right. by left.
Qed.

Lemma timeout_inv w t : mtx_inv w -> enabled w (STimeout t) ->
  exists w', run_section w (STimeout t) = Some w' /\ mtx_inv w'.
Proof.
  intros Hi (m & tmo & b & (th & Hth & Hpc)%pc_of_Some & Htmo). cbn [run_section]. unfold timeout_turn.
  rewrite (bind_eq _ _ _ Hth), Hpc. pose proof Hi as [Hm Hh Hq Ht Hw Hti Hsz].
  pose proof (Ht t th Hth) as Hto. pose proof (to_pc _ _ _ Hto) as Hp. rewrite Hpc in Hp.
  destruct Hp as [[x Hx] Hreq]. rewrite (bind_eq _ _ _ Hx). eexists. split; [done|].
  destruct (Hm m x Hx) as (Hb & Hnd & Hlk).
  apply (upd_inv w m x _ t th); try done.
  - split_and!; [done| |done]. cbn. by apply NoDup_filter.
  - intros u k. cbn. case_bool_decide as Hk; [subst k|done]. rewrite Hh. split; [|intros; by exists x].
    intros (y & Hy & ?). by assert (y = x) as -> by congruence.
  - intros u. cbn. unfold without. case_bool_decide as Hu; [subst u|]; rewrite list_elem_of_filter; [|tauto].
    split; [tauto|]. by intros (? & ? & ?).
  - intros k Hk. cbn. rewrite Hpc. split; [by intros (? & ? & ?)|]. intros (? & ? & [= ? ? ?]). congruence.
  - apply thread_ok_pc; [|cbn; rewrite lookup_insert_eq; by split| |done].
    + apply (thread_ok_mono w); [done| |done]. cbn. apply dom_insert_lookup_L. by exists x.
    + cbn. by rewrite Hpc.
  - cbn. intros Hne. assert (waiters x <> []) as Hne' by (intros E; by rewrite E in Hne).
    destruct (Hw m x Hx Hne') as [?|(u & tu & Hu & Hc)]; [by left|right; right].
    exists u, tu. split_and!; try done. intros ->. assert (tu = th) as -> by congruence. by rewrite Hpc in Hc.
  - intros k y _ _ _ Hc. by rewrite Hpc in Hc.
Qed.

Lemma finish_inv w t : mtx_inv w -> enabled w (SFinish t) ->
  exists w', run_section w (SFinish t) = Some w' /\ mtx_inv w'.
Proof.
  intros Hi (m & tmo & r & (th & Hth & Hpc)%pc_of_Some). cbn [run_section]. unfold finish_turn.
  rewrite (bind_eq _ _ _ Hth), Hpc. eexists. split; [done|].
  pose proof (mi_thread w Hi t th Hth) as Hto. pose proof (to_pc _ _ _ Hto) as Hp. rewrite Hpc in Hp.
  apply (put_inv w t th); try done.
  - apply thread_ok_put, thread_ok_pc; [by apply thread_ok_waiting| | |by case_if].
    + case_if; [done|apply Hp].
    + cbn. by rewrite Hpc.
  - intros k. rewrite Hpc. cbn. split; [|by intros (? & ? & ?)]. by case_if; intros (? & ? & ?).
  - intros k y _ _ Hc. rewrite Hpc in Hc. cbn in Hc. apply andb_true_iff in Hc as [Hk Hr%Z.eqb_eq]. subst r.
    right. left. cbn. done.
Qed.

Lemma trylock_inv w t m : mtx_inv w -> enabled w (STrylock t m) ->
  exists w', run_section w (STrylock t m) = Some w' /\ mtx_inv w'.
Proof.
  intros Hi [(th & Hth & Hpc)%pc_of_Some [x Hx]]. cbn [run_section]. unfold mutex_trylock.
  rewrite (bind_eq _ _ _ Hx), (bind_eq _ _ _ Hth). destruct (Z.eqb_spec (locked x) 0); eexists; (split; [done|]); [|done].
  apply take_inv; try done. by left.
Qed.

Lemma unlock_inv w t m : mtx_inv w -> enabled w (SUnlock t m) ->
  exists w', run_section w (SUnlock t m) = Some w' /\ mtx_inv w'.
Proof.
  intros Hi [(th & Hth & Hpc)%pc_of_Some [x Hx]]. cbn [run_section]. unfold mutex_unlock.
  rewrite (bind_eq _ _ _ Hx), (bind_eq _ _ _ Hth). cbv zeta. pose proof Hi as [Hm Hh Hq Ht Hw Hti Hsz].
  destruct (Z.eqb_spec t (owner_tid x)) as [Ho|Ho]; cbn [negb]; eexists; (split; [done|]).
  - destruct (Hm m x Hx) as (_ & _ & Hlk). assert (t <> -1) as Ht1 by (intros ->; congruence).
    assert (locked x = 1) as Hl by (destruct Hlk as [[_ ?]|[? _]]; [congruence|done]).
    apply (release_inv w t m x th); try done.
    + cbn. by rewrite Z.eqb_refl.
    + intros k. rewrite Hpc. by intros (? & ? & ?).
    + intros k. cbn. by intros (? & ? & ?).
    + intros k _. by rewrite Hpc.
    + apply (untrack_ok w); try done; [apply Hh; by exists x|].
      cbn. apply dom_insert_lookup_L. by exists x.
  - assert (holds w ∖ {[(t, m)]} = holds w) as ->; [|by destruct w].
    apply set_eq. intros [u k]. rewrite elem_of_difference, elem_of_singleton.
    split; [tauto|]. intros Hin. split; [done|]. intros [= -> ->]. apply Hh in Hin as (y & Hy & _ & ?).
    congruence.
Qed.

Lemma recompute_inv w t : mtx_inv w -> enabled w (SRecompute t) ->
  exists w', run_section w (SRecompute t) = Some w' /\ mtx_inv w' /\
    forall th, threads w !! t = Some th -> exists th', threads w' !! t = Some th' /\
      (base_priority th < SCHED_NUM_PRIORITIES -> priority th' = inherited w (owned_mutexes th) (base_priority th)).
Proof.
  intros Hi (m & (th & Hth & Hpc)%pc_of_Some). cbn [run_section]. unfold unlock_recompute, recompute_owner_priority.
  rewrite (bind_eq _ _ _ Hth), Hpc, (bind_eq _ _ _ Hth).
  pose proof (mi_thread w Hi t th Hth) as Hto. pose proof (to_pc _ _ _ Hto) as Hp. rewrite Hpc in Hp.
  destruct (min_boost_spec w (owned_mutexes th) (base_priority th) Hi (to_exist _ _ _ Hto)) as [E He].
  { destruct Hto as [? _ _ _ _ _ _ _]. lia. }
  rewrite (bind_eq _ _ _ E), (bind_eq _ _ _ eq_refl). eexists. split; [done|].
  set (eff := inherited w (owned_mutexes th) (base_priority th)) in *.
  pose proof (set_priority_ok w t th eff Hto He) as Hto'. split.
  - apply (put_inv w t th); try done.
    + apply thread_ok_put, thread_ok_pc; try done. by rewrite set_priority_pc, Hpc.
    + intros k. rewrite Hpc. split; by intros (? & ? & ?).
    + intros k y _ _ Hc. rewrite Hpc in Hc. right. by left.
  - intros z Hz. assert (z = th) as -> by congruence. cbn. rewrite lookup_insert_eq. eexists. split; [done|].
    intros Hb. unfold scheduler_set_priority. by rewrite (proj2 (Z.leb_gt _ _)) by lia.
Qed.

Lemma wake_inv w t : mtx_inv w -> enabled w (SWake t) ->
  exists w', run_section w (SWake t) = Some w' /\ mtx_inv w'.
Proof.
  intros Hi (m & (th & Hth & Hpc)%pc_of_Some). cbn [run_section]. unfold unlock_wake.
  rewrite (bind_eq _ _ _ Hth), Hpc. pose proof (to_pc _ _ _ (mi_thread w Hi t th Hth)) as Hm. rewrite Hpc in Hm.
  assert (forall k, ~ queued_on k (pc th)) as Hnq by (rewrite Hpc; intros k; by intros (? & ? & ?)).
  destruct (wake_one_inv w m Hi Hm) as (w1 & x1 & E & Hi1 & Hx1 & _ & Hk & Hc).
  specialize (Hk t th Hth Hnq). rewrite (bind_eq _ _ _ E), (bind_eq _ _ _ Hk). eexists. split; [done|].
  apply (pc_inv w1 t th); rewrite ?Hpc; try done.
  - by intros k (? & ? & ?).
  - by intros k (? & ? & ?).
  - intros k y Hy Hne Hkm. cbn in Hkm. apply Z.eqb_eq in Hkm. subst k. assert (y = x1) as -> by congruence.
    destruct (Hc Hne) as (u & tu & Hu & Hcm & tmo & b & Hpu). right. right. exists u, tu. split_and!; try done.
    intros ->. congruence.
Qed.

Ltac in_nil := intros; match goal with H : _ ∈ [] |- _ => by apply not_elem_of_nil in H end.

Lemma die_inv w t : mtx_inv w -> enabled w (SDie t) ->
  exists w', run_section w (SDie t) = Some w' /\ mtx_inv w'.
Proof.
  intros Hi (th & Hth & Hpc)%pc_of_Some. cbn [run_section]. rewrite (bind_eq _ _ _ Hth).
  eexists. split; [done|]. apply (pc_inv w t th); rewrite ?Hpc; try done.
  - by intros k (? & ? & ?).
  - by intros k (? & ? & ?).
  - intros k Hk. rewrite list_elem_of_In, <- in_rev, <- list_elem_of_In in Hk.
    by apply (to_exist _ _ _ (mi_thread w Hi t th Hth)).
Qed.

Lemma reap_inv w t : mtx_inv w -> enabled w (SReap t) ->
  exists w', run_section w (SReap t) = Some w' /\ mtx_inv w'.
Proof.
  intros Hi (l & [(th & Hth & Hpc)%pc_of_Some|[m (th & Hth & Hpc)%pc_of_Some]]); cbn [run_section];
    unfold reap_turn; rewrite (bind_eq _ _ _ Hth), Hpc;
    pose proof (mi_thread w Hi t th Hth) as Hto; pose proof (to_pc _ _ _ Hto) as Hp; rewrite Hpc in Hp;
    assert (forall k, ~ queued_on k (pc th)) as Hnq by (rewrite Hpc; intros k; by intros (? & ? & ?)).
  - destruct l as [|m rest].
    + eexists. split; [done|]. apply (put_inv w t th); try done.
      * apply thread_ok_put. destruct Hto as [H1 H2 H3 H4 H5 H6 H7 H8].
        constructor; cbn; try done; try apply NoDup_nil_2; in_nil.
      * intros k. rewrite Hpc. split; by intros (? & ? & ?).
      * intros k y _ _ Hc. by rewrite Hpc in Hc.
    + destruct (Hp m ltac:(by left)) as [x Hx]. rewrite (bind_eq _ _ _ Hx).
      destruct (_ && _) eqn:E; eexists; (split; [done|]).
      * apply andb_true_iff in E as [El%negb_true_iff%Z.eqb_neq Eo%Z.eqb_eq].
        destruct (mi_mutex w Hi m x Hx) as (_ & _ & Hlk).
        apply (release_inv w t m x th); try done; try lia.
        -- cbn. by rewrite Z.eqb_refl.
        -- intros k. by intros (? & ? & ?).
        -- intros k _. by rewrite Hpc.
        -- cbv zeta. destruct Hto as [H1 H2 H3 H4 H5 H6 H7 H8].
           assert (forall k, is_Some (mutexes w !! k) -> is_Some (<[m := unlocked x]> (mutexes w) !! k)) as Hs.
           { intros k. rewrite lookup_insert_is_Some'. by right. }
           constructor; cbn; try done.
           ++ intros k Hk. by apply Hs, H4.
           ++ split; [apply Hs; by exists x|]. intros k Hk. apply Hs, Hp. by right.
      * apply (pc_inv w t th); rewrite ?Hpc; try done.
        -- by rewrite Hpc in Hnq.
        -- by intros k (? & ? & ?).
        -- intros k Hk. apply Hp. by right.
  - destruct Hp as [[x Hx] Hp]. rewrite (bind_eq _ _ _ Hx).
    destruct (wake_all_inv m _ w x Hi Hx eq_refl) as (w1 & x1 & E & Hi1 & Hx1 & He & Hk).
    specialize (Hk t th Hth Hnq). rewrite (bind_eq _ _ _ E), (bind_eq _ _ _ Hk). eexists. split; [done|].
    pose proof (to_pc _ _ _ (mi_thread w1 Hi1 t th Hk)) as Hp1. rewrite Hpc in Hp1.
    apply (pc_inv w1 t th); rewrite ?Hpc; try done.
    + by rewrite Hpc in Hnq.
    + by intros k (? & ? & ?).
    + by destruct Hp1.
    + intros k y Hy Hne Hkm. cbn in Hkm. apply Z.eqb_eq in Hkm. subst k. congruence.
Qed.

(** Every enabled section returns, and keeps the invariant. *)
Lemma section_inv w s : mtx_inv w -> enabled w s -> exists w', run_section w s = Some w' /\ mtx_inv w'.
Proof.
  destruct s; [apply call_inv|apply turn_inv|apply boost_inv|apply timeout_inv|apply finish_inv|
    apply trylock_inv|apply unlock_inv| |apply wake_inv|apply die_inv|apply reap_inv].
  intros Hi He. destruct (recompute_inv w t Hi He) as (w' & ? & ? & _). by exists w'.
Qed.

Lemma boot_inv ms prios : Z.of_nat (size ms) < 0x100000000 -> prios !! (-1) = None ->
  (forall t p, prios !! t = Some p -> 0 <= p) -> mtx_inv (boot ms prios).
Proof.
  intros Hsz Hn Hp.
  assert (forall t th, threads (boot ms prios) !! t = Some th -> exists p, 0 <= p /\ th = new_thread p) as Ht.
  { intros t th. cbn. rewrite lookup_fmap. destruct (prios !! t) as [p|] eqn:E; [|done]. intros [= <-].
    exists p. split; [by apply (Hp t)|done]. }
  constructor.
  - intros m x [_ <-]%lookup_gset_to_gmap_Some. split_and!; [done|constructor|by left].
  - intros t m. split; [by intros ?%not_elem_of_empty|]. intros (x & [_ <-]%lookup_gset_to_gmap_Some & ? & _). done.
  - intros m x t [_ <-]%lookup_gset_to_gmap_Some. split; [by intros ?%not_elem_of_nil|].
    intros (th & (p & _ & ->)%Ht & ? & ? & ?). done.
  - intros t th (p & ? & ->)%Ht. constructor; cbn; try done; try lia; try apply NoDup_nil_2;
      try (in_nil).
    intros _ _. assert (held (boot ms prios) t = ∅) as ->; [|done].
    apply set_eq. intros m. rewrite elem_of_held. split; [by intros [?%not_elem_of_empty _]|by intros ?%not_elem_of_empty].
  - intros m x [_ <-]%lookup_gset_to_gmap_Some. done.
  - cbn. by rewrite lookup_fmap, Hn.
  - unfold boot; cbn [mutexes]. by rewrite <- (size_dom (D := gset Z) (gset_to_gmap mutex_init ms)), dom_gset_to_gmap.
Qed.

(** ** The properties *)

Definition asleep (p : mtx_pc) : Prop := exists m tmo, p = MWait m tmo None None.


(** ** A concrete run: thread 2 waits for the mutex thread 1 holds, and inherits it *)

Fixpoint run_sections (w : world) (l : list section) : option world :=
  match l with [] => Some w | s :: rest => w1 ← run_section w s; run_sections w1 rest end.

Definition boot2 : world := boot {[7]} (<[1 := 2]> (<[2 := 1]> (<[3 := 0]> ∅))).

Definition handover : list section :=
  [SCall 1 7 0; STurn 1 true; SCall 2 7 0; STurn 2 true; SBoost 2; SUnlock 1 7; SRecompute 1; SWake 1;
   SFinish 2; STurn 2 true].

Definition step1 (w : world) (s : section) : world := default w (run_section w s).

Lemma steps_reachable w w1 s : reachable mtx_step w w1 -> enabled w1 s ->
  is_Some (run_section w1 s) -> reachable mtx_step w (step1 w1 s).
Proof.
  intros Hr He [w2 E]. apply (reach_step _ _ w1); [done|]. exists s. unfold step1. by rewrite E.
Qed.

Ltac run_one := eapply steps_reachable; [|vm_compute; eauto 10|vm_compute; eauto].

Definition contended : world :=
  step1 (step1 (step1 (step1 (step1 boot2 (SCall 1 7 0)) (STurn 1 true)) (SCall 2 7 0)) (STurn 2 true)) (SBoost 2).

Lemma contended_reachable : reachable mtx_step boot2 contended.
Proof. unfold contended. do 5 run_one. constructor. Qed.


(** The boost of a mutex is the highest request among its waiters only until the first
    unlock: [mutex_unlock] resets it while others still wait, so the next owner runs at its
    own priority with a more urgent thread behind it. *)
Remark handover_loses_boost :
  (run_sections contended
     [SCall 3 7 0; STurn 3 true; SBoost 3; SUnlock 1 7; SRecompute 1; SWake 1; SFinish 2; STurn 2 true]) ≫= (fun w =>
   x ← mutexes w !! 7; o ← threads w !! owner_tid x; u ← threads w !! 3;
   Some (owner_tid x, boost_prio x, waiters x, priority o, priority u)) = Some (2, UINT32_MAX, [3], 1, 0).
Proof. vm_compute. reflexivity. Qed.
