(* ===== verification/EventGroup.v ===== *)
(** * Event groups (kernel/sync/event_group.c)

    32-bit condition masks with waits on all/any bits set/clear.  First the operations as
    sequential code: the scan of the waiters in batches of sixteen is one pass.  Then any
    number of threads: each section under a group's lock, each wake of a record and each
    step of a wait is one step of [ev_step].  A waiter's record lives on its stack: it is
    kept in [recs] under the thread's name, and [inq] tells whether the thread is in the
    record's private wait queue. *)

From S2P Require Import Prelude Wait.

Definition RT_ALL_SET : Z := 0.
Definition RT_ANY_SET : Z := 1.
Definition RT_ALL_CLEAR : Z := 2.
Definition RT_ANY_CLEAR : Z := 3.
Definition EVENT_OP_SET : Z := 0.
Definition EVENT_OP_CLEAR : Z := 1.
Definition EVENT_OP_PULSE : Z := 2.
Definition MAX_EVENT_GROUPS : Z := 32.
Definition BATCH : nat := 16.

Record event_waiter_t := mk_ew {
  pattern : Z;
  mode : Z;
  signaled : bool;
  result : Z;
  result_flags : Z;
  inq : bool;
  wait_res : Z
}.

(** [edge] is a ghost: a pulse, a reset or the end of a destroy happened. *)
Record event_group_t := mk_eg {
  used : bool;
  poisoned : bool;
  owner_pid : Z;
  flags : Z;
  waiters : list Z;
  edge : bool
}.

Abbreviation recs_t := (gmap Z event_waiter_t).

Definition pattern_match (fl pat m : Z) : bool :=
  if m =? RT_ALL_SET then Z.land fl pat =? pat
  else if m =? RT_ANY_SET then negb (Z.land fl pat =? 0)
  else if m =? RT_ALL_CLEAR then Z.land fl pat =? 0
  else if m =? RT_ANY_CLEAR then negb (Z.land fl pat =? pat)
  else false.

Definition group_ok (gid : Z) : bool := (0 <=? gid) && (gid <? MAX_EVENT_GROUPS).

(** ** The wake pass *)

Definition hit (snapshot : Z) (cancel_all : bool) (w : event_waiter_t) : bool :=
  cancel_all || pattern_match snapshot (pattern w) (mode w).

Definition mark (snapshot : Z) (cancel_all : bool) (w : event_waiter_t) : event_waiter_t :=
  mk_ew (pattern w) (mode w) true (if cancel_all then WAIT_CANCELLED else WAIT_OK) snapshot (inq w) (wait_res w).

(** The scan under the lock: what stays in the list, the batch, the records. *)
Fixpoint scan_waiters (room : nat) (snapshot : Z) (cancel_all : bool) (recs : recs_t) (l : list Z)
  : option (list Z * list Z * recs_t) :=
  match l with
  | [] => Some ([], [], recs)
  | t :: rest =>
      w ← recs !! t;
      if hit snapshot cancel_all w then
        let recs1 := <[t := mark snapshot cancel_all w]> recs in
        match room with
        | S (S _ as r) =>
            '(kept, batch, recs2) ← scan_waiters r snapshot cancel_all recs1 rest;
            Some (kept, t :: batch, recs2)
        | _ => Some (rest, [t], recs1)
        end
      else
        '(kept, batch, recs2) ← scan_waiters room snapshot cancel_all recs rest;
        Some (t :: kept, batch, recs2)
  end.

(** [wait_queue_wake_all] on a record's private queue. *)
Definition wake_record (recs : recs_t) (t : Z) : option recs_t :=
  w ← recs !! t;
  Some (<[t := mk_ew (pattern w) (mode w) (signaled w) (result w) (result_flags w) false
                 (if inq w then WAIT_OK else wait_res w)]> recs).

Fixpoint wake_batch (recs : recs_t) (batch : list Z) : option recs_t :=
  match batch with [] => Some recs | t :: rest => recs1 ← wake_record recs t; wake_batch recs1 rest end.

Definition with_waiters (g : event_group_t) (l : list Z) : event_group_t :=
  mk_eg (used g) (poisoned g) (owner_pid g) (flags g) l (edge g).

Fixpoint wake_waiters (fuel : nat) (g : event_group_t) (recs : recs_t) (snapshot : Z) (cancel_all : bool)
  : option (event_group_t * recs_t) :=
  match fuel with
  | O => None
  | S f =>
      '(kept, batch, recs1) ← scan_waiters BATCH snapshot cancel_all recs (waiters g);
      recs2 ← wake_batch recs1 batch;
      if (length batch <? BATCH)%nat then Some (with_waiters g kept, recs2)
      else wake_waiters f (with_waiters g kept) recs2 snapshot cancel_all
  end.

(** The change of the flags and the snapshot the waiters are matched against. *)
Definition mutate (g : event_group_t) (bits op : Z) : event_group_t * Z :=
  let set f e := mk_eg (used g) (poisoned g) (owner_pid g) f (waiters g) (edge g || e) in
  let high := Z.lor (flags g) bits in
  let low f := Z.land f (not32 bits) in
  if op =? EVENT_OP_SET then (set high false, high)
  else if op =? EVENT_OP_CLEAR then (set (low (flags g)) false, low (flags g))
  else (set (low high) true, high).

Definition mutate_and_wake (fuel : nat) (groups : gmap Z event_group_t) (recs : recs_t) (gid bits op : Z)
  : option (Z * gmap Z event_group_t * recs_t) :=
  if negb (group_ok gid) then Some (-1, groups, recs)
  else
    g ← groups !! gid;
    if negb (used g) || poisoned g then Some (-1, groups, recs)
    else
      let '(g1, snapshot) := mutate g bits op in
      '(g2, recs1) ← wake_waiters fuel g1 recs snapshot false;
      Some (0, <[gid := g2]> groups, recs1).

(** ** The pass is one filter *)

Definition hit_in (recs : recs_t) (snapshot : Z) (c : bool) (t : Z) : Prop :=
  exists w, recs !! t = Some w /\ hit snapshot c w = true.

#[export] Instance hit_in_dec recs snapshot c t : Decision (hit_in recs snapshot c t).
Proof.
  destruct (recs !! t) as [w|] eqn:E; [destruct (hit snapshot c w) eqn:H|].
  - left. by exists w.
  - right. intros (x & ? & ?). congruence.
  - right. intros (x & ? & ?). congruence.
Defined.

Lemma hit_in_Some recs s c t w : recs !! t = Some w -> hit_in recs s c t <-> hit s c w = true.
Proof. intros E. split; [intros (x & ? & ?); congruence|intros ?; by exists w]. Qed.

Lemma hit_in_ext recs recs' s c t : recs' !! t = recs !! t -> hit_in recs' s c t <-> hit_in recs s c t.
Proof. unfold hit_in. by intros ->. Qed.

(** The records after the ones of [l] that match were marked. *)
Definition marked (recs recs' : recs_t) (s : Z) (c : bool) (l : list Z) : Prop :=
  forall t, recs' !! t = if decide (t ∈ l /\ hit_in recs s c t) then mark s c <$> recs !! t else recs !! t.

Lemma filter_ext_in {A} (P Q : A -> Prop) `{!forall x, Decision (P x)} `{!forall x, Decision (Q x)} (l : list A) :
  (forall x, x ∈ l -> P x <-> Q x) -> filter P l = filter Q l.
Proof.
  induction l as [|x l IH]; intros Heq; [done|]. rewrite !filter_cons, (IH ltac:(intros; apply Heq; by right)).
  specialize (Heq x ltac:(by left)). destruct (decide (P x)), (decide (Q x)); tauto.
Qed.

Lemma scan_waiters_spec s c l : forall room recs, NoDup l -> (0 < room)%nat ->
  (forall t, t ∈ l -> is_Some (recs !! t)) ->
  exists l1 l2 recs', l = l1 ++ l2 /\
    scan_waiters room s c recs l =
      Some (filter (fun t => ~ hit_in recs s c t) l1 ++ l2, filter (hit_in recs s c) l1, recs') /\
    marked recs recs' s c l1 /\ (length (filter (hit_in recs s c) l1) <= room)%nat /\
    (length (filter (hit_in recs s c) l1) = room \/ l2 = []).
Proof.
  induction l as [|t l IH]; intros room recs Hnd Hroom Hl.
  { exists [], [], recs. split; [done|]. split; [done|]. split; [|split; [apply Nat.le_0_l|by right]]. intros t.
    rewrite decide_False; [done|]. by intros [?%not_elem_of_nil _]. }
  apply NoDup_cons in Hnd as [Htl Hnd]. destruct (Hl t ltac:(by left)) as [w Hw].
  cbn [scan_waiters]. rewrite (bind_eq _ _ _ Hw). destruct (hit s c w) eqn:Hh.
  - pose proof (proj2 (hit_in_Some recs s c t w Hw) Hh) as Hht.
    set (recs1 := <[t := mark s c w]> recs).
    assert (forall l1 : list Z, t ∉ l1 -> filter (hit_in recs1 s c) l1 = filter (hit_in recs s c) l1 /\
      filter (fun t => ~ hit_in recs1 s c t) l1 = filter (fun t => ~ hit_in recs s c t) l1) as Hext.
    { intros l1 Hn. assert (forall x, x ∈ l1 -> hit_in recs1 s c x <-> hit_in recs s c x) as Hx.
      { intros x Hx. apply hit_in_ext. unfold recs1. rewrite lookup_insert_ne; congruence. }
      split; apply filter_ext_in; intros x Hin; by rewrite (Hx x Hin). }
    destruct room as [|[|r]]; [lia| |].
    + exists [t], l, recs1. split; [done|]. rewrite !filter_cons, decide_False, decide_True by tauto.
      split; [done|]. split; [|split; [done|by left]].
      intros x. unfold recs1. destruct (decide (x = t)) as [->|Hx].
      * rewrite lookup_insert_eq, decide_True, Hw; [done|]. split; [by left|done].
      * rewrite lookup_insert_ne by done. rewrite decide_False; [done|]. intros [?%list_elem_of_singleton _]. congruence.
    + destruct (IH (S r) recs1 Hnd ltac:(lia)) as (l1 & l2 & recs' & -> & E & Hm & Hlen & Hd).
      { intros x Hx. unfold recs1. rewrite lookup_insert_ne by congruence. apply Hl. by right. }
      destruct (Hext l1 ltac:(intros ?; apply Htl, elem_of_app; by left)) as [E1 E2]. rewrite E1, E2 in *.
      exists (t :: l1), l2, recs'. rewrite (bind_eq _ _ _ E). split; [done|].
      rewrite !filter_cons, decide_False, decide_True by tauto. split; [done|]. split; [|cbn; split; [lia|]].
      * intros x. rewrite Hm. unfold recs1. destruct (decide (x = t)) as [->|Hx].
        -- rewrite lookup_insert_eq, decide_False, decide_True, Hw; [done| |].
           ++ split; [by left|done].
           ++ intros [? _]. apply Htl, elem_of_app. by left.
        -- rewrite lookup_insert_ne by done. apply decide_ext. rewrite elem_of_cons.
           rewrite (hit_in_ext recs (<[t := mark s c w]> recs)) by (by rewrite lookup_insert_ne). intuition congruence.
      * destruct Hd as [?|?]; [left; lia|by right].
  - assert (~ hit_in recs s c t) as Hht by (rewrite (hit_in_Some recs s c t w Hw); congruence).
    destruct (IH room recs Hnd Hroom) as (l1 & l2 & recs' & -> & E & Hm & Hlen & Hd).
    { intros x Hx. apply Hl. by right. }
    exists (t :: l1), l2, recs'. rewrite (bind_eq _ _ _ E). split; [done|].
    rewrite !filter_cons, decide_True, decide_False by done. split; [done|]. split; [|by split].
    intros x. rewrite Hm. apply decide_ext. rewrite elem_of_cons. intuition congruence.
Qed.

(** The records after a batch was woken. *)
Definition woken (w : event_waiter_t) : event_waiter_t :=
  mk_ew (pattern w) (mode w) (signaled w) (result w) (result_flags w) false (if inq w then WAIT_OK else wait_res w).

Lemma wake_batch_spec batch : forall recs, NoDup batch -> (forall t, t ∈ batch -> is_Some (recs !! t)) ->
  exists recs', wake_batch recs batch = Some recs' /\
    forall t, recs' !! t = if decide (t ∈ batch) then woken <$> recs !! t else recs !! t.
Proof.
  induction batch as [|b batch IH]; intros recs Hnd Hl.
  { exists recs. split; [done|]. intros t. rewrite decide_False; [done|]. by intros ?%not_elem_of_nil. }
  apply NoDup_cons in Hnd as [Hb Hnd]. destruct (Hl b ltac:(by left)) as [w Hw].
  cbn [wake_batch]. unfold wake_record at 1. rewrite (bind_eq _ _ _ Hw), (bind_eq _ _ _ eq_refl).
  destruct (IH (<[b := woken w]> recs) Hnd) as (recs' & E & Hr).
  { intros x Hx. rewrite lookup_insert_ne by congruence. apply Hl. by right. }
  exists recs'. split; [exact E|]. intros t. rewrite Hr. destruct (decide (t = b)) as [->|Hne].
  - rewrite decide_False, decide_True, lookup_insert_eq, Hw by (done || by left). done.
  - rewrite lookup_insert_ne by done. apply decide_ext. rewrite elem_of_cons. intuition congruence.
Qed.

Lemma hit_woken s c w : hit s c (woken w) = hit s c w.
Proof. done. Qed.

Definition told (s : Z) (c : bool) (w : event_waiter_t) : event_waiter_t := woken (mark s c w).

Lemma length_filter_not {A} (P : A -> Prop) `{!forall x, Decision (P x)} (l : list A) :
  (length (filter P l) + length (filter (fun x => ~ P x) l) = length l)%nat.
Proof.
  induction l as [|x l IH]; [done|]. rewrite !filter_cons.
  destruct (decide (P x)); [rewrite decide_False by tauto|rewrite decide_True by done]; cbn; lia.
Qed.

(** One round: scan and wake. *)
Lemma round_spec s c l recs : NoDup l -> (forall t, t ∈ l -> is_Some (recs !! t)) ->
  exists l1 l2 recs1 recs2, l = l1 ++ l2 /\
    scan_waiters BATCH s c recs l =
      Some (filter (fun t => ~ hit_in recs s c t) l1 ++ l2, filter (hit_in recs s c) l1, recs1) /\
    wake_batch recs1 (filter (hit_in recs s c) l1) = Some recs2 /\
    (forall t, recs2 !! t = if decide (t ∈ l1 /\ hit_in recs s c t) then told s c <$> recs !! t else recs !! t) /\
    (if (length (filter (hit_in recs s c) l1) <? BATCH)%nat then l2 = []
     else length (filter (hit_in recs s c) l1) = BATCH).
Proof.
  intros Hnd Hl. destruct (scan_waiters_spec s c l BATCH recs Hnd ltac:(unfold BATCH; lia) Hl)
    as (l1 & l2 & recs1 & -> & E & Hm & Hlen & Hd).
  apply NoDup_app in Hnd as (Hnd1 & Hdis & Hnd2).
  destruct (wake_batch_spec (filter (hit_in recs s c) l1) recs1) as (recs2 & E2 & Hr).
  { by apply NoDup_filter. }
  { intros t [Ht Hin]%list_elem_of_filter. rewrite Hm, decide_True by done. apply fmap_is_Some, Hl, elem_of_app. by left. }
  exists l1, l2, recs1, recs2. split_and!; try done.
  - intros t. rewrite Hr, Hm. destruct (decide (t ∈ l1 /\ hit_in recs s c t)) as [[? ?]|Hn].
    + rewrite decide_True by (by apply list_elem_of_filter). by destruct (recs !! t).
    + rewrite decide_False; [done|]. rewrite list_elem_of_filter. tauto.
  - destruct (Nat.ltb_spec (length (filter (hit_in recs s c) l1)) BATCH); [|lia]. destruct Hd; [lia|done].
Qed.

Lemma wake_waiters_spec s c fuel : forall g recs, NoDup (waiters g) ->
  (forall t, t ∈ waiters g -> is_Some (recs !! t)) -> (length (waiters g) < fuel)%nat ->
  exists recs', wake_waiters fuel g recs s c =
      Some (with_waiters g (filter (fun t => ~ hit_in recs s c t) (waiters g)), recs') /\
    forall t, recs' !! t =
      if decide (t ∈ waiters g /\ hit_in recs s c t) then told s c <$> recs !! t else recs !! t.
Proof.
  induction fuel as [|f IH]; intros g recs Hnd Hl Hf; [lia|].
  destruct (round_spec s c (waiters g) recs Hnd Hl) as (l1 & l2 & recs1 & recs2 & El & E1 & E2 & Hr & Hlast).
  cbn [wake_waiters]. rewrite (bind_eq _ _ _ E1), (bind_eq _ _ _ E2).
  destruct (_ <? _)%nat eqn:Hb.
  - subst l2. rewrite !app_nil_r in *. exists recs2. split; [by rewrite El|]. intros t. by rewrite Hr, El.
  - rewrite El in Hnd. apply NoDup_app in Hnd as (Hnd1 & Hdis & Hnd2).
    set (l' := filter (fun t => ~ hit_in recs s c t) l1 ++ l2).
    assert (forall t, t ∈ l' -> recs2 !! t = recs !! t) as Hsame.
    { intros t Ht. rewrite Hr, decide_False; [done|]. intros [Hin1 Hhit]. apply elem_of_app in Ht as [Ht|Ht].
      - apply list_elem_of_filter in Ht. tauto.
      - by apply (Hdis t). }
    assert (NoDup l') as Hnd'.
    { apply NoDup_app. split_and!; [by apply NoDup_filter| |done]. intros t [_ Ht]%list_elem_of_filter. by apply Hdis. }
    destruct (IH (with_waiters g l') recs2 Hnd') as (recs' & E & Hr').
    { cbn. intros t Ht. rewrite (Hsame t Ht). apply Hl. rewrite El.
      apply elem_of_app in Ht as [[_ Ht]%list_elem_of_filter|Ht]; apply elem_of_app; auto. }
    { cbn. unfold l'. rewrite El in Hf. rewrite length_app in *.
      pose proof (length_filter_not (hit_in recs s c) l1). unfold BATCH in *. lia. }
    exists recs'. split.
    + rewrite E. cbn. do 2 f_equal. unfold with_waiters. cbn. f_equal.
      rewrite (filter_ext_in _ (fun t => ~ hit_in recs s c t)) by (intros x Hx; by rewrite (hit_in_ext recs) by auto).
      unfold l'. rewrite El, !filter_app. f_equal. rewrite list_filter_filter_l; done.
    + intros t. rewrite Hr'. cbn. destruct (decide (t ∈ l' /\ hit_in recs2 s c t)) as [[Hin Hh]|Hn].
      * pose proof (Hsame t Hin) as Hs. rewrite (hit_in_ext recs) in Hh by done. rewrite Hs, decide_True; [done|].
        split; [|done]. rewrite El. apply elem_of_app in Hin as [[_ Ht]%list_elem_of_filter|Ht]; apply elem_of_app; auto.
      * rewrite Hr. apply decide_ext. rewrite El, elem_of_app. split; [tauto|]. intros [[Hin|Hin] Hh]; [done|].
        exfalso. apply Hn. assert (t ∈ l') as Hin' by (apply elem_of_app; auto).
        split; [done|]. by rewrite (hit_in_ext recs) by auto.
Qed.

Lemma testbit_not32_low b i : 0 <= i < 32 -> Z.testbit (not32 b) i = negb (Z.testbit b i).
Proof. intros. rewrite testbit_not32 by lia. by rewrite (proj2 (Z.ltb_lt i 32)) by lia. Qed.

(** What the operations do to one bit: what the flags become, and what the waiters are
    matched against. *)
Definition bit_after (op : Z) (f b : bool) : bool := if op =? EVENT_OP_SET then f || b else f && negb b.
Definition bit_seen (op : Z) (f b : bool) : bool := if op =? EVENT_OP_CLEAR then f && negb b else f || b.

Lemma mutate_bits g bits op i : 0 <= i < 32 ->
  Z.testbit (flags (mutate g bits op).1) i = bit_after op (Z.testbit (flags g) i) (Z.testbit bits i) /\
  Z.testbit (mutate g bits op).2 i = bit_seen op (Z.testbit (flags g) i) (Z.testbit bits i).
Proof.
  intros Hi. unfold mutate, bit_after, bit_seen, EVENT_OP_SET, EVENT_OP_CLEAR.
  destruct (Z.eqb_spec op 0) as [->|]; [cbn; by rewrite Z.lor_spec|].
  destruct (Z.eqb_spec op 1) as [->|]; cbn; rewrite ?Z.land_spec, ?Z.lor_spec, testbit_not32_low by done; [done|].
  split; [|done]. by destruct (Z.testbit (flags g) i), (Z.testbit bits i).
Qed.

(** C26: set, clear and pulse, run alone, are one pass.  However many waiters there are, the
    loop in batches of sixteen returns; exactly the waiters whose condition holds of the
    snapshot leave the list, each told it and woken, the others keep their place and their
    record; the flags change bit by bit as the operation says. *)
Theorem event_mutate_exact groups recs gid g bits op :
  group_ok gid = true -> groups !! gid = Some g -> used g = true -> poisoned g = false ->
  NoDup (waiters g) -> (forall t, t ∈ waiters g -> is_Some (recs !! t)) ->
  let snapshot := (mutate g bits op).2 in
  exists g' recs', mutate_and_wake (S (length (waiters g))) groups recs gid bits op = Some (0, <[gid := g']> groups, recs') /\
    waiters g' = filter (fun t => ~ hit_in recs snapshot false t) (waiters g) /\
    (forall t, recs' !! t =
       if decide (t ∈ waiters g /\ hit_in recs snapshot false t) then told snapshot false <$> recs !! t else recs !! t) /\
    (forall i, 0 <= i < 32 ->
       Z.testbit (flags g') i = bit_after op (Z.testbit (flags g) i) (Z.testbit bits i) /\
       Z.testbit snapshot i = bit_seen op (Z.testbit (flags g) i) (Z.testbit bits i)) /\
    used g' = true /\ poisoned g' = false /\ owner_pid g' = owner_pid g.
Proof.
  intros Hgid Hg Hu Hp Hnd Hl snapshot. unfold mutate_and_wake. rewrite Hgid. cbn [negb].
  rewrite (bind_eq _ _ _ Hg), Hu, Hp. cbn [negb orb].
  pose proof (mutate_bits g bits op) as Hbits. unfold snapshot in *.
  assert (waiters (mutate g bits op).1 = waiters g /\ used (mutate g bits op).1 = used g /\
    poisoned (mutate g bits op).1 = poisoned g /\ owner_pid (mutate g bits op).1 = owner_pid g) as (E1 & E2 & E3 & E4).
  { unfold mutate. by repeat case_if. }
  destruct (mutate g bits op) as [g1 s] eqn:Em. cbn [fst snd] in *.
  destruct (wake_waiters_spec s false (S (length (waiters g))) g1 recs) as (recs' & E & Hr);
    rewrite ?E1; try done; try lia.
  rewrite E1 in *. rewrite (bind_eq _ _ _ E). eexists _, recs'. split; [done|].
  split_and!; try done; cbn; congruence.
Qed.

(** ** Any number of threads *)

(** What a waker does after its wakes. *)
Inductive after :=
  | AReturn
  | ADestroy (cleanup : option (Z * nat)).   (* the end of a destroy; of [cleanup pid i] *)

Inductive ev_pc :=
  | EIdle
  | EReturned (res : Z)                         (* from event_group_wait *)
  | EPrepare (gid timeout_ms : Z)               (* linked, before wait_prepare *)
  | ECheck (gid timeout_ms : Z)                 (* prepared, before the test of w.signaled *)
  | EAsleep (gid timeout_ms : Z)
  | EUnlink (gid : Z)                           (* timed out, before the section that unlinks *)
  | EPoisoned (gid : Z) (k : after)             (* before the read of g->flags *)
  | EScan (gid snapshot : Z) (cancel_all : bool) (k : after)
  | EWake (gid snapshot : Z) (cancel_all : bool) (k : after) (batch : list Z) (full : bool)
  | EDestroyed (gid : Z) (cleanup : option (Z * nat))
  | ECreate (owner : Z) (i : nat)
  | ECleanup (pid : Z) (i : nat).

Record world := mk_world {
  groups : gmap Z event_group_t;
  recs : recs_t;
  pcs : gmap Z ev_pc
}.

Definition at_pc (w : world) (t : Z) (p : ev_pc) : world := mk_world (groups w) (recs w) (<[t := p]> (pcs w)).
Definition put_group (w : world) (gid : Z) (g : event_group_t) : world :=
  mk_world (<[gid := g]> (groups w)) (recs w) (pcs w).
Definition put_rec (w : world) (t : Z) (r : event_waiter_t) : world :=
  mk_world (groups w) (<[t := r]> (recs w)) (pcs w).
Definition with_recs (w : world) (rs : recs_t) : world := mk_world (groups w) rs (pcs w).

Definition new_group : event_group_t := mk_eg false false 0 0 [] false.
Definition event_group_init_subsystem (ts : gset Z) : world :=
  mk_world (gset_to_gmap new_group (list_to_set (seqZ 0 MAX_EVENT_GROUPS))) ∅ (gset_to_gmap EIdle ts).

Definition no_rec : event_waiter_t := mk_ew 0 0 false WAIT_TIMEOUT 0 false 0.

(** [event_group_wait] down to the release of the group's lock. *)
Definition wait_enter (w : world) (t gid pat m timeout_ms : Z) : option world :=
  if negb (group_ok gid) then Some (at_pc (put_rec w t no_rec) t (EReturned WAIT_TIMEOUT))
  else
    g ← groups w !! gid;
    let r res fl := mk_ew pat m false res fl false WAIT_OK in
    if negb (used g) then Some (at_pc (put_rec w t (r WAIT_TIMEOUT 0)) t (EReturned WAIT_TIMEOUT))
    else if poisoned g then Some (at_pc (put_rec w t (r WAIT_TIMEOUT (flags g))) t (EReturned WAIT_CANCELLED))
    else if pattern_match (flags g) pat m then
      Some (at_pc (put_rec w t (r WAIT_TIMEOUT (flags g))) t (EReturned WAIT_OK))
    else
      Some (at_pc (put_rec (put_group w gid (with_waiters g (waiters g ++ [t]))) t (r WAIT_TIMEOUT 0)) t
              (EPrepare gid timeout_ms)).

Definition set_inq (r : event_waiter_t) (b : bool) (res : Z) : event_waiter_t :=
  mk_ew (pattern r) (mode r) (signaled r) (result r) (result_flags r) b res.

(** [wait_prepare] on the private queue; [room]: the sleep timer could be armed. *)
Definition wait_enqueue (w : world) (t gid timeout_ms : Z) (room : bool) : option world :=
  r ← recs w !! t;
  Some (at_pc (put_rec w t (if (0 <? timeout_ms) && negb room then set_inq r false WAIT_TIMEOUT
                            else set_inq r true WAIT_OK)) t (ECheck gid timeout_ms)).

(** The test of [w.signaled]: [wait_cancel] and out, or sleep. *)
Definition wait_check (w : world) (t gid timeout_ms : Z) : option world :=
  r ← recs w !! t;
  if signaled r then Some (at_pc (put_rec w t (set_inq r false (wait_res r))) t (EReturned (result r)))
  else Some (at_pc w t (EAsleep gid timeout_ms)).

(** The sleep timer fires while the thread is in its queue. *)
Definition wait_timer (w : world) (t : Z) : option world :=
  r ← recs w !! t; Some (put_rec w t (set_inq r false WAIT_TIMEOUT)).

(** Awake again: the tests after [wait_finish]. *)
Definition wait_resume (w : world) (t gid timeout_ms : Z) : option world :=
  r ← recs w !! t;
  Some (at_pc w t (if signaled r then EReturned (result r)
                   else if wait_res r =? WAIT_TIMEOUT then EUnlink gid else EPrepare gid timeout_ms)).

(** The timeout's section: unlink unless a waker was first. *)
Definition wait_unlink (w : world) (t gid : Z) : option world :=
  r ← recs w !! t; g ← groups w !! gid;
  if signaled r then Some (at_pc w t (EReturned (result r)))
  else Some (at_pc (put_rec (put_group w gid (with_waiters g (without t (waiters g)))) t
                      (mk_ew (pattern r) (mode r) false (result r) (flags g) (inq r) (wait_res r))) t
               (EReturned WAIT_TIMEOUT)).

Definition mutate_section (w : world) (t gid bits op : Z) : option world :=
  if negb (group_ok gid) then Some w
  else
    g ← groups w !! gid;
    if negb (used g) || poisoned g then Some w
    else let '(g1, snapshot) := mutate g bits op in Some (at_pc (put_group w gid g1) t (EScan gid snapshot false AReturn)).

(** [event_group_poison] and [event_group_destroy] down to the release. *)
Definition poison_section (w : world) (t gid : Z) (k : after) (skip : ev_pc) : option world :=
  if negb (group_ok gid) then Some (at_pc w t skip)
  else
    g ← groups w !! gid;
    if negb (used g) then Some (at_pc w t skip)
    else Some (at_pc (put_group w gid (mk_eg true true (owner_pid g) (flags g) (waiters g) (edge g))) t (EPoisoned gid k)).

Definition read_flags (w : world) (t gid : Z) (k : after) : option world :=
  g ← groups w !! gid; Some (at_pc w t (EScan gid (flags g) true k)).

(** The scan of one round. *)
Definition scan_section (w : world) (t gid snapshot : Z) (c : bool) (k : after) : option world :=
  g ← groups w !! gid;
  '(kept, batch, rs) ← scan_waiters BATCH snapshot c (recs w) (waiters g);
  Some (at_pc (put_group (with_recs w rs) gid (with_waiters g kept)) t
          (EWake gid snapshot c k batch (negb (length batch <? BATCH)%nat))).

(** The next wake of the batch, and the end of the round. *)
Definition wake_next (w : world) (t gid snapshot : Z) (c : bool) (k : after) (batch : list Z) (full : bool)
  : option world :=
  match batch with
  | x :: rest => rs ← wake_record (recs w) x; Some (at_pc (with_recs w rs) t (EWake gid snapshot c k rest full))
  | [] => Some (at_pc w t (if full then EScan gid snapshot c k
                           else match k with AReturn => EIdle | ADestroy cl => EDestroyed gid cl end))
  end.

Definition cleanup_next (cl : option (Z * nat)) : ev_pc :=
  match cl with None => EIdle | Some (pid, i) => ECleanup pid (S i) end.

Definition destroy_end (w : world) (t gid : Z) (cl : option (Z * nat)) : option world :=
  g ← groups w !! gid;
  Some (at_pc (put_group w gid (mk_eg false false 0 0 (waiters g) true)) t (cleanup_next cl)).

(** One turn of the loop of [event_group_cleanup_process], with the start of the destroy. *)
Definition cleanup_turn (w : world) (t pid : Z) (i : nat) : option world :=
  if MAX_EVENT_GROUPS <=? Z.of_nat i then Some (at_pc w t EIdle)
  else
    g ← groups w !! Z.of_nat i;
    if used g && (owner_pid g =? pid) then poison_section w t (Z.of_nat i) (ADestroy (Some (pid, i))) (ECleanup pid (S i))
    else Some (at_pc w t (ECleanup pid (S i))).

(** One turn of the loop of [event_group_create]; [i] is returned when the slot was free. *)
Definition create_turn (w : world) (t owner : Z) (i : nat) : option world :=
  if MAX_EVENT_GROUPS <=? Z.of_nat i then Some (at_pc w t EIdle)
  else
    g ← groups w !! Z.of_nat i;
    if negb (used g) then
      Some (at_pc (put_group w (Z.of_nat i) (mk_eg true false owner 0 (waiters g) (edge g))) t EIdle)
    else Some (at_pc w t (ECreate owner (S i))).

Definition event_group_reset (w : world) (gid : Z) : option world :=
  if negb (group_ok gid) then Some w
  else
    g ← groups w !! gid;
    if negb (used g) then Some w
    else Some (put_group w gid (mk_eg true false (owner_pid g) 0 (waiters g) true)).

Definition event_group_get_flags (w : world) (gid : Z) : option Z :=
  if negb (group_ok gid) then Some 0 else g ← groups w !! gid; Some (flags g).

(** The record of a thread is on its stack while its wait runs. *)
Definition waiting_on (gid : Z) (p : ev_pc) : bool :=
  match p with
  | EPrepare g _ | ECheck g _ | EAsleep g _ | EUnlink g => g =? gid
  | _ => false
  end.
Definition waiting (p : ev_pc) : bool :=
  match p with EPrepare _ _ | ECheck _ _ | EAsleep _ _ | EUnlink _ => true | _ => false end.
Definition rec_live (w : world) (t : Z) : Prop := exists p, pcs w !! t = Some p /\ waiting p = true.

(** A thread outside the code. *)
Definition outside (p : ev_pc) : Prop := p = EIdle \/ exists res, p = EReturned res.

Inductive ev_step (w : world) : world -> Prop :=
  | ev_wait t p gid pat m tmo w' : pcs w !! t = Some p -> outside p ->
      wait_enter w t gid pat m tmo = Some w' -> ev_step w w'
  | ev_enqueue t gid tmo room w' : pcs w !! t = Some (EPrepare gid tmo) ->
      wait_enqueue w t gid tmo room = Some w' -> ev_step w w'
  | ev_check t gid tmo w' : pcs w !! t = Some (ECheck gid tmo) ->
      wait_check w t gid tmo = Some w' -> ev_step w w'
  | ev_timer t gid tmo r w' : pcs w !! t = Some (ECheck gid tmo) \/ pcs w !! t = Some (EAsleep gid tmo) ->
      0 < tmo -> recs w !! t = Some r -> inq r = true -> wait_timer w t = Some w' -> ev_step w w'
  | ev_resume t gid tmo r w' : pcs w !! t = Some (EAsleep gid tmo) -> recs w !! t = Some r -> inq r = false ->
      wait_resume w t gid tmo = Some w' -> ev_step w w'
  | ev_unlink t gid w' : pcs w !! t = Some (EUnlink gid) -> wait_unlink w t gid = Some w' -> ev_step w w'
  | ev_mutate t p gid bits op w' : pcs w !! t = Some p -> outside p ->
      mutate_section w t gid bits op = Some w' -> ev_step w w'
  | ev_poison t p gid k w' : pcs w !! t = Some p -> outside p -> k = AReturn \/ k = ADestroy None ->
      poison_section w t gid k EIdle = Some w' -> ev_step w w'
  | ev_read t gid k w' : pcs w !! t = Some (EPoisoned gid k) -> read_flags w t gid k = Some w' -> ev_step w w'
  | ev_scan t gid s c k w' : pcs w !! t = Some (EScan gid s c k) -> scan_section w t gid s c k = Some w' -> ev_step w w'
  | ev_wake t gid s c k batch full w' : pcs w !! t = Some (EWake gid s c k batch full) ->
      (forall x rest, batch = x :: rest -> rec_live w x) ->
      wake_next w t gid s c k batch full = Some w' -> ev_step w w'
  | ev_destroyed t gid cl w' : pcs w !! t = Some (EDestroyed gid cl) -> destroy_end w t gid cl = Some w' -> ev_step w w'
  | ev_create t p owner : pcs w !! t = Some p -> outside p -> ev_step w (at_pc w t (ECreate owner 0))
  | ev_create_turn t owner i w' : pcs w !! t = Some (ECreate owner i) -> create_turn w t owner i = Some w' -> ev_step w w'
  | ev_cleanup t p pid : pcs w !! t = Some p -> outside p -> ev_step w (at_pc w t (ECleanup pid 0))
  | ev_cleanup_turn t pid i w' : pcs w !! t = Some (ECleanup pid i) -> cleanup_turn w t pid i = Some w' -> ev_step w w'
  | ev_reset t p gid w' : pcs w !! t = Some p -> outside p -> event_group_reset w gid = Some w' -> ev_step w w'.

(** ** The invariant *)

Definition matches (f : Z) (r : event_waiter_t) : bool := pattern_match f (pattern r) (mode r).

Definition linked (w : world) (gid t : Z) : Prop :=
  exists p r, pcs w !! t = Some p /\ waiting_on gid p = true /\ recs w !! t = Some r /\ signaled r = false.

(** A waker that will cancel every waiter of the group, or match them against [f]. *)
Definition cancelling (gid : Z) (p : ev_pc) : Prop :=
  match p with
  | EPoisoned g _ | EScan g _ true _ | EWake g _ true _ _ true => g = gid
  | _ => False
  end.
Definition pending (gid f : Z) (p : ev_pc) : Prop :=
  cancelling gid p \/ match p with EScan g s false _ | EWake g s false _ _ true => g = gid /\ s = f | _ => False end.

Definition batch_of (p : ev_pc) : list Z := match p with EWake _ _ _ _ b _ => b | _ => [] end.

Definition gid_of (p : ev_pc) : option Z :=
  match p with
  | EPrepare g _ | ECheck g _ | EAsleep g _ | EUnlink g | EPoisoned g _ | EScan g _ _ _ | EWake g _ _ _ _ _
  | EDestroyed g _ => Some g
  | ECreate _ i | ECleanup _ i => if Z.of_nat i <? MAX_EVENT_GROUPS then Some (Z.of_nat i) else None
  | _ => None
  end.

(** While only set, clear, poison and create acted on the group. *)
Record watched (w : world) (gid : Z) (g : event_group_t) : Prop := {
  wt_poison : poisoned g = true -> waiters g <> [] -> exists u p, pcs w !! u = Some p /\ cancelling gid p;
  wt_match : poisoned g = false -> forall t r, t ∈ waiters g -> recs w !! t = Some r -> matches (flags g) r = true ->
    exists u p, pcs w !! u = Some p /\ pending gid (flags g) p;
  wt_unused : used g = false -> waiters g = []
}.

(** What the record of a thread that was told its result says. *)
Definition told_ok (r : event_waiter_t) : Prop :=
  result r = WAIT_CANCELLED \/ (result r = WAIT_OK /\ matches (result_flags r) r = true).

Record ev_inv (w : world) : Prop := {
  iv_groups : forall gid, group_ok gid = true -> is_Some (groups w !! gid);
  iv_pc : forall t p gid, pcs w !! t = Some p -> gid_of p = Some gid -> is_Some (groups w !! gid);
  iv_rec : forall t p, pcs w !! t = Some p -> waiting p = true -> is_Some (recs w !! t);
  iv_nodup : forall gid g, groups w !! gid = Some g -> NoDup (waiters g);
  iv_list : forall gid g t, groups w !! gid = Some g -> t ∈ waiters g <-> linked w gid t;
  iv_told : forall t r, recs w !! t = Some r -> signaled r = true -> told_ok r;
  iv_ret : forall t res, pcs w !! t = Some (EReturned res) ->
    exists r, recs w !! t = Some r /\ (res = WAIT_OK -> matches (result_flags r) r = true);
  iv_wake : forall t gid tmo r, pcs w !! t = Some (EAsleep gid tmo) -> recs w !! t = Some r ->
    signaled r = true -> inq r = true -> exists u p, pcs w !! u = Some p /\ t ∈ batch_of p;
  iv_batch : forall u p x, pcs w !! u = Some p -> x ∈ batch_of p -> is_Some (recs w !! x);
  iv_watch : forall gid g, groups w !! gid = Some g -> edge g = false -> watched w gid g
}.

(** A thread outside every list changes its place, and perhaps its group's flags. *)
Lemma mover_inv w t p p' gid g g' : ev_inv w -> pcs w !! t = Some p -> waiting p = false -> waiting p' = false ->
  groups w !! gid = Some g -> waiters g' = waiters g ->
  (forall k, gid_of p' = Some k -> is_Some (groups w !! k)) ->
  (forall res, p' = EReturned res -> exists r, recs w !! t = Some r /\ (res = WAIT_OK -> matches (result_flags r) r = true)) ->
  batch_of p' = batch_of p ->
  (forall k f, k <> gid -> (cancelling k p -> cancelling k p') /\ (pending k f p -> pending k f p')) ->
  (let w' := at_pc (put_group w gid g') t p' in edge g' = false -> watched w' gid g') ->
  ev_inv (at_pc (put_group w gid g') t p').
Proof.
  intros [Hg Hpc Hrec Hnd Hl Ht Hret Hw Hbt Hwa] Hp Hwp Hwp' Hgid Hwg Hgo Hr Hb Hpend Hwatch.
  assert (forall k x, linked (at_pc (put_group w gid g') t p') k x <-> linked w k x) as Hlink.
  { intros k x. unfold linked. cbn. destruct (decide (x = t)) as [->|Hne].
    - rewrite lookup_insert_eq, Hp. split; intros (q & r & [= <-] & Hq & _); [by destruct p'|by destruct p].
    - by rewrite lookup_insert_ne. }
  constructor; cbn.
  - intros k Hk. destruct (decide (k = gid)) as [->|]; [by rewrite lookup_insert_eq|rewrite lookup_insert_ne by done; auto].
  - intros x q k Hx Hk. rewrite lookup_insert_is_Some'. right. destruct (decide (x = t)) as [->|Hne].
    + rewrite lookup_insert_eq in Hx. injection Hx as <-. by apply Hgo.
    + rewrite lookup_insert_ne in Hx by done. by apply (Hpc x q).
  - intros x q Hx Hq. destruct (decide (x = t)) as [->|Hne].
    + rewrite lookup_insert_eq in Hx. injection Hx as <-. congruence.
    + rewrite lookup_insert_ne in Hx by done. by apply (Hrec x q).
  - intros k y Hy. destruct (decide (k = gid)) as [->|].
    + rewrite lookup_insert_eq in Hy. injection Hy as <-. rewrite Hwg. by apply (Hnd gid).
    + rewrite lookup_insert_ne in Hy by done. by apply (Hnd k).
  - intros k y x Hy. rewrite Hlink. destruct (decide (k = gid)) as [->|].
    + rewrite lookup_insert_eq in Hy. injection Hy as <-. rewrite Hwg. by apply Hl.
    + rewrite lookup_insert_ne in Hy by done. by apply Hl.
  - done.
  - intros x res Hx. destruct (decide (x = t)) as [->|Hne].
    + rewrite lookup_insert_eq in Hx. injection Hx as ->. by apply Hr.
    + rewrite lookup_insert_ne in Hx by done. by apply Hret.
  - intros x k tmo r Hx Hrx Hs Hi. destruct (decide (x = t)) as [->|Hne].
    + rewrite lookup_insert_eq in Hx. injection Hx as ->. done.
    + rewrite lookup_insert_ne in Hx by done. destruct (Hw x k tmo r Hx Hrx Hs Hi) as (u & q & Hu & Hin).
      destruct (decide (u = t)) as [->|Hut]; [|exists u, q; by rewrite lookup_insert_ne].
      assert (q = p) as -> by congruence.
      exists t, p'. rewrite lookup_insert_eq, Hb. done.
  - intros u q x Hu Hx. destruct (decide (u = t)) as [->|Hne].
    + rewrite lookup_insert_eq in Hu. injection Hu as <-. rewrite Hb in Hx. by apply (Hbt t p).
    + rewrite lookup_insert_ne in Hu by done. by apply (Hbt u q).
  - intros k y Hy He. destruct (decide (k = gid)) as [->|Hk].
    + rewrite lookup_insert_eq in Hy. injection Hy as <-. by apply Hwatch.
    + rewrite lookup_insert_ne in Hy by done. destruct (Hwa k y Hy He) as [H1 H2 H3].
      assert (forall P : Z -> ev_pc -> Prop, (P k p -> P k p') ->
        (exists u q, pcs w !! u = Some q /\ P k q) -> exists u q, <[t := p']> (pcs w) !! u = Some q /\ P k q) as Hmove.
      { intros P HP (u & q & Hu & Hq). destruct (decide (u = t)) as [->|Hut]; [|exists u, q; by rewrite lookup_insert_ne].
        assert (q = p) as -> by congruence. exists t, p'. rewrite lookup_insert_eq. auto. }
      constructor; cbn; [| |done].
      * intros ??. apply (Hmove cancelling); [by apply (Hpend k 0)|]. by apply H1.
      * intros ? x r ???. apply (Hmove (fun k => pending k (flags y))); [by apply Hpend|]. by apply (H2 ltac:(done) x r).
Qed.

(** The wakers of a state are those of another where only waiting threads moved. *)
Lemma wakers_keep (w w' : world) (P : ev_pc -> Prop) (t : Z) p p' : pcs w !! t = Some p -> ~ P p ->
  pcs w' = <[t := p']> (pcs w) -> (exists u q, pcs w !! u = Some q /\ P q) ->
  exists u q, pcs w' !! u = Some q /\ P q.
Proof.
  intros Hp Hn E (u & q & Hu & Hq). exists u, q. rewrite E, lookup_insert_ne; [done|]. intros ->.
  assert (q = p) as -> by congruence. done.
Qed.

Lemma waiting_not_waker p : waiting p = true ->
  (forall k, ~ cancelling k p) /\ (forall k f, ~ pending k f p) /\ batch_of p = [].
Proof. destruct p; try done; intros _; (split; [intros k []|split; [|done]]); intros k f [[]|[]]. Qed.

(** A waiting thread moves on without leaving or entering a list. *)
Lemma waiter_inv w t p p' r r' : ev_inv w -> pcs w !! t = Some p -> waiting p = true -> recs w !! t = Some r ->
  pattern r' = pattern r -> mode r' = mode r -> signaled r' = signaled r -> result r' = result r ->
  result_flags r' = result_flags r ->
  (forall k, (waiting_on k p' = true /\ signaled r = false) <-> (waiting_on k p = true /\ signaled r = false)) ->
  batch_of p' = [] -> gid_of p' = gid_of p \/ gid_of p' = None ->
  (forall res, p' = EReturned res -> res = WAIT_OK -> matches (result_flags r) r = true) ->
  (forall k tmo, p' = EAsleep k tmo -> signaled r = true -> inq r' = true -> False) ->
  ev_inv (at_pc (put_rec w t r') t p').
Proof.
  intros [Hg Hpc Hrec Hnd Hl Ht Hret Hw Hbt Hwa] Hp Hwp Hr E1 E2 E3 E4 E5 Hlk Hb Hgid Hres Hsl.
  destruct (waiting_not_waker p Hwp) as (Hnc & Hnp & Hnb).
  assert (forall f, matches f r' = matches f r) as Em by (intros f; unfold matches; congruence).
  assert (forall k x, linked (at_pc (put_rec w t r') t p') k x <-> linked w k x) as Hlink.
  { intros k x. unfold linked. cbn. destruct (decide (x = t)) as [->|Hne].
    - rewrite !lookup_insert_eq, Hp, Hr. specialize (Hlk k). split.
      + intros (q & s & [= <-] & Hq & [= <-] & Hs). rewrite E3 in Hs. destruct (proj1 Hlk (conj Hq Hs)). by exists p, r.
      + intros (q & s & [= <-] & Hq & [= <-] & Hs). destruct (proj2 Hlk (conj Hq Hs)).
        exists p', r'. by rewrite E3.
    - by rewrite !lookup_insert_ne. }
  constructor; cbn; try done.
  - intros x q k Hx Hk. destruct (decide (x = t)) as [->|Hne].
    + rewrite lookup_insert_eq in Hx. injection Hx as <-. destruct Hgid as [Hgid|Hgid]; [|congruence].
      apply (Hpc t p); congruence.
    + rewrite lookup_insert_ne in Hx by done. by apply (Hpc x q).
  - intros x q Hx Hq. rewrite lookup_insert_is_Some'. destruct (decide (x = t)) as [->|Hne]; [by left|right].
    rewrite lookup_insert_ne in Hx by done. by apply (Hrec x q).
  - intros k y x Hy. rewrite Hlink. by apply Hl.
  - intros x s Hs Hsg. destruct (decide (x = t)) as [->|Hne].
    + rewrite lookup_insert_eq in Hs. injection Hs as <-. unfold told_ok. rewrite E4, E5, Em.
      apply (Ht t r Hr). congruence.
    + rewrite lookup_insert_ne in Hs by done. by apply (Ht x).
  - intros x res Hx. destruct (decide (x = t)) as [->|Hne].
    + rewrite lookup_insert_eq in Hx. injection Hx as Hx. rewrite lookup_insert_eq. exists r'. split; [done|].
      rewrite E5, Em. by apply Hres.
    + rewrite lookup_insert_ne in Hx by done. rewrite lookup_insert_ne by done. by apply Hret.
  - intros x k tmo s Hx Hs Hsg Hi. destruct (decide (x = t)) as [->|Hne].
    + rewrite lookup_insert_eq in Hx. rewrite lookup_insert_eq in Hs. injection Hx as Hx. injection Hs as <-. destruct (Hsl k tmo Hx); congruence.
    + rewrite lookup_insert_ne in Hx by done. rewrite lookup_insert_ne in Hs by done.
      apply (wakers_keep w (at_pc (put_rec w t r') t p') (fun q => x ∈ batch_of q) t p p'); try done; [|by apply (Hw x k tmo s)].
      rewrite Hnb. apply not_elem_of_nil.
  - intros u q x Hu Hx. rewrite lookup_insert_is_Some'. right. destruct (decide (u = t)) as [->|Hne].
    + rewrite lookup_insert_eq in Hu. injection Hu as <-. rewrite Hb in Hx. by apply not_elem_of_nil in Hx.
    + rewrite lookup_insert_ne in Hu by done. by apply (Hbt u q).
  - intros k y Hy He. destruct (Hwa k y Hy He) as [H1 H2 H3]. constructor; [| |done].
    + intros ??. apply (wakers_keep w (at_pc (put_rec w t r') t p') (cancelling k) t p p'); try done. by apply H1.
    + intros ? x s Hx Hs Hm. apply (wakers_keep w (at_pc (put_rec w t r') t p') (pending k (flags y)) t p p'); try done. cbn in Hs.
      destruct (decide (x = t)) as [->|Hne].
      * rewrite lookup_insert_eq in Hs. injection Hs as <-. rewrite Em in Hm. by apply (H2 ltac:(done) t r).
      * rewrite lookup_insert_ne in Hs by done. by apply (H2 ltac:(done) x s).
Qed.

Definition idle_pc (p : ev_pc) : Prop :=
  (forall k, ~ cancelling k p) /\ (forall k f, ~ pending k f p) /\ batch_of p = [].

Lemma idle_pc_intro p : waiting p = true \/ outside p -> idle_pc p.
Proof.
  intros [H|[->|[res ->]]]; [by apply waiting_not_waker|..];
    (split; [intros k []|split; [|done]]); intros k f [[]|[]].
Qed.

(** A thread outside the code gets a fresh record. *)
Lemma newrec_inv w t p p' r : ev_inv w -> pcs w !! t = Some p -> outside p -> outside p' -> signaled r = false ->
  (forall res, p' = EReturned res -> res = WAIT_OK -> matches (result_flags r) r = true) ->
  ev_inv (at_pc (put_rec w t r) t p').
Proof.
  intros [Hg Hpc Hrec Hnd Hl Ht Hret Hw Hbt Hwa] Hp Ho Ho' Hs Hres.
  destruct (idle_pc_intro p (or_intror Ho)) as (Hnc & Hnp & Hnb).
  assert (waiting p = false /\ gid_of p' = None /\ waiting p' = false /\
    (forall k, waiting_on k p = false) /\ (forall k, waiting_on k p' = false)) as (Hwp & Hgo & Hwp' & Hon & Hon')
    by (destruct Ho as [->|[? ->]], Ho' as [->|[? ->]]; done).
  assert (forall k x, linked (at_pc (put_rec w t r) t p') k x <-> linked w k x) as Hlink.
  { intros k x. unfold linked. cbn. destruct (decide (x = t)) as [->|Hne]; [|by rewrite !lookup_insert_ne].
    rewrite !lookup_insert_eq, Hp. specialize (Hon k). specialize (Hon' k).
    split; intros (q & s & [= <-] & Hq & _); congruence. }
  assert (forall k x, x ∈ default [] (waiters <$> groups w !! k) -> x <> t) as Hnt.
  { intros k x Hx ->. destruct (groups w !! k) as [g|] eqn:E; [|by apply not_elem_of_nil in Hx].
    cbn in Hx. apply (Hl k g t E) in Hx as (q & s & Hq & Hon2 & _). assert (q = p) as -> by congruence.
    by rewrite Hon in Hon2. }
  constructor; cbn; try done.
  - intros x q k Hx Hk. destruct (decide (x = t)) as [->|Hne].
    + rewrite lookup_insert_eq in Hx. injection Hx as <-. congruence.
    + rewrite lookup_insert_ne in Hx by done. by apply (Hpc x q).
  - intros x q Hx Hq. destruct (decide (x = t)) as [->|Hne]; [by rewrite lookup_insert_eq|].
    rewrite lookup_insert_ne in Hx by done. rewrite lookup_insert_ne by done. by apply (Hrec x q).
  - intros k y x Hy. rewrite Hlink. by apply Hl.
  - intros x s Hx Hsg. destruct (decide (x = t)) as [->|Hne].
    + rewrite lookup_insert_eq in Hx. congruence.
    + rewrite lookup_insert_ne in Hx by done. by apply (Ht x).
  - intros x res Hx. destruct (decide (x = t)) as [->|Hne].
    + rewrite lookup_insert_eq in Hx. injection Hx as Hx. rewrite lookup_insert_eq. exists r. split; [done|]. by apply Hres.
    + rewrite lookup_insert_ne in Hx by done. rewrite lookup_insert_ne by done. by apply Hret.
  - intros x k tmo s Hx Hxs Hsg Hi. destruct (decide (x = t)) as [->|Hne].
    + rewrite lookup_insert_eq in Hx. injection Hx as ->. by destruct Ho' as [|[? ?]].
    + rewrite lookup_insert_ne in Hx by done. rewrite lookup_insert_ne in Hxs by done.
      apply (wakers_keep w (at_pc (put_rec w t r) t p') (fun q => x ∈ batch_of q) t p p'); try done;
        [|by apply (Hw x k tmo s)]. rewrite Hnb. apply not_elem_of_nil.
  - intros u q x Hu Hx. rewrite lookup_insert_is_Some'. right. destruct (decide (u = t)) as [->|Hne].
    + rewrite lookup_insert_eq in Hu. injection Hu as <-.
      destruct (idle_pc_intro p' (or_intror Ho')) as (_ & _ & Hb). rewrite Hb in Hx. by apply not_elem_of_nil in Hx.
    + rewrite lookup_insert_ne in Hu by done. by apply (Hbt u q).
  - intros k y Hy He. destruct (Hwa k y Hy He) as [H1 H2 H3]. constructor; [| |done].
    + intros ??. apply (wakers_keep w (at_pc (put_rec w t r) t p') (cancelling k) t p p'); try done. by apply H1.
    + intros ? x s Hx Hxs Hm. apply (wakers_keep w (at_pc (put_rec w t r) t p') (pending k (flags y)) t p p'); try done.
      assert (x <> t) as Hne by (apply (Hnt k); by rewrite Hy).
      cbn in Hxs. rewrite lookup_insert_ne in Hxs by done. by apply (H2 ltac:(done) x s).
Qed.

(** A thread that was not told enters or leaves the list of a group. *)
Lemma relist_inv w t p p' r gid g l' : ev_inv w -> pcs w !! t = Some p -> idle_pc p ->
  recs w !! t = Some r -> signaled r = false -> groups w !! gid = Some g -> NoDup l' ->
  (forall x, x <> t -> x ∈ l' <-> x ∈ waiters g) -> (t ∈ l' <-> waiting_on gid p' = true) ->
  (forall k, k <> gid -> waiting_on k p = false /\ waiting_on k p' = false) ->
  batch_of p' = [] -> gid_of p' = Some gid \/ gid_of p' = None -> (forall k tmo, p' <> EAsleep k tmo) -> p' <> EReturned WAIT_OK ->
  (t ∈ l' -> used g = true /\ poisoned g = false /\ matches (flags g) r = false) ->
  ev_inv (at_pc (put_group w gid (with_waiters g l')) t p').
Proof.
  intros [Hg Hpc Hrec Hnd Hl Ht Hret Hw Hbt Hwa] Hp (Hnc & Hnp & Hnb) Hr Hs Hgr Hnd' Hx' Ht' Hoth Hb Hgid Hsl Hok Hin.
  assert (forall k x, x <> t \/ k <> gid ->
    linked (at_pc (put_group w gid (with_waiters g l')) t p') k x <-> linked w k x) as Hlink.
  { intros k x Hor. unfold linked. cbn. destruct (decide (x = t)) as [->|Hne]; [|by rewrite lookup_insert_ne].
    destruct Hor as [|Hk]; [done|]. destruct (Hoth k Hk). rewrite !lookup_insert_eq, Hp.
    split; intros (q & s & [= <-] & Hq & _); congruence. }
  set (w' := at_pc (put_group w gid (with_waiters g l')) t p') in *.
  assert (pcs w' = <[t := p']> (pcs w)) as Epcs by done.
  constructor; cbn; try done.
  - intros k Hk. destruct (decide (k = gid)) as [->|]; [by rewrite lookup_insert_eq|rewrite lookup_insert_ne by done; auto].
  - intros x q k Hx Hk. rewrite lookup_insert_is_Some'. destruct (decide (x = t)) as [->|Hne].
    + rewrite lookup_insert_eq in Hx. injection Hx as <-. destruct Hgid; [left|]; congruence.
    + right. rewrite lookup_insert_ne in Hx by done. by apply (Hpc x q).
  - intros x q Hx Hq. destruct (decide (x = t)) as [->|Hne]; [by rewrite Hr|].
    rewrite lookup_insert_ne in Hx by done. by apply (Hrec x q).
  - intros k y Hy. destruct (decide (k = gid)) as [->|].
    + rewrite lookup_insert_eq in Hy. by injection Hy as <-.
    + rewrite lookup_insert_ne in Hy by done. by apply (Hnd k).
  - intros k y x Hy. destruct (decide (k = gid)) as [->|Hk].
    + rewrite lookup_insert_eq in Hy. injection Hy as <-. cbn [waiters with_waiters].
      destruct (decide (x = t)) as [->|Hne].
      * rewrite Ht'. unfold linked. rewrite Epcs, lookup_insert_eq. cbn [recs w' at_pc put_group]. split.
        -- intros ?. by exists p', r.
        -- by intros (q & s & [= <-] & ? & _).
      * rewrite Hx', Hlink by auto. by apply Hl.
    + rewrite lookup_insert_ne in Hy by done. rewrite Hlink by auto. by apply Hl.
  - intros x res Hx. destruct (decide (x = t)) as [->|Hne].
    + rewrite lookup_insert_eq in Hx. injection Hx as Hx. exists r. split; [done|]. congruence.
    + rewrite lookup_insert_ne in Hx by done. by apply Hret.
  - intros x k tmo s Hx Hxs Hsg Hi. destruct (decide (x = t)) as [->|Hne].
    + rewrite lookup_insert_eq in Hx. injection Hx as Hx. by destruct (Hsl k tmo).
    + rewrite lookup_insert_ne in Hx by done.
      apply (wakers_keep w w' (fun q => x ∈ batch_of q) t p p'); try done;
        [|by apply (Hw x k tmo s)]. rewrite Hnb. apply not_elem_of_nil.
  - intros u q x Hu Hx. destruct (decide (u = t)) as [->|Hne].
    + rewrite lookup_insert_eq in Hu. injection Hu as <-. rewrite Hb in Hx. by apply not_elem_of_nil in Hx.
    + rewrite lookup_insert_ne in Hu by done. by apply (Hbt u q).
  - intros k y Hy He. destruct (decide (k = gid)) as [->|Hk].
    + rewrite lookup_insert_eq in Hy. injection Hy as <-. destruct (Hwa gid g Hgr He) as [H1 H2 H3].
      constructor; cbn [waiters poisoned flags used with_waiters].
      * intros Hpo Hne. apply (wakers_keep w w' (cancelling gid) t p p'); try done. apply H1; [done|].
        intros E. destruct l' as [|x l']; [done|]. destruct (decide (x = t)) as [->|Hxt].
        -- destruct (Hin ltac:(by left)) as (_ & ? & _). congruence.
        -- pose proof (proj1 (Hx' x Hxt) ltac:(by left)) as Hc. rewrite E in Hc. by apply not_elem_of_nil in Hc.
      * intros Hpo x s Hx Hxs Hm. apply (wakers_keep w w' (pending gid (flags g)) t p p'); try done.
        destruct (decide (x = t)) as [->|Hxt].
        -- destruct (Hin Hx) as (_ & _ & ?). cbn in Hxs. congruence.
        -- apply (H2 Hpo x s); [by apply Hx'|done|done].
      * intros Hu. specialize (H3 Hu). destruct l' as [|x l']; [done|]. exfalso. destruct (decide (x = t)) as [->|Hxt].
        -- destruct (Hin ltac:(by left)) as (? & _). congruence.
        -- pose proof (proj1 (Hx' x Hxt) ltac:(by left)) as Hc. rewrite H3 in Hc. by apply not_elem_of_nil in Hc.
    + rewrite lookup_insert_ne in Hy by done. destruct (Hwa k y Hy He) as [H1 H2 H3]. constructor; [| |done].
      * intros ??. apply (wakers_keep w w' (cancelling k) t p p'); try done. by apply H1.
      * intros ? x s Hx Hxs Hm. apply (wakers_keep w w' (pending k (flags y)) t p p'); try done. by apply (H2 ltac:(done) x s).
Qed.

(** The scan of one round. *)
Lemma scan_inv w t gid s c k : ev_inv w -> pcs w !! t = Some (EScan gid s c k) ->
  exists w', scan_section w t gid s c k = Some w' /\ ev_inv w'.
Proof.
  intros [Hg Hpc Hrec Hnd Hl Ht Hret Hw Hbt Hwa] Hp. destruct (Hpc t _ gid Hp eq_refl) as [g Hgr].
  pose proof (Hnd gid g Hgr) as Hnd1.
  assert (forall x, x ∈ waiters g -> is_Some (recs w !! x)) as Hall.
  { intros x Hx. apply (Hl gid g x Hgr) in Hx as (q & r & _ & _ & ? & _). by exists r. }
  destruct (scan_waiters_spec s c (waiters g) BATCH (recs w) Hnd1 ltac:(unfold BATCH; lia) Hall)
    as (l1 & l2 & rs & El & E & Hm & _ & Hlast).
  set (kept := filter (fun x => ~ hit_in (recs w) s c x) l1 ++ l2) in *.
  set (batch := filter (hit_in (recs w) s c) l1) in *.
  unfold scan_section. rewrite (bind_eq _ _ _ Hgr), (bind_eq _ _ _ E). eexists. split; [done|].
  set (full := negb (length batch <? BATCH)%nat) in *.
  set (p' := EWake gid s c k batch full) in *.
  set (w' := at_pc (put_group (with_recs w rs) gid (with_waiters g kept)) t p') in *.
  assert (l2 = [] \/ full = true) as Hfull.
  { destruct Hlast as [Hlast|?]; [right|by left]. unfold full. rewrite Hlast. by rewrite Nat.ltb_irrefl. }
  assert (NoDup (l1 ++ l2)) as Hnd2 by (by rewrite <- El).
  apply NoDup_app in Hnd2 as (Hn1 & Hdis & Hn2).
  assert (forall x, x ∈ batch <-> x ∈ l1 /\ hit_in (recs w) s c x) as Hbatch.
  { intros x. unfold batch. rewrite list_elem_of_filter. tauto. }
  assert (forall x, x ∈ kept <-> x ∈ waiters g /\ x ∉ batch) as Hkept.
  { intros x. unfold kept. rewrite El, Hbatch, !elem_of_app, list_elem_of_filter. specialize (Hdis x).
    destruct (decide (hit_in (recs w) s c x)); tauto. }
  assert (forall x, rs !! x = if decide (x ∈ batch) then mark s c <$> recs w !! x else recs w !! x) as Hrs.
  { intros x. rewrite Hm. apply decide_ext. by rewrite Hbatch. }
  assert (forall x, x ∈ batch -> x ∈ waiters g) as Hbw by (intros x Hx; rewrite El; apply elem_of_app; left; by apply Hbatch).
  assert (forall x, x <> t -> pcs w' !! x = pcs w !! x) as Hpcs by (intros x Hx; cbn; by rewrite lookup_insert_ne).
  assert (forall k x, linked w' k x <-> linked w k x /\ x ∉ batch) as Hlink.
  { intros k' x. unfold linked. destruct (decide (x = t)) as [->|Hne].
    - cbn. rewrite lookup_insert_eq, Hp. split; [intros (q & r & [= <-] & ? & _)|intros [(q & r & [= <-] & ? & _) _]]; done.
    - rewrite (Hpcs x Hne). cbn [recs w' at_pc put_group with_recs]. rewrite Hrs. destruct (decide (x ∈ batch)) as [Hb|Hb].
      + split; [|tauto]. intros (q & r & _ & _ & Hr & Hs). destruct (recs w !! x); [|done]. cbn in Hr. by simplify_eq.
      + tauto. }
  assert (forall x r, recs w' !! x = Some r -> x ∉ batch -> recs w !! x = Some r) as Hback.
  { intros x r Hx Hb. cbn in Hx. rewrite Hrs in Hx. by rewrite decide_False in Hx. }
  assert (forall P : ev_pc -> Prop, ~ P (EScan gid s c k) ->
    (exists u q, pcs w !! u = Some q /\ P q) -> exists u q, pcs w' !! u = Some q /\ P q) as Hmv.
  { intros P Hn. by apply (wakers_keep w w' P t (EScan gid s c k) p'). }
  constructor.
  - intros j Hj. cbn. rewrite lookup_insert_is_Some'. auto.
  - intros x q j Hx Hj. cbn. rewrite lookup_insert_is_Some'. destruct (decide (x = t)) as [->|Hne].
    + cbn in Hx. rewrite lookup_insert_eq in Hx. injection Hx as <-. left. by injection Hj.
    + right. rewrite Hpcs in Hx by done. by apply (Hpc x q).
  - intros x q Hx Hq. destruct (decide (x = t)) as [->|Hne].
    + cbn in Hx. rewrite lookup_insert_eq in Hx. by injection Hx as <-.
    + rewrite Hpcs in Hx by done. cbn. rewrite Hrs. destruct (Hrec x q Hx Hq) as [r ->]. by case_decide.
  - intros j y Hy. cbn in Hy. destruct (decide (j = gid)) as [->|].
    + rewrite lookup_insert_eq in Hy. injection Hy as <-. cbn. unfold kept. apply NoDup_app.
      split_and!; [by apply NoDup_filter| |done]. intros x [_ Hx]%list_elem_of_filter. by apply Hdis.
    + rewrite lookup_insert_ne in Hy by done. by apply (Hnd j).
  - intros j y x Hy. rewrite Hlink. cbn in Hy. destruct (decide (j = gid)) as [->|Hj].
    + rewrite lookup_insert_eq in Hy. injection Hy as <-. cbn. rewrite Hkept, (Hl gid g x Hgr). done.
    + rewrite lookup_insert_ne in Hy by done. rewrite (Hl j y x Hy). split; [|tauto]. intros Hlj. split; [done|].
      intros (q & r & Hq & Hon & _)%Hbw%(Hl gid g x Hgr). destruct Hlj as (q' & r' & Hq' & Hon' & _).
      assert (q' = q) as -> by congruence. destruct q; cbn in *; try done; apply Z.eqb_eq in Hon, Hon'; congruence.
  - intros x r Hx Hs. destruct (decide (x ∈ batch)) as [Hb|Hb]; [|by apply (Ht x); [apply Hback|]].
    cbn in Hx. rewrite Hrs, decide_True in Hx by done. destruct (recs w !! x) as [r0|] eqn:Er; [|done]. cbn in Hx.
    injection Hx as <-. pose proof (proj2 (proj1 (Hbatch x) Hb)) as Hh. apply (hit_in_Some _ _ _ _ _ Er) in Hh.
    unfold told_ok, hit, mark in *. cbn. destruct c; [by left|right]. by split.
  - intros x res Hx. destruct (decide (x = t)) as [->|Hne].
    + cbn in Hx. by rewrite lookup_insert_eq in Hx.
    + rewrite Hpcs in Hx by done. destruct (Hret x res Hx) as (r & Hr & Hres). exists r. split; [|done].
      cbn. rewrite Hrs, decide_False; [done|]. intros (q & ? & Hq & Hon & _)%Hbw%(Hl gid g x Hgr).
      assert (q = EReturned res) as -> by congruence. done.
  - intros x j tmo r Hx Hr Hs Hi. destruct (decide (x = t)) as [->|Hne].
    + cbn in Hx. by rewrite lookup_insert_eq in Hx.
    + rewrite Hpcs in Hx by done. destruct (decide (x ∈ batch)) as [Hb|Hb].
      * exists t, p'. cbn. by rewrite lookup_insert_eq.
      * apply (Hmv (fun q => x ∈ batch_of q)); [apply not_elem_of_nil|]. apply (Hw x j tmo r Hx); try done. by apply Hback.
  - intros u q x Hu Hx. cbn. rewrite Hrs. destruct (decide (x ∈ batch)) as [Hb|Hb].
    + destruct (Hall x (Hbw x Hb)) as [r ->]. done.
    + destruct (decide (u = t)) as [->|Hne]; [cbn in Hu; rewrite lookup_insert_eq in Hu; by injection Hu as <-|].
      rewrite Hpcs in Hu by done. by apply (Hbt u q).
  - intros j y Hy He. cbn in Hy. destruct (decide (j = gid)) as [->|Hj].
    + rewrite lookup_insert_eq in Hy. injection Hy as <-. destruct (Hwa gid g Hgr He) as [H1 H2 H3].
      assert (forall x, x ∈ kept -> recs w' !! x = recs w !! x) as Hsame.
      { intros x [_ Hb]%Hkept. cbn. by rewrite Hrs, decide_False. }
      assert (kept <> [] -> waiters g <> []) as Hne'.
      { intros Hne E0. destruct kept as [|x l] eqn:Ek; [done|]. destruct (proj1 (Hkept x) ltac:(by left)) as [Hx _].
        rewrite E0 in Hx. by apply not_elem_of_nil in Hx. }
      assert (full = false -> forall x r, x ∈ kept -> recs w !! x = Some r -> hit s c r = false) as Hrest.
      { intros Hf x r Hx Hr. destruct Hfull as [->|?]; [|congruence]. unfold kept in Hx. rewrite app_nil_r in Hx.
        apply list_elem_of_filter in Hx as [Hx _]. rewrite (hit_in_Some _ _ _ _ _ Hr) in Hx. by destruct (hit s c r). }
      assert (exists u q, pcs w' !! u = Some q /\ q = p') as (u' & q' & Hu' & Eq').
      { exists t, p'. cbn. by rewrite lookup_insert_eq. }
      constructor; cbn [waiters poisoned flags used with_waiters].
      * intros Hpo Hne. destruct (H1 Hpo (Hne' Hne)) as (u & q & Hu & Hq). destruct (decide (u = t)) as [->|Hut].
        -- assert (q = EScan gid s c k) as -> by congruence. cbn in Hq. destruct c; [|done].
           exists u', q'. split; [done|]. subst q'. unfold p'. destruct full eqn:Ef; [done|]. exfalso.
           destruct kept as [|x l] eqn:Ek; [done|]. destruct (Hall x) as [r Hr]; [apply Hkept; by left|].
           by specialize (Hrest eq_refl x r ltac:(by left) Hr).
        -- exists u, q. by rewrite Hpcs.
      * intros Hpo x r Hx Hr Hmt. rewrite (Hsame x Hx) in Hr.
        destruct (H2 Hpo x r (proj1 (proj1 (Hkept x) Hx)) Hr Hmt) as (u & q & Hu & Hq).
        destruct (decide (u = t)) as [->|Hut]; [|exists u, q; by rewrite Hpcs].
        assert (q = EScan gid s c k) as -> by congruence. exists u', q'. split; [done|]. subst q'. unfold p'.
        destruct full eqn:Ef.
        -- destruct c; destruct Hq as [Hq|Hq]; try done; [by left|right]. by destruct Hq.
        -- exfalso. specialize (Hrest eq_refl x r Hx Hr). unfold hit in Hrest. destruct c; [done|]. cbn in Hrest.
           destruct Hq as [Hq|[_ ->]]; [done|]. unfold matches in Hmt. congruence.
      * intros Hu. destruct kept as [|x l] eqn:Ek; [done|]. exfalso. by apply Hne', (H3 Hu).
    + rewrite lookup_insert_ne in Hy by done. destruct (Hwa j y Hy He) as [H1 H2 H3]. constructor; [| |done].
      * intros ??. apply (Hmv (cancelling j)); [destruct c; cbn; congruence|by apply H1].
      * intros Hpo x r Hx Hr Hmt. apply (Hmv (pending j (flags y))); [intros [Hq|Hq]; destruct c; cbn in Hq; try done; try destruct Hq; congruence|].
        apply (H2 Hpo x r); try done. apply Hback; [done|].
        intros (q & ? & Hq & Hon & _)%Hbw%(Hl gid g x Hgr). apply (Hl j y x Hy) in Hx as (q2 & ? & Hq2 & Hon2 & _).
        assert (q2 = q) as -> by congruence. destruct q; cbn in *; try done; apply Z.eqb_eq in Hon, Hon2; congruence.
Qed.

Lemma wake_record_inv w t gid s c k x rest full r : ev_inv w -> pcs w !! t = Some (EWake gid s c k (x :: rest) full) ->
  recs w !! x = Some r -> ev_inv (at_pc (put_rec w x (woken r)) t (EWake gid s c k rest full)).
Proof.
  intros [Hg Hpc Hrec Hnd Hl Ht Hret Hw Hbt Hwa] Hp Hr.
  set (p' := EWake gid s c k rest full). set (w' := at_pc (put_rec w x (woken r)) t p').
  assert (forall y, y <> t -> pcs w' !! y = pcs w !! y) as Hpcs by (intros y Hy; cbn; by rewrite lookup_insert_ne).
  assert (forall y ry', recs w' !! y = Some ry' -> exists ry, recs w !! y = Some ry /\ matches (result_flags ry') ry' = matches (result_flags ry) ry /\
    (forall f, matches f ry' = matches f ry) /\ signaled ry' = signaled ry /\ result ry' = result ry /\ (inq ry' = true -> y <> x /\ ry' = ry)) as Hback.
  { intros y ry' Hy. cbn in Hy. destruct (decide (y = x)) as [->|Hne].
    - rewrite lookup_insert_eq in Hy. injection Hy as <-. by exists r.
    - rewrite lookup_insert_ne in Hy by done. exists ry'. by split_and!. }
  assert (forall y, is_Some (recs w !! y) -> is_Some (recs w' !! y)) as Hkeep.
  { intros y ?. cbn. rewrite lookup_insert_is_Some'. by right. }
  assert (forall j y, linked w' j y <-> linked w j y) as Hlink.
  { intros j y. unfold linked. destruct (decide (y = t)) as [->|Hne].
    - cbn. rewrite lookup_insert_eq, Hp. split; by intros (q & ? & [= <-] & ? & _).
    - rewrite (Hpcs y Hne). cbn. destruct (decide (y = x)) as [->|Hyx]; [|by rewrite lookup_insert_ne].
      rewrite lookup_insert_eq, Hr. split; intros (q & ? & ? & ? & [= <-] & ?); eauto 10. }
  assert (forall P : ev_pc -> Prop, (P (EWake gid s c k (x :: rest) full) -> P p') ->
    (exists u q, pcs w !! u = Some q /\ P q) -> exists u q, pcs w' !! u = Some q /\ P q) as Hmv.
  { intros P HP (u & q & Hu & Hq). destruct (decide (u = t)) as [->|Hut]; [|exists u, q; by rewrite Hpcs].
    exists t, p'. cbn. rewrite lookup_insert_eq. split; [done|]. apply HP. congruence. }
  constructor.
  - done.
  - intros y q j Hy Hj. destruct (decide (y = t)) as [->|Hne].
    + cbn in Hy. rewrite lookup_insert_eq in Hy. injection Hy as <-. by apply (Hpc t _ j Hp).
    + rewrite Hpcs in Hy by done. by apply (Hpc y q).
  - intros y q Hy Hq. apply Hkeep. destruct (decide (y = t)) as [->|Hne].
    + cbn in Hy. rewrite lookup_insert_eq in Hy. by injection Hy as <-.
    + rewrite Hpcs in Hy by done. by apply (Hrec y q).
  - done.
  - intros j y z Hy. rewrite Hlink. by apply Hl.
  - intros y ry' Hy Hs. destruct (Hback y ry' Hy) as (ry & Hry & Hm & _ & Es & Er & _).
    unfold told_ok. rewrite Hm, Er. apply (Ht y); congruence.
  - intros y res Hy. destruct (decide (y = t)) as [->|Hne].
    + cbn in Hy. by rewrite lookup_insert_eq in Hy.
    + rewrite Hpcs in Hy by done. destruct (Hret y res Hy) as (ry & Hry & Hres).
      destruct (Hkeep y ltac:(by exists ry)) as [ry' Hry']. exists ry'. split; [done|]. intros Hok.
      destruct (Hback y ry' Hry') as (ry2 & Hry2 & -> & _). assert (ry2 = ry) as -> by congruence. by apply Hres.
  - intros y j tmo ry' Hy Hry' Hs Hi. destruct (Hback y ry' Hry') as (ry & Hry & _ & _ & _ & _ & Hsame).
    destruct (Hsame Hi) as [Hyx ->]. destruct (decide (y = t)) as [->|Hne].
    + cbn in Hy. by rewrite lookup_insert_eq in Hy.
    + rewrite Hpcs in Hy by done. apply (Hmv (fun q => y ∈ batch_of q)); [|by apply (Hw y j tmo ry)].
      cbn. intros [?|?]%elem_of_cons; congruence.
  - intros u q y Hu Hy. apply Hkeep. destruct (decide (u = t)) as [->|Hne].
    + cbn in Hu. rewrite lookup_insert_eq in Hu. injection Hu as <-. apply (Hbt t _ y Hp). by right.
    + rewrite Hpcs in Hu by done. by apply (Hbt u q).
  - intros j y Hy He. destruct (Hwa j y Hy He) as [H1 H2 H3]. constructor; [| |done].
    + intros ??. apply (Hmv (cancelling j)); [done|by apply H1].
    + intros Hpo z rz' Hz Hrz Hm. destruct (Hback z rz' Hrz) as (rz & Hrz0 & _ & Hmm & _).
      apply (Hmv (pending j (flags y))); [done|]. apply (H2 Hpo z rz); [done|done|]. by rewrite <- Hmm.
Qed.

(** Storing what is there changes nothing. *)
Lemma put_group_same w gid g : groups w !! gid = Some g -> put_group w gid g = w.
Proof. intros E. unfold put_group. rewrite insert_id by done. by destruct w. Qed.
Lemma at_pc_same w t p : pcs w !! t = Some p -> at_pc w t p = w.
Proof. intros E. unfold at_pc. rewrite insert_id by done. by destruct w. Qed.

(** A thread outside every list moves, the groups stay. *)
Lemma step_pc_inv w t p p' : ev_inv w -> pcs w !! t = Some p -> waiting p = false -> waiting p' = false ->
  (forall k, gid_of p' = Some k -> is_Some (groups w !! k)) -> (forall res, p' <> EReturned res) ->
  batch_of p' = batch_of p ->
  (forall k f, (cancelling k p -> cancelling k p') /\ (pending k f p -> pending k f p')) ->
  ev_inv (at_pc w t p').
Proof.
  intros Hi Hp H1 H2 Hg Hr Hb Hpe. destruct (iv_groups w Hi 0 eq_refl) as [g Hg0].
  rewrite <- (put_group_same w 0 g Hg0). apply (mover_inv w t p p' 0 g g); try done.
  - by intros res ?%Hr.
  - intros w' He. unfold w'. rewrite (put_group_same w 0 g Hg0). destruct (iv_watch w Hi 0 g Hg0 He) as [W1 W2 W3].
    assert (forall P : ev_pc -> Prop, (P p -> P p') -> (exists u q, pcs w !! u = Some q /\ P q) ->
      exists u q, pcs (at_pc w t p') !! u = Some q /\ P q) as Hmv.
    { intros P HP (u & q & Hu & Hq). destruct (decide (u = t)) as [->|Hut].
      - exists t, p'. cbn. rewrite lookup_insert_eq. split; [done|]. apply HP. congruence.
      - exists u, q. cbn. by rewrite lookup_insert_ne. }
    constructor; [| |done].
    + intros ??. apply Hmv; [apply (Hpe 0 0)|by apply W1].
    + intros ? x r ???. apply (Hmv (pending 0 (flags g))); [apply Hpe|by apply (W2 ltac:(done) x r)].
Qed.

Lemma outside_facts p : outside p -> waiting p = false /\ batch_of p = [] /\ gid_of p = None /\
  (forall k, ~ cancelling k p) /\ (forall k f, ~ pending k f p).
Proof.
  intros Ho. destruct (idle_pc_intro p (or_intror Ho)) as (? & ? & ?). by destruct Ho as [->|[? ->]].
Qed.

Lemma told_matches r : told_ok r -> result r = WAIT_OK -> matches (result_flags r) r = true.
Proof. intros [->|[_ ?]]; done. Qed.

Lemma wait_enter_inv w t p gid pat m tmo w' : ev_inv w -> pcs w !! t = Some p -> outside p ->
  wait_enter w t gid pat m tmo = Some w' -> ev_inv w'.
Proof.
  intros Hi Hp Ho. unfold wait_enter.
  assert (forall r res, signaled r = false -> (res = WAIT_OK -> matches (result_flags r) r = true) ->
    ev_inv (at_pc (put_rec w t r) t (EReturned res))) as Hnew.
  { intros r res Hs Hr. apply (newrec_inv w t p); try done; [right; by exists res|]. by intros ? [= <-]. }
  destruct (group_ok gid); cbn [negb]; [|intros [= <-]; by apply Hnew].
  destruct (groups w !! gid) as [g|] eqn:Hg; [|done]. cbn [mbind option_bind].
  destruct (used g) eqn:Hu; cbn [negb]; [|intros [= <-]; by apply Hnew].
  destruct (poisoned g) eqn:Hpo; [intros [= <-]; by apply Hnew|].
  destruct (pattern_match (flags g) pat m) eqn:Hm; [intros [= <-]; by apply Hnew|]. intros [= <-].
  set (r := mk_ew pat m false WAIT_TIMEOUT 0 false WAIT_OK).
  assert (ev_inv (at_pc (put_rec w t r) t EIdle)) as Hi1 by (apply (newrec_inv w t p); try done; by left).
  replace (at_pc (put_rec (put_group w gid (with_waiters g (waiters g ++ [t]))) t r) t (EPrepare gid tmo))
    with (at_pc (put_group (at_pc (put_rec w t r) t EIdle) gid (with_waiters g (waiters g ++ [t]))) t (EPrepare gid tmo))
    by (unfold at_pc; cbn; by rewrite insert_insert_eq).
  assert (t ∉ waiters g) as Hnt.
  { intros (q & s & Hq & Hon & _)%(iv_list w Hi gid g t Hg). assert (q = p) as -> by congruence.
    destruct Ho as [->|[? ->]]; done. }
  apply (relist_inv _ t EIdle _ r); try done.
  - cbn. by rewrite lookup_insert_eq.
  - apply idle_pc_intro. right. by left.
  - cbn. by rewrite lookup_insert_eq.
  - apply NoDup_app. split_and!; [by apply (iv_nodup w Hi gid)| |apply NoDup_singleton].
    by intros x Hx ->%list_elem_of_singleton.
  - intros x Hx. rewrite elem_of_app, list_elem_of_singleton. tauto.
  - cbn. rewrite Z.eqb_refl, elem_of_app, list_elem_of_singleton. tauto.
  - intros k Hk. split; [done|]. cbn. by apply Z.eqb_neq.
  - by left.
Qed.

Lemma wait_moves_inv w t p w' : ev_inv w -> pcs w !! t = Some p ->
  (exists gid tmo room, p = EPrepare gid tmo /\ wait_enqueue w t gid tmo room = Some w') \/
  (exists gid tmo, p = ECheck gid tmo /\ wait_check w t gid tmo = Some w') \/
  (exists gid tmo, (p = ECheck gid tmo \/ p = EAsleep gid tmo) /\ wait_timer w t = Some w') \/
  (exists gid tmo, p = EAsleep gid tmo /\ wait_resume w t gid tmo = Some w') -> ev_inv w'.
Proof.
  intros Hi Hp Hcase.
  assert (waiting p = true) as Hwp by (destruct Hcase as [(? & ? & ? & -> & _)|[(? & ? & -> & _)|
    [(? & ? & [-> | ->] & _)|(? & ? & -> & _)]]]; done).
  destruct (iv_rec w Hi t p Hp Hwp) as [r Hr]. pose proof (iv_told w Hi t r Hr) as Htold.
  assert (forall r' p', pattern r' = pattern r -> mode r' = mode r -> signaled r' = signaled r ->
    result r' = result r -> result_flags r' = result_flags r ->
    (waiting p' = true /\ gid_of p' = gid_of p \/ signaled r = true /\ p' = EReturned (result r)) ->
    (forall k tmo, p' = EAsleep k tmo -> signaled r = true -> inq r' = true -> False) ->
    ev_inv (at_pc (put_rec w t r') t p')) as Hgo.
  { intros r' p' E1 E2 E3 E4 E5 Hd Hsl. apply (waiter_inv w t p p' r r'); try done.
    - intros k. destruct Hd as [[Hw Hg]|[Hs ->]]; [|rewrite Hs; split; intros [? ?]; done].
      assert (waiting_on k p' = waiting_on k p) as ->; [|done].
      destruct p, p'; try done; cbn in Hg |- *; by injection Hg as ->.
    - destruct Hd as [[Hw _]|[_ ->]]; [by apply waiting_not_waker|done].
    - destruct Hd as [[_ ?]|[_ ->]]; [by left|by right].
    - intros res -> Hok. destruct Hd as [[? _]|[Hs [= ->]]]; [done|]. by apply told_matches; [apply Htold|]. }
  destruct Hcase as [(gid & tmo & room & -> & E)|[(gid & tmo & -> & E)|[(gid & tmo & Hpp & E)|(gid & tmo & -> & E)]]].
  - unfold wait_enqueue in E. rewrite (bind_eq _ _ _ Hr) in E. injection E as <-.
    destruct (_ && _); apply Hgo; try done; by left.
  - unfold wait_check in E. rewrite (bind_eq _ _ _ Hr) in E. destruct (signaled r) eqn:Hs; injection E as <-.
    + apply Hgo; try done. by right.
    + replace w with (put_rec w t r) by (unfold put_rec; rewrite insert_id by done; by destruct w).
      apply Hgo; try done; by left.
  - unfold wait_timer in E. rewrite (bind_eq _ _ _ Hr) in E. injection E as <-.
    rewrite <- (at_pc_same (put_rec w t _) t p) by done. apply Hgo; try done. by left.
  - unfold wait_resume in E. rewrite (bind_eq _ _ _ Hr) in E. injection E as <-.
    replace w with (put_rec w t r) by (unfold put_rec; rewrite insert_id by done; by destruct w).
    apply Hgo; try done.
    + destruct (signaled r); [by right|left]. by case_if.
    + intros k tm. destruct (signaled r); [done|]. by case_if.
Qed.

Lemma wait_unlink_inv w t gid : ev_inv w -> pcs w !! t = Some (EUnlink gid) ->
  exists w', wait_unlink w t gid = Some w' /\ ev_inv w'.
Proof.
  intros Hi Hp. destruct (iv_rec w Hi t _ Hp eq_refl) as [r Hr]. destruct (iv_pc w Hi t _ gid Hp eq_refl) as [g Hg].
  unfold wait_unlink. rewrite (bind_eq _ _ _ Hr), (bind_eq _ _ _ Hg).
  destruct (signaled r) eqn:Hs; eexists; (split; [done|]).
  - replace w with (put_rec w t r) by (unfold put_rec; rewrite insert_id by done; by destruct w).
    apply (waiter_inv w t (EUnlink gid) _ r r); try done.
    + intros k. rewrite Hs. split; intros [? ?]; done.
    + by right.
    + intros res [= <-]. apply told_matches. by apply (iv_told w Hi t).
  - set (g' := with_waiters g (without t (waiters g))).
    match goal with |- ev_inv (at_pc (put_rec _ _ ?z) _ _) => set (r' := z) end.
    assert (ev_inv (at_pc (put_group w gid g') t (EReturned WAIT_TIMEOUT))) as Hi1.
    { apply (relist_inv w t (EUnlink gid) _ r); try done.
      - apply idle_pc_intro. by left.
      - apply NoDup_filter. by apply (iv_nodup w Hi gid).
      - intros x Hx. unfold without. rewrite list_elem_of_filter. tauto.
      - unfold without. rewrite list_elem_of_filter. cbn. split; [tauto|done].
      - intros k Hk. cbn. split; [by apply Z.eqb_neq|done].
      - by right.
      - unfold without. rewrite list_elem_of_filter. tauto. }
    replace (at_pc (put_rec (put_group w gid g') t r') t (EReturned WAIT_TIMEOUT))
      with (at_pc (put_rec (at_pc (put_group w gid g') t (EReturned WAIT_TIMEOUT)) t r') t (EReturned WAIT_TIMEOUT))
      by (unfold at_pc; cbn; by rewrite insert_insert_eq).
    apply (newrec_inv _ t (EReturned WAIT_TIMEOUT)); try done; try (right; by eexists).
    + cbn. by rewrite lookup_insert_eq.
    + by intros res [= <-].
Qed.

(** A thread outside the code acts on a group and moves on. *)
Lemma act_inv w t p p' gid g g' : ev_inv w -> pcs w !! t = Some p -> outside p -> waiting p' = false ->
  groups w !! gid = Some g -> waiters g' = waiters g ->
  (forall k, gid_of p' = Some k -> is_Some (groups w !! k)) -> batch_of p' = [] ->
  (forall res, p' = EReturned res -> p = p') ->
  (edge g' = false -> watched w gid g ->
    watched (at_pc (put_group w gid g') t p') gid g') -> (edge g = true -> edge g' = true) ->
  ev_inv (at_pc (put_group w gid g') t p').
Proof.
  intros Hi Hp Ho Hw Hg Hwg Hgo Hb Hr Hwt He. destruct (outside_facts p Ho) as (H1 & H2 & H3 & H4 & H5).
  apply (mover_inv w t p p' gid g g'); try done.
  - intros res E. rewrite <- (Hr res E) in E. subst p. by apply (iv_ret w Hi).
  - congruence.
  - intros k f _. split; [by intros ?%H4|by intros ?%H5].
  - intros w'. intros Hed. apply Hwt; [done|]. apply (iv_watch w Hi gid g Hg).
    destruct (edge g); [specialize (He eq_refl); congruence|done].
Qed.

Lemma mutate_inv w t p gid bits op w' : ev_inv w -> pcs w !! t = Some p -> outside p ->
  mutate_section w t gid bits op = Some w' -> ev_inv w'.
Proof.
  intros Hi Hp Ho. unfold mutate_section. destruct (group_ok gid); cbn [negb]; [|by intros [= <-]].
  destruct (groups w !! gid) as [g|] eqn:Hg; [|done]. cbn [mbind option_bind].
  destruct (used g) eqn:Hu; cbn [negb orb]; [|by intros [= <-]].
  destruct (poisoned g) eqn:Hpo; [by intros [= <-]|].
  destruct (mutate g bits op) as [g1 s] eqn:Em. intros [= <-].
  assert (waiters g1 = waiters g /\ used g1 = used g /\ poisoned g1 = poisoned g /\
    (edge g = true -> edge g1 = true) /\ (edge g1 = false -> s = flags g1)) as (E1 & E2 & E3 & E4 & E5).
  { unfold mutate in Em. destruct (op =? EVENT_OP_SET); [|destruct (op =? EVENT_OP_CLEAR)]; injection Em as <- <-; cbn; rewrite ?orb_false_r, ?orb_true_r; split_and!; try done. }
  apply (act_inv w t p _ gid g g1); try done.
  - by intros k [= <-].
  - intros Hed Hwt. constructor.
    + intros Hp1. congruence.
    + intros _ x r _ _ _. exists t, (EScan gid s false AReturn). cbn. rewrite lookup_insert_eq. split; [done|].
      right. cbn. split; [done|]. by apply E5.
    + intros Hu1. congruence.
Qed.

Lemma poison_inv w t p gid k skip w' : ev_inv w -> pcs w !! t = Some p -> waiting p = false -> batch_of p = [] ->
  (forall j, ~ cancelling j p) -> (forall j f, ~ pending j f p) ->
  waiting skip = false -> batch_of skip = [] -> (forall j, gid_of skip = Some j -> is_Some (groups w !! j)) ->
  (forall res, skip <> EReturned res) -> poison_section w t gid k skip = Some w' -> ev_inv w'.
Proof.
  intros Hi Hp Hw Hb Hc Hpe Hws Hbs Hgs Hrs. unfold poison_section.
  assert (ev_inv (at_pc w t skip)) as Hskip.
  { apply (step_pc_inv w t p); try done; [congruence|]. intros j f. split; [by intros ?%Hc|by intros ?%Hpe]. }
  destruct (group_ok gid); cbn [negb]; [|by intros [= <-]].
  destruct (groups w !! gid) as [g|] eqn:Hg; [|done]. cbn [mbind option_bind].
  destruct (used g) eqn:Hu; cbn [negb]; [|by intros [= <-]]. intros [= <-].
  apply (mover_inv w t p _ gid g); try done.
  - by intros j [= <-].
  - intros j f _. split; [by intros ?%Hc|by intros ?%Hpe].
  - intros w1 He. constructor; cbn; try done. intros _ _. exists t, (EPoisoned gid k). by rewrite lookup_insert_eq.
Qed.

Lemma read_inv w t gid k : ev_inv w -> pcs w !! t = Some (EPoisoned gid k) ->
  exists w', read_flags w t gid k = Some w' /\ ev_inv w'.
Proof.
  intros Hi Hp. destruct (iv_pc w Hi t _ gid Hp eq_refl) as [g Hg]. unfold read_flags. rewrite (bind_eq _ _ _ Hg).
  eexists. split; [done|]. apply (step_pc_inv w t (EPoisoned gid k)); try done.
  - intros j [= <-]. by exists g.
Qed.

Lemma wake_next_inv w t gid s c k batch full : ev_inv w -> pcs w !! t = Some (EWake gid s c k batch full) ->
  exists w', wake_next w t gid s c k batch full = Some w' /\ ev_inv w'.
Proof.
  intros Hi Hp. destruct (iv_pc w Hi t _ gid Hp eq_refl) as [g Hg]. destruct batch as [|x rest]; cbn [wake_next].
  - eexists. split; [done|]. apply (step_pc_inv w t _ _ Hi Hp); try done.
    + by destruct full, k.
    + intros j Hj. destruct full, k; cbn in Hj; try done; injection Hj as <-; by exists g.
    + intros res. by destruct full, k.
    + by destruct full, k.
    + intros j f. destruct full, k; unfold pending; cbn; destruct c; tauto.
  - destruct (iv_batch w Hi t _ x Hp ltac:(by left)) as [r Hr]. unfold wake_record. rewrite (bind_eq _ _ _ Hr).
    eexists. split; [done|]. apply (wake_record_inv w t gid s c k x rest full r Hi Hp Hr).
Qed.

Lemma slot_ok w (i : nat) k : ev_inv w -> (if Z.of_nat i <? MAX_EVENT_GROUPS then Some (Z.of_nat i) else None) = Some k ->
  is_Some (groups w !! k).
Proof.
  intros Hi. case_if; [|done]. intros [= <-]. apply (iv_groups w Hi). unfold group_ok.
  apply andb_true_iff. split; [apply Z.leb_le; lia|by apply Z.ltb_lt].
Qed.

Lemma slot_lookup w (i : nat) : ev_inv w -> Z.of_nat i < MAX_EVENT_GROUPS -> exists g, groups w !! Z.of_nat i = Some g.
Proof. intros Hi H. apply (slot_ok w i); [done|]. by rewrite (proj2 (Z.ltb_lt _ _)). Qed.

Lemma destroy_end_inv w t gid cl : ev_inv w -> pcs w !! t = Some (EDestroyed gid cl) ->
  exists w', destroy_end w t gid cl = Some w' /\ ev_inv w'.
Proof.
  intros Hi Hp. destruct (iv_pc w Hi t _ gid Hp eq_refl) as [g Hg]. unfold destroy_end. rewrite (bind_eq _ _ _ Hg).
  eexists. split; [done|]. apply (mover_inv w t _ _ gid g _ Hi Hp); try done.
  - by destruct cl as [[? ?]|].
  - intros k Hk. destruct cl as [[? i]|]; [|done]. by apply (slot_ok w (S i)).
  - intros res. by destruct cl as [[? ?]|].
  - by destruct cl as [[? ?]|].
  - intros k f _. split; [done|]. by intros [[]|[]].
Qed.

Lemma create_turn_inv w t owner i : ev_inv w -> pcs w !! t = Some (ECreate owner i) ->
  exists w', create_turn w t owner i = Some w' /\ ev_inv w'.
Proof.
  intros Hi Hp. unfold create_turn.
  case_if.
  { eexists. split; [done|]. apply (step_pc_inv w t _ _ Hi Hp); try done. }
  destruct (slot_lookup w i Hi ltac:(lia)) as [g Hg]. rewrite (bind_eq _ _ _ Hg).
  destruct (used g) eqn:Hu; cbn [negb]; eexists; (split; [done|]).
  - apply (step_pc_inv w t _ _ Hi Hp); try done.
    intros k Hk. by apply (slot_ok w (S i)).
  - apply (mover_inv w t _ _ _ g _ Hi Hp); try done.
    intros w' He. cbn in He. destruct (iv_watch w Hi _ g Hg He) as [_ _ W3]. specialize (W3 Hu).
    constructor; cbn; try done. intros _ x r Hx. rewrite W3 in Hx. by apply not_elem_of_nil in Hx.
Qed.

Lemma cleanup_turn_inv w t pid i : ev_inv w -> pcs w !! t = Some (ECleanup pid i) ->
  exists w', cleanup_turn w t pid i = Some w' /\ ev_inv w'.
Proof.
  intros Hi Hp. unfold cleanup_turn.
  assert (ev_inv (at_pc w t (ECleanup pid (S i)))) as Hnext.
  { apply (step_pc_inv w t _ _ Hi Hp); try done.
    intros k Hk. by apply (slot_ok w (S i)). }
  case_if.
  { eexists. split; [done|]. apply (step_pc_inv w t _ _ Hi Hp); try done. }
  destruct (slot_lookup w i Hi ltac:(lia)) as [g Hg]. rewrite (bind_eq _ _ _ Hg).
  destruct (_ && _); [|eauto].
  assert (exists w', poison_section w t (Z.of_nat i) (ADestroy (Some (pid, i))) (ECleanup pid (S i)) = Some w') as [w' E].
  { unfold poison_section. destruct (group_ok _); cbn [negb]; [|eauto]. rewrite (bind_eq _ _ _ Hg). destruct (negb _); eauto. }
  exists w'. split; [done|]. apply (poison_inv w t (ECleanup pid i) (Z.of_nat i) (ADestroy (Some (pid, i))) (ECleanup pid (S i)) w' Hi Hp); try done.
  - intros j [].
  - intros j f [[]|[]].
  - intros k Hk. by apply (slot_ok w (S i)).
Qed.

Lemma reset_inv w t p gid w' : ev_inv w -> pcs w !! t = Some p -> outside p ->
  event_group_reset w gid = Some w' -> ev_inv w'.
Proof.
  intros Hi Hp Ho. unfold event_group_reset. destruct (group_ok gid); cbn [negb]; [|by intros [= <-]].
  destruct (groups w !! gid) as [g|] eqn:Hg; [|done]. cbn [mbind option_bind].
  destruct (negb (used g)); [by intros [= <-]|]. intros [= <-].
  destruct (outside_facts p Ho) as (H1 & H2 & H3 & _).
  match goal with |- ev_inv (put_group _ _ ?z) => rewrite <- (at_pc_same (put_group w gid z) t p) by done end.
  apply (act_inv w t p p gid g); try done. congruence.
Qed.

Lemma ev_step_inv w w' : ev_inv w -> ev_step w w' -> ev_inv w'.
Proof.
  intros Hi Hs.
  destruct Hs as [t p gid pat m tmo w' Hp Ho E|t gid tmo room w' Hp E|t gid tmo w' Hp E|t gid tmo r w' Hp _ _ _ E
    |t gid tmo r w' Hp _ _ E|t gid w' Hp E|t p gid bits op w' Hp Ho E|t p gid k w' Hp Ho _ E|t gid k w' Hp E
    |t gid s c k w' Hp E|t gid s c k b full w' Hp _ E|t gid cl w' Hp E|t p owner Hp Ho|t owner i w' Hp E
    |t p pid Hp Ho|t pid i w' Hp E|t p gid w' Hp Ho E].
  - by apply (wait_enter_inv w t p gid pat m tmo).
  - apply (wait_moves_inv w t _ w' Hi Hp). left. eauto.
  - apply (wait_moves_inv w t _ w' Hi Hp). right. left. eauto.
  - destruct Hp as [Hp|Hp]; apply (wait_moves_inv w t _ w' Hi Hp); right; right; left; eauto.
  - apply (wait_moves_inv w t _ w' Hi Hp). right. right. right. eauto.
  - destruct (wait_unlink_inv w t gid Hi Hp) as (w2 & E2 & ?). congruence.
  - by apply (mutate_inv w t p gid bits op).
  - destruct (outside_facts p Ho) as (? & ? & ? & ? & ?). by apply (poison_inv w t p gid k EIdle).
  - destruct (read_inv w t gid k Hi Hp) as (w2 & E2 & ?). congruence.
  - destruct (scan_inv w t gid s c k Hi Hp) as (w2 & E2 & ?). congruence.
  - destruct (wake_next_inv w t gid s c k b full Hi Hp) as (w2 & E2 & ?). congruence.
  - destruct (destroy_end_inv w t gid cl Hi Hp) as (w2 & E2 & ?). congruence.
  - destruct (outside_facts p Ho) as (? & Hb & ? & Hc & Hpe). apply (step_pc_inv w t p); try done.
    + intros k Hk. by apply (slot_ok w 0).
    + intros k f. split; [by intros ?%Hc|by intros ?%Hpe].
  - destruct (create_turn_inv w t owner i Hi Hp) as (w2 & E2 & ?). congruence.
  - destruct (outside_facts p Ho) as (? & Hb & ? & Hc & Hpe). apply (step_pc_inv w t p); try done.
    + intros k Hk. by apply (slot_ok w 0).
    + intros k f. split; [by intros ?%Hc|by intros ?%Hpe].
  - destruct (cleanup_turn_inv w t pid i Hi Hp) as (w2 & E2 & ?). congruence.
  - by apply (reset_inv w t p gid).
Qed.

Lemma init_inv ts : ev_inv (event_group_init_subsystem ts).
Proof.
  assert (forall t p, pcs (event_group_init_subsystem ts) !! t = Some p -> p = EIdle) as Hp.
  { intros t p. cbn. by intros [_ <-]%lookup_gset_to_gmap_Some. }
  assert (forall gid g, groups (event_group_init_subsystem ts) !! gid = Some g -> g = new_group) as Hg.
  { intros gid g. cbn -[MAX_EVENT_GROUPS]. by intros [_ <-]%lookup_gset_to_gmap_Some. }
  constructor.
  - intros gid Hok. unfold group_ok in Hok. apply andb_true_iff in Hok as [?%Z.leb_le ?%Z.ltb_lt].
    exists new_group. cbn -[MAX_EVENT_GROUPS]. apply lookup_gset_to_gmap_Some. split; [|done].
    apply elem_of_list_to_set, elem_of_seqZ. lia.
  - by intros t p gid ->%Hp.
  - by intros t p ->%Hp.
  - intros gid g ->%Hg. constructor.
  - intros gid g t ->%Hg. split; [by intros ?%not_elem_of_nil|]. by intros (p & r & ->%Hp & ? & _).
  - done.
  - by intros t res ?%Hp.
  - by intros t gid tmo r ?%Hp.
  - intros u p x ->%Hp Hx. by apply not_elem_of_nil in Hx.
  - intros gid g ->%Hg _. by constructor.
Qed.

(** The next section of a thread that is inside the code and awake. *)
Definition section_of (w : world) (t : Z) (p : ev_pc) : option world :=
  match p with
  | EIdle | EReturned _ => Some w
  | EPrepare gid tmo => wait_enqueue w t gid tmo true
  | ECheck gid tmo => wait_check w t gid tmo
  | EAsleep gid tmo => wait_resume w t gid tmo
  | EUnlink gid => wait_unlink w t gid
  | EPoisoned gid k => read_flags w t gid k
  | EScan gid s c k => scan_section w t gid s c k
  | EWake gid s c k b full => wake_next w t gid s c k b full
  | EDestroyed gid cl => destroy_end w t gid cl
  | ECreate owner i => create_turn w t owner i
  | ECleanup pid i => cleanup_turn w t pid i
  end.

Lemma section_of_defined w t p : ev_inv w -> pcs w !! t = Some p -> is_Some (section_of w t p).
Proof.
  intros Hi Hp. destruct p; cbn [section_of]; try by eexists.
  1-3: destruct (iv_rec w Hi t _ Hp eq_refl) as [r Hr];
    unfold wait_enqueue, wait_check, wait_resume; rewrite (bind_eq _ _ _ Hr); try case_match; by eexists.
  - destruct (wait_unlink_inv w t gid Hi Hp) as (w2 & E2 & ?). by exists w2.
  - destruct (read_inv w t gid k Hi Hp) as (w2 & E2 & ?). by exists w2.
  - destruct (scan_inv w t gid _ _ k Hi Hp) as (w2 & E2 & ?). by exists w2.
  - destruct (wake_next_inv w t gid _ _ k _ _ Hi Hp) as (w2 & E2 & ?). by exists w2.
  - destruct (destroy_end_inv w t gid _ Hi Hp) as (w2 & E2 & ?). by exists w2.
  - destruct (create_turn_inv w t _ _ Hi Hp) as (w2 & E2 & ?). by exists w2.
  - destruct (cleanup_turn_inv w t _ _ Hi Hp) as (w2 & E2 & ?). by exists w2.
Qed.


(** ** Concrete runs *)

Definition or_same (w : world) (o : option world) : world := default w o.

Definition e0 : world := event_group_init_subsystem {[1; 2; 3]}.
Definition e1 : world := at_pc e0 2 (ECreate 9 0).
Definition e2 : world := or_same e1 (create_turn e1 2 9 0).
Definition e3 : world := or_same e2 (wait_enter e2 1 0 1 RT_ANY_SET 5).
Definition e4 : world := or_same e3 (wait_enqueue e3 1 0 5 true).
Definition e5 : world := or_same e4 (wait_check e4 1 0 5).

Tactic Notation "ev_run" constr(s) constr(c) :=
  apply (reach_step _ _ s); [|apply c; first [by left|left; vm_compute; reflexivity|vm_compute; reflexivity|right; vm_compute; reflexivity]].

Lemma e5_reachable : reachable ev_step e0 e5.
Proof.
  ev_run e4 (ev_check e4 1 0 5). ev_run e3 (ev_enqueue e3 1 0 5 true). ev_run e2 (ev_wait e2 1 EIdle 0 1 RT_ANY_SET 5). ev_run e1 (ev_create_turn e1 2 9 0). ev_run e0 (ev_create e0 2 EIdle 9). constructor.
Qed.


(** A set marks the waiter and takes it off the list; before the wake itself the waiter's
    timer fires, it sees it was told, and returns: the waker holds a record on the stack of
    a call that is over. *)
Definition e6 : world := or_same e5 (mutate_section e5 2 0 1 EVENT_OP_SET).
Definition e7 : world := or_same e6 (scan_section e6 2 0 1 false AReturn).
Definition e8 : world := or_same e7 (wait_timer e7 1).
Definition e9 : world := or_same e8 (wait_resume e8 1 0 5).

Remark wake_of_returned_waiter :
  reachable ev_step e0 e9 /\ pcs e9 !! 2 = Some (EWake 0 1 false AReturn [1] false) /\ ~ rec_live e9 1.
Proof.
  split; [|split; [vm_compute; reflexivity|]].
  - ev_run e8 (ev_resume e8 1 0 5 (mk_ew 1 RT_ANY_SET true WAIT_OK 1 false WAIT_TIMEOUT)). ev_run e7 (ev_timer e7 1 0 5 (mk_ew 1 RT_ANY_SET true WAIT_OK 1 true WAIT_OK)). ev_run e6 (ev_scan e6 2 0 1 false AReturn). ev_run e5 (ev_mutate e5 2 EIdle 0 1 EVENT_OP_SET). apply e5_reachable.
  - intros (p & Hp & Hw). vm_compute in Hp. by injection Hp as <-.
Qed.

(** A pulse: thread 3 starts to wait after the flags went up and down, and before the scan
    with the high flags: it is woken by an edge it came after. *)
Definition p6 : world := or_same e5 (mutate_section e5 2 0 1 EVENT_OP_PULSE).
Definition p7 : world := or_same p6 (wait_enter p6 3 0 1 RT_ANY_SET 0).
Definition p8 : world := or_same p7 (scan_section p7 2 0 1 false AReturn).

Remark pulse_wakes_newcomer :
  reachable ev_step e0 p8 /\ (flags <$> groups p6 !! 0) = Some 0 /\
  pcs p7 !! 3 = Some (EPrepare 0 0) /\ (signaled <$> recs p8 !! 3) = Some true.
Proof.
  split; [|vm_compute; done]. ev_run p7 (ev_scan p7 2 0 1 false AReturn). ev_run p6 (ev_wait p6 3 EIdle 0 1 RT_ANY_SET 0). ev_run e5 (ev_mutate e5 2 EIdle 0 1 EVENT_OP_PULSE). apply e5_reachable.
Qed.

(** A pulse leaves its bits clear, and does not wake who waits for that. *)
Definition clear_waiter : event_waiter_t := mk_ew 1 RT_ALL_CLEAR false WAIT_TIMEOUT 0 true WAIT_OK.
Definition high_group : event_group_t := mk_eg true false 9 1 [5] false.

Remark pulse_leaves_clear_waiter :
  (fun x => (flags <$> x.1.2 !! 0, waiters <$> x.1.2 !! 0)) <$>
    mutate_and_wake 2 {[0 := high_group]} {[5 := clear_waiter]} 0 1 EVENT_OP_PULSE = Some (Some 0, Some [5]).
Proof. vm_compute. reflexivity. Qed.

(** A set of bit 0 among a waiter for it and one for bit 1. *)
Lemma event_mutate_exact_witness :
  exists g' recs', mutate_and_wake 3 {[0 := mk_eg true false 9 0 [5; 6] false]}
      (<[5 := no_rec]> {[6 := mk_ew 1 RT_ANY_SET false WAIT_TIMEOUT 0 true WAIT_OK]}) 0 1 EVENT_OP_SET =
    Some (0, {[0 := g']}, recs') /\ flags g' = 1 /\ waiters g' = [].
Proof.
  destruct (event_mutate_exact {[0 := mk_eg true false 9 0 [5; 6] false]}
    (<[5 := no_rec]> {[6 := mk_ew 1 RT_ANY_SET false WAIT_TIMEOUT 0 true WAIT_OK]}) 0
    (mk_eg true false 9 0 [5; 6] false) 1 EVENT_OP_SET) as (g' & recs' & E & Hw & _ & Hf & _).
  - done.
  - vm_compute. reflexivity.
  - done.
  - done.
  - cbn. apply (bool_decide_eq_true_1 (NoDup [5; 6])). vm_compute. reflexivity.
  - cbn. intros t [->|[->|[]%elem_of_nil]%elem_of_cons]%elem_of_cons; vm_compute; eauto.
  - rewrite insert_singleton_eq in E. exists g', recs'. split; [exact E|].
    vm_compute in E. injection E as <- <-. split; [done|]. rewrite Hw. vm_compute. reflexivity.
Defined.
