(* ===== verification/Elf.v ===== *)
(** * The ELF loader (kernel/proc/elf.c, static executables)

    [elf_load] over the kernel's byte memory (Mem), the regions of the process (Vregion)
    and any [FrameSource]; the physical allocator (Pmm) is one.  A frame is written
    through its window at [KERNEL_VMA]; the page directory of the process is a finite map
    from page addresses to frames.  The file is read where it lies in memory, through the
    machine's pointer arithmetic. *)

From S2P Require Import Prelude Bitmap Pmm Vregion Mem KString.

Definition ELF_MAGIC : Z := 0x464C457F.
Definition ET_EXEC : Z := 2.
Definition EM_386 : Z := 3.
Definition PT_LOAD : Z := 1.
Definition USER_SPACE_LIMIT : Z := 0xC0000000.
Definition KERNEL_VMA : Z := 0xC0000000.
Definition DIRECT_MAP_LIMIT : Z := 0x10000000.
Definition PMM_ZONE_ANY : Z := 0.
Definition sizeof_elf_header : Z := 46.
Definition sizeof_elf_phdr : Z := 32.
(** [VREG_CODE | VREG_USER_RW | VREG_EXEC] *)
Definition segment_flags : Z := 0x10F.

Record elf_header_t := mk_header {
  magic : Z; class_ : Z; data_ : Z; version : Z; osabi : Z;
  type_ : Z; machine : Z; version2 : Z; entry : Z; phoff : Z; shoff : Z; eflags : Z;
  ehsize : Z; phentsize : Z; phnum : Z
}.

Record elf_phdr_t := mk_phdr {
  p_type : Z; offset : Z; vaddr : Z; paddr : Z; filesz : Z; memsz : Z; pflags : Z; palign : Z
}.

Definition load16 (m : mem) (a : Z) : option Z :=
  b0 ← load8 m a; b1 ← load8 m (a + 1); Some (b0 + 0x100 * b1).

Definition read_header (m : mem) (a : Z) : option elf_header_t :=
  mg ← load32 m a; cl ← load8 m (a + 4); da ← load8 m (a + 5); ve ← load8 m (a + 6); os ← load8 m (a + 7);
  ty ← load16 m (a + 16); ma ← load16 m (a + 18); v2 ← load32 m (a + 20); en ← load32 m (a + 24);
  po ← load32 m (a + 28); so ← load32 m (a + 32); fl ← load32 m (a + 36);
  eh ← load16 m (a + 40); pe ← load16 m (a + 42); pn ← load16 m (a + 44);
  Some (mk_header mg cl da ve os ty ma v2 en po so fl eh pe pn).

(** [ph[i]] *)
Definition read_phdr (m : mem) (ph i : Z) : option elf_phdr_t :=
  let a := ph + sizeof_elf_phdr * i in
  ty ← load32 m a; fo ← load32 m (a + 4); va ← load32 m (a + 8); pa ← load32 m (a + 12);
  fs ← load32 m (a + 16); ms ← load32 m (a + 20); fl ← load32 m (a + 24); al ← load32 m (a + 28);
  Some (mk_phdr ty fo va pa fs ms fl al).

(** ** Checks *)

(** The tests after the size: on the header read from the file. *)
Definition header_fits (h : elf_header_t) (size : Z) : bool :=
  (magic h =? ELF_MAGIC) && (class_ h =? 1) && (type_ h =? ET_EXEC) && (machine h =? EM_386) &&
  (phoff h ⊞ (phnum h ⊠ sizeof_elf_phdr) <=? size).

Definition header_is_valid (m : mem) (data size : Z) : option bool :=
  if size <? sizeof_elf_header then Some false
  else h ← read_header m data; Some (header_fits h size).

Definition segment_is_sane (ph : elf_phdr_t) (file_size : Z) : bool :=
  if vaddr ph ⊞ memsz ph <? vaddr ph then false
  else if USER_SPACE_LIMIT <? vaddr ph ⊞ memsz ph then false
  else if memsz ph <? filesz ph then false
  else if file_size <? u64 (offset ph + filesz ph) then false
  else true.

(** ** Frames *)

(** What the loader needs of the physical allocator: a call returns, and hands out 0 or an
    aligned frame below the limit of the direct map that nobody had. *)
Class FrameSource (F : Type) := {
  fs_alloc : F -> option (Z * F);
  fs_used : F -> Z -> Prop;
  fs_ok : F -> Prop;
  fs_alloc_spec : forall s, fs_ok s -> exists f s', fs_alloc s = Some (f, s') /\ fs_ok s' /\
    ((f = 0 /\ forall x, fs_used s' x <-> fs_used s x) \/
     (0 < f /\ f + PAGE_SIZE <= DIRECT_MAP_LIMIT /\ f mod PAGE_SIZE = 0 /\ ~ fs_used s f /\
      forall x, fs_used s' x <-> fs_used s x \/ x = f))
}.

Section Loader.
Context {F : Type} {FS : FrameSource F}.

Record process := mk_proc {
  memory : mem;
  page_directory : gmap Z Z;
  vm_regions : vregion_list;
  frames : F
}.

Definition with_memory (w : process) (m : mem) : process :=
  mk_proc m (page_directory w) (vm_regions w) (frames w).
Definition with_frames (w : process) (f : F) : process :=
  mk_proc (memory w) (page_directory w) (vm_regions w) f.
Definition with_regions (w : process) (vl : vregion_list) : process :=
  mk_proc (memory w) (page_directory w) vl (frames w).
Definition paging_map_in (w : process) (virt phys : Z) : process :=
  mk_proc (memory w) (<[virt := phys]> (page_directory w)) (vm_regions w) (frames w).

(** The copy into one page: the part of the file's bytes that falls in it. *)
Definition copy_page (m : mem) (kwin page_vaddr file : Z) (ph : elf_phdr_t) : option mem :=
  if (vaddr ph <? page_vaddr ⊞ PAGE_SIZE) && (page_vaddr <? vaddr ph ⊞ filesz ph) then
    let copy_start := if vaddr ph <? page_vaddr then page_vaddr else vaddr ph in
    let copy_end := if page_vaddr ⊞ PAGE_SIZE <? vaddr ph ⊞ filesz ph
                    then page_vaddr ⊞ PAGE_SIZE else vaddr ph ⊞ filesz ph in
    let dst_off := copy_start ⊟ page_vaddr in
    let src_off := copy_start ⊟ vaddr ph in
    '(m1, _) ← memcpy m (kwin ⊞ dst_off) (file ⊞ offset ph ⊞ src_off) (copy_end ⊟ copy_start);
    Some m1
  else Some m.

(** One turn of the loop of [load_segment]: [false] when memory is exhausted. *)
Definition load_page (w : process) (ph : elf_phdr_t) (file page_vaddr : Z) : option (bool * process) :=
  '(frame, fr) ← fs_alloc (frames w);
  let w1 := with_frames w fr in
  if frame =? 0 then Some (false, w1)
  else
    let kwin := frame ⊞ KERNEL_VMA in
    '(m1, _) ← memset (memory w1) kwin 0 PAGE_SIZE;
    m2 ← copy_page m1 kwin page_vaddr file ph;
    Some (true, paging_map_in (with_memory w1 m2) page_vaddr frame).

Fixpoint load_pages (k : nat) (w : process) (ph : elf_phdr_t) (file seg_start off : Z) : option (bool * process) :=
  match k with
  | O => Some (true, w)
  | S k' =>
      '(ok, w1) ← load_page w ph file (seg_start ⊞ off);
      if ok : bool then load_pages k' w1 ph file seg_start (off ⊞ PAGE_SIZE) else Some (false, w1)
  end.

(** [node]: whether the region's node could be allocated. *)
Definition load_segment (node : bool) (w : process) (ph : elf_phdr_t) (file : Z) : option (bool * process) :=
  let seg_start := ALIGN_DOWN (vaddr ph) PAGE_SIZE in
  let seg_end := ALIGN_UP (vaddr ph ⊞ memsz ph) PAGE_SIZE in
  let pages := (seg_end ⊟ seg_start) / PAGE_SIZE in
  let w1 := with_regions w (snd (vregion_insert node (vm_regions w) seg_start pages segment_flags)) in
  load_pages (Z.to_nat pages) w1 ph file seg_start 0.

Record elf_load_result_t := mk_result { success : bool; entry_point : Z; brk : Z }.

Definition failed : elf_load_result_t := mk_result false 0 0.

Definition skipped (ph : elf_phdr_t) : bool := negb (p_type ph =? PT_LOAD) || (memsz ph =? 0).

(** The loop over the program headers: [Some brk] when every segment was loaded. *)
Fixpoint load_segments (k : nat) (node : bool) (w : process) (ph_base file size i brk : Z)
  : option (option Z * process) :=
  match k with
  | O => Some (Some brk, w)
  | S k' =>
      ph ← read_phdr (memory w) ph_base i;
      if skipped ph then load_segments k' node w ph_base file size (i + 1) brk
      else if negb (segment_is_sane ph size) then Some (None, w)
      else
        '(ok, w1) ← load_segment node w ph file;
        if negb ok then Some (None, w1)
        else
          let e := vaddr ph ⊞ memsz ph in
          load_segments k' node w1 ph_base file size (i + 1) (if brk <? e then e else brk)
  end.

Definition elf_load (node : bool) (w : process) (data size : Z) : option (elf_load_result_t * process) :=
  valid ← header_is_valid (memory w) data size;
  if negb valid then Some (failed, w)
  else
    h ← read_header (memory w) data;
    '(r, w1) ← load_segments (Z.to_nat (phnum h)) node w (data ⊞ phoff h) data size 0 0;
    match r with
    | None => Some (failed, w1)
    | Some b => Some (mk_result true (entry h) (ALIGN_UP b PAGE_SIZE), w1)
    end.

(** ** What a loaded page holds *)

(** The segment's contents: the file's bytes, then zeros. *)
Definition segment_byte (m : mem) (file : Z) (ph : elf_phdr_t) (va : Z) : option Z :=
  if (vaddr ph <=? va) && (va <? vaddr ph + filesz ph) then m !! (file + offset ph + (va - vaddr ph)) else Some 0.

(** A segment that passed the checks, of a file that lies at [file]. *)
Record good_segment (m : mem) (file size : Z) (ph : elf_phdr_t) : Prop := {
  gs_vaddr : 0 <= vaddr ph;
  gs_filesz : 0 <= filesz ph <= memsz ph;
  gs_limit : vaddr ph + memsz ph <= USER_SPACE_LIMIT;
  gs_offset : 0 <= offset ph;
  gs_file : offset ph + filesz ph <= size;
  gs_mapped : mapped m file size
}.

Lemma mapped_part m a n b k : mapped m a n -> a <= b -> 0 <= k -> b + k <= a + n -> mapped m b k.
Proof.
  intros (Ha & Hn & Hm) H1 H2 H3. split_and!; [lia|lia|]. intros i Hi.
  replace (b + i) with (a + (b + i - a)) by lia. apply Hm. lia.
Qed.

Lemma memcpy_spec m dst src n : bytes_ok m -> 0 <= n -> mapped m dst n -> mapped m src n ->
  dst <= src \/ src + n <= dst ->
  exists m', memcpy m dst src n = Some (m', dst) /\ written m m' dst n (fun i => m !! (src + i)).
Proof.
  intros Hok Hn Hd Hs Hov. destruct (copy_forward_spec m dst src n Hok Hn Hd Hs Hov) as (m' & E & W).
  exists m'. unfold memcpy. by run_bind E.
Qed.

Lemma copy_page_spec m0 m kwin p file size ph :
  good_segment m0 file size ph -> bytes_ok m -> mapped m kwin PAGE_SIZE ->
  (forall j, 0 <= j < PAGE_SIZE -> m !! (kwin + j) = Some 0) ->
  (forall a, file <= a < file + size -> m !! a = m0 !! a) ->
  kwin + PAGE_SIZE <= file \/ file + size <= kwin ->
  0 <= p -> p + PAGE_SIZE <= USER_SPACE_LIMIT ->
  exists m', copy_page m kwin p file ph = Some m' /\ bytes_ok m' /\
    (forall j, 0 <= j < PAGE_SIZE -> m' !! (kwin + j) = segment_byte m0 file ph (p + j)) /\
    (forall a, ~ kwin <= a < kwin + PAGE_SIZE -> m' !! a = m !! a).
Proof.
  intros [H1 H2 H3 H4 H5 H6] Hok Hk Hz Hf Hdis Hp0 Hp. unfold USER_SPACE_LIMIT, PAGE_SIZE in *.
  pose proof H6 as (Hf0 & Hf1 & _). pose proof Hk as (Hk0 & Hk1 & _).
  unfold copy_page, PAGE_SIZE. rewrite (u32_small (p + 4096)), (u32_small (vaddr ph + filesz ph)) by lia.
  destruct (_ && _) eqn:Ec.
  - apply andb_true_iff in Ec as [Ec1%Z.ltb_lt Ec2%Z.ltb_lt]. cbv zeta.
    set (cs := if vaddr ph <? p then p else vaddr ph).
    set (ce := if p + 4096 <? vaddr ph + filesz ph then p + 4096 else vaddr ph + filesz ph).
    assert (cs = Z.max p (vaddr ph)) as Ecs by (unfold cs; case_if; lia).
    assert (ce = Z.min (p + 4096) (vaddr ph + filesz ph)) as Ece by (unfold ce; case_if; lia).
    rewrite !(u32_small (cs - _)), (u32_small (ce - cs)) by lia.
    rewrite (u32_small (kwin + (cs - p))) by lia.
    rewrite (u32_small (file + offset ph)), (u32_small (file + offset ph + (cs - vaddr ph))) by lia.
    assert (forall b k, file <= b -> 0 <= k -> b + k <= file + size -> mapped m b k) as Hsrc.
    { intros b k ???. apply (mapped_part m0 file size b k) in H6 as (? & ? & H6); try lia.
      split_and!; [lia|lia|]. intros i Hi. destruct (H6 i Hi) as [v Hv]. exists v. by rewrite Hf by lia. }
    destruct (memcpy_spec m (kwin + (cs - p)) (file + offset ph + (cs - vaddr ph)) (ce - cs)) as (m' & E & Hok' & W);
      [done|lia|apply (mapped_part m kwin 4096); [done|lia..]|apply Hsrc; lia|lia|].
    run_bind E. exists m'. split_and!; try done.
    + intros j Hj. rewrite W. unfold segment_byte.
      destruct ((kwin + (cs - p) <=? kwin + j) && (kwin + j <? kwin + (cs - p) + (ce - cs))) eqn:Ej.
      * apply andb_true_iff in Ej as [?%Z.leb_le ?%Z.ltb_lt]. rewrite (proj2 (Z.leb_le _ _)), (proj2 (Z.ltb_lt _ _)) by lia.
        cbn. rewrite Hf by lia. f_equal. lia.
      * rewrite Hz by lia. apply andb_false_iff in Ej. rewrite Z.leb_gt, Z.ltb_ge in Ej.
        repeat case_cmp; cbn; try done; lia.
    + intros a Ha. rewrite W. repeat case_cmp; cbn; try done; lia.
  - exists m. split_and!; try done. intros j Hj. rewrite Hz by done. unfold segment_byte.
    apply andb_false_iff in Ec. rewrite !Z.ltb_ge in Ec. repeat case_cmp; cbn; try done; lia.
Qed.

(** What the loader starts from: the file in mapped memory, the windows of the free frames
    mapped and clear of it, and no free frame in the page directory. *)
Record setup (w0 : process) (file size : Z) : Prop := {
  su_bytes : bytes_ok (memory w0);
  su_file : mapped (memory w0) file size;
  su_frames : fs_ok (frames w0);
  su_window : forall f, ~ fs_used (frames w0) f -> 0 < f -> f + PAGE_SIZE <= DIRECT_MAP_LIMIT ->
    f mod PAGE_SIZE = 0 ->
    mapped (memory w0) (f + KERNEL_VMA) PAGE_SIZE /\
    (f + KERNEL_VMA + PAGE_SIZE <= file \/ file + size <= f + KERNEL_VMA);
  su_pd : forall p f, page_directory w0 !! p = Some f -> fs_used (frames w0) f
}.

(** A frame the loader took. *)
Record taken (s0 s : F) (f : Z) : Prop := {
  fr_used : fs_used s f;
  fr_new : ~ fs_used s0 f;
  fr_range : 0 < f /\ f + PAGE_SIZE <= DIRECT_MAP_LIMIT;
  fr_page : f mod PAGE_SIZE = 0
}.

(** Only fresh frames were written and mapped, at user addresses, each at one place. *)
Record loaded (w0 w : process) : Prop := {
  ld_bytes : bytes_ok (memory w);
  ld_frames : fs_ok (frames w);
  ld_mono : forall x, fs_used (frames w0) x -> fs_used (frames w) x;
  ld_mem : forall a, memory w !! a = memory w0 !! a \/
    exists f, taken (frames w0) (frames w) f /\ f + KERNEL_VMA <= a < f + KERNEL_VMA + PAGE_SIZE;
  ld_pd : forall p f, page_directory w !! p = Some f -> page_directory w0 !! p = Some f \/
    (taken (frames w0) (frames w) f /\ 0 <= p /\ p mod PAGE_SIZE = 0 /\ p + PAGE_SIZE <= USER_SPACE_LIMIT);
  ld_inj : forall p q f, page_directory w !! p = Some f -> page_directory w !! q = Some f -> taken (frames w0) (frames w) f -> p = q;
  ld_map : forall b k, mapped (memory w0) b k -> mapped (memory w) b k
}.

Lemma loaded_refl w0 file size : setup w0 file size -> loaded w0 w0.
Proof.
  intros [H1 H2 H3 H4 H5]. constructor; auto. intros p q f Hp _ [_ Hn _ _]. by apply (H5 p f) in Hp.
Qed.

Lemma taken_mono s0 s s' f : (forall x, fs_used s x -> fs_used s' x) -> taken s0 s f -> taken s0 s' f.
Proof. intros Hm [H1 H2 H3 H4]. constructor; auto. Qed.

(** The file is not touched. *)
Lemma loaded_file w0 w file size a : setup w0 file size -> loaded w0 w -> file <= a < file + size ->
  memory w !! a = memory w0 !! a.
Proof.
  intros Hsu Hl Ha. destruct (ld_mem _ _ Hl a) as [?|(f & Hf & Hr)]; [done|].
  destruct Hf as [Hu Hn [Hf1 Hf2] Hp].
  destruct (su_window _ _ _ Hsu f Hn Hf1 Hf2 Hp) as [_ [?|?]]; lia.
Qed.

(** Two frames' windows are the same or apart. *)
Lemma frames_apart f g : f mod PAGE_SIZE = 0 -> g mod PAGE_SIZE = 0 -> f <> g -> f + PAGE_SIZE <= g \/ g + PAGE_SIZE <= f.
Proof. unfold PAGE_SIZE. intros. zlia. Qed.

Definition page_has (w0 w : process) (file p : Z) (ph : elf_phdr_t) : Prop :=
  exists f, page_directory w !! p = Some f /\ taken (frames w0) (frames w) f /\
    forall j, 0 <= j < PAGE_SIZE -> memory w !! (f + KERNEL_VMA + j) = segment_byte (memory w0) file ph (p + j).

Lemma load_page_inv w0 w file size p ph : setup w0 file size -> loaded w0 w ->
  good_segment (memory w0) file size ph -> 0 <= p -> p mod PAGE_SIZE = 0 -> p + PAGE_SIZE <= USER_SPACE_LIMIT ->
  exists ok w', load_page w ph file p = Some (ok, w') /\ loaded w0 w' /\
    if ok : bool then page_has w0 w' file p ph /\
      forall q pq, q <> p -> page_has w0 w file q pq -> page_has w0 w' file q pq
    else exists fr, fs_alloc (frames w) = Some (0, fr).
Proof.
  intros Hsu Hl Hgs Hp Hpm Hlim. pose proof Hl as [L1 L2 L3 L4 L5 L6 L7].
  unfold load_page. destruct (fs_alloc_spec (frames w) L2) as (f & fr & E & Hfr & Hcase). rewrite (bind_eq _ _ _ E).
  cbn zeta. destruct Hcase as [[-> Hsame]|(Hf0 & Hf1 & Hfm & Hnu & Hadd)].
  { exists false, (with_frames w fr). split; [done|]. split; [|by eexists].
    assert (forall g, taken (frames w0) fr g <-> taken (frames w0) (frames w) g) as Hfg.
    { intros g. split; intros [G1 G2 G3 G4]; constructor; auto; by apply Hsame. }
    constructor; cbn; try done.
    - intros x ?. by apply Hsame, L3.
    - intros a. destruct (L4 a) as [?|(g & ? & ?)]; [by left|right]. exists g. by rewrite Hfg.
    - intros q g Hq. rewrite Hfg. by apply L5.
    - intros q1 q2 g. rewrite Hfg. apply L6. }
  rewrite (proj2 (Z.eqb_neq f 0)) by lia.
  assert (~ fs_used (frames w0) f) as Hn0 by (intros Hu; by apply Hnu, L3).
  destruct (su_window _ _ _ Hsu f Hn0 Hf0 Hf1 Hfm) as [Hwin Hdis].
  unfold KERNEL_VMA, DIRECT_MAP_LIMIT in *. rewrite (u32_small (f + 0xC0000000)) by (unfold PAGE_SIZE in *; lia).
  destruct (memset_spec (memory w) (f + 0xC0000000) 0 PAGE_SIZE L1 ltac:(done) (L7 _ _ Hwin)) as (m1 & E1 & W1).
  cbn [memory with_frames]. rewrite (bind_eq _ _ _ E1).
  assert (forall j, 0 <= j < PAGE_SIZE -> m1 !! (f + 0xC0000000 + j) = Some 0) as Hzero.
  { intros j Hj. rewrite (proj2 W1). repeat case_cmp; cbn; try done; lia. }
  assert (forall a, ~ f + 0xC0000000 <= a < f + 0xC0000000 + PAGE_SIZE -> m1 !! a = memory w !! a) as Hout.
  { intros a Ha. rewrite (proj2 W1). repeat case_cmp; cbn; try done; lia. }
  destruct (copy_page_spec (memory w0) m1 (f + 0xC0000000) p file size ph Hgs (proj1 W1)) as (m2 & E2 & Hok2 & Hseg & Hout2);
    try done.
  { apply (written_mapped (memory w) m1 (f + 0xC0000000) PAGE_SIZE (fun _ => Some (u8 0))); eauto. }
  { intros a Ha. rewrite Hout by lia. by apply (loaded_file w0 w file size). }
  rewrite (bind_eq _ _ _ E2). set (w' := paging_map_in _ _ _). exists true, w'. split; [done|].
  assert (forall x, fs_used (frames w) x -> fs_used (frames w') x) as Hmono by (intros x ?; cbn; apply Hadd; by left).
  assert (taken (frames w0) (frames w') f) as Hfresh by (constructor; [cbn; apply Hadd; by right|done|done|done]).
  assert (forall a, ~ f + 0xC0000000 <= a < f + 0xC0000000 + PAGE_SIZE -> memory w' !! a = memory w !! a) as Hout3.
  { intros a Ha. cbn. rewrite Hout2, Hout by done. done. }
  assert (forall g, taken (frames w0) (frames w') g -> g <> f -> taken (frames w0) (frames w) g) as Hback.
  { intros g [G1 G2 G3 G4] Hne. constructor; try done. cbn in G1. apply Hadd in G1 as [?|?]; done. }
  assert (forall q, page_directory w !! q <> Some f) as Hnf.
  { intros q Hq. destruct (L5 q f Hq) as [Hq0|[[Hu _ _ _] _]]; [|done]. by apply Hn0, (su_pd _ _ _ Hsu q). }
  split; [|split].
  - constructor; cbn; try done.
    + intros x ?. by apply Hmono, L3.
    + intros a. destruct (decide (f + 0xC0000000 <= a < f + 0xC0000000 + PAGE_SIZE)) as [Ha|Ha]; [right; by exists f|].
      change m2 with (memory w'). rewrite Hout3 by done. destruct (L4 a) as [?|(g & Hg & ?)]; [by left|right].
      exists g. split; [by apply (taken_mono _ (frames w))|done].
    + intros q g Hq. destruct (decide (q = p)) as [->|Hqp].
      * rewrite lookup_insert_eq in Hq. injection Hq as <-. by right.
      * rewrite lookup_insert_ne in Hq by done. destruct (L5 q g Hq) as [?|(Hg & ?)]; [by left|right].
        split; [by apply (taken_mono _ (frames w))|done].
    + intros q1 q2 g Hq1 Hq2 Hg. destruct (decide (g = f)) as [->|Hgf].
      * assert (forall q, <[p := f]> (page_directory w) !! q = Some f -> q = p) as Honly.
        { intros q Hq. destruct (decide (q = p)) as [->|?]; [done|]. rewrite lookup_insert_ne in Hq by done.
          by apply Hnf in Hq. }
        by rewrite (Honly q1), (Honly q2).
      * assert (forall q, <[p := f]> (page_directory w) !! q = Some g -> page_directory w !! q = Some g) as Hold.
        { intros q Hq. destruct (decide (q = p)) as [->|?]; [rewrite lookup_insert_eq in Hq; congruence|].
          by rewrite lookup_insert_ne in Hq. }
        apply (L6 q1 q2 g); auto.
    + intros b k Hb. destruct (L7 b k Hb) as (B1 & B2 & B3). split_and!; [done|done|]. intros i Hi.
      destruct (decide (f + 0xC0000000 <= b + i < f + 0xC0000000 + PAGE_SIZE)) as [Ha|Ha].
      * replace (b + i) with (f + 0xC0000000 + (b + i - (f + 0xC0000000))) by lia. rewrite Hseg by lia.
        unfold segment_byte. destruct (_ && _) eqn:Ej; [|by eexists].
        apply andb_true_iff in Ej as [?%Z.leb_le ?%Z.ltb_lt]. destruct Hgs as [G1 G2 G3 G4 G5 (_ & _ & G6)].
        rewrite <- Z.add_assoc. apply G6. lia.
      * change m2 with (memory w'). rewrite Hout3 by done. by apply B3.
  - exists f. cbn. rewrite lookup_insert_eq. by split_and!.
  - intros q pq Hqp (g & Hg & Hgf & Hgb). exists g. cbn. rewrite lookup_insert_ne by done.
    split; [done|]. split; [by apply (taken_mono _ (frames w))|]. intros j Hj. change m2 with (memory w').
    assert (g <> f) as Hne by (intros ->; by apply Hnf in Hg).
    destruct (frames_apart g f (fr_page _ _ _ Hgf) Hfm Hne); rewrite Hout3 by (unfold KERNEL_VMA, PAGE_SIZE in *; lia); by apply Hgb.
Qed.

(** Frames ran out after [w0]. *)
Definition exhausted (w0 w : process) : Prop :=
  exists s, fs_ok s /\ (forall x, fs_used (frames w0) x -> fs_used s x) /\ fs_alloc s = Some (0, frames w).

Lemma load_pages_inv w0 file size s ph k : setup w0 file size -> good_segment (memory w0) file size ph ->
  0 <= s -> s mod PAGE_SIZE = 0 ->
  forall i w, loaded w0 w -> 0 <= i -> s + (i + Z.of_nat k) * PAGE_SIZE <= USER_SPACE_LIMIT ->
  exists ok w', load_pages k w ph file s (i * PAGE_SIZE) = Some (ok, w') /\ loaded w0 w' /\
    if ok : bool then
      (forall j, i <= j < i + Z.of_nat k -> page_has w0 w' file (s + j * PAGE_SIZE) ph) /\
      forall q pq, (forall j, i <= j < i + Z.of_nat k -> q <> s + j * PAGE_SIZE) ->
        page_has w0 w file q pq -> page_has w0 w' file q pq
    else exhausted w0 w'.
Proof.
  intros Hsu Hgs Hs Hsm. induction k as [|k IH]; intros i w Hl Hi Hlim; cbn [load_pages].
  { exists true, w. split; [done|]. split; [done|]. split; [lia|done]. }
  rewrite Nat2Z.inj_succ in *. unfold USER_SPACE_LIMIT, PAGE_SIZE in *.
  rewrite (u32_small (s + i * 4096)), (u32_small (i * 4096 + 4096)) by lia.
  replace (i * 4096 + 4096) with ((i + 1) * 4096) by lia.
  destruct (load_page_inv w0 w file size (s + i * 4096) ph Hsu Hl Hgs) as (ok & w1 & E & Hl1 & Hr);
    [lia|unfold PAGE_SIZE; zlia|unfold USER_SPACE_LIMIT, PAGE_SIZE; lia|].
  run_bind E. destruct ok.
  - destruct Hr as [Hnew Hold]. destruct (IH (i + 1) w1 Hl1) as (ok & w' & E' & Hl' & Hr'); [lia|lia|].
    exists ok, w'. split; [exact E'|]. split; [done|]. destruct ok; [|done]. destruct Hr' as [Hn' Ho']. split.
    + intros j Hj. destruct (decide (j = i)) as [->|Hne]; [|apply Hn'; lia]. apply Ho'; [|done]. intros j' Hj' ?. lia.
    + intros q pq Hq Hp. apply Ho'; [intros j Hj; apply Hq; lia|]. apply Hold; [apply Hq; lia|done].
  - destruct Hr as (fr & Hfr). exists false, w1. split; [done|]. split; [done|].
    exists (frames w). split; [exact (ld_frames _ _ Hl)|]. split; [exact (ld_mono _ _ Hl)|].
    unfold load_page in E. rewrite (bind_eq _ _ _ Hfr) in E. cbn in E. injection E as <-. exact Hfr.
Qed.

(** The pages a segment is loaded on. *)
Definition spans (ph : elf_phdr_t) (p : Z) : Prop :=
  p mod PAGE_SIZE = 0 /\ vaddr ph - vaddr ph mod PAGE_SIZE <= p < vaddr ph + memsz ph.

Lemma load_segment_inv node w0 w file size ph : setup w0 file size -> loaded w0 w ->
  good_segment (memory w0) file size ph ->
  exists ok w', load_segment node w ph file = Some (ok, w') /\ loaded w0 w' /\
    if ok : bool then (forall p, spans ph p -> page_has w0 w' file p ph) /\
      forall q pq, ~ spans ph q -> page_has w0 w file q pq -> page_has w0 w' file q pq
    else exhausted w0 w'.
Proof.
  intros Hsu Hl Hgs. pose proof Hgs as [H1 H2 H3 H4 H5 H6]. unfold load_segment, USER_SPACE_LIMIT in *.
  rewrite ALIGN_DOWN_page, (u32_small (vaddr ph + memsz ph)) by (unfold is_u32; lia).
  rewrite ALIGN_UP_page by lia. cbn zeta.
  set (s := vaddr ph - vaddr ph mod PAGE_SIZE). set (e := vaddr ph + memsz ph + _).
  assert (s mod PAGE_SIZE = 0 /\ 0 <= s <= vaddr ph) as [Hsm Hs] by (subst s; unfold PAGE_SIZE; split; zlia).
  assert (e mod PAGE_SIZE = 0 /\ s <= e <= 0xC0000000 /\ vaddr ph + memsz ph <= e < vaddr ph + memsz ph + PAGE_SIZE)
    as (Hem & He & He2) by (subst e; unfold PAGE_SIZE in *; split_and!; zlia).
  rewrite (u32_small (e - s)) by lia. set (n := (e - s) / PAGE_SIZE).
  assert (e = s + n * PAGE_SIZE /\ 0 <= n) as [Hen Hn] by (subst n; unfold PAGE_SIZE in *; split; zlia).
  destruct (load_pages_inv w0 file size s ph (Z.to_nat n) Hsu Hgs (proj1 Hs) Hsm 0
    (with_regions w (snd (vregion_insert node (vm_regions w) s n segment_flags)))) as (ok & w' & E & Hl' & Hr);
    [destruct Hl; by constructor|lia|unfold USER_SPACE_LIMIT; rewrite Z2Nat.id by lia; lia|].
  exists ok, w'. split; [exact E|]. split; [done|]. destruct ok; [|done]. destruct Hr as [Hn' Ho].
  rewrite Z2Nat.id in Hn', Ho by lia. split.
  - intros p [Hp1 Hp2]. replace p with (s + (p - s) / PAGE_SIZE * PAGE_SIZE) by (fold s in Hp2; unfold PAGE_SIZE in *; zlia).
    apply Hn'. fold s in Hp2. unfold PAGE_SIZE in *. zlia.
  - intros q pq Hq Hp. apply Ho; [|done]. intros j Hj ->. apply Hq. unfold spans. fold s. unfold PAGE_SIZE in *.
    split; zlia.
Qed.

(** ** The file's tables *)

Lemma load8_range m a v : bytes_ok m -> load8 m a = Some v -> 0 <= v < 0x100.
Proof. intros Hok. apply Hok. Qed.

Lemma load32_range m a v : bytes_ok m -> load32 m a = Some v -> 0 <= v < 0x100000000.
Proof.
  intros Hok. unfold load32.
  destruct (load8 m a) as [b0|] eqn:E0; [cbn|done]. destruct (load8 m (a + 1)) as [b1|] eqn:E1; [cbn|done].
  destruct (load8 m (a + 2)) as [b2|] eqn:E2; [cbn|done]. destruct (load8 m (a + 3)) as [b3|] eqn:E3; [cbn|done].
  intros [= <-]. apply load8_range in E0, E1, E2, E3; try done. lia.
Qed.

Lemma load16_range m a v : bytes_ok m -> load16 m a = Some v -> 0 <= v < 0x10000.
Proof.
  intros Hok. unfold load16.
  destruct (load8 m a) as [b0|] eqn:E0; [cbn|done]. destruct (load8 m (a + 1)) as [b1|] eqn:E1; [cbn|done].
  intros [= <-]. apply load8_range in E0, E1; try done. lia.
Qed.

Lemma load8_total m a : 0 <= a < 0x100000000 -> is_Some (m !! a) -> is_Some (load8 m a).
Proof. intros. unfold load8. by rewrite u32_small. Qed.

Lemma load16_total m a : mapped m a 2 -> is_Some (load16 m a).
Proof.
  intros Hm. unfold load16. destruct (load8_mapped m a 2 0 Hm) as (b0 & E0 & _); [lia|].
  destruct (load8_mapped m a 2 1 Hm) as (b1 & E1 & _); [lia|]. rewrite Z.add_0_r in E0.
  by rewrite E0, E1.
Qed.

Lemma load32_total m a : mapped m a 4 -> is_Some (load32 m a).
Proof.
  intros Hm. unfold load32. destruct (load8_mapped m a 4 0 Hm) as (b0 & E0 & _); [lia|].
  destruct (load8_mapped m a 4 1 Hm) as (b1 & E1 & _); [lia|]. destruct (load8_mapped m a 4 2 Hm) as (b2 & E2 & _); [lia|].
  destruct (load8_mapped m a 4 3 Hm) as (b3 & E3 & _); [lia|]. rewrite Z.add_0_r in E0.
  by rewrite E0, E1, E2, E3.
Qed.

(** The same bytes give the same dword. *)
Lemma load32_same m m' a : 0 <= a -> a + 4 <= 0x100000000 -> (forall b, a <= b < a + 4 -> m' !! b = m !! b) ->
  load32 m' a = load32 m a.
Proof. intros H0 H1 H. unfold load32, load8. rewrite !u32_small, !H by lia. done. Qed.

Lemma read_phdr_same m m' pb i : 0 <= pb + 32 * i -> pb + 32 * i + 32 <= 0x100000000 ->
  (forall b, pb + 32 * i <= b < pb + 32 * i + 32 -> m' !! b = m !! b) ->
  read_phdr m' pb i = read_phdr m pb i.
Proof.
  intros H0 H1 H. unfold read_phdr, sizeof_elf_phdr.
  rewrite !(load32_same m m') by (try lia; intros; apply H; lia). done.
Qed.

(** The bytes of the [n] headers at [pb] lie in the file. *)
Definition table_inside (pb n file size : Z) : Prop :=
  0 <= n /\ file <= pb /\ pb + sizeof_elf_phdr * n <= file + size /\ file + size < 0x100000000.

(** A header read while loading is the file's own, with 32-bit fields. *)
Lemma read_phdr_in w0 w file size pb n i : setup w0 file size -> loaded w0 w ->
  table_inside pb n file size -> 0 <= i < n ->
  exists ph, read_phdr (memory w) pb i = Some ph /\ read_phdr (memory w0) pb i = Some ph /\
    is_u32 (vaddr ph) /\ is_u32 (memsz ph) /\ is_u32 (filesz ph) /\ is_u32 (offset ph).
Proof.
  unfold table_inside, sizeof_elf_phdr. intros Hsu Hl (Hn & Hp1 & Hp2 & Hp3) Hi.
  pose proof (su_file _ _ _ Hsu) as Hm. destruct Hm as (Hf0 & Hf1 & Hf2).
  rewrite (read_phdr_same (memory w0) (memory w)); [|lia|lia|intros b Hb; apply (loaded_file w0 w file size); [done|done|lia]].
  assert (forall k, 0 <= k <= 28 -> exists v, load32 (memory w0) (pb + 32 * i + k) = Some v /\ is_u32 v) as Hfield.
  { intros k Hk. destruct (load32_total (memory w0) (pb + 32 * i + k)) as [v Hv].
    - apply (mapped_part _ file size); [split_and!; done|lia..].
    - exists v. split; [done|]. by apply (load32_range _ _ _ (su_bytes _ _ _ Hsu) Hv). }
  unfold read_phdr, sizeof_elf_phdr.
  destruct (Hfield 0) as (v0 & E0 & _), (Hfield 4) as (v1 & E1 & ?), (Hfield 8) as (v2 & E2 & ?),
    (Hfield 12) as (v3 & E3 & _), (Hfield 16) as (v4 & E4 & ?), (Hfield 20) as (v5 & E5 & ?),
    (Hfield 24) as (v6 & E6 & _), (Hfield 28) as (v7 & E7 & _); try lia.
  rewrite Z.add_0_r in E0. rewrite E0, E1, E2, E3, E4, E5, E6, E7. eexists. by split_and!.
Qed.

(** What [segment_is_sane] says of a header with 32-bit fields. *)
Lemma segment_is_sane_spec ph size : is_u32 (vaddr ph) -> is_u32 (memsz ph) -> is_u32 (filesz ph) ->
  is_u32 (offset ph) ->
  segment_is_sane ph size = true <->
  vaddr ph + memsz ph <= USER_SPACE_LIMIT /\ filesz ph <= memsz ph /\ offset ph + filesz ph <= size.
Proof.
  unfold is_u32, USER_SPACE_LIMIT. intros Hv Hm Hf Ho. unfold segment_is_sane, USER_SPACE_LIMIT.
  rewrite (u64_small (offset ph + filesz ph)) by lia.
  destruct (Z.lt_ge_cases (vaddr ph + memsz ph) 0x100000000).
  - rewrite u32_small by lia. repeat case_cmp; cbn; split; try done; lia.
  - assert (vaddr ph ⊞ memsz ph = vaddr ph + memsz ph - 0x100000000) as -> by (unfold u32; zlia).
    repeat case_cmp; cbn; split; try done; lia.
Qed.

Definition seg_end (ph : elf_phdr_t) : Z := vaddr ph + memsz ph.

(** Segment [i] of the table at [pb] of the file [w0] starts with. *)
Definition segment_at (w0 : process) (pb i : Z) (ph : elf_phdr_t) : Prop :=
  read_phdr (memory w0) pb i = Some ph /\ skipped ph = false.

(** The result of the loop from segment [i] to [n], when it got [b] as the break. *)
Definition segments_loaded (w0 w' : process) (pb file size i n brk b : Z) : Prop :=
  brk <= b /\
  (b = brk \/ exists j ph, i <= j < n /\ segment_at w0 pb j ph /\ b = seg_end ph) /\
  forall j ph, i <= j < n -> segment_at w0 pb j ph ->
    segment_is_sane ph size = true /\ seg_end ph <= b /\
    forall p, spans ph p -> (forall j' ph', j < j' < n -> segment_at w0 pb j' ph' -> ~ spans ph' p) ->
      page_has w0 w' file p ph.

Lemma segments_loaded_skip w0 w' pb file size i n brk b : i < n ->
  (forall ph, ~ segment_at w0 pb i ph) -> segments_loaded w0 w' pb file size (i + 1) n brk b ->
  segments_loaded w0 w' pb file size i n brk b.
Proof.
  intros Hi Hno (H1 & H2 & H3). split_and!; [done| |].
  - destruct H2 as [->|(j & ph & ? & ? & ?)]; [by left|right; exists j, ph; split_and!; try done; lia].
  - intros j ph Hj Hs. apply H3; [|done]. destruct (decide (j = i)) as [->|]; [by apply Hno in Hs|lia].
Qed.

Lemma load_segments_inv node w0 file size pb n : setup w0 file size -> table_inside pb n file size ->
  forall k i w brk, loaded w0 w -> 0 <= i -> n = i + Z.of_nat k -> 0 <= brk ->
  exists r w', load_segments k node w pb file size i brk = Some (r, w') /\ loaded w0 w' /\
    match r with
    | Some b => segments_loaded w0 w' pb file size i n brk b /\
        forall q pq, (forall j ph, i <= j < n -> segment_at w0 pb j ph -> ~ spans ph q) ->
          page_has w0 w file q pq -> page_has w0 w' file q pq
    | None => (exists j ph, i <= j < n /\ segment_at w0 pb j ph /\ segment_is_sane ph size = false) \/ exhausted w0 w'
    end.
Proof.
  intros Hsu Htab. induction k as [|k IH]; intros i w brk Hl Hi Hn Hb; cbn [load_segments].
  { exists (Some brk), w. split; [done|]. split; [done|]. split; [|done].
    split_and!; [lia|by left|intros; lia]. }
  destruct (read_phdr_in w0 w file size pb n i Hsu Hl Htab) as (ph & E & E0 & Hv & Hm & Hf & Ho); [lia|].
  run_bind E. destruct (skipped ph) eqn:Esk.
  { destruct (IH (i + 1) w brk Hl) as (r & w' & E' & Hl' & Hr); [lia|lia|lia|].
    exists r, w'. split; [exact E'|]. split; [done|]. destruct r as [b|].
    - destruct Hr as [Hr Ho']. split; [|intros q pq Hq; apply Ho'; intros j ph' Hj; apply Hq; lia].
      apply segments_loaded_skip; [lia| |done]. intros ph' [Hp' ?]. congruence.
    - destruct Hr as [(j & ph' & ? & ?)|?]; [left; exists j, ph'; split; [lia|done]|by right]. }
  assert (segment_at w0 pb i ph) as Hat by done.
  pose proof (segment_is_sane_spec ph size Hv Hm Hf Ho) as Hsane.
  destruct (segment_is_sane ph size) eqn:Es; cbn [negb].
  2: { exists None, w. split; [done|]. split; [done|]. left. exists i, ph. split_and!; try done; lia. }
  apply proj1 in Hsane. destruct (Hsane eq_refl) as (S1 & S2 & S3). clear Hsane.
  assert (good_segment (memory w0) file size ph) as Hgs.
  { unfold is_u32 in *. constructor; try done; try lia. exact (su_file _ _ _ Hsu). }
  destruct (load_segment_inv node w0 w file size ph Hsu Hl Hgs) as (ok & w1 & E1 & Hl1 & Hr1).
  run_bind E1. destruct ok; cbn [negb].
  2: { exists None, w1. split; [done|]. split; [done|]. by right. }
  destruct Hr1 as [Hnew Hold]. unfold USER_SPACE_LIMIT, is_u32 in *. rewrite (u32_small (vaddr ph + memsz ph)) by lia.
  fold (seg_end ph). set (b1 := if brk <? seg_end ph then seg_end ph else brk).
  assert (brk <= b1 /\ seg_end ph <= b1 /\ (b1 = brk \/ b1 = seg_end ph)) as (B1 & B2 & B3).
  { subst b1. case_cmp; split_and!; try lia; (left; lia) || (right; lia). }
  destruct (IH (i + 1) w1 b1 Hl1) as (r & w' & E' & Hl' & Hr); [lia|lia|lia|].
  exists r, w'. split; [exact E'|]. split; [done|]. destruct r as [b|].
  - destruct Hr as [(R1 & R2 & R3) Ho']. split.
    + split_and!; [lia| |].
      * destruct R2 as [->|(j & ph' & ? & ? & ?)]; [|right; exists j, ph'; split_and!; try done; lia].
        destruct B3 as [->| ->]; [left; done|right]. exists i, ph. split_and!; try done; lia.
      * intros j ph' Hj Hs. destruct (decide (j = i)) as [->|Hne].
        -- assert (ph' = ph) as -> by (destruct Hs; congruence). split_and!; [done|lia|].
           intros p Hp Hlater. apply Ho'; [intros j' ph' Hj'; apply Hlater; lia|by apply Hnew].
        -- destruct (R3 j ph') as (? & ? & R4); [lia|done|]. by split_and!.
    + intros q pq Hq Hp. apply Ho'; [intros j ph' Hj; apply Hq; lia|]. apply Hold; [|done]. by apply (Hq i); [lia|].
  - destruct Hr as [(j & ph' & ? & ?)|?]; [left; exists j, ph'; split; [lia|done]|by right].
Qed.

Lemma read_header_in m a n : bytes_ok m -> mapped m a n -> sizeof_elf_header <= n ->
  exists h, read_header m a = Some h /\ is_u32 (phoff h) /\ 0 <= phnum h < 0x10000 /\ is_u32 (entry h).
Proof.
  unfold sizeof_elf_header. intros Hok Hm Hn.
  assert (forall k, 0 <= k <= n - 4 -> exists v, load32 m (a + k) = Some v /\ is_u32 v) as H32.
  { intros k Hk. destruct (load32_total m (a + k)) as [v Hv]; [apply (mapped_part m a n); [done|lia..]|].
    exists v. split; [done|]. by apply (load32_range m (a + k)). }
  assert (forall k, 0 <= k <= n - 2 -> exists v, load16 m (a + k) = Some v /\ 0 <= v < 0x10000) as H16.
  { intros k Hk. destruct (load16_total m (a + k)) as [v Hv]; [apply (mapped_part m a n); [done|lia..]|].
    exists v. split; [done|]. by apply (load16_range m (a + k)). }
  assert (forall k, 0 <= k < n -> exists v, load8 m (a + k) = Some v) as H8.
  { intros k Hk. destruct (load8_mapped m a n k Hm Hk) as (v & Hv & _). by exists v. }
  unfold read_header. destruct (H32 0) as (v0 & E0 & _); [lia|]. rewrite Z.add_0_r in E0. run_bind E0.
  destruct (H8 4) as (v1 & E1); [lia|]. run_bind E1. destruct (H8 5) as (v2 & E2); [lia|]. run_bind E2.
  destruct (H8 6) as (v3 & E3); [lia|]. run_bind E3. destruct (H8 7) as (v4 & E4); [lia|]. run_bind E4.
  destruct (H16 16) as (v5 & E5 & _); [lia|]. run_bind E5. destruct (H16 18) as (v6 & E6 & _); [lia|]. run_bind E6.
  destruct (H32 20) as (v7 & E7 & _); [lia|]. run_bind E7. destruct (H32 24) as (v8 & E8 & Hen); [lia|]. run_bind E8.
  destruct (H32 28) as (v9 & E9 & Hpo); [lia|]. run_bind E9. destruct (H32 32) as (v10 & E10 & _); [lia|]. run_bind E10.
  destruct (H32 36) as (v11 & E11 & _); [lia|]. run_bind E11. destruct (H16 40) as (v12 & E12 & _); [lia|]. run_bind E12.
  destruct (H16 42) as (v13 & E13 & _); [lia|]. run_bind E13. destruct (H16 44) as (v14 & E14 & Hpn); [lia|]. run_bind E14.
  eexists. split; [reflexivity|]. exact (conj Hpo (conj Hpn Hen)).
Qed.

(** The byte the process sees at [va]. *)
Definition user_byte (w : process) (va : Z) : option Z :=
  f ← page_directory w !! (va - va mod PAGE_SIZE); memory w !! (f + KERNEL_VMA + va mod PAGE_SIZE).

Lemma page_has_byte w0 w file ph va :
  page_has w0 w file (va - va mod PAGE_SIZE) ph -> user_byte w va = segment_byte (memory w0) file ph va.
Proof.
  intros (f & Hf & _ & Hb). unfold user_byte. rewrite Hf. cbn. rewrite Hb by (unfold PAGE_SIZE; zlia).
  f_equal. lia.
Qed.

(** [va] lies on a page of the segment. *)
Definition covers (ph : elf_phdr_t) (va : Z) : Prop := spans ph (va - va mod PAGE_SIZE).

Lemma covers_own ph va : vaddr ph <= va < seg_end ph -> covers ph va.
Proof. unfold covers, spans, seg_end, PAGE_SIZE. intros. split; zlia. Qed.

(** What a successful load promises: the entry point and the break of the file, every
    segment sane and below the break, and every byte of a segment's pages that no later
    segment was loaded over reads as the file's byte where the segment has one, else 0. *)
Definition load_promise (w0 w' : process) (file size : Z) (r : elf_load_result_t) : Prop :=
  exists h b, read_header (memory w0) file = Some h /\ header_fits h size = true /\ entry_point r = entry h /\
    brk r = b + (- b) mod PAGE_SIZE /\
    (b = 0 \/ exists i ph, 0 <= i < phnum h /\ segment_at w0 (file + phoff h) i ph /\ b = seg_end ph) /\
    forall i ph, 0 <= i < phnum h -> segment_at w0 (file + phoff h) i ph ->
      segment_is_sane ph size = true /\ seg_end ph <= b /\
      forall va, covers ph va ->
        (forall j ph', i < j < phnum h -> segment_at w0 (file + phoff h) j ph' -> ~ covers ph' va) ->
        user_byte w' va = segment_byte (memory w0) file ph va.

(** Why a load failed. *)
Definition load_refused (w0 w' : process) (file size : Z) : Prop :=
  header_is_valid (memory w0) file size = Some false \/
  (exists h i ph, read_header (memory w0) file = Some h /\ 0 <= i < phnum h /\
     segment_at w0 (file + phoff h) i ph /\ segment_is_sane ph size = false) \/
  exhausted w0 w'.

Lemma elf_load_spec node w0 file size : setup w0 file size ->
  (forall h, read_header (memory w0) file = Some h -> phoff h + sizeof_elf_phdr * phnum h < 0x100000000) ->
  exists r w', elf_load node w0 file size = Some (r, w') /\ loaded w0 w' /\
    (forall a, file <= a < file + size -> memory w' !! a = memory w0 !! a) /\
    if success r then load_promise w0 w' file size r else r = failed /\ load_refused w0 w' file size.
Proof.
  intros Hsu Hwrap. pose proof (loaded_refl w0 file size Hsu) as Hl0. pose proof (su_file _ _ _ Hsu) as (Hf0 & Hf1 & _).
  assert (forall w', loaded w0 w' -> forall a, file <= a < file + size -> memory w' !! a = memory w0 !! a) as Hfile.
  { intros w' Hl a Ha. by apply (loaded_file w0 w' file size). }
  unfold elf_load. destruct (header_is_valid (memory w0) file size) as [valid|] eqn:Ev.
  2: { exfalso. unfold header_is_valid in Ev. destruct (Z.ltb_spec size sizeof_elf_header); [done|].
       destruct (read_header_in (memory w0) file size (su_bytes _ _ _ Hsu) (su_file _ _ _ Hsu)) as (h & E & _); [lia|].
       by rewrite E in Ev. }
  cbn. destruct valid; cbn [negb].
  2: { exists failed, w0. split; [done|]. split; [done|]. split; [by apply Hfile|]. split; [done|]. by left. }
  unfold header_is_valid in Ev. destruct (Z.ltb_spec size sizeof_elf_header) as [|Hsz]; [done|].
  destruct (read_header_in (memory w0) file size (su_bytes _ _ _ Hsu) (su_file _ _ _ Hsu) Hsz) as (h & E & Hpo & Hpn & _).
  rewrite E in Ev. cbn in Ev. injection Ev as Ev. run_bind E. specialize (Hwrap h E).
  pose proof Ev as Hfits. unfold header_fits, sizeof_elf_phdr, is_u32 in Ev, Hwrap, Hpo, Hpn.
  apply andb_true_iff in Ev as [_ Ev%Z.leb_le].
  rewrite (u32_small (phnum h * 32)), u32_small in Ev by lia.
  rewrite (u32_small (file + phoff h)) by lia.
  assert (table_inside (file + phoff h) (phnum h) file size) as Htab
    by (unfold table_inside, sizeof_elf_phdr; split_and!; lia).
  destruct (load_segments_inv node w0 file size _ _ Hsu Htab (Z.to_nat (phnum h)) 0 w0 0 Hl0) as (r & w' & E' & Hl' & Hr);
    [lia|lia|lia|].
  run_bind E'. destruct r as [b|].
  - destruct Hr as [(R1 & R2 & R3) _]. eexists _, w'. split; [done|]. split; [done|]. split; [by apply Hfile|].
    cbn [success]. exists h, b. split_and!; try done.
    + cbn. apply ALIGN_UP_page. destruct R2 as [->|(j & ph & Hj & Hs & ->)]; [lia|].
      destruct (R3 j ph Hj Hs) as (Hsane & _). destruct Hs as [Hs _].
      destruct (read_phdr_in w0 w0 file size _ _ j Hsu Hl0 Htab Hj) as (ph' & Eph & _ & ? & ? & ? & ?).
      assert (ph' = ph) as -> by congruence. apply segment_is_sane_spec in Hsane; try done.
      unfold seg_end, USER_SPACE_LIMIT, is_u32 in *. lia.
    + intros i ph Hi Hs. destruct (R3 i ph Hi Hs) as (S1 & S2 & S3). split_and!; [done|done|].
      intros va Hva Hlater. by apply page_has_byte, S3.
  - exists failed, w'. split; [done|]. split; [done|]. split; [by apply Hfile|]. split; [done|].
    destruct Hr as [(j & ph & ? & ? & ?)|?]; [right; left; by exists h, j, ph|right; by right].
Qed.


(** Two segments on one page: the later one's frame replaces the earlier one's, whose bytes are
    lost though both segments passed the checks. *)
Remark second_segment_drops_first node w0 file size r w' h i j ph1 ph2 va : setup w0 file size ->
  elf_load node w0 file size = Some (r, w') -> success r = true ->
  read_header (memory w0) file = Some h -> phoff h + sizeof_elf_phdr * phnum h < 0x100000000 ->
  0 <= i < j -> j < phnum h -> segment_at w0 (file + phoff h) i ph1 -> segment_at w0 (file + phoff h) j ph2 ->
  vaddr ph1 <= va < seg_end ph1 -> covers ph2 va -> ~ vaddr ph2 <= va < vaddr ph2 + filesz ph2 ->
  (forall k ph', j < k < phnum h -> segment_at w0 (file + phoff h) k ph' -> ~ covers ph' va) ->
  segment_is_sane ph1 size = true /\ segment_is_sane ph2 size = true /\ covers ph1 va /\ user_byte w' va = Some 0.
Proof.
  intros Hsu E Hs Eh Hwrap Hi Hj H1 H2 Hva Hc Hout Hlast.
  destruct (elf_load_spec node w0 file size Hsu) as (r' & w2 & E' & _ & _ & Hp); [intros h' Hh'; congruence|].
  rewrite E in E'. injection E' as <- <-. rewrite Hs in Hp. destruct Hp as (h' & b & Eh' & _ & _ & _ & _ & Hseg).
  assert (h' = h) as -> by congruence. destruct (Hseg i ph1) as (S1 & _); [lia|done|].
  destruct (Hseg j ph2) as (S2 & _ & Hb); [lia|done|]. split_and!; try done; [by apply covers_own|].
  rewrite (Hb va Hc Hlast). unfold segment_byte. destruct (_ && _) eqn:Eb; [|done].
  apply andb_true_iff in Eb as [?%Z.leb_le ?%Z.ltb_lt]. lia.
Qed.

End Loader.

(** ** The physical allocator as the source of frames *)

(** An address counts as used unless it is the start of a frame whose bit is clear. *)
Definition pmm_frame_used (s : pmm) (x : Z) : Prop := x mod PAGE_SIZE <> 0 \/ used s (x / PAGE_SIZE) = true.

Definition pmm_source_ok (s : pmm) : Prop :=
  wf_pmm s /\ s_alloc_ceiling_frame s * PAGE_SIZE <= DIRECT_MAP_LIMIT.

Lemma pmm_alloc_fresh s : pmm_source_ok s -> exists f s', pmm_alloc_frame s PMM_ZONE_ANY = Some (f, s') /\
  pmm_source_ok s' /\
  ((f = 0 /\ forall x, pmm_frame_used s' x <-> pmm_frame_used s x) \/
   (0 < f /\ f + PAGE_SIZE <= DIRECT_MAP_LIMIT /\ f mod PAGE_SIZE = 0 /\ ~ pmm_frame_used s f /\
    forall x, pmm_frame_used s' x <-> pmm_frame_used s x \/ x = f)).
Proof.
  intros [Hwf Hc]. destruct (alloc_frame_served s PMM_ZONE_ANY Hwf) as (r & s' & E & Hwf' & Hs).
  exists r, s'. split; [done|]. pose proof (zones_of_in s PMM_ZONE_ANY Hwf) as Hz. clear E.
  induction Hs as [z zs Ht|z zs _ _ IH|Hr Hss].
  - inversion_clear Hz as [|? ? [Hz1 Hz2] _]. destruct Ht as (f & Hf & Hu & -> & Hch & _).
    unfold pmm_source_ok. rewrite (fc_ceiling _ _ _ _ Hch). split; [done|]. right. unfold pmm_frame_used.
    unfold PAGE_SIZE in *. split_and!; [lia|lia|zlia| |].
    + rewrite Z.div_mul by done. intros [?|?]; [zlia|congruence].
    + intros x. rewrite (fc_bits _ _ _ _ Hch). destruct (Z.eqb_spec (x / 4096) f) as [Hx|Hx].
      * split; [|intros _; by right]. intros _.
        destruct (decide (x mod 4096 = 0)); [right; zlia|left; by left].
      * split; [by left|]. intros [?| ->]; [done|]. by rewrite Z.div_mul in Hx.
  - inversion_clear Hz. auto.
  - subst. split; [done|]. by left.
Qed.

#[export] Instance pmm_frame_source : FrameSource pmm := {
  fs_alloc s := pmm_alloc_frame s PMM_ZONE_ANY;
  fs_used := pmm_frame_used;
  fs_ok := pmm_source_ok;
  fs_alloc_spec := pmm_alloc_fresh
}.

(** ** Small files *)

(** A pool of given frames. *)
Definition pool_ok (l : list Z) : Prop :=
  NoDup l /\ Forall (fun f => 0 < f /\ f + PAGE_SIZE <= DIRECT_MAP_LIMIT /\ f mod PAGE_SIZE = 0) l.

Definition pool_take (l : list Z) : option (Z * list Z) :=
  Some (match l with [] => (0, []) | f :: r => (f, r) end).

Lemma pool_take_fresh l : pool_ok l -> exists f l', pool_take l = Some (f, l') /\ pool_ok l' /\
  ((f = 0 /\ forall x, x ∉ l' <-> x ∉ l) \/
   (0 < f /\ f + PAGE_SIZE <= DIRECT_MAP_LIMIT /\ f mod PAGE_SIZE = 0 /\ ~ (f ∉ l) /\
    forall x, x ∉ l' <-> x ∉ l \/ x = f)).
Proof.
  intros [Hd Hf]. destruct l as [|f l]; cbn.
  - exists 0, []. split; [done|]. split; [done|]. by left.
  - apply NoDup_cons in Hd as [Hn Hd]. inversion_clear Hf as [|? ? [H1 [H2 H3]] Hf'].
    exists f, l. split; [done|]. split; [done|]. right. split_and!; try done.
    + intros Hx. apply Hx. left.
    + intros y. rewrite not_elem_of_cons. destruct (decide (y = f)) as [->|]; naive_solver.
Qed.

Definition pool_source : FrameSource (list Z) := {|
  fs_alloc := pool_take; fs_used l x := x ∉ l; fs_ok := pool_ok; fs_alloc_spec := pool_take_fresh
|}.

Definition le32 (v : Z) : list Z := [u8 v; u8 (Z.shiftr v 8); u8 (Z.shiftr v 16); u8 (Z.shiftr v 24)].
Definition le16 (v : Z) : list Z := [u8 v; u8 (Z.shiftr v 8)].

Definition demo_header (phoff phnum : Z) : list Z :=
  le32 ELF_MAGIC ++ [1; 1; 1; 0] ++ replicate 8 0 ++ le16 ET_EXEC ++ le16 EM_386 ++
  le32 1 ++ le32 0x8048000 ++ le32 phoff ++ le32 0 ++ le32 0 ++ le16 46 ++ le16 32 ++ le16 phnum.

Definition demo_phdr (off va fsz msz : Z) : list Z :=
  le32 PT_LOAD ++ le32 off ++ le32 va ++ le32 va ++ le32 fsz ++ le32 msz ++ le32 5 ++ le32 0x1000.

Definition place (a : Z) (l : list Z) : mem := list_to_map (zip (seqZ a (Z.of_nat (length l))) l).

Lemma place_cons a x l : place a (x :: l) = <[a := x]> (place (a + 1) l).
Proof. unfold place. cbn [length]. rewrite Nat2Z.inj_succ, seqZ_cons by lia. cbn. by rewrite Z.pred_succ. Qed.

Lemma place_lookup a l b : place a l !! b = if (a <=? b) && (b <? a + Z.of_nat (length l)) then l !! Z.to_nat (b - a) else None.
Proof.
  revert a. induction l as [|x l IH]; intros a.
  - change (place a []) with (∅ : mem). rewrite lookup_empty. by destruct (_ && _).
  - rewrite place_cons. destruct (decide (b = a)) as [->|Hne].
    + rewrite lookup_insert_eq, Z.leb_refl, (proj2 (Z.ltb_lt _ _)), Z.sub_diag by (cbn [length]; lia). done.
    + rewrite lookup_insert_ne, IH by done. cbn [length].
      repeat case_cmp; cbn; try done; try lia. replace (Z.to_nat (b - a)) with (S (Z.to_nat (b - (a + 1)))) by lia. done.
Qed.

Lemma place_mapped a l : 0 <= a -> a + Z.of_nat (length l) < 0x100000000 -> mapped (place a l) a (Z.of_nat (length l)).
Proof.
  intros Ha Hl. split_and!; [done|done|]. intros i Hi. rewrite place_lookup.
  rewrite (proj2 (Z.leb_le _ _)), (proj2 (Z.ltb_lt _ _)) by lia. cbn. apply lookup_lt_is_Some. lia.
Qed.

Lemma place_bytes a l : Forall is_u8 l -> bytes_ok (place a l).
Proof.
  intros Hl b v. rewrite place_lookup. destruct (_ && _); [|done]. intros H. by apply (Forall_lookup_1 _ _ _ _ Hl H).
Qed.

(** The same bytes give the same header. *)
Lemma read_header_same m m' a : 0 <= a -> a + sizeof_elf_header <= 0x100000000 ->
  (forall b, a <= b < a + sizeof_elf_header -> m' !! b = m !! b) -> read_header m' a = read_header m a.
Proof.
  unfold sizeof_elf_header. intros H0 H1 H.
  assert (forall k, 0 <= k < 46 -> load8 m' (a + k) = load8 m (a + k)) as H8.
  { intros k Hk. unfold load8. by rewrite u32_small, H by lia. }
  assert (forall k, 0 <= k < 45 -> load16 m' (a + k) = load16 m (a + k)) as H16.
  { intros k Hk. unfold load16. by rewrite <- Z.add_assoc, !H8 by lia. }
  unfold read_header. rewrite !H8, !H16, !(load32_same m m') by (try lia; intros; apply H; lia). done.
Qed.

(** A file at 0x10000, the windows of two frames, and the frames that are free. *)
Definition demo_memory (file : list Z) : mem := place 0x10000 file ∪ place 0xC0001000 (replicate (Z.to_nat 0x2000) 0xAA).

Definition demo_process (file : list Z) (pool : list Z) : process (F := list Z) :=
  mk_proc (demo_memory file) ∅ (mk_vlist [] 0 0 0) pool.

Lemma demo_memory_file file b : (length file < 0x1000)%nat -> 0x10000 <= b < 0x10000 + Z.of_nat (length file) ->
  demo_memory file !! b = place 0x10000 file !! b.
Proof.
  intros Hl Hb. unfold demo_memory. destruct (place_mapped 0x10000 file ltac:(lia) ltac:(lia)) as (_ & _ & Hm).
  destruct (Hm (b - 0x10000)) as [v Hv]; [lia|]. replace (0x10000 + (b - 0x10000)) with b in Hv by lia.
  rewrite Hv. by apply lookup_union_Some_l.
Qed.

Lemma demo_setup file pool : Forall is_u8 file -> (length file < 0x1000)%nat -> NoDup pool ->
  (forall f, f ∈ pool -> f = 0x1000 \/ f = 0x2000) ->
  setup (FS := pool_source) (demo_process file pool) 0x10000 (Z.of_nat (length file)).
Proof.
  intros Hb Hlen Hnd Hpool.
  assert (forall a n, mapped (place 0xC0001000 (replicate (Z.to_nat 0x2000) 0xAA)) a n -> mapped (demo_memory file) a n) as Hmap.
  { intros a n (H1 & H2 & H3). split_and!; [done|done|]. intros i Hi. apply lookup_union_is_Some. right. by apply H3. }
  constructor; cbn [memory frames demo_process].
  - intros b v Hv. apply lookup_union_Some_raw in Hv as [Hv|[_ Hv]]; revert Hv; [by apply place_bytes|].
    apply place_bytes. apply Forall_replicate. unfold is_u8. lia.
  - destruct (place_mapped 0x10000 file ltac:(lia) ltac:(lia)) as (H1 & H2 & H3). split_and!; [done|done|].
    intros i Hi. apply lookup_union_is_Some. left. by apply H3.
  - split; [done|]. apply Forall_forall. intros f Hf. unfold DIRECT_MAP_LIMIT, PAGE_SIZE.
    by destruct (Hpool f Hf) as [->| ->].
  - intros f Hf _ _ _. cbn in Hf. apply dec_stable in Hf. unfold KERNEL_VMA, PAGE_SIZE.
    split; [|right; destruct (Hpool f Hf) as [->| ->]; lia]. apply Hmap.
    pose proof (place_mapped 0xC0001000 (replicate (Z.to_nat 0x2000) 0xAA)) as Hw. rewrite length_replicate, Z2Nat.id in Hw by lia.
    apply (mapped_part _ 0xC0001000 0x2000); [apply Hw; lia|destruct (Hpool f Hf) as [->| ->]; lia..].
  - done.
Qed.

(** One segment of four bytes over a page boundary, with four zeros after them. *)
Definition demo_file : list Z := demo_header 46 1 ++ demo_phdr 78 0x8048FFE 4 8 ++ [11; 22; 33; 44].

Definition demo_segment : elf_phdr_t := mk_phdr PT_LOAD 78 0x8048FFE 0x8048FFE 4 8 5 0x1000.

Definition demo_elf : elf_header_t :=
  mk_header ELF_MAGIC 1 1 1 0 ET_EXEC EM_386 1 0x8048000 46 0 0 46 32 1.

Lemma demo_file_header : read_header (demo_memory demo_file) 0x10000 = Some demo_elf /\
  read_phdr (demo_memory demo_file) (0x10000 + 46) 0 = Some demo_segment.
Proof.
  rewrite (read_header_same (place 0x10000 demo_file)), (read_phdr_same (place 0x10000 demo_file)).
  - split; vm_compute; reflexivity.
  - lia.
  - lia.
  - intros b Hb. apply demo_memory_file; [vm_compute; lia|]. change (Z.of_nat (length demo_file)) with 82. lia.
  - lia.
  - unfold sizeof_elf_header. lia.
  - intros b Hb. unfold sizeof_elf_header in Hb. apply demo_memory_file; [vm_compute; lia|].
    change (Z.of_nat (length demo_file)) with 82. lia.
Qed.

#[local] Opaque demo_memory.


(** The test of the table wraps: a header whose table starts 32 bytes before the end of the
    address space is accepted, and the headers are read from before the file. *)
Definition wrapping_file : list Z := demo_header 0xFFFFFFE0 1.

Remark header_check_wraps :
  let w := mk_proc (place 0x10000 wrapping_file) ∅ (mk_vlist [] 0 0 0) [0x1000] in
  header_is_valid (memory w) 0x10000 46 = Some true /\ elf_load (FS := pool_source) true w 0x10000 46 = None.
Proof. split; vm_compute; reflexivity. Qed.
