(* ===== verification/Port.v ===== *)
(** * IPC ports (ipc/port.c)

    The table of ports, the free ids, the per-id generations and the recycled
    structures, and every section of create, destroy, get, put and the teardown as a
    function; [port_step] interleaves any number of activities.  Memory is explicit: a section
    that touches a structure the kernel does not own is [None].  Reference counts
    follow the sequential operations of Refcount, intrusive lists are Rocq lists (DList), and
    the senders and receivers of channel.c appear as the changes a holder makes to the queues. *)

From S2P Require Import Prelude Refcount.

Definition MAX_PORTS : Z := 4096.
Definition PORT_RECYCLE_MAX : Z := 64.
Definition IPC_ERR_NO_MEMORY : Z := -7.

(** An entry of the message queue with the payload it owns (0: none). *)
Record port_msg_entry_t := mk_entry { entry : Z; payload : Z }.

Record ipc_port_t := mk_port {
  id : Z; owner_pid : Z; closed : bool; generation : Z; refcount : Z;
  msg_queue : list port_msg_entry_t; pending_senders : list Z; owner_linked : bool
}.

(** After [memset(p, 0, ...)] or [kcalloc]: state [PORT_ACTIVE] is 0. *)
Definition zero_port : ipc_port_t := mk_port 0 0 false 0 0 [] [] false.

(** [ports]: the structures in kernel memory, by address.  [entries], [payloads]: the
    message entries and payload buffers that belong to a queue, under its structure. *)
Record ipc_ports := mk_ports {
  s_table : gmap Z Z;
  s_freelist : list Z;
  s_generation : gmap Z Z;
  s_recycle : list Z;
  ports : gmap Z ipc_port_t;
  owned : gmap Z (list Z);
  entries : gmap Z Z;
  payloads : gmap Z Z
}.

Definition with_table (s : ipc_ports) (t : gmap Z Z) : ipc_ports :=
  mk_ports t (s_freelist s) (s_generation s) (s_recycle s) (ports s) (owned s) (entries s) (payloads s).
Definition with_freelist (s : ipc_ports) (l : list Z) : ipc_ports :=
  mk_ports (s_table s) l (s_generation s) (s_recycle s) (ports s) (owned s) (entries s) (payloads s).
Definition with_generation (s : ipc_ports) (g : gmap Z Z) : ipc_ports :=
  mk_ports (s_table s) (s_freelist s) g (s_recycle s) (ports s) (owned s) (entries s) (payloads s).
Definition with_recycle (s : ipc_ports) (l : list Z) : ipc_ports :=
  mk_ports (s_table s) (s_freelist s) (s_generation s) l (ports s) (owned s) (entries s) (payloads s).
Definition with_ports (s : ipc_ports) (m : gmap Z ipc_port_t) : ipc_ports :=
  mk_ports (s_table s) (s_freelist s) (s_generation s) (s_recycle s) m (owned s) (entries s) (payloads s).
Definition with_owned (s : ipc_ports) (o : gmap Z (list Z)) : ipc_ports :=
  mk_ports (s_table s) (s_freelist s) (s_generation s) (s_recycle s) (ports s) o (entries s) (payloads s).
Definition with_memory (s : ipc_ports) (e pl : gmap Z Z) : ipc_ports :=
  mk_ports (s_table s) (s_freelist s) (s_generation s) (s_recycle s) (ports s) (owned s) e pl.

Definition with_refcount (port : ipc_port_t) (n : Z) : ipc_port_t :=
  mk_port (id port) (owner_pid port) (closed port) (generation port) n (msg_queue port) (pending_senders port) (owner_linked port).
Definition with_queues (port : ipc_port_t) (q : list port_msg_entry_t) (ps : list Z) : ipc_port_t :=
  mk_port (id port) (owner_pid port) (closed port) (generation port) (refcount port) q ps (owner_linked port).
Definition as_closed (port : ipc_port_t) : ipc_port_t :=
  mk_port (id port) (owner_pid port) true (generation port) (refcount port) (msg_queue port) (pending_senders port) false.

(** ** Reference counts, one atomic operation each *)

Definition refcount_inc (v : Z) : Z := if REFCOUNT_SATURATED <=? v then v else v ⊞ 1.

Definition refcount_dec (v : Z) : bool * Z :=
  if (REFCOUNT_SATURATED <=? v) || (v =? 0) then (false, v) else (v =? 1, v ⊟ 1).

(** ** Structures and ids *)

(** [s_freelist[s_free_top++] = id]: the array has [MAX_PORTS] cells. *)
Definition push_id (s : ipc_ports) (i : Z) : option ipc_ports :=
  if Z.of_nat (length (s_freelist s)) <? MAX_PORTS then Some (with_freelist s (i :: s_freelist s)) else None.

(** [fresh]: what [kcalloc] answers when it is called. *)
Definition port_struct_alloc (s : ipc_ports) (fresh : Z) : option (Z * ipc_ports) :=
  match s_recycle s with
  | p :: r =>
      _ ← ports s !! p; Some (p, with_ports (with_recycle s r) (<[p := zero_port]> (ports s)))
  | [] =>
      if fresh =? 0 then Some (0, s) else Some (fresh, with_ports s (<[fresh := zero_port]> (ports s)))
  end.

Definition port_struct_free (s : ipc_ports) (p : Z) : option ipc_ports :=
  if Z.of_nat (length (s_recycle s)) <? PORT_RECYCLE_MAX then Some (with_recycle s (p :: s_recycle s))
  else _ ← ports s !! p; Some (with_ports s (delete p (ports s))).

(** The loop of [ipc_port_init] from [i] down to 1. *)
Fixpoint init_freelist (i : nat) (l : list Z) : list Z :=
  match i with O => l | S i' => init_freelist i' (Z.of_nat i :: l) end.

(** [procs]: the processes, none of which owns a port. *)
Definition ipc_port_init (procs : list Z) : ipc_ports :=
  mk_ports ∅ (init_freelist (Z.to_nat (MAX_PORTS - 1)) []) ∅ [] ∅ (list_to_map ((fun pid => (pid, [])) <$> procs)) ∅ ∅.

Definition ipc_port_create (s : ipc_ports) (pid fresh : Z) : option (Z * ipc_ports) :=
  match s_freelist s with
  | [] => Some (IPC_ERR_NO_MEMORY, s)
  | i :: rest =>
      '(p, s1) ← port_struct_alloc (with_freelist s rest) fresh;
      if p =? 0 then s2 ← push_id s1 i; Some (IPC_ERR_NO_MEMORY, s2)
      else
        let g := default 0 (s_generation s1 !! i) ⊞ 1 in
        let linked := match owned s1 !! pid with Some _ => true | None => false end in
        let port := mk_port i pid false g 1 [] [] linked in
        let s2 := with_ports (with_generation s1 (<[i := g]> (s_generation s1))) (<[p := port]> (ports s1)) in
        let s3 := with_table s2 (<[i := p]> (s_table s2)) in
        Some (i, match owned s3 !! pid with
                 | Some l => with_owned s3 (<[pid := l ++ [p]]> (owned s3))
                 | None => s3
                 end)
  end.

Definition id_valid (i : Z) : bool := negb ((i =? 0) || (MAX_PORTS <=? i)).

(** The section of [ipc_port_destroy]: the port, with the generation that died and whether
    senders wait for it; 0 when there is none. *)
Definition destroy_close (s : ipc_ports) (i : Z) : option (Z * Z * bool * ipc_ports) :=
  if negb (id_valid i) then Some (0, 0, false, s)
  else match s_table s !! i with
  | None => Some (0, 0, false, s)
  | Some p =>
      port ← ports s !! p;
      let has_pending := negb (bool_decide (pending_senders port = [])) in
      let s1 := with_table (with_ports s (<[p := as_closed port]> (ports s))) (delete i (s_table s)) in
      if owner_linked port then
        l ← owned s1 !! owner_pid port;
        Some (p, generation port, has_pending,
              with_owned s1 (<[owner_pid port := filter (fun x => x <> p) l]> (owned s1)))
      else Some (p, generation port, has_pending, s1)
  end.

(** The wakes of [ipc_port_destroy]: the senders it finds in the structure. *)
Definition destroy_wake (s : ipc_ports) (p : Z) : option (list Z) :=
  port ← ports s !! p; Some (pending_senders port).

Definition ipc_port_get (s : ipc_ports) (i : Z) : option (Z * ipc_ports) :=
  if negb (id_valid i) then Some (0, s)
  else match s_table s !! i with
  | None => Some (0, s)
  | Some p =>
      port ← ports s !! p;
      if closed port then Some (0, s)
      else Some (p, with_ports s (<[p := with_refcount port (refcount_inc (refcount port))]> (ports s)))
  end.

Definition ipc_port_get_checked (s : ipc_ports) (i gen : Z) : option (Z * ipc_ports) :=
  if negb (id_valid i) then Some (0, s)
  else match s_table s !! i with
  | None => Some (0, s)
  | Some p =>
      port ← ports s !! p;
      if negb (closed port) && (generation port =? gen)
      then Some (p, with_ports s (<[p := with_refcount port (refcount_inc (refcount port))]> (ports s)))
      else Some (0, s)
  end.

Definition ipc_port_generation (s : ipc_ports) (i : Z) : option Z :=
  if negb (id_valid i) then Some 0
  else match s_table s !! i with
  | None => Some 0
  | Some p => port ← ports s !! p; Some (if closed port then 0 else generation port)
  end.

(** [refcount_dec] in [ipc_port_put] and at the end of [ipc_port_destroy]: [true] when the
    caller must tear the port down. *)
Definition ipc_port_put (s : ipc_ports) (p : Z) : option (bool * ipc_ports) :=
  port ← ports s !! p;
  let '(last, n) := refcount_dec (refcount port) in
  Some (last, with_ports s (<[p := with_refcount port n]> (ports s))).

(** ** The teardown *)

(** One queued message: the payload it owns, then the entry.  Freeing what is not
    allocated is [None]. *)
Definition free_message (s : ipc_ports) (m : port_msg_entry_t) : option ipc_ports :=
  s1 ← (if payload m =? 0 then Some s
        else _ ← payloads s !! payload m; Some (with_memory s (entries s) (delete (payload m) (payloads s))));
  _ ← entries s1 !! entry m;
  Some (with_memory s1 (delete (entry m) (entries s1)) (payloads s1)).

Fixpoint drain_queue (s : ipc_ports) (q : list port_msg_entry_t) : option ipc_ports :=
  match q with
  | [] => Some s
  | m :: q' => s1 ← free_message s m; drain_queue s1 q'
  end.

(** [port_teardown] up to [port_struct_free]: the id it read. *)
Definition teardown_drain (s : ipc_ports) (p : Z) : option (Z * ipc_ports) :=
  port ← ports s !! p;
  s1 ← drain_queue s (msg_queue port);
  Some (id port, with_ports s1 (<[p := with_queues port [] (pending_senders port)]> (ports s1))).

(** ** Interleavings *)

(** Where an activity is: with a reference, in [ipc_port_destroy] before the wakes or
    before the drop of the table's reference, or in [port_teardown]. *)
Inductive act :=
  | Holding (p : Z)
  | Closing (p gen : Z)
  | Dropping (p : Z)
  | Draining (p : Z)
  | Freeing (p i : Z)
  | Returning (i : Z).

(** The state, the activities, and the number of ports ever created under each id. *)
Record config := mk_config { kernel : ipc_ports; acts : gmap nat act; born : gmap Z Z }.

Definition births (b : gmap Z Z) (i : Z) : Z := default 0 (b !! i).

(** A new activity that holds what [get] answered. *)
Definition holding (m : gmap nat act) (a : nat) (p : Z) : gmap nat act :=
  if p =? 0 then m else <[a := Holding p]> m.

(** The next section of an activity that is in the middle of an operation. *)
Definition advance (s : ipc_ports) (x : act) : option (option act * ipc_ports) :=
  match x with
  | Closing p _ => _ ← destroy_wake s p; Some (Some (Dropping p), s)
  | Holding p | Dropping p => '(last, s') ← ipc_port_put s p; Some (if last : bool then Some (Draining p) else None, s')
  | Draining p => '(i, s') ← teardown_drain s p; Some (Some (Freeing p i), s')
  | Freeing p i => s' ← port_struct_free s p; Some (Some (Returning i), s')
  | Returning i => s' ← push_id s i; Some (None, s')
  end.

Inductive port_step : config -> config -> Prop :=
  | ps_create s m b pid fresh r s' :
      (fresh = 0 \/ 0 < fresh /\ ports s !! fresh = None) ->
      ipc_port_create s pid fresh = Some (r, s') ->
      port_step (mk_config s m b) (mk_config s' m (if r <? 0 then b else <[r := births b r + 1]> b))
  | ps_get s m b a i p s' : m !! a = None -> Z.of_nat (size m) < REFCOUNT_SATURATED - 2 ->
      ipc_port_get s i = Some (p, s') -> port_step (mk_config s m b) (mk_config s' (holding m a p) b)
  | ps_get_checked s m b a i g p s' : m !! a = None -> Z.of_nat (size m) < REFCOUNT_SATURATED - 2 ->
      ipc_port_get_checked s i g = Some (p, s') -> port_step (mk_config s m b) (mk_config s' (holding m a p) b)
  | ps_destroy s m b a i p g pend s' : m !! a = None -> Z.of_nat (size m) < REFCOUNT_SATURATED - 2 ->
      destroy_close s i = Some (p, g, pend, s') ->
      port_step (mk_config s m b) (mk_config s' (if p =? 0 then m else <[a := Closing p g]> m) b)
  | ps_enqueue s m b a p port e pl : m !! a = Some (Holding p) -> ports s !! p = Some port ->
      entries s !! e = None -> (pl = 0 \/ payloads s !! pl = None) ->
      port_step (mk_config s m b)
        (mk_config (with_memory (with_ports s (<[p := with_queues port (msg_queue port ++ [mk_entry e pl]) (pending_senders port)]> (ports s)))
           (<[e := p]> (entries s)) (if pl =? 0 then payloads s else <[pl := p]> (payloads s))) m b)
  | ps_dequeue s m b a p port x q : m !! a = Some (Holding p) -> ports s !! p = Some port -> msg_queue port = x :: q ->
      port_step (mk_config s m b)
        (mk_config (with_memory (with_ports s (<[p := with_queues port q (pending_senders port)]> (ports s)))
           (delete (entry x) (entries s)) (delete (payload x) (payloads s))) m b)
  | ps_pending s m b a p port ps : m !! a = Some (Holding p) -> ports s !! p = Some port ->
      port_step (mk_config s m b)
        (mk_config (with_ports s (<[p := with_queues port (msg_queue port) ps]> (ports s))) m b)
  | ps_advance s m b a x y s' : m !! a = Some x -> advance s x = Some (y, s') ->
      port_step (mk_config s m b)
        (mk_config s' (match y with Some z => <[a := z]> m | None => delete a m end) b).

Definition port_start (procs : list Z) : config := mk_config (ipc_port_init procs) ∅ ∅.

(** ** The invariant *)

Definition holds (x : act) (p : Z) : Z :=
  match x with Holding q | Closing q _ | Dropping q => if decide (q = p) then 1 else 0 | _ => 0 end.
Definition tears (x : act) (p : Z) : Z :=
  match x with Draining q | Freeing q _ => if decide (q = p) then 1 else 0 | _ => 0 end.

(** References to a structure, and teardowns of it, under way. *)
Definition refs (m : gmap nat act) (p : Z) : Z := msum (fun x => holds x p) m.
Definition teardowns (m : gmap nat act) (p : Z) : Z := msum (fun x => tears x p) m.

(** A structure that is a port: live, or closed and not torn down yet. *)
Definition in_use (s : ipc_ports) (p : Z) (port : ipc_port_t) : Prop := ports s !! p = Some port /\ p ∉ s_recycle s.

Definition tabled (s : ipc_ports) (p : Z) (port : ipc_port_t) : Prop := s_table s !! id port = Some p.

(** The reference the table holds. *)
Definition tab_ref (s : ipc_ports) (i p : Z) : Z := if decide (s_table s !! i = Some p) then 1 else 0.

(** What an activity relies on. *)
Definition act_ok (s : ipc_ports) (m : gmap nat act) (a : nat) (x : act) : Prop :=
  match x with
  | Holding p | Closing p _ | Dropping p | Draining p => exists port, in_use s p port
  | Freeing p i => exists port, in_use s p port /\ id port = i /\ msg_queue port = []
  | Returning i => 1 <= i < MAX_PORTS /\ (i ∉ s_freelist s) /\ (forall p port, in_use s p port -> id port <> i) /\
      forall a', m !! a' = Some (Returning i) -> a' = a
  end.

Record port_inv (s : ipc_ports) (m : gmap nat act) (b : gmap Z Z) : Prop := {
  pi_struct : forall p port, in_use s p port -> 0 < p /\ 1 <= id port < MAX_PORTS /\
    refcount port = tab_ref s (id port) p + refs m p /\
    (closed port = false <-> tabled s p port) /\
    teardowns m p = (if refcount port =? 0 then 1 else 0);
  pi_table : forall i p, s_table s !! i = Some p -> exists port, in_use s p port /\ id port = i /\
    generation port = default 0 (s_generation s !! i);
  pi_born : forall i, 0 <= births b i /\ default 0 (s_generation s !! i) = u32 (births b i);
  pi_acts : forall a x, m !! a = Some x -> act_ok s m a x;
  pi_ids : forall p q port port', in_use s p port -> in_use s q port' -> id port = id port' -> p = q;
  pi_free : NoDup (s_freelist s);
  pi_free_ids : forall i, i ∈ s_freelist s -> 1 <= i < MAX_PORTS /\ forall p port, in_use s p port -> id port <> i;
  pi_cover : forall i, 1 <= i < MAX_PORTS -> i ∈ s_freelist s \/ (exists p port, in_use s p port /\ id port = i) \/
    exists a, m !! a = Some (Returning i);
  pi_recycle : NoDup (s_recycle s);
  pi_recycled : forall p, p ∈ s_recycle s -> 0 < p /\ is_Some (ports s !! p);
  pi_size : Z.of_nat (size m) < REFCOUNT_SATURATED - 1
}.

Lemma holds_range x p : 0 <= holds x p <= 1.
Proof. destruct x; cbn; try case_decide; lia. Qed.
Lemma tears_range x p : 0 <= tears x p <= 1.
Proof. destruct x; cbn; try case_decide; lia. Qed.
Lemma refs_nonneg m p : 0 <= refs m p.
Proof. apply msum_nonneg. intros x. apply holds_range. Qed.
Lemma teardowns_nonneg m p : 0 <= teardowns m p.
Proof. apply msum_nonneg. intros x. apply tears_range. Qed.
Lemma refs_size m p : refs m p <= Z.of_nat (size m).
Proof. apply msum_le_size. intros x. apply holds_range. Qed.

Lemma refs_insert m a x p : m !! a = None -> refs (<[a := x]> m) p = holds x p + refs m p.
Proof. apply (msum_insert (fun x => holds x p)). Qed.
Lemma refs_update m a x y p : m !! a = Some x -> refs (<[a := y]> m) p = refs m p - holds x p + holds y p.
Proof. apply (msum_update (fun x => holds x p)). Qed.
Lemma refs_delete m a x p : m !! a = Some x -> refs (delete a m) p = refs m p - holds x p.
Proof. intros H. unfold refs. rewrite (msum_delete (fun x => holds x p) m a x H). lia. Qed.
Lemma teardowns_insert m a x p : m !! a = None -> teardowns (<[a := x]> m) p = tears x p + teardowns m p.
Proof. apply (msum_insert (fun x => tears x p)). Qed.
Lemma teardowns_update m a x y p : m !! a = Some x -> teardowns (<[a := y]> m) p = teardowns m p - tears x p + tears y p.
Proof. apply (msum_update (fun x => tears x p)). Qed.
Lemma teardowns_delete m a x p : m !! a = Some x -> teardowns (delete a m) p = teardowns m p - tears x p.
Proof. intros H. unfold teardowns. rewrite (msum_delete (fun x => tears x p) m a x H). lia. Qed.

Lemma refs_ge m a x p : m !! a = Some x -> holds x p <= refs m p.
Proof. apply (msum_ge (fun x => holds x p)). intros y. apply holds_range. Qed.
Lemma teardowns_ge m a x p : m !! a = Some x -> tears x p <= teardowns m p.
Proof. apply (msum_ge (fun x => tears x p)). intros y. apply tears_range. Qed.

(** The structure an activity names. *)
Definition target (x : act) : option Z :=
  match x with Holding p | Closing p _ | Dropping p | Draining p | Freeing p _ => Some p | Returning _ => None end.

Lemma target_in_use s m b a x p : port_inv s m b -> m !! a = Some x -> target x = Some p -> exists port, in_use s p port.
Proof.
  intros Hi Hx Ht. pose proof (pi_acts _ _ _ Hi a x Hx) as Ha.
  destruct x; cbn in *; try injection Ht as <-; try done. destruct Ha as (port & ? & _). by exists port.
Qed.

Lemma no_target s m b p : port_inv s m b -> (forall port, ~ in_use s p port) -> refs m p = 0 /\ teardowns m p = 0.
Proof.
  intros Hi Hn. split; apply msum_zero; intros a x Hx.
  - destruct (target x) as [q|] eqn:E; [destruct (target_in_use _ _ _ _ _ _ Hi Hx E) as (port & Hp)|];
      destruct x; cbn in *; try done; injection E as <-; case_decide; try done; subst; by apply Hn in Hp.
  - destruct (target x) as [q|] eqn:E; [destruct (target_in_use _ _ _ _ _ _ Hi Hx E) as (port & Hp)|];
      destruct x; cbn in *; try done; injection E as <-; case_decide; try done; subst; by apply Hn in Hp.
Qed.

(** A structure is held, or being torn down, never both; and by one teardown at most. *)
Lemma held_not_torn s m b a p port x : port_inv s m b -> m !! a = Some x -> holds x p = 1 -> in_use s p port ->
  0 < refcount port /\ teardowns m p = 0.
Proof.
  intros Hi Hx Hh Hp. destruct (pi_struct _ _ _ Hi p port Hp) as (_ & _ & Hr & _ & Ht).
  pose proof (refs_ge m a x p Hx). assert (0 < refcount port) by (unfold tab_ref in Hr; case_decide; lia).
  rewrite (proj2 (Z.eqb_neq _ _)) in Ht by lia. done.
Qed.

Lemma torn_not_held s m b a p port x : port_inv s m b -> m !! a = Some x -> tears x p = 1 -> in_use s p port ->
  refcount port = 0 /\ refs m p = 0 /\ ~ tabled s p port /\ teardowns m p = 1.
Proof.
  intros Hi Hx Hh Hp. destruct (pi_struct _ _ _ Hi p port Hp) as (_ & _ & Hr & _ & Ht).
  pose proof (teardowns_ge m a x p Hx). pose proof (refs_nonneg m p).
  destruct (Z.eqb_spec (refcount port) 0); [|lia]. unfold tab_ref in Hr. unfold tabled. case_decide; [lia|]. split_and!; try done; lia.
Qed.

Lemma in_use_update s p port port' q x : in_use s p port ->
  in_use (with_ports s (<[p := port']> (ports s))) q x <-> (q = p /\ x = port' \/ q <> p /\ in_use s q x).
Proof.
  intros [Hp Hr]. unfold in_use. cbn. destruct (decide (q = p)) as [->|Hne].
  - rewrite lookup_insert_eq. split; [intros [[= ->] _]; by left|]. intros [[_ ->]|[? _]]; [done|done].
  - rewrite lookup_insert_ne by done. split; [intros ?; by right|]. intros [[? _]|[_ ?]]; done.
Qed.

Lemma in_use_det s p port port' : in_use s p port -> in_use s p port' -> port = port'.
Proof. intros [H1 _] [H2 _]. congruence. Qed.

(** One structure changes, or loses its place in the table, and one activity moves. *)
Lemma inv_change s m b p port port' m' t : port_inv s m b -> in_use s p port ->
  id port' = id port -> generation port' = generation port ->
  (forall i q, t !! i = Some q -> s_table s !! i = Some q) ->
  (forall i q, q <> p -> s_table s !! i = Some q -> t !! i = Some q) ->
  (closed port' = false <-> t !! id port = Some p) ->
  refcount port' = (if decide (t !! id port = Some p) then 1 else 0) + refs m' p ->
  teardowns m' p = (if refcount port' =? 0 then 1 else 0) ->
  (forall q, q <> p -> refs m' q = refs m q /\ teardowns m' q = teardowns m q) ->
  (forall a x, m' !! a = Some x -> m !! a = Some x /\ (forall i, x <> Freeing p i) \/
     target x = Some p /\ forall i, x = Freeing p i -> i = id port /\ msg_queue port' = []) ->
  (forall i a, m !! a = Some (Returning i) <-> m' !! a = Some (Returning i)) ->
  Z.of_nat (size m') < REFCOUNT_SATURATED - 1 ->
  port_inv (with_table (with_ports s (<[p := port']> (ports s))) t) m' b.
Proof.
  intros Hi Hp Eid Eg Ht1 Ht2 Hcl Hrc Htd Hq Hacts Hret Hsz.
  pose proof (in_use_update s p port port') as Hiu. specialize (fun q x => Hiu q x Hp).
  assert (forall q x, in_use s q x -> exists x', in_use (with_ports s (<[p := port']> (ports s))) q x' /\
    id x' = id x /\ generation x' = generation x /\ (q <> p -> x' = x)) as Hfwd.
  { intros q x Hx. destruct (decide (q = p)) as [->|Hne].
    - assert (x = port) as -> by (by apply (in_use_det s p)). exists port'. split; [apply Hiu; by left|done].
    - exists x. split; [apply Hiu; by right|done]. }
  assert (forall q x, in_use (with_ports s (<[p := port']> (ports s))) q x -> exists x0, in_use s q x0 /\ id x0 = id x) as Hbwd.
  { intros q x Hx. apply Hiu in Hx as [[-> ->]|[_ ?]]; [by exists port|by exists x]. }
  constructor.
  - intros q x Hx. apply Hiu in Hx as [[-> ->]|[Hne Hx]].
    + destruct (pi_struct _ _ _ Hi p port Hp) as (H1 & H2 & _). unfold tabled, tab_ref in *. cbn. rewrite Eid.
      split_and!; done || lia.
    + destruct (pi_struct _ _ _ Hi q x Hx) as (H1 & H2 & H3 & H4 & H5). destruct (Hq q Hne) as [-> ->].
      unfold tabled, tab_ref in *. cbn.
      assert (t !! id x = Some q <-> s_table s !! id x = Some q) as Hiff by (split; [apply Ht1|by apply Ht2]).
      assert ((if decide (t !! id x = Some q) then 1 else 0) = if decide (s_table s !! id x = Some q) then 1 else 0) as ->
        by (repeat case_decide; tauto).
      split_and!; try tauto; done || lia.
  - intros i q Hqt. cbn in Hqt. apply Ht1 in Hqt. destruct (pi_table _ _ _ Hi i q Hqt) as (x & Hx & <- & Hg).
    destruct (Hfwd q x Hx) as (x' & Hx' & E1 & E2 & _). exists x'. split; [done|]. split; [done|]. cbn. congruence.
  - exact (pi_born _ _ _ Hi).
  - intros a x Ha. destruct (Hacts a x Ha) as [[Hold Hnf]|[Ht Hf]].
    + pose proof (pi_acts _ _ _ Hi a x Hold) as Hok. destruct x as [q|q g|q|q|q i|i]; cbn in *.
      1-4: destruct Hok as (x & Hx); destruct (Hfwd q x Hx) as (x' & Hx' & _); by exists x'.
      * destruct Hok as (x & Hx & Hxi & Hxq). destruct (Hfwd q x Hx) as (x' & Hx' & E1 & _ & E3).
        exists x'. split; [done|]. rewrite E3; [done|]. intros ->. by apply (Hnf i).
      * destruct Hok as (H1 & H2 & H3 & H4). split_and!; try done; try lia.
        -- intros q x Hx. destruct (Hbwd q x Hx) as (x0 & Hx0 & <-). by apply (H3 q).
        -- intros a' Ha'. apply H4. by apply Hret.
    + assert (in_use (with_ports s (<[p := port']> (ports s))) p port') as Hp' by (apply Hiu; by left).
      destruct x as [q|q g|q|q|q i|i]; cbn in *; try injection Ht as ->; try done; try (by exists port').
      destruct (Hf i eq_refl) as [-> ?]. by exists port'.
  - intros q r x y Hx Hy E. apply Hbwd in Hx as (x0 & ? & ?), Hy as (y0 & ? & ?).
    apply (pi_ids _ _ _ Hi q r x0 y0); congruence.
  - exact (pi_free _ _ _ Hi).
  - intros i Hif. destruct (pi_free_ids _ _ _ Hi i Hif) as [? Hn]. split; [done|]. intros q x Hx.
    apply Hbwd in Hx as (x0 & Hx0 & <-). by apply (Hn q).
  - intros i Hir. destruct (pi_cover _ _ _ Hi i Hir) as [?|[(q & x & Hx & <-)|(a & Ha)]]; [by left| |].
    + right; left. destruct (Hfwd q x Hx) as (x' & ? & ? & _). by exists q, x'.
    + right; right. exists a. by apply Hret.
  - exact (pi_recycle _ _ _ Hi).
  - intros q Hqr. destruct (pi_recycled _ _ _ Hi q Hqr) as [? Hs]. split; [done|]. cbn.
    rewrite lookup_insert_is_Some'. by right.
  - done.
Qed.

(** The table stays. *)
Lemma inv_update s m b p port port' m' : port_inv s m b -> in_use s p port ->
  id port' = id port -> generation port' = generation port -> closed port' = closed port ->
  refcount port' = tab_ref s (id port) p + refs m' p ->
  teardowns m' p = (if refcount port' =? 0 then 1 else 0) ->
  (forall q, q <> p -> refs m' q = refs m q /\ teardowns m' q = teardowns m q) ->
  (forall a x, m' !! a = Some x -> m !! a = Some x /\ (forall i, x <> Freeing p i) \/
     target x = Some p /\ forall i, x = Freeing p i -> i = id port /\ msg_queue port' = []) ->
  (forall i a, m !! a = Some (Returning i) <-> m' !! a = Some (Returning i)) ->
  Z.of_nat (size m') < REFCOUNT_SATURATED - 1 ->
  port_inv (with_ports s (<[p := port']> (ports s))) m' b.
Proof.
  intros Hi Hp Eid Eg Ec Hrc Htd Hq Ha Hr Hsz.
  apply (inv_change s m b p port port' m' (s_table s) Hi Hp Eid Eg); try assumption; try done.
  rewrite Ec. destruct (pi_struct _ _ _ Hi p port Hp) as (_ & _ & _ & H & _). exact H.
Qed.

Lemma inv_memory s m b e pl : port_inv s m b -> port_inv (with_memory s e pl) m b.
Proof. intros []. by constructor. Qed.
Lemma inv_owned s m b o : port_inv s m b -> port_inv (with_owned s o) m b.
Proof. intros []. by constructor. Qed.

(** The count has room for one more. *)
Lemma refcount_inc_spec v : 0 <= v < REFCOUNT_SATURATED -> refcount_inc v = v + 1.
Proof.
  unfold refcount_inc, REFCOUNT_SATURATED. intros. rewrite (proj2 (Z.leb_gt _ _)) by lia. apply u32_small. lia.
Qed.

Lemma refcount_dec_spec v : 0 < v < REFCOUNT_SATURATED -> refcount_dec v = (v =? 1, v - 1).
Proof.
  unfold refcount_dec, REFCOUNT_SATURATED. intros. rewrite (proj2 (Z.leb_gt _ _)), (proj2 (Z.eqb_neq _ _)) by lia.
  cbn. by rewrite u32_small by lia.
Qed.

(** The operations are the steps of Refcount taken at once. *)
Lemma refcount_ops_seq v : 0 <= v <= REFCOUNT_SATURATED ->
  rc_seq v EvInc = Some (refcount_inc v) /\ rc_seq v (EvDec (refcount_dec v).1) = Some (refcount_dec v).2.
Proof.
  unfold rc_seq, refcount_inc, refcount_dec, REFCOUNT_SATURATED. intros Hv. split.
  - case_cmp; [done|]. by rewrite u32_small by lia.
  - destruct (_ || _) eqn:E; cbn; [done|]. bool_to_prop. rewrite eqb_reflx. by rewrite u32_small by lia.
Qed.

Lemma count_range s m b p port : port_inv s m b -> in_use s p port -> 0 <= refcount port < REFCOUNT_SATURATED.
Proof.
  intros Hi Hp. destruct (pi_struct _ _ _ Hi p port Hp) as (_ & _ & -> & _).
  pose proof (refs_nonneg m p). pose proof (refs_size m p). pose proof (pi_size _ _ _ Hi). unfold tab_ref. case_decide; lia.
Qed.

Lemma ports_id s p port : ports s !! p = Some port -> with_ports s (<[p := port]> (ports s)) = s.
Proof. intros Hp. unfold with_ports. rewrite insert_id by done. by destruct s. Qed.

(** ** Every section keeps it *)

(** An activity starts on [p], or moves on, as far as other structures are concerned. *)
Lemma acts_other_insert m a x p q : m !! a = None -> target x = Some p -> q <> p ->
  refs (<[a := x]> m) q = refs m q /\ teardowns (<[a := x]> m) q = teardowns m q.
Proof.
  intros Ha Ht Hq. rewrite refs_insert, teardowns_insert by done.
  destruct x; cbn in *; try injection Ht as ->; try done; rewrite ?decide_False by congruence; lia.
Qed.

Lemma acts_other_update m a x y p q : m !! a = Some x -> target x = Some p -> target y = Some p -> q <> p ->
  refs (<[a := y]> m) q = refs m q /\ teardowns (<[a := y]> m) q = teardowns m q.
Proof.
  intros Ha Ht Ht' Hq. rewrite (refs_update m a x y q Ha), (teardowns_update m a x y q Ha).
  destruct x, y; cbn in *; try injection Ht as ->; try injection Ht' as ->; try done; rewrite ?decide_False by congruence; lia.
Qed.

Lemma acts_other_delete m a x p q : m !! a = Some x -> target x = Some p -> q <> p ->
  refs (delete a m) q = refs m q /\ teardowns (delete a m) q = teardowns m q.
Proof.
  intros Ha Ht Hq. rewrite (refs_delete m a x q Ha), (teardowns_delete m a x q Ha).
  destruct x; cbn in *; try injection Ht as ->; try done; rewrite ?decide_False by congruence; lia.
Qed.

(** [teardowns m p = 0] leaves no [Freeing p]. *)
Lemma no_freeing m a x p : teardowns m p = 0 -> m !! a = Some x -> forall i, x <> Freeing p i.
Proof. intros H0 Hx i ->. pose proof (teardowns_ge m a _ p Hx) as H. cbn in H. rewrite decide_True in H by done. lia. Qed.

Lemma live_count s m b p port : port_inv s m b -> in_use s p port -> 0 < refcount port -> teardowns m p = 0.
Proof.
  intros Hi Hp H. destruct (pi_struct _ _ _ Hi p port Hp) as (_ & _ & _ & _ & ->).
  by rewrite (proj2 (Z.eqb_neq _ _)) by lia.
Qed.

Lemma tabled_count s m b p port : port_inv s m b -> in_use s p port -> tabled s p port -> 0 < refcount port.
Proof.
  intros Hi Hp Ht. destruct (pi_struct _ _ _ Hi p port Hp) as (_ & _ & -> & _). unfold tab_ref. rewrite decide_True by done.
  pose proof (refs_nonneg m p). lia.
Qed.

Lemma inv_take s m b p port a : port_inv s m b -> in_use s p port -> tabled s p port -> m !! a = None ->
  Z.of_nat (size m) < REFCOUNT_SATURATED - 2 ->
  port_inv (with_ports s (<[p := with_refcount port (refcount_inc (refcount port))]> (ports s))) (<[a := Holding p]> m) b.
Proof.
  intros Hi Hp Ht Ha Hsz. pose proof (count_range _ _ _ _ _ Hi Hp) as Hc. pose proof (tabled_count _ _ _ _ _ Hi Hp Ht) as Hpos.
  pose proof (live_count _ _ _ _ _ Hi Hp Hpos) as H0. destruct (pi_struct _ _ _ Hi p port Hp) as (_ & _ & Hr & _ & _).
  apply (inv_update s m b p port); [done|done|reflexivity|reflexivity|reflexivity|cbn..].
  - rewrite refcount_inc_spec, refs_insert by done. cbn. rewrite decide_True by done. lia.
  - rewrite refcount_inc_spec, teardowns_insert by done. cbn. rewrite (proj2 (Z.eqb_neq _ _)) by lia. lia.
  - intros q Hq. by apply (acts_other_insert m a (Holding p) p).
  - intros a' x Hx. destruct (decide (a' = a)) as [->|Hne].
    + rewrite lookup_insert_eq in Hx. injection Hx as <-. right. by split.
    + rewrite lookup_insert_ne in Hx by done. left. split; [done|]. by apply (no_freeing m a').
  - intros i a'. destruct (decide (a' = a)) as [->|Hne]; [rewrite lookup_insert_eq, Ha|rewrite lookup_insert_ne by done]; done.
  - rewrite map_size_insert_None by done. lia.
Qed.

(** A lookup that answers finds a live port; [ok] is what else the caller tests. *)
Lemma get_spec s m b i : port_inv s m b ->
  ipc_port_get s i = Some (0, s) /\ (id_valid i = false \/ s_table s !! i = None) \/
  exists p port, s_table s !! i = Some p /\ in_use s p port /\ id port = i /\ closed port = false /\ 0 < p /\
    generation port = default 0 (s_generation s !! i) /\ id_valid i = true /\
    ipc_port_get s i = Some (p, with_ports s (<[p := with_refcount port (refcount_inc (refcount port))]> (ports s))).
Proof.
  intros Hi. unfold ipc_port_get. destruct (id_valid i) eqn:Ev; cbn [negb]; [|left; split; [done|by left]].
  destruct (s_table s !! i) as [p|] eqn:Et; [|left; split; [done|by right]]. right.
  destruct (pi_table _ _ _ Hi i p Et) as (port & Hp & Eid & Eg). exists p, port.
  destruct (pi_struct _ _ _ Hi p port Hp) as (Hp0 & _ & _ & Hc & _).
  assert (closed port = false) as Hcl by (apply Hc; unfold tabled; by rewrite Eid).
  destruct Hp as [Hp Hr]. split_and!; try done. rewrite (bind_eq _ _ _ Hp). by rewrite Hcl.
Qed.

Lemma get_checked_spec s m b i g : port_inv s m b ->
  ipc_port_get_checked s i g = Some (0, s) \/
  exists p port, s_table s !! i = Some p /\ in_use s p port /\ id port = i /\ closed port = false /\ 0 < p /\
    default 0 (s_generation s !! i) = g /\ id_valid i = true /\
    ipc_port_get_checked s i g = Some (p, with_ports s (<[p := with_refcount port (refcount_inc (refcount port))]> (ports s))).
Proof.
  intros Hi. unfold ipc_port_get_checked.
  destruct (get_spec s m b i Hi) as [[_ [->| ->]]|(p & port & Et & Hp & Eid & Hcl & Hp0 & Eg & Ev & _)];
    [by left|destruct (id_valid i); by left|].
  rewrite Ev, Et. cbn [negb]. rewrite (bind_eq _ _ _ (proj1 Hp)), Hcl, Eg. cbn [negb andb].
  case_cmp; [right|by left]. exists p, port. by split_and!.
Qed.

Lemma generation_spec s m b i : port_inv s m b ->
  ipc_port_generation s i = Some (if id_valid i then match s_table s !! i with Some _ => default 0 (s_generation s !! i) | None => 0 end else 0).
Proof.
  intros Hi. unfold ipc_port_generation.
  destruct (get_spec s m b i Hi) as [[_ [->| ->]]|(p & port & Et & Hp & Eid & Hcl & Hp0 & Eg & Ev & _)];
    [done|by destruct (id_valid i)|].
  rewrite Ev, Et. cbn [negb]. by rewrite (bind_eq _ _ _ (proj1 Hp)), Hcl, Eg.
Qed.

Lemma inv_get s m b a i p s' : port_inv s m b -> m !! a = None -> Z.of_nat (size m) < REFCOUNT_SATURATED - 2 ->
  ipc_port_get s i = Some (p, s') -> port_inv s' (holding m a p) b.
Proof.
  intros Hi Ha Hsz E. destruct (get_spec s m b i Hi) as [[E' _]|(q & port & Et & Hp & Eid & Hcl & Hp0 & _ & _ & E')];
    rewrite E' in E; injection E as <- <-; [done|].
  unfold holding. rewrite (proj2 (Z.eqb_neq q 0)) by lia. apply inv_take; try done. unfold tabled. by rewrite Eid.
Qed.

Lemma inv_get_checked s m b a i g p s' : port_inv s m b -> m !! a = None -> Z.of_nat (size m) < REFCOUNT_SATURATED - 2 ->
  ipc_port_get_checked s i g = Some (p, s') -> port_inv s' (holding m a p) b.
Proof.
  intros Hi Ha Hsz E. destruct (get_checked_spec s m b i g Hi) as [E'|(q & port & Et & Hp & Eid & Hcl & Hp0 & _ & _ & E')];
    rewrite E' in E; injection E as <- <-; [done|].
  unfold holding. rewrite (proj2 (Z.eqb_neq q 0)) by lia. apply inv_take; try done. unfold tabled. by rewrite Eid.
Qed.

(** Queue changes by a holder. *)
Lemma inv_queues s m b p port a q ps : port_inv s m b -> m !! a = Some (Holding p) -> ports s !! p = Some port ->
  port_inv (with_ports s (<[p := with_queues port q ps]> (ports s))) m b.
Proof.
  intros Hi Ha Hp. destruct (target_in_use s m b a (Holding p) p Hi Ha eq_refl) as (port' & Hu).
  assert (port' = port) as -> by (destruct Hu; congruence).
  destruct (held_not_torn s m b a p port (Holding p) Hi Ha) as [Hc H0]; [cbn; by rewrite decide_True|done|].
  destruct (pi_struct _ _ _ Hi p port Hu) as (_ & _ & Hr & _ & Ht).
  apply (inv_update s m b p port); [done|done|reflexivity|reflexivity|reflexivity|exact Hr|exact Ht|by split|..].
  - intros a' x Hx. left. split; [done|]. by apply (no_freeing m a').
  - done.
  - exact (pi_size _ _ _ Hi).
Qed.

(** The section of [ipc_port_destroy] as far as the table goes. *)
Definition unhooked (s : ipc_ports) (i p : Z) (port : ipc_port_t) : ipc_ports :=
  with_table (with_ports s (<[p := as_closed port]> (ports s))) (delete i (s_table s)).

Lemma inv_unhook s m b a i p port : port_inv s m b -> m !! a = None -> Z.of_nat (size m) < REFCOUNT_SATURATED - 2 ->
  in_use s p port -> id port = i -> s_table s !! i = Some p ->
  port_inv (unhooked s i p port) (<[a := Closing p (generation port)]> m) b.
Proof.
  intros Hi Ha Hsz Hp Eid Et. assert (tabled s p port) as Htab by (unfold tabled; by rewrite Eid).
  pose proof (tabled_count _ _ _ _ _ Hi Hp Htab) as Hpos. pose proof (live_count _ _ _ _ _ Hi Hp Hpos) as H0.
  destruct (pi_struct _ _ _ Hi p port Hp) as (_ & _ & Hr & _ & _).
  unfold tab_ref in Hr. rewrite decide_True in Hr by done.
  apply (inv_change s m b p port); [done|done|reflexivity|reflexivity|..].
  - intros j q Hj. by apply lookup_delete_Some in Hj as [_ ?].
  - intros j q Hne Hj. rewrite lookup_delete_ne; [done|]. intros <-. congruence.
  - cbn. rewrite Eid, lookup_delete_eq. done.
  - rewrite Eid, lookup_delete_eq, decide_False by done. cbn. rewrite refs_insert by done. cbn.
    rewrite decide_True by done. lia.
  - cbn. rewrite teardowns_insert by done. cbn. rewrite (proj2 (Z.eqb_neq _ _)) by lia. lia.
  - intros q Hq. by apply (acts_other_insert m a (Closing p (generation port)) p).
  - intros a' x Hx. destruct (decide (a' = a)) as [->|Hne].
    + rewrite lookup_insert_eq in Hx. injection Hx as <-. right. by split.
    + rewrite lookup_insert_ne in Hx by done. left. split; [done|]. by apply (no_freeing m a').
  - intros j a'. destruct (decide (a' = a)) as [->|Hne]; [rewrite lookup_insert_eq, Ha|rewrite lookup_insert_ne by done]; done.
  - rewrite map_size_insert_None by done. lia.
Qed.

Lemma close_spec s m b i : port_inv s m b ->
  destroy_close s i = Some (0, 0, false, s) /\ (id_valid i = false \/ s_table s !! i = None) \/
  exists p port, s_table s !! i = Some p /\ in_use s p port /\ id port = i /\ 0 < p /\
    generation port = default 0 (s_generation s !! i) /\ id_valid i = true /\
    destroy_close s i =
      (let pend := negb (bool_decide (pending_senders port = [])) in
       if owner_linked port then
         l ← owned s !! owner_pid port;
         Some (p, generation port, pend, with_owned (unhooked s i p port)
                 (<[owner_pid port := filter (fun x => x <> p) l]> (owned s)))
       else Some (p, generation port, pend, unhooked s i p port)).
Proof.
  intros Hi. unfold destroy_close.
  destruct (get_spec s m b i Hi) as [[_ [Hv|Ht]]|(p & port & Et & Hp & Eid & Hcl & Hp0 & Eg & Ev & _)].
  - left. rewrite Hv. split; [done|by left].
  - left. rewrite Ht. split; [by destruct (id_valid i)|by right].
  - right. exists p, port. rewrite Ev, Et. cbn [negb]. rewrite (bind_eq _ _ _ (proj1 Hp)). by split_and!.
Qed.

Lemma inv_close s m b a i p g pend s' : port_inv s m b -> m !! a = None -> Z.of_nat (size m) < REFCOUNT_SATURATED - 2 ->
  destroy_close s i = Some (p, g, pend, s') -> port_inv s' (if p =? 0 then m else <[a := Closing p g]> m) b.
Proof.
  intros Hi Ha Hsz E. destruct (close_spec s m b i Hi) as [[E' _]|(q & port & Et & Hp & Eid & Hp0 & Eg & _ & E')];
    rewrite E' in E; [by injection E as <- <- <- <-|]. cbn zeta in E.
  pose proof (inv_unhook s m b a i q port Hi Ha Hsz Hp Eid Et) as Hu.
  destruct (owner_linked port).
  - destruct (owned s !! owner_pid port) as [l|]; [|done]. cbn [mbind option_bind] in E. injection E as <- <- <- <-.
    rewrite (proj2 (Z.eqb_neq q 0)) by lia. by apply inv_owned.
  - injection E as <- <- <- <-. by rewrite (proj2 (Z.eqb_neq q 0)) by lia.
Qed.

(** ** Activities in the middle of an operation *)

Lemma inv_put s m b a x p : port_inv s m b -> m !! a = Some x -> x = Holding p \/ x = Dropping p ->
  exists port, in_use s p port /\ ipc_port_put s p
    = Some (refcount port =? 1, with_ports s (<[p := with_refcount port (refcount port - 1)]> (ports s))) /\
  port_inv (with_ports s (<[p := with_refcount port (refcount port - 1)]> (ports s)))
    (if refcount port =? 1 then <[a := Draining p]> m else delete a m) b.
Proof.
  intros Hi Ha Hx. assert (target x = Some p /\ holds x p = 1 /\ tears x p = 0) as (Ht & Hh & Htr)
    by (destruct Hx as [->| ->]; cbn; by rewrite ?decide_True).
  destruct (target_in_use s m b a x p Hi Ha Ht) as (port & Hp). exists port. split; [done|].
  destruct (held_not_torn s m b a p port x Hi Ha Hh Hp) as [Hpos H0]. pose proof (count_range _ _ _ _ _ Hi Hp) as Hc.
  split.
  { unfold ipc_port_put. rewrite (bind_eq _ _ _ (proj1 Hp)). by rewrite refcount_dec_spec by lia. }
  destruct (pi_struct _ _ _ Hi p port Hp) as (_ & _ & Hr & _ & _).
  apply (inv_update s m b p port); [done|done|reflexivity|reflexivity|reflexivity|cbn [refcount with_refcount]..].
  - case_cmp; [rewrite (refs_update m a x _ p Ha)|rewrite (refs_delete m a x p Ha)]; rewrite Hh; cbn [holds]; lia.
  - case_cmp; [rewrite (teardowns_update m a x _ p Ha)|rewrite (teardowns_delete m a x p Ha)]; rewrite Htr, H0; cbn [tears];
      rewrite ?decide_True by done; case_cmp; lia.
  - intros q Hq. case_cmp; [by apply (acts_other_update m a x _ p)|by apply (acts_other_delete m a x p)].
  - intros a' y Hy. destruct (refcount port =? 1).
    + destruct (decide (a' = a)) as [->|Hne].
      * rewrite lookup_insert_eq in Hy. injection Hy as <-. right. by split.
      * rewrite lookup_insert_ne in Hy by done. left. split; [done|]. by apply (no_freeing m a').
    + apply lookup_delete_Some in Hy as [_ Hy]. left. split; [done|]. by apply (no_freeing m a').
  - intros i a'. case_cmp; (destruct (decide (a' = a)) as [->|Hne];
      [rewrite ?lookup_insert_eq, ?lookup_delete_eq, Ha; destruct Hx as [->| ->]; done
      |rewrite ?lookup_insert_ne, ?lookup_delete_ne by done; done]).
  - pose proof (pi_size _ _ _ Hi). case_cmp; [rewrite map_size_insert_Some by (by eexists); lia|].
    rewrite map_size_delete_Some by (by eexists). lia.
Qed.

Lemma inv_wake s m b a p g : port_inv s m b -> m !! a = Some (Closing p g) ->
  (exists l, destroy_wake s p = Some l) /\ port_inv s (<[a := Dropping p]> m) b.
Proof.
  intros Hi Ha. destruct (target_in_use s m b a (Closing p g) p Hi Ha eq_refl) as (port & Hp).
  split; [unfold destroy_wake; rewrite (bind_eq _ _ _ (proj1 Hp)); by eexists|].
  destruct (held_not_torn s m b a p port (Closing p g) Hi Ha) as [Hpos H0]; [cbn; by rewrite decide_True|done|].
  destruct (pi_struct _ _ _ Hi p port Hp) as (_ & _ & Hr & _ & Ht).
  rewrite <- (ports_id s p port (proj1 Hp)).
  apply (inv_update s m b p port); [done|done|reflexivity|reflexivity|reflexivity|cbn..].
  - rewrite (refs_update m a _ _ p Ha). cbn. rewrite decide_True by done. lia.
  - rewrite (teardowns_update m a _ _ p Ha). cbn. lia.
  - intros q Hq. by apply (acts_other_update m a (Closing p g) _ p).
  - intros a' x Hx. destruct (decide (a' = a)) as [->|Hne].
    + rewrite lookup_insert_eq in Hx. injection Hx as <-. right. by split.
    + rewrite lookup_insert_ne in Hx by done. left. split; [done|]. by apply (no_freeing m a').
  - intros i a'. destruct (decide (a' = a)) as [->|Hne]; [rewrite lookup_insert_eq, Ha|rewrite lookup_insert_ne by done]; done.
  - rewrite map_size_insert_Some by (by eexists). exact (pi_size _ _ _ Hi).
Qed.

Lemma free_message_shape s x s1 : free_message s x = Some s1 -> exists e pl, s1 = with_memory s e pl.
Proof.
  unfold free_message. case_cmp.
  - cbn. destruct (entries s !! entry x); [|done]. intros [= <-]. by do 2 eexists.
  - destruct (payloads s !! payload x); [cbn|done]. destruct (entries s !! entry x); [|done]. intros [= <-].
    by do 2 eexists.
Qed.

Lemma drain_shape q : forall s s1, drain_queue s q = Some s1 -> exists e pl, s1 = with_memory s e pl.
Proof.
  induction q as [|x q IH]; intros s s1; cbn [drain_queue].
  - intros [= <-]. exists (entries s), (payloads s). by destruct s.
  - destruct (free_message s x) as [s2|] eqn:E; [cbn|done]. intros H.
    apply free_message_shape in E as (e & pl & ->). apply IH in H as (e' & pl' & ->). by exists e', pl'.
Qed.

Lemma inv_drain s m b a p i s' : port_inv s m b -> m !! a = Some (Draining p) -> teardown_drain s p = Some (i, s') ->
  port_inv s' (<[a := Freeing p i]> m) b.
Proof.
  intros Hi Ha E. destruct (target_in_use s m b a (Draining p) p Hi Ha eq_refl) as (port & Hp).
  destruct (torn_not_held s m b a p port (Draining p) Hi Ha) as (H0 & Hr & Hnt & Ht); [cbn; by rewrite decide_True|done|].
  unfold teardown_drain in E. rewrite (bind_eq _ _ _ (proj1 Hp)) in E.
  destruct (drain_queue s (msg_queue port)) as [s1|] eqn:Ed; [cbn in E|done]. injection E as <- <-.
  apply drain_shape in Ed as (e & pl & ->). cbn.
  change (port_inv (with_memory (with_ports s (<[p := with_queues port [] (pending_senders port)]> (ports s))) e pl)
    (<[a := Freeing p (id port)]> m) b). apply inv_memory.
  apply (inv_update s m b p port); [done|done|reflexivity|reflexivity|reflexivity|cbn [refcount with_queues]..].
  - rewrite (refs_update m a _ _ p Ha), Hr, H0. cbn [holds]. unfold tab_ref. by rewrite decide_False.
  - rewrite (teardowns_update m a _ _ p Ha), Ht, H0. cbn [tears]. rewrite !decide_True by done. done.
  - intros q Hq. by apply (acts_other_update m a (Draining p) _ p).
  - intros a' x Hx. destruct (decide (a' = a)) as [->|Hne].
    + rewrite lookup_insert_eq in Hx. injection Hx as <-. right. split; [done|]. by intros i [= <-].
    + rewrite lookup_insert_ne in Hx by done. left. split; [done|]. intros i ->.
      pose proof (teardowns_ge (delete a m) a' (Freeing p i) p) as H. rewrite lookup_delete_ne in H by done.
      specialize (H Hx). rewrite (teardowns_delete m a _ p Ha), Ht in H. cbn in H. rewrite !decide_True in H by done. lia.
  - intros i a'. destruct (decide (a' = a)) as [->|Hne]; [rewrite lookup_insert_eq, Ha|rewrite lookup_insert_ne by done]; done.
  - rewrite map_size_insert_Some by (by eexists). exact (pi_size _ _ _ Hi).
Qed.

(** What [port_struct_free] leaves in use. *)
Lemma struct_free_spec s m b p port : port_inv s m b -> in_use s p port ->
  exists s', port_struct_free s p = Some s' /\ s_table s' = s_table s /\ s_freelist s' = s_freelist s /\
    s_generation s' = s_generation s /\ owned s' = owned s /\ entries s' = entries s /\ payloads s' = payloads s /\
    (forall q x, in_use s' q x <-> q <> p /\ in_use s q x) /\
    NoDup (s_recycle s') /\ forall q, q ∈ s_recycle s' -> 0 < q /\ is_Some (ports s' !! q).
Proof.
  intros Hi [Hp Hr]. destruct (pi_struct _ _ _ Hi p port (conj Hp Hr)) as (Hp0 & _). unfold port_struct_free. case_cmp.
  - eexists. split; [done|]. cbn. split_and!; try done.
    + intros q x. unfold in_use. cbn. rewrite not_elem_of_cons. tauto.
    + apply NoDup_cons. split; [done|exact (pi_recycle _ _ _ Hi)].
    + intros q [->|Hq]%elem_of_cons; [split; [done|by eexists]|]. by apply (pi_recycled _ _ _ Hi).
  - rewrite (bind_eq _ _ _ Hp). eexists. split; [done|]. cbn. split_and!; try done.
    + intros q x. unfold in_use. cbn. rewrite lookup_delete_Some. intuition congruence.
    + exact (pi_recycle _ _ _ Hi).
    + intros q Hq. destruct (pi_recycled _ _ _ Hi q Hq) as [? [x Hx]]. split; [done|]. exists x. cbn.
      rewrite lookup_delete_ne; [done|]. intros <-. done.
Qed.

Lemma inv_free s m b a p i : port_inv s m b -> m !! a = Some (Freeing p i) ->
  exists s', port_struct_free s p = Some s' /\ port_inv s' (<[a := Returning i]> m) b.
Proof.
  intros Hi Ha. destruct (pi_acts _ _ _ Hi a _ Ha) as (port & Hp & Eid & _).
  destruct (torn_not_held s m b a p port (Freeing p i) Hi Ha) as (H0 & Hr & Hnt & Ht); [cbn; by rewrite decide_True|done|].
  destruct (struct_free_spec s m b p port Hi Hp) as (s' & E & Etab & Efl & Egen & _ & _ & _ & Hiu & Hnd & Hrec).
  exists s'. split; [done|].
  destruct (pi_struct _ _ _ Hi p port Hp) as (_ & Hrange & _).
  assert (forall a' x q, m !! a' = Some x -> a' <> a -> target x = Some q -> q <> p) as Hother.
  { intros a' x q Hx Hne Htx ->. pose proof (refs_ge m a' x p Hx) as R.
    pose proof (teardowns_ge (delete a m) a' x p) as T. rewrite lookup_delete_ne in T by done. specialize (T Hx).
    rewrite (teardowns_delete m a _ p Ha), Ht in T. cbn in T. rewrite !decide_True in T by done.
    destruct x; cbn in *; try done; injection Htx as ->; rewrite decide_True in * by done; lia. }
  assert (forall q, q <> p -> refs (<[a := Returning i]> m) q = refs m q /\ teardowns (<[a := Returning i]> m) q = teardowns m q) as Hq.
  { intros q Hne. rewrite (refs_update m a _ _ q Ha), (teardowns_update m a _ _ q Ha). cbn. rewrite decide_False by congruence. lia. }
  constructor.
  - intros q x Hx. apply Hiu in Hx as [Hne Hx]. destruct (pi_struct _ _ _ Hi q x Hx) as (? & ? & ? & ? & ?).
    destruct (Hq q Hne) as [-> ->]. unfold tabled, tab_ref in *. rewrite Etab. split_and!; done || lia.
  - intros j q Hj. rewrite Etab in Hj. destruct (pi_table _ _ _ Hi j q Hj) as (x & Hx & <- & Hg). exists x.
    rewrite Egen. split; [|done]. apply Hiu. split; [|done]. intros ->. apply Hnt.
    unfold tabled. by rewrite (in_use_det s p port x Hp Hx).
  - rewrite Egen. exact (pi_born _ _ _ Hi).
  - intros a' x Hx. destruct (decide (a' = a)) as [->|Hne].
    + rewrite lookup_insert_eq in Hx. injection Hx as <-. cbn. rewrite Efl. split_and!; [lia|lia| | |].
      * intros Hif. apply (pi_free_ids _ _ _ Hi i Hif) with p port; done.
      * intros q x [Hne Hx]%Hiu Ex. apply Hne. apply (pi_ids _ _ _ Hi q p x port Hx Hp). congruence.
      * intros a' Ha'. destruct (decide (a' = a)) as [|Hne]; [done|]. rewrite lookup_insert_ne in Ha' by done.
        destruct (pi_acts _ _ _ Hi a' _ Ha') as (_ & _ & Hno & _). by destruct (Hno p port Hp).
    + rewrite lookup_insert_ne in Hx by done. pose proof (pi_acts _ _ _ Hi a' x Hx) as Hok.
      pose proof (Hother a' x) as Ho.
      destruct x as [q|q g|q|q|q j|j]; cbn in *.
      1-4: destruct Hok as (y & Hy); exists y; apply Hiu; split; [by apply Ho|done].
      * destruct Hok as (y & Hy & ? & ?). exists y. split; [apply Hiu; split; [by apply Ho|done]|done].
      * destruct Hok as (? & ? & Hno & Huniq). rewrite Efl. split_and!; try done; try lia.
        -- intros q y [_ Hy]%Hiu. by apply (Hno q).
        -- intros a2 Ha2. destruct (decide (a2 = a)) as [->|Hn2]; [|rewrite lookup_insert_ne in Ha2 by done; by apply Huniq].
           rewrite lookup_insert_eq in Ha2. injection Ha2 as ->. by destruct (Hno p port Hp).
  - intros q r x y [_ Hx]%Hiu [_ Hy]%Hiu. by apply (pi_ids _ _ _ Hi).
  - rewrite Efl. exact (pi_free _ _ _ Hi).
  - intros j Hj. rewrite Efl in Hj. destruct (pi_free_ids _ _ _ Hi j Hj) as [? Hn]. split; [done|].
    intros q x [_ Hx]%Hiu. by apply (Hn q).
  - intros j Hj. rewrite Efl. destruct (pi_cover _ _ _ Hi j Hj) as [?|[(q & x & Hx & <-)|(a' & Ha')]]; [by left| |].
    + right. destruct (decide (q = p)) as [->|Hne].
      * right. exists a. rewrite lookup_insert_eq. do 2 f_equal. by rewrite (in_use_det s p x port Hx Hp).
      * left. exists q, x. split; [by apply Hiu|done].
    + right; right. exists a'. rewrite lookup_insert_ne; [done|]. intros <-. congruence.
  - done.
  - done.
  - rewrite map_size_insert_Some by (by eexists). exact (pi_size _ _ _ Hi).
Qed.

(** The free ids fit in their array. *)
Lemma freelist_room s m b : port_inv s m b -> Z.of_nat (length (s_freelist s)) < MAX_PORTS.
Proof.
  intros Hi. assert (s_freelist s ⊆+ seqZ 1 (MAX_PORTS - 1)) as Hs.
  { apply NoDup_submseteq; [exact (pi_free _ _ _ Hi)|]. intros i Hif. apply elem_of_seqZ.
    destruct (pi_free_ids _ _ _ Hi i Hif) as [? _]. unfold MAX_PORTS in *. lia. }
  apply submseteq_length in Hs. rewrite length_seqZ in Hs. unfold MAX_PORTS in *. lia.
Qed.

Lemma inv_return s m b a i : port_inv s m b -> m !! a = Some (Returning i) ->
  push_id s i = Some (with_freelist s (i :: s_freelist s)) /\
  port_inv (with_freelist s (i :: s_freelist s)) (delete a m) b.
Proof.
  intros Hi Ha. destruct (pi_acts _ _ _ Hi a _ Ha) as (Hr & Hnf & Hno & Huniq).
  split; [unfold push_id; by rewrite (proj2 (Z.ltb_lt _ _)) by exact (freelist_room s m b Hi)|].
  assert (forall q, refs (delete a m) q = refs m q /\ teardowns (delete a m) q = teardowns m q) as Hq.
  { intros q. rewrite (refs_delete m a _ q Ha), (teardowns_delete m a _ q Ha). cbn. lia. }
  constructor; cbn.
  - intros q x Hx. destruct (Hq q) as [-> ->]. by apply (pi_struct _ _ _ Hi).
  - exact (pi_table _ _ _ Hi).
  - exact (pi_born _ _ _ Hi).
  - intros a' x Hx. apply lookup_delete_Some in Hx as [Hne Hx]. pose proof (pi_acts _ _ _ Hi a' x Hx) as Hok.
    destruct x as [q|q g|q|q|q j|j]; try exact Hok. destruct Hok as (? & Hnj & ? & Hu). split_and!; try done; try lia.
    + cbn. intros [->|?]%elem_of_cons; [|done]. by apply Hne, Hu.
    + intros a2 Ha2. apply lookup_delete_Some in Ha2 as [_ Ha2]. by apply Hu.
  - exact (pi_ids _ _ _ Hi).
  - apply NoDup_cons. split; [done|exact (pi_free _ _ _ Hi)].
  - intros j [->|Hj]%elem_of_cons; [by split|]. by apply (pi_free_ids _ _ _ Hi).
  - intros j Hj. destruct (decide (j = i)) as [->|Hne]; [left; by left|].
    destruct (pi_cover _ _ _ Hi j Hj) as [?|[?|(a' & Ha')]]; [left; by right|right; by left|].
    right; right. exists a'. rewrite lookup_delete_ne; [done|]. intros <-. congruence.
  - exact (pi_recycle _ _ _ Hi).
  - exact (pi_recycled _ _ _ Hi).
  - pose proof (pi_size _ _ _ Hi). rewrite map_size_delete_Some by (by eexists). lia.
Qed.

(** ** Creation *)

(** [kcalloc] answers 0 or memory nobody has. *)
Definition fresh_ok (s : ipc_ports) (fresh : Z) : Prop := fresh = 0 \/ 0 < fresh /\ ports s !! fresh = None.

(** A new port at [p] under [i], before the owner's list. *)
Definition hooked (s : ipc_ports) (i p : Z) (rest rec : list Z) (port : ipc_port_t) : ipc_ports :=
  mk_ports (<[i := p]> (s_table s)) rest (<[i := generation port]> (s_generation s)) rec
    (<[p := port]> (ports s)) (owned s) (entries s) (payloads s).

Definition new_port (s : ipc_ports) (i pid : Z) : ipc_port_t :=
  mk_port i pid false (default 0 (s_generation s !! i) ⊞ 1) 1 [] []
    (match owned s !! pid with Some _ => true | None => false end).

Definition claim_owner (s : ipc_ports) (pid p : Z) : ipc_ports :=
  match owned s !! pid with Some l => with_owned s (<[pid := l ++ [p]]> (owned s)) | None => s end.

Lemma create_spec s m b pid fresh : port_inv s m b -> fresh_ok s fresh ->
  ipc_port_create s pid fresh = Some (IPC_ERR_NO_MEMORY, s) /\
    (s_freelist s = [] \/ fresh = 0 /\ s_recycle s = []) \/
  exists i rest p rec, s_freelist s = i :: rest /\ 0 < p /\
    (s_recycle s = p :: rec \/ s_recycle s = [] /\ rec = [] /\ ports s !! p = None) /\
    ipc_port_create s pid fresh = Some (i, claim_owner (hooked s i p rest rec (new_port s i pid)) pid p).
Proof.
  intros Hi Hf. unfold ipc_port_create. destruct (s_freelist s) as [|i rest] eqn:Efl; [left; split; [done|by left]|].
  unfold port_struct_alloc. cbn [s_recycle with_freelist].
  destruct (s_recycle s) as [|p rec] eqn:Er.
  - destruct (Z.eqb_spec fresh 0) as [->|Hf0].
    + left. split; [|by right]. cbn. unfold push_id. cbn [s_freelist with_freelist].
      pose proof (freelist_room s m b Hi) as Hl. rewrite Efl in Hl. cbn [length] in Hl.
      rewrite (proj2 (Z.ltb_lt _ _)) by lia. cbn. destruct s; cbn in *. by subst.
    + right. destruct Hf as [?|[Hpos Hfr]]; [done|]. exists i, rest, fresh, []. split_and!; try done; [by right|].
      cbn. rewrite (proj2 (Z.eqb_neq fresh 0)) by lia. unfold with_ports, with_generation, with_table. cbn.
      rewrite insert_insert_eq. unfold claim_owner, hooked, new_port. cbn. rewrite Er.
      by destruct (owned s !! pid).
  - right. destruct (pi_recycled _ _ _ Hi p) as (Hp0 & [x Hx]); [rewrite Er; by left|].
    exists i, rest, p, rec. split_and!; try done; [by left|]. cbn. rewrite Hx. cbn.
    rewrite (proj2 (Z.eqb_neq p 0)) by lia. unfold with_ports, with_generation, with_table. cbn.
    rewrite insert_insert_eq. unfold claim_owner, hooked, new_port. cbn. by destruct (owned s !! pid).
Qed.

Lemma inv_hook s m b i pid p rest rec : port_inv s m b -> s_freelist s = i :: rest -> 0 < p ->
  (s_recycle s = p :: rec \/ s_recycle s = [] /\ rec = [] /\ ports s !! p = None) ->
  port_inv (hooked s i p rest rec (new_port s i pid)) m (<[i := births b i + 1]> b).
Proof.
  intros Hi Efl Hp0 Hp. set (s' := hooked _ _ _ _ _ _).
  assert (forall x, ~ in_use s p x) as Hunused.
  { intros x [Hx Hr]. destruct Hp as [Hp|(_ & _ & Hp)]; [|congruence]. apply Hr. rewrite Hp. by left. }
  destruct (no_target s m b p Hi Hunused) as [Hr0 Ht0].
  destruct (pi_free_ids _ _ _ Hi i) as [Hir Hin]; [rewrite Efl; by left|].
  assert ((p ∉ rec) /\ NoDup rec /\ forall q, q ∈ rec -> q ∈ s_recycle s) as (Hprec & Hndr & Hsub).
  { pose proof (pi_recycle _ _ _ Hi) as Hnd. destruct Hp as [Hp|(Hp & -> & _)].
    - rewrite Hp in *. apply NoDup_cons in Hnd as [? ?]. split_and!; try done. intros q ?. by right.
    - split_and!; [apply not_elem_of_nil|apply NoDup_nil_2|]. intros q Hq. by apply elem_of_nil in Hq. }
  assert (forall q x, in_use s' q x <-> q = p /\ x = new_port s i pid \/ q <> p /\ in_use s q x) as Hiu.
  { intros q x. unfold in_use, s', hooked. cbn. destruct (decide (q = p)) as [->|Hne].
    - rewrite lookup_insert_eq. split; [intros [[= <-] _]; by left|]. intros [[_ ->]|[? _]]; done.
    - rewrite lookup_insert_ne by done. split.
      + intros [Hx Hq]. right. split; [done|]. split; [done|]. destruct Hp as [Hp|(Hp & _)]; rewrite Hp.
        * by rewrite not_elem_of_cons.
        * apply not_elem_of_nil.
      + intros [[? _]|(_ & Hx & Hq)]; [done|]. split; [done|]. intros H. by apply Hq, Hsub. }
  assert (forall j q, s_table s !! j = Some q -> j <> i) as Hti.
  { intros j q Hj ->. destruct (pi_table _ _ _ Hi i q Hj) as (x & Hx & Ex & _). by apply (Hin q x). }
  pose proof (pi_free _ _ _ Hi) as Hnd. rewrite Efl in Hnd. apply NoDup_cons in Hnd as [Hirest Hndrest].
  assert (forall j, default 0 (s_generation s' !! j) = u32 (births (<[i := births b i + 1]> b) j)) as Hborn.
  { intros j. unfold s', hooked, births. cbn. destruct (decide (j = i)) as [->|Hne].
    - rewrite !lookup_insert_eq. cbn. destruct (pi_born _ _ _ Hi i) as [_ E]. unfold births in E. rewrite E. by rewrite u32_add_l.
    - rewrite !lookup_insert_ne by done. by destruct (pi_born _ _ _ Hi j). }
  constructor.
  - intros q x Hx. apply Hiu in Hx as [[-> ->]|[Hne Hx]].
    + unfold tabled, tab_ref, s'. cbn. rewrite lookup_insert_eq, decide_True, Hr0, Ht0 by done. split_and!; done || lia.
    + destruct (pi_struct _ _ _ Hi q x Hx) as (H1 & H2 & H3 & H4 & H5). unfold tabled, tab_ref, s' in *. cbn.
      assert (id x <> i) as Hxi by (by apply (Hin q)). rewrite lookup_insert_ne by done. split_and!; done || lia.
  - intros j q Hj. unfold s' in Hj. cbn in Hj. destruct (decide (j = i)) as [->|Hne].
    + rewrite lookup_insert_eq in Hj. injection Hj as <-. exists (new_port s i pid). split; [apply Hiu; by left|].
      split; [done|]. unfold s'. cbn. by rewrite lookup_insert_eq.
    + rewrite lookup_insert_ne in Hj by done. destruct (pi_table _ _ _ Hi j q Hj) as (x & Hx & Ex & Eg).
      exists x. split; [apply Hiu; right; split; [|done]|].
      * intros ->. by apply Hunused in Hx.
      * split; [done|]. unfold s'. cbn. by rewrite lookup_insert_ne.
  - intros j. split; [|apply Hborn]. unfold births. destruct (pi_born _ _ _ Hi i) as [Hb _]. unfold births in Hb.
    destruct (decide (j = i)) as [->|Hne]; [rewrite lookup_insert_eq; cbn; lia|].
    rewrite lookup_insert_ne by done. apply (pi_born _ _ _ Hi j).
  - intros a x Ha. pose proof (pi_acts _ _ _ Hi a x Ha) as Hok.
    assert (forall q y, in_use s q y -> in_use s' q y) as Hup.
    { intros q y Hy. apply Hiu. right. split; [|done]. intros ->. by apply Hunused in Hy. }
    destruct x as [q|q g|q|q|q j|j]; cbn in *.
    1-4: destruct Hok as (y & Hy); exists y; by apply Hup.
    + destruct Hok as (y & Hy & ? & ?). exists y. by split; [apply Hup|].
    + destruct Hok as (? & Hnf & Hno & Hu). rewrite Efl in Hnf. apply not_elem_of_cons in Hnf as [Hji Hnf].
      split_and!; try done; try lia. intros q y [[-> ->]|[_ Hy]]%Hiu; [done|by apply (Hno q)].
  - intros q r x y Hx Hy E. apply Hiu in Hx as [[-> ->]|[Hq Hx]], Hy as [[-> ->]|[Hr Hy]]; [done| | |].
    + by destruct (Hin r y Hy).
    + by destruct (Hin q x Hx).
    + by apply (pi_ids _ _ _ Hi q r x y).
  - done.
  - intros j Hj. destruct (pi_free_ids _ _ _ Hi j) as [? Hn]; [rewrite Efl; by right|]. split; [done|].
    intros q x [[-> ->]|[_ Hx]]%Hiu; [cbn; intros ->; by apply Hirest|by apply (Hn q)].
  - intros j Hj. destruct (decide (j = i)) as [->|Hne].
    + right; left. exists p, (new_port s i pid). split; [apply Hiu; by left|done].
    + destruct (pi_cover _ _ _ Hi j Hj) as [Hf|[(q & x & Hx & <-)|?]]; [left|right; left|by right; right].
      * rewrite Efl in Hf. by apply elem_of_cons in Hf as [?|?].
      * exists q, x. split; [apply Hiu; right; split; [|done]|done]. intros ->. by apply Hunused in Hx.
  - done.
  - intros q Hq. destruct (pi_recycled _ _ _ Hi q (Hsub q Hq)) as [? Hs]. split; [done|]. unfold s'. cbn.
    apply lookup_insert_is_Some'. by right.
  - exact (pi_size _ _ _ Hi).
Qed.

(** ** Message memory *)

Definition queue_payloads (q : list port_msg_entry_t) : list Z := filter (fun x => x <> 0) (payload <$> q).

(** The keys of [M] under [p] are exactly [l]. *)
Definition owned_by (M : gmap Z Z) (l : list Z) (p : Z) : Prop := NoDup l /\ forall x, M !! x = Some p <-> x ∈ l.

(** Every buffer on the books sits in one queue, once. *)
Record queues_inv (s : ipc_ports) : Prop := {
  qi_entries : forall p port, in_use s p port -> owned_by (entries s) (entry <$> msg_queue port) p;
  qi_payloads : forall p port, in_use s p port -> owned_by (payloads s) (queue_payloads (msg_queue port)) p;
  qi_entry : forall e p, entries s !! e = Some p -> exists port, in_use s p port;
  qi_payload : forall e p, payloads s !! e = Some p -> exists port, in_use s p port
}.

Lemma owned_by_insert M l p x : M !! x = None -> owned_by M l p -> owned_by (<[x := p]> M) (l ++ [x]) p.
Proof.
  intros Hx [Hn Hl]. split.
  - apply NoDup_app. split; [done|]. split; [|apply NoDup_singleton].
    intros y Hy ->%list_elem_of_singleton. apply Hl in Hy. congruence.
  - intros y. rewrite elem_of_app, list_elem_of_singleton. destruct (decide (y = x)) as [->|Hne].
    + rewrite lookup_insert_eq. split; [by right|done].
    + rewrite lookup_insert_ne by done. rewrite Hl. tauto.
Qed.

Lemma owned_by_insert_ne M l p q x : M !! x = None -> q <> p -> owned_by M l q -> owned_by (<[x := p]> M) l q.
Proof.
  intros Hx Hqp [Hn Hl]. split; [done|]. intros y. rewrite <- Hl. destruct (decide (y = x)) as [->|Hne].
  - rewrite lookup_insert_eq, Hx. split; congruence.
  - by rewrite lookup_insert_ne.
Qed.

Lemma owned_by_delete M l p x : owned_by M (x :: l) p -> owned_by (delete x M) l p.
Proof.
  intros [[Hx Hn]%NoDup_cons Hl]. split; [done|]. intros y. rewrite lookup_delete_Some, Hl, elem_of_cons.
  split; [intros [? [?|?]]; congruence|]. intros Hy. split; [|by right]. by intros ->.
Qed.

Lemma owned_by_delete_ne M l p q x : M !! x = Some p -> q <> p -> owned_by M l q -> owned_by (delete x M) l q.
Proof.
  intros Hx Hqp [Hn Hl]. split; [done|]. intros y. rewrite <- Hl, lookup_delete_Some. split; [by intros [_ ?]|].
  intros Hy. split; [|done]. intros <-. congruence.
Qed.

Lemma owned_by_empty M p : (forall x, M !! x <> Some p) -> owned_by M [] p.
Proof. intros H. split; [apply NoDup_nil_2|]. intros x. split; [by intros ?%H|by intros ?%elem_of_nil]. Qed.

Lemma queue_payloads_cons x q : queue_payloads (x :: q) = (if decide (payload x <> 0) then [payload x] else []) ++ queue_payloads q.
Proof. unfold queue_payloads. cbn [fmap list_fmap]. rewrite filter_cons. by case_decide. Qed.

Lemma queue_payloads_app q1 q2 : queue_payloads (q1 ++ q2) = queue_payloads q1 ++ queue_payloads q2.
Proof. unfold queue_payloads. by rewrite fmap_app, filter_app. Qed.

Lemma payload_zero s : queues_inv s -> payloads s !! 0 = None.
Proof.
  intros Hq. destruct (payloads s !! 0) as [p|] eqn:E; [|done]. destruct (qi_payload _ Hq 0 p E) as (port & Hp).
  apply (qi_payloads _ Hq p port Hp) in E. by apply list_elem_of_filter in E as [? _].
Qed.

(** Sections that leave the queues alone. *)
Lemma queues_same s s' : queues_inv s -> entries s' = entries s -> payloads s' = payloads s ->
  (forall p port', in_use s' p port' -> exists port, in_use s p port /\ msg_queue port' = msg_queue port) ->
  (forall p port, in_use s p port -> (exists port', in_use s' p port') \/ msg_queue port = []) -> queues_inv s'.
Proof.
  intros [H1 H2 H3 H4] Ee Ep Hb Hf. constructor; rewrite ?Ee, ?Ep.
  - intros p port' Hp. destruct (Hb p port' Hp) as (port & Hp0 & ->). by apply H1.
  - intros p port' Hp. destruct (Hb p port' Hp) as (port & Hp0 & ->). by apply H2.
  - intros e p He. destruct (H3 e p He) as (port & Hp). destruct (Hf p port Hp) as [?|Hnil]; [done|].
    apply (H1 p port Hp) in He. rewrite Hnil in He. by apply elem_of_nil in He.
  - intros e p He. destruct (H4 e p He) as (port & Hp). destruct (Hf p port Hp) as [?|Hnil]; [done|].
    apply (H2 p port Hp) in He. rewrite Hnil in He. by apply elem_of_nil in He.
Qed.

Lemma queues_update s p port port' : queues_inv s -> in_use s p port -> msg_queue port' = msg_queue port ->
  queues_inv (with_ports s (<[p := port']> (ports s))).
Proof.
  intros Hq Hp Em. apply (queues_same s); try done.
  - intros q x [[-> ->]|[_ Hx]]%(in_use_update s p port port' q x Hp); [by exists port|by exists x].
  - intros q x Hx. left. destruct (decide (q = p)) as [->|Hne].
    + exists port'. apply (in_use_update s p port port' p port' Hp). by left.
    + exists x. apply (in_use_update s p port port' q x Hp). by right.
Qed.

(** The queue of [p] changes together with the books. *)
Lemma queues_change s p port port' e pl : queues_inv s -> in_use s p port ->
  owned_by e (entry <$> msg_queue port') p -> owned_by pl (queue_payloads (msg_queue port')) p ->
  (forall q x, q <> p -> e !! x = Some q <-> entries s !! x = Some q) ->
  (forall q x, q <> p -> pl !! x = Some q <-> payloads s !! x = Some q) ->
  queues_inv (with_memory (with_ports s (<[p := port']> (ports s))) e pl).
Proof.
  intros [H1 H2 H3 H4] Hp He Hpl Hne Hnp.
  pose proof (fun q x => in_use_update s p port port' q x Hp) as Hiu.
  assert (forall q x, in_use (with_memory (with_ports s (<[p := port']> (ports s))) e pl) q x <->
    (q = p /\ x = port' \/ q <> p /\ in_use s q x)) as Hiu' by exact Hiu.
  constructor.
  - intros q x [[-> ->]|[Hq Hx]]%Hiu'; [done|]. destruct (H1 q x Hx) as [Hn Hl]. split; [done|].
    intros y. cbn. rewrite Hne by done. apply Hl.
  - intros q x [[-> ->]|[Hq Hx]]%Hiu'; [done|]. destruct (H2 q x Hx) as [Hn Hl]. split; [done|].
    intros y. cbn. rewrite Hnp by done. apply Hl.
  - intros y q Hy. cbn in Hy. destruct (decide (q = p)) as [->|Hq]; [exists port'; apply Hiu'; by left|].
    apply Hne in Hy; [|done]. destruct (H3 y q Hy) as (x & Hx). exists x. apply Hiu'. by right.
  - intros y q Hy. cbn in Hy. destruct (decide (q = p)) as [->|Hq]; [exists port'; apply Hiu'; by left|].
    apply Hnp in Hy; [|done]. destruct (H4 y q Hy) as (x & Hx). exists x. apply Hiu'. by right.
Qed.

(** The teardown frees a queue: every free is of a buffer on the books, and none is left. *)
Lemma drain_queue_spec p q : forall s, owned_by (entries s) (entry <$> q) p -> owned_by (payloads s) (queue_payloads q) p ->
  exists e pl, drain_queue s q = Some (with_memory s e pl) /\ owned_by e [] p /\ owned_by pl [] p /\
    (forall r x, r <> p -> e !! x = Some r <-> entries s !! x = Some r) /\
    (forall r x, r <> p -> pl !! x = Some r <-> payloads s !! x = Some r).
Proof.
  induction q as [|x q IH]; intros s He Hp; cbn [drain_queue].
  { exists (entries s), (payloads s). split; [by destruct s|]. by split_and!. }
  assert (exists pl1, (if payload x =? 0 then Some s
      else _ ← payloads s !! payload x; Some (with_memory s (entries s) (delete (payload x) (payloads s))))
      = Some (with_memory s (entries s) pl1) /\ owned_by pl1 (queue_payloads q) p /\
      forall r y, r <> p -> pl1 !! y = Some r <-> payloads s !! y = Some r) as (pl1 & E1 & Hp1 & Hpr).
  { rewrite queue_payloads_cons in Hp. case_cmp.
    - rewrite decide_False in Hp by tauto. exists (payloads s). split; [by destruct s|done].
    - rewrite decide_True in Hp by done. exists (delete (payload x) (payloads s)).
      assert (payloads s !! payload x = Some p) as Hx by (apply Hp; by left). rewrite Hx. split; [done|].
      split; [by apply owned_by_delete|]. intros r y Hr. rewrite lookup_delete_Some. split; [by intros [_ ?]|].
      intros Hy. split; [|done]. intros <-. congruence. }
  unfold free_message. rewrite E1. cbn [mbind option_bind entries payloads with_memory].
  cbn [fmap list_fmap] in He. assert (entries s !! entry x = Some p) as Hx by (apply He; by left).
  rewrite Hx. cbn [mbind option_bind].
  destruct (IH (with_memory (with_memory s (entries s) pl1) (delete (entry x) (entries s)) pl1))
    as (e & pl & E & H1 & H2 & H3 & H4); [by apply owned_by_delete|done|].
  exists e, pl. split; [exact E|]. split_and!; try done.
  - intros r y Hr. rewrite (H3 r y Hr). cbn. rewrite lookup_delete_Some. split; [by intros [_ ?]|].
    intros Hy. split; [|done]. intros <-. congruence.
  - intros r y Hr. rewrite (H4 r y Hr). cbn. by apply Hpr.
Qed.

(** ** Owners *)

(** A process's list holds its live ports, once each. *)
Record owner_inv (s : ipc_ports) : Prop := {
  oi_list : forall pid l, owned s !! pid = Some l -> NoDup l /\
    forall p, p ∈ l <-> exists port, in_use s p port /\ tabled s p port /\ owner_pid port = pid;
  oi_linked : forall p port, in_use s p port -> tabled s p port ->
    owner_linked port = true <-> is_Some (owned s !! owner_pid port)
}.

(** Live ports and lists stay as they are. *)
Lemma owner_same s s' : owner_inv s -> owned s' = owned s ->
  (forall p port', in_use s' p port' -> tabled s' p port' -> exists port, in_use s p port /\ tabled s p port /\
     owner_pid port' = owner_pid port /\ owner_linked port' = owner_linked port) ->
  (forall p port, in_use s p port -> tabled s p port -> exists port', in_use s' p port' /\ tabled s' p port' /\
     owner_pid port' = owner_pid port) -> owner_inv s'.
Proof.
  intros [H1 H2] Eo Hb Hf. constructor; rewrite Eo.
  - intros pid l Hl. destruct (H1 pid l Hl) as [Hn Hp]. split; [done|]. intros p. rewrite Hp. split.
    + intros (port & Hx & Ht & <-). destruct (Hf p port Hx Ht) as (port' & ? & ? & ?). by exists port'.
    + intros (port' & Hx & Ht & <-). destruct (Hb p port' Hx Ht) as (port & ? & ? & ? & _). by exists port.
  - intros p port' Hx Ht. destruct (Hb p port' Hx Ht) as (port & Hx0 & Ht0 & -> & ->). exact (H2 p port Hx0 Ht0).
Qed.

Lemma owner_update s p port port' : owner_inv s -> in_use s p port -> id port' = id port ->
  owner_pid port' = owner_pid port -> owner_linked port' = owner_linked port ->
  owner_inv (with_ports s (<[p := port']> (ports s))).
Proof.
  intros Ho Hp Ei Eo El. apply (owner_same s); [done|done| |].
  - intros q x [[-> ->]|[_ Hx]]%(in_use_update s p port port' q x Hp) Ht; [|by exists x].
    exists port. unfold tabled in *. cbn in Ht. rewrite Ei in Ht. done.
  - intros q x Hx Ht. destruct (decide (q = p)) as [->|Hne].
    + exists port'. split; [apply (in_use_update s p port port' p port' Hp); by left|].
      assert (x = port) as -> by (by apply (in_use_det s p)). unfold tabled in *. cbn. by rewrite Ei.
    + exists x. split; [apply (in_use_update s p port port' q x Hp); by right|]. by split.
Qed.

Lemma owner_memory s e pl : owner_inv s -> owner_inv (with_memory s e pl).
Proof. intros []. by constructor. Qed.

(** The section of [ipc_port_destroy] is defined, and takes the port off its owner's list. *)
Lemma owner_unhook s m b i p port : port_inv s m b -> owner_inv s -> in_use s p port -> id port = i ->
  s_table s !! i = Some p ->
  exists s' g pend, destroy_close s i = Some (p, g, pend, s') /\ owner_inv s' /\ (queues_inv s -> queues_inv s').
Proof.
  intros Hi Ho Hp Eid Et. assert (tabled s p port) as Htab by (unfold tabled; by rewrite Eid).
  destruct (close_spec s m b i Hi) as [[_ [Hv|Hv]]|(q & x & Eq & Hx & Exid & Hq0 & _ & Ev & E)].
  { destruct (pi_struct _ _ _ Hi p port Hp) as (_ & Hr & _). unfold id_valid in Hv. apply negb_false_iff in Hv.
    apply orb_true_iff in Hv as [Hv%Z.eqb_eq|Hv%Z.leb_le]; lia. }
  { congruence. }
  assert (q = p) as -> by congruence. assert (x = port) as -> by (by apply (in_use_det s p)). clear Eq Hx Exid.
  pose proof (fun q x => in_use_update s p port (as_closed port) q x Hp) as Hiu.
  assert (forall q x, tabled (unhooked s i p port) q x -> id x <> i /\ tabled s q x) as Htb.
  { intros q x. unfold tabled. cbn. rewrite lookup_delete_Some. intros [??]. by split. }
  assert (forall q x, q <> p -> in_use s q x -> tabled s q x -> tabled (unhooked s i p port) q x) as Htf.
  { intros q x Hne Hx. unfold tabled. cbn. intros Ht. rewrite lookup_delete_ne; [done|]. intros ->. congruence. }
  assert (forall q x, in_use (unhooked s i p port) q x -> tabled (unhooked s i p port) q x -> q <> p /\ in_use s q x /\ tabled s q x) as Hback.
  { intros q x Hx Ht. apply Htb in Ht as [Hne Ht]. assert (in_use (with_ports s (<[p := as_closed port]> (ports s))) q x) as Hx' by exact Hx.
    apply Hiu in Hx' as [[-> ->]|[Hq Hx']]; [|done]. by destruct Hne. }
  assert (queues_inv s -> queues_inv (unhooked s i p port)) as Hqs.
  { intros Hq. pose proof (queues_update s p port (as_closed port) Hq Hp eq_refl) as [Q1 Q2 Q3 Q4]. by constructor. }
  cbn zeta in E. destruct (owner_linked port) eqn:El.
  - apply (oi_linked _ Ho p port Hp Htab) in El as [l Hl]. rewrite Hl in E. cbn in E. do 3 eexists. split; [exact E|].
    split; [|intros Hq; destruct (Hqs Hq) as [Q1 Q2 Q3 Q4]; by constructor].
    destruct (oi_list _ Ho _ l Hl) as [Hn Hpl]. constructor.
    + intros pid l' Hl'. cbn in Hl'. destruct (decide (pid = owner_pid port)) as [->|Hne].
      * rewrite lookup_insert_eq in Hl'. injection Hl' as <-. split; [by apply NoDup_filter|]. intros q.
        rewrite list_elem_of_filter, Hpl. split.
        -- intros (Hqp & x & Hx & Ht & Eo). exists x. split; [|split; [by apply Htf|done]].
           apply (Hiu q x). by right.
        -- intros (x & Hx & Ht & Eo). destruct (Hback q x Hx Ht) as (? & ? & ?). split; [done|]. by exists x.
      * rewrite lookup_insert_ne in Hl' by done. destruct (oi_list _ Ho _ l' Hl') as [Hn' Hpl']. split; [done|].
        intros q. rewrite Hpl'. split.
        -- intros (x & Hx & Ht & Eo). assert (q <> p) as Hqp.
           { intros ->. assert (x = port) as -> by (by apply (in_use_det s p)). congruence. }
           exists x. split; [|split; [by apply Htf|done]]. apply (Hiu q x). by right.
        -- intros (x & Hx & Ht & Eo). destruct (Hback q x Hx Ht) as (? & ? & ?). by exists x.
    + intros q x Hx Ht. destruct (Hback q x Hx Ht) as (? & Hx0 & Ht0). cbn. rewrite (oi_linked _ Ho q x Hx0 Ht0).
      rewrite lookup_insert_is_Some'. split; [by right|]. intros [<-|?]; [by eexists|done].
  - do 3 eexists. split; [exact E|]. split; [|done].
    assert (owned s !! owner_pid port = None) as Hnone.
    { destruct (owned s !! owner_pid port) eqn:E'; [|done]. rewrite (proj2 (oi_linked _ Ho p port Hp Htab)) in El; [done|].
      by rewrite E'. }
    constructor.
    + intros pid l' Hl'. cbn in Hl'. destruct (oi_list _ Ho _ l' Hl') as [Hn' Hpl']. split; [done|].
      intros q. rewrite Hpl'. split.
      * intros (x & Hx & Ht & Eo). assert (q <> p) as Hqp.
        { intros ->. assert (x = port) as -> by (by apply (in_use_det s p)). congruence. }
        exists x. split; [|split; [by apply Htf|done]]. apply (Hiu q x). by right.
      * intros (x & Hx & Ht & Eo). destruct (Hback q x Hx Ht) as (? & ? & ?). by exists x.
    + intros q x Hx Ht. destruct (Hback q x Hx Ht) as (? & Hx0 & Ht0). exact (oi_linked _ Ho q x Hx0 Ht0).
Qed.

(** ** Histories *)

Definition ports_ok (c : config) : Prop :=
  port_inv (kernel c) (acts c) (born c) /\ queues_inv (kernel c) /\ owner_inv (kernel c).

(** The structure a creation takes was nobody's, and is the only one that comes into use. *)
Lemma hooked_in_use s m b i pid p rest rec : port_inv s m b -> s_freelist s = i :: rest ->
  (s_recycle s = p :: rec \/ s_recycle s = [] /\ rec = [] /\ ports s !! p = None) ->
  (forall x, ~ in_use s p x) /\
  (forall q x, in_use (hooked s i p rest rec (new_port s i pid)) q x <->
     q = p /\ x = new_port s i pid \/ q <> p /\ in_use s q x) /\
  (forall q x, in_use (hooked s i p rest rec (new_port s i pid)) q x ->
     tabled (hooked s i p rest rec (new_port s i pid)) q x <-> q = p /\ x = new_port s i pid \/ q <> p /\ tabled s q x).
Proof.
  intros Hi Efl Hp. destruct (pi_free_ids _ _ _ Hi i) as [Hir Hin]; [rewrite Efl; by left|].
  assert (forall x, ~ in_use s p x) as Hunused.
  { intros x [Hx Hr]. destruct Hp as [Hp|(_ & _ & Hp)]; [|congruence]. apply Hr. rewrite Hp. by left. }
  assert (forall q x, in_use (hooked s i p rest rec (new_port s i pid)) q x <->
     q = p /\ x = new_port s i pid \/ q <> p /\ in_use s q x) as Hiu.
  { intros q x. unfold in_use, hooked. cbn. destruct (decide (q = p)) as [->|Hne].
    - rewrite lookup_insert_eq. split; [intros [[= <-] _]; by left|]. intros [[_ ->]|[? _]]; [|done]. split; [done|].
      pose proof (pi_recycle _ _ _ Hi) as Hnd. destruct Hp as [Hp|(_ & -> & _)]; [|apply not_elem_of_nil].
      rewrite Hp in Hnd. by apply NoDup_cons in Hnd as [? _].
    - rewrite lookup_insert_ne by done. destruct Hp as [Hp|(Hp & -> & _)]; rewrite Hp.
      + rewrite not_elem_of_cons. tauto.
      + tauto. }
  split_and!; try done. intros q x [[-> ->]|[Hne Hx]]%Hiu; unfold tabled; cbn.
  - rewrite lookup_insert_eq. split; [intros _; by left|done].
  - rewrite lookup_insert_ne by (intros E; by apply (Hin q x)). tauto.
Qed.

(** A port that comes into use unused, with an empty queue, and [claim_owner]. *)
Section Hooked.
Context (s s1 : ipc_ports) (p : Z) (port : ipc_port_t).
Context (Hunused : forall x, ~ in_use s p x).
Context (Hiu : forall q x, in_use s1 q x <-> q = p /\ x = port \/ q <> p /\ in_use s q x).
Context (Htab : forall q x, in_use s1 q x -> tabled s1 q x <-> q = p /\ x = port \/ q <> p /\ tabled s q x).

Lemma hook_queues : queues_inv s -> msg_queue port = [] -> entries s1 = entries s -> payloads s1 = payloads s -> queues_inv s1.
Proof using Hunused Hiu.
  intros [Q1 Q2 Q3 Q4] Em Ee Ep. constructor; rewrite ?Ee, ?Ep.
  - intros q x [[-> ->]|[_ Hx]]%Hiu; [|by apply Q1]. rewrite Em. apply owned_by_empty. intros e He.
    destruct (Q3 e p He) as (x & Hx). by apply Hunused in Hx.
  - intros q x [[-> ->]|[_ Hx]]%Hiu; [|by apply Q2]. rewrite Em. apply owned_by_empty. intros e He.
    destruct (Q4 e p He) as (x & Hx). by apply Hunused in Hx.
  - intros e q He. destruct (Q3 e q He) as (x & Hx). exists x. apply Hiu. right. split; [|done].
    intros ->. by apply Hunused in Hx.
  - intros e q He. destruct (Q4 e q He) as (x & Hx). exists x. apply Hiu. right. split; [|done].
    intros ->. by apply Hunused in Hx.
Qed.

(** The live ports of a process: the new one is its owner's. *)
Lemma hook_live pid q : (exists x, in_use s1 q x /\ tabled s1 q x /\ owner_pid x = pid) <->
  (exists x, in_use s q x /\ tabled s q x /\ owner_pid x = pid) \/ q = p /\ owner_pid port = pid.
Proof using Hunused Hiu Htab.
  split.
  - intros (x & Hx & Ht & Eo). apply Htab in Ht; [|exact Hx]. apply Hiu in Hx as [[-> ->]|[Hqp Hx]]; [by right|left].
    exists x. destruct Ht as [[? _]|[_ ?]]; done.
  - intros [(x & Hx & Ht & Eo)|[-> Eo]].
    + assert (q <> p) by (intros ->; by apply Hunused in Hx). assert (in_use s1 q x) by (apply Hiu; by right).
      exists x. split; [done|]. split; [|done]. apply Htab; [done|by right].
    + assert (in_use s1 p port) by (apply Hiu; by left). exists port. split; [done|]. split; [|done]. apply Htab; [done|by left].
Qed.

Lemma hook_owner : owner_inv s -> owned s1 = owned s ->
  owner_linked port = match owned s !! owner_pid port with Some _ => true | None => false end ->
  owner_inv (claim_owner s1 (owner_pid port) p).
Proof using Hunused Hiu Htab.
  intros Ho Eown El.
  assert (forall o : gmap Z (list Z), (forall pid, is_Some (o !! pid) <-> is_Some (owned s !! pid)) -> forall q x, in_use s1 q x -> tabled s1 q x ->
    owner_linked x = true <-> is_Some (o !! owner_pid x)) as Hlink.
  { intros o Hd q x Hx Ht. rewrite Hd. apply Htab in Ht; [|exact Hx]. apply Hiu in Hx as [[-> ->]|[Hqp Hx]].
    - rewrite El. destruct (owned s !! owner_pid port); split; [by eexists|done|done|by intros [? ?]].
    - destruct Ht as [[? _]|[_ Ht]]; [done|]. exact (oi_linked _ Ho q x Hx Ht). }
  unfold claim_owner. rewrite Eown. destruct (owned s !! owner_pid port) as [l|] eqn:E.
  - constructor; [|apply Hlink; intros pid; cbn; rewrite lookup_insert_is_Some'; split;
      [intros [<-|?]; [by eexists|done]|by right]].
    intros pid' l' Hl'. cbn in Hl'.
    assert (forall q, q ∈ l' <-> (exists x, in_use s q x /\ tabled s q x /\ owner_pid x = pid') \/ q = p /\ owner_pid port = pid') as Hl.
    { intros q. destruct (decide (pid' = owner_pid port)) as [->|Hne].
      - rewrite lookup_insert_eq in Hl'. injection Hl' as <-. destruct (oi_list _ Ho _ l E) as [_ <-].
        rewrite elem_of_app, list_elem_of_singleton. tauto.
      - rewrite lookup_insert_ne in Hl' by done. destruct (oi_list _ Ho pid' l' Hl') as [_ <-].
        split; [by left|]. intros [?|[_ ?]]; congruence. }
    split; [|intros q; rewrite Hl; symmetry; apply (hook_live pid' q)].
    destruct (decide (pid' = owner_pid port)) as [->|Hne].
    + rewrite lookup_insert_eq in Hl'. injection Hl' as <-. destruct (oi_list _ Ho _ l E) as [Hn Hll].
      apply NoDup_app. split; [done|split; [|apply NoDup_singleton]].
      intros y Hy ->%list_elem_of_singleton. apply Hll in Hy as (x & Hx & _). by apply Hunused in Hx.
    + rewrite lookup_insert_ne in Hl' by done. by destruct (oi_list _ Ho pid' l' Hl').
  - constructor; [|apply Hlink; by rewrite Eown].
    intros pid' l Hl'. rewrite Eown in Hl'. destruct (oi_list _ Ho pid' l Hl') as [Hn Hl]. split; [done|]. intros q. rewrite Hl.
    rewrite (hook_live pid' q). split; [by left|]. intros [?|[_ <-]]; congruence.
Qed.
End Hooked.

Lemma create_ok s m b pid fresh r s' : ports_ok (mk_config s m b) -> fresh_ok s fresh ->
  ipc_port_create s pid fresh = Some (r, s') ->
  ports_ok (mk_config s' m (if r <? 0 then b else <[r := births b r + 1]> b)).
Proof.
  intros (Hi & Hq & Ho) Hf E. cbn in *.
  destruct (create_spec s m b pid fresh Hi Hf) as [[E' _]|(i & rest & p & rec & Efl & Hp0 & Hp & E')];
    rewrite E' in E; injection E as <- <-; [done|].
  destruct (pi_free_ids _ _ _ Hi i) as [Hir _]; [rewrite Efl; by left|].
  rewrite (proj2 (Z.ltb_ge i 0)) by lia.
  destruct (hooked_in_use s m b i pid p rest rec Hi Efl Hp) as (Hun & Hiu & Htab).
  pose proof (inv_hook s m b i pid p rest rec Hi Efl Hp0 Hp) as Hh.
  pose proof (hook_queues _ _ _ _ Hun Hiu Hq eq_refl eq_refl eq_refl) as Hq1.
  pose proof (hook_owner _ _ _ _ Hun Hiu Htab Ho eq_refl eq_refl) as Ho1.
  split_and!; cbn; [|destruct Hq1 as [Q1 Q2 Q3 Q4]|exact Ho1]; unfold claim_owner;
    destruct (owned (hooked s i p rest rec (new_port s i pid)) !! pid); [by apply inv_owned|done|by constructor|by constructor].
Qed.

(** The parts of the invariant that a change of count or place leaves alone. *)
Lemma others_update s p port port' : queues_inv s -> owner_inv s -> in_use s p port -> id port' = id port ->
  owner_pid port' = owner_pid port -> owner_linked port' = owner_linked port -> msg_queue port' = msg_queue port ->
  queues_inv (with_ports s (<[p := port']> (ports s))) /\ owner_inv (with_ports s (<[p := port']> (ports s))).
Proof. intros. split; [by apply (queues_update s p port)|by apply (owner_update s p port)]. Qed.

Lemma get_ok s m b a i p s' : ports_ok (mk_config s m b) -> m !! a = None -> Z.of_nat (size m) < REFCOUNT_SATURATED - 2 ->
  ipc_port_get s i = Some (p, s') -> ports_ok (mk_config s' (holding m a p) b).
Proof.
  intros (Hi & Hq & Ho) Ha Hsz E. cbn in *. pose proof (inv_get s m b a i p s' Hi Ha Hsz E) as Hi'.
  destruct (get_spec s m b i Hi) as [[E' _]|(q & port & _ & Hp & _ & _ & _ & _ & _ & E')];
    rewrite E' in E; injection E as <- <-; [done|]. split; [done|]. by apply (others_update s q port).
Qed.

Lemma get_checked_ok s m b a i g p s' : ports_ok (mk_config s m b) -> m !! a = None ->
  Z.of_nat (size m) < REFCOUNT_SATURATED - 2 ->
  ipc_port_get_checked s i g = Some (p, s') -> ports_ok (mk_config s' (holding m a p) b).
Proof.
  intros (Hi & Hq & Ho) Ha Hsz E. cbn in *. pose proof (inv_get_checked s m b a i g p s' Hi Ha Hsz E) as Hi'.
  destruct (get_checked_spec s m b i g Hi) as [E'|(q & port & _ & Hp & _ & _ & _ & _ & _ & E')];
    rewrite E' in E; injection E as <- <-; [done|]. split; [done|]. by apply (others_update s q port).
Qed.

(** [ipc_port_destroy]'s section is defined, and what it leaves. *)
Lemma close_ok s m b a i : ports_ok (mk_config s m b) -> m !! a = None -> Z.of_nat (size m) < REFCOUNT_SATURATED - 2 ->
  exists p g pend s', destroy_close s i = Some (p, g, pend, s') /\
    ports_ok (mk_config s' (if p =? 0 then m else <[a := Closing p g]> m) b).
Proof.
  intros (Hi & Hq & Ho) Ha Hsz. cbn in *.
  destruct (close_spec s m b i Hi) as [[E _]|(p & port & Et & Hp & Eid & _)].
  - exists 0, 0, false, s. split; [done|]. by split_and!.
  - destruct (owner_unhook s m b i p port Hi Ho Hp Eid Et) as (s' & g & pend & E & Ho' & Hq').
    exists p, g, pend, s'. split; [done|]. split_and!; cbn; [by apply (inv_close s m b a i p g pend)|by apply Hq'|done].
Qed.

Lemma drain_ok s m b a p : ports_ok (mk_config s m b) -> m !! a = Some (Draining p) ->
  exists i s', teardown_drain s p = Some (i, s') /\ ports_ok (mk_config s' (<[a := Freeing p i]> m) b).
Proof.
  intros (Hi & Hq & Ho) Ha. cbn in *. destruct (pi_acts _ _ _ Hi a _ Ha) as (port & Hp).
  destruct (drain_queue_spec p (msg_queue port) s (qi_entries _ Hq p port Hp) (qi_payloads _ Hq p port Hp))
    as (e & pl & Ed & H1 & H2 & H3 & H4).
  assert (teardown_drain s p = Some (id port, with_memory (with_ports s (<[p := with_queues port [] (pending_senders port)]> (ports s))) e pl)) as E.
  { unfold teardown_drain. rewrite (bind_eq _ _ _ (proj1 Hp)), (bind_eq _ _ _ Ed). done. }
  do 2 eexists. split; [exact E|]. split_and!; cbn.
  - by apply (inv_drain s m b a p _ _ Hi Ha E).
  - by apply (queues_change s p port).
  - apply owner_memory. by apply (owner_update s p port).
Qed.

Lemma free_ok s m b a p i : ports_ok (mk_config s m b) -> m !! a = Some (Freeing p i) ->
  exists s', port_struct_free s p = Some s' /\ ports_ok (mk_config s' (<[a := Returning i]> m) b).
Proof.
  intros (Hi & Hq & Ho) Ha. cbn in *. destruct (inv_free s m b a p i Hi Ha) as (s' & E & Hi').
  exists s'. split; [done|]. destruct (pi_acts _ _ _ Hi a _ Ha) as (port & Hp & _ & Hnil).
  destruct (torn_not_held s m b a p port (Freeing p i) Hi Ha) as (_ & _ & Hnt & _); [cbn; by rewrite decide_True|done|].
  destruct (struct_free_spec s m b p port Hi Hp) as (s2 & E2 & Etab & _ & _ & Eo & Ee & Ep & Hiu & _).
  assert (s2 = s') as -> by congruence. split_and!; cbn; [done| |].
  - apply (queues_same s); try done.
    + intros q x [_ Hx]%Hiu. by exists x.
    + intros q x Hx. destruct (decide (q = p)) as [->|Hne]; [right; by rewrite (in_use_det s p x port Hx Hp)|left].
      exists x. by apply Hiu.
  - apply (owner_same s); [done|done| |].
    + intros q x [_ Hx]%Hiu Ht. exists x. unfold tabled in *. by rewrite Etab in Ht.
    + intros q x Hx Ht. exists x. unfold tabled in *. rewrite Etab. split; [|done]. apply Hiu. split; [|done].
      intros ->. apply Hnt. by rewrite (in_use_det s p port x Hp Hx).
Qed.

(** The next section of every activity is defined. *)
Lemma advance_ok s m b a x : ports_ok (mk_config s m b) -> m !! a = Some x ->
  exists y s', advance s x = Some (y, s') /\
    ports_ok (mk_config s' (match y with Some z => <[a := z]> m | None => delete a m end) b).
Proof.
  intros Hok Ha. pose proof Hok as (Hi & Hq & Ho). cbn in Hi, Hq, Ho. unfold advance.
  assert (forall p, x = Holding p \/ x = Dropping p -> exists y s',
    ('(last, s') ← ipc_port_put s p; Some (if last : bool then Some (Draining p) else None, s')) = Some (y, s') /\
    ports_ok (mk_config s' (match y with Some z => <[a := z]> m | None => delete a m end) b)) as Hput.
  { intros p Hx. destruct (inv_put s m b a x p Hi Ha Hx) as (port & Hp & E & Hi'). rewrite (bind_eq _ _ _ E).
    do 2 eexists. split; [done|]. destruct (others_update s p port (with_refcount port (refcount port - 1)) Hq Ho Hp) as [? ?]; try done.
    split_and!; cbn; [destruct (refcount port =? 1); exact Hi'|done|done]. }
  destruct x as [p|p g|p|p|p i|i].
  - apply Hput. by left.
  - destruct (inv_wake s m b a p g Hi Ha) as [[l E] Hi']. rewrite (bind_eq _ _ _ E). do 2 eexists. split; [done|]. by split_and!.
  - apply Hput. by right.
  - destruct (drain_ok s m b a p Hok Ha) as (i & s' & E & Hok'). rewrite (bind_eq _ _ _ E). do 2 eexists. by split.
  - destruct (free_ok s m b a p i Hok Ha) as (s' & E & Hok'). rewrite (bind_eq _ _ _ E). do 2 eexists. by split.
  - destruct (inv_return s m b a i Hi Ha) as [E Hi']. rewrite (bind_eq _ _ _ E). do 2 eexists. split; [done|].
    split_and!; cbn; [done|destruct Hq; by constructor|destruct Ho; by constructor].
Qed.

Lemma enqueue_ok s m b a p port e pl : ports_ok (mk_config s m b) -> m !! a = Some (Holding p) -> ports s !! p = Some port ->
  entries s !! e = None -> (pl = 0 \/ payloads s !! pl = None) ->
  ports_ok (mk_config (with_memory (with_ports s (<[p := with_queues port (msg_queue port ++ [mk_entry e pl]) (pending_senders port)]> (ports s)))
     (<[e := p]> (entries s)) (if pl =? 0 then payloads s else <[pl := p]> (payloads s))) m b).
Proof.
  intros (Hi & Hq & Ho) Ha Hp He Hpl. cbn in *.
  destruct (target_in_use s m b a (Holding p) p Hi Ha eq_refl) as (port' & Hu).
  assert (port' = port) as -> by (destruct Hu; congruence).
  split_and!; cbn.
  - apply inv_memory. by apply (inv_queues s m b p port a).
  - apply (queues_change s p port); [done|done| | | |].
    + cbn. rewrite fmap_app. apply owned_by_insert; [done|]. exact (qi_entries _ Hq p port Hu).
    + cbn [msg_queue with_queues]. rewrite queue_payloads_app. unfold queue_payloads at 2. cbn [fmap list_fmap payload].
      case_cmp.
      * rewrite filter_cons_False, filter_nil, app_nil_r by tauto. exact (qi_payloads _ Hq p port Hu).
      * rewrite filter_cons_True, filter_nil by done. destruct Hpl as [?|Hpl]; [done|].
        apply owned_by_insert; [done|]. exact (qi_payloads _ Hq p port Hu).
    + intros q x Hq'. destruct (decide (x = e)) as [->|Hne]; [rewrite lookup_insert_eq, He|by rewrite lookup_insert_ne].
      split; congruence.
    + intros q x Hq'. case_cmp; [done|]. destruct Hpl as [?|Hpl]; [done|].
      destruct (decide (x = pl)) as [->|Hne]; [rewrite lookup_insert_eq, Hpl|by rewrite lookup_insert_ne].
      split; congruence.
  - apply owner_memory. by apply (owner_update s p port).
Qed.

Lemma dequeue_ok s m b a p port x q : ports_ok (mk_config s m b) -> m !! a = Some (Holding p) -> ports s !! p = Some port ->
  msg_queue port = x :: q ->
  ports_ok (mk_config (with_memory (with_ports s (<[p := with_queues port q (pending_senders port)]> (ports s)))
     (delete (entry x) (entries s)) (delete (payload x) (payloads s))) m b).
Proof.
  intros (Hi & Hq & Ho) Ha Hp Eq. cbn in *.
  destruct (target_in_use s m b a (Holding p) p Hi Ha eq_refl) as (port' & Hu).
  assert (port' = port) as -> by (destruct Hu; congruence).
  pose proof (qi_entries _ Hq p port Hu) as He. rewrite Eq in He. cbn in He.
  pose proof (qi_payloads _ Hq p port Hu) as Hpl. rewrite Eq, queue_payloads_cons in Hpl.
  assert (entries s !! entry x = Some p) as Hex by (apply He; by left).
  split_and!; cbn.
  - apply inv_memory. by apply (inv_queues s m b p port a).
  - apply (queues_change s p port); [done|done| | | |].
    + by apply owned_by_delete.
    + case_decide; [by apply owned_by_delete|]. assert (payload x = 0) as -> by lia.
      by rewrite delete_id by (by apply payload_zero).
    + intros r y Hr. rewrite lookup_delete_Some. split; [by intros [_ ?]|]. intros Hy. split; [|done]. intros <-. congruence.
    + intros r y Hr. rewrite lookup_delete_Some. split; [by intros [_ ?]|]. intros Hy. split; [|done]. intros <-.
      case_decide; [|assert (payload x = 0) as E by lia; rewrite E, payload_zero in Hy; done].
      assert (payloads s !! payload x = Some p) by (apply Hpl; by left). congruence.
  - apply owner_memory. by apply (owner_update s p port).
Qed.

Lemma port_step_ok c c' : ports_ok c -> port_step c c' -> ports_ok c'.
Proof.
  intros Hok H. destruct H.
  - by apply (create_ok s m b pid fresh).
  - by apply (get_ok s m b a i).
  - by apply (get_checked_ok s m b a i g).
  - destruct (close_ok s m b a i Hok) as (p' & g' & pend' & s2 & E & Hok'); [done|done|].
    rewrite E in H1. by injection H1 as <- <- <- <-.
  - by apply (enqueue_ok s m b a).
  - by apply (dequeue_ok s m b a).
  - destruct Hok as (Hi & Hq & Ho). cbn in *. destruct (target_in_use s m b a (Holding p) p Hi H eq_refl) as (port' & Hu).
    assert (port' = port) as -> by (destruct Hu; congruence).
    destruct (others_update s p port (with_queues port (msg_queue port) ps) Hq Ho Hu) as [? ?]; try done.
    split_and!; cbn; [by apply (inv_queues s m b p port a)|done|done].
  - destruct (advance_ok s m b a x Hok H) as (y' & s2 & E & Hok'). rewrite E in H0. by injection H0 as <- <-.
Qed.

(** ** The start *)

Lemma init_freelist_seq n : forall l, init_freelist n l = seqZ 1 (Z.of_nat n) ++ l.
Proof.
  induction n as [|n IH]; intros l; cbn [init_freelist]; [done|].
  rewrite IH, seqZ_S, <- app_assoc. cbn [app]. do 2 f_equal. lia.
Qed.

Lemma init_ids procs : NoDup (s_freelist (ipc_port_init procs)) /\
  forall i, i ∈ s_freelist (ipc_port_init procs) <-> 1 <= i < MAX_PORTS.
Proof.
  cbn [s_freelist ipc_port_init]. rewrite init_freelist_seq, app_nil_r, Z2Nat.id by (unfold MAX_PORTS; lia).
  split; [apply NoDup_seqZ|]. intros i. rewrite elem_of_seqZ. unfold MAX_PORTS. lia.
Qed.

Lemma port_start_ok procs : ports_ok (port_start procs).
Proof.
  destruct (init_ids procs) as [Hnd Hids].
  assert (forall p port, ~ in_use (ipc_port_init procs) p port) as Hno by (intros p port [H _]; done).
  split_and!; cbn [kernel acts born port_start].
  - constructor.
    + intros p port H. destruct (Hno _ _ H).
    + intros i p H. destruct (lookup_empty_Some _ _ H).
    + intros i. unfold births. cbn [s_generation ipc_port_init]. rewrite !lookup_empty. done.
    + intros a x H. destruct (lookup_empty_Some _ _ H).
    + intros p q x y H. destruct (Hno _ _ H).
    + exact Hnd.
    + intros i Hi%Hids. split; [done|]. intros p port H. destruct (Hno _ _ H).
    + intros i Hi. left. by apply Hids.
    + apply NoDup_nil_2.
    + intros p Hp. by apply elem_of_nil in Hp.
    + rewrite map_size_empty. done.
  - constructor; intros p port H; [destruct (Hno _ _ H)..| |]; destruct (lookup_empty_Some _ _ H).
  - constructor; [|intros p port H; destruct (Hno _ _ H)].
    intros pid l Hl. cbn in Hl. assert (l = []) as ->.
    { apply elem_of_list_to_map_2 in Hl. by apply list_elem_of_fmap in Hl as (? & [= -> ->] & _). }
    split; [apply NoDup_nil_2|]. intros p. split; [by intros ?%elem_of_nil|]. intros (port & H & _). destruct (Hno _ _ H).
Qed.

Lemma history_ok procs c : reachable port_step (port_start procs) c -> ports_ok c.
Proof. apply reachable_ind_inv; [apply port_start_ok|]. intros c1 c2. apply port_step_ok. Qed.

(** ** Incarnations *)

(** From [c] to [c']: ids are born again, and a table entry outlives no birth. *)
Definition later (c c' : config) : Prop :=
  forall i, births (born c) i <= births (born c') i /\
    (births (born c) i = births (born c') i -> forall p, s_table (kernel c') !! i = Some p -> s_table (kernel c) !! i = Some p).

Lemma later_trans c1 c2 c3 : later c1 c2 -> later c2 c3 -> later c1 c3.
Proof.
  intros H1 H2 i. destruct (H1 i) as [L1 T1], (H2 i) as [L2 T2]. split; [lia|]. intros E p Hp.
  apply T1; [lia|]. apply T2; [lia|done].
Qed.

Lemma later_same s s' m m' b : (forall i p, s_table s' !! i = Some p -> s_table s !! i = Some p) ->
  later (mk_config s m b) (mk_config s' m' b).
Proof. intros H i. cbn. split; [lia|]. intros _. apply H. Qed.

Lemma advance_table s x y s' : advance s x = Some (y, s') -> s_table s' = s_table s.
Proof.
  unfold advance. destruct x as [p|p g|p|p|p i|i]; unfold ipc_port_put, destroy_wake, teardown_drain, port_struct_free, push_id.
  1-4: destruct (ports s !! p) as [port|]; [cbn|done].
  - destruct (refcount_dec _) as [l n]. by intros [= <- <-].
  - by intros [= <- <-].
  - destruct (refcount_dec _) as [l n]. by intros [= <- <-].
  - destruct (drain_queue s (msg_queue port)) as [s1|] eqn:E; [cbn|done]. intros [= <- <-].
    by apply drain_shape in E as (e & pl & ->).
  - case_cmp; [by intros [= <- <-]|]. destruct (ports s !! p); [cbn|done]. by intros [= <- <-].
  - case_cmp; [cbn; by intros [= <- <-]|done].
Qed.

Lemma step_later c c' : ports_ok c -> port_step c c' -> later c c'.
Proof.
  intros (Hi & _) H. destruct H; cbn in *.
  - destruct (create_spec s m b pid fresh Hi H) as [[E _]|(i & rest & p & rec & Efl & _ & _ & E)];
      rewrite E in H0; injection H0 as <- <-; [by apply later_same|].
    destruct (pi_free_ids _ _ _ Hi i) as [Hir _]; [rewrite Efl; by left|].
    rewrite (proj2 (Z.ltb_ge i 0)) by lia. intros j. cbn. unfold births.
    destruct (decide (j = i)) as [->|Hne]; [rewrite lookup_insert_eq; cbn; split; lia|].
    rewrite lookup_insert_ne by done. split; [lia|]. intros _ q. unfold claim_owner.
    destruct (owned _ !! pid); cbn; by rewrite lookup_insert_ne.
  - destruct (get_spec s m b i Hi) as [[E _]|(q & port & _ & _ & _ & _ & _ & _ & _ & E)];
      rewrite E in H1; injection H1 as <- <-; by apply later_same.
  - destruct (get_checked_spec s m b i g Hi) as [E|(q & port & _ & _ & _ & _ & _ & _ & _ & E)];
      rewrite E in H1; injection H1 as <- <-; by apply later_same.
  - apply later_same. intros j q Hj. destruct (close_spec s m b i Hi) as [[E _]|(r & port & _ & _ & _ & _ & _ & _ & E)];
      rewrite E in H1; [by injection H1 as <- <- <- <-|]. cbn zeta in H1.
    assert (s_table s' = delete i (s_table s)) as E'.
    { destruct (owner_linked port); [destruct (owned s !! owner_pid port); [cbn in H1|done]|];
        by injection H1 as <- <- <- <-. }
    rewrite E' in Hj. by apply lookup_delete_Some in Hj as [_ ?].
  - by apply later_same.
  - by apply later_same.
  - by apply later_same.
  - apply later_same. by rewrite (advance_table _ _ _ _ H0).
Qed.

Lemma reachable_later procs c c' : reachable port_step (port_start procs) c -> reachable port_step c c' -> later c c'.
Proof.
  intros H0 H. induction H as [|c1 c2 H1 IH Hs]; [intros i; by split|].
  apply (later_trans _ c1); [done|]. apply step_later; [|done]. apply (history_ok procs). by apply (reachable_trans _ _ c).
Qed.

(** An id is free, some port's, or on its way back to the free list. *)
Inductive id_state (c : config) (i : Z) : Prop :=
  | id_free : i ∈ s_freelist (kernel c) -> (forall p port, in_use (kernel c) p port -> id port <> i) ->
      (forall a, acts c !! a <> Some (Returning i)) -> id_state c i
  | id_port p port : in_use (kernel c) p port -> id port = i -> (i ∉ s_freelist (kernel c)) ->
      (forall q port', in_use (kernel c) q port' -> id port' = i -> q = p) ->
      (forall a, acts c !! a <> Some (Returning i)) -> id_state c i
  | id_returning a : acts c !! a = Some (Returning i) -> (i ∉ s_freelist (kernel c)) ->
      (forall p port, in_use (kernel c) p port -> id port <> i) ->
      (forall a', acts c !! a' = Some (Returning i) -> a' = a) -> id_state c i.

(** A port nobody looks at: in the table, with the table's reference only, on its owner's list when
    the owner exists. *)
Definition settled (s : ipc_ports) (p : Z) (port : ipc_port_t) : Prop :=
  s_table s !! id port = Some p /\ refcount port = 1 /\ closed port = false /\
  forall l, owned s !! owner_pid port = Some l -> p ∈ l.


(** C31: incarnations.  A snapshot of a live port's generation taken in one state answers a
    checked lookup in a later one only with that very port, never destroyed in between, provided its id was
    not created again 2^32 times; a lookup it no longer matches answers NULL and changes nothing. *)
Theorem port_checked_incarnation procs c c' i g p : reachable port_step (port_start procs) c ->
  reachable port_step c c' -> s_table (kernel c) !! i = Some p -> ipc_port_generation (kernel c) i = Some g ->
  births (born c') i < births (born c) i + 0x100000000 ->
  exists r s', ipc_port_get_checked (kernel c') i g = Some (r, s') /\
    (r = p /\ s_table (kernel c') !! i = Some p /\ births (born c') i = births (born c) i /\
       s_table s' !! i = Some p \/
     r = 0 /\ s' = kernel c').
Proof.
  intros H0 H Ht Hg Hb. pose proof (history_ok procs c H0) as (Hi & _).
  pose proof (history_ok procs c' (reachable_trans _ _ _ _ H0 H)) as (Hi' & _).
  destruct (reachable_later procs c c' H0 H i) as [Hle Hsame].
  rewrite (generation_spec _ _ _ i Hi), Ht in Hg.
  destruct (get_checked_spec _ _ _ i g Hi') as [E|(q & port & Et & Hp & Eid & Hcl & Hq0 & Eg & Ev & E)];
    [exists 0, (kernel c'); split; [done|by right]|].
  rewrite Ev in Hg. injection Hg as Hg. exists q. eexists. split; [exact E|]. left.
  destruct (pi_born _ _ _ Hi i) as [Hb0 Hb1], (pi_born _ _ _ Hi' i) as [Hb2 Hb3].
  assert (births (born c) i = births (born c') i) as Eb by (rewrite Hb1 in Hg; rewrite Hb3 in Eg; unfold u32 in *; zlia).
  assert (q = p) as -> by (apply (Hsame Eb) in Et; congruence). by split_and!.
Qed.

(** ** Runs *)

Inductive command :=
  | CCreate (pid fresh : Z)
  | CGet (a : nat) (i : Z)
  | CDestroy (a : nat) (i : Z)
  | CEnqueue (a : nat) (e pl : Z)
  | CAdvance (a : nat).

Definition exec (c : config) (k : command) : option config :=
  let '(mk_config s m b) := c in
  match k with
  | CCreate pid fresh =>
      if (fresh =? 0) || (0 <? fresh) && bool_decide (ports s !! fresh = None) then
        '(r, s') ← ipc_port_create s pid fresh;
        Some (mk_config s' m (if r <? 0 then b else <[r := births b r + 1]> b))
      else None
  | CGet a i =>
      if bool_decide (m !! a = None) && (Z.of_nat (size m) <? REFCOUNT_SATURATED - 2) then
        '(p, s') ← ipc_port_get s i; Some (mk_config s' (holding m a p) b)
      else None
  | CDestroy a i =>
      if bool_decide (m !! a = None) && (Z.of_nat (size m) <? REFCOUNT_SATURATED - 2) then
        '(p, g, pend, s') ← destroy_close s i;
        Some (mk_config s' (if p =? 0 then m else <[a := Closing p g]> m) b)
      else None
  | CEnqueue a e pl =>
      match m !! a with
      | Some (Holding p) =>
          port ← ports s !! p;
          if bool_decide (entries s !! e = None) && bool_decide (pl = 0 \/ payloads s !! pl = None) then
            Some (mk_config (with_memory (with_ports s (<[p := with_queues port (msg_queue port ++ [mk_entry e pl]) (pending_senders port)]> (ports s)))
                    (<[e := p]> (entries s)) (if pl =? 0 then payloads s else <[pl := p]> (payloads s))) m b)
          else None
      | _ => None
      end
  | CAdvance a =>
      x ← m !! a; '(y, s') ← advance s x;
      Some (mk_config s' (match y with Some z => <[a := z]> m | None => delete a m end) b)
  end.

Fixpoint exec_all (c : config) (ks : list command) : option config :=
  match ks with [] => Some c | k :: ks' => c' ← exec c k; exec_all c' ks' end.

Lemma exec_sound c k c' : exec c k = Some c' -> port_step c c'.
Proof.
  destruct c as [s m b], k as [pid fresh|a i|a i|a e pl|a]; cbn [exec].
  - destruct ((fresh =? 0) || _) eqn:Ef; [|done]. destruct (ipc_port_create s pid fresh) as [[r s']|] eqn:E; [cbn|done].
    intros [= <-]. apply ps_create with pid fresh; [|done]. apply orb_true_iff in Ef as [?%Z.eqb_eq|Ef]; [by left|right].
    apply andb_true_iff in Ef as [?%Z.ltb_lt ?%bool_decide_eq_true]. by split.
  - destruct (_ && _) eqn:Ea; [|done]. apply andb_true_iff in Ea as [?%bool_decide_eq_true ?%Z.ltb_lt].
    destruct (ipc_port_get s i) as [[p s']|] eqn:E; [cbn|done]. intros [= <-]. by apply ps_get with i.
  - destruct (_ && _) eqn:Ea; [|done]. apply andb_true_iff in Ea as [?%bool_decide_eq_true ?%Z.ltb_lt].
    destruct (destroy_close s i) as [[[[p g] pend] s']|] eqn:E; [cbn|done]. intros [= <-]. by apply ps_destroy with i pend.
  - destruct (m !! a) as [[p| | | | |]|] eqn:Ea; try done. destruct (ports s !! p) as [port|] eqn:E; [cbn|done].
    destruct (_ && _) eqn:Eb; [|done]. apply andb_true_iff in Eb as [?%bool_decide_eq_true ?%bool_decide_eq_true].
    intros [= <-]. by apply ps_enqueue with a.
  - destruct (m !! a) as [x|] eqn:Ea; [cbn|done]. destruct (advance s x) as [[y s']|] eqn:E; [cbn|done].
    intros [= <-]. by apply ps_advance with x.
Qed.

Lemma exec_all_sound ks : forall c c', exec_all c ks = Some c' -> reachable port_step c c'.
Proof.
  induction ks as [|k ks IH]; intros c c'; cbn [exec_all]; [intros [= <-]; apply reach_here|].
  destruct (exec c k) as [c1|] eqn:E; [cbn|done]. intros H. apply (reachable_trans _ _ c1); [|by apply IH].
  eapply reach_step; [apply reach_here|]. by apply (exec_sound c k).
Qed.

(** Process 7 makes a port; activity 0 looks it up and queues a message with a payload. *)
Definition demo_live : list command := [CCreate 7 0x1000; CGet 0 1; CEnqueue 0 0x50 0x60].

(** It is destroyed under the reference, torn down by the put, and its id and structure used again. *)
Definition demo_reborn : list command :=
  [CDestroy 1 1; CAdvance 1; CAdvance 1; CAdvance 0; CAdvance 0; CAdvance 0; CAdvance 0; CCreate 7 0].

Definition after (ks : list command) : config := default (port_start [7]) (exec_all (port_start [7]) ks).

Lemma after_reachable ks : bool_decide (is_Some (exec_all (port_start [7]) ks)) = true ->
  reachable port_step (port_start [7]) (after ks).
Proof. intros [c E]%bool_decide_eq_true. unfold after. rewrite E. by apply (exec_all_sound ks). Qed.


Lemma port_checked_incarnation_witness :
  ipc_port_generation (kernel (after demo_live)) 1 = Some 1 /\
  ipc_port_generation (kernel (after (demo_live ++ demo_reborn))) 1 = Some 2 /\
  exists s', ipc_port_get_checked (kernel (after (demo_live ++ demo_reborn))) 1 1 = Some (0, s').
Proof.
  assert (ipc_port_generation (kernel (after demo_live)) 1 = Some 1) as Hg by (vm_compute; reflexivity).
  split; [exact Hg|]. split; [vm_compute; reflexivity|].
  destruct (port_checked_incarnation [7] (after demo_live) (after (demo_live ++ demo_reborn)) 1 1 0x1000) as (r & s' & E & Hr).
  - apply after_reachable. vm_compute. reflexivity.
  - apply (exec_all_sound demo_reborn). vm_compute. reflexivity.
  - vm_compute. reflexivity.
  - exact Hg.
  - vm_compute. reflexivity.
  - exists s'. destruct Hr as [(_ & _ & Hb & _)|[-> _]]; [|exact E].
    assert ((births (born (after (demo_live ++ demo_reborn))) 1 =? births (born (after demo_live)) 1) = false) as Hne
      by (vm_compute; reflexivity). rewrite Hb, Z.eqb_refl in Hne. discriminate Hne.
Defined.

(** The generation of an id wraps after 2^32 creations: a live port then reads as none. *)
Remark generation_wraps s m b pid p rest rec port : port_inv s m b -> s_freelist s = 1 :: rest -> s_recycle s = p :: rec ->
  s_generation s !! 1 = Some 0xFFFFFFFF -> port = new_port s 1 pid ->
  exists s', ipc_port_create s pid 0 = Some (1, s') /\ in_use s' p port /\ ipc_port_generation s' 1 = Some 0.
Proof.
  intros Hi Efl Er Eg ->. destruct (create_spec s m b pid 0 Hi (or_introl eq_refl)) as [[_ [?|[_ ?]]]|(i & rest' & q & rec' & E1 & Hq0 & E2 & E)];
    [congruence|congruence|].
  assert (i = 1 /\ rest' = rest /\ q = p /\ rec' = rec) as (-> & -> & -> & ->) by (destruct E2 as [?|[? _]]; split_and!; congruence).
  destruct (hooked_in_use s m b 1 pid p rest rec Hi Efl (or_introl Er)) as (_ & Hiu & _).
  eexists. split; [exact E|]. assert (in_use (hooked s 1 p rest rec (new_port s 1 pid)) p (new_port s 1 pid)) as Hp by (apply Hiu; by left).
  unfold claim_owner. change (owned (hooked _ _ _ _ _ _)) with (owned s). destruct (owned s !! pid);
    (split; [exact Hp|unfold ipc_port_generation; cbn; rewrite lookup_insert_eq; cbn; rewrite lookup_insert_eq; cbn; by rewrite Eg]).
Qed.
