(* ===== verification/Deathwatch.v ===== *)
(** * Death watches (ipc/port.c)

    The table of watches on ports and its three operations.  A post to a watcher is an
    entry of the list [deathwatch_fire] returns, in the order of the calls; the ports come from Port. *)

From S2P Require Import Prelude Port.

Definition DEATHWATCH_MAX : Z := 2 * MAX_PORTS.
Definition BATCH_MAX : nat := 16.

Record deathwatch_t := mk_watch {
  used : bool; watcher_pid : Z; notify_port : Z; code : Z; target_port : Z; target_gen : Z
}.

#[export] Instance deathwatch_eq_dec : EqDecision deathwatch_t.
Proof. solve_decision. Defined.

Definition no_watch : deathwatch_t := mk_watch false 0 0 0 0 0.

Definition deathwatch_init : list deathwatch_t := replicate (Z.to_nat DEATHWATCH_MAX) no_watch.

(** [used = false], the rest of the entry as it was. *)
Definition unused (d : deathwatch_t) : deathwatch_t :=
  mk_watch false (watcher_pid d) (notify_port d) (code d) (target_port d) (target_gen d).

(** ** Registration *)

(** The test before the lock: the target is alive in the incarnation asked for. *)
Definition target_alive (s : ipc_ports) (port gen : Z) : option bool :=
  if gen =? 0 then Some false else g ← ipc_port_generation s port; Some (g =? gen).

Definition same_watch (notify port gen : Z) (d : deathwatch_t) : bool :=
  (notify_port d =? notify) && (target_port d =? port) && (target_gen d =? gen).

(** The scan under the lock: [None] when the watch is there, else the first free slot. *)
Fixpoint watch_slot (l : list deathwatch_t) (i : nat) (free_slot : option nat) (notify port gen : Z) : option (option nat) :=
  match l with
  | [] => Some free_slot
  | d :: r =>
      if negb (used d) then
        watch_slot r (S i) (match free_slot with None => Some i | Some _ => free_slot end) notify port gen
      else if same_watch notify port gen d then None
      else watch_slot r (S i) free_slot notify port gen
  end.

Definition watch_insert (l : list deathwatch_t) (pid notify c port gen : Z) : Z * list deathwatch_t :=
  match watch_slot l 0 None notify port gen with
  | None => (0, l)
  | Some None => (-1, l)
  | Some (Some i) => (0, <[i := mk_watch true pid notify c port gen]> l)
  end.

Definition deathwatch_add (s : ipc_ports) (l : list deathwatch_t) (pid notify c port gen : Z)
  : option (Z * list deathwatch_t) :=
  alive ← target_alive s port gen;
  Some (if alive : bool then watch_insert l pid notify c port gen else (1, l)).

(** ** Death *)

Definition watches (port gen : Z) (d : deathwatch_t) : bool :=
  used d && (target_port d =? port) && (target_gen d =? gen).

(** One pass under the lock, until [room] entries were collected. *)
Fixpoint collect (room : nat) (l : list deathwatch_t) (port gen : Z) : list (Z * Z) * list deathwatch_t :=
  match room, l with
  | O, _ | _, [] => ([], l)
  | S room', d :: r =>
      if watches port gen d then
        let '(b, r') := collect room' r port gen in ((notify_port d, code d) :: b, unused d :: r')
      else
        let '(b, r') := collect room r port gen in (b, d :: r')
  end.

(** A call [ipc_post_kernel(port, code, arg0, arg1, 0)]. *)
Record post := mk_post { to_port : Z; post_code : Z; arg0 : Z; arg1 : Z }.

(** The loop in batches; [None] is out of fuel. *)
Fixpoint deathwatch_fire (fuel : nat) (l : list deathwatch_t) (port gen : Z) : option (list post * list deathwatch_t) :=
  match fuel with
  | O => None
  | S fuel' =>
      let '(b, l1) := collect BATCH_MAX l port gen in
      let posts := (fun x => mk_post x.1 x.2 port gen) <$> b in
      if (length b <? BATCH_MAX)%nat then Some (posts, l1)
      else '(more, l2) ← deathwatch_fire fuel' l1 port gen; Some (posts ++ more, l2)
  end.

Definition deathwatch_cleanup_watcher (l : list deathwatch_t) (pid : Z) : list deathwatch_t :=
  (fun d => if used d && (watcher_pid d =? pid) then unused d else d) <$> l.

(** ** The specification: one filter *)

Definition fired (l : list deathwatch_t) (port gen : Z) : list post :=
  (fun d => mk_post (notify_port d) (code d) port gen) <$> filter (fun d => watches port gen d = true) l.

Definition released (l : list deathwatch_t) (port gen : Z) : list deathwatch_t :=
  (fun d => if watches port gen d then unused d else d) <$> l.

(** What [k] collected entries leave for the next pass. *)
Lemma collect_spec port gen l : forall room,
  exists b l1, collect room l port gen = (b, l1) /\ (length b <= room)%nat /\ length l1 = length l /\
    fired l port gen = ((fun x => mk_post x.1 x.2 port gen) <$> b) ++ fired l1 port gen /\
    released l1 port gen = released l port gen /\
    ((length b < room)%nat -> fired l1 port gen = []) /\
    (length (fired l1 port gen) + length b = length (fired l port gen))%nat.
Proof.
  assert (forall d, watches port gen (unused d) = false) as Hun by done.
  induction l as [|d l IH]; intros room.
  { exists [], []. destruct room; cbn; (split_and!; [done|lia|done..]). }
  destruct room as [|room]; [exists [], (d :: l); cbn [collect]; split_and!; try done; cbn; lia|].
  cbn [collect]. destruct (watches port gen d) eqn:E.
  - destruct (IH room) as (b & l1 & -> & H1 & H2 & H3 & H4 & H5 & H6).
    exists ((notify_port d, code d) :: b), (unused d :: l1). unfold fired, released in *. cbn [fmap list_fmap length].
    rewrite (filter_cons_True _ d) by done. rewrite (filter_cons_False _ (unused d)) by (by rewrite Hun).
    cbn [fmap list_fmap app fst snd length]. rewrite Hun, E. split_and!; try done; try lia; [by f_equal|by f_equal|].
    intros ?. apply H5. lia.
  - destruct (IH (S room)) as (b & l1 & -> & H1 & H2 & H3 & H4 & H5 & H6).
    exists b, (d :: l1). unfold fired, released in *. cbn [fmap list_fmap length].
    rewrite !(filter_cons_False _ d) by (by rewrite E). rewrite E. split_and!; try done; try lia. by f_equal.
Qed.

Lemma released_none port gen l : fired l port gen = [] -> released l port gen = l.
Proof.
  unfold fired, released. induction l as [|d l IH]; cbn [fmap list_fmap]; [done|].
  destruct (watches port gen d) eqn:E.
  - rewrite filter_cons_True by done. done.
  - rewrite filter_cons_False by (by rewrite E). intros H. by rewrite IH.
Qed.

Lemma fire_spec port gen : forall fuel l, (length (fired l port gen) < fuel)%nat ->
  deathwatch_fire fuel l port gen = Some (fired l port gen, released l port gen).
Proof.
  induction fuel as [|fuel IH]; intros l Hf; [lia|]. cbn [deathwatch_fire].
  destruct (collect_spec port gen l BATCH_MAX) as (b & l1 & -> & H1 & H2 & H3 & H4 & H5 & H6).
  destruct (Nat.ltb_spec (length b) BATCH_MAX) as [Hlt|Hge].
  - rewrite H3, H5, app_nil_r by done. rewrite <- H4. by rewrite (released_none port gen l1) by auto.
  - unfold BATCH_MAX in *. rewrite IH by lia. cbn. by rewrite H3, H4.
Qed.

(** ** The table *)

Definition watch_key (d : deathwatch_t) : Z * Z * Z := (notify_port d, target_port d, target_gen d).

Definition in_table (l : list deathwatch_t) : list deathwatch_t := filter (fun d => used d = true) l.

(** One watch per (notify port, target, incarnation). *)
Definition wf_table (l : list deathwatch_t) : Prop := NoDup (watch_key <$> in_table l).

Lemma same_watch_key n p g d : same_watch n p g d = true <-> watch_key d = (n, p, g).
Proof.
  unfold same_watch, watch_key. rewrite !andb_true_iff, !Z.eqb_eq. split; [intros [[-> ->] ->]; done|by intros [= -> -> ->]].
Qed.

(** The scan finds the watch, or the first free slot, or that the table is full. *)
Lemma watch_slot_spec n p g l : forall i fs,
  match watch_slot l i fs n p g with
  | None => exists d, d ∈ in_table l /\ watch_key d = (n, p, g)
  | Some r => (forall d, d ∈ in_table l -> watch_key d <> (n, p, g)) /\
      match r with
      | None => fs = None /\ in_table l = l
      | Some j => fs = Some j \/ fs = None /\ exists l1 d l2, l = l1 ++ d :: l2 /\ used d = false /\ (j = i + length l1)%nat
      end
  end.
Proof.
  unfold in_table. induction l as [|d l IH]; intros i fs; cbn [watch_slot].
  { split; [intros d H; by apply elem_of_nil in H|]. destruct fs; [by left|done]. }
  destruct (used d) eqn:Eu; cbn [negb].
  - rewrite (filter_cons_True _ d) by done. destruct (same_watch n p g d) eqn:Es.
    + exists d. split; [by left|]. by apply same_watch_key.
    + specialize (IH (S i) fs). destruct (watch_slot l (S i) fs n p g) as [r|].
      * destruct IH as [H1 H2]. split.
        -- intros d' [->|Hd]%elem_of_cons; [intros E; apply same_watch_key in E; congruence|by apply H1].
        -- destruct r as [j|]; [|destruct H2 as [-> ->]; done]. destruct H2 as [->|(-> & l1 & d1 & l2 & -> & Hu & ->)]; [by left|right].
           split; [done|]. exists (d :: l1), d1, l2. split_and!; try done. cbn. lia.
      * destruct IH as (d' & Hd & E). exists d'. split; [by right|done].
  - rewrite (filter_cons_False _ d) by congruence.
    specialize (IH (S i) (match fs with None => Some i | Some _ => fs end)).
    destruct (watch_slot l (S i) _ n p g) as [r|]; [|done]. destruct IH as [H1 H2]. split; [done|].
    destruct r as [j|]; [|destruct fs; by destruct H2]. destruct fs as [f|]; [destruct H2 as [?|[? _]]; [by left|done]|].
    destruct H2 as [[= <-]|[? _]]; [|done]. right. split; [done|]. exists [], d, l. cbn. split_and!; [done|done|lia].
Qed.

(** What registration does to the table. *)
Lemma watch_insert_spec l pid n c p g : wf_table l ->
  exists r l', watch_insert l pid n c p g = (r, l') /\ wf_table l' /\ length l' = length l /\
    (forall d, d ∈ in_table l -> d ∈ in_table l') /\
    (r = -1 /\ l' = l /\ in_table l = l /\ (forall d, d ∈ in_table l -> watch_key d <> (n, p, g)) \/
     r = 0 /\ exists d, d ∈ in_table l' /\ watch_key d = (n, p, g) /\
       (l' = l \/ d = mk_watch true pid n c p g /\ forall d', d' ∈ in_table l' -> d' = d \/ d' ∈ in_table l)).
Proof.
  intros Hwf. unfold watch_insert. pose proof (watch_slot_spec n p g l 0%nat None) as H.
  destruct (watch_slot l 0 None n p g) as [[j|]|].
  - destruct H as [Hno [?|(_ & l1 & d & l2 & -> & Hu & ->)]]; [done|]. cbn [Nat.add].
    rewrite insert_app_r_alt, Nat.sub_diag by lia. cbn [insert list_insert]. set (new := mk_watch true pid n c p g).
    assert (in_table (l1 ++ d :: l2) = in_table l1 ++ in_table l2) as E0.
    { unfold in_table. rewrite filter_app, filter_cons_False by congruence. done. }
    assert (in_table (l1 ++ new :: l2) = in_table l1 ++ new :: in_table l2) as E1.
    { unfold in_table. rewrite filter_app, filter_cons_True by done. done. }
    eexists _, _. split; [done|]. unfold wf_table in *. rewrite E0 in *. rewrite E1. split_and!.
    + rewrite fmap_app, fmap_cons, <- Permutation_middle. apply NoDup_cons. split; [|by rewrite <- fmap_app].
      rewrite <- fmap_app. intros (d' & E & Hd)%list_elem_of_fmap. by apply (Hno d').
    + by rewrite !length_app.
    + intros d'. rewrite !elem_of_app, elem_of_cons. tauto.
    + right. split; [done|]. exists new. split; [apply elem_of_app; right; by left|]. split; [done|]. right. split; [done|].
      intros d'. rewrite !elem_of_app, elem_of_cons. tauto.
  - destruct H as [Hno [_ Hall]]. exists (-1), l. split_and!; try done. by left.
  - destruct H as (d & Hd & E). exists 0, l. split_and!; try done. right. split; [done|]. exists d. split_and!; try done. by left.
Qed.

(** Entries let go leave the rest of the table. *)
Lemma in_table_release (P : deathwatch_t -> bool) l :
  in_table ((fun d => if P d then unused d else d) <$> l) = filter (fun d => P d = false) (in_table l).
Proof.
  unfold in_table. induction l as [|d l IH]; cbn [fmap list_fmap]; [done|].
  destruct (P d) eqn:E.
  - rewrite filter_cons_False by done. destruct (used d) eqn:Eu.
    + rewrite (filter_cons_True _ d) by done. rewrite (filter_cons_False _ d) by congruence. exact IH.
    + rewrite (filter_cons_False _ d) by congruence. exact IH.
  - destruct (used d) eqn:Eu.
    + rewrite !(filter_cons_True _ d) by done. by f_equal.
    + rewrite !(filter_cons_False _ d) by congruence. exact IH.
Qed.

Lemma wf_release (P : deathwatch_t -> bool) l : wf_table l -> wf_table ((fun d => if P d then unused d else d) <$> l).
Proof.
  unfold wf_table. rewrite in_table_release. intros Hn. by apply (sublist_NoDup _ _ Hn), fmap_sublist, sublist_filter.
Qed.

(** ** Histories *)

Inductive watch_event :=
  | WAdd (pid notify c port gen : Z)
  | WFire (port gen : Z)
  | WCleanup (pid : Z).

(** One section of the table's life; an [WAdd] has passed its test. *)
Definition watch_apply (l : list deathwatch_t) (e : watch_event) : list deathwatch_t :=
  match e with
  | WAdd pid n c p g => (watch_insert l pid n c p g).2
  | WFire p g => match deathwatch_fire (S (length l)) l p g with Some (_, l') => l' | None => l end
  | WCleanup pid => deathwatch_cleanup_watcher l pid
  end.

(** The event lets go of watch [d]. *)
Definition ends (d : deathwatch_t) (e : watch_event) : bool :=
  match e with
  | WAdd _ _ _ _ _ => false
  | WFire p g => (target_port d =? p) && (target_gen d =? g)
  | WCleanup pid => watcher_pid d =? pid
  end.

Lemma fired_length port gen l : (length (fired l port gen) <= length l)%nat.
Proof. unfold fired. rewrite length_fmap. apply length_filter. Qed.

Lemma fire_enough port gen l :
  deathwatch_fire (S (length l)) l port gen = Some (fired l port gen, released l port gen).
Proof. apply fire_spec. pose proof (fired_length port gen l). lia. Qed.

Lemma watch_apply_spec l e : wf_table l -> wf_table (watch_apply l e) /\
  forall d, d ∈ in_table l -> ends d e = false -> d ∈ in_table (watch_apply l e).
Proof.
  intros Hwf. destruct e as [pid n c p g|p g|pid]; cbn [watch_apply ends].
  - destruct (watch_insert_spec l pid n c p g Hwf) as (r & l' & -> & Hwf' & _ & Hin & _). cbn. split; [done|]. auto.
  - rewrite fire_enough. split; [by apply wf_release|]. intros d Hd He. unfold released. rewrite in_table_release.
    apply list_elem_of_filter. split; [|done]. unfold watches. rewrite <- andb_assoc, He. apply andb_false_r.
  - unfold deathwatch_cleanup_watcher. split; [by apply (wf_release (fun d => used d && (watcher_pid d =? pid)))|].
    intros d Hd He. rewrite (in_table_release (fun d => used d && (watcher_pid d =? pid))).
    apply list_elem_of_filter. split; [|done]. rewrite He. apply andb_false_r.
Qed.

Lemma watch_history l es : wf_table l -> wf_table (foldl watch_apply l es) /\
  forall d, d ∈ in_table l -> Forall (fun e => ends d e = false) es -> d ∈ in_table (foldl watch_apply l es).
Proof.
  revert l. induction es as [|e es IH]; intros l Hwf; cbn [foldl]; [by split|].
  destruct (watch_apply_spec l e Hwf) as [Hwf' Hin]. destruct (IH _ Hwf') as [H1 H2]. split; [done|].
  intros d Hd [He Hes]%Forall_cons. by apply H2; [apply Hin|].
Qed.

(** A key has one watch, so one post. *)
Lemma unique_by_key (l : list deathwatch_t) d : NoDup (watch_key <$> l) -> d ∈ l ->
  filter (fun x => watch_key x = watch_key d) l = [d].
Proof.
  induction l as [|x l IH]; [by intros _ ?%elem_of_nil|]. cbn [fmap list_fmap].
  intros [Hx Hn]%NoDup_cons Hd. apply elem_of_cons in Hd as [->|Hd].
  - rewrite filter_cons_True by done. f_equal. destruct (filter _ l) as [|y r] eqn:E; [done|]. exfalso.
    assert (y ∈ filter (fun z => watch_key z = watch_key x) l) as Hy by (rewrite E; by left).
    apply list_elem_of_filter in Hy as [Ey Hy]. apply Hx. rewrite <- Ey. by apply list_elem_of_fmap_2.
  - rewrite filter_cons_False; [by apply IH|]. intros E. apply Hx. rewrite E. by apply list_elem_of_fmap_2.
Qed.

Lemma fired_to l d port gen : wf_table l -> d ∈ in_table l -> target_port d = port -> target_gen d = gen ->
  filter (fun x => to_port x = notify_port d) (fired l port gen) = [mk_post (notify_port d) (code d) port gen].
Proof.
  intros Hwf Hd <- <-.
  pose proof (unique_by_key (in_table l) d Hwf Hd) as E. clear Hwf Hd. unfold fired, in_table in *.
  assert (forall l0 : list deathwatch_t, filter (fun x => to_port x = notify_port d)
      ((fun x => mk_post (notify_port x) (code x) (target_port d) (target_gen d)) <$>
         filter (fun x => watches (target_port d) (target_gen d) x = true) l0)
    = (fun x => mk_post (notify_port x) (code x) (target_port d) (target_gen d)) <$>
        filter (fun x => watch_key x = watch_key d) (filter (fun x => used x = true) l0)) as H.
  { induction l0 as [|x l0 IH]; [done|].
    assert (watches (target_port d) (target_gen d) x = true <->
      used x = true /\ target_port x = target_port d /\ target_gen x = target_gen d) as Hw.
    { unfold watches. rewrite !andb_true_iff, !Z.eqb_eq. tauto. }
    destruct (decide (watches (target_port d) (target_gen d) x = true)) as [E1|E1].
    - rewrite (filter_cons_True _ x) by done. apply Hw in E1 as (Eu & Et & Eg).
      rewrite (filter_cons_True (fun x => used x = true)) by done. cbn [fmap list_fmap].
      destruct (decide (notify_port x = notify_port d)) as [En|En].
      + rewrite filter_cons_True by done. rewrite (filter_cons_True (fun x => watch_key x = watch_key d)) by (unfold watch_key; congruence).
        cbn [fmap list_fmap]. f_equal. exact IH.
      + rewrite filter_cons_False by done. rewrite (filter_cons_False (fun x => watch_key x = watch_key d)) by (unfold watch_key; congruence).
        exact IH.
    - rewrite (filter_cons_False _ x) by done. destruct (decide (used x = true)) as [Eu|Eu].
      + rewrite (filter_cons_True (fun x => used x = true)) by done. rewrite filter_cons_False; [exact IH|].
        intros [= _ ? ?]. apply E1, Hw. done.
      + rewrite (filter_cons_False (fun x => used x = true)) by done. exact IH. }
  rewrite H, E. done.
Qed.


Lemma wf_init : wf_table deathwatch_init.
Proof.
  unfold wf_table, in_table, deathwatch_init. generalize (Z.to_nat DEATHWATCH_MAX) as k.
  induction k as [|k IH]; [apply NoDup_nil_2|]. cbn [replicate]. by rewrite filter_cons_False.
Qed.

(** Watcher 9 on its port 40 watches port 1; it registers again, another process watches the
    port too, a stranger dies and a third watcher leaves; then port 1 dies. *)
Definition demo_events : list watch_event := [WAdd 9 40 0x78 1 1; WAdd 8 41 0x79 1 1; WFire 2 1; WCleanup 5].


(** The test of [deathwatch_add] and its insertion are two sections.  A port that dies between
    them has fired already: the caller is told it is watching, the watch stays, and the
    incarnation, dead, never fires again. *)
Remark watch_after_death :
  let s := kernel (after demo_live) in let s' := kernel (after (demo_live ++ [CDestroy 1 1])) in
  target_alive s 1 1 = Some true /\ ipc_port_generation s' 1 = Some 0 /\
  deathwatch_fire 4 (replicate 3 no_watch) 1 1 = Some ([], replicate 3 no_watch) /\
  exists l', watch_insert (replicate 3 no_watch) 9 40 0x77 1 1 = (0, l') /\
    in_table l' = [mk_watch true 9 40 0x77 1 1].
Proof.
  cbv zeta. split; [vm_compute; reflexivity|]. split; [vm_compute; reflexivity|]. split; [reflexivity|].
  eexists. split; reflexivity.
Qed.
