(* ===== verification/Channel.v ===== *)
(** * IPC channels (ipc/channel.c)

    Synchronous sends with their replies, posts, notifications, receives and the end of a
    port, for one port and any number of threads.  Each section under a lock, each test without
    one and each wait-queue operation is one step ([advance]); a thread that extracts another
    from a wait queue and unblocks it does so in one step, except in the direct switch.  A
    sender's [pending_reply_t] lives on its stack, in [stacks] under its name while the call
    lasts: reading it after that is [None].  The queue [reply_wait] holds its owner or
    nobody: the flag of the sender's place in the code says which.  Port keeps the structure alive. *)

From S2P Require Import Prelude.

Definition PORT_QUEUE_MAX : Z := 256.
Definition WAKE_BATCH : nat := 32.
Definition IPC_MSG_REQUEST : Z := 1.
Definition IPC_MSG_REPLY : Z := 2.
Definition IPC_MSG_NOTIFY : Z := 3.
Definition IPC_MSG_SIGNAL : Z := 4.
Definition IPC_OK : Z := 0.
Definition IPC_ERR_NO_PORT : Z := -1.
Definition IPC_ERR_PORT_FULL : Z := -2.
Definition IPC_ERR_DENIED : Z := -4.
Definition IPC_ERR_INVALID : Z := -5.
Definition IPC_ERR_DEAD : Z := -6.
Definition IPC_ERR_NO_MEMORY : Z := -7.
Definition IPC_ERR_EMPTY : Z := -8.

Record ipc_message_t := mk_msg {
  type_ : Z; sender_pid : Z; sender_tid : Z; code : Z;
  arg0 : Z; arg1 : Z; arg2 : Z; arg3 : Z; payload_size : Z; payload : Z
}.

Definition zero_msg : ipc_message_t := mk_msg 0 0 0 0 0 0 0 0 0 0.

Record port_msg_entry_t := mk_entry { msg : ipc_message_t; payload_owned : bool }.

Record ipc_port_t := mk_port {
  owner_pid : Z; closed : bool; msg_queue : list port_msg_entry_t; msg_count : Z; recv_waiters : list Z;
  pending_senders : list Z; notify_bits : Z; notify_waiters : list Z
}.

(** [reply_buf]: what a reply wrote.  [unchecked] and [late] are ghosts: the sender was
    answered before it prepared the direct switch; it queued its message on a closed port. *)
Record pending_reply_t := mk_pending {
  reply_buf : option ipc_message_t; reply_received : bool; port_dead : bool; unchecked : bool; late : bool
}.

Definition new_pending : pending_reply_t := mk_pending None false false false false.

(** ** Places in the code *)

(** [parked]: the thread is in the wait queue (or, for [RAsleep], in the hands of a sender that is
    about to switch to it). *)
Inductive pc :=
  (* ipc_send_sync *)
  | SPush (e : port_msg_entry_t) | SExtract | SNear (r : Z) | SYieldTo (r : Z) (parked : bool)
  | SLoop | SPrep | SRecheck (parked : bool) | SAsleep (parked : bool) | SUnslot | SUnlink
  (* receive_common *)
  | RTry (blocking : bool) | RPrep | RRetry (parked : bool) | RAsleep (parked : bool)
  (* ipc_post, ipc_post_kernel *)
  | APush (e : port_msg_entry_t) | AExtract
  (* ipc_notify *)
  | NWakeN | NWakeR
  (* ipc_wait_notify *)
  | WTry | WPrep | WRetry (parked : bool) | WAsleep (parked : bool)
  (* ipc_port_destroy, ipc_wake_senders_for_port_ptr *)
  | DWakeR (pend : bool) | DWakeN (pend : bool) | DDrain | DWake (batch : list Z) (last : bool).

(** A woken thread is out of its queue. *)
Definition unpark (x : pc) : pc :=
  match x with
  | SYieldTo r _ => SYieldTo r false | SRecheck _ => SRecheck false | SAsleep _ => SAsleep false
  | RRetry _ => RRetry false | RAsleep _ => RAsleep false | WRetry _ => WRetry false | WAsleep _ => WAsleep false
  | _ => x
  end.

(** A sender's own queue, [reply_wait]. *)
Definition unpark_sender (x : pc) : pc :=
  match x with
  | SYieldTo r _ => SYieldTo r false | SRecheck _ => SRecheck false | SAsleep _ => SAsleep false | _ => x
  end.

Definition asleep (x : pc) : bool := match x with SAsleep q | RAsleep q | WAsleep q => q | _ => false end.

(** [sent], [got], [returns] are ghosts: the messages queued and consumed so far and the
    results of the sends with the reply the caller finds. *)
Record sys := mk_sys {
  port : ipc_port_t; s_pending : gset Z; stacks : gmap Z pending_reply_t; pcs : gmap Z pc;
  sent : list port_msg_entry_t; got : list port_msg_entry_t; returns : list (Z * Z * option ipc_message_t)
}.

Definition with_queue (p : ipc_port_t) (q : list port_msg_entry_t) (n : Z) : ipc_port_t :=
  mk_port (owner_pid p) (closed p) q n (recv_waiters p) (pending_senders p) (notify_bits p) (notify_waiters p).
Definition with_recv (p : ipc_port_t) (l : list Z) : ipc_port_t :=
  mk_port (owner_pid p) (closed p) (msg_queue p) (msg_count p) l (pending_senders p) (notify_bits p) (notify_waiters p).
Definition with_senders (p : ipc_port_t) (l : list Z) : ipc_port_t :=
  mk_port (owner_pid p) (closed p) (msg_queue p) (msg_count p) (recv_waiters p) l (notify_bits p) (notify_waiters p).
Definition with_bits (p : ipc_port_t) (b : Z) : ipc_port_t :=
  mk_port (owner_pid p) (closed p) (msg_queue p) (msg_count p) (recv_waiters p) (pending_senders p) b (notify_waiters p).
Definition with_notify (p : ipc_port_t) (l : list Z) : ipc_port_t :=
  mk_port (owner_pid p) (closed p) (msg_queue p) (msg_count p) (recv_waiters p) (pending_senders p) (notify_bits p) l.
Definition as_closed (p : ipc_port_t) : ipc_port_t :=
  mk_port (owner_pid p) true (msg_queue p) (msg_count p) (recv_waiters p) (pending_senders p) (notify_bits p) (notify_waiters p).

Definition set_port (s : sys) (p : ipc_port_t) : sys :=
  mk_sys p (s_pending s) (stacks s) (pcs s) (sent s) (got s) (returns s).
Definition set_pending (s : sys) (x : gset Z) : sys :=
  mk_sys (port s) x (stacks s) (pcs s) (sent s) (got s) (returns s).
Definition set_stacks (s : sys) (m : gmap Z pending_reply_t) : sys :=
  mk_sys (port s) (s_pending s) m (pcs s) (sent s) (got s) (returns s).
Definition set_pcs (s : sys) (m : gmap Z pc) : sys :=
  mk_sys (port s) (s_pending s) (stacks s) m (sent s) (got s) (returns s).
Definition goto (s : sys) (t : Z) (x : pc) : sys := set_pcs s (<[t := x]> (pcs s)).
Definition leave (s : sys) (t : Z) : sys := set_pcs s (delete t (pcs s)).
Definition log_sent (s : sys) (e : port_msg_entry_t) : sys :=
  mk_sys (port s) (s_pending s) (stacks s) (pcs s) (sent s ++ [e]) (got s) (returns s).
Definition log_got (s : sys) (e : port_msg_entry_t) : sys :=
  mk_sys (port s) (s_pending s) (stacks s) (pcs s) (sent s) (got s ++ [e]) (returns s).
Definition log_return (s : sys) (t r : Z) (m : option ipc_message_t) : sys :=
  mk_sys (port s) (s_pending s) (stacks s) (pcs s) (sent s) (got s) (returns s ++ [(t, r, m)]).

Definition wake (s : sys) (t : Z) : sys := set_pcs s (alter unpark t (pcs s)).
Fixpoint wake_list (s : sys) (l : list Z) : sys := match l with [] => s | t :: r => wake_list (wake s t) r end.

(** ** Sections *)

(** What [try_consume] finds. *)
Inductive consumed := Message (e : port_msg_entry_t) | Notified (m : ipc_message_t) | Nothing (error : Z).

Definition try_consume (p : ipc_port_t) : consumed * ipc_port_t :=
  match msg_queue p with
  | e :: q => (Message e, with_queue p q (msg_count p ⊟ 1))
  | [] =>
      if negb (notify_bits p =? 0) then
        (Notified (mk_msg IPC_MSG_NOTIFY 0 0 0 (notify_bits p) 0 0 0 0 0), with_bits p 0)
      else (Nothing (if closed p then IPC_ERR_DEAD else IPC_ERR_EMPTY), p)
  end.

(** The common part of [ipc_send_sync] and [enqueue_async] under the port's lock: [None] when
    the queue is full. *)
Definition push_message (p : ipc_port_t) (e : port_msg_entry_t) : option ipc_port_t :=
  if PORT_QUEUE_MAX <=? msg_count p then None else Some (with_queue p (msg_queue p ++ [e]) (msg_count p ⊞ 1)).

Definition mark_dead (d : pending_reply_t) : pending_reply_t :=
  mk_pending (reply_buf d) true true (unchecked d) (late d).

(** One pass of [ipc_wake_senders_for_port_ptr] under the lock: the batch, the senders that stay
    linked, the records. *)
Fixpoint drain_pass (room : nat) (st : gmap Z pending_reply_t) (l : list Z)
  : option (list Z * list Z * gmap Z pending_reply_t) :=
  match l with
  | [] => Some ([], [], st)
  | t :: r =>
      d ← st !! t;
      if reply_received d then
        '(b, k, st1) ← drain_pass room st r; Some (b, t :: k, st1)
      else
        let st0 := <[t := mark_dead d]> st in
        match room with
        | S (S _ as room') => '(b, k, st1) ← drain_pass room' st0 r; Some (t :: b, k, st1)
        | _ => Some ([t], r, st0)
        end
  end.

(** [post_common] before the queue: the caller's message afterwards, and the entry. *)
Definition post_entry (m : ipc_message_t) (pid tid : Z) : ipc_message_t * port_msg_entry_t :=
  let m1 := mk_msg IPC_MSG_SIGNAL pid tid (code m) (arg0 m) (arg1 m) (arg2 m) (arg3 m) (payload_size m) (payload m) in
  let stolen := mk_msg IPC_MSG_SIGNAL pid tid (code m) (arg0 m) (arg1 m) (arg2 m) (arg3 m) (payload_size m) 0 in
  (if negb (payload m =? 0) && (0 <? payload_size m) then stolen else m1, mk_entry m1 true).

Definition kernel_entry (c a0 a1 a2 : Z) : port_msg_entry_t :=
  mk_entry (mk_msg IPC_MSG_SIGNAL 0 (-1) c a0 a1 a2 0 0 0) false.

(** [ipc_send_sync]'s message. *)
Definition request_entry (m : ipc_message_t) (pid tid : Z) : port_msg_entry_t :=
  mk_entry (mk_msg IPC_MSG_REQUEST pid tid (code m) (arg0 m) (arg1 m) (arg2 m) (arg3 m) (payload_size m) (payload m)) false.

(** [ipc_reply_staged] under the per-thread lock: the result and whether a payload
    buffer was freed here.  The wake of the sender is in the same section. *)
Definition ipc_reply_staged (s : sys) (sender : Z) (reply : ipc_message_t) (pid tid kbuf size : Z) : option (Z * sys) :=
  if decide (sender ∈ s_pending s) then
    d ← stacks s !! sender;
    let m := mk_msg IPC_MSG_REPLY pid tid (code reply) (arg0 reply) (arg1 reply) (arg2 reply) (arg3 reply)
               (if kbuf =? 0 then 0 else size) kbuf in
    let s1 := set_stacks s (<[sender := mk_pending (Some m) true (port_dead d) (unchecked d) (late d)]> (stacks s)) in
    Some (IPC_OK, set_pcs s1 (alter unpark_sender sender (pcs s1)))
  else Some (IPC_ERR_INVALID, s).

(** ** One step of a thread *)

(** The thread is off the processor with its wait in force. *)
Definition sleeps_here (s : sys) (r : Z) : bool := match pcs s !! r with Some x => asleep x | None => false end.

(** [ipc_send_sync] from the queue on.  [near]: the thread extracted from [recv_waiters] lives on
    this processor, so it sleeps. *)
Definition ipc_send_sync (near : bool) (s : sys) (t : Z) (x : pc) : option sys :=
  let p := port s in
  match x with
  | SPush e =>
      match push_message p e with
      | None => Some (log_return (leave (set_stacks (set_pending s (s_pending s ∖ {[t]})) (delete t (stacks s))) t) t IPC_ERR_PORT_FULL None)
      | Some p1 =>
          d ← stacks s !! t;
          let d1 := mk_pending (reply_buf d) (reply_received d) (port_dead d) (unchecked d) (closed p) in
          Some (goto (log_sent (set_stacks (set_port s (with_senders p1 (pending_senders p1 ++ [t]))) (<[t := d1]> (stacks s))) e) t SExtract)
      end
  | SExtract =>
      match recv_waiters p with
      | [] => Some (goto s t SLoop)
      | r :: rest =>
          let s1 := set_port s (with_recv p rest) in
          if near && sleeps_here s r then Some (goto s1 t (SNear r))
          else Some (goto (wake s1 r) t SLoop)
      end
  | SNear r =>
      d ← stacks s !! t;
      let d1 := mk_pending (reply_buf d) (reply_received d) (port_dead d) (reply_received d) (late d) in
      Some (goto (set_stacks s (<[t := d1]> (stacks s))) t (SYieldTo r true))
  | SYieldTo r q => Some (goto (wake s r) t (SAsleep q))
  | SLoop => d ← stacks s !! t; Some (goto s t (if reply_received d then SUnslot else SPrep))
  | SPrep => Some (goto s t (SRecheck true))
  | SRecheck q => d ← stacks s !! t; Some (goto s t (if reply_received d then SUnslot else SAsleep q))
  | SAsleep q => if q then None else Some (goto s t SLoop)
  | SUnslot => Some (goto (set_pending s (s_pending s ∖ {[t]})) t SUnlink)
  | SUnlink =>
      d ← stacks s !! t;
      let p1 := if port_dead d then p else with_senders p (filter (fun x => x <> t) (pending_senders p)) in
      Some (log_return (leave (set_stacks (set_port s p1) (delete t (stacks s))) t) t
              (if port_dead d then IPC_ERR_DEAD else IPC_OK) (reply_buf d))
  | _ => None
  end.

Definition receive_common (s : sys) (t : Z) (x : pc) : option sys :=
  let p := port s in
  match x with
  | RTry blocking =>
      match try_consume p with
      | (Message e, p1) => Some (log_got (leave (set_port s p1) t) e)
      | (Notified m, p1) => Some (leave (set_port s p1) t)
      | (Nothing r, p1) => Some (if (r =? IPC_ERR_EMPTY) && blocking then goto s t RPrep else leave s t)
      end
  | RPrep => Some (goto (set_port s (with_recv p (recv_waiters p ++ [t]))) t (RRetry true))
  | RRetry q =>
      let cancel p' := with_recv p' (filter (fun x => x <> t) (recv_waiters p')) in
      match try_consume p with
      | (Message e, p1) => Some (log_got (leave (set_port s (cancel p1)) t) e)
      | (Notified m, p1) => Some (leave (set_port s (cancel p1)) t)
      | (Nothing r, p1) => Some (if r =? IPC_ERR_EMPTY then goto s t (RAsleep q) else leave (set_port s (cancel p1)) t)
      end
  | RAsleep q => if q then None else Some (goto s t (RTry true))
  | _ => None
  end.

Definition enqueue_async (s : sys) (t : Z) (x : pc) : option sys :=
  let p := port s in
  match x with
  | APush e =>
      match push_message p e with
      | None => Some (leave s t)
      | Some p1 => Some (goto (log_sent (set_port s p1) e) t AExtract)
      end
  | AExtract =>
      match recv_waiters p with
      | [] => Some (leave s t)
      | r :: rest => Some (leave (wake (set_port s (with_recv p rest)) r) t)
      end
  | _ => None
  end.

(** [ipc_notify] after the bits. *)
Definition ipc_notify (s : sys) (t : Z) (x : pc) : option sys :=
  let p := port s in
  match x with
  | NWakeN => Some (goto (wake_list (set_port s (with_notify p [])) (notify_waiters p)) t NWakeR)
  | NWakeR => Some (leave (wake_list (set_port s (with_recv p [])) (recv_waiters p)) t)
  | _ => None
  end.

Definition ipc_wait_notify (s : sys) (t : Z) (x : pc) : option sys :=
  let p := port s in
  match x with
  | WTry =>
      if negb (notify_bits p =? 0) then Some (leave (set_port s (with_bits p 0)) t)
      else Some (if closed p then leave s t else goto s t WPrep)
  | WPrep => Some (goto (set_port s (with_notify p (notify_waiters p ++ [t]))) t (WRetry true))
  | WRetry q =>
      let p1 := if negb (notify_bits p =? 0) then with_bits p 0 else p in
      if negb (notify_bits p =? 0) || closed p then
        Some (leave (set_port s (with_notify p1 (filter (fun x => x <> t) (notify_waiters p1)))) t)
      else Some (goto s t (WAsleep q))
  | WAsleep q => if q then None else Some (goto s t WTry)
  | _ => None
  end.

(** The wakes of [ipc_port_destroy]. *)
Definition destroy_wakes (s : sys) (t : Z) (x : pc) : option sys :=
  let p := port s in
  match x with
  | DWakeR pend => Some (goto (wake_list (set_port s (with_recv p [])) (recv_waiters p)) t (DWakeN pend))
  | DWakeN pend =>
      let s1 := wake_list (set_port s (with_notify p [])) (notify_waiters p) in
      Some (if pend : bool then goto s1 t DDrain else leave s1 t)
  | _ => None
  end.

Definition ipc_wake_senders_for_port_ptr (s : sys) (t : Z) (x : pc) : option sys :=
  let p := port s in
  match x with
  | DDrain =>
      '(b, k, st) ← drain_pass WAKE_BATCH (stacks s) (pending_senders p);
      Some (goto (set_stacks (set_port s (with_senders p k)) st) t (DWake b (length b <? WAKE_BATCH)%nat))
  | DWake [] last => Some (if last : bool then leave s t else goto s t DDrain)
  | DWake (u :: b) last => _ ← stacks s !! u; Some (goto (set_pcs s (alter unpark_sender u (pcs s))) t (DWake b last))
  | _ => None
  end.

(** The next step of thread [t]. *)
Definition advance (near : bool) (s : sys) (t : Z) : option sys :=
  x ← pcs s !! t;
  match x with
  | SPush _ | SExtract | SNear _ | SYieldTo _ _ | SLoop | SPrep | SRecheck _ | SAsleep _ | SUnslot | SUnlink => ipc_send_sync near s t x
  | RTry _ | RPrep | RRetry _ | RAsleep _ => receive_common s t x
  | APush _ | AExtract => enqueue_async s t x
  | NWakeN | NWakeR => ipc_notify s t x
  | WTry | WPrep | WRetry _ | WAsleep _ => ipc_wait_notify s t x
  | DWakeR _ | DWakeN _ => destroy_wakes s t x
  | DDrain | DWake _ _ => ipc_wake_senders_for_port_ptr s t x
  end.

(** ** Calls *)

(** The process of the caller, what the allocator answers, and the arguments. *)
Inductive call :=
  | CSend (pid : Z) (m : ipc_message_t) (mem : bool)
  | CReceive (pid : Z) (blocking : bool)
  | CPost (pid : Z) (m : ipc_message_t) (mem : bool)
  | CPostKernel (c a0 a1 a2 : Z) (mem : bool)
  | CNotify (bits : Z)
  | CWaitNotify
  | CReply (sender : Z) (reply : ipc_message_t) (pid kbuf size : Z)
  | CDestroy.

(** The sections before the first lock of the port. *)
Definition send_begin (s : sys) (t pid : Z) (m : ipc_message_t) (mem : bool) : sys :=
  if closed (port s) then log_return s t IPC_ERR_NO_PORT None
  else if negb mem then log_return s t IPC_ERR_NO_MEMORY None
  else goto (set_stacks (set_pending s ({[t]} ∪ s_pending s)) (<[t := new_pending]> (stacks s))) t (SPush (request_entry m pid t)).

Definition receive_begin (s : sys) (t pid : Z) (blocking : bool) : sys :=
  if owner_pid (port s) =? pid then goto s t (RTry blocking) else s.

Definition post_common (s : sys) (t pid : Z) (m : ipc_message_t) (mem : bool) : sys :=
  if closed (port s) || negb mem then s else goto s t (APush (post_entry m pid t).2).

Definition ipc_post_kernel (s : sys) (t c a0 a1 a2 : Z) (mem : bool) : sys :=
  if closed (port s) || negb mem then s else goto s t (APush (kernel_entry c a0 a1 a2)).

Definition notify_begin (s : sys) (t bits : Z) : sys :=
  let p := port s in
  if closed p then s else goto (set_port s (with_bits p (Z.lor (notify_bits p) bits))) t NWakeN.

Definition destroy_begin (s : sys) (t : Z) : sys :=
  let p := port s in
  if closed p then s else goto (set_port s (as_closed p)) t (DWakeR (negb (bool_decide (pending_senders p = [])))).

(** The first section of a call of thread [t], which holds a reference to the port. *)
Definition start (s : sys) (t : Z) (c : call) : option sys :=
  match c with
  | CSend pid m mem => Some (send_begin s t pid m mem)
  | CReceive pid blocking => Some (receive_begin s t pid blocking)
  | CPost pid m mem => Some (post_common s t pid m mem)
  | CPostKernel c a0 a1 a2 mem => Some (ipc_post_kernel s t c a0 a1 a2 mem)
  | CNotify bits => Some (notify_begin s t bits)
  | CWaitNotify => Some (goto s t WTry)
  | CReply sender reply pid kbuf size => '(_, s1) ← ipc_reply_staged s sender reply pid t kbuf size; Some s1
  | CDestroy => Some (destroy_begin s t)
  end.

Inductive chan_step (s : sys) : sys -> Prop :=
  | cs_start t c s' : pcs s !! t = None -> start s t c = Some s' -> chan_step s s'
  | cs_advance near t s' : advance near s t = Some s' -> chan_step s s'.

Definition chan_init (pid : Z) : sys := mk_sys (mk_port pid false [] 0 [] [] 0 []) ∅ ∅ ∅ [] [] [].

(** ** Threads and their places *)

Lemma wake_lookup s r u : pcs (wake s r) !! u = if decide (u = r) then unpark <$> pcs s !! u else pcs s !! u.
Proof. cbn. case_decide as H; [subst; by rewrite lookup_alter_eq|by rewrite lookup_alter_ne]. Qed.

Lemma unpark_idem x : unpark (unpark x) = unpark x.
Proof. by destruct x. Qed.

Lemma wake_list_lookup l : forall s u,
  pcs (wake_list s l) !! u = if decide (u ∈ l) then unpark <$> pcs s !! u else pcs s !! u.
Proof.
  induction l as [|r l IH]; intros s u; cbn [wake_list]; [by rewrite decide_False by apply not_elem_of_nil|].
  rewrite IH, wake_lookup. destruct (decide (u = r)) as [->|Hne].
  - rewrite (decide_True (P := r ∈ r :: l)) by (by left). case_decide; [|done].
    destruct (pcs s !! r); cbn; [by rewrite unpark_idem|done].
  - destruct (decide (u ∈ l)) as [H|H]; [by rewrite decide_True by (by right)|].
    by rewrite decide_False by (by rewrite not_elem_of_cons).
Qed.

Lemma port_wakes l : forall s, port (wake_list s l) = port s.
Proof. induction l as [|r l IH]; intros s; cbn [wake_list]; [done|]. by rewrite IH. Qed.
Lemma sent_wakes l : forall s, sent (wake_list s l) = sent s.
Proof. induction l as [|r l IH]; intros s; cbn [wake_list]; [done|]. by rewrite IH. Qed.
Lemma got_wakes l : forall s, got (wake_list s l) = got s.
Proof. induction l as [|r l IH]; intros s; cbn [wake_list]; [done|]. by rewrite IH. Qed.
Lemma stacks_wakes l : forall s, stacks (wake_list s l) = stacks s.
Proof. induction l as [|r l IH]; intros s; cbn [wake_list]; [done|]. by rewrite IH. Qed.

(** Reads a component of the state a step left. *)
Ltac fields := cbn; rewrite ?port_wakes, ?sent_wakes, ?got_wakes, ?stacks_wakes; cbn.

(** A view of the places that wakes do not change. *)
Class Wakeless {C} (f : option pc -> C) : Prop := {
  wakeless_unpark o : f (unpark <$> o) = f o;
  wakeless_sender o : f (unpark_sender <$> o) = f o
}.

Lemma wakeless_wake {C} (f : option pc -> C) `{!Wakeless f} s r u : f (pcs (wake s r) !! u) = f (pcs s !! u).
Proof. rewrite wake_lookup. case_decide; [apply wakeless_unpark|done]. Qed.

Lemma wakeless_list {C} (f : option pc -> C) `{!Wakeless f} s l u : f (pcs (wake_list s l) !! u) = f (pcs s !! u).
Proof. rewrite wake_list_lookup. case_decide; [apply wakeless_unpark|done]. Qed.

Lemma wakeless_reply {C} (f : option pc -> C) `{!Wakeless f} (m : gmap Z pc) r u :
  f (alter unpark_sender r m !! u) = f (m !! u).
Proof.
  destruct (decide (u = r)) as [->|]; [rewrite lookup_alter_eq; apply wakeless_sender|by rewrite lookup_alter_ne].
Qed.

(** Sums over the threads. *)
Definition total (f : pc -> Z) (s : sys) : Z := msum f (pcs s).

(** Weights of one thread. *)
Definition weight (f : pc -> Z) (o : option pc) : Z := match o with Some x => f x | None => 0 end.

Lemma msum_change f g (m : gmap Z pc) t : msum f (alter g t m) = msum f m - weight f (m !! t) + weight f (g <$> m !! t).
Proof.
  destruct (m !! t) as [x|] eqn:E; cbn.
  - assert (alter g t m = <[t := g x]> m) as ->; [|by apply msum_update].
    apply map_eq. intros u. destruct (decide (u = t)) as [->|]; [by rewrite lookup_alter_eq, lookup_insert_eq, E|].
    by rewrite lookup_alter_ne, lookup_insert_ne.
  - assert (alter g t m = m) as ->; [|lia]. apply map_eq. intros u. destruct (decide (u = t)) as [->|].
    + by rewrite lookup_alter_eq, E.
    + by rewrite lookup_alter_ne.
Qed.

Lemma msum_alter f g (m : gmap Z pc) t : (forall x, f (g x) = f x) -> msum f (alter g t m) = msum f m.
Proof. intros Hf. rewrite msum_change. destruct (m !! t); cbn; rewrite ?Hf; lia. Qed.

(** A weight that wakes do not change. *)
Class Steady (f : pc -> Z) : Prop := {
  steady_unpark x : f (unpark x) = f x;
  steady_sender x : f (unpark_sender x) = f x;
  steady_nonneg x : 0 <= f x
}.

Lemma steady_wake f `{!Steady f} s r : total f (wake s r) = total f s.
Proof. apply msum_alter, steady_unpark. Qed.
Lemma steady_list f `{!Steady f} l : forall s, total f (wake_list s l) = total f s.
Proof. induction l as [|r l IH]; intros s; cbn [wake_list]; [done|]. by rewrite IH, steady_wake. Qed.

#[export] Instance weight_wakeless f `{!Steady f} : Wakeless (weight f).
Proof. split; intros [x|]; cbn; [apply steady_unpark|done|apply steady_sender|done]. Qed.

Lemma msum_set f (m : gmap Z pc) t y : msum f (<[t := y]> m) = msum f m - weight f (m !! t) + f y.
Proof. destruct (m !! t) as [x|] eqn:E; cbn; [by apply msum_update|rewrite msum_insert by done; lia]. Qed.
Lemma msum_drop f (m : gmap Z pc) t : msum f (delete t m) = msum f m - weight f (m !! t).
Proof. destruct (m !! t) as [x|] eqn:E; cbn; [rewrite (msum_delete f m t x E); lia|rewrite delete_id by done; lia]. Qed.

Lemma total_goto f s t y : total f (goto s t y) = total f s - weight f (pcs s !! t) + f y.
Proof. apply msum_set. Qed.
Lemma total_leave f s t : total f (leave s t) = total f s - weight f (pcs s !! t).
Proof. apply msum_drop. Qed.
Lemma total_reply f `{!Steady f} s s' r : total f (set_pcs s' (alter unpark_sender r (pcs s))) = total f s.
Proof. apply msum_alter, steady_sender. Qed.

(** Steps that keep the places keep the sums. *)
Lemma total_port f s p : total f (set_port s p) = total f s. Proof. done. Qed.
Lemma total_pending f s x : total f (set_pending s x) = total f s. Proof. done. Qed.
Lemma total_stacks f s m : total f (set_stacks s m) = total f s. Proof. done. Qed.
Lemma total_sent f s e : total f (log_sent s e) = total f s. Proof. done. Qed.
Lemma total_got f s e : total f (log_got s e) = total f s. Proof. done. Qed.
Lemma total_return f s t r m : total f (log_return s t r m) = total f s. Proof. done. Qed.

Create Rewrite HintDb totals.
#[export] Hint Rewrite total_goto total_leave total_port total_pending total_stacks total_sent total_got total_return : totals.
#[export] Hint Rewrite @steady_wake @steady_list @total_reply using typeclasses eauto : totals.

Lemma total_nonneg f s : (forall x, 0 <= f x) -> 0 <= total f s.
Proof. apply msum_nonneg. Qed.
Lemma total_ge f s t x : (forall y, 0 <= f y) -> pcs s !! t = Some x -> f x <= total f s.
Proof. apply msum_ge. Qed.

(** ** Senders *)

Inductive send_class := NoSend | Pushing | Linked | Answered | Unslotted.

Definition sclass (o : option pc) : send_class :=
  match o with
  | Some (SPush _) => Pushing
  | Some (SExtract | SNear _ | SYieldTo _ _ | SLoop | SPrep | SRecheck _ | SAsleep _) => Linked
  | Some SUnslot => Answered
  | Some SUnlink => Unslotted
  | _ => NoSend
  end.

(** The slot in [s_pending] may hold the sender; it is linked to the port; it has its answer. *)
Definition slots (c : send_class) : bool := match c with Pushing | Linked | Answered => true | _ => false end.
Definition links (c : send_class) : bool := match c with Linked | Answered | Unslotted => true | _ => false end.
Definition ended (c : send_class) : bool := match c with Answered | Unslotted => true | _ => false end.

#[export] Instance sclass_wakeless : Wakeless sclass.
Proof. split; by intros [[]|]. Qed.

Definition is_reply (o : option ipc_message_t) : bool := match o with Some m => type_ m =? IPC_MSG_REPLY | None => false end.

Record sender_inv (s : sys) : Prop := {
  si_stack : forall t, sclass (pcs s !! t) <> NoSend -> is_Some (stacks s !! t);
  si_slot : forall t, t ∈ s_pending s -> slots (sclass (pcs s !! t)) = true;
  si_nodup : NoDup (pending_senders (port s));
  si_linked : forall t, t ∈ pending_senders (port s) <->
    links (sclass (pcs s !! t)) = true /\
    exists d, stacks s !! t = Some d /\ port_dead d = false;
  si_push : forall t d, sclass (pcs s !! t) = Pushing -> stacks s !! t = Some d -> port_dead d = false;
  si_dead : forall t d, stacks s !! t = Some d -> port_dead d = true -> reply_received d = true /\ closed (port s) = true;
  si_done : forall t d, ended (sclass (pcs s !! t)) = true -> stacks s !! t = Some d -> reply_received d = true;
  si_reply : forall t d, stacks s !! t = Some d -> reply_received d = true -> port_dead d = false -> is_reply (reply_buf d) = true;
  si_ok : forall t m, (t, IPC_OK, m) ∈ returns s -> is_reply m = true;
  si_err : forall t m, (t, IPC_ERR_DEAD, m) ∈ returns s -> closed (port s) = true
}.

(** Steps that concern no sender. *)
Lemma sender_frame s s' : sender_inv s -> (forall u, sclass (pcs s' !! u) = sclass (pcs s !! u)) ->
  s_pending s' = s_pending s -> stacks s' = stacks s -> returns s' = returns s ->
  pending_senders (port s') = pending_senders (port s) -> (closed (port s) = true -> closed (port s') = true) ->
  sender_inv s'.
Proof.
  intros [H1 H2 H3 H4 H5 H6 Hdn H7 H8 H9] Hc Ep Es Er El Hcl. constructor; rewrite ?Ep, ?Es, ?Er, ?El; try done.
  - intros t. rewrite Hc. apply H1.
  - intros t. rewrite Hc. apply H2.
  - intros t. rewrite Hc. apply H4.
  - intros t d. rewrite Hc. apply H5.
  - intros t d Hd Hp. destruct (H6 t d Hd Hp) as [? ?]. auto.
  - intros t d. rewrite Hc. apply Hdn.
  - intros t m Hm. eapply Hcl, H9, Hm.
Qed.

(** [goto] and [leave] within a class. *)
Lemma sclass_same s t x y u : pcs s !! t = Some x -> sclass (Some x) = sclass (Some y) ->
  sclass (pcs (goto s t y) !! u) = sclass (pcs s !! u).
Proof. intros Hx E. cbn. rewrite (view_insert sclass). case_decide; [subst; by rewrite Hx|done]. Qed.
Lemma sclass_gone s t u : sclass (pcs s !! t) = NoSend -> sclass (pcs (leave s t) !! u) = sclass (pcs s !! u).
Proof. intros Hx. cbn. rewrite (view_delete sclass). case_decide; [by subst|done]. Qed.
Lemma sclass_new s t y u : pcs s !! t = None -> sclass (Some y) = NoSend ->
  sclass (pcs (goto s t y) !! u) = sclass (pcs s !! u).
Proof. intros Hx E. cbn. rewrite (view_insert sclass). case_decide; [subst; by rewrite Hx|done]. Qed.

(** Destroys under way. *)
Definition destroying (x : pc) : Z := match x with DWakeR _ | DWakeN _ | DDrain | DWake _ _ => 1 | _ => 0 end.

#[export] Instance destroying_steady : Steady destroying.
Proof. split; intros []; cbn; lia. Qed.

Lemma sender_restack s t d d' : sender_inv s -> stacks s !! t = Some d -> port_dead d' = port_dead d ->
  (reply_received d' = reply_received d \/ reply_received d' = true) ->
  (reply_received d' = true -> port_dead d' = false -> is_reply (reply_buf d') = true) ->
  sender_inv (set_stacks s (<[t := d']> (stacks s))).
Proof.
  intros [H1 H2 H3 H4 H5 H6 Hdn H7 H8 H9] Hd Ed Er Hb. constructor; cbn; try done.
  - intros u Hu. rewrite lookup_insert_is_Some'. right. by apply H1.
  - intros u. rewrite H4. split; intros [Hc (e & He & Hde)]; (split; [done|]); destruct (decide (u = t)) as [->|Hne].
    + exists d'. rewrite lookup_insert_eq. split; [done|]. congruence.
    + exists e. by rewrite lookup_insert_ne.
    + rewrite lookup_insert_eq in He. injection He as <-. exists d. split; [done|]. congruence.
    + rewrite lookup_insert_ne in He by done. by exists e.
  - intros u e Hc. destruct (decide (u = t)) as [->|Hne]; [rewrite lookup_insert_eq; intros [= <-]; rewrite Ed; by apply (H5 t)|].
    rewrite lookup_insert_ne by done. by apply H5.
  - intros u e. destruct (decide (u = t)) as [->|Hne]; [rewrite lookup_insert_eq; intros [= <-]|rewrite lookup_insert_ne by done; by apply H6].
    rewrite Ed. intros Hp. destruct (H6 t d Hd Hp) as [? ?]. split; [|done]. destruct Er; congruence.
  - intros u e Hc. destruct (decide (u = t)) as [->|Hne]; [rewrite lookup_insert_eq; intros [= <-]|rewrite lookup_insert_ne by done; by apply Hdn].
    pose proof (Hdn t d Hc Hd). destruct Er; congruence.
  - intros u e. destruct (decide (u = t)) as [->|Hne]; [rewrite lookup_insert_eq; by intros [= <-]|rewrite lookup_insert_ne by done; by apply H7].
Qed.

(** One pass of the drain: it marks and unlinks a batch of unanswered senders. *)
Lemma drain_pass_spec l : forall room st, NoDup l -> (0 < room)%nat -> (forall t, t ∈ l -> is_Some (st !! t)) ->
  exists b k st', drain_pass room st l = Some (b, k, st') /\
    (forall t, st' !! t = if decide (t ∈ b) then mark_dead <$> st !! t else st !! t) /\
    (forall t, t ∈ k <-> t ∈ l /\ t ∉ b) /\ NoDup k /\
    (forall t, t ∈ b -> t ∈ l /\ exists d, st !! t = Some d /\ reply_received d = false) /\
    ((length b < room)%nat -> forall t d, t ∈ k -> st !! t = Some d -> reply_received d = true).
Proof.
  induction l as [|t l IH]; intros room st Hn Hr Hst.
  { exists [], [], st. cbn [drain_pass]. split_and!; try done; try apply NoDup_nil_2.
    - intros t. split; [by intros ?%elem_of_nil|by intros [?%elem_of_nil _]].
    - intros t Ht. by apply elem_of_nil in Ht.
    - intros _ t d Ht. by apply elem_of_nil in Ht. }
  apply NoDup_cons in Hn as [Ht Hn]. destruct (Hst t) as [d Hd]; [by left|].
  cbn [drain_pass]. rewrite (bind_eq _ _ _ Hd).
  destruct (reply_received d) eqn:Erec.
  - destruct (IH room st Hn Hr) as (b & k & st' & -> & H1 & H2 & H3 & H4 & H5); [intros u Hu; apply Hst; by right|].
    exists b, (t :: k), st'. assert (t ∉ b) as Htb by (intros Hb; by destruct (H4 t Hb)).
    assert (t ∉ k) as Htk by (intros Hk; by apply H2 in Hk as [? _]). split_and!; try done.
    + intros u. rewrite !elem_of_cons, H2. naive_solver.
    + by apply NoDup_cons.
    + intros u Hu. destruct (H4 u Hu) as [? ?]. split; [by right|done].
    + intros Hlen u e Hu He. apply elem_of_cons in Hu as [->|Hu]; [congruence|by apply (H5 Hlen u)].
  - assert (forall u, is_Some (<[t := mark_dead d]> st !! u) <-> u = t \/ is_Some (st !! u)) as Hin.
    { intros u. rewrite lookup_insert_is_Some'. naive_solver. }
    destruct room as [|[|room]]; [lia| |].
    + exists [t], l, (<[t := mark_dead d]> st). split_and!; try done.
      * intros u. case_decide as Hu; rewrite list_elem_of_singleton in Hu; [subst; by rewrite lookup_insert_eq, Hd|by rewrite lookup_insert_ne].
      * intros u. rewrite elem_of_cons, list_elem_of_singleton. split; [intros Hu; split; [by right|by intros ->]|naive_solver].
      * intros u ->%list_elem_of_singleton. split; [by left|by exists d].
      * intros Hlen. cbn in Hlen. lia.
    + destruct (IH (S room) (<[t := mark_dead d]> st) Hn) as (b & k & st' & -> & H1 & H2 & H3 & H4 & H5);
        [lia|intros u Hu; apply Hin; right; apply Hst; by right|].
      exists (t :: b), k, st'. split_and!; try done.
      * intros u. rewrite H1. destruct (decide (u = t)) as [->|Hne].
        -- rewrite lookup_insert_eq, (decide_False (P := t ∈ b)), decide_True, Hd; [done|by left|].
           intros Hb. by destruct (H4 t Hb).
        -- rewrite lookup_insert_ne by done. destruct (decide (u ∈ b)); [rewrite decide_True by (by right)|rewrite decide_False by (rewrite elem_of_cons; tauto)]; done.
      * intros u. rewrite H2, !elem_of_cons. naive_solver.
      * intros u [->|Hu]%elem_of_cons; [split; [by left|by exists d]|]. destruct (H4 u Hu) as (? & e & He & Hf).
        split; [by right|]. destruct (decide (u = t)) as [->|Hne]; [done|]. rewrite lookup_insert_ne in He by done. by exists e.
      * intros Hlen u e Hu He. cbn in Hlen. assert (u <> t) by (intros ->; by apply H2 in Hu as [? _]).
        apply (H5 ltac:(lia) u e Hu). by rewrite lookup_insert_ne.
Qed.

Lemma sender_log s t r m : sender_inv s -> (r = IPC_OK -> is_reply m = true) -> (r = IPC_ERR_DEAD -> closed (port s) = true) ->
  sender_inv (log_return s t r m).
Proof.
  intros [H1 H2 H3 H4 H5 H6 Hdn H7 H8 H9] Hok Hd. constructor; cbn; try done.
  - intros u x [?|[= -> <- ->]%list_elem_of_singleton]%elem_of_app; [by apply (H8 u)|by apply Hok].
  - intros u x [?|[= -> <- ->]%list_elem_of_singleton]%elem_of_app; [by eapply H9|by apply Hd].
Qed.

Lemma sender_begin s t e : sender_inv s -> pcs s !! t = None ->
  sender_inv (goto (set_stacks (set_pending s ({[t]} ∪ s_pending s)) (<[t := new_pending]> (stacks s))) t (SPush e)).
Proof.
  intros [H1 H2 H3 H4 H5 H6 Hdn H7 H8 H9] Ht.
  assert (t ∉ pending_senders (port s)) as Hnl by (intros [Hc _]%H4; by rewrite Ht in Hc).
  constructor; cbn [port s_pending stacks pcs returns goto set_pcs set_stacks set_pending]; try done.
  - intros u. rewrite (view_insert sclass). intros Hu. rewrite lookup_insert_is_Some'. case_decide; [by left|right; by apply H1].
  - intros u Hu. rewrite (view_insert sclass). case_decide; [done|]. apply H2. set_solver.
  - intros u. rewrite (view_insert sclass), H4. destruct (decide (u = t)) as [->|Hne].
    + rewrite Ht. cbn. split; intros [? _]; done.
    + by rewrite lookup_insert_ne.
  - intros u d. rewrite (view_insert sclass). destruct (decide (u = t)) as [->|Hne].
    + rewrite lookup_insert_eq. by intros _ [= <-].
    + rewrite lookup_insert_ne by done. apply H5.
  - intros u d. destruct (decide (u = t)) as [->|Hne]; [rewrite lookup_insert_eq; by intros [= <-]|rewrite lookup_insert_ne by done; by apply H6].
  - intros u d. rewrite (view_insert sclass). case_decide; [done|]. rewrite lookup_insert_ne by done. apply Hdn.
  - intros u d. destruct (decide (u = t)) as [->|Hne]; [rewrite lookup_insert_eq; by intros [= <-]|rewrite lookup_insert_ne by done; by apply H7].
Qed.

Lemma set_port_same s : set_port s (port s) = s.
Proof. by destruct s. Qed.
Lemma with_senders_same p : with_senders p (pending_senders p) = p.
Proof. by destruct p. Qed.

(** The frame of a sender goes, and its link. *)
Lemma sender_gone s t l : sender_inv s -> t ∉ s_pending s -> NoDup l ->
  (forall u, u ∈ l <-> u ∈ pending_senders (port s) /\ u <> t) ->
  sender_inv (leave (set_stacks (set_port s (with_senders (port s) l)) (delete t (stacks s))) t).
Proof.
  intros [H1 H2 H3 H4 H5 H6 Hdn H7 H8 H9] Hp Hn Hl.
  constructor; cbn [port s_pending stacks pcs returns leave set_pcs set_stacks set_port pending_senders closed with_senders]; try done.
  - intros u. rewrite (view_delete sclass). case_decide as Hu; [done|]. rewrite lookup_delete_ne by done. apply H1.
  - intros u Hu. rewrite (view_delete sclass). case_decide; [by subst|by apply H2].
  - intros u. rewrite (view_delete sclass), Hl. case_decide as Hu.
    + subst. split; [by intros [_ ?]|]. intros [? _]; done.
    + rewrite lookup_delete_ne, <- H4 by done. tauto.
  - intros u d. rewrite (view_delete sclass). case_decide as Hu; [done|]. rewrite lookup_delete_ne by done. apply H5.
  - intros u d Hu. apply lookup_delete_Some in Hu as [_ Hu]. by apply (H6 u).
  - intros u d. rewrite (view_delete sclass). case_decide; [done|]. rewrite lookup_delete_ne by done. apply Hdn.
  - intros u d Hu. apply lookup_delete_Some in Hu as [_ Hu]. by apply (H7 u).
Qed.

Lemma sender_unslotting s t : sender_inv s -> sender_inv (set_pending s (s_pending s ∖ {[t]})).
Proof.
  intros [H1 H2 H3 H4 H5 H6 Hdn H7 H8 H9]. constructor; cbn; try done. intros u Hu. apply H2. set_solver.
Qed.

(** A linked sender that has its answer moves on. *)
Lemma sender_moves s t x y d : sender_inv s -> pcs s !! t = Some x -> stacks s !! t = Some d -> reply_received d = true ->
  links (sclass (Some x)) = true -> links (sclass (Some y)) = true ->
  (t ∈ s_pending s -> slots (sclass (Some y)) = true) -> sender_inv (goto s t y).
Proof.
  intros [H1 H2 H3 H4 H5 H6 Hdn H7 H8 H9] Ht Hd Hr Hx Hy Hsl.
  constructor; cbn [port s_pending stacks pcs returns goto set_pcs]; try done.
  - intros u. rewrite (view_insert sclass). case_decide; [subst; intros _; by eexists|apply H1].
  - intros u Hu. rewrite (view_insert sclass). case_decide; [subst; by apply Hsl|by apply H2].
  - intros u. rewrite (view_insert sclass), H4. case_decide; [|done]. subst. rewrite Ht. by rewrite Hx, Hy.
  - intros u e. rewrite (view_insert sclass). case_decide; [|apply H5]. intros Hc. by rewrite Hc in Hy.
  - intros u e. rewrite (view_insert sclass). case_decide; [|apply Hdn]. subst. intros _ He. congruence.
Qed.

(** The message and the sender's record are linked under one lock. *)
Lemma sender_push s t e p1 d : sender_inv s -> pcs s !! t = Some (SPush e) -> stacks s !! t = Some d ->
  pending_senders p1 = pending_senders (port s) -> closed p1 = closed (port s) ->
  sender_inv (goto (log_sent (set_stacks (set_port s (with_senders p1 (pending_senders p1 ++ [t])))
    (<[t := mk_pending (reply_buf d) (reply_received d) (port_dead d) (unchecked d) (closed (port s))]> (stacks s))) e) t SExtract).
Proof.
  intros Hs Ht Hd El Ec. pose proof (si_push _ Hs t d) as Hpd. rewrite Ht in Hpd. specialize (Hpd eq_refl Hd).
  set (d1 := mk_pending _ _ _ _ _).
  assert (sender_inv (set_stacks s (<[t := d1]> (stacks s)))) as [H1 H2 H3 H4 H5 H6 Hdn H7 H8 H9].
  { apply (sender_restack s t d d1 Hs Hd); [done|by left|]. intros Hr Hp. apply (si_reply _ Hs t d Hd Hr Hp). }
  assert (t ∉ pending_senders (port s)) as Hnl.
  { intros [Hc _]%(si_linked _ Hs); by rewrite Ht in Hc. }
  constructor; cbn [port s_pending stacks pcs returns goto set_pcs set_stacks set_port log_sent pending_senders closed with_senders]; rewrite ?El, ?Ec; try done.
  - intros u. rewrite (view_insert sclass). case_decide as Hu; [subst; intros _; rewrite lookup_insert_eq; by eexists|apply H1].
  - intros u Hu. rewrite (view_insert sclass). case_decide; [done|by apply H2].
  - apply NoDup_app. split; [done|]. split; [|apply NoDup_singleton]. by intros u Hu ->%list_elem_of_singleton.
  - intros u. rewrite elem_of_app, list_elem_of_singleton, (view_insert sclass). case_decide as Hu.
    + subst. split; [intros _|by right]. split; [done|]. exists d1. by rewrite lookup_insert_eq.
    + rewrite <- (H4 u). cbn. tauto.
  - intros u x. rewrite (view_insert sclass). case_decide; [done|apply H5].
  - intros u x. rewrite (view_insert sclass). case_decide; [done|apply Hdn].
Qed.


Lemma sender_gone_unlinked s t : sender_inv s -> t ∉ s_pending s -> t ∉ pending_senders (port s) ->
  sender_inv (leave (set_stacks s (delete t (stacks s))) t).
Proof.
  intros Hs Hp Hl. pose proof (sender_gone s t (pending_senders (port s)) Hs Hp (si_nodup _ Hs)) as H.
  rewrite with_senders_same, set_port_same in H. apply H. intros u. split; [intros Hu; split; [done|by intros ->]|tauto].
Qed.

Lemma sender_unlink s t d : sender_inv s -> pcs s !! t = Some SUnlink -> stacks s !! t = Some d ->
  sender_inv (leave (set_stacks (set_port s (if port_dead d then port s
      else with_senders (port s) (filter (fun x => x <> t) (pending_senders (port s))))) (delete t (stacks s))) t).
Proof.
  intros Hs Ht Hd.
  assert (t ∉ s_pending s) as Hp by (intros Hc%(si_slot _ Hs); by rewrite Ht in Hc).
  destruct (port_dead d) eqn:Ed.
  - rewrite set_port_same. apply sender_gone_unlinked; [done|done|].
    intros [_ (e & He & Hde)]%(si_linked _ Hs). congruence.
  - apply sender_gone; [done|done|apply NoDup_filter, (si_nodup _ Hs)|].
    intros u. rewrite list_elem_of_filter. tauto.
Qed.

Lemma sender_drain s b k st : sender_inv s -> closed (port s) = true ->
  drain_pass WAKE_BATCH (stacks s) (pending_senders (port s)) = Some (b, k, st) ->
  sender_inv (set_stacks (set_port s (with_senders (port s) k)) st).
Proof.
  intros [H1 H2 H3 H4 H5 H6 Hdn H7 H8 H9] Hcl Hd.
  destruct (drain_pass_spec (pending_senders (port s)) WAKE_BATCH (stacks s) H3) as (b' & k' & st' & E & Hst & Hk & Hn & Hb & _).
  { unfold WAKE_BATCH. lia. }
  { intros t [_ (d & ? & _)]%H4. by eexists. }
  rewrite E in Hd. injection Hd as -> -> ->.
  assert (forall u e, st !! u = Some e ->
      exists d, stacks s !! u = Some d /\ ((u ∈ b /\ e = mark_dead d) \/ ((u ∉ b) /\ e = d))) as Hinv.
  { intros u e. rewrite Hst. case_decide; [|intros ?; exists e; auto].
    destruct (stacks s !! u) as [d|]; [|done]. intros [= <-]. exists d. auto. }
  constructor; cbn [port s_pending stacks pcs returns set_stacks set_port pending_senders closed with_senders]; try done.
  - intros u Hu. destruct (H1 u Hu) as [d Hd]. rewrite Hst, Hd. case_decide; by eexists.
  - intros u. rewrite Hk, H4. split.
    + intros [[Hc (d & Hd & He)] Hu]. split; [done|]. exists d. by rewrite Hst, decide_False.
    + intros [Hc (e & He & Hde)]. destruct (Hinv u e He) as (d & Hd & [[_ ->]|[Hu ->]]); [done|].
      split; [split; [done|by exists d]|done].
  - intros u e Hc He. destruct (Hinv u e He) as (d & Hd & [[Hu ->]|[_ ->]]); [|by apply (H5 u)].
    apply Hb in Hu as [[Hc' _]%H4 _]. by rewrite Hc in Hc'.
  - intros u e He Hde. destruct (Hinv u e He) as (d & Hd & [[_ ->]|[_ ->]]); [done|by apply (H6 u)].
  - intros u e Hc He. destruct (Hinv u e He) as (d & Hd & [[_ ->]|[_ ->]]); [done|by apply (Hdn u)].
  - intros u e He Hr Hde. destruct (Hinv u e He) as (d & Hd & [[_ ->]|[_ ->]]); [done|by apply (H7 u)].
Qed.

(** Steps that move no sender: what a sender's invariant reads is the same. *)
Record calm (s s' : sys) : Prop := {
  cm_class : forall u, sclass (pcs s' !! u) = sclass (pcs s !! u);
  cm_slot : s_pending s' = s_pending s;
  cm_stacks : stacks s' = stacks s;
  cm_returns : returns s' = returns s;
  cm_senders : pending_senders (port s') = pending_senders (port s);
  cm_closed : closed (port s') = closed (port s)
}.

Lemma sender_calm s s' : sender_inv s -> calm s s' -> sender_inv s'.
Proof. intros Hs []. eapply sender_frame; try eassumption. congruence. Qed.

Create HintDb calm discriminated.

Section Calm.
Context (s0 s : sys) (H : calm s0 s).

Lemma calm_goto t x y : pcs s0 !! t = Some x -> sclass (Some x) = sclass (Some y) -> calm s0 (goto s t y).
Proof using H.
  intros Hx Hc. destruct H as [H1 H2 H3 H4 H5 H6]. constructor; cbn; try done.
  intros u. rewrite (view_insert sclass). case_decide; [subst; by rewrite Hx, Hc|done].
Qed.
Lemma calm_leave t x : pcs s0 !! t = Some x -> sclass (Some x) = NoSend -> calm s0 (leave s t).
Proof using H.
  intros Hx Hc. destruct H as [H1 H2 H3 H4 H5 H6]. constructor; cbn; try done.
  intros u. rewrite (view_delete sclass). case_decide; [subst; by rewrite Hx, Hc|done].
Qed.
Lemma calm_new t y : pcs s0 !! t = None -> sclass (Some y) = NoSend -> calm s0 (goto s t y).
Proof using H.
  intros Hx Hc. destruct H as [H1 H2 H3 H4 H5 H6]. constructor; cbn; try done.
  intros u. rewrite (view_insert sclass). case_decide; [subst; by rewrite Hx, Hc|done].
Qed.
Lemma calm_wake r : calm s0 (wake s r).
Proof using H. destruct H as [H1 H2 H3 H4 H5 H6]. constructor; try done. intros u. by rewrite (wakeless_wake sclass). Qed.
Lemma calm_reply r : calm s0 (set_pcs s (alter unpark_sender r (pcs s))).
Proof using H. destruct H as [H1 H2 H3 H4 H5 H6]. constructor; try done. intros u. cbn. by rewrite (wakeless_reply sclass). Qed.
Lemma calm_port p : pending_senders p = pending_senders (port s) -> closed p = closed (port s) -> calm s0 (set_port s p).
Proof using H. destruct H as [H1 H2 H3 H4 H5 H6]. constructor; cbn; congruence. Qed.
Lemma calm_sent e : calm s0 (log_sent s e).
Proof using H. by destruct H. Qed.
Lemma calm_got e : calm s0 (log_got s e).
Proof using H. by destruct H. Qed.
End Calm.

Lemma calm_refl s : calm s s.
Proof. by split. Qed.

Lemma calm_wakes s0 l : forall s, calm s0 s -> calm s0 (wake_list s l).
Proof. induction l as [|r l IH]; intros s H; cbn [wake_list]; [done|]. by apply IH, calm_wake. Qed.

#[export] Hint Resolve calm_refl calm_goto calm_leave calm_new calm_wake calm_reply calm_wakes calm_port calm_sent calm_got : calm.
#[export] Hint Extern 1 (sclass _ = _) => reflexivity : calm.
#[export] Hint Extern 2 (pending_senders _ = _) => cbn; first [reflexivity|assumption|congruence] : calm.
#[export] Hint Extern 2 (closed _ = _) => cbn; first [reflexivity|assumption|congruence] : calm.
#[export] Hint Extern 1 (pcs _ !! _ = _) => eassumption : calm.

Lemma try_consume_keeps p c p1 : try_consume p = (c, p1) ->
  pending_senders p1 = pending_senders p /\ closed p1 = closed p /\ recv_waiters p1 = recv_waiters p /\
  notify_waiters p1 = notify_waiters p /\ owner_pid p1 = owner_pid p.
Proof.
  unfold try_consume. destruct (msg_queue p); [|by intros [= <- <-]].
  destruct (negb _); by intros [= <- <-].
Qed.

Lemma push_message_keeps p e p1 : push_message p e = Some p1 ->
  pending_senders p1 = pending_senders p /\ closed p1 = closed p /\ recv_waiters p1 = recv_waiters p /\
  notify_waiters p1 = notify_waiters p /\ notify_bits p1 = notify_bits p.
Proof. unfold push_message. case_match; [done|]. by intros [= <-]. Qed.

(** The place a step starts from, and the function it belongs to. *)
Lemma advance_at near s t s' : advance near s t = Some s' -> exists x, pcs s !! t = Some x /\
  match x with
  | SPush _ | SExtract | SNear _ | SYieldTo _ _ | SLoop | SPrep | SRecheck _ | SAsleep _ | SUnslot | SUnlink => ipc_send_sync near s t x
  | RTry _ | RPrep | RRetry _ | RAsleep _ => receive_common s t x
  | APush _ | AExtract => enqueue_async s t x
  | NWakeN | NWakeR => ipc_notify s t x
  | WTry | WPrep | WRetry _ | WAsleep _ => ipc_wait_notify s t x
  | DWakeR _ | DWakeN _ => destroy_wakes s t x
  | DDrain | DWake _ _ => ipc_wake_senders_for_port_ptr s t x
  end = Some s'.
Proof. unfold advance. intros (x & Hx & H)%bind_Some. by exists x. Qed.

(** Opens one step of [advance]: one goal for each way out of it. *)
Ltac open_step H :=
  cbn [ipc_send_sync receive_common enqueue_async ipc_notify ipc_wait_notify destroy_wakes ipc_wake_senders_for_port_ptr] in H;
  repeat match type of H with
  | (_ ≫= _) = Some _ => apply bind_Some in H as (? & ? & H); cbn beta in H
  | context [match push_message ?p ?e with _ => _ end] =>
      let E := fresh "Hpush" in destruct (push_message p e) eqn:E;
      [pose proof (push_message_keeps _ _ _ E) as (? & ? & ? & ? & ?)|]
  | context [match try_consume ?p with _ => _ end] =>
      let E := fresh "Hconsume" in destruct (try_consume p) as [[] ?] eqn:E;
      pose proof (try_consume_keeps _ _ _ E) as (? & ? & ? & ? & ?)
  | context [let '(_, _) := ?x in _] => destruct x
  | context [match ?l with [] => _ | _ => _ end] => destruct l eqn:?
  | context [if ?b then _ else _] => destruct b eqn:?
  end; try discriminate H; try (injection H as <-).

Lemma sender_advance near s t s' : sender_inv s -> (0 < total destroying s -> closed (port s) = true) ->
  advance near s t = Some s' -> sender_inv s'.
Proof.
  intros Hs Hcl H. apply advance_at in H as (x & Ex & H).
  destruct x; open_step H.
  all: try (solve [eapply sender_calm; [eassumption|eauto with calm]]).
  all: try (solve [eapply (sender_moves _ t); [eassumption..|done|done|done]]).
  - eapply sender_push; eassumption.
  - apply sender_log; [|discriminate|discriminate].
    apply (sender_gone_unlinked (set_pending s (s_pending s ∖ {[t]}))); [by apply sender_unslotting|set_solver|].
    cbn. intros [Hc _]%(si_linked _ Hs); by rewrite Ex in Hc.
  - eapply sender_calm; [|eapply calm_goto; [apply calm_refl|exact Ex|reflexivity]].
    eapply sender_restack; [done|eassumption|done|by left|cbn; by apply (si_reply _ Hs t)].
  - destruct (si_stack _ Hs t) as [d Hd]; [by rewrite Ex|].
    apply (sender_moves (set_pending s (s_pending s ∖ {[t]})) t SUnslot SUnlink d); try done; [by apply sender_unslotting|by apply (si_done _ Hs t d); [rewrite Ex|]|set_solver].
  - apply sender_log; [|discriminate|intros _; by eapply (si_dead _ Hs t)].
    pose proof (sender_unlink s t x Hs Ex) as Hu. rewrite Heqb in Hu. by apply Hu.
  - apply sender_log; [| |discriminate].
    + pose proof (sender_unlink s t x Hs Ex) as Hu. rewrite Heqb in Hu. by apply Hu.
    + intros _. apply (si_reply _ Hs t); [done| |done]. by apply (si_done _ Hs t); [rewrite Ex|].
  - eapply sender_calm; [|eapply calm_goto; [apply calm_refl|exact Ex|reflexivity]].
    eapply sender_drain; [done| |eassumption]. apply Hcl.
    pose proof (total_ge destroying s t DDrain steady_nonneg Ex) as Hge. cbn in Hge. lia.
Qed.

Lemma reply_spec s u m pid tid kbuf size r s' : ipc_reply_staged s u m pid tid kbuf size = Some (r, s') ->
  (r = IPC_ERR_INVALID /\ u ∉ s_pending s) /\ s' = s \/
  (r = IPC_OK /\ u ∈ s_pending s) /\ exists d d', (stacks s !! u = Some d /\ reply_received d' = true /\ is_reply (reply_buf d') = true) /\
    (port_dead d' = port_dead d /\ unchecked d' = unchecked d /\ late d' = late d) /\
    s' = set_pcs (set_stacks s (<[u := d']> (stacks s))) (alter unpark_sender u (pcs s)).
Proof.
  unfold ipc_reply_staged. destruct (decide _) as [Hin|]; [|intros [= <- <-]; by left].
  intros H. right. apply bind_Some in H as (d & Hd & H). cbn in H. injection H as <- <-.
  split; [done|]. eexists d, _. split; [split_and!; [done| |]|split; [split_and!|reflexivity]]; done.
Qed.

(** Opens the first section of a call. *)
Ltac open_start c H :=
  let Hrep := fresh "Hrep" in
  destruct c; cbn [start] in H; unfold send_begin, receive_begin, post_common, ipc_post_kernel, notify_begin, destroy_begin in H;
  first [ apply bind_Some in H as ([? ?] & Hrep & H); injection H as <-;
          apply reply_spec in Hrep as [[? ->]|[? (? & ? & (? & ? & ?) & (? & ? & ?) & ->)]]
        | open_step H ].

Lemma sender_start s t c s' : sender_inv s -> pcs s !! t = None -> start s t c = Some s' -> sender_inv s'.
Proof.
  intros Hs Ht H. open_start c H; try done.
  all: try (solve [eapply sender_calm; [eassumption|eauto with calm]]).
  - by apply sender_log.
  - by apply sender_log.
  - by apply sender_begin.
  - refine (sender_calm _ _ _ (calm_reply _ (set_stacks s (<[sender := _]> (stacks s))) (calm_refl _) sender)).
    eapply sender_restack; [done|eassumption|done|by right|done].
  - apply (sender_frame s); try done.
    intros u. cbn. rewrite (view_insert sclass). case_decide; [subst; by rewrite Ht|done].
Qed.

(** [autorewrite] with the sums; what is left of the places is looked up. *)
Ltac weigh f :=
  autorewrite with totals;
  cbn [pcs set_port set_pending set_stacks set_pcs log_sent log_got log_return port s_pending stacks];
  rewrite ?(wakeless_wake (weight f)), ?(wakeless_list (weight f)), ?(wakeless_reply (weight f));
  cbn [pcs set_port set_pending set_stacks set_pcs log_sent log_got log_return port s_pending stacks];
  repeat match goal with E : pcs _ !! _ = _ |- _ => rewrite !E end;
  cbn.

Lemma destroying_advance near s t s' : advance near s t = Some s' -> total destroying s' <= total destroying s.
Proof.
  intros H. apply advance_at in H as (x & Ex & H).
  destruct x; open_step H; weigh destroying; lia.
Qed.

Lemma closed_advance near s t s' : advance near s t = Some s' -> closed (port s') = closed (port s).
Proof.
  intros H. apply advance_at in H as (x & Ex & H). destruct x; open_step H; fields; congruence.
Qed.

(** ** The message queue *)

Record queue_inv (s : sys) : Prop := {
  qi_count : msg_count (port s) = Z.of_nat (length (msg_queue (port s)));
  qi_bound : msg_count (port s) <= PORT_QUEUE_MAX;
  qi_fifo : sent s = got s ++ msg_queue (port s)
}.

Lemma queue_same s s' : queue_inv s -> msg_queue (port s') = msg_queue (port s) -> msg_count (port s') = msg_count (port s) ->
  sent s' = sent s -> got s' = got s -> queue_inv s'.
Proof. intros [H1 H2 H3] Eq En Es Eg. constructor; congruence. Qed.

Lemma push_spec p e p1 : push_message p e = Some p1 -> msg_count p = Z.of_nat (length (msg_queue p)) ->
  msg_queue p1 = msg_queue p ++ [e] /\ msg_count p1 = msg_count p + 1 /\ msg_count p < PORT_QUEUE_MAX.
Proof.
  unfold push_message. case_cmp; [done|]. intros [= <-] Hn. split; [done|]. cbn. unfold PORT_QUEUE_MAX in *.
  rewrite u32_small by (unfold is_u32; lia). lia.
Qed.

Lemma queue_push s s' e p1 : queue_inv s -> push_message (port s) e = Some p1 -> msg_queue (port s') = msg_queue p1 ->
  msg_count (port s') = msg_count p1 -> sent s' = sent s ++ [e] -> got s' = got s -> queue_inv s'.
Proof.
  intros [H1 H2 H3] Hp Eq En Es Eg. apply push_spec in Hp as (Hq & Hn & Hlt); [|done].
  constructor; [rewrite En, Eq, Hn, Hq, length_app; cbn; lia|lia|].
  by rewrite Es, Eg, Eq, Hq, H3, <- app_assoc.
Qed.

Lemma consume_spec p c p1 : try_consume p = (c, p1) ->
  match c with
  | Message e => msg_queue p = e :: msg_queue p1 /\ msg_count p1 = msg_count p ⊟ 1 /\ notify_bits p1 = notify_bits p
  | Notified m => msg_queue p = [] /\ msg_queue p1 = [] /\ msg_count p1 = msg_count p /\
      type_ m = IPC_MSG_NOTIFY /\ arg0 m = notify_bits p /\ notify_bits p <> 0 /\ notify_bits p1 = 0
  | Nothing r => p1 = p /\ msg_queue p = [] /\ notify_bits p = 0 /\ r = if closed p then IPC_ERR_DEAD else IPC_ERR_EMPTY
  end.
Proof.
  unfold try_consume. destruct (msg_queue p) as [|e q] eqn:Eq; [|by intros [= <- <-]].
  case_cmp; cbn; intros [= <- <-]; cbn; split_and!; done.
Qed.

Lemma queue_take s s' e p1 : queue_inv s -> try_consume (port s) = (Message e, p1) -> msg_queue (port s') = msg_queue p1 ->
  msg_count (port s') = msg_count p1 -> sent s' = sent s -> got s' = got s ++ [e] -> queue_inv s'.
Proof.
  intros [H1 H2 H3] Hp Eq En Es Eg. apply consume_spec in Hp as (Hq & Hn & _).
  rewrite Hq in H1, H3. cbn in H1. unfold PORT_QUEUE_MAX in *. rewrite u32_small in Hn by (unfold is_u32; lia).
  constructor; [rewrite En, Eq, Hn; lia|unfold PORT_QUEUE_MAX; lia|]. by rewrite Es, Eg, Eq, H3, <- app_assoc.
Qed.

Lemma queue_advance near s t s' : queue_inv s -> advance near s t = Some s' -> queue_inv s'.
Proof.
  intros Hq H. apply advance_at in H as (x & Ex & H). destruct x; open_step H.
  all: try (solve [eapply queue_same; [exact Hq|fields; reflexivity..]]).
  all: try (solve [eapply queue_push; [exact Hq|eassumption|reflexivity..]]).
  all: try (solve [eapply queue_take; [exact Hq|eassumption|reflexivity..]]).
  all: apply consume_spec in Hconsume as (? & ? & ? & ?); eapply queue_same; [exact Hq|fields; congruence..].
Qed.

Lemma queue_start s t c s' : queue_inv s -> start s t c = Some s' -> queue_inv s'.
Proof. intros Hq H. open_start c H; try done; (eapply queue_same; [exact Hq|reflexivity..]). Qed.

Definition closing_inv (s : sys) : Prop := 0 < total destroying s -> closed (port s) = true.

Lemma closing_advance near s t s' : closing_inv s -> advance near s t = Some s' -> closing_inv s'.
Proof.
  intros Hc H Ht. rewrite (closed_advance _ _ _ _ H). apply Hc. pose proof (destroying_advance _ _ _ _ H). lia.
Qed.

Lemma closing_start s t c s' : closing_inv s -> pcs s !! t = None -> start s t c = Some s' -> closing_inv s'.
Proof.
  intros Hc Ht H. unfold closing_inv in *. open_start c H; try done; weigh destroying; intros; (done || (pose proof (Hc ltac:(lia)); congruence)).
Qed.

(** ** Wait queues *)

(** What the wait queues of the port know of a thread. *)
Inductive role := Rechecking | Sleeping | Handing (r : Z) | NRechecking | NSleeping | Elsewhere.

Definition role_of (o : option pc) : role :=
  match o with
  | Some (RRetry true) => Rechecking
  | Some (RAsleep true) => Sleeping
  | Some (SNear r | SYieldTo r _) => Handing r
  | Some (WRetry true) => NRechecking
  | Some (WAsleep true) => NSleeping
  | _ => Elsewhere
  end.

Record wait_ok (l n : list Z) (ro : Z -> role) : Prop := {
  wo_nodup : NoDup l;
  wo_in : forall r, r ∈ l <-> (ro r = Rechecking \/ ro r = Sleeping) /\ forall u, ro u <> Handing r;
  wo_hand : forall u r, ro u = Handing r -> ro r = Sleeping;
  wo_uniq : forall u v r, ro u = Handing r -> ro v = Handing r -> u = v;
  wo_notify_nodup : NoDup n;
  wo_notify : forall r, r ∈ n <-> ro r = NRechecking \/ ro r = NSleeping
}.

Definition upd (ro : Z -> role) (t : Z) (x : role) (u : Z) : role := if decide (u = t) then x else ro u.

Lemma wait_ext l n ro ro' : wait_ok l n ro -> (forall u, ro' u = ro u) -> wait_ok l n ro'.
Proof.
  intros [H1 H2 H3 H4 H5 H6] E. constructor; try done.
  - intros r. rewrite H2, E. split; (intros [? Hu]; split; [done|]; intros u; specialize (Hu u); congruence).
  - intros u r. rewrite !E. apply H3.
  - intros u v r. rewrite !E. apply H4.
  - intros r. by rewrite E.
Qed.

Lemma elem_of_rest (r : Z) l : (r ∉ l) -> forall u, u ∈ l <-> u <> r /\ u ∈ r :: l.
Proof. intros Hr u. rewrite elem_of_cons. split; [intros Hu; split; [congruence|by right]|intros [? [?|?]]; done]. Qed.

Lemma wait_extract r l n ro : wait_ok (r :: l) n ro -> wait_ok l n (upd ro r Elsewhere).
Proof.
  intros [[Hr H1]%NoDup_cons H2 H3 H4 H5 H6].
  assert ((ro r = Rechecking \/ ro r = Sleeping) /\ forall u, ro u <> Handing r) as [Hro Hno] by (apply H2; by left).
  constructor; try done.
  - intros u. rewrite (elem_of_rest r l Hr), H2. unfold upd. destruct (decide (u = r)) as [->|Hne].
    + split; [by intros [? _]|]. intros [[?|?] _]; done.
    + split; [intros (_ & ? & Hu); split; [done|]; intros v; case_decide; [done|apply Hu]|].
      intros [? Hu]. split; [done|]. split; [done|]. intros v Hv. apply (Hu v). rewrite decide_False; [done|].
      intros ->. destruct Hro; congruence.
  - unfold upd. intros u v Hu. case_decide; [done|]. rewrite decide_False; [by eapply H3|]. intros ->. by apply (Hno u).
  - unfold upd. intros u v x. case_decide; [done|]. case_decide; [done|]. apply H4.
  - intros u. rewrite H6. unfold upd. case_decide; [subst|done]. destruct Hro as [E|E]; rewrite E; split; intros [?|?]; done.
Qed.

Lemma wait_hand r l n ro t : wait_ok (r :: l) n ro -> ro r = Sleeping -> ro t = Elsewhere ->
  wait_ok l n (upd ro t (Handing r)).
Proof.
  intros [[Hr H1]%NoDup_cons H2 H3 H4 H5 H6] Hs Ht.
  assert (forall u, ro u <> Handing r) as Hno by (apply H2; by left).
  constructor; try done.
  - intros u. rewrite (elem_of_rest r l Hr), H2. unfold upd. destruct (decide (u = t)) as [->|Hne].
    + rewrite Ht. split; [intros (_ & [?|?] & _)|intros [[?|?] _]]; done.
    + split.
      * intros (? & ? & Hu). split; [done|]. intros v. case_decide; [congruence|apply Hu].
      * intros [? Hu]. split; [|split; [done|]].
        -- intros ->. specialize (Hu t). by rewrite decide_True in Hu.
        -- intros v Hv. apply (Hu v). rewrite decide_False; [done|]. intros ->. congruence.
  - unfold upd. intros u v Hu. case_decide as E; [injection Hu as <-; subst; by rewrite decide_False by congruence|].
    rewrite decide_False; [by eapply H3|]. intros ->. apply H3 in Hu. congruence.
  - unfold upd. intros u v x. repeat case_decide; subst; try done; [..|apply H4]; intros E1 E2.
    + injection E1 as <-. by destruct (Hno v).
    + injection E2 as <-. by destruct (Hno u).
  - intros u. rewrite H6. unfold upd. case_decide; [subst; rewrite Ht; split; intros [?|?]; done|done].
Qed.

(** A thread whose role changes and that no sender is handing the processor to. *)
Section Role_change.
Context (l n : list Z) (ro : Z -> role) (t : Z) (Hok : wait_ok l n ro) (Hno : forall u, ro u <> Handing t).

Lemma wait_set x l' n' : (forall r, x <> Handing r) -> (forall r, ro t <> Handing r) -> NoDup l' -> NoDup n' ->
  (forall u, u <> t -> (u ∈ l' <-> u ∈ l)) -> (t ∈ l' <-> x = Rechecking \/ x = Sleeping) ->
  (forall u, u <> t -> (u ∈ n' <-> u ∈ n)) -> (t ∈ n' <-> x = NRechecking \/ x = NSleeping) ->
  wait_ok l' n' (upd ro t x).
Proof using Hok Hno.
  destruct Hok as [H1 H2 H3 H4 H5 H6]. intros Hx Ht Hl Hn Hl1 Hl2 Hn1 Hn2. constructor; try done; unfold upd.
  - intros u. destruct (decide (u = t)) as [->|Hne].
    + rewrite Hl2. split; [|by intros [? _]]. intros ?. split; [done|]. intros u. case_decide; [apply Hx|apply Hno].
    + rewrite (Hl1 u Hne), H2. split; intros [? Hu]; (split; [done|]); intros v; specialize (Hu v); case_decide; subst; done || apply Hx || apply Ht.
  - intros u v Hu. destruct (decide (u = t)); [by apply Hx in Hu|]. rewrite decide_False; [by eapply H3|]. intros ->. by apply (Hno u).
  - intros u v r E1 E2. destruct (decide (u = t)); [by apply Hx in E1|]. destruct (decide (v = t)); [by apply Hx in E2|]. by eapply H4.
  - intros u. destruct (decide (u = t)) as [->|Hne]; [done|]. by rewrite (Hn1 u Hne).
Qed.
End Role_change.

Section Roles.
Context (l n : list Z) (ro : Z -> role) (t : Z) (Hok : wait_ok l n ro).

Lemma wait_awake : ro t <> Sleeping -> forall u, ro u <> Handing t.
Proof using Hok. intros Ht u Hu. by apply (wo_hand _ _ _ Hok) in Hu. Qed.

Lemma wait_join : ro t = Elsewhere -> wait_ok (l ++ [t]) n (upd ro t Rechecking).
Proof using Hok.
  intros Ht. destruct (wait_ext _ _ _ ro Hok) as [H1 H2 H3 H4 H5 H6]; [done|].
  assert (t ∉ l) as Hl by (intros [[E|E] _]%H2; congruence).
  apply (wait_set l n ro t Hok); try done; [apply wait_awake; congruence|congruence|..].
  - apply NoDup_app. split; [done|]. split; [by intros u Hu ->%list_elem_of_singleton|apply NoDup_singleton].
  - intros u Hu. rewrite elem_of_app, list_elem_of_singleton. tauto.
  - rewrite elem_of_app, list_elem_of_singleton. tauto.
  - rewrite H6, Ht. split; intros [?|?]; done.
Qed.

Lemma wait_sleep : ro t = Rechecking -> wait_ok l n (upd ro t Sleeping).
Proof using Hok.
  intros Ht. destruct (wait_ext _ _ _ ro Hok) as [H1 H2 H3 H4 H5 H6]; [done|].
  apply (wait_set l n ro t Hok); try done; [apply wait_awake; congruence|congruence|..].
  - rewrite H2, Ht. split; [intros _; by right|]. intros _. split; [by left|]. apply wait_awake. congruence.
  - rewrite H6, Ht. split; intros [?|?]; done.
Qed.

Lemma wait_cancelled : ro t = Rechecking \/ ro t = Elsewhere ->
  wait_ok (filter (fun x => x <> t) l) n (upd ro t Elsewhere).
Proof using Hok.
  intros Ht. destruct (wait_ext _ _ _ ro Hok) as [H1 H2 H3 H4 H5 H6]; [done|].
  apply (wait_set l n ro t Hok); try done; [apply wait_awake|intros r E|by apply NoDup_filter|..].
  1,2: destruct Ht; congruence.
  - intros u Hu. rewrite list_elem_of_filter. tauto.
  - rewrite list_elem_of_filter. split; [by intros [? _]|by intros [?|?]].
  - rewrite H6. destruct Ht as [-> | ->]; split; intros [?|?]; done.
Qed.

Lemma wait_njoin : ro t = Elsewhere -> wait_ok l (n ++ [t]) (upd ro t NRechecking).
Proof using Hok.
  intros Ht. destruct (wait_ext _ _ _ ro Hok) as [H1 H2 H3 H4 H5 H6]; [done|].
  assert (t ∉ n) as Hl by (intros [E|E]%H6; congruence).
  apply (wait_set l n ro t Hok); try done; [apply wait_awake; congruence|congruence|..].
  - apply NoDup_app. split; [done|]. split; [by intros u Hu ->%list_elem_of_singleton|apply NoDup_singleton].
  - rewrite H2, Ht. split; [intros [[?|?] _]|intros [?|?]]; done.
  - intros u Hu. rewrite elem_of_app, list_elem_of_singleton. tauto.
  - rewrite elem_of_app, list_elem_of_singleton. tauto.
Qed.

Lemma wait_nsleep : ro t = NRechecking -> wait_ok l n (upd ro t NSleeping).
Proof using Hok.
  intros Ht. destruct (wait_ext _ _ _ ro Hok) as [H1 H2 H3 H4 H5 H6]; [done|].
  apply (wait_set l n ro t Hok); try done; [apply wait_awake; congruence|congruence|..].
  - rewrite H2, Ht. split; [intros [[?|?] _]|intros [?|?]]; done.
  - rewrite H6, Ht. tauto.
Qed.

Lemma wait_ncancelled : ro t = NRechecking \/ ro t = Elsewhere ->
  wait_ok l (filter (fun x => x <> t) n) (upd ro t Elsewhere).
Proof using Hok.
  intros Ht. destruct (wait_ext _ _ _ ro Hok) as [H1 H2 H3 H4 H5 H6]; [done|].
  apply (wait_set l n ro t Hok); try done; [apply wait_awake|intros r E|by apply NoDup_filter|..].
  1,2: destruct Ht; congruence.
  - rewrite H2. destruct Ht as [-> | ->]; (split; [intros [[?|?] _]|intros [?|?]]; done).
  - intros u Hu. rewrite list_elem_of_filter. tauto.
  - rewrite list_elem_of_filter. split; [by intros [? _]|by intros [?|?]].
Qed.

(** A sender gives the processor to the receiver it extracted. *)
Lemma wait_yield r : ro t = Handing r -> wait_ok l n (upd (upd ro r Elsewhere) t Elsewhere).
Proof using Hok.
  intros Ht. destruct (wait_ext _ _ _ ro Hok) as [H1 H2 H3 H4 H5 H6]; [done|].
  pose proof (H3 _ _ Ht) as Hr. assert (t <> r) by congruence. unfold upd. constructor; try done.
  - intros u. rewrite H2. destruct (decide (u = t)) as [->|]; [rewrite Ht; split; intros [[?|?] _]; done|].
    destruct (decide (u = r)) as [->|].
    + split; [intros [_ Hu]; by destruct (Hu t)|intros [[?|?] _]; done].
    + split; intros [? Hu]; (split; [done|]); intros v Hv; specialize (Hu v); repeat case_decide; congruence.
  - intros u v. destruct (decide (u = t)); [done|]. destruct (decide (u = r)); [done|]. intros Hu.
    rewrite decide_False by (intros ->; apply H3 in Hu; congruence).
    rewrite decide_False; [by eapply H3|]. intros ->. by pose proof (H4 _ _ _ Ht Hu).
  - intros u v x. destruct (decide (u = t)); [done|]. destruct (decide (u = r)); [done|].
    destruct (decide (v = t)); [done|]. destruct (decide (v = r)); [done|]. apply H4.
  - intros u. rewrite H6. repeat case_decide; subst; rewrite ?Ht, ?Hr; try done; split; intros [?|?]; done.
Qed.

Lemma wait_all : wait_ok [] n (fun u => if decide (u ∈ l) then Elsewhere else ro u).
Proof using Hok.
  destruct (wait_ext _ _ _ ro Hok) as [H1 H2 H3 H4 H5 H6]; [done|]. constructor; try done; [apply NoDup_nil_2|..].
  - intros u. split; [by intros ?%elem_of_nil|]. intros [Hu Hno]. case_decide as Hl; [by destruct Hu|].
    exfalso. apply Hl, H2. split; [done|]. intros v Hv. apply (Hno v). rewrite decide_False; [done|].
    intros [[?|?] _]%H2; congruence.
  - intros u v. case_decide; [done|]. intros Hu. rewrite decide_False; [by eapply H3|].
    intros [_ Hv]%H2. by apply (Hv u).
  - intros u v x. repeat case_decide; try done. apply H4.
  - intros u. rewrite H6. case_decide as Hl; [|done]. apply H2 in Hl as [[-> | ->] _]; split; intros [?|?]; done.
Qed.

Lemma wait_nall : wait_ok l [] (fun u => if decide (u ∈ n) then Elsewhere else ro u).
Proof using Hok.
  destruct (wait_ext _ _ _ ro Hok) as [H1 H2 H3 H4 H5 H6]; [done|]. constructor; try done; [..|apply NoDup_nil_2|].
  - intros u. rewrite H2. destruct (decide (u ∈ n)) as [Hn|Hn].
    + apply H6 in Hn. split; [intros [[?|?] _]; destruct Hn; congruence|intros [[?|?] _]; done].
    + split; intros [? Hu]; (split; [done|]); intros v Hv; apply (Hu v); [|rewrite decide_False; [done|]].
      * by case_decide.
      * intros [?|?]%H6; congruence.
  - intros u v. case_decide; [done|]. intros Hu. apply H3 in Hu as Hv. rewrite decide_False; [done|].
    intros [?|?]%H6; congruence.
  - intros u v x. repeat case_decide; try done. apply H4.
  - intros u. split; [by intros ?%elem_of_nil|]. case_decide as Hn; [by intros [?|?]|]. intros Hu%H6. done.
Qed.
End Roles.

Definition roles (s : sys) (u : Z) : role := role_of (pcs s !! u).
Definition wait_inv (s : sys) : Prop := wait_ok (recv_waiters (port s)) (notify_waiters (port s)) (roles s).

Lemma roles_goto s t y u : roles (goto s t y) u = upd (roles s) t (role_of (Some y)) u.
Proof. apply (view_insert role_of). Qed.
Lemma roles_leave s t u : roles (leave s t) u = upd (roles s) t Elsewhere u.
Proof. apply (view_delete role_of). Qed.
Lemma role_unpark o : role_of (unpark <$> o) = match role_of o with Handing r => Handing r | _ => Elsewhere end.
Proof. by destruct o as [[]|]; repeat match goal with b : bool |- _ => destruct b end. Qed.
Lemma role_reply o : role_of (unpark_sender <$> o) = role_of o.
Proof. by destruct o as [[]|]. Qed.
Lemma roles_wake s r u : (forall x, roles s r <> Handing x) -> roles (wake s r) u = upd (roles s) r Elsewhere u.
Proof.
  intros Hr. unfold roles, upd in *. rewrite wake_lookup. case_decide; [subst|done]. rewrite role_unpark.
  destruct (role_of _); try done. by destruct (Hr r0).
Qed.
Lemma roles_wakes s l u : (forall r x, r ∈ l -> roles s r <> Handing x) ->
  roles (wake_list s l) u = if decide (u ∈ l) then Elsewhere else roles s u.
Proof.
  intros Hl. unfold roles in *. rewrite wake_list_lookup. case_decide as Hu; [|done]. rewrite role_unpark.
  destruct (role_of _) eqn:E; try done. by destruct (Hl u r Hu).
Qed.
Lemma roles_replied s s' r u : roles (set_pcs s' (alter unpark_sender r (pcs s))) u = roles s u.
Proof.
  unfold roles. cbn. destruct (decide (u = r)) as [->|]; [by rewrite lookup_alter_eq, role_reply|by rewrite lookup_alter_ne].
Qed.

Lemma upd_ext ro ro' t x u : (forall v, ro v = ro' v) -> upd ro t x u = upd ro' t x u.
Proof. intros H. unfold upd. by rewrite H. Qed.
Lemma upd_same ro t x u : ro t = x -> upd ro t x u = ro u.
Proof. unfold upd. case_decide; by subst. Qed.

Lemma wait_same s s' : wait_inv s -> recv_waiters (port s') = recv_waiters (port s) ->
  notify_waiters (port s') = notify_waiters (port s) -> (forall u, roles s' u = roles s u) -> wait_inv s'.
Proof. unfold wait_inv. intros H -> -> E. by eapply wait_ext. Qed.

(** Those in a queue hand the processor to nobody. *)
Lemma recv_no_hand s r x : wait_inv s -> r ∈ recv_waiters (port s) -> roles s r <> Handing x.
Proof. intros Hw [[->| ->] _]%(wo_in _ _ _ Hw); done. Qed.
Lemma notify_no_hand s r x : wait_inv s -> r ∈ notify_waiters (port s) -> roles s r <> Handing x.
Proof. intros Hw [->| ->]%(wo_notify _ _ _ Hw); done. Qed.

(** The thread at the head is woken. *)
Lemma wait_wake_head s r l : wait_inv s -> recv_waiters (port s) = r :: l ->
  wait_inv (wake (set_port s (with_recv (port s) l)) r).
Proof.
  intros Hw E. pose proof (recv_no_hand s r) as Hr. rewrite E in Hr. unfold wait_inv in Hw |- *. rewrite E in Hw. cbn.
  eapply wait_ext; [by eapply wait_extract|]. intros u. apply (roles_wake (set_port s _)). intros x. apply Hr; [|by left].
  unfold wait_inv. by rewrite E.
Qed.

Lemma wait_wake_all s : wait_inv s -> wait_inv (wake_list (set_port s (with_recv (port s) [])) (recv_waiters (port s))).
Proof.
  intros Hw. unfold wait_inv. rewrite port_wakes. cbn. eapply wait_ext; [by eapply wait_all|].
  intros u. apply (roles_wakes (set_port s _)). intros r x. by apply (recv_no_hand s).
Qed.

Lemma wait_notify_all s : wait_inv s -> wait_inv (wake_list (set_port s (with_notify (port s) [])) (notify_waiters (port s))).
Proof.
  intros Hw. unfold wait_inv. rewrite port_wakes. cbn. eapply wait_ext; [by eapply wait_nall|].
  intros u. apply (roles_wakes (set_port s _)). intros r x. by apply (notify_no_hand s).
Qed.

(** A thread outside the queues moves about outside them. *)
Lemma wait_goto s t y : wait_inv s -> roles s t = role_of (Some y) -> wait_inv (goto s t y).
Proof. intros Hw E. eapply wait_same; [done..|]. intros u. by rewrite roles_goto, upd_same. Qed.
Lemma wait_leave s t : wait_inv s -> roles s t = Elsewhere -> wait_inv (leave s t).
Proof. intros Hw E. eapply wait_same; [done..|]. intros u. by rewrite roles_leave, upd_same. Qed.
Lemma wait_reply s s' r : wait_inv s -> port s' = port s -> wait_inv (set_pcs s' (alter unpark_sender r (pcs s))).
Proof. intros Hw E. eapply wait_same; [exact Hw|cbn; by rewrite E..|]. intros u. apply roles_replied. Qed.
Lemma wait_port s p : wait_inv s -> recv_waiters p = recv_waiters (port s) -> notify_waiters p = notify_waiters (port s) ->
  wait_inv (set_port s p).
Proof. intros. by eapply wait_same. Qed.

(** A thread outside the queues: after a wake it still is. *)
Lemma roles_at s t x : pcs s !! t = Some x -> roles s t = role_of (Some x).
Proof. unfold roles. by intros ->. Qed.
Lemma elsewhere_wake s r t : roles s t = Elsewhere -> roles (wake s r) t = Elsewhere.
Proof. unfold roles. rewrite wake_lookup. case_decide; [subst; rewrite role_unpark; by intros ->|done]. Qed.
Lemma elsewhere_wakes s l t : roles s t = Elsewhere -> roles (wake_list s l) t = Elsewhere.
Proof. unfold roles. rewrite wake_list_lookup. case_decide; [rewrite role_unpark; by intros ->|done]. Qed.

(** A step that moves one thread and touches no queue. *)
Lemma wait_moves s s' t o : wait_inv s -> recv_waiters (port s') = recv_waiters (port s) ->
  notify_waiters (port s') = notify_waiters (port s) ->
  pcs s' = match o with Some y => <[t := y]> (pcs s) | None => delete t (pcs s) end ->
  roles s t = role_of o -> wait_inv s'.
Proof.
  intros Hw E1 E2 Ep Er. eapply wait_same; [done..|]. intros u. unfold roles. rewrite Ep.
  destruct o; rewrite ?(view_insert role_of), ?(view_delete role_of); case_decide; by subst.
Qed.

(** Steps that move one thread and one queue. *)
Lemma wait_shifts s s' t o : wait_ok (recv_waiters (port s')) (notify_waiters (port s')) (upd (roles s) t (role_of o)) ->
  pcs s' = match o with Some y => <[t := y]> (pcs s) | None => delete t (pcs s) end -> wait_inv s'.
Proof.
  intros Hw Ep. eapply wait_ext; [exact Hw|]. intros u. unfold roles, upd. rewrite Ep.
  destruct o; by rewrite ?(view_insert role_of), ?(view_delete role_of).
Qed.

Lemma retry_role s t q : pcs s !! t = Some (RRetry q) -> roles s t = Rechecking \/ roles s t = Elsewhere.
Proof. unfold roles. intros ->. destruct q; auto. Qed.
Lemma nretry_role s t q : pcs s !! t = Some (WRetry q) -> roles s t = NRechecking \/ roles s t = Elsewhere.
Proof. unfold roles. intros ->. destruct q; auto. Qed.

(** The sender [t] found a sleeper on its own processor. *)
Lemma wait_direct s t r l : wait_inv s -> pcs s !! t = Some SExtract -> recv_waiters (port s) = r :: l ->
  sleeps_here s r = true -> wait_inv (goto (set_port s (with_recv (port s) l)) t (SNear r)).
Proof.
  intros Hw Ht E Hs. eapply (wait_shifts s _ t (Some (SNear r))); [|reflexivity]. cbn.
  assert ((roles s r = Rechecking \/ roles s r = Sleeping) /\ forall u, roles s u <> Handing r) as [Hr _].
  { apply (wo_in _ _ _ Hw). rewrite E. by left. }
  eapply wait_hand; [by unfold wait_inv in Hw; rewrite E in Hw| |by unfold roles; rewrite Ht].
  unfold sleeps_here in Hs. unfold roles in *. destruct (pcs s !! r) as [[]|]; try done; cbn in *; subst; by destruct Hr.
Qed.

Lemma wait_yields s t r q : wait_inv s -> pcs s !! t = Some (SYieldTo r q) -> wait_inv (goto (wake s r) t (SAsleep q)).
Proof.
  intros Hw Ht. pose proof (roles_at _ _ _ Ht) as Hr. eapply wait_ext; [by eapply wait_yield|]. intros u.
  rewrite roles_goto. apply upd_ext. intros v. apply roles_wake. intros x Hx.
  apply (wo_hand _ _ _ Hw) in Hr. congruence.
Qed.

Lemma wait_advance near s t s' : wait_inv s -> advance near s t = Some s' -> wait_inv s'.
Proof.
  intros Hw H. apply advance_at in H as (x & Ex & H). pose proof (roles_at _ _ _ Ex) as Hr.
  destruct x; open_step H.
  all: try (solve [eapply (wait_moves s _ t (Some _)); [exact Hw|fields; congruence..|reflexivity|exact Hr]]).
  all: try (solve [eapply (wait_moves s _ t None); [exact Hw|fields; congruence..|reflexivity|exact Hr]]).
  all: try (solve [eapply (wait_shifts s _ t None); [|reflexivity]; cbn; try match goal with E : recv_waiters _ = _, E' : notify_waiters _ = _ |- _ => rewrite ?E, ?E' end;
    first [apply wait_cancelled; [exact Hw|by eapply retry_role]|apply wait_ncancelled; [exact Hw|by eapply nretry_role]]]).
  all: try (solve [first [apply wait_goto|apply wait_leave]; [by first [apply wait_wake_all|apply wait_notify_all|apply wait_wake_head|apply wait_reply]|
    first [apply elsewhere_wakes|apply elsewhere_wake|rewrite roles_replied]; exact Hr]]).
  - apply andb_true_iff in Heqb as [_ ?]. by apply wait_direct.
  - by apply wait_yields.
  - eapply (wait_shifts s _ t (Some _)); [|reflexivity]. by apply wait_join.
  - destruct parked; [|eapply (wait_moves s _ t (Some _)); [exact Hw|done..]].
    eapply (wait_shifts s _ t (Some _)); [|reflexivity]. by apply wait_sleep.
  - eapply (wait_shifts s _ t (Some _)); [|reflexivity]. by apply wait_njoin.
  - destruct parked; [|eapply (wait_moves s _ t (Some _)); [exact Hw|done..]].
    eapply (wait_shifts s _ t (Some _)); [|reflexivity]. by apply wait_nsleep.
Qed.

Lemma wait_start s t c s' : wait_inv s -> pcs s !! t = None -> start s t c = Some s' -> wait_inv s'.
Proof.
  intros Hw Ht H. assert (roles s t = Elsewhere) as Hr by (unfold roles; by rewrite Ht).
  open_start c H; try done.
  all: try (solve [eapply (wait_moves s _ t (Some _)); [exact Hw|fields; congruence..|reflexivity|exact Hr]]).
  by apply wait_reply.
Qed.

(** ** No wake-up is lost *)

(** Sleepers nobody has extracted from the queues. *)
Definition listens (s : sys) : Prop := exists r, r ∈ recv_waiters (port s) /\ roles s r = Sleeping.
Definition awaits (s : sys) : Prop := exists r, r ∈ notify_waiters (port s) /\ roles s r = NSleeping.

(** Threads that will wake a receiver or take a message. *)
Definition credit (x : pc) : Z :=
  match x with
  | SExtract | SNear _ | SYieldTo _ _ | AExtract | RTry true | RRetry false | RAsleep false => 1
  | _ => 0
  end.
Definition notifies_r (x : pc) : Z := match x with NWakeN | NWakeR => 1 | _ => 0 end.
Definition notifies_n (x : pc) : Z := match x with NWakeN => 1 | _ => 0 end.
Definition closes_r (x : pc) : Z := match x with DWakeR _ => 1 | _ => 0 end.
Definition closes_n (x : pc) : Z := match x with DWakeR _ | DWakeN _ => 1 | _ => 0 end.

#[export] Instance notifies_r_steady : Steady notifies_r. Proof. split; intros []; cbn; lia. Qed.
#[export] Instance notifies_n_steady : Steady notifies_n. Proof. split; intros []; cbn; lia. Qed.
#[export] Instance closes_r_steady : Steady closes_r. Proof. split; intros []; cbn; lia. Qed.
#[export] Instance closes_n_steady : Steady closes_n. Proof. split; intros []; cbn; lia. Qed.

Record live_inv (s : sys) : Prop := {
  lv_queue : listens s -> Z.of_nat (length (msg_queue (port s))) <= total credit s;
  lv_bits : listens s -> notify_bits (port s) <> 0 -> 0 < total notifies_r s;
  lv_closed : listens s -> closed (port s) = true -> 0 < total closes_r s;
  lv_nbits : awaits s -> notify_bits (port s) <> 0 -> 0 < total notifies_n s;
  lv_nclosed : awaits s -> closed (port s) = true -> 0 < total closes_n s
}.

(** Nobody is put to sleep in a queue but by its own step. *)
Definition dozes (o : role) (s s' : sys) : Prop := forall r, roles s' r = o -> roles s r = o.

Section Dozes.
Context (o : role) (Ho : o = Sleeping \/ o = NSleeping) (s0 s : sys) (H : dozes o s0 s).

Lemma dozes_pcs s' : pcs s' = pcs s -> dozes o s0 s'.
Proof using H. intros E. unfold dozes, roles in *. by rewrite E. Qed.
Lemma dozes_goto t y : role_of (Some y) <> o -> dozes o s0 (goto s t y).
Proof using H. intros Hy r. rewrite roles_goto. unfold upd. case_decide; [done|apply H]. Qed.
Lemma dozes_leave t : dozes o s0 (leave s t).
Proof using H Ho. intros r. rewrite roles_leave. unfold upd. case_decide; [by destruct Ho as [-> | ->]|apply H]. Qed.
Lemma dozes_wake r : dozes o s0 (wake s r).
Proof using H Ho.
  intros u. unfold roles. rewrite wake_lookup. case_decide; [|apply H].
  rewrite role_unpark. by destruct (role_of _), Ho as [-> | ->].
Qed.
Lemma dozes_reply s' r : dozes o s0 (set_pcs s' (alter unpark_sender r (pcs s))).
Proof using H. intros u. rewrite roles_replied. apply H. Qed.
End Dozes.

Lemma dozes_wakes o s0 l : (o = Sleeping \/ o = NSleeping) -> forall s, dozes o s0 s -> dozes o s0 (wake_list s l).
Proof. intros Ho. induction l as [|r l IH]; intros s H; cbn [wake_list]; [done|]. by apply IH, dozes_wake. Qed.

Ltac doze :=
  repeat lazymatch goal with
  | |- dozes _ ?s ?s => by intros ?
  | |- dozes _ _ (goto _ _ _) => apply dozes_goto; [|by repeat match goal with b : bool |- _ => destruct b end]
  | |- dozes _ _ (leave _ _) => apply dozes_leave; [auto|]
  | |- dozes _ _ (wake _ _) => apply dozes_wake; [auto|]
  | |- dozes _ _ (wake_list _ _) => apply dozes_wakes; [auto|]
  | |- dozes _ _ (set_pcs _ (alter unpark_sender _ (pcs ?s))) => apply (dozes_reply _ _ s)
  | |- dozes _ _ (set_port ?s _) => apply (dozes_pcs _ _ s); [|reflexivity]
  | |- dozes _ _ (set_stacks ?s _) => apply (dozes_pcs _ _ s); [|reflexivity]
  | |- dozes _ _ (set_pending ?s _) => apply (dozes_pcs _ _ s); [|reflexivity]
  | |- dozes _ _ (log_sent ?s _) => apply (dozes_pcs _ _ s); [|reflexivity]
  | |- dozes _ _ (log_got ?s _) => apply (dozes_pcs _ _ s); [|reflexivity]
  | |- dozes _ _ (log_return ?s _ _ _) => apply (dozes_pcs _ _ s); [|reflexivity]
  end.

(** A thread that just joined a queue is not asleep. *)
Lemma listens_mono s s' : dozes Sleeping s s' ->
  (forall r, r ∈ recv_waiters (port s') -> r ∈ recv_waiters (port s) \/ roles s' r = Rechecking) ->
  listens s' -> listens s.
Proof. intros H Hl (r & Hr & Hs). exists r. split; [destruct (Hl r Hr); [done|congruence]|by apply H]. Qed.
Lemma awaits_mono s s' : dozes NSleeping s s' ->
  (forall r, r ∈ notify_waiters (port s') -> r ∈ notify_waiters (port s) \/ roles s' r = NRechecking) ->
  awaits s' -> awaits s.
Proof. intros H Hl (r & Hr & Hs). exists r. split; [destruct (Hl r Hr); [done|congruence]|by apply H]. Qed.

Lemma listens_none s : recv_waiters (port s) = [] -> listens s -> False.
Proof. intros E (r & Hr & _). rewrite E in Hr. by apply elem_of_nil in Hr. Qed.
Lemma awaits_none s : notify_waiters (port s) = [] -> awaits s -> False.
Proof. intros E (r & Hr & _). rewrite E in Hr. by apply elem_of_nil in Hr. Qed.

(** The queues a step leaves hold only threads that were there, and one that joined. *)
Ltac subqueue :=
  fields; intros ?;
  repeat match goal with E : recv_waiters _ = _ |- _ => rewrite !E | E : notify_waiters _ = _ |- _ => rewrite !E end;
  rewrite ?list_elem_of_filter, ?elem_of_cons, ?elem_of_app, ?list_elem_of_singleton;
  first [tauto|intros [?| ->]; [by left|right; rewrite roles_goto; unfold upd; by rewrite decide_True]].

(** What a sleeping receiver counts on, before and after a step. *)
Ltac listening s L :=
  first [exfalso; revert L; apply listens_none; by fields|apply (listens_mono s) in L; [|by doze|by subqueue]].
Ltac awaiting s L :=
  first [exfalso; revert L; apply awaits_none; by fields|apply (awaits_mono s) in L; [|by doze|by subqueue]].

Lemma consume_bits p c p1 : try_consume p = (c, p1) -> notify_bits p1 <> 0 -> notify_bits p <> 0.
Proof. intros H%consume_spec. destruct c; [destruct H as (? & ? & ->)|destruct H as (? & ? & ? & ? & ? & ? & ->)|destruct H as (-> & _)]; done. Qed.

Lemma live_advance_bits near s t s' : advance near s t = Some s' ->
  (listens s -> notify_bits (port s) <> 0 -> 0 < total notifies_r s) ->
  listens s' -> notify_bits (port s') <> 0 -> 0 < total notifies_r s'.
Proof.
  intros H Hv L B. apply advance_at in H as (x & Ex & H).
  destruct x; open_step H.
  all: try (listening s L).
  all: try (assert (notify_bits (port s) <> 0) as B' by (revert B; fields; first [eapply consume_bits; eassumption|congruence])).
  all: try (solve [specialize (Hv L B'); weigh notifies_r; lia]).
  by apply consume_spec in Hconsume as (_ & _ & ? & _).
Qed.

Lemma live_advance_closed near s t s' : advance near s t = Some s' ->
  (listens s -> closed (port s) = true -> 0 < total closes_r s) ->
  listens s' -> closed (port s') = true -> 0 < total closes_r s'.
Proof.
  intros H Hv L C. rewrite (closed_advance _ _ _ _ H) in C. apply advance_at in H as (x & Ex & H).
  destruct x; open_step H.
  all: try (listening s L).
  all: try (solve [specialize (Hv L C); weigh closes_r; lia]).
  apply consume_spec in Hconsume as (_ & _ & _ & ->). by rewrite C in *.
Qed.

Lemma live_advance_nbits near s t s' : advance near s t = Some s' ->
  (awaits s -> notify_bits (port s) <> 0 -> 0 < total notifies_n s) ->
  awaits s' -> notify_bits (port s') <> 0 -> 0 < total notifies_n s'.
Proof.
  intros H Hv L B. apply advance_at in H as (x & Ex & H).
  destruct x; open_step H.
  all: try (awaiting s L).
  all: try (assert (notify_bits (port s) <> 0) as B' by (revert B; fields; first [eapply consume_bits; eassumption|congruence])).
  all: try (solve [specialize (Hv L B'); weigh notifies_n; lia]).
  by apply orb_false_iff in Heqb as [Hb%negb_false_iff%Z.eqb_eq _].
Qed.

Lemma live_advance_nclosed near s t s' : advance near s t = Some s' ->
  (awaits s -> closed (port s) = true -> 0 < total closes_n s) ->
  awaits s' -> closed (port s') = true -> 0 < total closes_n s'.
Proof.
  intros H Hv L C. rewrite (closed_advance _ _ _ _ H) in C. apply advance_at in H as (x & Ex & H).
  destruct x; open_step H.
  all: try (awaiting s L).
  all: try (solve [specialize (Hv L C); weigh closes_n; lia]).
  apply orb_false_iff in Heqb as [_ Hb]. congruence.
Qed.

Lemma credit_unpark x : credit x <= credit (unpark x).
Proof. destruct x; cbn; repeat case_match; done || lia. Qed.
Lemma credit_nonneg x : 0 <= credit x.
Proof. destruct x; cbn; repeat case_match; lia. Qed.
Lemma credit_wake s r : total credit s <= total credit (wake s r).
Proof. unfold total, wake. cbn. rewrite msum_change. destruct (pcs s !! r) as [x|]; cbn; [pose proof (credit_unpark x)|]; lia. Qed.
Lemma credit_wakes l : forall s, total credit s <= total credit (wake_list s l).
Proof. induction l as [|r l IH]; intros s; cbn [wake_list]; [lia|]. pose proof (credit_wake s r). pose proof (IH (wake s r)). lia. Qed.
Lemma credit_parked s r : roles s r = Rechecking \/ roles s r = Sleeping -> total credit (wake s r) = total credit s + 1.
Proof.
  unfold roles, total, wake. cbn. rewrite msum_change. destruct (pcs s !! r) as [[]|]; cbn; intros [Hr|Hr]; try done;
    destruct parked; try done; cbn; lia.
Qed.
Lemma credit_reply s s' r : total credit (set_pcs s' (alter unpark_sender r (pcs s))) = total credit s.
Proof. apply msum_alter. by intros []. Qed.

Lemma wake_at s r t x : pcs s !! t = Some x -> unpark x = x -> pcs (wake s r) !! t = Some x.
Proof. intros H E. rewrite wake_lookup, H. cbn. rewrite E. by case_decide. Qed.
Lemma wakes_at s l t x : pcs s !! t = Some x -> unpark x = x -> pcs (wake_list s l) !! t = Some x.
Proof. intros H E. rewrite wake_list_lookup, H. cbn. rewrite E. by case_decide. Qed.

Lemma push_queue p e p1 : push_message p e = Some p1 -> msg_queue p1 = msg_queue p ++ [e].
Proof. unfold push_message. case_match; [done|]. by intros [= <-]. Qed.

(** The head of the queue is parked; a handed thread too. *)
Lemma head_parked s r l : wait_inv s -> recv_waiters (port s) = r :: l -> roles s r = Rechecking \/ roles s r = Sleeping.
Proof. intros Hw E. apply (wo_in _ _ _ Hw). rewrite E. by left. Qed.
Lemma handed_parked s t r q : wait_inv s -> pcs s !! t = Some (SYieldTo r q) -> roles s r = Rechecking \/ roles s r = Sleeping.
Proof. intros Hw E. right. eapply (wo_hand _ _ _ Hw t). unfold roles. by rewrite E. Qed.

Lemma consume_length p c p1 : try_consume p = (c, p1) ->
  match c with
  | Message _ => length (msg_queue p) = S (length (msg_queue p1))
  | _ => length (msg_queue p) = 0%nat /\ length (msg_queue p1) = 0%nat
  end.
Proof.
  intros H%consume_spec. destruct c; [by destruct H as (-> & _)|by destruct H as (-> & -> & _)|].
  by destruct H as (-> & -> & _).
Qed.

Lemma credit_yield s r r' t q : pcs s !! t = Some (SYieldTo r q) -> weight credit (alter unpark r' (pcs s) !! t) = 1.
Proof.
  intros H. destruct (decide (t = r')) as [->|]; [by rewrite lookup_alter_eq, H|by rewrite lookup_alter_ne, H].
Qed.
Lemma credit_replied (m : gmap Z pc) r t : weight credit (alter unpark_sender r m !! t) = weight credit (m !! t).
Proof.
  destruct (decide (t = r)) as [->|]; [rewrite lookup_alter_eq; by destruct (m !! r) as [[]|]|by rewrite lookup_alter_ne].
Qed.

Lemma live_advance_queue near s t s' : wait_inv s -> advance near s t = Some s' ->
  (listens s -> Z.of_nat (length (msg_queue (port s))) <= total credit s) ->
  listens s' -> Z.of_nat (length (msg_queue (port s'))) <= total credit s'.
Proof.
  intros Hw H Hv L. apply advance_at in H as (x & Ex & H).
  destruct x; open_step H.
  all: try match goal with E : recv_waiters _ = ?r :: _ |- context [wake _ ?r] =>
         pose proof (credit_parked s r (head_parked s _ _ Hw E)) end.
  all: try match goal with |- context [wake _ ?r] => pose proof (credit_parked s r (handed_parked s _ _ _ Hw Ex)) end.
  all: try (listening s L; specialize (Hv L)).
  all: try match goal with E : push_message _ _ = _ |- _ => apply push_queue in E end.
  all: try match goal with E : try_consume _ = _ |- _ => pose proof (consume_length _ _ _ E) end.
  all: autorewrite with totals; fields; rewrite ?credit_reply.
  all: try rewrite (wake_at s _ t _ Ex eq_refl : alter unpark _ (pcs s) !! t = Some _).
  all: try rewrite (wakes_at (set_port s _) _ t _ Ex eq_refl).
  all: try match goal with |- context [total credit (wake_list ?s1 ?l)] =>
         pose proof (credit_wakes l s1 : total credit s <= _) end.
  all: try match goal with |- context [total credit (wake (set_port ?s0 ?p) ?r)] =>
         change (total credit (wake (set_port s0 p) r)) with (total credit (wake s0 r)) end.
  all: pose proof (total_ge credit s t _ credit_nonneg Ex) as Hge; cbn in Hge |- *; rewrite ?Ex.
  all: rewrite ?credit_yield with (1 := Ex), ?credit_replied, ?Ex; cbn; rewrite ?Hpush, ?length_app; cbn.
  all: repeat match goal with b : bool |- _ => destruct b end; cbn in *; try lia.
Qed.

Lemma live_advance near s t s' : wait_inv s -> live_inv s -> advance near s t = Some s' -> live_inv s'.
Proof.
  intros Hw [H1 H2 H3 H4 H5] H. constructor.
  - by eapply live_advance_queue.
  - by eapply live_advance_bits.
  - by eapply live_advance_closed.
  - by eapply live_advance_nbits.
  - by eapply live_advance_nclosed.
Qed.

(** A call that starts: the queues stay, and a notifier or destroyer is among the threads. *)
Lemma live_start s t c s' : live_inv s -> pcs s !! t = None -> start s t c = Some s' -> live_inv s'.
Proof.
  intros [H1 H2 H3 H4 H5] Ht H.
  pose proof (total_nonneg notifies_r s steady_nonneg). pose proof (total_nonneg notifies_n s steady_nonneg).
  pose proof (total_nonneg closes_r s steady_nonneg). pose proof (total_nonneg closes_n s steady_nonneg).
  open_start c H; try done; constructor; intros L;
    first [apply (listens_mono s) in L; [|by doze|by subqueue]|apply (awaits_mono s) in L; [|by doze|by subqueue]].
  all: try specialize (H1 L); try specialize (H2 L); try specialize (H3 L); try specialize (H4 L); try specialize (H5 L).
  all: autorewrite with totals; fields; rewrite ?credit_reply, ?Ht; cbn; try (repeat case_match; lia); intros B.
  all: try (specialize (H2 B)); try (specialize (H3 B)); try (specialize (H4 B)); try (specialize (H5 B)); try congruence; try lia.
Qed.

(** ** Senders that sleep *)

Definition waits (o : option pc) : bool := match o with Some (SAsleep q | SYieldTo _ q) => q | _ => false end.
Definition batch_of (o : option pc) : list Z := match o with Some (DWake b _) => b | _ => [] end.
Definition draining (x : pc) : Z := match x with DWakeR true | DWakeN true | DDrain | DWake _ false => 1 | _ => 0 end.

#[export] Instance draining_steady : Steady draining.
Proof. split; intros []; cbn; repeat case_match; lia. Qed.
#[export] Instance batch_wakeless : Wakeless batch_of.
Proof. split; by intros [[]|]. Qed.

Record answer_inv (s : sys) : Prop := {
  ai_sleep : forall t d, waits (pcs s !! t) = true -> stacks s !! t = Some d -> reply_received d = true ->
    unchecked d = true \/ exists v, t ∈ batch_of (pcs s !! v);
  ai_closed : closed (port s) = true -> forall t d, t ∈ pending_senders (port s) -> stacks s !! t = Some d ->
    reply_received d = false -> late d = true \/ 0 < total draining s
}.

(** Every unanswered sender linked after a step was so before. *)
Definition owed (s s' : sys) : Prop := forall t d', t ∈ pending_senders (port s') -> stacks s' !! t = Some d' ->
  reply_received d' = false ->
  t ∈ pending_senders (port s) /\ exists d, stacks s !! t = Some d /\ reply_received d = false /\ late d' = late d.

Lemma answer_step s s' : answer_inv s ->
  (forall t, waits (pcs s' !! t) = true -> waits (pcs s !! t) = true /\ stacks s' !! t = stacks s !! t) ->
  (forall t v, t ∈ batch_of (pcs s !! v) -> t ∈ batch_of (pcs s' !! v)) ->
  closed (port s') = closed (port s) -> owed s s' -> total draining s <= total draining s' -> answer_inv s'.
Proof.
  intros [H1 H2] Hw Hb Hc Ho Ht. constructor.
  - intros t d Hs Hd Hr. destruct (Hw t Hs) as [Hs' E]. rewrite E in Hd.
    destruct (H1 t d Hs' Hd Hr) as [?|[v Hv]]; [by left|right; exists v; by apply Hb].
  - rewrite Hc. intros C t d' Hl Hd Hr. destruct (Ho t d' Hl Hd Hr) as (Hl' & d & Hd' & Hr' & ->).
    destruct (H2 C t d Hl' Hd' Hr'); [by left|right; lia].
Qed.

Lemma waits_wake s r u : waits (pcs (wake s r) !! u) = true -> waits (pcs s !! u) = true.
Proof. rewrite wake_lookup. case_decide; [subst; by destruct (pcs s !! r) as [[]|]|done]. Qed.
Lemma waits_wakes l : forall s u, waits (pcs (wake_list s l) !! u) = true -> waits (pcs s !! u) = true.
Proof. induction l as [|r l IH]; intros s u; cbn [wake_list]; [done|]. intros H%IH. by eapply waits_wake. Qed.
Lemma waits_reply (m : gmap Z pc) r u : waits (alter unpark_sender r m !! u) = true -> u <> r /\ waits (m !! u) = true.
Proof.
  destruct (decide (u = r)) as [->|]; [rewrite lookup_alter_eq; by destruct (m !! r) as [[]|]|by rewrite lookup_alter_ne].
Qed.

(** Wakes and moves of a thread that does not wait end no wait record. *)
Definition calmer (s s' : sys) : Prop := forall t, waits (pcs s' !! t) = true -> waits (pcs s !! t) = true.

Section Calmer.
Context (s0 s : sys) (H : calmer s0 s).
Lemma calmer_pcs s' : pcs s' = pcs s -> calmer s0 s'.
Proof using H. intros E t. rewrite E. apply H. Qed.
Lemma calmer_goto t y : waits (Some y) = true -> waits (pcs s0 !! t) = true -> calmer s0 (goto s t y).
Proof using H. intros Hy Ht u. cbn. rewrite (view_insert waits). case_decide; [by subst|apply H]. Qed.
Lemma calmer_awake t y : waits (Some y) = false -> calmer s0 (goto s t y).
Proof using H. intros Hy u. cbn. rewrite (view_insert waits). case_decide; [congruence|apply H]. Qed.
Lemma calmer_leave t : calmer s0 (leave s t).
Proof using H. intros u. cbn. rewrite (view_delete waits). case_decide; [done|apply H]. Qed.
Lemma calmer_wake r : calmer s0 (wake s r).
Proof using H. intros u Hu. by apply H, (waits_wake s r). Qed.
Lemma calmer_wakes l : calmer s0 (wake_list s l).
Proof using H. intros u Hu. by apply H, (waits_wakes l). Qed.
Lemma calmer_reply s' r : calmer s0 (set_pcs s' (alter unpark_sender r (pcs s))).
Proof using H. intros u Hu. cbn in Hu. apply waits_reply in Hu as [_ Hu]. by apply H. Qed.
End Calmer.

Lemma calmer_refl s : calmer s s.
Proof. by intros t. Qed.

Ltac calmer :=
  repeat lazymatch goal with
  | |- calmer ?s ?s => apply calmer_refl
  | |- calmer _ (goto _ _ _) => first [apply calmer_awake; [|by repeat match goal with b : bool |- _ => destruct b end]
      |apply calmer_goto; [|done|match goal with E : pcs _ !! _ = _ |- _ => by rewrite E end]]
  | |- calmer _ (leave _ _) => apply calmer_leave
  | |- calmer _ (wake _ _) => apply calmer_wake
  | |- calmer _ (wake_list _ _) => apply calmer_wakes
  | |- calmer _ (set_pcs _ (alter unpark_sender _ (pcs ?s))) => apply (calmer_reply _ s)
  | |- calmer _ (set_port ?s _) => apply (calmer_pcs _ s); [|reflexivity]
  | |- calmer _ (set_stacks ?s _) => apply (calmer_pcs _ s); [|reflexivity]
  | |- calmer _ (set_pending ?s _) => apply (calmer_pcs _ s); [|reflexivity]
  | |- calmer _ (log_sent ?s _) => apply (calmer_pcs _ s); [|reflexivity]
  | |- calmer _ (log_got ?s _) => apply (calmer_pcs _ s); [|reflexivity]
  | |- calmer _ (log_return ?s _ _ _) => apply (calmer_pcs _ s); [|reflexivity]
  end.

(** The batches after a step that moves [t], which holds none. *)
Lemma batches_kept s s' t x : pcs s !! t = Some x -> batch_of (Some x) = [] ->
  (forall v, v <> t -> batch_of (pcs s' !! v) = batch_of (pcs s !! v)) ->
  forall u v, u ∈ batch_of (pcs s !! v) -> u ∈ batch_of (pcs s' !! v).
Proof.
  intros Hx E Hv u v Hu. destruct (decide (v = t)) as [->|Hne]; [|by rewrite Hv].
  rewrite Hx, E in Hu. by apply elem_of_nil in Hu.
Qed.

Ltac same_batches Ex :=
  eapply batches_kept; [exact Ex|reflexivity|];
  let v := fresh in let Hv := fresh in intros v Hv;
  cbn [pcs goto leave set_port set_pending set_stacks set_pcs log_sent log_got log_return];
  rewrite ?(view_insert batch_of), ?(view_delete batch_of), ?decide_False by exact Hv;
  rewrite ?(wakeless_wake batch_of), ?(wakeless_list batch_of), ?(wakeless_reply batch_of); reflexivity.

(** Nothing a linked sender's record holds changes. *)
Lemma owed_same s s' : stacks s' = stacks s -> pending_senders (port s') = pending_senders (port s) -> owed s s'.
Proof. intros E1 E2 t d. rewrite E1, E2. intros ???. split; [done|by exists d]. Qed.

Lemma answer_quiet s s' : answer_inv s -> calmer s s' -> stacks s' = stacks s ->
  (forall t v, t ∈ batch_of (pcs s !! v) -> t ∈ batch_of (pcs s' !! v)) ->
  closed (port s') = closed (port s) -> pending_senders (port s') = pending_senders (port s) ->
  total draining s <= total draining s' -> answer_inv s'.
Proof.
  intros Ha Hw Es Hb Hc Hl Ht. apply (answer_step s); try done; [|by apply owed_same].
  intros t Hs. split; [by apply Hw|by rewrite Es].
Qed.

(** A send returns. *)
Lemma answer_gone s s' t x : answer_inv s -> pcs s !! t = Some x -> batch_of (Some x) = [] -> draining x = 0 ->
  stacks s' = delete t (stacks s) -> pcs s' = delete t (pcs s) -> closed (port s') = closed (port s) ->
  (forall u, u ∈ pending_senders (port s') -> u ∈ pending_senders (port s)) -> answer_inv s'.
Proof.
  intros Ha Hx Hb Hd Es Ep Hc Hl. apply (answer_step s); try done.
  - intros u. rewrite Ep, (view_delete waits), Es. case_decide; [done|]. intros Hu. split; [done|by rewrite lookup_delete_ne].
  - eapply batches_kept; [done|done|]. intros v Hv. by rewrite Ep, (view_delete batch_of), decide_False.
  - intros u d Hu. rewrite Es. intros [Hne He]%lookup_delete_Some Hr. split; [by apply Hl|by exists d].
  - unfold total. rewrite Ep, msum_drop, Hx. cbn. lia.
Qed.

(** A sender links itself, or publishes its wait before the direct switch. *)
Lemma answer_own s s' t x y d d' : answer_inv s -> pcs s !! t = Some x -> stacks s !! t = Some d ->
  batch_of (Some x) = [] -> draining x = 0 ->
  stacks s' = <[t := d']> (stacks s) -> pcs s' = <[t := y]> (pcs s) -> closed (port s') = closed (port s) ->
  reply_received d' = reply_received d -> (waits (Some y) = true -> reply_received d' = true -> unchecked d' = true) ->
  (forall u, u <> t -> u ∈ pending_senders (port s') -> u ∈ pending_senders (port s)) ->
  (t ∈ pending_senders (port s') -> t ∈ pending_senders (port s) /\ late d' = late d \/ late d' = closed (port s)) -> answer_inv s'.
Proof.
  intros [H1 H2] Hx Hd Hb Hdr Es Ep Hc Hr Hu Hl Hlt.
  assert (forall u v, u ∈ batch_of (pcs s !! v) -> u ∈ batch_of (pcs s' !! v)) as Hbat.
  { eapply batches_kept; [done|done|]. intros v Hv. by rewrite Ep, (view_insert batch_of), decide_False. }
  assert (total draining s <= total draining s') as Ht.
  { unfold total. rewrite Ep, msum_set, Hx. cbn. destruct y; cbn; repeat case_match; lia. }
  constructor.
  - intros u e. rewrite Ep, Es, (view_insert waits). case_decide as Hn.
    + subst u. rewrite lookup_insert_eq. intros ? [= <-] ?. left. auto.
    + rewrite lookup_insert_ne by done. intros Hw He Hre. destruct (H1 u e Hw He Hre) as [?|[v Hv]]; [by left|].
      right. exists v. rewrite <- Ep. by apply Hbat.
  - rewrite Hc, Es. intros C u e Hin. destruct (decide (u = t)) as [->|Hn].
    + rewrite lookup_insert_eq. intros [= <-] Hre. destruct (Hlt Hin) as [[Hin' Hle]|Hle]; [|left; congruence].
      destruct (H2 C t d Hin' Hd) as [?|?]; [congruence|left; congruence|right; lia].
    + rewrite lookup_insert_ne by done. intros He Hre. destruct (H2 C u e (Hl u Hn Hin) He Hre); [by left|right; lia].
Qed.

(** One batch is marked. *)
Lemma answer_drain s t b k st : sender_inv s -> answer_inv s -> pcs s !! t = Some DDrain ->
  drain_pass WAKE_BATCH (stacks s) (pending_senders (port s)) = Some (b, k, st) ->
  answer_inv (goto (set_stacks (set_port s (with_senders (port s) k)) st) t (DWake b (length b <? WAKE_BATCH)%nat)).
Proof.
  intros Hs [H1 H2] Ht Hd.
  destruct (drain_pass_spec (pending_senders (port s)) WAKE_BATCH (stacks s) (si_nodup _ Hs)) as (b' & k' & st' & E & Hst & Hk & _ & Hb & Hall).
  { unfold WAKE_BATCH. lia. }
  { intros u [_ (d & ? & _)]%(si_linked _ Hs). by eexists. }
  rewrite E in Hd. injection Hd as -> -> ->. constructor; cbn [pcs goto set_pcs set_stacks set_port port stacks closed pending_senders with_senders].
  - intros u d. rewrite (view_insert waits), Hst. case_decide; [done|]. intros Hw Hd Hr. case_decide as Hub.
    + right. exists t. by rewrite (view_insert batch_of), decide_True.
    + destruct (H1 u d Hw Hd Hr) as [?|[v Hv]]; [by left|right]. exists v. rewrite (view_insert batch_of).
      case_decide; [|done]. subst. rewrite Ht in Hv. by apply elem_of_nil in Hv.
  - intros C u d Huk. rewrite Hst. apply Hk in Huk as Hu. destruct Hu as [Hul Hub]. rewrite decide_False by done. intros Hd Hr.
    right. weigh draining.
    pose proof (total_ge draining s t DDrain steady_nonneg Ht) as Hge. cbn in Hge.
    destruct (Nat.leb_spec (length b) 31) as [Hlen|_]; [|lia].
    exfalso. assert (length b < WAKE_BATCH)%nat as Hlt by (unfold WAKE_BATCH; lia). specialize (Hall Hlt u d Huk Hd). congruence.
Qed.

(** The re-check finds no answer. *)
Lemma answer_sleeps s t q d : answer_inv s -> pcs s !! t = Some (SRecheck q) -> stacks s !! t = Some d ->
  reply_received d = false -> answer_inv (goto s t (SAsleep q)).
Proof.
  intros [H1 H2] Ht Hd Hr. constructor; cbn [pcs goto set_pcs stacks port].
  - intros u e. rewrite (view_insert waits). case_decide as Hu; [subst; intros; congruence|]. intros Hw He Hre.
    destruct (H1 u e Hw He Hre) as [?|[v Hv]]; [by left|right; exists v]. rewrite (view_insert batch_of).
    case_decide; [|done]. subst. rewrite Ht in Hv. by apply elem_of_nil in Hv.
  - intros C u e Hin He Hre. rewrite total_goto, Ht. cbn. destruct (H2 C u e Hin He Hre); [by left|right; lia].
Qed.

(** The destroyer wakes one of its batch. *)
Lemma answer_pop s t u b last : answer_inv s -> pcs s !! t = Some (DWake (u :: b) last) ->
  answer_inv (goto (set_pcs s (alter unpark_sender u (pcs s))) t (DWake b last)).
Proof.
  intros [H1 H2] Ht. constructor; cbn [pcs goto set_pcs stacks port].
  - intros v d. rewrite (view_insert waits). case_decide; [done|]. intros [Hne Hw]%waits_reply Hd Hr.
    destruct (H1 v d Hw Hd Hr) as [?|[w Hv]]; [by left|right; exists w].
    rewrite (view_insert batch_of), (wakeless_reply batch_of). case_decide as Hwt; [|done]. subst w.
    rewrite Ht in Hv. cbn in Hv. apply elem_of_cons in Hv as [?|?]; done.
  - intros C v d Hin Hd Hr. destruct (H2 C v d Hin Hd Hr) as [?|Hpos]; [by left|right].
    weigh draining. lia.
Qed.

Lemma answer_advance near s t s' : sender_inv s -> answer_inv s -> advance near s t = Some s' -> answer_inv s'.
Proof.
  intros Hs Ha H. pose proof (closed_advance _ _ _ _ H) as Hc. apply advance_at in H as (x & Ex & H).
  destruct x; open_step H.
  all: try (solve [apply (answer_quiet s); [exact Ha|by calmer|by fields|by same_batches Ex|congruence|fields; congruence|
    weigh draining; repeat case_match; lia]]).
  - eapply (answer_own s _ t); [exact Ha|exact Ex|eassumption|reflexivity..|fields; congruence|done|done| |by right].
    intros u Hu. fields. rewrite elem_of_app, list_elem_of_singleton. intros [?|?]; congruence.
  - by eapply (answer_gone s _ t).
  - eapply (answer_own s _ t); [exact Ha|exact Ex|eassumption|reflexivity..|done|done|by left].
  - destruct parked; (apply (answer_quiet s); [exact Ha|by calmer|by fields|by same_batches Ex|done|done|]);
      weigh draining; lia.
  - apply (answer_sleeps s t parked x); done.
  - by eapply (answer_gone s _ t).
  - eapply (answer_gone s _ t); try done. fields. intros u. rewrite list_elem_of_filter. tauto.
  - by apply answer_drain.
  - by apply answer_pop.
Qed.

(** A new thread: it holds no batch. *)
Lemma batches_new s s' t : pcs s !! t = None -> (forall v, v <> t -> batch_of (pcs s' !! v) = batch_of (pcs s !! v)) ->
  forall u v, u ∈ batch_of (pcs s !! v) -> u ∈ batch_of (pcs s' !! v).
Proof.
  intros Hx Hv u v Hu. destruct (decide (v = t)) as [->|Hne]; [|by rewrite Hv].
  rewrite Hx in Hu. by apply elem_of_nil in Hu.
Qed.

Lemma answer_start s t c s' : sender_inv s -> answer_inv s -> pcs s !! t = None -> start s t c = Some s' -> answer_inv s'.
Proof.
  intros Hs Ha Ht H.
  assert (forall y m, pcs m = <[t := y]> (pcs s) -> forall u v, u ∈ batch_of (pcs s !! v) -> u ∈ batch_of (pcs m !! v)) as Hb.
  { intros y m E. eapply batches_new; [exact Ht|]. intros v Hv. by rewrite E, (view_insert batch_of), decide_False. }
  assert (t ∉ pending_senders (port s)) as Hnl by (intros [Hc _]%(si_linked _ Hs); by rewrite Ht in Hc).
  open_start c H; try done.
  all: try (solve [apply (answer_quiet s); [exact Ha|by calmer|by fields|first [done|by eapply Hb]|done|done|weigh draining; lia]]).
  - apply (answer_step s); [exact Ha| |by eapply Hb|done| |weigh draining; lia].
    + intros u. cbn. rewrite (view_insert waits). case_decide; [done|]. by rewrite lookup_insert_ne.
    + intros u d. cbn. intros Hu. rewrite lookup_insert_ne by congruence. intros Hd Hr. split; [done|by exists d].
  - apply (answer_step s); [exact Ha| | |done| |weigh draining; lia].
    + intros u Hu. cbn in Hu |- *. apply waits_reply in Hu as [? ?]. by rewrite lookup_insert_ne.
    + intros u v. cbn. by rewrite (wakeless_reply batch_of).
    + intros u d. cbn. intros Hu. destruct (decide (u = sender)) as [->|]; [rewrite lookup_insert_eq; intros [= <-]; congruence|].
      rewrite lookup_insert_ne by done. intros ??. split; [done|by exists d].
  - destruct Ha as [H1 H2]. constructor; cbn [pcs goto set_pcs stacks port set_port as_closed pending_senders].
    + intros u d. rewrite (view_insert waits). case_decide; [done|]. intros Hw Hd Hr.
      destruct (H1 u d Hw Hd Hr) as [?|[v Hv]]; [by left|right; exists v]. by eapply (Hb _ (goto s t _)).
    + intros _ u d Hu Hd Hr. right. rewrite bool_decide_false by (intros E; rewrite E in Hu; by apply elem_of_nil in Hu).
      weigh draining. pose proof (total_nonneg draining s steady_nonneg). lia.
Qed.

(** ** Histories *)

Record chan_inv (s : sys) : Prop := {
  ci_sender : sender_inv s; ci_closing : closing_inv s; ci_queue : queue_inv s; ci_wait : wait_inv s;
  ci_live : live_inv s; ci_answer : answer_inv s
}.

Lemma chan_step_inv s s' : chan_inv s -> chan_step s s' -> chan_inv s'.
Proof.
  intros [H1 H2 H3 H4 H5 H6] [t c s1 Ht H|near t s1 H].
  - constructor; [by eapply sender_start|by eapply closing_start|by eapply queue_start|by eapply wait_start|by eapply live_start|by eapply answer_start].
  - constructor; [by eapply sender_advance|by eapply closing_advance|by eapply queue_advance|by eapply wait_advance|by eapply live_advance|by eapply answer_advance].
Qed.

Lemma chan_init_inv pid : chan_inv (chan_init pid).
Proof.
  assert (forall t : Z, (∅ : gmap Z pc) !! t = None) as He by (intros; apply lookup_empty).
  constructor.
  - constructor; cbn; intros; rewrite ?He in *; try done.
    + apply NoDup_nil_2.
    + split; [by intros ?%elem_of_nil|by intros [? _]].
    + by apply elem_of_nil in H.
    + by apply elem_of_nil in H.
  - unfold closing_inv, total. cbn. rewrite msum_empty. lia.
  - by constructor.
  - constructor; unfold roles; cbn; try apply NoDup_nil_2; intros *; rewrite ?He; cbn; try done.
    + split; [by intros ?%elem_of_nil|by intros [[?|?] _]].
    + split; [by intros ?%elem_of_nil|by intros [?|?]].
  - constructor; intros L; exfalso; revert L; first [by apply listens_none|by apply awaits_none].
  - constructor; cbn; [|done]. intros t d. by rewrite He.
Qed.

Lemma chan_reachable_inv pid s : reachable chan_step (chan_init pid) s -> chan_inv s.
Proof. apply (reachable_ind_inv chan_step chan_inv); [apply chan_init_inv|apply chan_step_inv]. Qed.

Lemma advance_defined near s t x : chan_inv s -> pcs s !! t = Some x -> asleep x = false ->
  is_Some (advance near s t) \/ exists u b last, x = DWake (u :: b) last /\ stacks s !! u = None.
Proof.
  intros [Hs _ _ _ _ _] Ht Hx. unfold advance. rewrite (bind_eq _ _ _ Ht).
  unfold ipc_send_sync, receive_common, enqueue_async, ipc_notify, ipc_wait_notify, destroy_wakes, ipc_wake_senders_for_port_ptr.
  assert (sclass (Some x) <> NoSend -> exists d, stacks s !! t = Some d) as Hd.
  { intros Hc. apply (si_stack _ Hs). by rewrite Ht. }
  destruct x; cbn in Hx; subst; try (left; repeat case_match; by eexists);
    try (left; destruct Hd as [d Hd]; [done|]; rewrite ?(bind_eq _ _ _ Hd); repeat case_match; by eexists).
  - left. destruct Hd as [d Hd]; [done|]. destruct (push_message _ _); [rewrite (bind_eq _ _ _ Hd)|]; by eexists.
  - left. destruct (drain_pass_spec (pending_senders (port s)) WAKE_BATCH (stacks s) (si_nodup _ Hs)) as (b & k & st & E & _).
    { unfold WAKE_BATCH. lia. }
    { intros u [_ (d & ? & _)]%(si_linked _ Hs). by eexists. }
    rewrite E. by eexists.
  - destruct batch as [|u b]; [left; by eexists|]. destruct (stacks s !! u) eqn:Eu; [left; by eexists|right; by eexists u, b, _].
Qed.

(** Every thread in a call sleeps. *)
Section At_rest.
Context (s : sys) (H : chan_inv s) (Hrest : forall t x, pcs s !! t = Some x -> asleep x = true).

Lemma rest_zero f : (forall x, asleep x = true -> f x = 0) -> total f s = 0.
Proof using Hrest. intros Hf. apply msum_zero. intros u x Hu. by eapply Hf, Hrest. Qed.

Lemma rest_receiver t : pcs s !! t = Some (RAsleep true) ->
  t ∈ recv_waiters (port s) /\ msg_queue (port s) = [] /\ notify_bits (port s) = 0 /\ closed (port s) = false.
Proof using H Hrest.
  intros Ht. destruct (ci_live _ H) as [L1 L2 L3 _ _].
  assert (t ∈ recv_waiters (port s)) as Hin.
  { apply (wo_in _ _ _ (ci_wait _ H)). unfold roles. rewrite Ht. split; [by right|]. intros u Hu.
    destruct (pcs s !! u) as [x|] eqn:E; [|done]. specialize (Hrest u x E).
    destruct x; try done; cbn in Hu; case_match; done. }
  assert (listens s) as L by (exists t; split; [done|]; unfold roles; by rewrite Ht).
  specialize (L1 L). specialize (L2 L). specialize (L3 L).
  rewrite rest_zero in L1 by (intros []; cbn; intros; subst; done).
  rewrite rest_zero in L2 by (intros []; done). rewrite rest_zero in L3 by (intros []; done).
  split_and!; [done|by destruct (msg_queue (port s))|..].
  - destruct (Z.eq_dec (notify_bits (port s)) 0) as [|Hn]; [done|]. specialize (L2 Hn). lia.
  - destruct (closed (port s)); [|done]. specialize (L3 eq_refl). lia.
Qed.

Lemma rest_waiter t : pcs s !! t = Some (WAsleep true) ->
  t ∈ notify_waiters (port s) /\ notify_bits (port s) = 0 /\ closed (port s) = false.
Proof using H Hrest.
  intros Ht. destruct (ci_live _ H) as [_ _ _ L4 L5].
  assert (t ∈ notify_waiters (port s)) as Hin.
  { apply (wo_notify _ _ _ (ci_wait _ H)). unfold roles. rewrite Ht. by right. }
  assert (awaits s) as L by (exists t; split; [done|]; unfold roles; by rewrite Ht).
  specialize (L4 L). specialize (L5 L).
  rewrite rest_zero in L4 by (intros []; done). rewrite rest_zero in L5 by (intros []; done).
  split_and!; [done|..].
  - destruct (Z.eq_dec (notify_bits (port s)) 0) as [|Hn]; [done|]. specialize (L4 Hn). lia.
  - destruct (closed (port s)); [|done]. specialize (L5 eq_refl). lia.
Qed.

Lemma rest_sender t : pcs s !! t = Some (SAsleep true) -> exists d, stacks s !! t = Some d /\
  (unchecked d = false -> reply_received d = false /\ t ∈ pending_senders (port s)) /\
  (closed (port s) = true -> unchecked d = true \/ late d = true).
Proof using H Hrest.
  intros Ht. destruct (ci_answer _ H) as [A1 A2]. pose proof (ci_sender _ H) as Hs.
  destruct (si_stack _ Hs t) as [d Hd]; [by rewrite Ht|]. exists d. split; [done|].
  assert (unchecked d = false -> reply_received d = false /\ t ∈ pending_senders (port s)) as Hun.
  { intros Hun. destruct (reply_received d) eqn:Er.
    - destruct (A1 t d) as [?|[v Hv]]; [by rewrite Ht|done|done|congruence|]. exfalso.
      destruct (pcs s !! v) as [x|] eqn:E; [|by apply elem_of_nil in Hv]. specialize (Hrest v x E).
      destruct x; try done; cbn in Hv; by apply elem_of_nil in Hv.
    - split; [done|]. apply (si_linked _ Hs). rewrite Ht. split; [done|]. exists d. split; [done|].
      destruct (port_dead d) eqn:Ep; [|done]. destruct (si_dead _ Hs t d Hd Ep). congruence. }
  split; [done|]. intros C. destruct (unchecked d) eqn:Eu; [by left|]. destruct (Hun eq_refl) as [Er Hin].
  destruct (A2 C t d Hin Hd Er) as [?|Hpos]; [by right|]. rewrite rest_zero in Hpos by (intros []; done). lia.
Qed.
End At_rest.

(** ** Properties *)

(** C21: whatever the threads do and in whatever order, the messages the receivers of a port have
    consumed and the ones still queued are, in order, the ones posted and sent, each once; the
    queue never holds more than [PORT_QUEUE_MAX], and [msg_count] is its length. *)
Theorem channel_fifo pid s : reachable chan_step (chan_init pid) s ->
  sent s = got s ++ msg_queue (port s) /\
  msg_count (port s) = Z.of_nat (length (msg_queue (port s))) /\ Z.of_nat (length (msg_queue (port s))) <= 256.
Proof.
  intros H. destruct (ci_queue _ (chan_reachable_inv _ _ H)) as [H1 H2 H3]. rewrite <- H1. done.
Qed.

(** C20: a send that returns [IPC_OK] returns a reply, one that returns [IPC_ERR_DEAD] sent to a
    port that was closed.  The senders linked to the port are, once each, those past the enqueue that no destroy
    marked dead, and the slot of [s_pending] outlives neither the call nor its frame. *)
Theorem channel_send_results pid s : reachable chan_step (chan_init pid) s ->
  (forall t m, (t, IPC_OK, m) ∈ returns s -> exists r, m = Some r /\ type_ r = IPC_MSG_REPLY) /\
  (forall t m, (t, IPC_ERR_DEAD, m) ∈ returns s -> closed (port s) = true) /\
  NoDup (pending_senders (port s)) /\
  (forall t, t ∈ pending_senders (port s) <-> links (sclass (pcs s !! t)) = true /\
    exists d, stacks s !! t = Some d /\ port_dead d = false) /\
  (forall t, t ∈ s_pending s -> slots (sclass (pcs s !! t)) = true /\ is_Some (stacks s !! t)).
Proof.
  intros H. destruct (ci_sender _ (chan_reachable_inv _ _ H)) as [H1 H2 H3 H4 H5 H6 Hdn H7 H8 H9]. split_and!; try done.
  - intros t [r|] Hin%H8; [|done]. exists r. split; [done|]. by apply Z.eqb_eq.
  - intros t Ht. pose proof (H2 t Ht) as Hc. split; [done|]. apply H1. by destruct (sclass _).
Qed.


(** ** Runs *)

Inductive event := Call (t : Z) (c : call) | Turn (near : bool) (t : Z).

Definition exec (s : sys) (e : event) : option sys :=
  match e with
  | Call t c => match pcs s !! t with None => start s t c | Some _ => None end
  | Turn near t => advance near s t
  end.

Fixpoint exec_all (s : sys) (l : list event) : option sys :=
  match l with [] => Some s | e :: r => s1 ← exec s e; exec_all s1 r end.

Lemma turn_sound s e s' : exec s e = Some s' -> chan_step s s'.
Proof.
  destruct e as [t c|near t]; cbn.
  - destruct (pcs s !! t) eqn:E; [done|]. intros H. by eapply cs_start.
  - intros H. by eapply cs_advance.
Qed.

Lemma turns_sound l : forall s s', exec_all s l = Some s' -> reachable chan_step s s'.
Proof.
  induction l as [|e l IH]; intros s s'; cbn; [intros [= <-]; constructor|].
  intros (s1 & H1 & H2)%bind_Some. eapply reachable_trans; [|by apply IH].
  eapply reach_step; [constructor|by eapply turn_sound].
Qed.

Definition end_of (l : list event) : sys := default (chan_init 7) (exec_all (chan_init 7) l).

Lemma end_reachable l : is_Some (exec_all (chan_init 7) l) -> reachable chan_step (chan_init 7) (end_of l).
Proof. intros [s Hs]. unfold end_of. rewrite Hs. by apply turns_sound in Hs. Qed.

Definition demo_msg : ipc_message_t := mk_msg 0 0 0 42 1 2 3 4 0 0.
Definition demo_reply : ipc_message_t := mk_msg 0 0 0 43 0 0 0 0 0 0.

(** Thread 1 of process 7 receives and sleeps. *)
Definition demo_receive : list event := Call 1 (CReceive 7 true) :: replicate 3 (Turn false 1).
(** Thread 2 sends to it by the direct switch; 1 takes the message and replies; 2 returns. *)
Definition demo_roundtrip : list event :=
  demo_receive ++ Call 2 (CSend 5 demo_msg true) :: replicate 4 (Turn true 2) ++ replicate 2 (Turn false 1) ++
  Call 1 (CReply 2 demo_reply 7 0 0) :: replicate 4 (Turn false 2).
(** Then 3 sleeps in [ipc_wait_notify], 5 posts, 4 sends, 1 takes both messages and sleeps again. *)
Definition demo_rest : list event :=
  demo_roundtrip ++ demo_receive ++ Call 3 CWaitNotify :: replicate 3 (Turn false 3) ++
  Call 5 (CPost 6 demo_msg true) :: replicate 2 (Turn false 5) ++ replicate 2 (Turn false 1) ++
  Call 4 (CSend 5 demo_msg true) :: replicate 5 (Turn false 4) ++
  Call 1 (CReceive 7 false) :: Turn false 1 :: demo_receive.

Lemma demo_rest_reachable : reachable chan_step (chan_init 7) (end_of demo_rest).
Proof. apply end_reachable. vm_compute. by eexists. Qed.

Lemma channel_fifo_witness : reachable chan_step (chan_init 7) (end_of demo_rest) /\
  length (sent (end_of demo_rest)) = 3%nat /\
  sent (end_of demo_rest) = got (end_of demo_rest) ++ msg_queue (port (end_of demo_rest)).
Proof.
  split; [exact demo_rest_reachable|]. split; [vm_compute; reflexivity|].
  apply (channel_fifo 7 _ demo_rest_reachable).
Defined.

Lemma channel_send_results_witness : (2, IPC_OK, Some (mk_msg IPC_MSG_REPLY 7 1 43 0 0 0 0 0 0)) ∈ returns (end_of demo_rest) /\
  pending_senders (port (end_of demo_rest)) = [4] /\
  exists r, Some (mk_msg IPC_MSG_REPLY 7 1 43 0 0 0 0 0 0) = Some r /\ type_ r = IPC_MSG_REPLY.
Proof.
  assert ((2, IPC_OK, Some (mk_msg IPC_MSG_REPLY 7 1 43 0 0 0 0 0 0)) ∈ returns (end_of demo_rest)) as H.
  { assert (returns (end_of demo_rest) = [(2, IPC_OK, Some (mk_msg IPC_MSG_REPLY 7 1 43 0 0 0 0 0 0))]) as ->
      by (vm_compute; reflexivity). by left. }
  split; [exact H|]. split; [vm_compute; reflexivity|].
  exact (proj1 (channel_send_results 7 _ demo_rest_reachable) 2 _ H).
Defined.

Definition rest_pcs : gmap Z pc := <[1 := RAsleep true]> (<[3 := WAsleep true]> (<[4 := SAsleep true]> ∅)).

Lemma demo_rest_pcs : pcs (end_of demo_rest) = rest_pcs.
Proof. vm_compute. reflexivity. Qed.

Lemma demo_rest_asleep t x : pcs (end_of demo_rest) !! t = Some x -> asleep x = true.
Proof.
  rewrite demo_rest_pcs. unfold rest_pcs. rewrite !lookup_insert_Some, lookup_empty. naive_solver.
Qed.


(** ** What the code does and should not *)

(** A sender found a sleeping receiver on its own processor; before it publishes its wait, another thread of the
    server takes the message and replies.  The direct switch does not look at [reply_received]:
    the sender sleeps with its reply there, the port open and every thread asleep. *)
Definition demo_lost : list event :=
  demo_receive ++ Call 2 (CSend 5 demo_msg true) :: replicate 2 (Turn true 2) ++
  Call 6 (CReceive 7 true) :: Turn false 6 :: Call 6 (CReply 2 demo_reply 7 0 0) ::
  replicate 2 (Turn true 2) ++ replicate 4 (Turn false 1).

Remark direct_switch_loses_reply : exists s d, reachable chan_step (chan_init 7) s /\
  pcs s = <[1 := RAsleep true]> (<[2 := SAsleep true]> ∅) /\ stacks s !! 2 = Some d /\
  reply_received d = true /\ closed (port s) = false.
Proof.
  exists (end_of demo_lost). eexists. split; [apply end_reachable; vm_compute; by eexists|].
  split; [vm_compute; reflexivity|]. split; [vm_compute; reflexivity|]. split; vm_compute; reflexivity.
Qed.

(** A send passes the test of the port's state, the port is destroyed, the send queues its message:
    it sleeps for ever on a closed port. *)
Definition demo_late : list event :=
  Call 2 (CSend 5 demo_msg true) :: Call 3 CDestroy :: replicate 2 (Turn false 3) ++ replicate 5 (Turn false 2).

Remark late_send_sleeps : exists s, reachable chan_step (chan_init 7) s /\
  pcs s = <[2 := SAsleep true]> ∅ /\ closed (port s) = true.
Proof. exists (end_of demo_late). split; [apply end_reachable; vm_compute; by eexists|]. split; vm_compute; reflexivity. Qed.

(** The destroyer marks a sender that has not slept yet; the sender returns before the destroyer wakes
    the queue in its frame. *)
Definition demo_dead_frame : list event :=
  Call 2 (CSend 5 demo_msg true) :: replicate 2 (Turn false 2) ++ Call 3 CDestroy :: replicate 3 (Turn false 3) ++
  replicate 3 (Turn false 2).

Remark destroy_wakes_dead_frame : exists s, reachable chan_step (chan_init 7) s /\
  pcs s !! 3 = Some (DWake [2] true) /\ stacks s !! 2 = None /\ advance false s 3 = None.
Proof.
  exists (end_of demo_dead_frame). split; [apply end_reachable; vm_compute; by eexists|].
  split; [vm_compute; reflexivity|]. split; vm_compute; reflexivity.
Qed.

(** Two replies to one request: both succeed, and the second takes the place of the first, whose
    payload buffer nobody has any more. *)
Definition demo_two_replies : list event :=
  Call 2 (CSend 5 demo_msg true) :: replicate 5 (Turn false 2) ++ Call 1 (CReply 2 demo_reply 7 4096 8) ::
  Call 1 (CReply 2 demo_reply 7 8192 8) :: replicate 4 (Turn false 2).

Remark second_reply_replaces_first : exists s m, reachable chan_step (chan_init 7) s /\
  returns s = [(2, IPC_OK, Some m)] /\ payload m = 8192.
Proof.
  exists (end_of demo_two_replies). eexists. split; [apply end_reachable; vm_compute; by eexists|].
  split; vm_compute; reflexivity.
Qed.

(** A post with a payload pointer and size 0 leaves the pointer both to the queued entry, which owns it,
    and to the caller. *)
Remark post_shares_pointer m pid tid : payload_size m = 0 ->
  payload (post_entry m pid tid).1 = payload (msg (post_entry m pid tid).2) /\
  payload (msg (post_entry m pid tid).2) = payload m /\ payload_owned (post_entry m pid tid).2 = true.
Proof. intros H. unfold post_entry. rewrite H, andb_false_r. done. Qed.
