(* ===== verification/Registry.v ===== *)
(** * The service registry (registry.c)

    Names to ports, threads that wait for a name, processes parked until a name appears.  The
    first section models the table and the batches under [s_lock], the second any number of
    threads that register, look up, wait, park and clean up, one step for each section under the
    lock and for each wake.  A name is its bytes without the terminator; callers hold names in
    buffers of [REGISTRY_NAME_MAX] bytes.  [s_count] is the length of [s_entries]. *)

From S2P Require Import Prelude.

Definition REGISTRY_NAME_MAX : nat := 64.
Definition REGISTRY_MAX : nat := 256.
Definition WAITER_BATCH : nat := 16.
Definition PARKED_BATCH : nat := 8.

Abbreviation str := (list Z).

Record entry_t := mk_entry { name : str; name_hash : Z; port_id : Z; owner_pid : Z; active : bool }.

(** [w_tid]: the thread on whose stack the record lives. *)
Record waiter_t := mk_waiter { w_name : str; w_hash : Z; w_tid : Z }.

Record parked_t := mk_parked { p_name : str; p_hash : Z; p_tid : Z; p_owner : Z }.

(** ** The table *)

Definition hash_name (s : str) : Z :=
  let h := fold_left (fun h c => u32 (Z.lxor h c * 0x01000193)) s 0x811C9DC5 in
  if h =? 0 then 1 else h.

(** [strlcpy] into a name buffer. *)
Definition name_copy (s : str) : str := take (REGISTRY_NAME_MAX - 1) s.

Definition holds_name (n : str) (h : Z) (e : entry_t) : bool := active e && (name_hash e =? h) && bool_decide (name e = n).

Fixpoint entry_find (es : list entry_t) (n : str) (h : Z) : option (nat * entry_t) :=
  match es with
  | [] => None
  | e :: r => if holds_name n h e then Some (0%nat, e) else '(i, x) ← entry_find r n h; Some (S i, x)
  end.

Fixpoint free_slot (es : list entry_t) : option nat :=
  match es with [] => None | e :: r => if active e then S <$> free_slot r else Some 0%nat end.

Definition blank : entry_t := mk_entry [] 0 0 0 false.

(** The slot, in the table as it is afterwards. *)
Definition entry_alloc (es : list entry_t) : option (nat * list entry_t) :=
  match free_slot es with
  | Some i => Some (i, es)
  | None => if (length es <? REGISTRY_MAX)%nat then Some (length es, es ++ [blank]) else None
  end.

(** [registry_register] under the lock; [live] is the answer of [process_get_by_pid] for the
    holder of the name. *)
Definition register_section (es : list entry_t) (n : str) (port owner : Z) (live : bool) : Z * list entry_t :=
  let h := hash_name n in
  match entry_find es n h with
  | Some (i, e) =>
      if negb (owner_pid e =? owner) && live then (-3, es)
      else (0, <[i := mk_entry (name e) (name_hash e) port owner (active e)]> es)
  | None =>
      match entry_alloc es with
      | None => (-2, es)
      | Some (i, es1) => (0, <[i := mk_entry (name_copy n) h port owner true]> es1)
      end
  end.

Definition retire (e : entry_t) : entry_t := mk_entry (name e) (name_hash e) (port_id e) (owner_pid e) false.

Definition unregister_section (es : list entry_t) (n : str) (owner : Z) : list entry_t :=
  match entry_find es n (hash_name n) with
  | Some (i, e) => if owner_pid e =? owner then <[i := retire e]> es else es
  | None => es
  end.

Definition find_section (es : list entry_t) (n : str) : Z :=
  match entry_find es n (hash_name n) with Some (_, e) => port_id e | None => 0 end.

(** One turn of the second loop of [registry_cleanup_owner]: the name retired and its hash. *)
Fixpoint retire_owned (es : list entry_t) (owner : Z) : option (str * Z) * list entry_t :=
  match es with
  | [] => (None, [])
  | e :: r =>
      if active e && (owner_pid e =? owner) then (Some (name e, name_hash e), retire e :: r)
      else let '(o, r') := retire_owned r owner in (o, e :: r')
  end.

(** ** Batches *)

Definition waits_for (n : str) (h : Z) (w : waiter_t) : bool := (w_hash w =? h) && bool_decide (w_name w = n).

Fixpoint collect_name_waiters (ws : list waiter_t) (n : str) (h : Z) (cap : nat) : list waiter_t * list waiter_t :=
  match ws with
  | [] => ([], [])
  | w :: r =>
      if waits_for n h w then
        match cap with
        | S (S _ as cap') => let '(b, k) := collect_name_waiters r n h cap' in (w :: b, k)
        | _ => ([w], r)
        end
      else let '(b, k) := collect_name_waiters r n h cap in (b, w :: k)
  end.

(** The test at the head of the loop: the scan of the parked records stops at a full batch. *)
Fixpoint collect_if (f : parked_t -> bool) (ps : list parked_t) (cap : nat) : list parked_t * list parked_t :=
  match cap, ps with
  | S cap', p :: r =>
      if f p then let '(b, k) := collect_if f r cap' in (p :: b, k)
      else let '(b, k) := collect_if f r cap in (b, p :: k)
  | _, _ => ([], ps)
  end.

Definition parked_for (n : str) (h : Z) (p : parked_t) : bool := (p_hash p =? h) && bool_decide (p_name p = n).
Definition collect_parked (ps : list parked_t) (n : str) (h : Z) (cap : nat) := collect_if (parked_for n h) ps cap.
Definition collect_dead (ps : list parked_t) (owner : Z) (cap : nat) := collect_if (fun p => p_owner p =? owner) ps cap.

(** ** The table as a map *)

Fixpoint names (es : list entry_t) : gmap str (Z * Z) :=
  match es with
  | [] => ∅
  | e :: r => if active e then <[name e := (port_id e, owner_pid e)]> (names r) else names r
  end.

(** What registration, removal and lookup promise. *)
Definition spec_register (m : gmap str (Z * Z)) (n : str) (port owner : Z) (live : bool) : Z * gmap str (Z * Z) :=
  match m !! n with
  | Some (_, o) => if negb (o =? owner) && live then (-3, m) else (0, <[n := (port, owner)]> m)
  | None => if (REGISTRY_MAX <=? size m)%nat then (-2, m) else (0, <[n := (port, owner)]> m)
  end.

Definition spec_unregister (m : gmap str (Z * Z)) (n : str) (owner : Z) : gmap str (Z * Z) :=
  match m !! n with Some (_, o) => if o =? owner then delete n m else m | None => m end.

Definition spec_find (m : gmap str (Z * Z)) (n : str) : Z := match m !! n with Some (port, _) => port | None => 0 end.

Record table_ok (es : list entry_t) : Prop := {
  to_size : (length es <= REGISTRY_MAX)%nat;
  to_hash : forall i e, es !! i = Some e -> active e = true -> name_hash e = hash_name (name e);
  to_unique : forall i j e e', es !! i = Some e -> es !! j = Some e' -> active e = true -> active e' = true ->
    name e = name e' -> i = j
}.

Lemma table_tail e es : table_ok (e :: es) -> table_ok es.
Proof.
  intros [H1 H2 H3]. constructor; [cbn in H1; lia|intros i; apply (H2 (S i))|].
  intros i j x y Hi Hj Hx Hy E. specialize (H3 (S i) (S j) x y Hi Hj Hx Hy E). lia.
Qed.

Lemma names_Some es n v : names es !! n = Some v ->
  exists i e, es !! i = Some e /\ active e = true /\ name e = n /\ v = (port_id e, owner_pid e).
Proof.
  induction es as [|e es IH]; cbn; [by rewrite lookup_empty|].
  destruct (active e) eqn:Ea.
  - rewrite lookup_insert_Some. intros [[E <-]|[_ H]]; [by exists 0%nat, e|].
    destruct (IH H) as (i & x & ?). by exists (S i), x.
  - intros H. destruct (IH H) as (i & x & ?). by exists (S i), x.
Qed.

Lemma names_entry es i e : table_ok es -> es !! i = Some e -> active e = true ->
  names es !! name e = Some (port_id e, owner_pid e).
Proof.
  revert i. induction es as [|x es IH]; intros i Hok Hi Ha; [done|]. cbn.
  destruct i as [|i]; cbn in Hi; [injection Hi as ->; by rewrite Ha, lookup_insert_eq|].
  pose proof (IH i (table_tail _ _ Hok) Hi Ha) as H. destruct (active x) eqn:Ex; [|done].
  destruct (decide (name x = name e)) as [E|Hne]; [|by rewrite lookup_insert_ne].
  by pose proof (to_unique _ Hok 0 (S i) x e eq_refl Hi Ex Ha E).
Qed.

Lemma names_None es n : table_ok es -> names es !! n = None <-> forall i e, es !! i = Some e -> active e = true -> name e <> n.
Proof.
  intros Hok. split.
  - intros H i e Hi Ha <-. by rewrite (names_entry es i e) in H.
  - intros H. destruct (names es !! n) as [v|] eqn:E; [|done]. apply names_Some in E as (i & e & Hi & Ha & Hn & _).
    by destruct (H i e).
Qed.

Lemma holds_name_spec n e : (active e = true -> name_hash e = hash_name (name e)) ->
  holds_name n (hash_name n) e = active e && bool_decide (name e = n).
Proof.
  intros Hh. unfold holds_name. destruct (active e); [|done]. cbn. rewrite Hh by done.
  destruct (decide (name e = n)) as [->|]; [by rewrite Z.eqb_refl|]. rewrite bool_decide_false by done. by rewrite andb_false_r.
Qed.

Lemma entry_find_spec es n : table_ok es ->
  match entry_find es n (hash_name n) with
  | Some (i, e) => es !! i = Some e /\ active e = true /\ name e = n
  | None => names es !! n = None
  end.
Proof.
  induction es as [|e es IH]; intros Hok; cbn; [by rewrite lookup_empty|].
  rewrite holds_name_spec by (intros; by apply (to_hash _ Hok 0)).
  destruct (active e && bool_decide (name e = n)) eqn:E.
  - apply andb_true_iff in E as [Ha Hn%bool_decide_eq_true]. done.
  - specialize (IH (table_tail _ _ Hok)). destruct (entry_find es n (hash_name n)) as [[i x]|]; [done|].
    cbn. destruct (active e); [|done]. rewrite lookup_insert_ne; [done|]. intros Hn. cbn in E. by rewrite bool_decide_true in E.
Qed.

Lemma names_iff es n v : table_ok es ->
  names es !! n = Some v <-> exists i e, es !! i = Some e /\ active e = true /\ name e = n /\ v = (port_id e, owner_pid e).
Proof.
  intros Hok. split; [apply names_Some|]. intros (i & e & Hi & Ha & <- & ->). by apply (names_entry es i).
Qed.

Definition without_entry (e : entry_t) (m : gmap str (Z * Z)) : gmap str (Z * Z) := if active e then delete (name e) m else m.
Definition with_entry (e : entry_t) (m : gmap str (Z * Z)) : gmap str (Z * Z) :=
  if active e then <[name e := (port_id e, owner_pid e)]> m else m.

Section Update.
Context (es : list entry_t) (i : nat) (e e' : entry_t) (Hok : table_ok es) (Hi : es !! i = Some e)
  (Hh : active e' = true -> name_hash e' = hash_name (name e'))
  (Hn : active e' = true -> forall j x, j <> i -> es !! j = Some x -> active x = true -> name x <> name e').

Lemma nth_insert j x : <[i := e']> es !! j = Some x <-> (j = i /\ x = e') \/ (j <> i /\ es !! j = Some x).
Proof using Hi.
  rewrite list_lookup_insert_Some. apply lookup_lt_Some in Hi. split.
  - intros [(<- & <- & _)|[? ?]]; [by left|right; auto].
  - intros [[-> ->]|[? ?]]; [by left|right; auto].
Qed.

Lemma table_update : table_ok (<[i := e']> es).
Proof using Hok Hi Hh Hn.
  constructor.
  - rewrite length_insert. apply (to_size _ Hok).
  - intros j x [[-> ->]|[Hne Hj]]%nth_insert; [done|by apply (to_hash _ Hok j)].
  - intros j k x y Hj Hk Hx Hy E.
    apply nth_insert in Hj as [[-> ->]|[Hj1 Hj2]]; apply nth_insert in Hk as [[-> ->]|[Hk1 Hk2]].
    + done.
    + by destruct (Hn Hx k y Hk1 Hk2 Hy).
    + by destruct (Hn Hy j x Hj1 Hj2 Hx).
    + by eapply (to_unique _ Hok).
Qed.

Lemma names_update : names (<[i := e']> es) = with_entry e' (without_entry e (names es)).
Proof using Hok Hi Hh Hn.
  apply map_eq. intros n. apply option_eq. intros v. rewrite (names_iff _ _ _ table_update).
  unfold with_entry, without_entry. split.
  - intros (j & x & [[-> ->]|[Hne Hj]]%nth_insert & Hx & <- & ->); [by rewrite Hx, lookup_insert_eq|].
    assert (names es !! name x = Some (port_id x, owner_pid x)) as Hv by by apply (names_entry es j).
    assert (active e = true -> name e <> name x) as He.
    { intros He Hnm. apply Hne. by apply (to_unique _ Hok j i x e). }
    assert (active e' = true -> name e' <> name x) as He' by (intros H E; by apply (Hn H j x)).
    destruct (active e') eqn:?, (active e) eqn:?; rewrite ?lookup_insert_ne, ?lookup_delete_ne by auto; done.
  - assert ((if active e then delete (name e) (names es) else names es) !! n = Some v ->
        exists j x, (<[i := e']> es !! j = Some x) /\ active x = true /\ name x = n /\ v = (port_id x, owner_pid x)) as Hold.
    { intros H. assert (names es !! n = Some v /\ (active e = true -> n <> name e)) as [Hv Hne].
      { destruct (active e); [|by split]. apply lookup_delete_Some in H as [? ?]. split; [done|congruence]. }
      apply (names_iff _ _ _ Hok) in Hv as (j & x & Hj & Hx & <- & ->). exists j, x. split; [|done].
      apply nth_insert. right. split; [|done]. intros ->. rewrite Hi in Hj. injection Hj as ->. by apply Hne. }
    destruct (active e') eqn:Ea; [|exact Hold]. intros [[<- <-]|[_ H]]%lookup_insert_Some; [|by apply Hold].
    exists i, e'. split; [by apply nth_insert; left|done].
Qed.
End Update.

Lemma names_app es e : (active e = true -> names es !! name e = None) -> names (es ++ [e]) = with_entry e (names es).
Proof.
  unfold with_entry. induction es as [|x es IH]; cbn; intros H; [done|].
  destruct (active x) eqn:Ex; [|by apply IH]. rewrite IH.
  - destruct (active e); [|done]. apply insert_insert_ne. intros E. specialize (H eq_refl). by rewrite E, lookup_insert_eq in H.
  - intros He. specialize (H He). by apply lookup_insert_None in H as [? _].
Qed.

Lemma table_app es e : table_ok es -> active e = false -> (length es < REGISTRY_MAX)%nat -> table_ok (es ++ [e]).
Proof.
  intros [H1 H2 H3] He Hl. constructor.
  - rewrite length_app. cbn. lia.
  - intros i x Hi Hx. apply lookup_app_Some in Hi as [Hi|[_ Hi]]; [by apply (H2 i)|].
    apply list_lookup_singleton_Some in Hi as [_ <-]. congruence.
  - intros i j x y Hi Hj Hx Hy. apply lookup_app_Some in Hi as [Hi|[_ Hi]]; [|apply list_lookup_singleton_Some in Hi as [_ <-]; congruence].
    apply lookup_app_Some in Hj as [Hj|[_ Hj]]; [|apply list_lookup_singleton_Some in Hj as [_ <-]; congruence].
    by apply (H3 i j x y).
Qed.

(** The map has one binding for each active entry. *)
Lemma names_size es : table_ok es -> size (names es) = length (filter (fun e => active e = true) es).
Proof.
  induction es as [|e es IH]; intros Hok; [done|]. cbn [names]. specialize (IH (table_tail _ _ Hok)).
  destruct (active e) eqn:Ea; [|by rewrite filter_cons_False by congruence].
  rewrite filter_cons_True by done. cbn. rewrite map_size_insert_None, IH; [done|].
  apply names_None; [by eapply table_tail|]. intros i x Hi Hx E.
  by pose proof (to_unique _ Hok 0 (S i) e x eq_refl Hi Ea Hx (eq_sym E)).
Qed.

Lemma free_slot_spec es : match free_slot es with
  | Some i => exists e, es !! i = Some e /\ active e = false
  | None => filter (fun e => active e = true) es = es
  end.
Proof.
  induction es as [|e es IH]; cbn [free_slot]; [done|]. destruct (active e) eqn:Ea; [|by exists e].
  destruct (free_slot es) as [i|]; cbn [fmap option_fmap option_map]; [exact IH|]. by rewrite filter_cons_True, IH.
Qed.

Lemma filter_short es i e : es !! i = Some e -> active e = false -> (length (filter (fun e => active e = true) es) < length es)%nat.
Proof.
  revert i. induction es as [|x es IH]; intros i Hi Ha; [done|]. destruct i as [|i]; cbn in Hi.
  - injection Hi as ->. rewrite filter_cons_False by congruence. cbn. pose proof (length_filter (fun e => active e = true) es). lia.
  - specialize (IH i Hi Ha). destruct (decide (active x = true)); [rewrite filter_cons_True by done|rewrite filter_cons_False by done]; cbn; lia.
Qed.

(** A slot to write in: free, in a table that still satisfies the invariant and means the same. *)
Lemma entry_alloc_spec es : table_ok es ->
  match entry_alloc es with
  | Some (i, es1) => table_ok es1 /\ names es1 = names es /\ (size (names es) < REGISTRY_MAX)%nat /\
      exists e, es1 !! i = Some e /\ active e = false
  | None => (REGISTRY_MAX <= size (names es))%nat
  end.
Proof.
  intros Hok. unfold entry_alloc. pose proof (free_slot_spec es) as Hf. rewrite names_size by done.
  pose proof (to_size _ Hok) as Hs.
  destruct (free_slot es) as [i|].
  - destruct Hf as (e & Hi & Ha). split_and!; [done|done| |by exists e]. pose proof (filter_short es i e Hi Ha). lia.
  - rewrite Hf. destruct (Nat.ltb_spec (length es) REGISTRY_MAX) as [Hl|Hl]; [|done].
    split_and!; [by apply table_app|by rewrite names_app|done|].
    exists blank. split; [|done]. by rewrite lookup_app_r, Nat.sub_diag by lia.
Qed.

Definition short (n : str) : Prop := (length n < REGISTRY_NAME_MAX)%nat.

Lemma name_copy_short n : short n -> name_copy n = n.
Proof. unfold short, name_copy, REGISTRY_NAME_MAX. intros. apply take_ge. lia. Qed.

(** The sections refine the operations on the map. *)
Lemma register_refines es n port owner live : table_ok es -> short n ->
  let '(r, es') := register_section es n port owner live in
  table_ok es' /\ (r, names es') = spec_register (names es) n port owner live.
Proof.
  intros Hok Hn. unfold register_section, spec_register. pose proof (entry_find_spec es n Hok) as Hf.
  destruct (entry_find es n (hash_name n)) as [[i e]|].
  - destruct Hf as (Hi & Ha & Hnm). pose proof (names_entry es i e Hok Hi Ha) as Hm. rewrite Hnm in Hm. rewrite Hm.
    destruct (negb _ && live); [done|].
    set (e' := mk_entry (name e) (name_hash e) port owner (active e)).
    assert (active e' = true -> name_hash e' = hash_name (name e')) as Hh by (intros _; exact (to_hash _ Hok i e Hi Ha)).
    assert (active e' = true -> forall j x, j <> i -> es !! j = Some x -> active x = true -> name x <> name e') as Hd.
    { intros _ j x Hj Hx Hxa E. apply Hj. by apply (to_unique _ Hok j i x e). }
    split; [by apply (table_update es i e)|]. rewrite (names_update es i e e' Hok Hi Hh Hd).
    unfold with_entry, without_entry, e'. cbn [active name port_id owner_pid]. rewrite Ha, Hnm. by rewrite insert_delete_eq.
  - rewrite Hf. pose proof (entry_alloc_spec es Hok) as Hal. destruct (entry_alloc es) as [[i es1]|].
    + destruct Hal as (Hok1 & Hnm & Hsz & e & Hi & Ha). rewrite name_copy_short by done.
      set (e' := mk_entry n (hash_name n) port owner true).
      assert (active e' = true -> forall j x, j <> i -> es1 !! j = Some x -> active x = true -> name x <> name e') as Hd.
      { intros _ j x Hj Hx Hxa. rewrite <- Hnm in Hf. by apply (proj1 (names_None es1 n Hok1) Hf j x). }
      split; [by apply (table_update es1 i e)|]. rewrite (names_update es1 i e e' Hok1 Hi (fun _ => eq_refl) Hd).
      unfold with_entry, without_entry, e'. cbn [active name port_id owner_pid]. rewrite Ha, Hnm.
      destruct (Nat.leb_spec REGISTRY_MAX (size (names es))); [lia|done].
    + destruct (Nat.leb_spec REGISTRY_MAX (size (names es))); [done|lia].
Qed.

Lemma retire_refines es i e : table_ok es -> es !! i = Some e -> active e = true ->
  table_ok (<[i := retire e]> es) /\ names (<[i := retire e]> es) = delete (name e) (names es).
Proof.
  intros Hok Hi Ha. split; [by apply (table_update es i e)|].
  rewrite (names_update es i e (retire e)) by done. unfold with_entry, without_entry. cbn [active retire]. by rewrite Ha.
Qed.

Lemma unregister_refines es n owner : table_ok es ->
  table_ok (unregister_section es n owner) /\ names (unregister_section es n owner) = spec_unregister (names es) n owner.
Proof.
  intros Hok. unfold unregister_section, spec_unregister. pose proof (entry_find_spec es n Hok) as Hf.
  destruct (entry_find es n (hash_name n)) as [[i e]|]; [|by rewrite Hf].
  destruct Hf as (Hi & Ha & <-). rewrite (names_entry es i e Hok Hi Ha).
  destruct (owner_pid e =? owner); [by apply retire_refines|done].
Qed.

Lemma find_refines es n : table_ok es -> find_section es n = spec_find (names es) n.
Proof.
  intros Hok. unfold find_section, spec_find. pose proof (entry_find_spec es n Hok) as Hf.
  destruct (entry_find es n (hash_name n)) as [[i e]|]; [|by rewrite Hf].
  destruct Hf as (Hi & Ha & <-). by rewrite (names_entry es i e Hok Hi Ha).
Qed.

(** One name of a dead process goes, or it has none. *)
Lemma retire_owned_at es owner : let '(o, es') := retire_owned es owner in
  match o with
  | Some (n, h) => exists i e, es !! i = Some e /\ active e = true /\ owner_pid e = owner /\ n = name e /\ h = name_hash e /\
      es' = <[i := retire e]> es
  | None => es' = es /\ forall i e, es !! i = Some e -> active e = true -> owner_pid e <> owner
  end.
Proof.
  induction es as [|e es IH]; cbn; [done|]. destruct (active e && (owner_pid e =? owner)) eqn:E.
  - apply andb_true_iff in E as [Ha Ho%Z.eqb_eq]. by exists 0%nat, e.
  - destruct (retire_owned es owner) as [[[n h]|] es'].
    + destruct IH as (i & x & ? & ? & ? & ? & ? & ->). by exists (S i), x.
    + destruct IH as [-> IH]. split; [done|]. intros [|i] x Hi Hx; cbn in Hi; [|by apply (IH i)].
      injection Hi as <-. rewrite Hx in E. by apply Z.eqb_neq.
Qed.

Lemma retire_owned_refines es owner : table_ok es -> let '(o, es') := retire_owned es owner in
  table_ok es' /\
  match o with
  | Some (n, h) => h = hash_name n /\ (exists port, names es !! n = Some (port, owner)) /\ names es' = delete n (names es)
  | None => es' = es /\ forall n port o, names es !! n = Some (port, o) -> o <> owner
  end.
Proof.
  intros Hok. pose proof (retire_owned_at es owner) as H. destruct (retire_owned es owner) as [[[n h]|] es'].
  - destruct H as (i & e & Hi & Ha & Ho & -> & -> & ->). destruct (retire_refines es i e Hok Hi Ha) as [? ?].
    split_and!; [done|by apply (to_hash _ Hok i)| |done]. exists (port_id e). rewrite (names_entry es i e Hok Hi Ha). by rewrite Ho.
  - destruct H as [-> H]. split_and!; [done..|]. intros n port o Hn.
    apply names_Some in Hn as (i & e & Hi & Ha & _ & [= -> ->]). by apply (H i e).
Qed.

(** ** Batches *)

Lemma collect_waiters_spec n h cap ws : (0 < cap)%nat -> let '(b, k) := collect_name_waiters ws n h cap in
  Permutation ws (b ++ k) /\ Forall (fun w => waits_for n h w = true) b /\
  ((length b < cap)%nat -> Forall (fun w => waits_for n h w = false) k).
Proof.
  revert cap. induction ws as [|w ws IH]; intros cap Hc; cbn [collect_name_waiters]; [done|].
  destruct (waits_for n h w) eqn:E.
  - destruct cap as [|[|cap]]; [lia| |].
    + split; [done|]. split; [by repeat constructor|]. cbn. lia.
    + specialize (IH (S cap) ltac:(lia)). destruct (collect_name_waiters ws n h (S cap)) as [b k].
      destruct IH as (H1 & H2 & H3). split; [by rewrite H1|]. split; [by constructor|]. cbn. intros. apply H3. lia.
  - specialize (IH cap Hc). destruct (collect_name_waiters ws n h cap) as [b k].
    destruct IH as (H1 & H2 & H3). split; [rewrite H1; apply Permutation_middle|]. split; [done|]. intros. constructor; auto.
Qed.

Lemma collect_if_spec f cap ps : let '(b, k) := collect_if f ps cap in
  Permutation ps (b ++ k) /\ Forall (fun p => f p = true) b /\
  ((length b < cap)%nat -> Forall (fun p => f p = false) k).
Proof.
  revert cap. induction ps as [|p ps IH]; intros [|cap]; cbn [collect_if].
  1,2: split_and!; try done; by constructor.
  { split; [done|]. split; [by constructor|]. cbn. lia. }
  destruct (f p) eqn:E.
  - specialize (IH cap). destruct (collect_if f ps cap) as [b k].
    destruct IH as (H1 & H2 & H3). split; [by rewrite H1|]. split; [by constructor|]. cbn. intros. apply H3. lia.
  - specialize (IH (S cap)). destruct (collect_if f ps (S cap)) as [b k].
    destruct IH as (H1 & H2 & H3). split; [rewrite H1; apply Permutation_middle|]. split; [done|]. intros. constructor; auto.
Qed.

(** ** Threads *)

(** [parked]: the thread is in the wait queue of its record. *)
Inductive pc :=
  (* registry_wait *)
  | WSleep (n : str) (parked : bool) | WFinal (n : str)
  (* drain_and_wake *)
  | DPass (n : str) | DWake (n : str) (wb : list Z) (pb : list parked_t) (last : bool)
  (* registry_cleanup_owner *)
  | CParked (owner : Z) | CEntry (owner : Z) | CPass (owner : Z) (n : str) (h : Z)
  | CWake (owner : Z) (n : str) (h : Z) (wb : list Z) (last : bool).

(** [asked], [started], [dropped] are ghosts: the threads parked so far, those unblocked, those
    whose record died with their process. *)
Record sys := mk_sys {
  s_entries : list entry_t; s_waiters : list waiter_t; s_parked : list parked_t; pcs : gmap Z pc;
  asked : list Z; started : list Z; dropped : list Z
}.

Definition set_entries (s : sys) (es : list entry_t) : sys :=
  mk_sys es (s_waiters s) (s_parked s) (pcs s) (asked s) (started s) (dropped s).
Definition set_waiters (s : sys) (ws : list waiter_t) : sys :=
  mk_sys (s_entries s) ws (s_parked s) (pcs s) (asked s) (started s) (dropped s).
Definition set_parked (s : sys) (ps : list parked_t) : sys :=
  mk_sys (s_entries s) (s_waiters s) ps (pcs s) (asked s) (started s) (dropped s).
Definition set_pcs (s : sys) (m : gmap Z pc) : sys :=
  mk_sys (s_entries s) (s_waiters s) (s_parked s) m (asked s) (started s) (dropped s).
Definition goto (s : sys) (t : Z) (x : pc) : sys := set_pcs s (<[t := x]> (pcs s)).
Definition leave (s : sys) (t : Z) : sys := set_pcs s (delete t (pcs s)).
Definition log_asked (s : sys) (tid : Z) : sys :=
  mk_sys (s_entries s) (s_waiters s) (s_parked s) (pcs s) (tid :: asked s) (started s) (dropped s).
Definition log_started (s : sys) (tid : Z) : sys :=
  mk_sys (s_entries s) (s_waiters s) (s_parked s) (pcs s) (asked s) (tid :: started s) (dropped s).
Definition log_dropped (s : sys) (l : list Z) : sys :=
  mk_sys (s_entries s) (s_waiters s) (s_parked s) (pcs s) (asked s) (started s) (l ++ dropped s).

Definition unpark (x : pc) : pc := match x with WSleep n _ => WSleep n false | _ => x end.

(** The record on the stack of [u] exists: the thread is in [registry_wait]. *)
Definition frame (s : sys) (u : Z) : bool := match pcs s !! u with Some (WSleep _ _ | WFinal _) => true | _ => false end.

Definition wake (s : sys) (u : Z) : option sys := if frame s u then Some (set_pcs s (alter unpark u (pcs s))) else None.

(** Every record a walk of [s_waiters] reads exists. *)
Definition walk_ok (s : sys) : bool := forallb (fun w => frame s (w_tid w)) (s_waiters s).

(** The last section of [registry_wait]. *)
Definition wait_end (s : sys) (t : Z) (n : str) : Z * sys :=
  (find_section (s_entries s) n, leave (set_waiters s (filter (fun w => w_tid w <> t) (s_waiters s))) t).

Definition drain_and_wake (s : sys) (t : Z) (x : pc) : option sys :=
  match x with
  | DPass n =>
      if walk_ok s then
        let '(wb, ws) := collect_name_waiters (s_waiters s) n (hash_name n) WAITER_BATCH in
        let '(pb, ps) := collect_parked (s_parked s) n (hash_name n) PARKED_BATCH in
        Some (goto (set_parked (set_waiters s ws) ps) t
                (DWake n (w_tid <$> wb) pb ((length wb <? WAITER_BATCH) && (length pb <? PARKED_BATCH))%nat))
      else None
  | DWake n (u :: wb) pb last => s1 ← wake s u; Some (goto s1 t (DWake n wb pb last))
  | DWake n [] (p :: pb) last => Some (goto (log_started s (p_tid p)) t (DWake n [] pb last))
  | DWake n [] [] last => Some (if last : bool then leave s t else goto s t (DPass n))
  | _ => None
  end.

Definition registry_cleanup_owner (s : sys) (t : Z) (x : pc) : option sys :=
  match x with
  | CParked o =>
      let '(b, ps) := collect_dead (s_parked s) o PARKED_BATCH in
      Some (goto (log_dropped (set_parked s ps) (p_tid <$> b)) t (if (length b <? PARKED_BATCH)%nat then CEntry o else CParked o))
  | CEntry o =>
      match retire_owned (s_entries s) o with
      | (None, _) => Some (leave s t)
      | (Some (n, h), es) => Some (goto (set_entries s es) t (CPass o n h))
      end
  | CPass o n h =>
      if walk_ok s then
        let '(wb, ws) := collect_name_waiters (s_waiters s) n h WAITER_BATCH in
        Some (goto (set_waiters s ws) t (CWake o n h (w_tid <$> wb) (length wb <? WAITER_BATCH)%nat))
      else None
  | CWake o n h (u :: wb) last => s1 ← wake s u; Some (goto s1 t (CWake o n h wb last))
  | CWake o n h [] last => Some (goto s t (if last : bool then CEntry o else CPass o n h))
  | _ => None
  end.

(** The next step of a thread, with what its call returns if it ends. *)
Definition turn (s : sys) (t : Z) : option (Z * sys) :=
  x ← pcs s !! t;
  match x with
  | WSleep n q => if q then None else Some (0, goto s t (WFinal n))
  | WFinal n => Some (wait_end s t n)
  | DPass _ | DWake _ _ _ _ => s1 ← drain_and_wake s t x; Some (0, s1)
  | CParked _ | CEntry _ | CPass _ _ _ | CWake _ _ _ _ _ => s1 ← registry_cleanup_owner s t x; Some (0, s1)
  end.

(** Calls of a thread outside the registry, the turn of one inside, and the end of a timed wait. *)
Inductive event :=
  | ERegister (t : Z) (n : str) (port owner : Z) (live : bool)
  | EUnregister (n : str) (owner : Z)
  | EFind (n : str)
  | EWait (t : Z) (n : str)
  | ETimeout (t : Z)
  | EPark (n : str) (tid owner : Z) (mem : bool)
  | ECleanup (t owner : Z)
  | ETurn (t : Z).

Definition registry_register (s : sys) (t : Z) (n : str) (port owner : Z) (live : bool) : Z * sys :=
  match n with
  | [] => (-1, s)
  | _ => let '(r, es) := register_section (s_entries s) n port owner live in
         if r =? 0 then (0, goto (set_entries s es) t (DPass n)) else (r, s)
  end.

Definition registry_wait (s : sys) (t : Z) (n : str) : Z * sys :=
  match entry_find (s_entries s) n (hash_name n) with
  | Some (_, e) => (port_id e, s)
  | None => (0, goto (set_waiters s (s_waiters s ++ [mk_waiter n (hash_name n) t])) t (WSleep n true))
  end.

Definition registry_park_or_start (s : sys) (n : str) (tid owner : Z) (mem : bool) : sys :=
  let s1 := log_asked s tid in
  match n with
  | [] => log_started s1 tid
  | _ => match entry_find (s_entries s) n (hash_name n), mem with
         | None, true => set_parked s1 (s_parked s ++ [mk_parked (name_copy n) (hash_name n) tid owner])
         | _, _ => log_started s1 tid
         end
  end.

Definition exec (s : sys) (e : event) : option (Z * sys) :=
  match e with
  | ERegister t n port owner live => match pcs s !! t with None => Some (registry_register s t n port owner live) | Some _ => None end
  | EUnregister n owner => Some (0, set_entries s (unregister_section (s_entries s) n owner))
  | EFind n => Some (find_section (s_entries s) n, s)
  | EWait t n => match pcs s !! t with None => Some (registry_wait s t n) | Some _ => None end
  | ETimeout t => match pcs s !! t with Some (WSleep n true) => Some (0, goto s t (WSleep n false)) | _ => None end
  | EPark n tid owner mem => Some (0, registry_park_or_start s n tid owner mem)
  | ECleanup t owner => match pcs s !! t with None => Some (0, goto s t (CParked owner)) | Some _ => None end
  | ETurn t => turn s t
  end.

Definition event_name (e : event) : str :=
  match e with ERegister _ n _ _ _ | EUnregister n _ | EFind n | EWait _ n | EPark n _ _ _ => n | _ => [] end.

Inductive reg_step (s : sys) : sys -> Prop :=
  | rs_exec e r s' : short (event_name e) -> exec s e = Some (r, s') -> reg_step s s'.

Definition registry_init : sys := mk_sys [] [] [] ∅ [] [] [].

(** ** Invariant *)

Definition in_wait (o : option pc) : option str := match o with Some (WSleep n _ | WFinal n) => Some n | _ => None end.
Definition batch (o : option pc) : list Z := match o with Some (DWake _ b _ _ | CWake _ _ _ b _) => b | _ => [] end.
Definition pbatch (o : option pc) : list parked_t := match o with Some (DWake _ _ b _) => b | _ => [] end.
Definition asleep (o : option pc) : bool := match o with Some (WSleep _ q) => q | _ => false end.

(** The thread will still collect the waiters of [n]. *)
Definition drains (n : str) (o : option pc) : bool :=
  match o with Some (DPass m | DWake m _ _ false) => bool_decide (m = n) | _ => false end.

Record reg_inv (s : sys) : Prop := {
  iv_table : table_ok (s_entries s);
  iv_waiter : forall w, w ∈ s_waiters s -> w_hash w = hash_name (w_name w) /\ in_wait (pcs s !! w_tid w) = Some (w_name w);
  iv_parked : forall p, p ∈ s_parked s -> p_hash p = hash_name (p_name p);
  iv_sleep : forall t, asleep (pcs s !! t) = true -> t ∈ w_tid <$> s_waiters s \/ exists v, t ∈ batch (pcs s !! v);
  iv_drain : forall n, n ∈ (w_name <$> s_waiters s) ++ (p_name <$> s_parked s) -> names (s_entries s) !! n <> None ->
    exists v, drains n (pcs s !! v) = true;
  iv_asked : forall i, i ∈ asked s ->
    i ∈ started s \/ i ∈ dropped s \/ i ∈ p_tid <$> s_parked s \/ exists v, i ∈ p_tid <$> pbatch (pcs s !! v)
}.

(** Every thread but [t] is where it was, or was woken. *)
Record others (s s' : sys) (t : Z) : Prop := {
  ot_wait : forall u, u <> t -> in_wait (pcs s' !! u) = in_wait (pcs s !! u);
  ot_batch : forall u, u <> t -> batch (pcs s' !! u) = batch (pcs s !! u);
  ot_pbatch : forall u, u <> t -> pbatch (pcs s' !! u) = pbatch (pcs s !! u);
  ot_drains : forall u n, u <> t -> drains n (pcs s' !! u) = drains n (pcs s !! u);
  ot_asleep : forall u, u <> t -> asleep (pcs s' !! u) = true -> asleep (pcs s !! u) = true
}.

Lemma inv_step s s' t : reg_inv s -> others s s' t -> table_ok (s_entries s') ->
  (forall w, w ∈ s_waiters s' -> w ∈ s_waiters s /\ w_tid w <> t \/
    (w_hash w = hash_name (w_name w) /\ w_tid w = t) /\ in_wait (pcs s' !! t) = Some (w_name w)) ->
  (forall p, p ∈ s_parked s' -> p ∈ s_parked s \/ p_hash p = hash_name (p_name p)) ->
  (asleep (pcs s' !! t) = true -> t ∈ w_tid <$> s_waiters s' \/ exists v, t ∈ batch (pcs s' !! v)) ->
  (forall w, w ∈ s_waiters s -> w ∈ s_waiters s' \/ w_tid w = t \/ w_tid w ∈ batch (pcs s' !! t)) ->
  (forall u, u ∈ batch (pcs s !! t) -> u ∈ batch (pcs s' !! t) \/ asleep (pcs s' !! u) = false) ->
  (forall n, n ∈ (w_name <$> s_waiters s') ++ (p_name <$> s_parked s') -> names (s_entries s') !! n <> None ->
    drains n (pcs s' !! t) = true \/ (n ∈ (w_name <$> s_waiters s) ++ (p_name <$> s_parked s) /\
      names (s_entries s) !! n <> None /\ drains n (pcs s !! t) = false)) ->
  (forall i, i ∈ asked s' -> (i ∈ asked s \/ i ∈ started s' \/ i ∈ p_tid <$> s_parked s')) ->
  (forall i, i ∈ started s -> i ∈ started s') -> (forall i, i ∈ dropped s -> i ∈ dropped s') ->
  (forall i, i ∈ p_tid <$> s_parked s -> i ∈ p_tid <$> s_parked s' \/ i ∈ dropped s' \/ i ∈ p_tid <$> pbatch (pcs s' !! t)) ->
  (forall i, i ∈ p_tid <$> pbatch (pcs s !! t) -> i ∈ p_tid <$> pbatch (pcs s' !! t) \/ i ∈ started s') ->
  reg_inv s'.
Proof.
  intros [I1 I2 I3 I4 I5 I6] [O1 O2 O3 O4 O5] Ht Hw Hp Hs1 Hs2 Hs3 Hd Ha1 Ha2 Ha3 Ha4 Ha5. constructor; [done|..].
  - intros w Hin. destruct (Hw w Hin) as [[Hin' Hne]|[[Hh Hwt] Hi]]; [by rewrite O1; [apply I2|]|by rewrite Hwt].
  - intros p Hin. destruct (Hp p Hin); [by apply I3|done].
  - intros u Hu. destruct (decide (u = t)) as [->|Hne]; [by apply Hs1|].
    destruct (I4 u (O5 u Hne Hu)) as [(w & -> & Hw')%list_elem_of_fmap|[v Hv]].
    + destruct (Hs2 w Hw') as [H|[H|H]]; [left; by apply list_elem_of_fmap_2|done|right; by exists t].
    + right. destruct (decide (v = t)) as [->|Hvt]; [|exists v; by rewrite O2].
      destruct (Hs3 u Hv); [by exists t|congruence].
  - intros n Hin Hn. destruct (Hd n Hin Hn) as [H|(H1 & H2 & H3)]; [by exists t|].
    destruct (I5 n H1 H2) as [v Hv]. exists v. rewrite O4; [done|]. intros ->. congruence.
  - intros i Hi. destruct (Ha1 i Hi) as [Hi'|[?|?]]; [|by left|by right; right; left].
    destruct (I6 i Hi') as [H|[H|[H|[v H]]]]; [left; auto|right; left; auto|..].
    + destruct (Ha4 i H) as [?|[?|?]]; [by right; right; left|by right; left|right; right; right; by exists t].
    + destruct (decide (v = t)) as [->|Hvt]; [|right; right; right; exists v; by rewrite O3].
      destruct (Ha5 i H); [right; right; right; by exists t|by left].
Qed.

Lemma others_goto s s' t y : pcs s' = <[t := y]> (pcs s) -> others s s' t.
Proof. intros E. constructor; intros; rewrite E in *; rewrite lookup_insert_ne in * by done; done. Qed.
Lemma others_leave s s' t : pcs s' = delete t (pcs s) -> others s s' t.
Proof. intros E. constructor; intros; rewrite E in *; rewrite lookup_delete_ne in * by done; done. Qed.
Lemma others_same s s' t : pcs s' = pcs s -> others s s' t.
Proof. intros E. by constructor; intros; rewrite E in *. Qed.
Lemma others_wake s s' t u y : pcs s' = <[t := y]> (alter unpark u (pcs s)) -> others s s' t.
Proof.
  intros E. constructor; intros v *; intros; rewrite E in *; rewrite lookup_insert_ne in * by done.
  - apply (view_alter in_wait). by intros [[]|].
  - apply (view_alter batch). by intros [[]|].
  - apply (view_alter pbatch). by intros [[]|].
  - apply (view_alter (drains n)). by intros [[]|].
  - revert H0. destruct (decide (v = u)) as [->|]; [rewrite lookup_alter_eq; by destruct (pcs s !! u) as [[]|]|by rewrite lookup_alter_ne].
Qed.

Lemma not_waiting s t w : reg_inv s -> in_wait (pcs s !! t) = None -> w ∈ s_waiters s -> w_tid w <> t.
Proof. intros Hi Ht Hw <-. destruct (iv_waiter _ Hi w Hw). congruence. Qed.

Ltac places :=
  cbn [pcs s_entries s_waiters s_parked asked started dropped goto leave set_pcs set_entries set_waiters set_parked log_asked log_started log_dropped];
  rewrite ?lookup_insert_eq, ?lookup_delete_eq;
  repeat match goal with E : pcs _ !! _ = _ |- _ => rewrite !E end;
  cbn [in_wait batch pbatch asleep drains].

(** A thread outside [registry_wait] touches no waiter. *)
Lemma kept_waiters s s' t : reg_inv s -> in_wait (pcs s !! t) = in_wait (pcs s' !! t) -> s_waiters s' = s_waiters s ->
  forall w, w ∈ s_waiters s' -> w ∈ s_waiters s /\ w_tid w <> t \/
    (w_hash w = hash_name (w_name w) /\ w_tid w = t) /\ in_wait (pcs s' !! t) = Some (w_name w).
Proof.
  intros Hi E Ew w Hw. rewrite Ew in Hw. destruct (iv_waiter _ Hi w Hw) as [Hh Hin].
  destruct (decide (w_tid w = t)) as [<-|]; [right; split; [done|congruence]|by left].
Qed.

(** What a step leaves of the batches and lists it does not touch. *)
Ltac untouched := places; intros;
  first [assumption | done | by left | by right; left | by right; right
        | by match goal with H : _ ∈ _ |- _ => cbn in H; apply elem_of_nil in H end
        | rewrite ?fmap_app, ?elem_of_app, ?elem_of_cons; tauto].

Lemma spec_register_keeps m n port owner live m' : (0, m') = spec_register m n port owner live ->
  forall k, k <> n -> m' !! k = m !! k.
Proof.
  unfold spec_register. intros H k Hk. destruct (m !! n) as [[? o]|].
  - destruct (negb _ && _); [done|]. injection H as ->. by rewrite lookup_insert_ne.
  - destruct (_ <=? _)%nat; [done|]. injection H as ->. by rewrite lookup_insert_ne.
Qed.

Lemma register_inv s t n port owner live r s' : reg_inv s -> short n -> pcs s !! t = None ->
  registry_register s t n port owner live = (r, s') -> reg_inv s'.
Proof.
  intros Hi Hn Ht H. unfold registry_register in H. destruct n as [|c n]; [by injection H as <- <-|].
  pose proof (register_refines (s_entries s) (c :: n) port owner live (iv_table _ Hi) Hn) as Hr.
  destruct (register_section _ _ _ _ _) as [r1 es]. destruct Hr as [Hok Hsp].
  destruct (Z.eqb_spec r1 0) as [->|_]; injection H as <- <-; [|done].
  eapply (inv_step s _ t Hi); [by eapply others_goto|exact Hok|apply kept_waiters; [done|by places|done]|..].
  all: try untouched.
  places. intros m Hm Hreg. destruct (decide (c :: n = m)) as [->|Hne]; [left; by rewrite bool_decide_true|right].
  split; [done|]. split; [|done]. by rewrite <- (spec_register_keeps _ _ _ _ _ _ Hsp).
Qed.

Lemma wait_inv s t n r s' : reg_inv s -> pcs s !! t = None -> registry_wait s t n = (r, s') -> reg_inv s'.
Proof.
  intros Hi Ht H. unfold registry_wait in H. pose proof (entry_find_spec (s_entries s) n (iv_table _ Hi)) as Hf.
  destruct (entry_find _ _ _) as [[i e]|]; injection H as <- <-; [done|].
  eapply (inv_step s _ t Hi); [by eapply others_goto|apply (iv_table _ Hi)|..].
  - places. intros w [Hw|Hw]%elem_of_app; [left; split; [done|by apply (not_waiting s); [|rewrite Ht|]]|].
    apply list_elem_of_singleton in Hw as ->. by right.
  - untouched.
  - places. intros _. left. rewrite fmap_app. set_solver.
  - untouched.
  - untouched.
  - places. rewrite fmap_app. intros m Hm Hreg. right. split; [|done]. cbn in Hm.
    assert (m <> n) by (by intros ->). set_solver.
  - untouched.
  - untouched.
  - untouched.
  - untouched.
  - untouched.
Qed.

(** Steps that only move a thread, the table's removals included. *)
Lemma plain_inv s s' t : reg_inv s -> others s s' t -> table_ok (s_entries s') ->
  s_waiters s' = s_waiters s -> s_parked s' = s_parked s -> asked s' = asked s -> started s' = started s -> dropped s' = dropped s ->
  in_wait (pcs s !! t) = in_wait (pcs s' !! t) ->
  (asleep (pcs s' !! t) = true -> asleep (pcs s !! t) = true) ->
  (forall u, u ∈ batch (pcs s !! t) -> u ∈ batch (pcs s' !! t) \/ asleep (pcs s' !! u) = false) ->
  pbatch (pcs s' !! t) = pbatch (pcs s !! t) ->
  (forall n, names (s_entries s') !! n <> None -> names (s_entries s) !! n <> None) ->
  (forall n, drains n (pcs s !! t) = true -> drains n (pcs s' !! t) = true) -> reg_inv s'.
Proof.
  intros Hi Ho Hok Ew Ep Ea Es Ed Hw Hsl Hb Hp Hn Hd. pose proof Hi as [_ _ _ I4 _ _].
  apply (inv_step s _ t Hi Ho Hok); [by apply kept_waiters|..]; rewrite ?Ew, ?Ep, ?Ea, ?Es, ?Ed, ?Hp; try (intros; by auto).
  - intros H. destruct (I4 t (Hsl H)) as [?|[v Hv]]; [by left|].
    destruct (decide (v = t)) as [->|Hvt].
    + destruct (Hb t Hv) as [?|?]; [right; by exists t|congruence].
    + right. exists v. by rewrite (ot_batch _ _ _ Ho).
  - intros n Hin Hreg. destruct (drains n (pcs s !! t)) eqn:E; [left; auto|right; auto].
Qed.

Lemma unregister_inv s n owner : reg_inv s -> reg_inv (set_entries s (unregister_section (s_entries s) n owner)).
Proof.
  intros Hi. destruct (unregister_refines (s_entries s) n owner (iv_table _ Hi)) as [Hok Hnm].
  eapply (plain_inv s _ 0 Hi); [by apply others_same|exact Hok|try done..]; cbn; try (intros; by left).
  intros m. rewrite Hnm. unfold spec_unregister. destruct (names _ !! n) as [[? o]|]; [|done].
  destruct (o =? owner); [|done]. intros Hm E. by apply Hm, lookup_delete_None; right.
Qed.

Lemma expire_inv s t n : reg_inv s -> pcs s !! t = Some (WSleep n true) -> reg_inv (goto s t (WSleep n false)).
Proof.
  intros Hi Ht. eapply (plain_inv s _ t Hi); [by eapply others_goto|apply (iv_table _ Hi)|try done..]; untouched.
Qed.

Lemma awake_inv s t n : reg_inv s -> pcs s !! t = Some (WSleep n false) -> reg_inv (goto s t (WFinal n)).
Proof.
  intros Hi Ht. eapply (plain_inv s _ t Hi); [by eapply others_goto|apply (iv_table _ Hi)|try done..]; untouched.
Qed.

Lemma cleanup_inv s t owner : reg_inv s -> pcs s !! t = None -> reg_inv (goto s t (CParked owner)).
Proof.
  intros Hi Ht. eapply (plain_inv s _ t Hi); [by eapply others_goto|apply (iv_table _ Hi)|try done..]; untouched.
Qed.

Lemma park_inv s n tid owner mem : reg_inv s -> short n -> reg_inv (registry_park_or_start s n tid owner mem).
Proof.
  intros Hi Hn. unfold registry_park_or_start.
  assert (reg_inv (log_started (log_asked s tid) tid)) as Hstart.
  { apply (inv_step s _ 0 Hi); [by apply others_same|apply (iv_table _ Hi)|by apply kept_waiters|..]; try untouched.
    - by apply (iv_sleep _ Hi).
    - places. intros m Hin Hreg. destruct (drains m (pcs s !! 0)) eqn:E; auto.
    - places. intros i [->|?]%elem_of_cons; [right; left; by left|by left]. }
  destruct n as [|c n]; [done|]. pose proof (entry_find_spec (s_entries s) (c :: n) (iv_table _ Hi)) as Hf.
  destruct (entry_find _ _ _) as [[i e]|]; [done|]. destruct mem; [|done].
  rewrite name_copy_short by done.
  apply (inv_step s _ 0 Hi); [by apply others_same|apply (iv_table _ Hi)|by apply kept_waiters|..]; try untouched.
  - places. intros p [Hp|Hp]%elem_of_app; [by left|apply list_elem_of_singleton in Hp as ->; by right].
  - by apply (iv_sleep _ Hi).
  - places. rewrite fmap_app. intros m Hm Hreg. cbn in Hm.
    assert (m <> c :: n) by (by intros ->). assert (m ∈ (w_name <$> s_waiters s) ++ (p_name <$> s_parked s)) by set_solver.
    destruct (drains m (pcs s !! 0)) eqn:E; auto.
  - places. intros i [->|?]%elem_of_cons; [right; right; rewrite fmap_app; set_solver|by left].
Qed.

Lemma wait_end_inv s t n : reg_inv s -> pcs s !! t = Some (WFinal n) -> reg_inv (wait_end s t n).2.
Proof.
  intros Hi Ht. cbn [wait_end snd]. eapply (inv_step s _ t Hi); [by eapply others_leave|apply (iv_table _ Hi)|..].
  - places. intros w [Hw Hin]%list_elem_of_filter. by left.
  - untouched.
  - by places.
  - places. intros w Hw. destruct (decide (w_tid w = t)); [by right; left|left]. by apply list_elem_of_filter.
  - untouched.
  - places. intros m Hm Hreg. right. split; [|done]. apply elem_of_app in Hm as [Hm|Hm]; [|set_solver].
    apply list_elem_of_fmap in Hm as (w & -> & [_ Hw]%list_elem_of_filter). apply elem_of_app. left. by apply list_elem_of_fmap_2.
  - untouched.
  - untouched.
  - untouched.
  - untouched.
  - untouched.
Qed.

(** A linked waiter or a parked record is collected, kept, or not concerned. *)
Lemma collected_waiters s n h cap b k : (0 < cap)%nat -> collect_name_waiters (s_waiters s) n h cap = (b, k) ->
  (forall w, w ∈ k -> w ∈ s_waiters s) /\ (forall w, w ∈ s_waiters s -> w ∈ k \/ w_tid w ∈ w_tid <$> b) /\
  ((length b < cap)%nat -> reg_inv s -> h = hash_name n -> n ∉ w_name <$> k).
Proof.
  intros Hc E. pose proof (collect_waiters_spec n h cap (s_waiters s) Hc) as H. rewrite E in H.
  destruct H as (Hp & _ & Hk). split; [|split].
  - intros w Hw. rewrite Hp. apply elem_of_app. by right.
  - intros w Hw. rewrite Hp in Hw. apply elem_of_app in Hw as [Hw|Hw]; [right; by apply list_elem_of_fmap_2|by left].
  - intros Hl Hi -> (w & En & Hw)%list_elem_of_fmap. specialize (Hk Hl). rewrite Forall_forall in Hk. specialize (Hk w Hw).
    assert (w ∈ s_waiters s) as Hin by (rewrite Hp; apply elem_of_app; by right).
    destruct (iv_waiter _ Hi w Hin) as [Hh _]. unfold waits_for in Hk. rewrite Hh, En, Z.eqb_refl, bool_decide_true in Hk; done.
Qed.

Lemma collected_if f s cap b k : collect_if f (s_parked s) cap = (b, k) ->
  (forall p, p ∈ k -> p ∈ s_parked s) /\
  (forall i, i ∈ p_tid <$> s_parked s -> i ∈ p_tid <$> k \/ i ∈ p_tid <$> b) /\
  ((length b < cap)%nat -> forall p, p ∈ k -> f p = false).
Proof.
  intros E. pose proof (collect_if_spec f cap (s_parked s)) as H. rewrite E in H. destruct H as (Hp & _ & Hk). split_and!.
  - intros p Hin. rewrite Hp. apply elem_of_app. by right.
  - intros i (p & -> & Hin)%list_elem_of_fmap. rewrite Hp in Hin.
    apply elem_of_app in Hin as [Hin|Hin]; [right|left]; by apply list_elem_of_fmap_2.
  - intros Hl p Hin. specialize (Hk Hl). rewrite Forall_forall in Hk. by apply Hk.
Qed.

Lemma elem_fmap_mono {A} (f : A -> str) (l k : list A) n : (forall x, x ∈ k -> x ∈ l) -> n ∈ f <$> k -> n ∈ f <$> l.
Proof. intros H (x & -> & Hx)%list_elem_of_fmap. by apply list_elem_of_fmap_2, H. Qed.

Lemma pass_inv s t n s' : reg_inv s -> pcs s !! t = Some (DPass n) -> drain_and_wake s t (DPass n) = Some s' -> reg_inv s'.
Proof.
  intros Hi Ht H. cbn [drain_and_wake] in H. destruct (walk_ok s); [|done].
  destruct (collect_name_waiters _ _ _ _) as [wb ws] eqn:Ew. destruct (collect_parked _ _ _ _) as [pb ps] eqn:Ep.
  assert (0 < WAITER_BATCH)%nat as Hcap by (unfold WAITER_BATCH; lia).
  destruct (collected_waiters s _ _ _ _ _ Hcap Ew) as (Hw1 & Hw2 & Hw3). destruct (collected_if _ s _ _ _ Ep) as (Hp1 & Hp2 & Hp3).
  injection H as <-. eapply (inv_step s _ t Hi); [by eapply others_goto|apply (iv_table _ Hi)|..]; try untouched.
  - places. intros w Hw. left. split; [by apply Hw1|]. by apply (not_waiting s); [|rewrite Ht|apply Hw1].
  - places. intros p Hp. left. by apply Hp1.
  - places. intros w Hw. destruct (Hw2 w Hw); auto.
  - places. intros m Hm Hreg. apply elem_of_app in Hm.
    assert (m ∈ (w_name <$> s_waiters s) ++ (p_name <$> s_parked s)) as Hin.
    { apply elem_of_app. destruct Hm as [Hm|Hm]; [left|right]; by eapply elem_fmap_mono. }
    destruct (decide (n = m)) as [->|Hne]; [left|right; by rewrite bool_decide_false].
    destruct (Nat.ltb_spec (length wb) WAITER_BATCH) as [Hl|Hl]; cbn [andb]; [|by apply bool_decide_eq_true].
    destruct (Nat.ltb_spec (length pb) PARKED_BATCH) as [Hl'|Hl']; [|by apply bool_decide_eq_true].
    exfalso. destruct Hm as [Hm|(p & -> & Hp)%list_elem_of_fmap]; [by apply (Hw3 Hl Hi)|].
    specialize (Hp3 Hl' p Hp). unfold parked_for in Hp3. rewrite (iv_parked _ Hi p (Hp1 p Hp)), Z.eqb_refl, bool_decide_true in Hp3; done.
  - places. intros i Hin. destruct (Hp2 i Hin); auto.
Qed.

Lemma clean_pass_inv s t o n h s' : reg_inv s -> pcs s !! t = Some (CPass o n h) ->
  registry_cleanup_owner s t (CPass o n h) = Some s' -> reg_inv s'.
Proof.
  intros Hi Ht H. cbn [registry_cleanup_owner] in H. destruct (walk_ok s); [|done].
  destruct (collect_name_waiters _ _ _ _) as [wb ws] eqn:Ew.
  assert (0 < WAITER_BATCH)%nat as Hcap by (unfold WAITER_BATCH; lia).
  destruct (collected_waiters s _ _ _ _ _ Hcap Ew) as (Hw1 & Hw2 & _).
  injection H as <-. eapply (inv_step s _ t Hi); [by eapply others_goto|apply (iv_table _ Hi)|..]; try untouched.
  - places. intros w Hw. left. split; [by apply Hw1|]. by apply (not_waiting s); [|rewrite Ht|apply Hw1].
  - places. intros w Hw. destruct (Hw2 w Hw); auto.
  - places. intros m Hm Hreg. right. split; [|done]. apply elem_of_app in Hm as [Hm|Hm]; apply elem_of_app; [left|by right].
    by eapply elem_fmap_mono.
Qed.

(** The head of a batch is woken. *)
Lemma wake_head_inv s t u x y s1 : reg_inv s -> pcs s !! t = Some x -> wake s u = Some s1 ->
  in_wait (Some x) = None -> in_wait (Some y) = None -> batch (Some x) = u :: batch (Some y) -> pbatch (Some x) = pbatch (Some y) ->
  (forall n, drains n (Some x) = drains n (Some y)) -> reg_inv (goto s1 t y).
Proof.
  intros Hi Ht Hw Hx Hy Hb Hp Hd. unfold wake in Hw. destruct (frame s u); [|done]. injection Hw as <-.
  assert (asleep (Some y) = false) as Hya by (by destruct y).
  apply (plain_inv s _ t Hi); [by eapply others_wake|apply (iv_table _ Hi)|done..| | | | | |];
    cbn [goto set_pcs pcs s_entries]; rewrite ?lookup_insert_eq, ?Ht; try done.
  - congruence.
  - congruence.
  - rewrite Hb. intros v [->|Hv]%elem_of_cons; [right|by left].
    rewrite (view_insert asleep). case_decide as E; [done|]. rewrite lookup_alter_eq. by destruct (pcs s !! u) as [[]|].
  - intros n. by rewrite Hd.
Qed.

Lemma drain_inv s t x s' : reg_inv s -> pcs s !! t = Some x -> drain_and_wake s t x = Some s' -> reg_inv s'.
Proof.
  intros Hi Ht H. destruct x; try done; [by eapply pass_inv|]. cbn [drain_and_wake] in H.
  destruct wb as [|u wb].
  - destruct pb as [|p pb]; injection H as <-.
    + destruct last0; eapply (plain_inv s _ t Hi); first [by eapply others_leave|by eapply others_goto|apply (iv_table _ Hi)|done|untouched].
    + eapply (inv_step s _ t Hi); [by eapply others_goto|apply (iv_table _ Hi)|by apply kept_waiters; [|places|]|..]; try untouched.
      * places. intros m Hm Hreg. destruct (drains m (Some (DWake n [] (p :: pb) last0))) eqn:E; [left|right]; done.
      * places. intros i Hin. cbn in Hin. apply elem_of_cons in Hin as [->|?]; [right; by left|by left].
  - apply bind_Some in H as (s1 & Hw & [= <-]). by eapply (wake_head_inv s t u (DWake n (u :: wb) pb last0)).
Qed.

Lemma dead_parked_inv s t o s' : reg_inv s -> pcs s !! t = Some (CParked o) -> registry_cleanup_owner s t (CParked o) = Some s' -> reg_inv s'.
Proof.
  intros Hi Ht H. cbn [registry_cleanup_owner] in H. destruct (collect_dead _ _ _) as [b ps] eqn:E.
  destruct (collected_if _ s _ _ _ E) as (Hp1 & Hp2 & _). injection H as <-.
  set (y := if (length b <? PARKED_BATCH)%nat then CEntry o else CParked o).
  assert (in_wait (Some y) = None /\ batch (Some y) = [] /\ pbatch (Some y) = [] /\ asleep (Some y) = false /\
    forall n, drains n (Some y) = false) as (Y1 & Y2 & Y3 & Y4 & Y5).
  { unfold y. by destruct (length b <? PARKED_BATCH)%nat. }
  eapply (inv_step s _ t Hi); [by eapply others_goto|apply (iv_table _ Hi)|apply kept_waiters; [done| |done]|..];
    cbn [pcs s_entries s_waiters s_parked asked started dropped goto set_pcs set_parked log_dropped];
    rewrite ?lookup_insert_eq, ?Ht, ?Y1, ?Y2, ?Y3, ?Y4; try done; try (intros; by left).
  - intros p Hp. left. by apply Hp1.
  - intros m Hm Hreg. right. split; [|done]. apply elem_of_app in Hm as [Hm|Hm]; apply elem_of_app; [by left|right].
    by eapply elem_fmap_mono.
  - intros i Hin. apply elem_of_app. by right.
  - intros i Hin. destruct (Hp2 i Hin); [by left|right; left]. apply elem_of_app. by left.
Qed.

Lemma clean_inv s t x s' : reg_inv s -> pcs s !! t = Some x -> registry_cleanup_owner s t x = Some s' -> reg_inv s'.
Proof.
  intros Hi Ht H. destruct x; try done; [by eapply dead_parked_inv| |by eapply clean_pass_inv|].
  - cbn [registry_cleanup_owner] in H. pose proof (retire_owned_refines (s_entries s) owner (iv_table _ Hi)) as Hr.
    destruct (retire_owned _ _) as [[[n h]|] es]; injection H as <-.
    + destruct Hr as (Hok & _ & _ & Hn).
      eapply (plain_inv s _ t Hi); [by eapply others_goto|exact Hok|done..| | | | | |]; try untouched.
      places. rewrite Hn. intros m Hm E. by apply Hm, lookup_delete_None; right.
    + eapply (plain_inv s _ t Hi); [by eapply others_leave|apply (iv_table _ Hi)|done..| | | | | |]; untouched.
  - cbn [registry_cleanup_owner] in H. destruct wb as [|u wb].
    + injection H as <-. destruct last0; (eapply (plain_inv s _ t Hi); [by eapply others_goto|apply (iv_table _ Hi)|done..| | | | | |]; untouched).
    + apply bind_Some in H as (s1 & Hw & [= <-]). by eapply (wake_head_inv s t u (CWake owner n h (u :: wb) last0)).
Qed.

Lemma exec_inv s e r s' : reg_inv s -> short (event_name e) -> exec s e = Some (r, s') -> reg_inv s'.
Proof.
  intros Hi Hn H. destruct e; cbn [exec event_name] in *.
  - destruct (pcs s !! t) eqn:Et; [done|]. injection H as H. by eapply register_inv.
  - injection H as <- <-. by apply unregister_inv.
  - by injection H as <- <-.
  - destruct (pcs s !! t) eqn:Et; [done|]. injection H as H. by eapply wait_inv.
  - destruct (pcs s !! t) as [[n []| | | | | | |]|] eqn:Et; try done. injection H as <- <-. by eapply expire_inv.
  - injection H as <- <-. by apply park_inv.
  - destruct (pcs s !! t) eqn:Et; [done|]. injection H as <- <-. by apply cleanup_inv.
  - unfold turn in H. apply bind_Some in H as (x & Ex & H).
    destruct x; try (apply bind_Some in H as (s1 & H & [= <- <-]); first [by eapply drain_inv|by eapply clean_inv]).
    + destruct parked; [done|]. injection H as <- <-. by eapply awake_inv.
    + injection H as <- <-. exact (wait_end_inv s t n Hi Ex).
Qed.

Lemma reg_reachable_inv s : reachable reg_step registry_init s -> reg_inv s.
Proof.
  apply (reachable_ind_inv reg_step reg_inv); [|intros s1 s2 Hi [e r s3 Hn H]; by eapply exec_inv].
  constructor; cbn; intros; try (by apply elem_of_nil in H); try done.
  constructor; cbn; [unfold REGISTRY_MAX; lia|done..].
Qed.

(** A refused registration leaves the table. *)
Lemma register_error es n port owner live r m' : (r, m') = spec_register (names es) n port owner live -> r <> 0 ->
  (r, names es) = spec_register (names es) n port owner live.
Proof.
  unfold spec_register. destruct (names es !! n) as [[? o]|].
  - destruct (negb _ && _); intros [= -> ->]; done.
  - destruct (_ <=? _)%nat; intros [= -> ->]; done.
Qed.

Lemma wait_refines s t n r s' : table_ok (s_entries s) -> registry_wait s t n = (r, s') ->
  r = spec_find (names (s_entries s)) n /\ names (s_entries s') = names (s_entries s).
Proof.
  intros Hok H. rewrite <- find_refines by done. unfold registry_wait, find_section in *.
  destruct (entry_find _ _ _) as [[i e]|]; by injection H as <- <-.
Qed.

Lemma park_names s n tid owner mem :
  names (s_entries (registry_park_or_start s n tid owner mem)) = names (s_entries s).
Proof. unfold registry_park_or_start. destruct n; [done|]. destruct (entry_find _ _ _); [done|]. by destruct mem. Qed.

Lemma drain_names s t x s' : drain_and_wake s t x = Some s' -> s_entries s' = s_entries s.
Proof.
  intros H. destruct x; try done; cbn [drain_and_wake] in H.
  - destruct (walk_ok s); [|done]. destruct (collect_name_waiters _ _ _ _), (collect_parked _ _ _ _). by injection H as <-.
  - destruct wb as [|u wb]; [destruct pb as [|p pb]; injection H as <-; by try destruct last0|].
    apply bind_Some in H as (s1 & Hw & [= <-]). unfold wake in Hw. destruct (frame s u); [|done]. by injection Hw as <-.
Qed.

Lemma clean_names s t x s' : registry_cleanup_owner s t x = Some s' -> (forall o, x <> CEntry o) -> s_entries s' = s_entries s.
Proof.
  intros H Hx. destruct x; try done; cbn [registry_cleanup_owner] in H.
  - destruct (collect_dead _ _ _). by injection H as <-.
  - by destruct (Hx owner).
  - destruct (walk_ok s); [|done]. destruct (collect_name_waiters _ _ _ _). by injection H as <-.
  - destruct wb as [|u wb]; [by injection H as <-|].
    apply bind_Some in H as (s1 & Hw & [= <-]). unfold wake in Hw. destruct (frame s u); [|done]. by injection Hw as <-.
Qed.

Lemma turn_refines s t r s' : table_ok (s_entries s) -> turn s t = Some (r, s') ->
  let m := names (s_entries s) in let m' := names (s_entries s') in
  match pcs s !! t with
  | Some (WFinal n) => r = spec_find m n /\ m' = m
  | Some (CEntry o) => (exists n port, m !! n = Some (port, o) /\ m' = delete n m) \/
      m' = m /\ forall n port o', m !! n = Some (port, o') -> o' <> o
  | _ => m' = m
  end.
Proof.
  intros Hok H. cbn zeta. unfold turn in H. apply bind_Some in H as (x & Ex & H). rewrite Ex.
  destruct x; try (apply bind_Some in H as (s1 & H & [= <- <-]));
    try (by apply drain_names in H as ->); try (by apply clean_names in H as ->).
  - destruct parked; [done|]. by injection H as <- <-.
  - injection H as <- <-. split; [by apply find_refines|done].
  - cbn [registry_cleanup_owner] in H. pose proof (retire_owned_refines (s_entries s) owner Hok) as Hr.
    destruct (retire_owned _ _) as [[[n h]|] es]; injection H as <-.
    + destruct Hr as (_ & _ & [port Hp] & Hn). left. by exists n, port.
    + destruct Hr as (_ & _ & Hn). by right.
Qed.

(** ** Properties *)

(** C22: the registry is a map from names to a port and its owner: whatever the threads do, every
    section answers and changes the table as the operation on the map says.  Registration fails on an empty name, on a
    name a living process holds, and when 256 names are held; a wait and its end answer what the
    map holds at that moment; a turn of the cleanup takes one name of the dead process, or there is none. *)
Theorem registry_refines_map s e r s' : reachable reg_step registry_init s -> short (event_name e) ->
  exec s e = Some (r, s') ->
  let m := names (s_entries s) in let m' := names (s_entries s') in
  match e with
  | ERegister _ n port owner live => (r, m') = match n with [] => (-1, m) | _ => spec_register m n port owner live end
  | EUnregister n owner => m' = spec_unregister m n owner
  | EFind n | EWait _ n => r = spec_find m n /\ m' = m
  | ETurn t =>
      match pcs s !! t with
      | Some (WFinal n) => r = spec_find m n /\ m' = m
      | Some (CEntry o) => (exists n port, m !! n = Some (port, o) /\ m' = delete n m) \/
          m' = m /\ forall n port o', m !! n = Some (port, o') -> o' <> o
      | _ => m' = m
      end
  | _ => m' = m
  end.
Proof.
  intros Hr%reg_reachable_inv Hn H. pose proof (iv_table _ Hr) as Hok. cbn zeta.
  destruct e; cbn [exec event_name] in *.
  - destruct (pcs s !! t); [done|]. injection H as H. unfold registry_register in H.
    destruct n as [|c n]; [by injection H as <- <-|].
    pose proof (register_refines (s_entries s) (c :: n) port owner live Hok Hn) as Hreg.
    destruct (register_section _ _ _ _ _) as [r1 es]. destruct Hreg as [_ Hsp].
    destruct (Z.eqb_spec r1 0) as [->|Hr1]; injection H as <- <-; [done|by apply (register_error _ _ _ _ _ _ _ Hsp)].
  - injection H as <- <-. by apply unregister_refines.
  - injection H as <- <-. split; [by apply find_refines|done].
  - destruct (pcs s !! t); [done|]. injection H as H. by apply (wait_refines s t n).
  - destruct (pcs s !! t) as [[? []| | | | | | |]|]; try done. by injection H as <- <-.
  - injection H as <- <-. apply park_names.
  - destruct (pcs s !! t); [done|]. by injection H as <- <-.
  - by apply turn_refines.
Qed.

Lemma walk_defined s : reg_inv s -> walk_ok s = true.
Proof.
  intros Hi. apply forallb_forall. intros w Hw%list_elem_of_In. destruct (iv_waiter _ Hi w Hw) as [_ H].
  unfold frame. by destruct (pcs s !! w_tid w) as [[]|].
Qed.

Lemma turn_defined s t x : reg_inv s -> pcs s !! t = Some x -> asleep (Some x) = false ->
  is_Some (turn s t) \/ exists u b, batch (Some x) = u :: b /\ frame s u = false.
Proof.
  intros Hi Ht Hx. unfold turn. rewrite (bind_eq _ _ _ Ht). pose proof (walk_defined s Hi) as Hw.
  destruct x; cbn [drain_and_wake registry_cleanup_owner asleep batch] in *; rewrite ?Hw, ?Hx;
    try (left; repeat case_match; by eexists).
  - destruct wb as [|u wb]; [left; repeat case_match; by eexists|]. unfold wake.
    destruct (frame s u) eqn:E; [left; by eexists|right; by eexists _, _].
  - destruct wb as [|u wb]; [left; repeat case_match; by eexists|]. unfold wake.
    destruct (frame s u) eqn:E; [left; by eexists|right; by eexists _, _].
Qed.

(** C13: nobody waits for a name that is there.  Every thread in a call that does not sleep has its
    next section, unless it is about to wake a record whose thread has left; and when every
    thread in a call sleeps, no sleeping thread's name and no parked process' name is registered, and
    every process that asked to be parked was started, died, or is still parked. *)
Theorem registry_no_lost_wakeup s : reachable reg_step registry_init s ->
  (forall t x, pcs s !! t = Some x -> asleep (Some x) = false ->
    is_Some (turn s t) \/ exists u b, batch (Some x) = u :: b /\ frame s u = false) /\
  ((forall t x, pcs s !! t = Some x -> asleep (Some x) = true) ->
    (forall t n, pcs s !! t = Some (WSleep n true) -> names (s_entries s) !! n = None) /\
    (forall p, p ∈ s_parked s -> names (s_entries s) !! p_name p = None) /\
    (forall i, i ∈ asked s -> i ∈ started s \/ i ∈ dropped s \/ i ∈ p_tid <$> s_parked s)).
Proof.
  intros Hi%reg_reachable_inv. split; [intros t x; by apply turn_defined|]. intros Hrest.
  assert (forall v, batch (pcs s !! v) = [] /\ pbatch (pcs s !! v) = [] /\ forall n, drains n (pcs s !! v) = false) as Hno.
  { intros v. destruct (pcs s !! v) as [x|] eqn:E; [|done]. specialize (Hrest v x E). by destruct x. }
  assert (forall n, n ∈ (w_name <$> s_waiters s) ++ (p_name <$> s_parked s) -> names (s_entries s) !! n = None) as Hn.
  { intros n Hin. destruct (names (s_entries s) !! n) eqn:E; [|done].
    destruct (iv_drain _ Hi n Hin) as [v Hv]; [congruence|]. destruct (Hno v) as (_ & _ & Hd). congruence. }
  split_and!.
  - intros t n Ht. apply Hn, elem_of_app. left. destruct (iv_sleep _ Hi t) as [H|[v Hv]]; [by rewrite Ht| |].
    + apply list_elem_of_fmap in H as (w & -> & Hw). destruct (iv_waiter _ Hi w Hw) as [_ Hin]. rewrite Ht in Hin.
      injection Hin as ->. by apply list_elem_of_fmap_2.
    + destruct (Hno v) as (Hb & _). rewrite Hb in Hv. by apply elem_of_nil in Hv.
  - intros p Hp. apply Hn, elem_of_app. right. by apply list_elem_of_fmap_2.
  - intros i Hin. destruct (iv_asked _ Hi i Hin) as [?|[?|[?|[v Hv]]]]; [auto..|].
    destruct (Hno v) as (_ & Hp & _). rewrite Hp in Hv. by apply elem_of_nil in Hv.
Qed.

(** ** Runs *)

Fixpoint exec_all (s : sys) (l : list event) : option sys :=
  match l with [] => Some s | e :: r => '(_, s1) ← exec s e; exec_all s1 r end.

Lemma events_sound l : forall s s', Forall (fun e => short (event_name e)) l -> exec_all s l = Some s' -> reachable reg_step s s'.
Proof.
  induction l as [|e l IH]; intros s s' Hl; cbn; [intros [= <-]; constructor|].
  apply Forall_cons in Hl as [He Hl]. intros ([r s1] & H1 & H2)%bind_Some. eapply reachable_trans; [|by apply IH].
  eapply reach_step; [constructor|by eapply rs_exec].
Qed.

Definition end_of (l : list event) : sys := default registry_init (exec_all registry_init l).

Lemma events_reachable l : Forall (fun e => short (event_name e)) l -> is_Some (exec_all registry_init l) ->
  reachable reg_step registry_init (end_of l).
Proof. intros Hl [s Hs]. unfold end_of. rewrite Hs. by apply (events_sound l). Qed.

Definition dobfs : str := [100; 111; 98; 102; 115].
Definition audio : str := [97; 117; 100; 105; 111].

(** Thread 1 waits for [dobfs], process 40's thread 9 is parked for it; thread 2 of process 30 registers it and
    wakes both; 1 leaves with the port; thread 3 waits for [audio]. *)
Definition demo_run : list event :=
  [EWait 1 dobfs; EPark dobfs 9 40 true; ERegister 2 dobfs 17 30 true] ++ replicate 4 (ETurn 2) ++
  [ETurn 1; ETurn 1; EWait 3 audio].

Lemma demo_run_reachable : reachable reg_step registry_init (end_of demo_run).
Proof.
  apply events_reachable; [|vm_compute; by eexists].
  repeat (constructor; [unfold short, REGISTRY_NAME_MAX; cbn; lia|]). constructor.
Qed.

Lemma registry_refines_map_witness : exists s', exec (end_of demo_run) (ERegister 5 dobfs 18 50 true) = Some (-3, s') /\
  short dobfs /\ (-3, names (s_entries s')) = spec_register (names (s_entries (end_of demo_run))) dobfs 18 50 true.
Proof.
  eexists. split; [vm_compute; reflexivity|]. split; [unfold short, REGISTRY_NAME_MAX; cbn; lia|].
  refine (registry_refines_map (end_of demo_run) (ERegister 5 dobfs 18 50 true) (-3) _ demo_run_reachable _ _);
    [unfold short, REGISTRY_NAME_MAX; cbn; lia|vm_compute; reflexivity].
Defined.

Lemma demo_run_pcs : pcs (end_of demo_run) = <[3 := WSleep audio true]> ∅.
Proof. vm_compute. reflexivity. Qed.

Lemma demo_run_asleep t x : pcs (end_of demo_run) !! t = Some x -> asleep (Some x) = true.
Proof. rewrite demo_run_pcs. intros [[_ <-]|[_ H]]%lookup_insert_Some; [done|]. by rewrite lookup_empty in H. Qed.

Lemma registry_no_lost_wakeup_witness : pcs (end_of demo_run) !! 3 = Some (WSleep audio true) /\
  started (end_of demo_run) = [9] /\ names (s_entries (end_of demo_run)) !! audio = None.
Proof.
  assert (pcs (end_of demo_run) !! 3 = Some (WSleep audio true)) as H by (vm_compute; reflexivity).
  split; [exact H|]. split; [vm_compute; reflexivity|].
  exact (proj1 (proj2 (registry_no_lost_wakeup _ demo_run_reachable) demo_run_asleep) 3 audio H).
Defined.

(** ** What the code does and should not *)

(** The registration has collected a waiter whose time runs out: the waiter returns, and the wake reads
    its record in a dead frame. *)
Definition demo_timeout : list event := [EWait 1 dobfs; ERegister 2 dobfs 17 30 true; ETurn 2; ETimeout 1; ETurn 1; ETurn 1].

Remark wake_after_timeout : exists s, reachable reg_step registry_init s /\
  pcs s !! 2 = Some (DWake dobfs [1] [] true) /\ pcs s !! 1 = None /\ turn s 2 = None.
Proof.
  exists (end_of demo_timeout). split.
  - apply events_reachable; [|vm_compute; by eexists].
    repeat (constructor; [unfold short, REGISTRY_NAME_MAX; cbn; lia|]). constructor.
  - split; [vm_compute; reflexivity|]. split; vm_compute; reflexivity.
Qed.

(** [thread_destroy] of a thread asleep in [registry_wait] takes it out of its wait queue and releases its
    stack; the record stays linked in [s_waiters], and the next registration of any name walks over it. *)
Remark killed_waiter_stays_linked : exists s s1, reachable reg_step registry_init s /\
  exec (leave s 1) (ERegister 2 audio 17 30 true) = Some (0, s1) /\ turn s1 2 = None.
Proof.
  exists (end_of [EWait 1 dobfs]). eexists. split.
  - apply events_reachable; [|vm_compute; by eexists]. repeat constructor.
  - split; [vm_compute; reflexivity|]. vm_compute. reflexivity.
Qed.
