(* ===== verification/DmaPool.v ===== *)
(** * The DMA reserve (kernel/mm/dma_pool.c)

    Four megabytes of contiguous frames taken from the frame allocator at boot and given out
    in runs of pages, best fit first.  Each entry point runs under the pool's own lock, so it
    is one function of the state.  [None] is an access outside [s_bitmap]. *)

From S2P Require Import Prelude Bitmap Pmm.

Definition DMA_POOL_PAGES : Z := 1024.
Definition DMA_POOL_WORDS : Z := 32.

(** [s_base_phys] is 0 while the pool is off. *)
Record dma_pool := mk_pool { s_base_phys : Z; s_map : list Z; s_free : Z }.

(** ** Bitmap verbs *)

Definition page_used (bm : list Z) (idx : Z) : option bool :=
  w ← geti bm (idx / 32);
  Some (negb (Z.land (Z.shiftr w (idx mod 32)) 1 =? 0)).

Definition page_set (bm : list Z) (idx : Z) : option (list Z) :=
  w ← geti bm (idx / 32);
  seti bm (idx / 32) (Z.lor w (bit32 (idx mod 32))).

Definition page_clear (bm : list Z) (idx : Z) : option (list Z) :=
  w ← geti bm (idx / 32);
  seti bm (idx / 32) (Z.land w (not32 (bit32 (idx mod 32)))).

(** [for (i = 0; i <= DMA_POOL_PAGES; i++)], [k] turns left. *)
Fixpoint find_run_loop (k : nat) (bm : list Z) (i run best best_len n : Z) : option Z :=
  match k with
  | O => Some best
  | S k' =>
      u ← (if i <? DMA_POOL_PAGES then page_used bm i else Some true);
      if negb u then find_run_loop k' bm (i + 1) (run ⊞ 1) best best_len n
      else if (n <=? run) && (run <? best_len) then
        if run =? n then Some (i ⊟ run)
        else find_run_loop k' bm (i + 1) 0 (i ⊟ run) run n
      else find_run_loop k' bm (i + 1) 0 best best_len n
  end.

Definition find_run (bm : list Z) (n : Z) : option Z :=
  find_run_loop (Z.to_nat (DMA_POOL_PAGES + 1)) bm 0 0 DMA_POOL_PAGES (DMA_POOL_PAGES + 1) n.

(** ** API *)

(** The reserve and the frame allocator it was taken from. *)
Definition dma_pool_init (d : dma_pool) (s : pmm) : option (dma_pool * pmm) :=
  '(base, s1) ← pmm_alloc_contiguous s DMA_POOL_PAGES PMM_ZONE_PREFER_LOW;
  if base =? 0 then Some (mk_pool base (s_map d) (s_free d), s1)
  else Some (mk_pool base (replicate (Z.to_nat DMA_POOL_WORDS) 0) DMA_POOL_PAGES, s1).

(** [for (i = 0; i < pages; i++) page_set(start + i)] *)
Fixpoint set_pages (k : nat) (bm : list Z) (start i : Z) : option (list Z) :=
  match k with
  | O => Some bm
  | S k' => bm1 ← page_set bm (start ⊞ i); set_pages k' bm1 start (i + 1)
  end.

Definition dma_pool_alloc (d : dma_pool) (pages : Z) : option (Z * dma_pool) :=
  if (s_base_phys d =? 0) || (pages =? 0) || (DMA_POOL_PAGES <? pages) then Some (0, d)
  else
    start ← find_run (s_map d) pages;
    if start =? DMA_POOL_PAGES then Some (0, d)
    else
      bm ← set_pages (Z.to_nat pages) (s_map d) start 0;
      Some (s_base_phys d ⊞ (start ⊠ PAGE_SIZE),
            mk_pool (s_base_phys d) bm (s_free d ⊟ pages)).

(** The loop of [dma_pool_free]: a page that is already free is reported and skipped. *)
Fixpoint clear_pages (k : nat) (bm : list Z) (free start i : Z) : option (list Z * Z) :=
  match k with
  | O => Some (bm, free)
  | S k' =>
      u ← page_used bm (start ⊞ i);
      if (u : bool) then
        bm1 ← page_clear bm (start ⊞ i); clear_pages k' bm1 (free ⊞ 1) start (i + 1)
      else clear_pages k' bm free start (i + 1)
  end.

Definition dma_pool_free (d : dma_pool) (phys pages : Z) : option (bool * dma_pool) :=
  if (s_base_phys d =? 0) || (phys <? s_base_phys d)
     || (s_base_phys d ⊞ (DMA_POOL_PAGES ⊠ PAGE_SIZE) <? phys ⊞ (pages ⊠ PAGE_SIZE))
  then Some (false, d)
  else
    let start := (phys ⊟ s_base_phys d) / PAGE_SIZE in
    '(bm, free) ← clear_pages (Z.to_nat pages) (s_map d) (s_free d) start 0;
    Some (true, mk_pool (s_base_phys d) bm free).

Definition dma_pool_free_pages (d : dma_pool) : Z :=
  if negb (s_base_phys d =? 0) then s_free d else 0.

(** ** Specification *)

(** A maximal run of [l] free pages at [a]. *)
Record hole (bm : list Z) (a l : Z) : Prop := {
  hole_pos : 1 <= l;
  hole_in : 0 <= a /\ a + l <= DMA_POOL_PAGES;
  hole_free : forall j, a <= j < a + l -> bitat bm j = false;
  hole_left : a = 0 \/ bitat bm (a - 1) = true;
  hole_right : a + l = DMA_POOL_PAGES \/ bitat bm (a + l) = true
}.

(** [r] is the tightest hole that holds [n] pages, the lowest of equals; none is 1024. *)
Definition best_fit (bm : list Z) (n r : Z) : Prop :=
  (r = DMA_POOL_PAGES /\ forall a l, hole bm a l -> l < n) \/
  (exists l, hole bm r l /\ n <= l /\
     forall a l', hole bm a l' -> n <= l' -> l <= l' /\ (l' = l -> r <= a)).

(** The bitmap has its 32 words; the counter is exact while the pool is on. *)
Record wf_pool (d : dma_pool) : Prop := {
  wfd_words : Forall is_u32 (s_map d);
  wfd_length : Z.of_nat (length (s_map d)) = DMA_POOL_WORDS;
  wfd_base : s_base_phys d mod PAGE_SIZE = 0 /\ 0 <= s_base_phys d /\
             s_base_phys d + DMA_POOL_PAGES * PAGE_SIZE < 0x100000000;
  wfd_free : s_base_phys d <> 0 -> s_free d = count_free (s_map d) 0 DMA_POOL_PAGES
}.

Lemma page_used_spec bm i : Forall is_u32 bm -> Z.of_nat (length bm) = DMA_POOL_WORDS ->
  0 <= i < DMA_POOL_PAGES -> page_used bm i = Some (bitat bm i).
Proof.
  intros Hw Hl Hi. unfold DMA_POOL_WORDS, DMA_POOL_PAGES in *.
  destruct (frame_word bm i Hw) as (w & Hg & _ & Hb); [lia|].
  unfold page_used. rewrite Hg, Hb. cbn. f_equal. apply shiftr_land_testbit. zlia.
Qed.

Lemma hole_unique bm a l a' l' : hole bm a l -> hole bm a' l' -> a + l = a' + l' ->
  a = a' /\ l = l'.
Proof.
  intros H H' He. destruct H as [P I F L R], H' as [P' I' F' L' R'].
  assert (a = a'); [|lia].
  destruct (Z.lt_total a a') as [Hlt|[->|Hlt]]; [exfalso|done|exfalso].
  - destruct L' as [?|Hu]; [lia|]. rewrite F in Hu by lia. done.
  - destruct L as [?|Hu]; [lia|]. rewrite F' in Hu by lia. done.
Qed.

(** [best] is the best fit among the holes that end before [i]. *)
Definition best_before (bm : list Z) (n i best best_len : Z) : Prop :=
  (best = DMA_POOL_PAGES /\ best_len = DMA_POOL_PAGES + 1 /\
     forall a l, hole bm a l -> a + l < i -> l < n) \/
  (hole bm best best_len /\ best + best_len < i /\ n <= best_len /\
     forall a l, hole bm a l -> a + l < i -> n <= l ->
       best_len <= l /\ (l = best_len -> best <= a)).

(** The loop at [i]: a run of [run] free pages ends here, [best] was found before. *)
Record scan_inv (bm : list Z) (n i run best best_len : Z) : Prop := {
  si_run : 0 <= run <= i;
  si_open : forall j, i - run <= j < i -> bitat bm j = false;
  si_edge : i - run = 0 \/ bitat bm (i - run - 1) = true;
  si_len : n < best_len;
  si_best : best_before bm n i best best_len
}.

Lemma best_before_end bm n best best_len :
  best_before bm n (DMA_POOL_PAGES + 1) best best_len -> best_fit bm n best.
Proof.
  assert (forall a l, hole bm a l -> a + l < DMA_POOL_PAGES + 1) as Hall.
  { intros a l Hh. destruct (hole_in _ _ _ Hh). lia. }
  intros [(-> & _ & Hno)|(Hh & _ & Hn & Hb)]; [left|right; exists best_len]; eauto.
Qed.

(** A page in use (or the end) at [i] closes the open run, which is then the hole there. *)
Lemma closing_hole bm n i run best best_len : scan_inv bm n i run best best_len ->
  i <= DMA_POOL_PAGES -> (i = DMA_POOL_PAGES \/ bitat bm i = true) -> 1 <= run ->
  hole bm (i - run) run.
Proof.
  intros [Hr Ho He _ _] Hi Hu H1. constructor; try lia.
  - intros j Hj. apply Ho. lia.
  - exact He.
  - by replace (i - run + run) with i by lia.
Qed.

(** The holes that end at [i] are the one that was open. *)
Lemma holes_at bm n i run best best_len a l : scan_inv bm n i run best best_len ->
  i <= DMA_POOL_PAGES -> (i = DMA_POOL_PAGES \/ bitat bm i = true) ->
  hole bm a l -> a + l < i + 1 -> a + l < i \/ (1 <= run /\ a = i - run /\ l = run).
Proof.
  intros HI Hi Hu Hh Hlt. destruct (Z.eq_dec (a + l) i) as [He|]; [right|left; lia].
  destruct (Z.le_gt_cases 1 run) as [H1|H1].
  - split; [done|]. apply (hole_unique bm); [done| |lia].
    by apply (closing_hole bm n i run best best_len).
  - exfalso. destruct HI as [Hr _ Hedge _ _]. destruct Hh as [P I F L R].
    assert (run = 0) as -> by lia. destruct Hedge as [?|Hb]; [lia|].
    rewrite F in Hb by lia. done.
Qed.

(** A tighter hole closed at [i] becomes the candidate. *)
Lemma scan_take bm n i run best best_len : scan_inv bm n i run best best_len ->
  i <= DMA_POOL_PAGES -> (i = DMA_POOL_PAGES \/ bitat bm i = true) -> 1 <= n <= run ->
  run < best_len -> best_before bm n (i + 1) (i - run) run.
Proof.
  intros HI Hi Hu Hn Hb. right.
  split_and!; [apply (closing_hole bm n i run best best_len); try done; lia|lia|lia|].
  intros a l Hh Hlt Hnl.
  destruct (holes_at bm n i run best best_len a l HI Hi Hu Hh Hlt) as [Hlt'|(_ & -> & ->)]; [|lia].
  destruct (si_best _ _ _ _ _ _ HI) as [(_ & _ & Hno)|(_ & _ & _ & Hbest)].
  - specialize (Hno a l Hh Hlt'). lia.
  - destruct (Hbest a l Hh Hlt' Hnl). lia.
Qed.

(** A hole that is too small, or not tighter, is passed over. *)
Lemma scan_skip bm n i run best best_len : scan_inv bm n i run best best_len ->
  i <= DMA_POOL_PAGES -> (i = DMA_POOL_PAGES \/ bitat bm i = true) ->
  1 <= n -> ~ (n <= run /\ run < best_len) -> best_before bm n (i + 1) best best_len.
Proof.
  intros HI Hi Hu Hn Hno. pose proof HI as [Hr Ho He Hl Hb].
  pose proof (fun a l => holes_at bm n i run best best_len a l HI Hi Hu) as Hat.
  destruct Hb as [(-> & -> & Hnone)|(Hh & Hlt & Hnb & Hbest)]; [left|right].
  - split_and!; [done|done|]. intros a l Hh Hlt. pose proof (hole_in _ _ _ Hh).
    destruct (Hat a l Hh Hlt) as [?|(_ & -> & ->)]; [by apply (Hnone a l)|].
    destruct (Z.lt_ge_cases run n); lia.
  - split_and!; [done|lia|done|]. intros a l Hh' Hlt' Hnl.
    destruct (Hat a l Hh' Hlt') as [?|(_ & -> & ->)]; [by apply (Hbest a l)|].
    split; [lia|]. intros _. destruct (Z.le_gt_cases best (i - run)) as [|Hgt]; [done|].
    destruct (hole_in _ _ _ Hh), (hole_right _ _ _ Hh) as [Hx|Hx]; [lia|].
    rewrite Ho in Hx by lia. done.
Qed.

Lemma scan_free bm n i run best best_len : scan_inv bm n i run best best_len ->
  i < DMA_POOL_PAGES -> bitat bm i = false -> scan_inv bm n (i + 1) (run + 1) best best_len.
Proof.
  intros [Hr Ho He Hl Hb] Hi Hu.
  assert (forall a l, hole bm a l -> a + l < i + 1 -> a + l < i) as Hat.
  { intros a l Hh Hlt. destruct (Z.eq_dec (a + l) i) as [He'|]; [|lia].
    destruct (hole_right _ _ _ Hh) as [?|Hx]; [lia|]. rewrite He' in Hx. congruence. }
  constructor; [lia| | |done|].
  - intros j Hj. destruct (Z.eq_dec j i) as [->|]; [done|]. apply Ho. lia.
  - replace (i + 1 - (run + 1)) with (i - run) by lia. done.
  - destruct Hb as [(-> & -> & Hn)|(Hh & Hlt & Hnb & Hn)]; [left|right];
      (split_and!; [done|lia || done|..]); eauto.
Qed.

(** Past a page in use the run starts again. *)
Lemma scan_restart bm n i best best_len : 0 <= i -> bitat bm i = true -> n < best_len ->
  best_before bm n (i + 1) best best_len -> scan_inv bm n (i + 1) 0 best best_len.
Proof.
  intros Hi Hu Hl Hb. constructor; [lia|intros j Hj; lia|right|done|done].
  by replace (i + 1 - 0 - 1) with i by lia.
Qed.

Lemma scan_start bm n : n <= DMA_POOL_PAGES ->
  scan_inv bm n 0 0 DMA_POOL_PAGES (DMA_POOL_PAGES + 1).
Proof.
  intros Hn. constructor; [lia|intros j Hj; lia|by left|lia|]. left. split_and!; [done|done|].
  intros a l Hh Hlt. destruct (hole_in _ _ _ Hh). pose proof (hole_pos _ _ _ Hh). lia.
Qed.

Lemma scan_page bm i : Forall is_u32 bm -> Z.of_nat (length bm) = DMA_POOL_WORDS ->
  0 <= i <= DMA_POOL_PAGES ->
  exists u, (if i <? DMA_POOL_PAGES then page_used bm i else Some true) = Some u /\
    if u then i = DMA_POOL_PAGES \/ bitat bm i = true
    else i < DMA_POOL_PAGES /\ bitat bm i = false.
Proof.
  intros Hw Hl Hi. destruct (Z.ltb_spec i DMA_POOL_PAGES); [|exists true; split; [done|lia]].
  exists (bitat bm i). split; [apply page_used_spec; done || lia|].
  destruct (bitat bm i); auto.
Qed.

Lemma find_run_loop_spec bm n : Forall is_u32 bm -> Z.of_nat (length bm) = DMA_POOL_WORDS ->
  1 <= n -> forall k i run best best_len, scan_inv bm n i run best best_len ->
  i <= DMA_POOL_PAGES -> Z.of_nat k = DMA_POOL_PAGES + 1 - i ->
  exists r, find_run_loop k bm i run best best_len n = Some r /\ best_fit bm n r.
Proof.
  intros Hw Hl Hn. induction k as [|k IH]; intros i run best best_len HI Hi Hk; [lia|].
  cbn [find_run_loop]. pose proof (si_run _ _ _ _ _ _ HI). pose proof (si_len _ _ _ _ _ _ HI).
  destruct (scan_page bm i Hw Hl ltac:(lia)) as (u & Hu & Hcase). run_bind Hu.
  assert (forall b bl, u = true -> n < bl -> best_before bm n (i + 1) b bl ->
    exists r, find_run_loop k bm (i + 1) 0 b bl n = Some r /\ best_fit bm n r) as Hgo.
  { intros b bl -> Hbl Hb. destruct Hcase as [->|Hbit].
    - destruct k; [|lia]. eexists. split; [done|]. by apply (best_before_end bm n b bl).
    - destruct (Z.eq_dec i DMA_POOL_PAGES) as [->|].
      + destruct k; [|lia]. eexists. split; [done|]. by apply (best_before_end bm n b bl).
      + apply IH; [apply scan_restart; done || lia|lia|lia]. }
  unfold DMA_POOL_PAGES in *. destruct u; cbn [negb].
  - destruct ((n <=? run) && (run <? best_len)) eqn:Hc; bool_to_prop.
    + pose proof (scan_take bm n i run best best_len HI Hi Hcase ltac:(lia) ltac:(lia)) as Hb.
      rewrite u32_small by lia. destruct (Z.eqb_spec run n) as [->|Hne]; [|apply Hgo; done || lia].
      destruct Hb as [(_ & ? & _)|(Hh & _ & _ & Hb)]; [unfold DMA_POOL_PAGES in *; lia|].
      eexists. split; [done|]. right. exists n. split_and!; [done|lia|].
      intros a l Hh' Hnl. split; [done|]. intros ->.
      destruct (Z.le_gt_cases (i - n) a) as [|Hlt]; [done|]. apply (Hb a n Hh'); lia.
    + apply Hgo; [done|done|]. apply (scan_skip bm n i run); try done.
      intros []. apply andb_false_iff in Hc as [?|?]; bool_to_prop; lia.
  - destruct Hcase as [Hi' Hbit]. rewrite u32_small by lia.
    apply IH; [by apply scan_free|lia|lia].
Qed.

(** ** Runs of pages *)

(** [bm'] is [bm] with the pages of [lo, hi) set to [b]. *)
Record pages_set (bm bm' : list Z) (lo hi : Z) (b : bool) : Prop := {
  pg_words : Forall is_u32 bm';
  pg_length : length bm' = length bm;
  pg_bits : forall j, bitat bm' j = if in_run lo hi j then b else bitat bm j
}.

Lemma pages_set_refl bm lo b : Forall is_u32 bm -> pages_set bm bm lo lo b.
Proof.
  intros Hw. constructor; [done|done|]. intros j. unfold in_run.
  destruct (Z.leb_spec lo j), (Z.ltb_spec j lo); done || lia.
Qed.

Lemma pages_set_cons bm bm1 bm' lo hi b :
  (forall j, bitat bm1 j = if j =? lo then b else bitat bm j) -> length bm1 = length bm ->
  pages_set bm1 bm' (lo + 1) hi b -> lo < hi -> pages_set bm bm' lo hi b.
Proof.
  intros H1 Hl [Hw Hl' Hb] Hlt. constructor; [done|congruence|]. intros j. rewrite Hb, H1.
  unfold in_run. repeat case_cmp; cbn; done || lia.
Qed.

Lemma page_set_spec bm i : Forall is_u32 bm -> Z.of_nat (length bm) = DMA_POOL_WORDS ->
  0 <= i < DMA_POOL_PAGES ->
  exists bm', page_set bm i = Some bm' /\ Forall is_u32 bm' /\ length bm' = length bm /\
    forall j, bitat bm' j = if j =? i then true else bitat bm j.
Proof.
  intros Hw Hl Hi. unfold DMA_POOL_WORDS, DMA_POOL_PAGES in *.
  destruct (bit_write bm i (fun w => Z.lor w (bit32 (i mod 32))) true Hw)
    as (w & bm' & Hg & Hs & Hr); [lia|auto with cint| |].
  { intros w k _ Hk. by apply set_bit_spec. }
  exists bm'. unfold page_set. by rewrite Hg.
Qed.

Lemma page_clear_spec bm i : Forall is_u32 bm -> Z.of_nat (length bm) = DMA_POOL_WORDS ->
  0 <= i < DMA_POOL_PAGES ->
  exists bm', page_clear bm i = Some bm' /\ Forall is_u32 bm' /\ length bm' = length bm /\
    forall j, bitat bm' j = if j =? i then false else bitat bm j.
Proof.
  intros Hw Hl Hi. unfold DMA_POOL_WORDS, DMA_POOL_PAGES in *.
  destruct (bit_write bm i (fun w => Z.land w (not32 (bit32 (i mod 32)))) false Hw)
    as (w & bm' & Hg & Hs & Hr); [lia| | |].
  { intros w Hu. apply is_u32_land; [done|apply u32_range]. }
  { intros w k _ Hk. by apply clear_bit_spec. }
  exists bm'. unfold page_clear. by rewrite Hg.
Qed.

Lemma set_pages_spec start k : forall bm i, Forall is_u32 bm ->
  Z.of_nat (length bm) = DMA_POOL_WORDS -> 0 <= start -> 0 <= i ->
  start + i + Z.of_nat k <= DMA_POOL_PAGES ->
  (forall j, start + i <= j < start + i + Z.of_nat k -> bitat bm j = false) ->
  exists bm', set_pages k bm start i = Some bm' /\
    pages_set bm bm' (start + i) (start + i + Z.of_nat k) true /\
    count_free bm' 0 DMA_POOL_PAGES = count_free bm 0 DMA_POOL_PAGES - Z.of_nat k.
Proof.
  induction k as [|k IH]; intros bm i Hw Hl Hs Hi Hk Hfree; cbn [set_pages].
  { exists bm. replace (start + i + Z.of_nat 0) with (start + i) by lia.
    split_and!; [done|by apply pages_set_refl|lia]. }
  unfold DMA_POOL_PAGES in *. rewrite !(u32_small (start + i)) by lia.
  destruct (page_set_spec bm (start + i) Hw Hl) as (bm1 & H1 & Hw1 & Hl1 & Hb1);
    [unfold DMA_POOL_PAGES; lia|].
  run_bind H1. destruct (IH bm1 (i + 1) Hw1) as (bm' & H2 & Hp & Hc); [congruence|lia|lia|lia| |].
  { intros j Hj. rewrite Hb1, (proj2 (Z.eqb_neq _ _)) by lia. apply Hfree. lia. }
  exists bm'. split; [done|]. replace (start + (i + 1)) with (start + i + 1) in * by lia.
  replace (start + i + Z.of_nat (S k)) with (start + i + 1 + Z.of_nat k) by lia.
  split; [apply (pages_set_cons bm bm1); done || lia|].
  rewrite Hc, (count_free_take bm bm1 (start + i) 0 1024 (Hfree (start + i) ltac:(lia)) Hb1).
  rewrite (proj2 (Z.leb_le 0 _)), (proj2 (Z.ltb_lt _ 1024)) by lia. cbn. lia.
Qed.

Lemma clear_pages_spec start k : forall bm free i, Forall is_u32 bm ->
  Z.of_nat (length bm) = DMA_POOL_WORDS -> 0 <= start -> 0 <= i ->
  start + i + Z.of_nat k <= DMA_POOL_PAGES -> free = count_free bm 0 DMA_POOL_PAGES ->
  exists bm', clear_pages k bm free start i
      = Some (bm', count_free bm' 0 DMA_POOL_PAGES) /\
    pages_set bm bm' (start + i) (start + i + Z.of_nat k) false.
Proof.
  induction k as [|k IH]; intros bm free i Hw Hl Hs Hi Hk ->; cbn [clear_pages].
  { exists bm. replace (start + i + Z.of_nat 0) with (start + i) by lia.
    split; [done|by apply pages_set_refl]. }
  unfold DMA_POOL_PAGES in *. rewrite !(u32_small (start + i)) by lia.
  pose proof (page_used_spec bm (start + i) Hw Hl ltac:(unfold DMA_POOL_PAGES; lia)) as Hu.
  run_bind Hu. replace (start + i + Z.of_nat (S k)) with (start + (i + 1) + Z.of_nat k) by lia.
  destruct (bitat bm (start + i)) eqn:Hbit.
  - destruct (page_clear_spec bm (start + i) Hw Hl) as (bm1 & H1 & Hw1 & Hl1 & Hb1);
      [unfold DMA_POOL_PAGES; lia|].
    run_bind H1. pose proof (count_free_give bm bm1 (start + i) 0 1024 Hbit Hb1) as Hc.
    rewrite (proj2 (Z.leb_le 0 _)), (proj2 (Z.ltb_lt _ 1024)) in Hc by lia. cbn in Hc.
    pose proof (count_free_bounds bm1 0 1024 ltac:(lia)).
    rewrite <- Hc, u32_small by lia.
    destruct (IH bm1 (count_free bm1 0 1024) (i + 1) Hw1) as (bm' & H2 & Hp);
      [congruence|lia|lia|lia|done|].
    exists bm'. split; [done|]. replace (start + (i + 1)) with (start + i + 1) in * by lia.
    apply (pages_set_cons bm bm1); done || lia.
  - destruct (IH bm (count_free bm 0 1024) (i + 1) Hw Hl Hs) as (bm' & H2 & Hp); [lia|lia|done|].
    exists bm'. split; [done|]. replace (start + (i + 1)) with (start + i + 1) in * by lia.
    apply (pages_set_cons bm bm); [|done|done|lia].
    intros j. destruct (Z.eqb_spec j (start + i)) as [->|]; done.
Qed.

(** ** The search *)

(** C36: find_run scans the 1024 pages of the reserve, stays inside its bitmap and returns the
    start of the smallest maximal run of free pages that holds [n], the lowest one among
    equals, so that a larger run is never split while a tighter one exists; it returns
    DMA_POOL_PAGES exactly when no run of free pages is long enough. *)
Theorem find_run_best_fit bm n : Forall is_u32 bm -> Z.of_nat (length bm) = DMA_POOL_WORDS ->
  1 <= n <= DMA_POOL_PAGES -> exists r, find_run bm n = Some r /\ best_fit bm n r.
Proof.
  intros Hw Hl Hn.
  apply find_run_loop_spec; [done|done|lia|apply scan_start; lia|unfold DMA_POOL_PAGES; lia..].
Qed.

Lemma find_run_best_fit_witness :
  exists r, find_run (0xFF00FF0F :: 0xFFFFFFFC :: replicate 30 0xFFFFFFFF) 3 = Some r /\ r = 4 /\
    best_fit (0xFF00FF0F :: 0xFFFFFFFC :: replicate 30 0xFFFFFFFF) 3 r.
Proof.
  destruct (find_run_best_fit (0xFF00FF0F :: 0xFFFFFFFC :: replicate 30 0xFFFFFFFF) 3)
    as (r & Hr & Hb).
  - do 2 (apply Forall_cons; split; [vm_compute; split; congruence|]).
    apply Forall_replicate. vm_compute. split; congruence.
  - reflexivity.
  - vm_compute. split; congruence.
  - exists r. split_and!; [exact Hr| |exact Hb]. vm_compute in Hr. congruence.
Defined.

(** ** Allocation and release *)

(** The pages [lo, lo + n) of the reserve go from free to used ([b]) or back. *)
Record pool_moved (d d' : dma_pool) (lo n : Z) (b : bool) : Prop := {
  pm_wf : wf_pool d';
  pm_base : s_base_phys d' = s_base_phys d;
  pm_pages : pages_set (s_map d) (s_map d') lo (lo + n) b
}.

Lemma wf_free_range d : wf_pool d -> s_base_phys d <> 0 -> 0 <= s_free d <= DMA_POOL_PAGES.
Proof.
  intros H Hb. rewrite (wfd_free d H Hb). pose proof (count_free_bounds (s_map d) 0 DMA_POOL_PAGES).
  unfold DMA_POOL_PAGES in *. lia.
Qed.

Lemma page_address d i : wf_pool d -> 0 <= i < DMA_POOL_PAGES ->
  s_base_phys d ⊞ (i ⊠ PAGE_SIZE) = s_base_phys d + i * PAGE_SIZE.
Proof.
  intros H Hi. destruct (wfd_base d H) as (_ & ? & ?). unfold DMA_POOL_PAGES, PAGE_SIZE in *.
  rewrite (u32_small (i * 4096)) by lia. apply u32_small. lia.
Qed.

(** A request is served by the tightest hole, or refused because no hole holds it. *)
Definition alloc_result (d d' : dma_pool) (n r : Z) : Prop :=
  (exists a, best_fit (s_map d) n a /\ 0 <= a /\ a + n <= DMA_POOL_PAGES /\
     (forall j, a <= j < a + n -> bitat (s_map d) j = false) /\
     r = s_base_phys d + a * PAGE_SIZE /\ pool_moved d d' a n true /\
     s_free d' = s_free d - n) \/
  (r = 0 /\ d' = d /\ (s_base_phys d <> 0 -> 1 <= n ->
     forall a l, hole (s_map d) a l -> l < n)).

Lemma dma_pool_alloc_spec d n : wf_pool d -> 0 <= n ->
  exists r d', dma_pool_alloc d n = Some (r, d') /\ wf_pool d' /\ alloc_result d d' n r.
Proof.
  intros Hwf Hn. unfold dma_pool_alloc.
  destruct ((s_base_phys d =? 0) || (n =? 0) || (DMA_POOL_PAGES <? n)) eqn:Hc.
  { exists 0, d. split_and!; [done|done|]. right. split_and!; [done|done|].
    intros Hb H1 a l Hh. pose proof (hole_in _ _ _ Hh).
    apply orb_true_iff in Hc as [Hc|Hc]; [apply orb_true_iff in Hc as [?|?]|]; bool_to_prop; lia. }
  bool_to_prop.
  destruct (find_run_loop_spec (s_map d) n (wfd_words d Hwf) (wfd_length d Hwf) ltac:(lia)
              (Z.to_nat (DMA_POOL_PAGES + 1)) 0 0 DMA_POOL_PAGES (DMA_POOL_PAGES + 1))
    as (a & Ha & Hbf); [apply scan_start; lia|unfold DMA_POOL_PAGES; lia..|].
  fold (find_run (s_map d) n) in Ha. run_bind Ha.
  destruct (Z.eqb_spec a DMA_POOL_PAGES) as [->|Hne].
  - exists 0, d. split_and!; [done|done|]. right. split_and!; [done|done|].
    intros _ _ a l Hh. destruct Hbf as [[_ Hno]|(l' & Hh' & _)]; [by eapply Hno|].
    pose proof (hole_in _ _ _ Hh'). pose proof (hole_pos _ _ _ Hh'). lia.
  - pose proof Hbf as Hbf'. destruct Hbf' as [[? _]|(l & [Hp [Hi Hi'] Hfree _ _] & Hnl & _)]; [done|].
    assert (forall j, a <= j < a + n -> bitat (s_map d) j = false) as Hfr
      by (intros j Hj; apply Hfree; lia).
    destruct (set_pages_spec a (Z.to_nat n) (s_map d) 0 (wfd_words d Hwf) (wfd_length d Hwf))
      as (bm & Hbm & Hps & Hcf); rewrite ?Z.add_0_r, ?Z2Nat.id in * by lia; [lia|lia|lia|done|].
    run_bind Hbm. pose proof (wf_free_range d Hwf ltac:(done)).
    pose proof (count_free_bounds bm 0 DMA_POOL_PAGES ltac:(done)).
    rewrite <- (wfd_free d Hwf) in Hcf by done. unfold DMA_POOL_PAGES in *.
    rewrite page_address, (u32_small (s_free d - n)) by (unfold DMA_POOL_PAGES; done || lia).
    assert (wf_pool (mk_pool (s_base_phys d) bm (s_free d - n))) as Hwf'.
    { destruct Hwf, Hps. constructor; cbn; [done|congruence|done|]. by rewrite <- Hcf. }
    do 2 eexists. split; [done|]. split; [done|]. left. exists a.
    unfold DMA_POOL_PAGES. split_and!; done || lia.
Qed.

Lemma dma_pool_refuses d n : s_base_phys d = 0 \/ n = 0 -> dma_pool_alloc d n = Some (0, d).
Proof. unfold dma_pool_alloc. intros [-> | ->]; [done|]. by rewrite orb_true_r. Qed.

Lemma dma_pool_free_foreign d phys n : wf_pool d -> 0 <= phys -> 0 <= n < 0x100000 ->
  phys + n * PAGE_SIZE < 0x100000000 ->
  s_base_phys d = 0 \/ phys < s_base_phys d \/
    s_base_phys d + DMA_POOL_PAGES * PAGE_SIZE < phys + n * PAGE_SIZE ->
  dma_pool_free d phys n = Some (false, d).
Proof.
  intros Hwf Hp Hn Hlim Hout. destruct (wfd_base d Hwf) as (_ & ? & ?).
  unfold dma_pool_free, DMA_POOL_PAGES, PAGE_SIZE in *.
  change (1024 ⊠ 4096) with 4194304. rewrite (u32_small (n * 4096)), !u32_small by lia.
  assert ((s_base_phys d =? 0) || (phys <? s_base_phys d)
          || (s_base_phys d + 4194304 <? phys + n * 4096) = true) as ->; [|done].
  rewrite !orb_true_iff, Z.eqb_eq, !Z.ltb_lt. lia.
Qed.

Lemma dma_pool_free_spec d a n : wf_pool d -> s_base_phys d <> 0 -> 0 <= a -> 0 <= n ->
  a + n <= DMA_POOL_PAGES ->
  exists d', dma_pool_free d (s_base_phys d + a * PAGE_SIZE) n = Some (true, d') /\
    pool_moved d d' a n false.
Proof.
  intros Hwf Hb Ha Hn Hlim. destruct (wfd_base d Hwf) as (_ & ? & ?).
  unfold dma_pool_free, DMA_POOL_PAGES, PAGE_SIZE in *.
  change (1024 ⊠ 4096) with 4194304.
  rewrite (u32_small (n * 4096)), !u32_small by lia.
  rewrite (proj2 (Z.eqb_neq _ _)), (proj2 (Z.ltb_ge _ (s_base_phys d))) by lia.
  rewrite (proj2 (Z.ltb_ge _ _)) by lia. cbn [orb].
  replace (s_base_phys d + a * 4096 - s_base_phys d) with (a * 4096) by lia.
  rewrite Z.div_mul by lia.
  destruct (clear_pages_spec a (Z.to_nat n) (s_map d) (s_free d) 0 (wfd_words d Hwf)
              (wfd_length d Hwf)) as (bm & Hbm & Hps); [done|done| |by apply Hwf|].
  { unfold DMA_POOL_PAGES. lia. }
  run_bind Hbm. rewrite ?Z.add_0_r, ?Z2Nat.id in * by lia.
  eexists. split; [done|]. constructor; [|done|done].
  destruct Hwf, Hps. by constructor; cbn; [|congruence|..].
Qed.
