(* ===== verification/Dma.v ===== *)
(** * Physical memory given to drivers (kernel/syscall/driver.c)

    The DMA buffers of the drivers: sys_dma_alloc, sys_dma_free, sys_dma_verify and the
    cleanup of a dead process, over the reserve of DmaPool, the frame allocator of Pmm and
    the table [s_dma] of 64 slots; and sys_mmap_phys, which maps physical ranges.

    A call is a value of [call], the place it has reached: each critical section (of the
    reserve, of the frame allocator, of [s_dma_lock]) is one turn of [run_call], and calls
    interleave freely between turns.  A call holds a region between the section that takes
    it and the section that hands it on.  The result of vregion_alloc is an argument; the
    mapping of the pages changes nothing modelled here. *)

From S2P Require Import Prelude Bitmap Pmm DmaPool.

Definition DMA_TRACK_MAX : Z := 64.

Record dma_region_t := mk_region {
  r_used : bool; owner_pid : Z; r_virt : Z; r_phys : Z; r_pages : Z
}.

Definition blank_region : dma_region_t := mk_region false 0 0 0 0.

(** ** The table, one section of [s_dma_lock] each *)

Definition owned_by (pid : Z) (r : dma_region_t) : bool := r_used r && (owner_pid r =? pid).

Definition dma_track_pages_of (t : list dma_region_t) (pid : Z) : Z :=
  foldl (fun n r => if owned_by pid r then n ⊞ r_pages r else n) 0 t.

Definition dma_track_slot_pressure (t : list dma_region_t) : Z :=
  let used := foldl (fun n r => if r_used r then n ⊞ 1 else n) 0 t in
  Z.lor (u32 (Z.shiftl used 16)) DMA_TRACK_MAX.

(** [None]: the table is full. *)
Fixpoint dma_track (t : list dma_region_t) (pid virt phys pages : Z)
    : option (list dma_region_t) :=
  match t with
  | [] => None
  | r :: rest =>
      if negb (r_used r) then Some (mk_region true pid virt phys pages :: rest)
      else rest' ← dma_track rest pid virt phys pages; Some (r :: rest')
  end.

Definition clear_used (r : dma_region_t) : dma_region_t :=
  mk_region false (owner_pid r) (r_virt r) (r_phys r) (r_pages r).

(** [None]: no such region of this process. *)
Fixpoint dma_untrack (t : list dma_region_t) (virt pid : Z)
    : option (Z * Z * list dma_region_t) :=
  match t with
  | [] => None
  | r :: rest =>
      if r_used r && (r_virt r =? virt) && (owner_pid r =? pid)
      then Some (r_phys r, r_pages r, clear_used r :: rest)
      else '(phys, pages, rest') ← dma_untrack rest virt pid; Some (phys, pages, r :: rest')
  end.

Definition dma_region_owned (t : list dma_region_t) (phys len pid : Z) : bool :=
  existsb (fun r => owned_by pid r && (r_phys r <=? phys)
                    && (phys ⊞ len <=? r_phys r ⊞ (r_pages r ⊠ PAGE_SIZE))) t.

(** One turn of the loop of [dma_cleanup]. *)
Definition dma_cleanup_slot (t : list dma_region_t) (pid i : Z)
    : option (option (Z * Z) * list dma_region_t) :=
  r ← geti t i;
  if owned_by pid r then
    t' ← seti t i (clear_used r); Some (Some (r_phys r, r_pages r), t')
  else Some (None, t).

(** ** The calls *)

Record dma_sys := mk_sys { pool : dma_pool; frames : pmm; s_dma : list dma_region_t }.

Inductive call :=
  | AllocEntry (driver : bool) (pid size : Z)
  | AllocFrames (pid pages : Z)
  | AllocMap (pid phys pages : Z)
  | AllocTrack (pid virt phys pages : Z)
  | FreeEntry (driver : bool) (pid virt : Z)
  | Cleanup (pid i : Z)
  | ReleasePool (phys pages : Z) (next : call)
  | ReleaseFrames (phys pages : Z) (next : call)
  | Done (eax : Z) (ebx : option Z).

(** *** sys_dma_alloc *)

Definition dma_alloc_enter (σ : dma_sys) (driver : bool) (pid size : Z)
    : option (dma_sys * call) :=
  if negb driver || (size =? 0) then Some (σ, Done 0 None)
  else
    let pages := ALIGN_UP size PAGE_SIZE / PAGE_SIZE in
    '(phys, d) ← dma_pool_alloc (pool σ) pages;
    Some (mk_sys d (frames σ) (s_dma σ),
          if phys =? 0 then AllocFrames pid pages else AllocMap pid phys pages).

Definition dma_alloc_frames (σ : dma_sys) (pid pages : Z) : option (dma_sys * call) :=
  '(phys, f) ← pmm_alloc_contiguous (frames σ) pages PMM_ZONE_PREFER_LOW;
  Some (mk_sys (pool σ) f (s_dma σ),
        if phys =? 0 then Done 0 None else AllocMap pid phys pages).

Definition dma_alloc_map (virt : Z) (σ : dma_sys) (pid phys pages : Z)
    : option (dma_sys * call) :=
  Some (σ, if virt =? 0 then ReleasePool phys pages (Done 0 None)
           else AllocTrack pid virt phys pages).

Definition dma_alloc_track (σ : dma_sys) (pid virt phys pages : Z)
    : option (dma_sys * call) :=
  match dma_track (s_dma σ) pid virt phys pages with
  | Some t => Some (mk_sys (pool σ) (frames σ) t, Done virt (Some phys))
  | None => Some (σ, ReleasePool phys pages (Done 0 None))
  end.

(** *** sys_dma_free, dma_cleanup and dma_release_phys *)

Definition sys_dma_free (σ : dma_sys) (driver : bool) (pid virt : Z)
    : option (dma_sys * call) :=
  if negb driver then Some (σ, Done (-1) None)
  else match dma_untrack (s_dma σ) virt pid with
       | None => Some (σ, Done (-1) None)
       | Some (phys, pages, t) =>
           Some (mk_sys (pool σ) (frames σ) t, ReleasePool phys pages (Done 0 None))
       end.

Definition dma_cleanup (σ : dma_sys) (pid i : Z) : option (dma_sys * call) :=
  if DMA_TRACK_MAX <=? i then Some (σ, Done 0 None)
  else
    '(mine, t) ← dma_cleanup_slot (s_dma σ) pid i;
    Some (mk_sys (pool σ) (frames σ) t,
          match mine with
          | Some (phys, pages) => ReleasePool phys pages (Cleanup pid (i + 1))
          | None => Cleanup pid (i + 1)
          end).

Definition release_to_pool (σ : dma_sys) (phys pages : Z) (next : call)
    : option (dma_sys * call) :=
  '(ours, d) ← dma_pool_free (pool σ) phys pages;
  Some (mk_sys d (frames σ) (s_dma σ),
        if (ours : bool) then next else ReleaseFrames phys pages next).

Definition release_to_frames (σ : dma_sys) (phys pages : Z) (next : call)
    : option (dma_sys * call) :=
  f ← pmm_free_contiguous (frames σ) phys pages;
  Some (mk_sys (pool σ) f (s_dma σ), next).

(** One critical section of a call; [Done] has the result and what is written to EBX;
    [virt] is what vregion_alloc returns. *)
Definition run_call (virt : Z) (σ : dma_sys) (c : call) : option (dma_sys * call) :=
  match c with
  | AllocEntry driver pid size => dma_alloc_enter σ driver pid size
  | AllocFrames pid pages => dma_alloc_frames σ pid pages
  | AllocMap pid phys pages => dma_alloc_map virt σ pid phys pages
  | AllocTrack pid v phys pages => dma_alloc_track σ pid v phys pages
  | FreeEntry driver pid v => sys_dma_free σ driver pid v
  | Cleanup pid i => dma_cleanup σ pid i
  | ReleasePool phys pages next => release_to_pool σ phys pages next
  | ReleaseFrames phys pages next => release_to_frames σ phys pages next
  | Done _ _ => Some (σ, c)
  end.

Definition sys_dma_verify (driver : bool) (t : list dma_region_t) (phys len pid : Z) : Z :=
  if negb driver then 0 else if dma_region_owned t phys len pid then 1 else 0.

(** [dma_release_phys]: the reserve first, the frame allocator when the range is foreign. *)
Definition dma_release_phys (d : dma_pool) (s : pmm) (phys pages : Z)
    : option (dma_pool * pmm) :=
  '(ours, d') ← dma_pool_free d phys pages;
  if (ours : bool) then Some (d', s)
  else s' ← pmm_free_contiguous s phys pages; Some (d', s').

(** ** sys_mmap_phys *)

Definition mmap_kstart : Z := 0x00100000.

(** [for (p = 0; p < pages; p++) if (pmm_is_frame_allocated(...)) return 0;] *)
Fixpoint any_allocated (k : nat) (s : pmm) (phys p : Z) : option bool :=
  match k with
  | O => Some false
  | S k' =>
      a ← pmm_is_frame_allocated s (phys ⊞ (p ⊠ PAGE_SIZE));
      if (a : bool) then Some true else any_allocated k' s phys (p + 1)
  end.

(** The frames to map, or the refusal.  [kernel_end] is [_kernel_phys_end]. *)
Definition mmap_phys_frames (driver : bool) (s : pmm) (kernel_end phys0 size0 : Z)
    : option (option (list Z)) :=
  if negb driver || (size0 =? 0) then Some None
  else
    let offset := Z.land phys0 0xFFF in
    let phys := Z.land phys0 (not32 0xFFF) in
    let size := ALIGN_UP (size0 ⊞ offset) PAGE_SIZE in
    let pages := size / PAGE_SIZE in
    let phys_end := phys ⊞ size in
    let kend := ALIGN_UP kernel_end PAGE_SIZE in
    if (phys =? 0) || (phys <? 0x1000) then Some None
    else if (mmap_kstart <? phys_end) && (phys <? kend) then Some None
    else if 4096 <? pages then Some None
    else
      let legacy_vga := (0xA0000 <=? phys) && (phys_end <=? 0xC0000) in
      denied ← (if (phys <? pmm_get_ram_top s) && negb legacy_vga
                then any_allocated (Z.to_nat pages) s phys 0 else Some false);
      if (denied : bool) then Some None
      else Some (Some (map (fun i => phys ⊞ (i ⊠ PAGE_SIZE)) (seqZ 0 pages))).

(** The virtual address returned and the pages mapped, [(virtual, physical)]; [virt] is
    the result of vregion_alloc. *)
Definition sys_mmap_phys (driver : bool) (s : pmm) (kernel_end phys0 size0 virt : Z)
    : option (Z * list (Z * Z)) :=
  r ← mmap_phys_frames driver s kernel_end phys0 size0;
  match r with
  | None => Some (0, [])
  | Some fs =>
      if virt =? 0 then Some (0, [])
      else Some (virt ⊞ Z.land phys0 0xFFF,
                 imap (fun i pa => (virt ⊞ (Z.of_nat i ⊠ PAGE_SIZE), pa)) fs)
  end.

(** ** Who holds what *)

(** Regions are (physical address, pages). *)
Fixpoint held (c : call) : list (Z * Z) :=
  match c with
  | AllocMap _ phys pages | AllocTrack _ _ phys pages => [(phys, pages)]
  | ReleasePool phys pages next | ReleaseFrames phys pages next => (phys, pages) :: held next
  | _ => []
  end.

Definition row_region (r : dma_region_t) : list (Z * Z) :=
  if r_used r then [(r_phys r, r_pages r)] else [].

Definition tracked (t : list dma_region_t) : list (Z * Z) := t ≫= row_region.

(** The reserve, the allocator and the table, and the calls in progress. *)
Record world := mk_world { sys : dma_sys; calls : list call }.

Definition claims (w : world) : list (Z * Z) := (calls w ≫= held) ++ tracked (s_dma (sys w)).

Definition frame_of (r : Z * Z) : Z := r.1 / PAGE_SIZE.
Definition covers (j : Z) (r : Z * Z) : bool := in_run (frame_of r) (frame_of r + r.2) j.

(** How many of the regions [C] hold frame [j]. *)
Definition cover (C : list (Z * Z)) (j : Z) : Z :=
  Z.of_nat (length (filter (fun r => covers j r = true) C)).

Definition pool_base (d : dma_pool) : Z := s_base_phys d / PAGE_SIZE.

(** The frame is one of the reserve's. *)
Definition in_pool (d : dma_pool) (j : Z) : bool :=
  negb (s_base_phys d =? 0) && in_run (pool_base d) (pool_base d + DMA_POOL_PAGES) j.

(** What a region is: whole pages, inside the reserve or outside it, allocated there. *)
Record region_ok (d : dma_pool) (s : pmm) (r : Z * Z) : Prop := {
  ro_page : r.1 = frame_of r * PAGE_SIZE;
  ro_size : 1 <= r.2;
  ro_range : 1 <= frame_of r /\ frame_of r + r.2 <= s_alloc_ceiling_frame s;
  ro_place : (forall j, covers j r = true -> in_pool d j = true) \/
             (forall j, covers j r = true -> in_pool d j = false);
  ro_used : forall j, covers j r = true -> used s j = true
}.

Definition outside (d : dma_pool) (r : Z * Z) : Prop :=
  forall j, covers j r = true -> in_pool d j = false.

(** The books: no frame is held twice, and a page of the reserve is marked in use exactly
    while somebody holds it. *)
Record ledger (d : dma_pool) (s : pmm) (C : list (Z * Z)) : Prop := {
  lg_pmm : wf_pmm s /\ s_alloc_ceiling_frame s < MAX_FRAMES;
  lg_pool : wf_pool d;
  lg_reserve : s_base_phys d <> 0 ->
    1 <= pool_base d /\ pool_base d + DMA_POOL_PAGES <= s_alloc_ceiling_frame s;
  lg_reserved : forall j, in_pool d j = true -> used s j = true;
  lg_regions : Forall (region_ok d s) C;
  lg_once : forall j, cover C j <= 1;
  lg_exact : s_base_phys d <> 0 -> forall i, 0 <= i < DMA_POOL_PAGES ->
    bitat (s_map d) i = (cover C (pool_base d + i) =? 1)
}.

(** A foreign release is under way only for a region outside the reserve. *)
Fixpoint call_ok (d : dma_pool) (c : call) : Prop :=
  match c with
  | AllocFrames _ pages => 0 <= pages < MAX_FRAMES
  | AllocEntry _ _ size => is_u32 size
  | Cleanup _ i => 0 <= i
  | ReleasePool _ _ next => call_ok d next
  | ReleaseFrames phys pages next => outside d (phys, pages) /\ call_ok d next
  | _ => True
  end.

Definition entry (c : call) : Prop :=
  match c with
  | AllocEntry _ _ size => is_u32 size
  | FreeEntry _ _ _ => True
  | Cleanup _ i => i = 0
  | _ => False
  end.

(** New calls enter, calls run one section, and the rest of the system allocates and frees
    frames that are not the drivers'. *)
Inductive step : world -> world -> Prop :=
  | st_enter w c : entry c -> step w (mk_world (sys w) (calls w ++ [c]))
  | st_run σ l1 c l2 virt σ' c' : run_call virt σ c = Some (σ', c') ->
      step (mk_world σ (l1 ++ c :: l2)) (mk_world σ' (l1 ++ c' :: l2))
  | st_others w s' : wf_pmm s' ->
      s_alloc_ceiling_frame s' = s_alloc_ceiling_frame (frames (sys w)) ->
      (forall j, used (frames (sys w)) j = true ->
         in_pool (pool (sys w)) j = true \/ 1 <= cover (claims w) j -> used s' j = true) ->
      step w (mk_world (mk_sys (pool (sys w)) s' (s_dma (sys w))) (calls w)).

(** Boot: the pool is initialised, the table is empty, nobody has called. *)
Definition pool_off : dma_pool := mk_pool 0 (replicate (Z.to_nat DMA_POOL_WORDS) 0) 0.

Definition boot (s : pmm) : option world :=
  '(d, f) ← dma_pool_init pool_off s;
  Some (mk_world (mk_sys d f (replicate (Z.to_nat DMA_TRACK_MAX) blank_region)) []).

Definition world_ok (w : world) : Prop :=
  ledger (pool (sys w)) (frames (sys w)) (claims w) /\
  Forall (call_ok (pool (sys w))) (calls w) /\
  length (s_dma (sys w)) = Z.to_nat DMA_TRACK_MAX.

(** ** Algebra of covers *)

Lemma cover_cons r C j : cover (r :: C) j = (if covers j r then 1 else 0) + cover C j.
Proof.
  unfold cover. destruct (covers j r) eqn:H.
  - rewrite filter_cons_True by done. cbn [length]. lia.
  - rewrite filter_cons_False by congruence. lia.
Qed.

Lemma cover_perm C C' j : Permutation C C' -> cover C j = cover C' j.
Proof. intros Hp. unfold cover. by rewrite Hp. Qed.

Lemma cover_nonneg C j : 0 <= cover C j.
Proof. unfold cover. lia. Qed.

Lemma ledger_perm d s C C' : Permutation C C' -> ledger d s C -> ledger d s C'.
Proof.
  intros Hp []. constructor; try done.
  - by rewrite <- Hp.
  - intros j. by rewrite <- (cover_perm C C').
  - intros Hb i Hi. rewrite <- (cover_perm C C') by done. auto.
Qed.

Lemma covers_spec j r : covers j r = true <-> frame_of r <= j < frame_of r + r.2.
Proof. unfold covers, in_run. rewrite andb_true_iff, Z.leb_le, Z.ltb_lt. lia. Qed.

Lemma in_pool_spec d j : in_pool d j = true <->
  s_base_phys d <> 0 /\ pool_base d <= j < pool_base d + DMA_POOL_PAGES.
Proof.
  unfold in_pool, in_run. rewrite !andb_true_iff, negb_true_iff, Z.eqb_neq, Z.leb_le, Z.ltb_lt.
  tauto.
Qed.

Lemma covers_first r : 1 <= r.2 -> covers (frame_of r) r = true.
Proof. intros. apply covers_spec. lia. Qed.

(** ** Taking and giving regions *)

Lemma region_ok_base d d' s r : s_base_phys d' = s_base_phys d ->
  region_ok d s r -> region_ok d' s r.
Proof.
  intros Hb [? ? ? Hp ?]. constructor; try done.
  unfold in_pool, pool_base in *. by rewrite Hb.
Qed.

Lemma pool_page d s C i : ledger d s C -> s_base_phys d <> 0 -> 0 <= i < DMA_POOL_PAGES ->
  in_pool d (pool_base d + i) = true.
Proof. intros _ Hb Hi. apply in_pool_spec. lia. Qed.

Lemma base_frame d i : wf_pool d -> (s_base_phys d + i * PAGE_SIZE) / PAGE_SIZE = pool_base d + i.
Proof. intros H. unfold pool_base. apply Z.div_add. done. Qed.

Lemma base_page d : wf_pool d -> s_base_phys d = pool_base d * PAGE_SIZE.
Proof. intros H. destruct (wfd_base d H) as (? & _). unfold pool_base, PAGE_SIZE in *. zlia. Qed.

(** The pages [a, a + n) of the reserve enter or leave the books with their region. *)
Lemma covers_pool_region d a n i : wf_pool d ->
  covers (pool_base d + i) (s_base_phys d + a * PAGE_SIZE, n) = in_run a (a + n) i.
Proof.
  intros H. unfold covers, frame_of. cbn [fst snd]. rewrite (base_frame d a H).
  unfold in_run. repeat case_cmp; done || lia.
Qed.

Lemma ledger_take_pool d d' s C a n : ledger d s C -> s_base_phys d <> 0 -> 1 <= n ->
  0 <= a -> a + n <= DMA_POOL_PAGES ->
  (forall j, a <= j < a + n -> bitat (s_map d) j = false) -> pool_moved d d' a n true ->
  ledger d' s ((s_base_phys d + a * PAGE_SIZE, n) :: C).
Proof.
  intros HL Hb Hn Ha Hlim Hfree [Hwf' Hbase [_ _ Hbits]].
  pose proof (lg_pool _ _ _ HL) as Hwf. pose proof (lg_reserve _ _ _ HL Hb) as Hres.
  assert (forall i, 0 <= i < DMA_POOL_PAGES -> in_run a (a + n) i = true ->
            cover C (pool_base d + i) = 0) as Hzero.
  { intros i Hi Hr. pose proof (lg_once _ _ _ HL (pool_base d + i)).
    pose proof (cover_nonneg C (pool_base d + i)). pose proof (lg_exact _ _ _ HL Hb i Hi) as He.
    unfold in_run in Hr. bool_to_prop. rewrite Hfree in He by lia. symmetry in He. bool_to_prop. lia. }
  set (r := (s_base_phys d + a * PAGE_SIZE, n)).
  assert (frame_of r = pool_base d + a) as Hfr by (by apply base_frame).
  assert (forall j, covers j r = true -> in_pool d j = true) as Hin.
  { intros j Hj. apply covers_spec in Hj. cbn [snd] in Hj. apply in_pool_spec. subst r; cbn in *. lia. }
  assert (forall j, in_pool d' j = in_pool d j) as Hip
    by (intros; unfold in_pool, pool_base; by rewrite Hbase).
  assert (pool_base d' = pool_base d) as Hpb by (unfold pool_base; by rewrite Hbase).
  constructor; [apply HL|done|by rewrite Hpb, Hbase|..].
  - intros j. rewrite Hip. apply HL.
  - apply Forall_cons. split; [|eapply Forall_impl; [apply HL|intros x; by apply region_ok_base]].
    constructor; [|done|cbn; lia|left; intros j Hj; rewrite Hip; auto|].
    + rewrite Hfr. cbn. rewrite (base_page d Hwf) at 1. lia.
    + intros j Hj. apply (lg_reserved _ _ _ HL). auto.
  - intros j. rewrite cover_cons. destruct (covers j r) eqn:Hj; [|apply HL].
    pose proof (Hin j Hj) as Hp. apply in_pool_spec in Hp.
    replace j with (pool_base d + (j - pool_base d)) in Hj |- * by lia.
    unfold r in Hj; rewrite covers_pool_region in Hj by done. rewrite Hzero by (done || lia). lia.
  - rewrite Hpb, Hbase. intros _ i Hi. rewrite Hbits, cover_cons. unfold r.
    rewrite covers_pool_region by done. destruct (in_run a (a + n) i) eqn:Hr.
    + by rewrite Hzero.
    + by apply HL.
Qed.

Lemma ledger_give_pool d s C r : ledger d s (r :: C) ->
  (forall j, covers j r = true -> in_pool d j = true) ->
  exists d', dma_pool_free d r.1 r.2 = Some (true, d') /\ s_base_phys d' = s_base_phys d /\
    ledger d' s C /\ wf_pool d' /\ forall j, covers j r = true -> bitat (s_map d') (j - pool_base d) = false.
Proof.
  intros HL Hin. pose proof (lg_pool _ _ _ HL) as Hwf.
  pose proof (lg_regions _ _ _ HL) as Hall. apply Forall_cons in Hall as [Hr HC].
  pose proof (ro_size _ _ _ Hr) as Hn.
  assert (in_pool d (frame_of r) = true) as Hf by (by apply Hin, covers_first).
  apply in_pool_spec in Hf as [Hb Hf].
  assert (in_pool d (frame_of r + r.2 - 1) = true) as Hl by (apply Hin, covers_spec; lia).
  apply in_pool_spec in Hl as [_ Hl]. set (a := frame_of r - pool_base d).
  assert (r = (s_base_phys d + a * PAGE_SIZE, r.2)) as Hre.
  { rewrite (surjective_pairing r) at 1. f_equal. rewrite (ro_page _ _ _ Hr).
    rewrite (base_page d Hwf). unfold a. lia. }
  destruct (dma_pool_free_spec d a r.2 Hwf Hb) as (d' & Hd & [Hwf' Hbase [_ _ Hbits]]);
    [unfold a; lia..|].
  exists d'. rewrite Hre at 1. cbn [fst]. split; [done|]. split; [done|].
  assert (forall j, in_pool d' j = in_pool d j) as Hip
    by (intros; unfold in_pool, pool_base; by rewrite Hbase).
  assert (pool_base d' = pool_base d) as Hpb by (unfold pool_base; by rewrite Hbase).
  split; [|split; [done|]].
  - constructor; [apply HL|done|rewrite Hpb, Hbase; apply HL|intros j; rewrite Hip; apply HL|..].
    + eapply Forall_impl; [exact HC|intros x; by apply region_ok_base].
    + intros j. pose proof (lg_once _ _ _ HL j) as Ho. rewrite cover_cons in Ho. 
      destruct (covers j r); lia.
    + rewrite Hpb, Hbase. intros _ i Hi. rewrite Hbits.
      pose proof (lg_once _ _ _ HL (pool_base d + i)) as Ho.
      pose proof (lg_exact _ _ _ HL Hb i Hi) as He. rewrite cover_cons in Ho, He.
      rewrite Hre, covers_pool_region in Ho, He by done. cbn [snd] in *.
      pose proof (cover_nonneg C (pool_base d + i)).
      destruct (in_run a (a + r.2) i); [symmetry; apply Z.eqb_neq; lia|done].
  - intros j Hj. rewrite Hbits. apply covers_spec in Hj.
    unfold in_run, a. rewrite (proj2 (Z.leb_le _ _)), (proj2 (Z.ltb_lt _ _)) by lia. done.
Qed.

(** The frame allocator may change as long as the drivers' frames stay allocated. *)
Lemma ledger_env d s s' C : ledger d s C -> wf_pmm s' ->
  s_alloc_ceiling_frame s' = s_alloc_ceiling_frame s ->
  (forall j, used s j = true -> in_pool d j = true \/ 1 <= cover C j -> used s' j = true) ->
  ledger d s' C.
Proof.
  intros HL Hwf' Hc Hk. constructor; rewrite ?Hc;
    [split; [done|apply HL]|apply HL|apply HL| | |apply HL|apply HL].
  - intros j Hj. apply Hk; [by apply (lg_reserved _ _ _ HL)|by left].
  - pose proof (lg_regions _ _ _ HL) as Hall. rewrite !Forall_forall in *. intros r Hr.
    destruct (Hall r Hr). constructor; try done; [by rewrite Hc|]. intros j Hj.
    apply Hk; [auto|]. right. unfold cover.
    apply elem_of_Permutation in Hr as [C' ->].
    rewrite filter_cons_True by done. cbn [length]. lia.
Qed.

Lemma ledger_take_frames d s s' C f n : ledger d s C -> wf_pmm s' ->
  1 <= n -> 1 <= f -> f + n <= s_alloc_ceiling_frame s -> run_free s f n ->
  range_changed s s' f (f + n) true -> ledger d s' ((f * PAGE_SIZE, n) :: C).
Proof.
  intros HL Hwf' Hn Hf Hc Hfree Hrc. set (r := (f * PAGE_SIZE, n)).
  assert (frame_of r = f) as Hfr by (apply Z.div_mul; done).
  assert (forall j, used s j = true -> used s' j = true) as Hmono.
  { intros j Hj. rewrite (rc_bits _ _ _ _ _ Hrc), Hj. by destruct (in_run _ _ _). }
  assert (ledger d s' C) as HL'.
  { apply (ledger_env d s); try done; [apply Hrc|auto]. }
  assert (forall j, covers j r = true -> used s j = false) as Hnot.
  { intros j Hj. apply covers_spec in Hj. apply Hfree. subst r; cbn in *. lia. }
  constructor; [apply HL'|apply HL'|apply HL'|apply HL'|..].
  - apply Forall_cons. split; [|apply HL']. constructor; [by rewrite Hfr|done|..].
    + rewrite Hfr, (rc_ceiling _ _ _ _ _ Hrc). cbn. lia.
    + right. intros j Hj. apply Hnot in Hj. destruct (in_pool d j) eqn:Hp; [|done].
      rewrite (lg_reserved _ _ _ HL j Hp) in Hj. done.
    + intros j Hj. rewrite (rc_bits _ _ _ _ _ Hrc). unfold covers in Hj. rewrite Hfr in Hj.
      cbn in Hj. by rewrite Hj.
  - intros j. rewrite cover_cons. destruct (covers j r) eqn:Hj; [|apply HL].
    assert (cover C j = 0) as ->; [|lia]. pose proof (cover_nonneg C j).
    destruct (Z.eq_dec (cover C j) 0); [done|]. exfalso.
    unfold cover in *. destruct (filter (fun r => covers j r = true) C) as [|x l] eqn:He; [done|].
    assert (x ∈ filter (fun r => covers j r = true) C) as Hx by (rewrite He; by left).
    apply list_elem_of_filter in Hx as [Hx HC].
    pose proof (lg_regions _ _ _ HL) as Hall. rewrite Forall_forall in Hall.
    pose proof (ro_used _ _ _ (Hall x HC) j Hx).
    rewrite Hnot in * by done. done.
  - intros Hb i Hi. rewrite cover_cons. replace (covers (pool_base d + i) r) with false.
    + by apply HL'.
    + symmetry. apply not_true_iff_false. intros Hj. apply Hnot in Hj.
      rewrite (lg_reserved _ _ _ HL) in Hj; [done|]. by apply (pool_page d s C).
Qed.

(** Releasing a run that is in use frees exactly its frames. *)
Lemma release_run_exact base k : forall s i, wf_pmm s -> 0 <= base -> 0 <= i ->
  1 <= base + i -> base + i + Z.of_nat k <= s_alloc_ceiling_frame s ->
  (forall j, base + i <= j < base + i + Z.of_nat k -> used s j = true) ->
  exists s', release_run k s base i = Some s' /\ wf_pmm s' /\
    range_changed s s' (base + i) (base + i + Z.of_nat k) false.
Proof.
  induction k as [|k IH]; intros s i Hwf Hb Hi H1 Hk Hu; cbn [release_run].
  { exists s. replace (base + i + Z.of_nat 0) with (base + i) by lia.
    split_and!; [done|done|apply range_changed_refl]. }
  pose proof (wfp_limits s Hwf). pose proof (wfp_total s Hwf). unfold MAX_FRAMES in *.
  rewrite u32_small by lia.
  destruct (release_frame_spec s (base + i) Hwf) as (b & s1 & Hs1 & Hwf1 & Hrel); [lia|].
  run_bind Hs1. unfold released in Hrel.
  rewrite (proj2 (Z.eqb_neq _ 0)), (proj2 (Z.leb_gt _ _)), Hu in Hrel by lia. cbn in Hrel.
  destruct Hrel as [Hch _].
  destruct (IH s1 (i + 1) Hwf1 Hb) as (s' & Hs' & Hwf' & Hrc); [lia|lia| | |].
  { rewrite (fc_ceiling _ _ _ _ Hch). lia. }
  { intros j Hj. rewrite (fc_bits _ _ _ _ Hch), (proj2 (Z.eqb_neq _ _)) by lia. apply Hu. lia. }
  exists s'. split_and!; [done|done|].
  replace (base + i + Z.of_nat (S k)) with (base + (i + 1) + Z.of_nat k) by lia.
  replace (base + (i + 1)) with (base + i + 1) in * by lia.
  eapply range_changed_cons; [done|done|lia].
Qed.

Lemma free_region d s r : wf_pmm s -> s_alloc_ceiling_frame s < MAX_FRAMES -> region_ok d s r ->
  exists s', pmm_free_contiguous s r.1 r.2 = Some s' /\ wf_pmm s' /\
    range_changed s s' (frame_of r) (frame_of r + r.2) false.
Proof.
  intros Hwf Hc [Hp Hn Hr _ Hu]. unfold MAX_FRAMES in *. unfold pmm_free_contiguous.
  assert (is_u32 r.1) as Hu32 by (rewrite Hp; unfold is_u32, PAGE_SIZE; lia).
  change (PAGE_SIZE - 1) with (Z.ones 12). rewrite Z.land_ones by lia.
  change (2 ^ 12) with PAGE_SIZE. rewrite Hp, Z.mod_mul by done. cbn [Z.eqb negb].
  rewrite ADDR_TO_FRAME_page by (unfold MAX_FRAMES; lia).
  destruct (release_run_exact (frame_of r) (Z.to_nat r.2) s 0 Hwf) as (s' & Hs & Hwf' & Hrc);
    rewrite ?Z.add_0_r, ?Z2Nat.id in * by lia; [lia..| |].
  - intros j Hj. apply Hu, covers_spec. lia.
  - by exists s'.
Qed.

Lemma ledger_give_frames d s C r : ledger d s (r :: C) -> outside d r ->
  dma_pool_free d r.1 r.2 = Some (false, d) /\
  exists s', pmm_free_contiguous s r.1 r.2 = Some s' /\
    ledger d s' C /\ forall j, covers j r = true -> used s' j = false.
Proof.
  intros HL Hout. pose proof (lg_regions _ _ _ HL) as Hall. apply Forall_cons in Hall as [Hr HC].
  destruct (lg_pmm _ _ _ HL) as [Hwf Hc]. pose proof (lg_pool _ _ _ HL) as Hwd.
  pose proof Hr as [Hp Hn [Hlo Hhi] _ _].
  split.
  - unfold MAX_FRAMES in *. destruct (wfd_base d Hwd) as (_ & ? & ?).
    pose proof (base_page d Hwd). unfold PAGE_SIZE, DMA_POOL_PAGES in *.
    apply dma_pool_free_foreign; unfold PAGE_SIZE, DMA_POOL_PAGES; [done|lia..|].
    destruct (Z.eq_dec (s_base_phys d) 0); [by left|right].
    assert (~ pool_base d <= frame_of r < pool_base d + DMA_POOL_PAGES) as Ho.
    { intros Hx. pose proof (Hout (frame_of r) (covers_first r Hn)) as Hf.
      by rewrite (proj2 (in_pool_spec d (frame_of r)) (conj n Hx)) in Hf. }
    unfold DMA_POOL_PAGES in *. lia.
  - destruct (free_region d s r Hwf Hc Hr) as (s' & Hs & Hwf' & Hrc). exists s'.
    assert (forall j, covers j r = true -> used s' j = false) as Hfree.
    { intros j Hj. rewrite (rc_bits _ _ _ _ _ Hrc). unfold covers in Hj. by rewrite Hj. }
    split; [done|]. split; [|done]. apply (ledger_env d s); [|done|apply Hrc|].
    + constructor; try apply HL; [done|..].
      * intros j. pose proof (lg_once _ _ _ HL j) as Ho. rewrite cover_cons in Ho.
        destruct (covers j r); lia.
      * intros Hb i Hi. rewrite (lg_exact _ _ _ HL Hb i Hi), cover_cons.
        destruct (covers (pool_base d + i) r) eqn:Hj; [|done].
        apply Hout in Hj. by rewrite (pool_page d s _ i HL) in Hj.
    + intros j Hu Hk. rewrite (rc_bits _ _ _ _ _ Hrc).
      destruct (in_run _ _ j) eqn:Hj; [exfalso|done]. change (covers j r = true) in Hj.
      destruct Hk as [Hk|Hk]; [by rewrite (Hout j Hj) in Hk|].
      pose proof (lg_once _ _ _ HL j) as Ho. rewrite cover_cons, Hj in Ho. lia.
Qed.

(** ** The table *)

Lemma dma_track_spec t pid virt phys pages t' : dma_track t pid virt phys pages = Some t' ->
  length t' = length t /\ Permutation (tracked t') ((phys, pages) :: tracked t).
Proof.
  revert t'. induction t as [|r t IH]; intros t'; [done|]. cbn [dma_track].
  destruct (r_used r) eqn:Hu; cbn [negb].
  - destruct (dma_track t pid virt phys pages) as [t1|]; [|done]. intros [= <-].
    destruct (IH t1 eq_refl) as [Hl Hp]. split; [cbn; lia|].
    unfold tracked in *. cbn [mbind list_bind]. unfold row_region at 1 3. rewrite Hu.
    rewrite Hp. apply perm_swap.
  - intros [= <-]. split; [done|]. unfold tracked. cbn [mbind list_bind].
    unfold row_region at 1 3. by rewrite Hu.
Qed.

Lemma row_clear r : row_region (clear_used r) = [].
Proof. done. Qed.

Lemma dma_untrack_spec t virt pid phys pages t' :
  dma_untrack t virt pid = Some (phys, pages, t') ->
  length t' = length t /\ Permutation (tracked t) ((phys, pages) :: tracked t').
Proof.
  revert t'. induction t as [|r t IH]; intros t'; [done|]. cbn [dma_untrack].
  destruct (r_used r && (r_virt r =? virt) && (owner_pid r =? pid)) eqn:Hm.
  - intros [= <- <- <-]. split; [done|]. apply andb_true_iff in Hm as [Hm _].
    apply andb_true_iff in Hm as [Hu _]. unfold tracked. cbn [mbind list_bind].
    rewrite row_clear. unfold row_region at 1. by rewrite Hu.
  - destruct (dma_untrack t virt pid) as [[[p n] t1]|]; [|done]. intros [= <- <- <-].
    destruct (IH t1 eq_refl) as [Hl Hp]. split; [cbn; lia|].
    unfold tracked in *. cbn [mbind list_bind]. rewrite Hp.
    by rewrite Permutation_middle.
Qed.

Lemma dma_cleanup_slot_spec t pid i : 0 <= i < Z.of_nat (length t) ->
  exists o t', dma_cleanup_slot t pid i = Some (o, t') /\ length t' = length t /\
    Permutation (tracked t) (from_option (fun x => [x]) [] o ++ tracked t').
Proof.
  intros Hi. unfold dma_cleanup_slot. destruct (geti_in_range t i Hi) as [r Hg]. run_bind Hg.
  destruct (owned_by pid r) eqn:Ho; [|by exists None, t].
  pose proof (seti_in_range t i (clear_used r) Hi) as Hs. run_bind Hs.
  do 2 eexists. split; [done|]. split; [apply length_insert|].
  apply andb_true_iff in Ho as [Hu _].
  assert (t !! Z.to_nat i = Some r) as Hl.
  { unfold geti in Hg. by case_match. }
  apply list_elem_of_split_length in Hl as (l1 & l2 & -> & Hlen). cbn [from_option].
  rewrite Hlen, insert_app_r_alt, Nat.sub_diag by lia. cbn.
  unfold tracked. rewrite !bind_app. cbn [mbind list_bind]. rewrite row_clear.
  unfold row_region at 2. rewrite Hu. cbn. by rewrite Permutation_middle.
Qed.

(** ** Every section keeps the books *)

(** [σ'] and [c'] after a section of [c], with [R] held by the others. *)
Definition turn_ok (σ : dma_sys) (c : call) (R : list (Z * Z)) (σ' : dma_sys) (c' : call)
    : Prop :=
  ledger (pool σ') (frames σ') (held c' ++ R ++ tracked (s_dma σ')) /\
  s_base_phys (pool σ') = s_base_phys (pool σ) /\ call_ok (pool σ') c' /\
  length (s_dma σ') = length (s_dma σ).

Lemma call_ok_base d d' c : s_base_phys d' = s_base_phys d -> call_ok d c -> call_ok d' c.
Proof.
  intros Hb. induction c; cbn; try tauto. intros [Ho Hc]. split; [|auto].
  intros j Hj. unfold in_pool, pool_base. rewrite Hb. by apply Ho.
Qed.

Lemma pages_of_size size : is_u32 size ->
  0 <= ALIGN_UP size PAGE_SIZE / PAGE_SIZE < MAX_FRAMES.
Proof.
  intros Hs. unfold ALIGN_UP.
  assert (is_u32 (Z.land (size ⊞ PAGE_SIZE ⊟ 1) (not32 (PAGE_SIZE ⊟ 1)))) as Hu.
  { apply is_u32_land; [apply u32_range|apply u32_range]. }
  unfold is_u32, MAX_FRAMES, PAGE_SIZE in *. zlia.
Qed.

Ltac open_section := unfold run_call, dma_alloc_enter, dma_alloc_frames, dma_alloc_map, dma_alloc_track, sys_dma_free, dma_cleanup,
  release_to_pool, release_to_frames.

Section turns.
Context (σ : dma_sys) (R : list (Z * Z)) (virt : Z).
Hypothesis table_length : length (s_dma σ) = Z.to_nat DMA_TRACK_MAX.

Lemma turn_alloc_entry driver pid size :
  let c := AllocEntry driver pid size in
  ledger (pool σ) (frames σ) (held c ++ R ++ tracked (s_dma σ)) -> call_ok (pool σ) c ->
  exists σ' c', run_call virt σ c = Some (σ', c') /\ turn_ok σ c R σ' c'.
Proof.
  clear table_length. open_section. cbn. intros HL Hsz. destruct (negb driver || (size =? 0)); [by do 2 eexists|].
  pose proof (pages_of_size size Hsz) as Hn.
  set (n := ALIGN_UP size PAGE_SIZE / PAGE_SIZE) in *.
  destruct (Z.eq_dec (s_base_phys (pool σ)) 0) as [Hz|Hb];
    [|destruct (Z.eq_dec n 0) as [Hz|Hn0]].
  1,2: rewrite (dma_pool_refuses _ n) by auto; by do 2 eexists.
  destruct (dma_pool_alloc_spec (pool σ) n (lg_pool _ _ _ HL) ltac:(lia))
    as (r & d' & Hr & Hwf' & Hres).
  run_bind Hr. do 2 eexists. split; [done|].
  destruct Hres as [(a & _ & Ha & Hlim & Hfree & -> & Hmv & _)|(-> & -> & _)]; [|by split_and!].
  pose proof (wfd_base _ (lg_pool _ _ _ HL)). pose proof (pm_base _ _ _ _ _ Hmv).
  unfold PAGE_SIZE, DMA_POOL_PAGES in *. rewrite (proj2 (Z.eqb_neq _ 0)) by lia.
  split_and!; [|done|done|done]. cbn.
  by apply (ledger_take_pool (pool σ)); try done; unfold DMA_POOL_PAGES; lia.
Qed.

Lemma turn_alloc_frames pid n :
  let c := AllocFrames pid n in
  ledger (pool σ) (frames σ) (held c ++ R ++ tracked (s_dma σ)) -> call_ok (pool σ) c ->
  exists σ' c', run_call virt σ c = Some (σ', c') /\ turn_ok σ c R σ' c'.
Proof.
  clear table_length. open_section. cbn. intros HL Hn. destruct (lg_pmm _ _ _ HL) as [Hwf Hc].
  destruct (Z.eq_dec n 0) as [->|Hn0]; [by do 2 eexists|].
  destruct (alloc_contiguous_served (frames σ) n PMM_ZONE_PREFER_LOW Hwf ltac:(lia))
    as (r & s' & Hr & Hwf' & Hs).
  run_bind Hr. do 2 eexists. split; [done|].
  destruct Hs as [(f & Hf & -> & Hrc & _)|(-> & -> & _)]; [|by split_and!].
  destruct (run_found_in _ _ _ _ _ Hf (zones_of_in _ _ Hwf)) as (? & ? & ?).
  rewrite (proj2 (Z.eqb_neq _ 0)) by (unfold PAGE_SIZE; lia). split_and!; [|done|done|done].
  cbn. apply (ledger_take_frames _ (frames σ)); done || lia.
Qed.

Lemma turn_track pid v phys n :
  let c := AllocTrack pid v phys n in
  ledger (pool σ) (frames σ) (held c ++ R ++ tracked (s_dma σ)) -> call_ok (pool σ) c ->
  exists σ' c', run_call virt σ c = Some (σ', c') /\ turn_ok σ c R σ' c'.
Proof.
  clear table_length. open_section. cbn. intros HL _. destruct (dma_track (s_dma σ) pid v phys n) as [t|] eqn:Ht;
    [|by do 2 eexists].
  do 2 eexists. split; [done|]. destruct (dma_track_spec _ _ _ _ _ _ Ht) as [Hl Hp].
  split_and!; [|done|done|done]. cbn. eapply ledger_perm; [|exact HL].
  rewrite Hp. by rewrite Permutation_middle.
Qed.

Lemma turn_free_entry driver pid v :
  let c := FreeEntry driver pid v in
  ledger (pool σ) (frames σ) (held c ++ R ++ tracked (s_dma σ)) -> call_ok (pool σ) c ->
  exists σ' c', run_call virt σ c = Some (σ', c') /\ turn_ok σ c R σ' c'.
Proof.
  clear table_length. open_section. cbn. intros HL _. destruct driver; cbn; [|by do 2 eexists].
  destruct (dma_untrack (s_dma σ) v pid) as [[[phys n] t]|] eqn:Ht; [|by do 2 eexists].
  do 2 eexists. split; [done|]. destruct (dma_untrack_spec _ _ _ _ _ _ Ht) as [Hl Hp].
  split_and!; [|done|done|done]. cbn. eapply ledger_perm; [|exact HL].
  rewrite Hp. by rewrite <- Permutation_middle.
Qed.

Lemma turn_cleanup pid i :
  let c := Cleanup pid i in
  ledger (pool σ) (frames σ) (held c ++ R ++ tracked (s_dma σ)) -> call_ok (pool σ) c ->
  exists σ' c', run_call virt σ c = Some (σ', c') /\ turn_ok σ c R σ' c'.
Proof using table_length.
  open_section. cbn. intros HL Hi. destruct (Z.leb_spec DMA_TRACK_MAX i); [by do 2 eexists|].
  destruct (dma_cleanup_slot_spec (s_dma σ) pid i) as (o & t & Ht & Hl & Hp);
    [unfold DMA_TRACK_MAX in *; lia|].
  run_bind Ht. do 2 eexists. split; [done|].
  destruct o as [[phys n]|]; (split_and!; [|done|cbn; lia|done]); cbn in *;
    (eapply ledger_perm; [|exact HL]); rewrite Hp; [by rewrite <- Permutation_middle|done].
Qed.

Lemma turn_release_pool phys n next :
  let c := ReleasePool phys n next in
  ledger (pool σ) (frames σ) (held c ++ R ++ tracked (s_dma σ)) -> call_ok (pool σ) c ->
  exists σ' c', run_call virt σ c = Some (σ', c') /\ turn_ok σ c R σ' c'.
Proof.
  clear table_length. open_section. cbn. intros HL Hok. pose proof (lg_regions _ _ _ HL) as Hall.
  apply Forall_cons in Hall as [Hr _].
  destruct (ro_place _ _ _ Hr) as [Hin|Hout].
  - destruct (ledger_give_pool _ _ _ _ HL Hin) as (d' & Hd & Hb & HL' & _). cbn in Hd.
    run_bind Hd. do 2 eexists. split; [done|]. split_and!; [done|done| |done].
    by apply (call_ok_base (pool σ)).
  - destruct (ledger_give_frames _ _ _ _ HL Hout) as (Hd & _). cbn in Hd.
    run_bind Hd. do 2 eexists. split; [done|]. by split_and!.
Qed.

Lemma turn_release_frames phys n next :
  let c := ReleaseFrames phys n next in
  ledger (pool σ) (frames σ) (held c ++ R ++ tracked (s_dma σ)) -> call_ok (pool σ) c ->
  exists σ' c', run_call virt σ c = Some (σ', c') /\ turn_ok σ c R σ' c'.
Proof.
  clear table_length. open_section. cbn. intros HL [Hout Hok].
  destruct (ledger_give_frames _ _ _ _ HL Hout) as (_ & s' & Hs & HL' & _). cbn in Hs.
  run_bind Hs. do 2 eexists. split; [done|]. by split_and!.
Qed.

Lemma run_call_ok c :
  ledger (pool σ) (frames σ) (held c ++ R ++ tracked (s_dma σ)) -> call_ok (pool σ) c ->
  exists σ' c', run_call virt σ c = Some (σ', c') /\ turn_ok σ c R σ' c'.
Proof using table_length.
  destruct c; eauto using turn_alloc_entry, turn_alloc_frames, turn_track, turn_free_entry,
    turn_cleanup, turn_release_pool, turn_release_frames.
  - intros HL _. do 2 eexists. split; [done|]. unfold dma_alloc_map. cbn. case_if; by split_and!.
  - intros HL _. do 2 eexists. by split.
Qed.

End turns.

Lemma claims_at σ l1 c l2 : Permutation (claims (mk_world σ (l1 ++ c :: l2)))
  (held c ++ ((l1 ++ l2) ≫= held) ++ tracked (s_dma σ)).
Proof.
  unfold claims. cbn. rewrite !bind_app. cbn [mbind list_bind]. rewrite !app_assoc.
  do 2 apply Permutation_app_tail. apply Permutation_app_comm.
Qed.

Lemma world_turn w l1 c l2 virt : world_ok w -> calls w = l1 ++ c :: l2 ->
  exists σ' c', run_call virt (sys w) c = Some (σ', c') /\
    world_ok (mk_world σ' (l1 ++ c' :: l2)).
Proof.
  intros (HL & Hok & Hlen) Hc. destruct w as [σ cs]. cbn in *. subst cs.
  apply Forall_app in Hok as [H1 H2]. apply Forall_cons in H2 as [Hcok H2].
  destruct (run_call_ok σ ((l1 ++ l2) ≫= held) virt Hlen c) as (σ' & c' & Hr & HL' & Hb & Hok' & Hl').
  { eapply ledger_perm; [apply claims_at|exact HL]. }
  { done. }
  exists σ', c'. split; [done|]. split_and!; cbn; [|..|congruence].
  - eapply ledger_perm; [symmetry; apply claims_at|done].
  - apply Forall_app. split; [|apply Forall_cons; split; [done|]];
      (eapply Forall_impl; [done|intros x; by apply call_ok_base]).
Qed.

Lemma step_ok w w' : world_ok w -> step w w' -> world_ok w'.
Proof.
  intros Hw Hst. destruct Hst as [w c He|σ l1 c l2 virt σ' c' Hr|w s' Hwf' Hc Hk].
  - destruct Hw as (HL & Hok & Hlen). split_and!; [| |done]; cbn.
    + unfold claims in *. cbn. rewrite bind_app. cbn [mbind list_bind].
      assert (held c = []) as -> by (by destruct c). by rewrite !app_nil_r.
    + apply Forall_app. split; [done|]. apply Forall_singleton.
      destruct c; cbn in *; try done. by subst.
  - destruct (world_turn _ l1 c l2 virt Hw eq_refl) as (σ2 & c2 & Hr2 & Hw2). cbn in *.
    rewrite Hr in Hr2. by injection Hr2 as <- <-.
  - destruct Hw as (HL & Hok & Hlen). split_and!; [|done|done]; cbn.
    by apply (ledger_env _ (frames (sys w))).
Qed.

(** ** Boot *)

Lemma tracked_blank n : tracked (replicate n blank_region) = [].
Proof. induction n; done. Qed.

Lemma blank_pages : Forall is_u32 (replicate (Z.to_nat DMA_POOL_WORDS) 0).
Proof. apply Forall_replicate. unfold is_u32. lia. Qed.

Lemma bitat_blank i : bitat (replicate (Z.to_nat DMA_POOL_WORDS) 0) i = false.
Proof.
  unfold bitat. destruct (geti _ (i / 32)) as [w|] eqn:Hg; [|done].
  assert (w = 0) as -> by (by eapply (Forall_geti (fun w => w = 0)); [apply Forall_replicate|]).
  apply Z.bits_0.
Qed.

Lemma wf_pool_blank b : b mod PAGE_SIZE = 0 -> 0 <= b ->
  b + DMA_POOL_PAGES * PAGE_SIZE < 0x100000000 ->
  wf_pool (mk_pool b (replicate (Z.to_nat DMA_POOL_WORDS) 0) DMA_POOL_PAGES).
Proof. intros H1 H2 H3. constructor; [apply blank_pages|done|done|intros _; by vm_compute]. Qed.

Lemma ledger_boot d s : wf_pmm s -> s_alloc_ceiling_frame s < MAX_FRAMES -> wf_pool d ->
  (s_base_phys d <> 0 -> 1 <= pool_base d /\
     pool_base d + DMA_POOL_PAGES <= s_alloc_ceiling_frame s) ->
  (forall j, in_pool d j = true -> used s j = true) ->
  (s_base_phys d <> 0 -> forall i, bitat (s_map d) i = false) -> ledger d s [].
Proof. intros. constructor; try done. intros Hb i _. by rewrite H4. Qed.

Lemma boot_ok s : wf_pmm s -> s_alloc_ceiling_frame s < MAX_FRAMES ->
  exists w, boot s = Some w /\ world_ok w /\ calls w = [] /\ tracked (s_dma (sys w)) = [].
Proof.
  intros Hwf Hc. unfold boot, dma_pool_init.
  destruct (alloc_contiguous_served s DMA_POOL_PAGES PMM_ZONE_PREFER_LOW Hwf ltac:(done))
    as (r & s' & Hr & Hwf' & Hs). run_bind Hr.
  destruct Hs as [(f & Hf & -> & Hrc & _)|(-> & -> & _)].
  - destruct (run_found_in _ _ _ _ _ Hf (zones_of_in _ _ Hwf)) as (H1 & H2 & _).
    unfold MAX_FRAMES in *. rewrite (proj2 (Z.eqb_neq _ 0)) by (unfold PAGE_SIZE; lia).
    eexists. split; [done|]. split; [|split; [done|apply tracked_blank]].
    assert (pool_base (mk_pool (f * PAGE_SIZE) (replicate (Z.to_nat DMA_POOL_WORDS) 0)
              DMA_POOL_PAGES) = f) as Hpb by (apply Z.div_mul; done).
    unfold DMA_POOL_PAGES in *.
    split_and!; [|apply Forall_nil_2|apply length_replicate]. cbn.
    apply ledger_boot; rewrite ?Hpb, ?(rc_ceiling _ _ _ _ _ Hrc); try done.
    + apply wf_pool_blank; unfold DMA_POOL_PAGES, PAGE_SIZE; [by apply Z.mod_mul|lia|lia].
    + intros j Hj. apply in_pool_spec in Hj as [_ Hj]. rewrite Hpb in Hj.
      rewrite (rc_bits _ _ _ _ _ Hrc). unfold in_run, DMA_POOL_PAGES in *.
      by rewrite (proj2 (Z.leb_le _ _)), (proj2 (Z.ltb_lt _ _)) by lia.
    + intros _ i. apply bitat_blank.
  - eexists. split; [done|]. split; [|split; [done|apply tracked_blank]].
    split_and!; [|apply Forall_nil_2|apply length_replicate]. cbn.
    apply ledger_boot; try done; constructor; [apply blank_pages|done|done|done].
Qed.

(** ** Termination of the calls *)

(** The sections a call may still run. *)
Fixpoint sections_left (c : call) : Z :=
  match c with
  | AllocEntry _ _ _ => 6
  | AllocFrames _ _ => 5
  | AllocMap _ _ _ => 4
  | AllocTrack _ _ _ _ => 3
  | FreeEntry _ _ _ => 3
  | Cleanup _ i => 3 * Z.max 0 (DMA_TRACK_MAX - i) + 1
  | ReleasePool _ _ next => 2 + sections_left next
  | ReleaseFrames _ _ next => 1 + sections_left next
  | Done _ _ => 0
  end.

Definition finished (c : call) : bool := match c with Done _ _ => true | _ => false end.

Lemma sections_nonneg c : 0 <= sections_left c.
Proof. induction c; cbn [sections_left]; lia. Qed.

Lemma run_call_shrinks virt σ c σ' c' : run_call virt σ c = Some (σ', c') ->
  finished c = false -> sections_left c' < sections_left c.
Proof.
  intros Hr Hf. unfold run_call, dma_alloc_enter, dma_alloc_frames, dma_alloc_map, dma_alloc_track, sys_dma_free, dma_cleanup,
  release_to_pool, release_to_frames in Hr.
  destruct c; try discriminate Hf;
    repeat (case_match || (apply bind_Some in Hr as ([] & _ & Hr)));
    simplify_eq; cbn [sections_left]; bool_to_prop; unfold DMA_TRACK_MAX in *; lia.
Qed.

(** ** Runs of concrete calls *)

Definition enter (c : call) (w : world) : world := mk_world (sys w) (calls w ++ [c]).

(** One section of call [i]. *)
Definition turn (i : nat) (virt : Z) (w : world) : option world :=
  c ← calls w !! i;
  '(σ', c') ← run_call virt (sys w) c;
  Some (mk_world σ' (<[i := c']> (calls w))).

Lemma dma_turn_sound i virt w w' : turn i virt w = Some w' -> step w w'.
Proof.
  unfold turn. intros H. apply bind_Some in H as (c & Hc & H).
  apply bind_Some in H as ([σ' c'] & Hr & [= <-]).
  apply list_elem_of_split_length in Hc as (l1 & l2 & He & Hl). destruct w as [σ cs].
  cbn in *. subst cs. rewrite Hl, insert_app_r_alt, Nat.sub_diag by lia. cbn.
  by apply (st_run _ _ _ _ virt).
Qed.

Fixpoint turns (l : list (nat * Z)) (w : world) : option world :=
  match l with
  | [] => Some w
  | (i, virt) :: l' => w1 ← turn i virt w; turns l' w1
  end.

Lemma dma_turns_sound l w0 w w' : reachable step w0 w -> turns l w = Some w' ->
  reachable step w0 w'.
Proof.
  revert w. induction l as [|[i v] l IH]; cbn [turns]; intros w Hw H; [congruence|].
  apply bind_Some in H as (w1 & H1 & H2). apply dma_turn_sound in H1. eauto with cint.
Qed.

Lemma reachable_ok s w0 w : wf_pmm s -> s_alloc_ceiling_frame s < MAX_FRAMES ->
  boot s = Some w0 -> reachable step w0 w -> world_ok w.
Proof.
  intros Hwf Hc Hb. destruct (boot_ok s Hwf Hc) as (w1 & Hw1 & Hok & _).
  assert (w1 = w0) as -> by congruence.
  by apply (reachable_ind_inv step world_ok); [|apply step_ok].
Qed.

(** ** The properties *)


(** A machine with 1280 frames, frame 0 in use, the DMA zone below frame 1200. *)
Definition small_pmm : pmm :=
  mk_pmm (1 :: replicate 39 0) 1280 1280 1200 1279 1199 1 1200 0.

Lemma small_pmm_wf : wf_pmm small_pmm.
Proof.
  constructor; cbn [small_pmm Pmm.s_bitmap s_total_frames s_alloc_ceiling_frame
    s_dma_limit_frame s_free_frames s_dma_free]; unfold MAX_FRAMES; try lia.
  - apply Forall_cons. split; [done|]. apply Forall_replicate. done.
  - split; [lia|]. by vm_compute.
  - by vm_compute.
  - by vm_compute.
Qed.

Definition small_world : world := default (mk_world (mk_sys pool_off small_pmm []) []) (boot small_pmm).

(** Process 7 asks for five pages, 8 for the rest of the reserve, 7 for three more. *)
Definition three_calls : world :=
  enter (AllocEntry true 7 0x3000) (enter (AllocEntry true 8 0x3FB000)
    (enter (AllocEntry true 7 0x4001) small_world)).

Definition schedule : list (nat * Z) :=
  [(0%nat, 0); (1%nat, 0); (2%nat, 0); (2%nat, 0); (2%nat, 0x70003000); (1%nat, 0x70000000);
   (2%nat, 0); (0%nat, 0x70000000); (0%nat, 0); (1%nat, 0)].

Definition three_regions : world := default three_calls (turns schedule three_calls).

Lemma three_regions_reachable : reachable step small_world three_regions.
Proof.
  apply (dma_turns_sound schedule small_world three_calls); [|by vm_compute].
  unfold three_calls, enter.
  eapply reach_step; [eapply reach_step; [eapply reach_step; [apply reach_here|]|]|].
  all: refine (st_enter _ _ _); cbn; unfold is_u32; lia.
Qed.


(** The frame is free where it belongs: in the reserve's bitmap or in the frame allocator. *)
Definition frame_free (d : dma_pool) (s : pmm) (j : Z) : Prop :=
  if in_pool d j then bitat (s_map d) (j - pool_base d) = false else used s j = false.

(** C34: giving a region back.  Wherever a region of the books came from, dma_release_phys
    finds its owner by asking the reserve first: it returns, every frame of the region is
    free again in the allocator it belongs to, and the books of the remaining regions stay
    exact. *)
Theorem dma_release_gives_back d s r C : ledger d s (r :: C) ->
  exists d' s', dma_release_phys d s r.1 r.2 = Some (d', s') /\ ledger d' s' C /\
    forall j, covers j r = true -> frame_free d' s' j.
Proof.
  intros HL. pose proof (lg_regions _ _ _ HL) as Hall. apply Forall_cons in Hall as [Hr _].
  unfold dma_release_phys, frame_free. destruct (ro_place _ _ _ Hr) as [Hin|Hout].
  - destruct (ledger_give_pool _ _ _ _ HL Hin) as (d' & Hd & Hb & HL' & _ & Hfree).
    run_bind Hd. exists d', s. split_and!; [done|done|]. intros j Hj.
    assert (in_pool d' j = true) as -> by (unfold in_pool, pool_base in *; rewrite Hb; auto).
    unfold pool_base in *. rewrite Hb. auto.
  - destruct (ledger_give_frames _ _ _ _ HL Hout) as (Hd & s' & Hs & HL' & Hfree).
    run_bind Hd. run_bind Hs. exists d, s'. split_and!; [done|done|]. intros j Hj.
    rewrite (Hout j Hj). auto.
Qed.

Lemma dma_release_gives_back_witness :
  exists d' s', dma_release_phys (pool (sys three_regions)) (frames (sys three_regions))
                  0x401000 3 = Some (d', s') /\ used s' 1026 = false.
Proof.
  assert (world_ok three_regions) as (HL & _).
  { apply (reachable_ok small_pmm small_world); [apply small_pmm_wf|vm_compute; reflexivity|
      vm_compute; reflexivity|apply three_regions_reachable]. }
  assert (claims three_regions = [(0x401000, 3); (0x1000, 5); (0x6000, 1019)]) as He
    by (vm_compute; reflexivity).
  rewrite He in HL.
  destruct (dma_release_gives_back _ _ (0x401000, 3) _ HL) as (d' & s' & Hr & _ & Hf).
  exists d', s'. split; [exact Hr|].
  specialize (Hf 1026 ltac:(vm_compute; reflexivity)). unfold frame_free in Hf.
  assert (s_base_phys d' = 4096) as Hb.
  { vm_compute in Hr. injection Hr as <- _. reflexivity. }
  unfold in_pool, pool_base in Hf. rewrite Hb in Hf. exact Hf.
Defined.

(** ** sys_mmap_phys *)

(** The first and the last frame of a range that does not reach the top of the space. *)
Definition range_first (phys : Z) : Z := phys / PAGE_SIZE.
Definition range_last (phys size : Z) : Z := (phys + size + PAGE_SIZE - 1) / PAGE_SIZE.

Lemma any_allocated_spec s phys k : forall p, wf_pmm s -> 0 <= p ->
  exists b, any_allocated k s phys p = Some b /\
    (b = false -> forall i, p <= i < p + Z.of_nat k ->
       pmm_is_frame_allocated s (phys ⊞ (i ⊠ PAGE_SIZE)) = Some false).
Proof.
  induction k as [|k IH]; intros p Hwf Hp; cbn [any_allocated].
  { exists false. split; [done|]. intros _ i Hi. lia. }
  assert (exists a, pmm_is_frame_allocated s (phys ⊞ (p ⊠ PAGE_SIZE)) = Some a) as [a Ha].
  { unfold pmm_is_frame_allocated. destruct (Z.leb_spec (s_total_frames s)
      (ADDR_TO_FRAME (phys ⊞ (p ⊠ PAGE_SIZE)))); [by eexists|]. eexists.
    pose proof (wfp_total s Hwf). apply frame_is_used_spec; [apply Hwf|].
    pose proof (ADDR_TO_FRAME_nonneg (phys ⊞ (p ⊠ PAGE_SIZE))). lia. }
  run_bind Ha. destruct a; [by exists true|].
  destruct (IH (p + 1) Hwf ltac:(lia)) as (b & Hb & Hspec). exists b. split; [done|].
  intros -> i Hi. destruct (Z.eq_dec i p) as [->|]; [done|]. apply Hspec; [done|lia].
Qed.

(** The range the code works on, when it does not reach the top of the address space. *)
Lemma range_words phys size : is_u32 phys -> 1 <= size -> phys + size <= 0xFFFFF000 ->
  let pa := Z.land phys (not32 0xFFF) in
  let n := ALIGN_UP (size ⊞ Z.land phys 0xFFF) PAGE_SIZE / PAGE_SIZE in
  pa = range_first phys * PAGE_SIZE /\
  ALIGN_UP (size ⊞ Z.land phys 0xFFF) PAGE_SIZE = n * PAGE_SIZE /\
  n = range_last phys size - range_first phys /\ 1 <= n.
Proof.
  intros Hp Hs Hlim. pose proof (ALIGN_DOWN_page phys Hp) as Hd. unfold ALIGN_DOWN in Hd.
  change (PAGE_SIZE ⊟ 1) with 0xFFF in Hd. cbv zeta. rewrite Hd.
  assert (Z.land phys 0xFFF = phys mod PAGE_SIZE) as Ho.
  { change 0xFFF with (Z.ones 12). apply Z.land_ones. lia. }
  rewrite Ho. unfold is_u32, range_first, range_last, PAGE_SIZE in *.
  rewrite (u32_small (size + _)) by zlia.
  rewrite ALIGN_UP_page by zlia. unfold PAGE_SIZE. split_and!; zlia.
Qed.

Lemma mmap_frames_shape s ke lo n (V : Prop) :
  (lo * 4096 =? 0) || (lo * 4096 <? 0x1000) = false ->
  (mmap_kstart <? lo * 4096 + n * 4096) && (lo * 4096 <? ALIGN_UP ke 4096) = false ->
  ke <= ALIGN_UP ke 4096 -> n <= 4096 -> 1 <= n ->
  (forall i, 0 <= i < n -> lo * 4096 ⊞ (i ⊠ 4096) = (lo + i) * 4096) ->
  (forall j, lo <= j < lo + n -> used s j = true -> j < s_total_frames s -> V) ->
  let fs := map (fun i => lo * 4096 ⊞ (i ⊠ 4096)) (seqZ 0 n) in
  fs = map (fun j => j * 4096) (seqZ lo n) /\ (length fs <= 4096)%nat /\
  forall j, lo <= j < lo + n -> 1 <= j /\ ~ (mmap_kstart <= j * 4096 < ke) /\
    (used s j = true -> j < s_total_frames s -> V).
Proof.
  intros H0 H1 Hk Hn Hn1 Hpage Hv. cbv zeta. rewrite length_map, length_seqZ. split_and!; [|lia|].
  - pose proof (fmap_add_seqZ lo 0 n) as Hz. rewrite Z.add_0_r in Hz.
    rewrite <- Hz. change (@map Z Z) with (@fmap list _ Z Z). rewrite <- list_fmap_compose.
    apply list_fmap_ext. intros i x Hx. apply lookup_seqZ in Hx. cbn. apply Hpage. lia.
  - unfold mmap_kstart in *. intros j Hj. bool_to_prop.
    split_and!; [lia| |by apply Hv].
    apply andb_false_iff in H1 as [H1|H1]; bool_to_prop; lia.
Qed.

(** C35: sys_mmap_phys and the memory of others.  For any range that ends below the last page
    of the address space, the check runs without touching anything outside the frame bitmap,
    and when it grants the range, the pages mapped are exactly the frames the range touches,
    at most 4096, without page 0, without a frame of the kernel image, and without a frame
    of RAM that is allocated unless the whole range is the legacy VGA window. *)
Theorem mmap_phys_grants s ke phys size : wf_pmm s -> s_total_frames s < MAX_FRAMES ->
  is_u32 phys -> 1 <= size -> phys + size <= 0xFFFFF000 -> 0 <= ke <= 0xFFFFF000 ->
  exists r, mmap_phys_frames true s ke phys size = Some r /\
    forall fs, r = Some fs ->
      fs = map (fun j => j * PAGE_SIZE) (seqZ (range_first phys) (range_last phys size - range_first phys)) /\
      (length fs <= 4096)%nat /\
      forall j, range_first phys <= j < range_last phys size ->
        1 <= j /\ ~ (mmap_kstart <= j * PAGE_SIZE < ke) /\
        (used s j = true -> j < s_total_frames s ->
           0xA0000 <= range_first phys * PAGE_SIZE /\ range_last phys size * PAGE_SIZE <= 0xC0000).
Proof.
  intros Hwf Htot Hp Hs Hlim Hke. destruct (range_words phys size Hp Hs Hlim) as (Hpa & Hsz & Hn & Hn1).
  unfold mmap_phys_frames. cbn [negb orb]. rewrite (proj2 (Z.eqb_neq size 0)) by lia.
  rewrite Hpa, Hsz. set (n := ALIGN_UP _ PAGE_SIZE / PAGE_SIZE) in *.
  rewrite (Z.div_mul n) by done.
  assert (0 <= range_first phys /\ (range_first phys + n) * PAGE_SIZE <= 0xFFFFF000) as [Hlo Hhi].
  { rewrite Hn. unfold range_first, range_last, is_u32, PAGE_SIZE in *. zlia. }
  replace (range_last phys size) with (range_first phys + n) by lia.
  replace (range_first phys + n - range_first phys) with n by lia.
  clearbody n. clear Hpa Hsz Hn. set (lo := range_first phys) in *. clearbody lo.
  unfold PAGE_SIZE in *. rewrite (u32_small (lo * 4096 + n * 4096)) by lia.
  destruct ((lo * 4096 =? 0) || (lo * 4096 <? 0x1000)) eqn:H0; [by exists None|].
  destruct ((mmap_kstart <? lo * 4096 + n * 4096) && (lo * 4096 <? ALIGN_UP ke 4096)) eqn:H1;
    [by exists None|].
  destruct (Z.ltb_spec 4096 n); [by exists None|].
  assert (FRAME_TO_ADDR (s_total_frames s) = s_total_frames s * 4096) as Htop.
  { apply FRAME_TO_ADDR_small. destruct (wfp_total s Hwf). lia. }
  assert (forall i, 0 <= i < n -> lo * 4096 ⊞ (i ⊠ 4096) = (lo + i) * 4096) as Hpage.
  { intros i Hi. rewrite (u32_small (i * 4096)), u32_small by lia. lia. }
  destruct (any_allocated_spec s (lo * 4096) (Z.to_nat n) 0 Hwf ltac:(lia)) as (b & Hb & Hbf).
  unfold pmm_get_ram_top. rewrite Htop, Hb.
  assert (ke <= ALIGN_UP ke 4096) as Hkend.
  { change 4096 with PAGE_SIZE. rewrite (ALIGN_UP_page ke Hke). unfold PAGE_SIZE. zlia. }
  set (vga := (0xA0000 <=? lo * 4096) && (lo * 4096 + n * 4096 <=? 0xC0000)).
  assert (forall j, lo <= j < lo + n -> b = false -> j < s_total_frames s -> used s j = false) as Hfree.
  { intros j Hj -> Hjt. specialize (Hbf eq_refl (j - lo) ltac:(lia)). rewrite Hpage in Hbf by lia.
    replace (lo + (j - lo)) with j in Hbf by lia. unfold pmm_is_frame_allocated in Hbf.
    pose proof (ADDR_TO_FRAME_page j ltac:(unfold MAX_FRAMES in *; lia)) as Hj'.
    unfold PAGE_SIZE in Hj'. rewrite Hj', (proj2 (Z.leb_gt _ j)) in Hbf by lia.
    destruct (wfp_total s Hwf). rewrite frame_is_used_spec in Hbf; [congruence|apply Hwf|lia]. }
  destruct ((lo * 4096 <? s_total_frames s * 4096) && negb vga) eqn:Hc.
  - destruct b; [by exists None|]. eexists. split; [done|]. intros fs [= <-].
    apply mmap_frames_shape; try done. intros j Hj Hu Hjt.
    by rewrite (Hfree j Hj eq_refl Hjt) in Hu.
  - eexists. split; [done|]. intros fs [= <-]. apply mmap_frames_shape; try done.
    intros j Hj Hu Hjt. apply andb_false_iff in Hc as [Hc|Hc]; bool_to_prop; [lia|].
    unfold vga in Hc. apply negb_false_iff in Hc. bool_to_prop. lia.
Qed.

Lemma mmap_phys_grants_witness :
  exists fs, mmap_phys_frames true small_pmm 0x180000 0xA0010 0x10000 = Some (Some fs) /\
    length fs = 17%nat /\ 0 <= range_first 0xA0010 - 160.
Proof.
  destruct (mmap_phys_grants small_pmm 0x180000 0xA0010 0x10000 small_pmm_wf) as (r & Hr & Hspec);
    [vm_compute; reflexivity|split; vm_compute; congruence|lia|lia|lia|].
  destruct r as [fs|]; [|vm_compute in Hr; discriminate].
  destruct (Hspec fs eq_refl) as (-> & _ & _). exists (map (fun j => j * PAGE_SIZE) (seqZ 160 17)).
  split_and!; [exact Hr|reflexivity|vm_compute; congruence].
Defined.

(** ** Where the 32-bit sums wrap *)

(** A range that starts in the last page wraps past every check: the end is compared after
    the overflow and the start is above the RAM, so page 0 and the kernel's own frames are
    mapped writable into the driver. *)
Remark mmap_phys_wraps :
  ('(v, l) ← sys_mmap_phys true small_pmm 0x180000 0xFFFFF000 0x1000000 0x80000000;
   Some (v, l !! 1%nat, l !! 257%nat))
  = Some (0x80000000, Some (0x80001000, 0), Some (0x80101000, 0x100000)).
Proof. by vm_compute. Qed.

(** sys_dma_verify on a range longer than the space above it: the end wraps below the end of
    the region, and four gigabytes are answered as owned. *)
Remark region_owned_wraps :
  sys_dma_verify true [mk_region true 7 0x70000000 0x401000 3] 0x401000 0xFFFFF000 7 = 1.
Proof. reflexivity. Qed.
