(* ===== verification/Futex.v ===== *)
(** * Futexes (kernel/proc/futex.c) and the mutex built on them (libc/include/futex.h)

    First the kernel's two calls on the pointer level of [Wait]: the buckets are wait queues
    of threads linked through [wq_next], and [owner] is the process of a thread.  A call is
    the section under the bucket's lock followed, for futex_wake, by the loop that makes the
    woken threads runnable.

    Then the three-state mutex of the C library, for any number of threads and processes:
    each atomic instruction on the word, each section under a bucket's lock and each
    scheduler_unblock is one step, and the buckets are the FIFO lists the first part shows
    they are. *)

From S2P Require Import Prelude Wait.

Definition FUTEX_BUCKETS : Z := 128.
Definition FUTEX_OK : Z := 0.
Definition FUTEX_EAGAIN : Z := -1.
Definition FUTEX_ETIMEDOUT : Z := -2.
Definition FUTEX_EFAULT : Z := -3.

(** The address of the bucket: [s_buckets], counted in queues, is the first one. *)
Definition bucket_for (s_buckets as_ uaddr : Z) : Z :=
  let h := Z.lxor (Z.lxor (u32 as_) uaddr) (Z.shiftr uaddr 13) in
  s_buckets + Z.land (h ⊠ 2654435761) (FUTEX_BUCKETS - 1).

(** ** The calls of the kernel *)

(** What the section of futex_wait decides: an answer, or the way to scheduler_yield. *)
Inductive wait_outcome := Answer (r : Z) | Sleeps.

(** [t] is current_thread, [q] its bucket, [cur] what uaccess_get_u32 reads ([None]: it
    fails) and [room] what timer_arm_in answers. *)
Definition futex_wait_section (fuel : nat) (w : world) (t q : Z) (cur : option Z)
    (val timeout_ms : Z) (room : bool) : option (wait_outcome * world) :=
  match cur with
  | None => Some (Answer FUTEX_EFAULT, w)
  | Some c =>
      if negb (c =? val) then Some (Answer FUTEX_EAGAIN, w)
      else
        w1 ← enqueue_tail w q t;
        w2 ← upd_thread w1 t (fun th => set_state (set_result th WAIT_OK) THREAD_BLOCKED);
        if 0 <? timeout_ms then
          if room then Some (Sleeps, with_armed w2 (armed w2 ∪ {[t]}))
          else
            w3 ← unlink_locked fuel (timer_cancel w2 t) q t;
            w4 ← upd_thread w3 t (fun th => set_state th THREAD_RUNNING);
            Some (Answer FUTEX_ETIMEDOUT, w4)
        else Some (Sleeps, w2)
  end.

(** After scheduler_yield. *)
Definition futex_wait_end (w : world) (t : Z) : option (Z * world) :=
  let w1 := timer_cancel w t in
  th ← threads w1 !! t;
  Some (if wait_result th =? WAIT_TIMEOUT then FUTEX_ETIMEDOUT else FUTEX_OK, w1).

(** [while (cur != NULL && woken < count)]: the threads of process [as_] leave the bucket
    and are chained from [wh] to [wt]. *)
Fixpoint futex_take (owner : Z -> Z) (fuel : nat) (w : world) (q as_ count prev cur wh wt woken : Z)
    : option (Z * Z * world) :=
  match fuel with
  | O => None
  | S f =>
      if (cur =? NULL) || (count <=? woken) then Some (wh, woken, w)
      else
        c ← threads w !! cur;
        let next := wq_next c in
        if owner cur =? as_ then
          wq ← queues w !! q;
          w1 ← (if negb (prev =? NULL)
                then w1 ← upd_thread w prev (fun th => set_next th next); Some (w1, head wq)
                else Some (w, next));
          let w2 := upd_queue w1.1 q (mk_wq w1.2 (if tail wq =? cur then prev else tail wq)) in
          w3 ← upd_thread w2 cur clear_links;
          w4 ← (if negb (wt =? NULL) then upd_thread w3 wt (fun th => set_next th cur) else Some w3);
          futex_take owner f w4 q as_ count prev next (if negb (wt =? NULL) then wh else cur) cur (woken ⊞ 1)
        else futex_take owner f w q as_ count cur next wh wt woken
  end.

(** [for (t = woken_head; t != NULL; )] *)
Fixpoint futex_unblock (fuel : nat) (w : world) (t : Z) : option world :=
  match fuel with
  | O => None
  | S f =>
      if t =? NULL then Some w
      else
        th ← threads w !! t;
        w1 ← upd_thread w t (fun th => set_next th NULL);
        w2 ← scheduler_unblock w1 t;
        futex_unblock f w2 (wq_next th)
  end.

Definition futex_wake (s_buckets : Z) (owner : Z -> Z) (fuel : nat) (w : world) (t uaddr count : Z)
    : option (Z * world) :=
  if negb (Z.land uaddr 3 =? 0) then Some (0, w)
  else
    let q := bucket_for s_buckets (owner t) uaddr in
    wq ← queues w !! q;
    '(wh, woken, w1) ← futex_take owner fuel w q (owner t) count NULL (head wq) NULL NULL 0;
    w2 ← futex_unblock fuel w1 wh;
    Some (woken, w2).

(** ** The calls on the lists *)

(** The first [count] threads of process [as_] in the list, and the others, in order. *)
Fixpoint wake_split (owner : Z -> Z) (as_ count : Z) (l : list Z) : list Z * list Z :=
  match l with
  | [] => ([], [])
  | t :: r =>
      if count <=? 0 then ([], l)
      else if owner t =? as_ then
        let '(a, b) := wake_split owner as_ (count - 1) r in (t :: a, b)
      else let '(a, b) := wake_split owner as_ count r in (a, t :: b)
  end.

Lemma upd_thread_other w t f w' x : upd_thread w t f = Some w' -> x <> t -> link w' x = link w x.
Proof.
  unfold upd_thread. intros H Hx. apply bind_Some in H as (th & _ & [= <-]).
  unfold link. cbn. by rewrite lookup_insert_ne.
Qed.

Lemma upd_thread_clear w t w' : upd_thread w t clear_links = Some w' -> link w' t = Some (NULL, NULL).
Proof.
  unfold upd_thread. intros H. apply bind_Some in H as (th & _ & [= <-]).
  unfold link. cbn. by rewrite lookup_insert_eq.
Qed.

(** A list of threads out of the queues, chained through [wq_next]. *)
Definition chain (w : world) (l : list Z) : Prop := seg w NULL l NULL /\ NoDup l.

Lemma chain_not_queued w Q q l c t : reps w Q -> Q !! q = Some l -> chain w c -> t ∈ c -> t ∉ l.
Proof.
  intros HR Hq [Hs _] Ht Hl. destruct (seg_link _ _ _ _ t Hs Ht) as [_ [n Hn]].
  destruct (rp_queue _ _ HR q l Hq) as (Hq0 & _ & Hs' & _).
  destruct (seg_link _ _ _ _ t Hs' Hl) as [_ [n' Hn']]. congruence.
Qed.

(** The thread just taken goes to the end of the chain. *)
Lemma chain_extend w Q c t : reps w Q -> chain w c -> link w t = Some (NULL, NULL) -> t <> NULL ->
  t ∉ c ->
  exists w', (if negb (List.last c NULL =? NULL)
              then upd_thread w (List.last c NULL) (fun th => set_next th t) else Some w) = Some w' /\
    reps w' Q /\ same_bodies w w' /\ chain w' (c ++ [t]).
Proof.
  intros HR [Hs Hnd] Ht Ht0 Htc.
  assert (NoDup (c ++ [t])) as Hnd'.
  { apply NoDup_app. split_and!; [done| |apply NoDup_singleton]. intros x Hx ->%list_elem_of_singleton. done. }
  destruct c as [|x c _] using rev_ind; [exists w; split; [done|]; split; [done|]; split; [done|]; by split|].
  rewrite last_snoc_Z. apply seg_last in Hs as (Hs & Hx0 & Hx). rewrite (proj2 (Z.eqb_neq x NULL) Hx0).
  destruct (link_thread _ _ _ _ Hx) as (th & Hth & _ & Hb).
  destruct (upd_thread_spec w x (fun th => set_next th t) th Hth)
    as (w' & E & T & Qs & A & R & L & O). cbn [wq_next blocked_on set_next] in L. rewrite Hb in L.
  assert (x <> t) as Hxt by (intros ->; apply Htc, elem_of_app; right; by left).
  exists w'. split; [done|]. split; [|split; [exact (upd_links _ _ _ _ E ltac:(done))|split; [|done]]].
  - apply (reps_loose w w' Q x); [exact HR|done|by eexists|by eexists|done].
  - rewrite seg_last. split_and!; [|done|by rewrite O].
    rewrite seg_last. split_and!; [|done|done]. eapply seg_ext; [|exact Hs]. intros y Hy. apply O. intros ->.
    apply NoDup_app in Hnd as (_ & Hd & _). apply (Hd x Hy). by left.
Qed.

Lemma last_null w q l e : seg w q l e -> List.last l NULL = NULL -> l = [].
Proof.
  destruct l as [|x l _] using rev_ind; [done|]. rewrite last_snoc_Z, seg_last. by intros (_ & ? & _).
Qed.

Lemma futex_take_spec owner as_ count q : forall fuel rest pre c w Q,
  reps w Q -> Q !! q = Some (pre ++ rest) -> chain w c -> (length rest < fuel)%nat ->
  Z.of_nat (length c) <= count -> is_u32 count ->
  let '(a, b) := wake_split owner as_ (count - Z.of_nat (length c)) rest in
  exists w', futex_take owner fuel w q as_ count (List.last pre NULL) (hd NULL rest) (hd NULL c)
      (List.last c NULL) (Z.of_nat (length c))
    = Some (hd NULL (c ++ a), Z.of_nat (length (c ++ a)), w') /\
    reps w' (<[q := pre ++ b]> Q) /\ same_bodies w w' /\ chain w' (c ++ a).
Proof.
  induction fuel as [|fuel IH]; intros rest pre c w Q HR Hq Hc Hf Hn Hu; [lia|].
  destruct rest as [|t r].
  { cbn. exists w. rewrite !app_nil_r in *. rewrite insert_id by done. by split_and!. }
  cbn [wake_split futex_take hd]. destruct (rp_queue _ _ HR q _ Hq) as (Hq0 & Hqs & Hseg & Hnd).
  apply seg_app in Hseg as [Hpre (Ht0 & Hlt & _)]. cbn [length] in Hf.
  rewrite (proj2 (Z.eqb_neq t NULL) Ht0). cbn [orb].
  replace (count <=? Z.of_nat (length c)) with (count - Z.of_nat (length c) <=? 0)
    by (destruct (Z.leb_spec (count - Z.of_nat (length c)) 0), (Z.leb_spec count (Z.of_nat (length c))); lia || done).
  destruct (Z.leb_spec (count - Z.of_nat (length c)) 0) as [Hstop|Hgo].
  { exists w. rewrite !app_nil_r, insert_id by done. by split_and!. }
  destruct (link_thread _ _ _ _ Hlt) as (th & Hth & Hnx & _). run_bind Hth.
  destruct (owner t =? as_).
  - destruct (unlink_here w Q q pre r t HR Hq) as (c0 & w1 & w2 & Hc0 & E1 & E2 & HR2 & Hb2 & _).
    assert (c0 = th) as -> by congruence. run_bind Hqs. run_bind E1. run_bind E2.
    assert (chain w2 c) as Hc2.
    { destruct Hc as [Hs Hcn]. split; [|done]. eapply seg_ext; [|exact Hs]. intros x Hx.
      pose proof (chain_not_queued w Q q _ c x HR Hq ltac:(by split) Hx) as Hxq.
      rewrite (upd_thread_other _ _ _ _ x E2); [|intros ->; apply Hxq, elem_of_app; right; by left].
      change (link w1.1 x = link w x). destruct (Z.eqb_spec (List.last pre NULL) NULL) as [|Hp]; cbn in E1.
      - by injection E1 as <-.
      - apply bind_Some in E1 as (w3 & E3 & [= <-]). apply (upd_thread_other _ _ _ _ x E3). intros ->.
        apply Hxq, elem_of_app. left. destruct pre as [|y pre _] using rev_ind; [done|].
        rewrite last_snoc_Z. apply elem_of_app. right. by left. }
    assert (t ∉ c) as Htc.
    { intros Hin. apply (chain_not_queued w Q q _ c t HR Hq Hc Hin). apply elem_of_app. right. by left. }
    destruct (chain_extend w2 _ c t HR2 Hc2 (upd_thread_clear _ _ _ E2) Ht0 Htc)
      as (w3 & E3 & HR3 & Hb3 & Hc3).
    rewrite Hnx.
    assert ((if negb (List.last c NULL =? NULL) then hd NULL c else t) = hd NULL (c ++ [t])) as ->.
    { destruct (Z.eqb_spec (List.last c NULL) NULL) as [He|He]; cbn.
      - by rewrite (last_null _ _ _ _ (proj1 Hc) He).
      - by destruct c. }
    run_bind E3. assert (Z.of_nat (length c) ⊞ 1 = Z.of_nat (length (c ++ [t]))) as ->.
    { rewrite length_app. cbn. unfold is_u32 in Hu. rewrite u32_small by lia. lia. }
    specialize (IH r pre (c ++ [t]) w3 (<[q := pre ++ r]> Q) HR3).
    rewrite lookup_insert_eq in IH. specialize (IH eq_refl Hc3 ltac:(lia)).
    rewrite length_app in IH |- *. cbn [length] in IH |- *.
    replace (count - Z.of_nat (length c + 1)) with (count - Z.of_nat (length c) - 1) in IH by lia.
    specialize (IH ltac:(lia) Hu). destruct (wake_split owner as_ (count - Z.of_nat (length c) - 1) r) as [a b].
    destruct IH as (w' & E & HR' & Hb' & Hc'). exists w'. rewrite last_snoc_Z in E.
    rewrite <- app_assoc in *. cbn [app] in *. split; [exact E|].
    rewrite insert_insert_eq in HR'. split_and!; [done| |done].
    eapply same_bodies_trans; [exact Hb2|]. by eapply same_bodies_trans.
  - specialize (IH r (pre ++ [t]) c w Q HR). rewrite <- app_assoc in IH. cbn [app] in IH.
    specialize (IH Hq Hc ltac:(lia) Hn Hu). rewrite last_snoc_Z, Hnx in *.
    destruct (wake_split owner as_ (count - Z.of_nat (length c)) r) as [a b].
    destruct IH as (w' & E & HR' & Hb' & Hc'). exists w'. rewrite <- app_assoc in HR'. by split_and!.
Qed.

Lemma wake_split_taken owner as_ : forall l count, 0 <= count ->
  (wake_split owner as_ count l).1 = take (Z.to_nat count) (filter (fun x => owner x = as_) l).
Proof.
  induction l as [|t r IH]; intros count Hc; cbn [wake_split]; [by rewrite filter_nil, take_nil|].
  destruct (Z.leb_spec count 0); [by replace count with 0 by lia|].
  rewrite filter_cons. destruct (Z.eqb_spec (owner t) as_) as [He|He].
  - rewrite decide_True by done. specialize (IH (count - 1) ltac:(lia)).
    destruct (wake_split owner as_ (count - 1) r) as [a b]. cbn [fst] in *.
    replace (Z.to_nat count) with (S (Z.to_nat (count - 1))) by lia. cbn. by rewrite IH.
  - rewrite decide_False by done. specialize (IH count Hc).
    destruct (wake_split owner as_ count r) as [a b]. done.
Qed.

Lemma filter_not_in_nil (l : list Z) : filter (fun x => x ∉ @nil Z) l = l.
Proof. apply filter_all. intros x _. by intros ?%not_elem_of_nil. Qed.

Lemma filter_skip (l a : list Z) t : t ∉ l ->
  filter (fun x => x ∉ t :: a) l = filter (fun x => x ∉ a) l.
Proof.
  intros Ht.
  induction l as [|y l IH]; [done|]. rewrite !filter_cons.
  assert (y <> t) as Hy by (intros ->; apply Ht; by left).
  assert (t ∉ l) as Hl by (intros ?; apply Ht; by right).
  destruct (decide (y ∈ a)) as [Ha|Ha].
  - rewrite !decide_False by (intros Hn; apply Hn; done || by right). auto.
  - rewrite !decide_True; [f_equal; auto|done|]. intros [->|?]%elem_of_cons; done.
Qed.

Lemma wake_split_left owner as_ : forall l count, NoDup l ->
  (forall x, x ∈ (wake_split owner as_ count l).1 -> x ∈ l) /\
  (wake_split owner as_ count l).2 = filter (fun x => x ∉ (wake_split owner as_ count l).1) l.
Proof.
  induction l as [|t r IH]; intros count Hnd; cbn [wake_split]; [done|].
  destruct (Z.leb_spec count 0).
  { cbn [fst snd]. split; [by intros x ?%not_elem_of_nil|by rewrite filter_not_in_nil]. }
  apply NoDup_cons in Hnd as [Ht Hnd]. destruct (Z.eqb_spec (owner t) as_) as [He|He].
  - destruct (IH (count - 1) Hnd) as [Hin Hb]. destruct (wake_split owner as_ (count - 1) r) as [a b].
    cbn [fst snd] in *. split; [intros x [->|?]%elem_of_cons; [by left|right; auto]|].
    rewrite filter_cons, decide_False by (intros Hn; apply Hn; by left). by rewrite filter_skip.
  - destruct (IH count Hnd) as [Hin Hb]. destruct (wake_split owner as_ count r) as [a b].
    cbn [fst snd] in *. split; [intros x Hx; right; auto|].
    rewrite filter_cons, decide_True by (intros Hn; by apply Ht, Hin). by f_equal.
Qed.

Lemma futex_unblock_spec fuel l : forall w A, matches w A -> chain w l -> (length l < fuel)%nat ->
  exists w', futex_unblock fuel w (hd NULL l) = Some w' /\ matches w' (fold_left a_unblock l A).
Proof.
  revert l. induction fuel as [|fuel IH]; intros l w A HM [Hs Hnd] Hf; [lia|]. cbn [futex_unblock].
  destruct l as [|t l]; [by exists w|]. cbn [hd]. destruct Hs as (Ht0 & Hl & Hs).
  rewrite (proj2 (Z.eqb_neq t NULL) Ht0). destruct (link_thread _ _ _ _ Hl) as (th & Hth & Hn & Hb).
  apply NoDup_cons in Hnd as [Htl Hnd]. cbn in Hf. run_bind Hth. rewrite Hn.
  destruct (upd_thread_spec w t (fun th => set_next th NULL) th Hth)
    as (w1 & E1 & T1 & Q1 & A1 & R1 & L1 & O1). run_bind E1. cbn [wq_next blocked_on set_next] in L1.
  pose proof (upd_links _ _ _ _ E1 ltac:(done)) as Hb1.
  assert (matches w1 A) as HM1.
  { replace A with (a_queues A (aq A)) by by destruct A. apply (matches_queues w); [done| |done].
    apply (reps_loose w w1 _ t); [apply HM|done|by eexists|rewrite Hb in L1; by eexists|done]. }
  destruct (unblock_spec w1 A t (set_next th NULL) HM1) as (w2 & E2 & HM2 & L2).
  { by rewrite T1, lookup_insert_eq. }
  run_bind E2. cbn [fold_left]. apply IH; [done| |lia]. split; [|done]. eapply seg_ext; [|exact Hs].
  intros x Hx. rewrite L2, O1; [done|]. by intros ->.
Qed.

(** ** The properties of the kernel's calls *)


(** futex_wait, up to the yield.  A word that cannot be read is EFAULT and a word that
    does not hold [val] is EAGAIN, and neither changes anything; otherwise the thread is
    the last of its bucket, blocked, with its timer armed when there is a timeout, unless the
    timer cannot be armed: then it is out of the bucket again, running, and the answer is
    ETIMEDOUT. *)
Theorem futex_wait_exact fuel w A t q cur val tmo room l :
  matches w A -> (S (size (abody A)) < fuel)%nat -> t <> NULL -> is_Some (abody A !! t) ->
  ~ queued A t -> aq A !! q = Some l ->
  let A' := a_body (a_timer (a_queues A (<[q := l ++ [t]]> (aq A)))
              (if 0 <? tmo then aarmed A ∪ {[t]} else aarmed A)) t (THREAD_BLOCKED, WAIT_OK) in
  match cur with
  | None => futex_wait_section fuel w t q cur val tmo room = Some (Answer FUTEX_EFAULT, w)
  | Some c =>
      if negb (c =? val) then
        futex_wait_section fuel w t q cur val tmo room = Some (Answer FUTEX_EAGAIN, w)
      else if (0 <? tmo) && negb room then
        exists w', futex_wait_section fuel w t q cur val tmo room = Some (Answer FUTEX_ETIMEDOUT, w') /\
          matches w' (a_body (a_timer A (aarmed A ∖ {[t]})) t (THREAD_RUNNING, WAIT_OK))
      else exists w', futex_wait_section fuel w t q cur val tmo room = Some (Sleeps, w') /\ matches w' A'
  end.
Proof.
  intros HM Hf Ht0 Hb Hno Hq A'. destruct cur as [c|]; [|done]. cbn [futex_wait_section].
  destruct (negb (c =? val)); [done|].
  pose proof (not_queued_unqueued w A t HM Hb Hno) as Hun.
  destruct (enqueue_spec w (aq A) q l t (ma_reps _ _ HM) Hq Hun Ht0) as (w1 & E1 & HR1 & Hb1).
  pose proof (matches_queues w w1 A _ HM HR1 Hb1) as HM1. run_bind E1.
  destruct Hb as [b Hb]. destruct (matches_thread w1 _ t b HM1 Hb) as (th & Hth & _).
  destruct (upd_body_spec w1 _ t (fun th => set_state (set_result th WAIT_OK) THREAD_BLOCKED) th HM1 Hth)
    as (w2 & E2 & HM2 & L2 & Ht2 & A2); [done|]. run_bind E2.
  cbn [state wait_result set_state set_result] in HM2. unfold A'. destruct (0 <? tmo); cbn [andb].
  2: { exists w2. split; [done|]. destruct HM2. by constructor. }
  assert (armed w2 = aarmed A) as Harm by (by rewrite A2, (sb_armed _ _ Hb1), (ma_armed _ _ HM)).
  destruct room; cbn [negb].
  { eexists. split; [reflexivity|]. rewrite <- Harm. exact (matches_timer _ _ (armed w2 ∪ {[t]}) HM2). }
  pose proof (matches_timer _ _ (armed w2 ∖ {[t]}) HM2) as HM3.
  change (with_armed w2 (armed w2 ∖ {[t]})) with (timer_cancel w2 t) in HM3.
  assert (t ∉ l) as Htl by (intros Hin; apply Hno; by exists q, l).
  destruct (unlink_spec fuel (timer_cancel w2 t) (<[q := l ++ [t]]> (aq A)) q (l ++ [t]) t)
    as (w4 & E4 & HR4 & Hb4 & _).
  { exact (ma_reps _ _ HM3). }
  { by rewrite lookup_insert_eq. }
  { rewrite length_app. cbn. pose proof (queue_short w A q l HM Hq). lia. }
  run_bind E4. rewrite insert_insert_eq, without_snoc, insert_id in HR4 by done.
  pose proof (matches_queues _ w4 _ (aq A) HM3 HR4 Hb4) as HM4.
  destruct (matches_thread w4 _ t (THREAD_BLOCKED, WAIT_OK) HM4) as (th4 & Hth4 & Hst4).
  { cbn. by rewrite lookup_insert_eq. }
  destruct (upd_body_spec w4 _ t (fun th => set_state th THREAD_RUNNING) th4 HM4 Hth4)
    as (w5 & E5 & HM5 & _); [done|]. run_bind E5. exists w5. split; [done|].
  cbn [state wait_result set_state] in HM5. injection Hst4 as _ Hres. rewrite <- Hres in HM5.
  destruct HM5 as [HR5 Hb5 Ha5 Hr5]. constructor; cbn in *; [done| |by rewrite <- Harm|done].
  intros x. rewrite <- Hb5. destruct (decide (x = t)) as [->|]; [by rewrite !lookup_insert_eq|].
  by rewrite !lookup_insert_ne.
Qed.

Lemma demo_not_queued t : ~ queued demo_aworld t.
Proof.
  intros (q & l & Hq & Ht). cbn in Hq. rewrite lookup_insert_Some, lookup_empty in Hq.
  destruct Hq as [[_ <-]|[_ [=]]]. by apply not_elem_of_nil in Ht.
Qed.

Lemma futex_wait_exact_witness :
  exists w', futex_wait_section 5 demo_world 1 100 (Some 7) 7 50 true = Some (Sleeps, w') /\
    armed w' = {[1]}.
Proof.
  destruct (futex_wait_exact 5 demo_world demo_aworld 1 100 (Some 7) 7 50 true [] demo_matches)
    as (w' & E & HM).
  - vm_compute. lia.
  - discriminate.
  - eexists. vm_compute. reflexivity.
  - apply demo_not_queued.
  - vm_compute. reflexivity.
  - exists w'. split; [exact E|]. rewrite <- (ma_armed _ _ HM). vm_compute. reflexivity.
Defined.


(** The woken threads are chained through [wq_next] outside every lock.  Three threads sleep in
    bucket 100, the second with a timeout, and all three are taken; when the first has been
    made runnable the timer of the second fires, it returns and sleeps on the futex again,
    which clears its [wq_next]: the loop ends there, and the third thread is blocked in no
    queue, with no timer, for ever. *)
Definition three_sleepers : world :=
  mk_world (<[1 := mk_thread THREAD_BLOCKED 2 100 0]> (<[2 := mk_thread THREAD_BLOCKED 3 100 0]>
      (<[3 := mk_thread THREAD_BLOCKED 0 100 0]> ∅)))
    (<[100 := mk_wq 1 3]> ∅) {[2]} [].

Remark chain_cut_by_timer :
  ('(wh, n, w1) ← futex_take (fun _ => 0) 9 three_sleepers 100 0 8 NULL 1 NULL NULL 0;
   th1 ← threads w1 !! wh;
   w2 ← upd_thread w1 wh (fun th => set_next th NULL);
   w3 ← scheduler_unblock w2 wh;
   w4 ← scheduler_sleep_timer_fire 9 (with_armed w3 ∅) 2;
   '(r, w5) ← futex_wait_end w4 2;
   '(o, w6) ← futex_wait_section 9 w5 2 100 (Some 7) 7 0 true;
   w7 ← futex_unblock 9 w6 (wq_next th1);
   th3 ← threads w7 !! 3;
   Some (n, r, ready w7, state th3, blocked_on th3, elements (armed w7)))
  = Some (3, FUTEX_OK, [1; 2; 2], THREAD_BLOCKED, NULL, []).
Proof. by vm_compute. Qed.

(** ** The mutex of the C library *)

Lemma lookup_foldr_alter {A} (f : A -> A) (p : gmap Z A) (a : list Z) u : NoDup a ->
  foldr (alter f) p a !! u = if decide (u ∈ a) then f <$> p !! u else p !! u.
Proof.
  induction a as [|x a IH]; intros Hnd; [done|]. apply NoDup_cons in Hnd as [Hx Hnd]. cbn [foldr].
  specialize (IH Hnd). destruct (decide (u = x)) as [->|Hne].
  - rewrite lookup_alter_eq, IH, decide_False, decide_True by (done || by left). done.
  - rewrite lookup_alter_ne, IH by done. apply decide_ext. rewrite elem_of_cons. tauto.
Qed.

(** What the section of futex_wake takes, when it finds somebody of the process. *)
Lemma split_one owner as_ l : NoDup l ->
  let '(a, b) := wake_split owner as_ 1 l in
  NoDup a /\ (forall x, x ∈ a -> x ∈ l /\ owner x = as_) /\ NoDup b /\
  (forall x, x ∈ b <-> x ∈ l /\ x ∉ a) /\
  ((exists x, x ∈ l /\ owner x = as_) -> exists y, a = [y]).
Proof.
  intros Hnd. destruct (wake_split_left owner as_ l 1 Hnd) as [Hin Hb].
  pose proof (wake_split_taken owner as_ l 1 ltac:(lia)) as Ha.
  destruct (wake_split owner as_ 1 l) as [a b]. cbn [fst snd] in *.
  change (Z.to_nat 1) with 1%nat in Ha.
  assert (forall x, x ∈ a -> x ∈ filter (fun x => owner x = as_) l) as Hf.
  { intros x Hx. rewrite Ha in Hx. by apply elem_of_take in Hx as (i & Hi & _); apply list_elem_of_lookup_2 in Hi. }
  split_and!.
  - rewrite Ha. destruct (filter (fun x => owner x = as_) l) as [|y r]; cbn; [constructor|rewrite take_0; apply NoDup_singleton].
  - intros x Hx. split; [auto|]. apply Hf in Hx. by apply list_elem_of_filter in Hx as [? _].
  - rewrite Hb. by apply NoDup_filter.
  - intros x. rewrite Hb, list_elem_of_filter. tauto.
  - intros (x & Hx & Ho). rewrite Ha. destruct (filter (fun x => owner x = as_) l) as [|y r] eqn:He.
    + assert (x ∈ filter (fun x => owner x = as_) l) as Hx' by (by apply list_elem_of_filter).
      rewrite He in Hx'. by apply not_elem_of_nil in Hx'.
    + exists y. cbn. by rewrite take_0.
Qed.

Module Fmutex.
Section mutex.
Context (s_buckets : Z) (owner : Z -> Z).

(** Where a thread is: in nobody's code, or in the call on the word at [m]. *)
Inductive fpc :=
  | FIdle
  | FXchg (m : Z)            (* dob_mutex_lock, before an exchange with 2 *)
  | FWait (m : Z)            (* before the section of futex_wait *)
  | FAsleep (m : Z)          (* in the bucket *)
  | FTaken (m : Z)           (* out of the bucket, not runnable yet *)
  | FWake (m : Z)            (* dob_mutex_unlock, before the section of futex_wake *)
  | FUnblock (ts : list Z).  (* futex_wake, with these threads to unblock *)

(** The words by process and address, the buckets, the threads, and who holds what. *)
Record state := mk_state {
  word : gmap (Z * Z) Z;
  bucket : gmap Z (list Z);
  pcs : gmap Z fpc;
  held : gset (Z * Z)
}.

Definition goto (s : state) (t : Z) (p : fpc) : state :=
  mk_state (word s) (bucket s) (<[t := p]> (pcs s)) (held s).
Definition set_word (s : state) (t m v : Z) : state :=
  mk_state (<[(owner t, m) := v]> (word s)) (bucket s) (pcs s) (held s).
Definition set_bucket (s : state) (q : Z) (l : list Z) : state :=
  mk_state (word s) (<[q := l]> (bucket s)) (pcs s) (held s).
Definition acquire (s : state) (t m : Z) : state :=
  mk_state (word s) (bucket s) (pcs s) (held s ∪ {[(t, m)]}).
Definition release (s : state) (t m : Z) : state :=
  mk_state (word s) (bucket s) (pcs s) (held s ∖ {[(t, m)]}).

Definition queue_of (t m : Z) : Z := bucket_for s_buckets (owner t) m.

(** The compare-and-swap that opens dob_mutex_lock. *)
Definition dob_mutex_lock (s : state) (t m : Z) : option state :=
  c ← word s !! (owner t, m);
  if c =? 0 then Some (acquire (set_word s t m 1) t m)
  else Some (goto s t (if c =? 2 then FWait m else FXchg m)).

(** [c = _dm_xchg(m, 2)] *)
Definition lock_xchg (s : state) (t m : Z) : option state :=
  c ← word s !! (owner t, m);
  let s1 := set_word s t m 2 in
  Some (if c =? 0 then goto (acquire s1 t m) t FIdle else goto s1 t (FWait m)).

(** futex_wait(m, 2, 0): any answer leads to the next exchange. *)
Definition lock_wait (s : state) (t m : Z) : option state :=
  if negb (Z.land m 3 =? 0) then Some (goto s t (FXchg m))
  else
    l ← bucket s !! queue_of t m;
    match word s !! (owner t, m) with
    | None => Some (goto s t (FXchg m))
    | Some c =>
        if negb (c =? 2) then Some (goto s t (FXchg m))
        else Some (goto (set_bucket s (queue_of t m) (l ++ [t])) t (FAsleep m))
    end.

Definition dob_mutex_trylock (s : state) (t m : Z) : option state :=
  c ← word s !! (owner t, m);
  Some (if c =? 0 then acquire (set_word s t m 1) t m else s).

Definition dob_mutex_unlock (s : state) (t m : Z) : option state :=
  c ← word s !! (owner t, m);
  Some (goto (release (set_word s t m 0) t m) t (if c =? 2 then FWake m else FIdle)).

Definition take_out (p : fpc) : fpc := match p with FAsleep m => FTaken m | _ => p end.
Definition make_ready (p : fpc) : fpc := match p with FTaken m => FXchg m | _ => p end.

(** The section of futex_wake(m, 1). *)
Definition unlock_wake (s : state) (t m : Z) : option state :=
  if negb (Z.land m 3 =? 0) then Some (goto s t FIdle)
  else
    l ← bucket s !! queue_of t m;
    let '(a, b) := wake_split owner (owner t) 1 l in
    let s1 := set_bucket s (queue_of t m) b in
    let s2 := mk_state (word s1) (bucket s1) (foldr (alter take_out) (pcs s1) a) (held s1) in
    Some (goto s2 t (FUnblock a)).

(** One scheduler_unblock of its second loop. *)
Definition unlock_unblock (s : state) (t : Z) (ts : list Z) : state :=
  match ts with
  | [] => goto s t FIdle
  | u :: us => goto (mk_state (word s) (bucket s) (alter make_ready u (pcs s)) (held s)) t (FUnblock us)
  end.

Inductive act := ALock (t m : Z) | ATry (t m : Z) | AUnlock (t m : Z) | ANext (t : Z).

(** Calls are made by idle threads; only the holder unlocks. *)
Definition run_act (s : state) (a : act) : option state :=
  match a with
  | ALock t m => match pcs s !! t with Some FIdle => dob_mutex_lock s t m | _ => None end
  | ATry t m => match pcs s !! t with Some FIdle => dob_mutex_trylock s t m | _ => None end
  | AUnlock t m =>
      match pcs s !! t with
      | Some FIdle => if decide ((t, m) ∈ held s) then dob_mutex_unlock s t m else None
      | _ => None
      end
  | ANext t =>
      match pcs s !! t with
      | Some (FXchg m) => lock_xchg s t m
      | Some (FWait m) => lock_wait s t m
      | Some (FWake m) => unlock_wake s t m
      | Some (FUnblock ts) => Some (unlock_unblock s t ts)
      | _ => None
      end
  end.

Definition step (s s' : state) : Prop := exists a, run_act s a = Some s'.

Definition start (s : state) : Prop :=
  (forall k c, word s !! k = Some c -> c = 0) /\
  (forall i, 0 <= i < FUTEX_BUCKETS -> bucket s !! (s_buckets + i) = Some []) /\
  (forall q l, bucket s !! q = Some l -> l = []) /\
  (forall t p, pcs s !! t = Some p -> p = FIdle) /\ held s = ∅.

(** The mutexes of one process live in different buckets. *)
Definition apart (s : state) : Prop :=
  forall a m m', is_Some (word s !! (a, m)) -> is_Some (word s !! (a, m')) ->
    bucket_for s_buckets a m = bucket_for s_buckets a m' -> m = m'.

(** Threads that will set the word to 2, or wake somebody who will. *)
Definition on_its_way (p : fpc) (m : Z) : Prop := p = FXchg m \/ p = FTaken m \/ p = FWake m.
Definition in_flight (s : state) (a m : Z) : Prop :=
  exists u p, pcs s !! u = Some p /\ owner u = a /\ on_its_way p m.

Definition mutex_of (p : fpc) : option Z :=
  match p with
  | FXchg m | FWait m | FAsleep m | FTaken m | FWake m => Some m
  | FIdle | FUnblock _ => None
  end.

(** The words and their holders. *)
Record mem_inv (s : state) : Prop := {
  mi_word : forall a m c, word s !! (a, m) = Some c -> (c = 0 \/ c = 1 \/ c = 2) /\
    (c = 0 <-> forall t, (t, m) ∈ held s -> owner t <> a);
  mi_held : forall t t' m, (t, m) ∈ held s -> (t', m) ∈ held s -> owner t = owner t' -> t = t';
  mi_mapped : forall t m, (t, m) ∈ held s -> is_Some (word s !! (owner t, m))
}.

(** The buckets and the threads in them. *)
Record queue_inv (s : state) : Prop := {
  qi_buckets : forall i, 0 <= i < FUTEX_BUCKETS -> is_Some (bucket s !! (s_buckets + i));
  qi_queue : forall q l t, bucket s !! q = Some l -> t ∈ l ->
    exists m, pcs s !! t = Some (FAsleep m) /\ queue_of t m = q;
  qi_nodup : forall q l, bucket s !! q = Some l -> NoDup l;
  qi_asleep : forall t m, pcs s !! t = Some (FAsleep m) -> Z.land m 3 = 0 /\
    exists l, bucket s !! queue_of t m = Some l /\ t ∈ l;
  qi_taken : forall t m, pcs s !! t = Some (FTaken m) ->
    exists u ts, pcs s !! u = Some (FUnblock ts) /\ t ∈ ts
}.

Record inv (s : state) : Prop := {
  iv_mem : mem_inv s;
  iv_queue : queue_inv s;
  iv_mapped : forall t p m, pcs s !! t = Some p -> mutex_of p = Some m ->
    is_Some (word s !! (owner t, m));
  iv_wake : forall t m, pcs s !! t = Some (FAsleep m) ->
    word s !! (owner t, m) = Some 2 \/ in_flight s (owner t) m
}.

(** *** Words and holders *)

Lemma mem_same s s' : word s' = word s -> held s' = held s -> mem_inv s -> mem_inv s'.
Proof. intros Hw Hh []. constructor; rewrite ?Hw, ?Hh; done. Qed.

Lemma holder_add (H : gset (Z * Z)) t m u m' :
  (u, m') ∈ H ∪ {[(t, m)]} <-> (u, m') ∈ H \/ (u = t /\ m' = m).
Proof. rewrite elem_of_union, elem_of_singleton, pair_equal_spec. done. Qed.

Lemma held_sub (H : gset (Z * Z)) t m u m' :
  (u, m') ∈ H ∖ {[(t, m)]} <-> (u, m') ∈ H /\ ~ (u = t /\ m' = m).
Proof. rewrite elem_of_difference, elem_of_singleton, pair_equal_spec. done. Qed.

Lemma mem_acquire s s' t m v : mem_inv s -> word s !! (owner t, m) = Some 0 -> v = 1 \/ v = 2 ->
  word s' = <[(owner t, m) := v]> (word s) -> held s' = held s ∪ {[(t, m)]} -> mem_inv s'.
Proof.
  intros [HW HH HM] H0 Hv Hw Hh.
  assert (forall u, (u, m) ∈ held s -> owner u <> owner t) as Hno by (by apply HW in H0 as [_ [H0 _]]; auto).
  constructor; rewrite ?Hw, ?Hh.
  - intros a m' c. destruct (decide ((owner t, m) = (a, m'))) as [[= <- <-]|Hne].
    + rewrite lookup_insert_eq. intros [= <-]. split; [tauto|]. split; [lia|].
      intros Hn. exfalso. apply (Hn t); [|done]. apply holder_add. auto.
    + rewrite lookup_insert_ne by done. intros Hc. destruct (HW a m' c Hc) as [Hr Hi].
      split; [done|]. rewrite Hi. split; intros Hx u Hu; [|apply Hx, holder_add; auto].
      apply holder_add in Hu as [Hu|[-> ->]]; [by apply Hx|]. intros <-. done.
  - intros u u' m'. rewrite !holder_add. intros [Hu|[-> ->]] [Hu'|[-> Hm]] Ho; try done.
    + by eapply HH.
    + subst. by destruct (Hno u Hu).
    + by destruct (Hno u' Hu').
  - intros u m'. rewrite holder_add.
    destruct (decide ((owner t, m) = (owner u, m'))) as [<-|Hne];
      [rewrite lookup_insert_eq; by eexists|rewrite lookup_insert_ne by done].
    intros [Hu|[-> ->]]; [by apply HM|done].
Qed.

Lemma mem_contend s s' a m c : mem_inv s -> word s !! (a, m) = Some c -> c <> 0 ->
  word s' = <[(a, m) := 2]> (word s) -> held s' = held s -> mem_inv s'.
Proof.
  intros [HW HH HM] Hc H0 Hw Hh. constructor; rewrite ?Hw, ?Hh; [|done|].
  - intros a' m' c'. destruct (decide ((a, m) = (a', m'))) as [[= <- <-]|Hne].
    + rewrite lookup_insert_eq. intros [= <-]. split; [tauto|]. split; [lia|].
      intros Hn. exfalso. apply H0. by apply (HW a m c Hc).
    + rewrite lookup_insert_ne by done. apply HW.
  - intros u m' Hu. destruct (decide ((a, m) = (owner u, m'))) as [<-|Hne];
      [rewrite lookup_insert_eq; by eexists|rewrite lookup_insert_ne by done; by apply HM].
Qed.

Lemma mem_release s s' t m : mem_inv s -> (t, m) ∈ held s ->
  word s' = <[(owner t, m) := 0]> (word s) -> held s' = held s ∖ {[(t, m)]} -> mem_inv s'.
Proof.
  intros [HW HH HM] Ht Hw Hh. constructor; rewrite ?Hw, ?Hh.
  - intros a m' c. destruct (decide ((owner t, m) = (a, m'))) as [[= <- <-]|Hne].
    + rewrite lookup_insert_eq. intros [= <-]. split; [tauto|]. split; [|done]. intros _ u Hu Ho.
      apply held_sub in Hu as [Hu Hn]. apply Hn. split; [by apply (HH u t m)|done].
    + rewrite lookup_insert_ne by done. intros Hc. destruct (HW a m' c Hc) as [Hr Hi].
      split; [done|]. rewrite Hi. split; intros Hx u Hu; [apply held_sub in Hu as [Hu _]; auto|].
      intros <-. apply (Hx u); [|done]. apply held_sub. split; [done|]. by intros [-> ->].
  - intros u u' m'. rewrite !held_sub. intros [Hu _] [Hu' _]. by apply (HH u u' m').
  - intros u m' [Hu _]%held_sub. destruct (decide ((owner t, m) = (owner u, m'))) as [<-|Hne];
      [rewrite lookup_insert_eq; by eexists|rewrite lookup_insert_ne by done; by apply HM].
Qed.

(** *** Buckets and threads *)

Definition simple (p : fpc) : Prop :=
  match p with FIdle | FXchg _ | FWait _ | FWake _ => True | FUnblock ts => ts = [] | _ => False end.

Lemma queue_goto s s' t p p' : queue_inv s -> pcs s !! t = Some p -> simple p -> simple p' ->
  bucket s' = bucket s -> pcs s' = <[t := p']> (pcs s) -> queue_inv s'.
Proof.
  intros [QB QQ QN QA QT] Ht Hp Hp' Hb Hpc. constructor; rewrite ?Hb, ?Hpc; [done| |done|..].
  - intros q l u Hq Hu. destruct (QQ q l u Hq Hu) as (m & Hm & Hqm). exists m.
    rewrite lookup_insert_ne; [done|]. intros ->. rewrite Ht in Hm. injection Hm as ->. done.
  - intros u m Hu. destruct (decide (u = t)) as [->|Hne].
    + rewrite lookup_insert_eq in Hu. by injection Hu as ->.
    + rewrite lookup_insert_ne in Hu by done. auto.
  - intros u m Hu. destruct (decide (u = t)) as [->|Hne].
    + rewrite lookup_insert_eq in Hu. by injection Hu as ->.
    + rewrite lookup_insert_ne in Hu by done. destruct (QT u m Hu) as (w & ts & Hw & Hin).
      exists w, ts. rewrite lookup_insert_ne; [done|]. intros ->. rewrite Ht in Hw.
      injection Hw as ->. cbn in Hp. subst ts. by apply not_elem_of_nil in Hin.
Qed.

Lemma in_flight_goto s s' t p p' a m : in_flight s a m -> pcs s !! t = Some p ->
  (on_its_way p m -> owner t = a -> on_its_way p' m) -> pcs s' = <[t := p']> (pcs s) ->
  in_flight s' a m.
Proof.
  intros (u & pu & Hu & Ho & Hw) Ht Hp Hpc. unfold in_flight. rewrite Hpc.
  destruct (decide (u = t)) as [->|Hne].
  - exists t, p'. rewrite lookup_insert_eq. rewrite Ht in Hu. injection Hu as <-. auto.
  - exists u, pu. by rewrite lookup_insert_ne.
Qed.

Lemma on_its_way_of p m m' : mutex_of p = Some m -> on_its_way p m' -> m' = m.
Proof. intros Hp [->|[->| ->]]; cbn in Hp; congruence. Qed.

(** A step of one thread on the word of one mutex [m], with no change of the buckets. *)
Lemma inv_word s s' t p p' m v : inv s -> pcs s !! t = Some p -> simple p -> simple p' ->
  (p = FIdle \/ mutex_of p = Some m) -> (p' = FIdle \/ mutex_of p' = Some m) ->
  bucket s' = bucket s -> pcs s' = <[t := p']> (pcs s) ->
  word s' = <[(owner t, m) := v]> (word s) -> is_Some (word s !! (owner t, m)) -> mem_inv s' ->
  (v = 2 \/ on_its_way p' m \/ (word s !! (owner t, m) <> Some 2 /\ ~ on_its_way p m)) ->
  inv s'.
Proof.
  intros [IM IQ IP IW] Ht Hp Hp' Hm Hm' Hb Hpc Hw Hmap HM' Hv.
  assert (forall k, is_Some (word s !! k) -> is_Some (word s' !! k)) as Hkeep.
  { intros k Hk. rewrite Hw. destruct (decide (k = (owner t, m))) as [->|];
      [rewrite lookup_insert_eq; by eexists|by rewrite lookup_insert_ne]. }
  constructor; [done|by apply (queue_goto s s' t p p')|..]; rewrite Hpc.
  - intros u pu mu Hu Hmu. apply Hkeep. destruct (decide (u = t)) as [->|Hne].
    + rewrite lookup_insert_eq in Hu. injection Hu as <-.
      destruct Hm' as [->|Hm']; [done|]. congruence.
    + rewrite lookup_insert_ne in Hu by done. by eapply IP.
  - intros u mu Hu. destruct (decide (u = t)) as [->|Hne].
    { rewrite lookup_insert_eq in Hu. injection Hu as ->. done. }
    rewrite lookup_insert_ne in Hu by done.
    destruct (decide ((owner t, m) = (owner u, mu))) as [[= Ho <-]|Hk].
    + rewrite Hw, Ho, lookup_insert_eq.
      destruct Hv as [->|[Hway|[H2 Hway]]]; [by left|right|right].
      * exists t, p'. rewrite Hpc, lookup_insert_eq. by split_and!.
      * destruct (IW u m Hu) as [Hx|Hx]; [by rewrite <- Ho in Hx|].
        by apply (in_flight_goto s s' t p p').
    + rewrite Hw, lookup_insert_ne by done. destruct (IW u mu Hu) as [Hx|Hx]; [by left|right].
      apply (in_flight_goto s s' t p p'); try done. intros Hway Ho. exfalso. apply Hk.
      destruct Hm as [->|Hm]; [by destruct Hway as [|[|]]|].
      by rewrite Ho, (on_its_way_of p m mu Hm Hway).
Qed.

(** *** Into the bucket and out of it *)

Lemma queue_enqueue s t m l : queue_inv s -> pcs s !! t = Some (FWait m) -> Z.land m 3 = 0 ->
  bucket s !! queue_of t m = Some l ->
  queue_inv (goto (set_bucket s (queue_of t m) (l ++ [t])) t (FAsleep m)).
Proof.
  intros [QB QQ QN QA QT] Ht Hm Hl.
  assert (forall q l' , bucket s !! q = Some l' -> t ∉ l') as Hout.
  { intros q l' Hq Hin. destruct (QQ q l' t Hq Hin) as (m' & Hm' & _). congruence. }
  constructor; cbn [bucket pcs goto set_bucket].
  - intros i Hi. destruct (decide (queue_of t m = s_buckets + i)) as [->|];
      [rewrite lookup_insert_eq; by eexists|rewrite lookup_insert_ne by done; auto].
  - intros q l' u Hq Hu. destruct (decide (queue_of t m = q)) as [<-|Hne].
    + rewrite lookup_insert_eq in Hq. injection Hq as <-.
      apply elem_of_app in Hu as [Hu| ->%list_elem_of_singleton].
      * destruct (QQ _ l u Hl Hu) as (mu & Hmu & Hqu). exists mu.
        rewrite lookup_insert_ne; [done|]. intros ->. by apply (Hout _ l Hl).
      * exists m. by rewrite lookup_insert_eq.
    + rewrite lookup_insert_ne in Hq by done. destruct (QQ q l' u Hq Hu) as (mu & Hmu & Hqu).
      exists mu. rewrite lookup_insert_ne; [done|]. intros ->. by apply (Hout _ l' Hq).
  - intros q l' Hq. destruct (decide (queue_of t m = q)) as [<-|Hne].
    + rewrite lookup_insert_eq in Hq. injection Hq as <-. apply NoDup_app.
      split_and!; [by eapply QN| |apply NoDup_singleton].
      intros x Hx ->%list_elem_of_singleton. by apply (Hout _ l Hl).
    + rewrite lookup_insert_ne in Hq by done. by eapply QN.
  - intros u mu Hu. destruct (decide (u = t)) as [->|Hne].
    + rewrite lookup_insert_eq in Hu. injection Hu as <-. split; [done|]. exists (l ++ [t]).
      rewrite lookup_insert_eq. split; [done|]. apply elem_of_app. right. by left.
    + rewrite lookup_insert_ne in Hu by done. destruct (QA u mu Hu) as (Hal & lu & Hlu & Hin).
      split; [done|]. destruct (decide (queue_of t m = queue_of u mu)) as [He|He].
      * rewrite <- He in *. exists (l ++ [t]). rewrite lookup_insert_eq. split; [done|].
        simplify_eq. apply elem_of_app. by left.
      * exists lu. by rewrite lookup_insert_ne.
  - intros u mu Hu. destruct (decide (u = t)) as [->|Hne];
      [rewrite lookup_insert_eq in Hu; discriminate|].
    rewrite lookup_insert_ne in Hu by done. destruct (QT u mu Hu) as (w & ts & Hw & Hin).
    exists w, ts. rewrite lookup_insert_ne; [done|]. intros ->. congruence.
Qed.

Lemma queue_wake s t m l a b : queue_inv s -> pcs s !! t = Some (FWake m) ->
  bucket s !! queue_of t m = Some l -> wake_split owner (owner t) 1 l = (a, b) ->
  queue_inv (mk_state (word s) (<[queue_of t m := b]> (bucket s))
    (<[t := FUnblock a]> (foldr (alter take_out) (pcs s) a)) (held s)).
Proof.
  intros [QB QQ QN QA QT] Ht Hl Hs. pose proof (split_one owner (owner t) l (QN _ _ Hl)) as H1.
  rewrite Hs in H1. destruct H1 as (Hna & Hal & Hnb & Hbl & _). set (q0 := queue_of t m) in *.
  assert (forall q l', bucket s !! q = Some l' -> t ∉ l') as Hout.
  { intros q l' Hq Hin. destruct (QQ q l' t Hq Hin) as (m' & Hm' & _). congruence. }
  assert (forall u, u <> t -> <[t := FUnblock a]> (foldr (alter take_out) (pcs s) a) !! u
            = if decide (u ∈ a) then take_out <$> pcs s !! u else pcs s !! u) as Hpc.
  { intros u Hu. rewrite lookup_insert_ne by done. by apply lookup_foldr_alter. }
  constructor; cbn [bucket pcs].
  - intros i Hi. destruct (decide (q0 = s_buckets + i)) as [->|];
      [rewrite lookup_insert_eq; by eexists|rewrite lookup_insert_ne by done; auto].
  - intros q l' u Hq Hu.
    assert (exists l0, bucket s !! q = Some l0 /\ u ∈ l0 /\ u ∉ a) as (l0 & Hl0 & Hu0 & Hua).
    { destruct (decide (q0 = q)) as [<-|Hne].
      - rewrite lookup_insert_eq in Hq. injection Hq as <-. exists l. apply Hbl in Hu. tauto.
      - rewrite lookup_insert_ne in Hq by done. exists l'. split_and!; try done. intros Ha.
        destruct (QQ q l' u Hq Hu) as (mu & Hmu & <-).
        destruct (QQ q0 l u Hl (proj1 (Hal u Ha))) as (mu' & Hmu' & Hqu). congruence. }
    destruct (QQ q l0 u Hl0 Hu0) as (mu & Hmu & Hqu). exists mu. split; [|done].
    rewrite Hpc by (intros ->; by apply (Hout q l0)). by rewrite decide_False.
  - intros q l' Hq. destruct (decide (q0 = q)) as [<-|Hne].
    + rewrite lookup_insert_eq in Hq. by injection Hq as <-.
    + rewrite lookup_insert_ne in Hq by done. by eapply QN.
  - intros u mu Hu. destruct (decide (u = t)) as [->|Hne];
      [rewrite lookup_insert_eq in Hu; discriminate|]. rewrite Hpc in Hu by done.
    destruct (decide (u ∈ a)) as [Ha|Ha].
    { destruct (pcs s !! u) as [p|]; [|done]. cbn in Hu. injection Hu as Hu. by destruct p. }
    destruct (QA u mu Hu) as (Hal0 & lu & Hlu & Hin). split; [done|].
    destruct (decide (q0 = queue_of u mu)) as [He|He].
    + exists b. rewrite <- He, lookup_insert_eq in *. split; [done|]. apply Hbl. simplify_eq. done.
    + exists lu. by rewrite lookup_insert_ne.
  - intros u mu Hu. destruct (decide (u = t)) as [->|Hne];
      [rewrite lookup_insert_eq in Hu; discriminate|]. rewrite Hpc in Hu by done.
    destruct (decide (u ∈ a)) as [Ha|Ha]; [exists t, a; by rewrite lookup_insert_eq|].
    destruct (QT u mu Hu) as (w & ts & Hw & Hin). exists w, ts. split; [|done].
    rewrite Hpc by (intros ->; congruence). rewrite Hw. by destruct (decide (w ∈ a)).
Qed.

Lemma queue_unblock s t u us : queue_inv s -> pcs s !! t = Some (FUnblock (u :: us)) ->
  queue_inv (mk_state (word s) (bucket s) (<[t := FUnblock us]> (alter make_ready u (pcs s))) (held s)).
Proof.
  intros [QB QQ QN QA QT] Ht.
  assert (forall x, x <> t -> <[t := FUnblock us]> (alter make_ready u (pcs s)) !! x
            = if decide (x = u) then make_ready <$> pcs s !! x else pcs s !! x) as Hpc.
  { intros x Hx. rewrite lookup_insert_ne by done. destruct (decide (x = u)) as [->|];
      [apply lookup_alter_eq|by apply lookup_alter_ne]. }
  constructor; cbn [bucket pcs]; [done| |done|..].
  - intros q l x Hq Hx. destruct (QQ q l x Hq Hx) as (mx & Hmx & Hqx). exists mx. split; [|done].
    rewrite Hpc by (intros ->; congruence). rewrite Hmx. by destruct (decide (x = u)).
  - intros x mx Hx. destruct (decide (x = t)) as [->|Hne];
      [rewrite lookup_insert_eq in Hx; discriminate|]. rewrite Hpc in Hx by done.
    apply QA. destruct (decide (x = u)); [|done]. destruct (pcs s !! x) as [p|]; [|done].
    cbn in Hx. injection Hx as Hx. destruct p; cbn in Hx; congruence.
  - intros x mx Hx. destruct (decide (x = t)) as [->|Hne];
      [rewrite lookup_insert_eq in Hx; discriminate|]. rewrite Hpc in Hx by done.
    destruct (decide (x = u)) as [->|Hxu].
    { destruct (pcs s !! u) as [p|]; [|done]. cbn in Hx. injection Hx as Hx. by destruct p. }
    destruct (QT x mx Hx) as (w & ts & Hw & Hin). destruct (decide (w = t)) as [->|Hwt].
    + exists t, us. rewrite lookup_insert_eq. split; [done|]. rewrite Ht in Hw. injection Hw as <-.
      by apply elem_of_cons in Hin as [->|?].
    + exists w, ts. rewrite Hpc by done. split; [|done]. rewrite Hw. by destruct (decide (w = u)).
Qed.

(** *** Each step *)

Lemma inv_enqueue s t m l : inv s -> pcs s !! t = Some (FWait m) -> Z.land m 3 = 0 ->
  bucket s !! queue_of t m = Some l -> word s !! (owner t, m) = Some 2 ->
  inv (goto (set_bucket s (queue_of t m) (l ++ [t])) t (FAsleep m)).
Proof.
  intros HI Ht Hm Hl Hw. destruct HI as [IM IQ IP IW].
  constructor; [by apply (mem_same s)|by apply queue_enqueue|..]; cbn [pcs word goto set_bucket].
  - intros u pu mu Hu Hmu. destruct (decide (u = t)) as [->|Hne].
    + rewrite lookup_insert_eq in Hu. injection Hu as <-. injection Hmu as <-. by eexists.
    + rewrite lookup_insert_ne in Hu by done. by eapply IP.
  - intros u mu Hu. destruct (decide (u = t)) as [->|Hne].
    + rewrite lookup_insert_eq in Hu. injection Hu as <-. by left.
    + rewrite lookup_insert_ne in Hu by done. destruct (IW u mu Hu) as [?|Hf]; [by left|right].
      apply (in_flight_goto s _ t (FWait m) (FAsleep m)); try done. by intros [|[|]].
Qed.

Lemma inv_wake_section s t m s' : inv s -> apart s -> pcs s !! t = Some (FWake m) ->
  unlock_wake s t m = Some s' -> inv s'.
Proof.
  intros HI Hapart Ht. pose proof HI as [IM IQ IP IW]. unfold unlock_wake.
  destruct (Z.eqb_spec (Z.land m 3) 0) as [Hal|Hal]; cbn [negb].
  2: { intros [= <-]. constructor; [by apply (mem_same s)|by apply (queue_goto s _ t (FWake m) FIdle)|..];
         cbn [pcs word goto].
       - intros u pu mu Hu Hmu. destruct (decide (u = t)) as [->|Hne].
         + rewrite lookup_insert_eq in Hu. by injection Hu as <-.
         + rewrite lookup_insert_ne in Hu by done. by eapply IP.
       - intros u mu Hu. destruct (decide (u = t)) as [->|Hne].
         { rewrite lookup_insert_eq in Hu. discriminate. }
         rewrite lookup_insert_ne in Hu by done. destruct (IW u mu Hu) as [?|Hf]; [by left|right].
         apply (in_flight_goto s _ t (FWake m) FIdle); try done. intros Hway _.
         assert (mu = m) as -> by (by apply (on_its_way_of (FWake m))). by destruct (qi_asleep _ IQ u m Hu). }
  destruct (bucket s !! queue_of t m) as [l|] eqn:Hl; [|done]. cbn [mbind option_bind].
  destruct (wake_split owner (owner t) 1 l) as [a b] eqn:Hs. intros [= <-].
  pose proof (queue_wake s t m l a b IQ Ht Hl Hs) as HQ'.
  pose proof (split_one owner (owner t) l (qi_nodup _ IQ _ _ Hl)) as H1. rewrite Hs in H1.
  destruct H1 as (Hna & Hin & _ & _ & Hone).
  assert (forall u, u <> t -> <[t := FUnblock a]> (foldr (alter take_out) (pcs s) a) !! u
            = if decide (u ∈ a) then take_out <$> pcs s !! u else pcs s !! u) as Hpc.
  { intros u Hu. rewrite lookup_insert_ne by done. by apply lookup_foldr_alter. }
  constructor; [by apply (mem_same s)|done|..]; cbn [pcs word goto set_bucket].
  - intros u pu mu Hu Hmu. destruct (decide (u = t)) as [->|Hne].
    + rewrite lookup_insert_eq in Hu. by injection Hu as <-.
    + rewrite Hpc in Hu by done. destruct (decide (u ∈ a)); [|by eapply IP].
      destruct (pcs s !! u) as [p|] eqn:Hp; [|done]. cbn in Hu. injection Hu as <-.
      apply (IP u p mu Hp). by destruct p.
  - intros u mu Hu. destruct (decide (u = t)) as [->|Hne];
      [rewrite lookup_insert_eq in Hu; discriminate|]. rewrite Hpc in Hu by done.
    destruct (decide (u ∈ a)) as [Ha|Ha].
    { destruct (pcs s !! u) as [p|]; [|done]. cbn in Hu. injection Hu as Hu. by destruct p. }
    destruct (IW u mu Hu) as [?|(x & px & Hx & Ho & Hway)]; [by left|right].
    destruct (decide (x = t)) as [->|Hxt].
    + rewrite Ht in Hx. injection Hx as <-. assert (mu = m) as -> by (by apply (on_its_way_of (FWake m))).
      destruct (qi_asleep _ IQ u m Hu) as (_ & lu & Hlu & Hul).
      assert (queue_of u m = queue_of t m) as Hqe by (unfold queue_of; by rewrite Ho).
      rewrite Hqe, Hl in Hlu. injection Hlu as <-.
      destruct (Hone ltac:(by exists u)) as [y ->]. destruct (Hin y ltac:(by left)) as [Hyl Hyo].
      destruct (qi_queue _ IQ _ _ y Hl Hyl) as (my & Hmy & Hqy).
      assert (my = m) as ->.
      { apply (Hapart (owner t)); [rewrite <- Hyo; by eapply IP|by eapply IP|].
        unfold queue_of in Hqy. by rewrite Hyo in Hqy. }
      exists y, (FTaken m). rewrite Hpc by (intros ->; congruence).
      rewrite decide_True, Hmy by by left. split_and!; [done|congruence|right; by left].
    + exists x, px. rewrite Hpc by done. rewrite Hx.
      split; [|done]. destruct (decide (x ∈ a)); [|done]. cbn. by destruct Hway as [->|[->| ->]].
Qed.

Lemma inv_unblock s t ts : inv s -> pcs s !! t = Some (FUnblock ts) -> inv (unlock_unblock s t ts).
Proof.
  intros HI Ht. pose proof HI as [IM IQ IP IW]. destruct ts as [|u us]; cbn [unlock_unblock].
  { constructor; [by apply (mem_same s)|by apply (queue_goto s _ t (FUnblock []) FIdle)|..]; cbn [pcs word goto].
    - intros x px mx Hx Hmx. destruct (decide (x = t)) as [->|Hne].
      + rewrite lookup_insert_eq in Hx. by injection Hx as <-.
      + rewrite lookup_insert_ne in Hx by done. by eapply IP.
    - intros x mx Hx. destruct (decide (x = t)) as [->|Hne];
        [rewrite lookup_insert_eq in Hx; discriminate|].
      rewrite lookup_insert_ne in Hx by done. destruct (IW x mx Hx) as [?|Hf]; [by left|right].
      apply (in_flight_goto s _ t (FUnblock []) FIdle); try done. by intros [|[|]]. }
  pose proof (queue_unblock s t u us IQ Ht) as HQ'.
  assert (forall x, x <> t -> <[t := FUnblock us]> (alter make_ready u (pcs s)) !! x
            = if decide (x = u) then make_ready <$> pcs s !! x else pcs s !! x) as Hpc.
  { intros x Hx. rewrite lookup_insert_ne by done. destruct (decide (x = u)) as [->|];
      [apply lookup_alter_eq|by apply lookup_alter_ne]. }
  constructor; [by apply (mem_same s)|done|..]; cbn [pcs word goto].
  - intros x px mx Hx Hmx. destruct (decide (x = t)) as [->|Hne].
    + rewrite lookup_insert_eq in Hx. by injection Hx as <-.
    + rewrite Hpc in Hx by done. destruct (decide (x = u)); [|by eapply IP].
      destruct (pcs s !! x) as [p|] eqn:Hp; [|done]. cbn in Hx. injection Hx as <-.
      apply (IP x p mx Hp). by destruct p.
  - intros x mx Hx. destruct (decide (x = t)) as [->|Hne];
      [rewrite lookup_insert_eq in Hx; discriminate|]. rewrite Hpc in Hx by done.
    assert (pcs s !! x = Some (FAsleep mx)) as Hx'.
    { destruct (decide (x = u)); [|done]. destruct (pcs s !! x) as [p|]; [|done].
      cbn in Hx. injection Hx as Hx. destruct p; cbn in Hx; congruence. }
    destruct (IW x mx Hx') as [?|(y & py & Hy & Ho & Hway)]; [by left|right].
    exists y, (if decide (y = u) then make_ready py else py).
    rewrite Hpc, Hy by (intros ->; rewrite Ht in Hy; injection Hy as <-; by destruct Hway as [|[|]]).
    split; [by destruct (decide (y = u))|split; [done|]]. destruct (decide (y = u)); [|done].
    destruct Hway as [->|[->| ->]]; cbn; unfold on_its_way; auto.
Qed.

Lemma goto_id (p : gmap Z fpc) t q : p !! t = Some q -> p = <[t := q]> p.
Proof. intros Ht. by rewrite insert_id. Qed.

Lemma run_act_inv s a s' : inv s -> apart s -> run_act s a = Some s' -> inv s'.
Proof.
  intros HI Hap. pose proof HI as [IM IQ IP IW]. destruct a as [t m|t m|t m|t]; cbn [run_act];
    destruct (pcs s !! t) as [p|] eqn:Ht; try done.
  - destruct p; try done. unfold dob_mutex_lock. destruct (word s !! (owner t, m)) as [c|] eqn:Hw; [|done].
    cbn [mbind option_bind]. destruct (Z.eqb_spec c 0) as [->|Hc]; intros [= <-].
    + apply (inv_word s _ t FIdle FIdle m 1); try done; auto; [by apply goto_id| |].
      * by apply (mem_acquire s _ t m 1); auto.
      * right. right. rewrite Hw. split; [done|]. by intros [|[|]].
    + apply (inv_word s _ t FIdle (if c =? 2 then FWait m else FXchg m) m c); try done; try (by destruct (c =? 2)); auto.
      * right. by destruct (c =? 2).
      * cbn. by rewrite insert_id.
      * by apply (mem_same s).
      * destruct (Z.eqb_spec c 2); [by left|right; left; by left].
  - destruct p; try done. unfold dob_mutex_trylock. destruct (word s !! (owner t, m)) as [c|] eqn:Hw; [|done].
    cbn [mbind option_bind]. destruct (Z.eqb_spec c 0) as [->|Hc]; intros [= <-]; [|done].
    apply (inv_word s _ t FIdle FIdle m 1); try done; auto; [by apply goto_id| |].
    + by apply (mem_acquire s _ t m 1); auto.
    + right. right. rewrite Hw. split; [done|]. by intros [|[|]].
  - destruct p; try done. destruct (decide ((t, m) ∈ held s)) as [Hh|]; [|done].
    unfold dob_mutex_unlock. destruct (word s !! (owner t, m)) as [c|] eqn:Hw; [|done].
    cbn [mbind option_bind]. intros [= <-].
    apply (inv_word s _ t FIdle (if c =? 2 then FWake m else FIdle) m 0); try done; try (by destruct (c =? 2)); auto.
    + destruct (c =? 2); auto.
    + by apply (mem_release s _ t m).
    + destruct (Z.eqb_spec c 2) as [->|Hc]; [right; left; right; by right|].
      right. right. rewrite Hw. split; [congruence|]. by intros [|[|]].
  - destruct p as [|m|m|m|m|m|ts]; try done.
    + unfold lock_xchg. destruct (word s !! (owner t, m)) as [c|] eqn:Hw; [|done].
      cbn [mbind option_bind]. destruct (Z.eqb_spec c 0) as [->|Hc]; intros [= <-].
      * apply (inv_word s _ t (FXchg m) FIdle m 2); try done; auto.
        by apply (mem_acquire s _ t m 2); auto.
      * apply (inv_word s _ t (FXchg m) (FWait m) m 2); try done; auto.
        by apply (mem_contend s _ (owner t) m c).
    + destruct (IP t (FWait m) m Ht eq_refl) as [c Hw]. unfold lock_wait.
      assert (inv (goto s t (FXchg m))) as Hagain.
      { apply (inv_word s _ t (FWait m) (FXchg m) m c); try done; auto.
        - cbn. by rewrite insert_id.
        - by apply (mem_same s).
        - right. left. by left. }
      destruct (Z.eqb_spec (Z.land m 3) 0) as [Hal|]; cbn [negb]; [|by intros [= <-]].
      destruct (bucket s !! queue_of t m) as [l|] eqn:Hl; [|done]. cbn [mbind option_bind].
      rewrite Hw. destruct (Z.eqb_spec c 2) as [->|]; cbn [negb]; intros [= <-]; [|done].
      by apply inv_enqueue.
    + by apply inv_wake_section.
    + intros [= <-]. by apply inv_unblock.
Qed.

(** The set of mutexes does not change. *)
Lemma run_act_words s a s' k : run_act s a = Some s' ->
  is_Some (word s' !! k) <-> is_Some (word s !! k).
Proof.
  assert (forall t m v c, word s !! (owner t, m) = Some c ->
    is_Some (<[(owner t, m) := v]> (word s) !! k) <-> is_Some (word s !! k)) as Hins.
  { intros t m v c Hc. destruct (decide (k = (owner t, m))) as [->|Hne].
    - rewrite lookup_insert_eq, Hc. split; by eexists.
    - by rewrite lookup_insert_ne. }
  destruct a as [t m|t m|t m|t]; cbn [run_act]; intros H;
    repeat (case_match; try discriminate H);
    unfold dob_mutex_lock, dob_mutex_trylock, dob_mutex_unlock, lock_xchg, lock_wait, unlock_wake in H;
    repeat (case_match || (apply bind_Some in H as (? & ? & H))); simplify_eq; try done;
    try (by eapply Hins).
  by destruct ts.
Qed.

Lemma apart_step s a s' : apart s -> run_act s a = Some s' -> apart s'.
Proof.
  intros Hap Hr x m m'. rewrite !(run_act_words s a s' _ Hr). apply Hap.
Qed.

Lemma start_inv s : start s -> inv s.
Proof.
  intros (Hw & Hb & Hb' & Hp & Hh). constructor; [| |intros t p m Ht Hm|intros t m Ht].
  - constructor; rewrite ?Hh; [|intros t t' m Ht; set_solver|intros t m Ht; set_solver].
    intros a m c Hc. rewrite (Hw _ _ Hc). split; [auto|]. split; [|done]. intros _ t Ht. set_solver.
  - constructor.
    + intros i Hi. rewrite Hb by done. by eexists.
    + intros q l t Hq Ht. rewrite (Hb' _ _ Hq) in Ht. by apply not_elem_of_nil in Ht.
    + intros q l Hq. rewrite (Hb' _ _ Hq). constructor.
    + intros t m Ht. by apply Hp in Ht.
    + intros t m Ht. by apply Hp in Ht.
  - apply Hp in Ht. by subst p.
  - by apply Hp in Ht.
Qed.

Lemma reachable_inv s0 s : start s0 -> apart s0 -> reachable step s0 s -> inv s /\ apart s.
Proof.
  intros H0 Ha. apply (reachable_ind_inv step (fun s => inv s /\ apart s)).
  - split; [by apply start_inv|done].
  - intros x y [Hx Hax] [a Hr]. split; [by eapply run_act_inv|by eapply apart_step].
Qed.

Lemma queue_of_index t m : exists i, 0 <= i < FUTEX_BUCKETS /\ queue_of t m = s_buckets + i.
Proof.
  unfold queue_of, bucket_for. eexists. split; [|reflexivity].
  change (FUTEX_BUCKETS - 1) with (Z.ones 7). rewrite Z.land_ones by lia.
  apply Z.mod_pos_bound. done.
Qed.

(** A thread inside a call has a next section, unless it sleeps or waits to be unblocked. *)
Definition running (p : fpc) : Prop :=
  match p with FXchg _ | FWait _ | FWake _ | FUnblock _ => True | _ => False end.

Lemma running_steps s t p : inv s -> pcs s !! t = Some p -> running p -> is_Some (run_act s (ANext t)).
Proof.
  intros [_ IQ IP _] Ht Hp. cbn [run_act]. rewrite Ht.
  assert (forall m, is_Some (bucket s !! queue_of t m)) as Hb.
  { intros m. destruct (queue_of_index t m) as (i & Hi & ->). by apply (qi_buckets _ IQ). }
  destruct p as [|m|m|m|m|m|ts]; try done.
  - destruct (IP t _ m Ht eq_refl) as [c Hc]. unfold lock_xchg. rewrite Hc. by eexists.
  - unfold lock_wait. destruct (negb _); [by eexists|]. destruct (Hb m) as [l Hl]. rewrite Hl. cbn.
    destruct (word s !! (owner t, m)) as [c|]; [|by eexists]. destruct (negb (c =? 2)); by eexists.
  - unfold unlock_wake. destruct (negb _); [by eexists|]. destruct (Hb m) as [l Hl]. rewrite Hl. cbn.
    destruct (wake_split owner (owner t) 1 l). by eexists.
Qed.

End mutex.

(** C15: the futex mutex.  Any number of threads of any number of processes use dob_mutex_lock,
    trylock and unlock, interleaved instruction by instruction, with the mutexes of one process
    in different buckets.  Then no two threads of a process hold the same mutex; a word is 0
    exactly while nobody holds its mutex; every call that does not sleep has its next section;
    and no wake-up is lost: when every thread is outside the calls or asleep, each sleeper's
    word is 2 and its mutex is held by a thread of its process, whose unlock will wake it. *)
Theorem mutex_exclusion_and_wakeup s_buckets owner s0 s :
  start s_buckets s0 -> apart s_buckets s0 -> reachable (step s_buckets owner) s0 s ->
  (forall t t' m, (t, m) ∈ held s -> (t', m) ∈ held s -> owner t = owner t' -> t = t') /\
  (forall a m c, word s !! (a, m) = Some c ->
     (c = 0 <-> forall t, (t, m) ∈ held s -> owner t <> a)) /\
  (forall t p, pcs s !! t = Some p -> running p ->
     is_Some (run_act s_buckets owner s (ANext t))) /\
  ((forall t p, pcs s !! t = Some p -> p = FIdle \/ exists m, p = FAsleep m) ->
   forall t m, pcs s !! t = Some (FAsleep m) ->
     word s !! (owner t, m) = Some 2 /\ exists u, (u, m) ∈ held s /\ owner u = owner t).
Proof.
  intros H0 Ha Hr. destruct (reachable_inv s_buckets owner s0 s H0 Ha Hr) as [HI _].
  pose proof HI as [IM IQ IP IW]. split_and!.
  - intros t t' m. apply (mi_held _ _ IM).
  - intros a m c Hc. by apply (mi_word _ _ IM).
  - intros t p. by apply running_steps.
  - intros Hrest t m Ht. assert (word s !! (owner t, m) = Some 2) as H2.
    { destruct (IW t m Ht) as [?|(u & p & Hu & _ & Hway)]; [done|].
      destruct (Hrest u p Hu) as [->|[m' ->]]; by destruct Hway as [|[|]]. }
    split; [done|]. destruct (mi_word _ _ IM _ _ _ H2) as [_ [_ Hno]].
    destruct (decide (Exists (fun x => x.2 = m /\ owner x.1 = owner t) (elements (held s)))) as [He|Hn].
    + apply Exists_exists in He as ([u m'] & Hin & Hm & Ho). cbn in *. subst m'.
      exists u. split; [by apply elem_of_elements|done].
    + discriminate Hno. intros u Hu Ho. apply Hn, Exists_exists. exists (u, m).
      split; [by apply elem_of_elements|done].
Qed.

(** *** Concrete runs *)

Fixpoint run_acts (s_buckets : Z) (owner : Z -> Z) (s : state) (l : list act) : option state :=
  match l with
  | [] => Some s
  | a :: l' => s1 ← run_act s_buckets owner s a; run_acts s_buckets owner s1 l'
  end.

Lemma run_acts_reachable b o l : forall s0 s s', reachable (step b o) s0 s ->
  run_acts b o s l = Some s' -> reachable (step b o) s0 s'.
Proof.
  induction l as [|a l IH]; cbn [run_acts]; intros s0 s s' Hr H; [congruence|].
  apply bind_Some in H as (s1 & H1 & H2). apply (IH s0 s1 s'); [|done].
  eapply reach_step; [exact Hr|by exists a].
Qed.

(** One process at 0xC1000000 with threads 1 to 4 and two mutexes. *)
Definition one_process : Z -> Z := fun _ => 0xC1000000.
Definition no_calls (m1 m2 : Z) : state :=
  mk_state (<[(0xC1000000, m1) := 0]> {[(0xC1000000, m2) := 0]})
    (list_to_map (map (fun i => (1 + i, [])) (seqZ 0 FUTEX_BUCKETS)))
    (list_to_map (map (fun t => (t, FIdle)) [1; 2; 3; 4])) ∅.

Lemma no_calls_start m1 m2 : start 1 (no_calls m1 m2).
Proof.
  split_and!; cbn [word bucket pcs held no_calls]; [| | | |done].
  - intros k c. destruct (decide (k = (0xC1000000, m1))) as [->|].
    + rewrite lookup_insert_eq. congruence.
    + rewrite lookup_insert_ne by done. by intros [_ ?]%lookup_singleton_Some.
  - intros i Hi. apply elem_of_list_to_map_1.
    + rewrite <- list_fmap_compose. cbn. change (NoDup (Z.add 1 <$> seqZ 0 FUTEX_BUCKETS)).
      rewrite fmap_add_seqZ. apply NoDup_seqZ.
    + apply list_elem_of_fmap. exists i. split; [done|]. apply elem_of_seqZ. unfold FUTEX_BUCKETS in *. lia.
  - intros q l Hq%elem_of_list_to_map_2%list_elem_of_fmap. destruct Hq as (i & Hi & _). congruence.
  - intros t p Hp%elem_of_list_to_map_2%list_elem_of_fmap. destruct Hp as (i & Hi & _). congruence.
Qed.

Lemma no_calls_apart m1 m2 :
  bucket_for 1 0xC1000000 m1 <> bucket_for 1 0xC1000000 m2 -> apart 1 (no_calls m1 m2).
Proof.
  intros Hne.
  assert (forall a m, is_Some (word (no_calls m1 m2) !! (a, m)) -> a = 0xC1000000 /\ (m = m1 \/ m = m2)) as H.
  { intros a m [c Hc]. cbn [word no_calls] in Hc.
    apply lookup_insert_Some in Hc as [[[= <- <-] _]|[_ Hc]]; [auto|].
    apply lookup_singleton_Some in Hc as [[= <- <-] _]. auto. }
  intros a m m' Hm Hm' Hb. destruct (H a m Hm) as [-> Hc], (H _ m' Hm') as [_ Hc'].
  destruct Hc as [->| ->], Hc' as [->| ->]; congruence.
Qed.

Definition at_rest (s : state) : bool :=
  forallb (fun x => match x.2 with FIdle | FAsleep _ => true | _ => false end) (map_to_list (pcs s)).

Lemma at_rest_sound s : at_rest s = true ->
  forall t p, pcs s !! t = Some p -> p = FIdle \/ exists m, p = FAsleep m.
Proof.
  intros H t p Hp%elem_of_map_to_list. unfold at_rest in H. rewrite List.forallb_forall in H.
  specialize (H (t, p) (proj1 (list_elem_of_In _ _) Hp)). destruct p; try discriminate; eauto.
Qed.

(** Thread 1 takes the mutex, 2 and 3 sleep, 1 unlocks and 2 has it, with 3 asleep. *)
Definition handover : list act :=
  [ALock 1 0x10000; ALock 2 0x10000; ANext 2; ALock 3 0x10000; ANext 2; ANext 3;
   AUnlock 1 0x10000; ANext 1; ANext 1; ANext 2; ANext 1].

Definition handed_over : state :=
  default (no_calls 0x10000 0x10004) (run_acts 1 one_process (no_calls 0x10000 0x10004) handover).

Lemma mutex_exclusion_and_wakeup_witness :
  word handed_over !! (0xC1000000, 0x10000) = Some 2 /\
  exists u, (u, 0x10000) ∈ held handed_over /\ one_process u = one_process 3.
Proof.
  assert (reachable (step 1 one_process) (no_calls 0x10000 0x10004) handed_over) as Hr.
  { apply (run_acts_reachable 1 one_process handover _ (no_calls 0x10000 0x10004)); [apply reach_here|].
    vm_compute. reflexivity. }
  destruct (mutex_exclusion_and_wakeup 1 one_process (no_calls 0x10000 0x10004) handed_over)
    as (_ & _ & _ & H).
  - apply no_calls_start.
  - apply no_calls_apart. vm_compute. congruence.
  - exact Hr.
  - apply (H); [|vm_compute; reflexivity].
    apply at_rest_sound. vm_compute. reflexivity.
Defined.

(** Two mutexes 128 bytes apart share a bucket, because only the low seven bits of the product
    are kept.  Thread 1 holds the first, 3 the second; 2 sleeps for the second, then 4 for the
    first.  The unlock of the first wakes 2, who goes back to sleep for the second: the first
    mutex is free and thread 4 sleeps for it with nobody left to wake it. *)
Definition collision : list act :=
  [ALock 1 0x10000; ALock 3 0x10080; ALock 2 0x10080; ANext 2; ANext 2; ALock 4 0x10000; ANext 4;
   ANext 4; AUnlock 1 0x10000; ANext 1; ANext 1; ANext 1; ANext 2; ANext 2].

Remark collision_loses_wakeup :
  (s ← run_acts 1 one_process (no_calls 0x10000 0x10080) collision;
   Some (word s !! (0xC1000000, 0x10000), pcs s !! 1, pcs s !! 2, pcs s !! 3, pcs s !! 4))
  = Some (Some 0, Some FIdle, Some (FAsleep 0x10080), Some FIdle, Some (FAsleep 0x10000)).
Proof. by vm_compute. Qed.

End Fmutex.
